(* ===== verification/_CoqProject ===== *)
-Q . S2P
Prelude.v
GoStrings.v
GoPath.v
Acl.v
AclRule.v
Json.v
JsonText.v
PgAcl.v
Jwt.v
Authz.v
PosixFs.v
LocalFs.v
CrashLogic.v
FsTriples.v
FsRuns.v
FsInvariant.v
RemoveSpec.v
LocalFsProps.v
Storage.v
LocalStorage.v
LocalStorageProps.v
OldLocalProps.v
Confined.v
LocalStorageOps.v
Procs.v
ConcWrites.v
ObjectStore.v
S3.v
S3Props.v
Gcs.v
GcsProps.v
Listings.v
Queue.v
QueueProps.v
Server.v
ServerProps.v
Rpc.v
RpcProps.v
Sftp.v
SftpProps.v
StorageLens.v
Config.v
Generated.v
Cmd.v
Main.v
System.v
Migrate.v
