(* ===== verification/Prelude.v ===== *)
(** * File engine: a verification development

    The program (src/file-engine, Go) serves files to authenticated users. A gRPC server and an
    HTTP server authenticate a request by its JSON web token, authorize its path against
    access-control entries and roles, and then either act on a storage backend (local disk, S3
    or Google Cloud Storage) or put a task on a Redis list, which a worker process carries out
    on the same kind of backend. Beside these there are a hardened local file system, an SFTP
    one, two older local adapters with an older worker, an HTTP task API with an in-memory
    table, a stub gRPC server and a database migration runner.

    ** Files and the code they model

    The libraries of Go that the code uses:
    - Prelude: errors, fallible results, and [prog], a state and error monad with divergence.
    - GoStrings: strings; GoPath: path/filepath on Unix; Json and JsonText: encoding/json, its
      values and its text (UTF-8, escaping, grammar, nesting limit).
    - PosixFs: the os package over a tree with symbolic links. Every call may be made to fail by
      a script, and every state of the tree is recorded, so that a theorem can range over all
      failures and all moments of a crash. CrashLogic has the Hoare triples with a crash
      condition, FsTriples the triples of the os calls, FsRuns the runs without failures,
      FsInvariant the well-formedness of the tree, RemoveSpec what [os.RemoveAll] removes.

    The components:
    - Acl: internal/auth permissions.go, roles.go, acl.go, store.go (class [ACLStore]; class
      [CompleteBatch] of the stores whose multi-path query answers completely),
      inmemory_store.go (Module [InMemory]), resolver.go ([CanAccess]). AclRule: the rule that
      the documents state, beside the one of the code.
    - PgAcl: internal/auth/postgres_store.go, an instance of the same class: a table whose
      server may be down, refuse entries, or end a result early.
    - Jwt: internal/auth jwt.go, context.go, http_middleware.go, grpc_interceptor.go.
    - Authz: internal/authz method_map.go, path_extract.go, grpc_authz_interceptor.go.
    - LocalFs, LocalFsProps: internal/filesystem/fs.go.
    - Storage: internal/storage/storage.go, the record of operations and its contract
      [StorageSpec]. LocalStorage, LocalStorageProps: internal/adapters/storage/local (Module
      [LocalStorage]), internal/adapters/fs/local (Module [OldLocal]), internal/fs/local_fs.go
      (Module [FirstLocal]). LocalStorageOps has deletion and listing, OldLocalProps the older
      adapter and the interface of internal/fs/filesystem.go. Confined ranges over the calls of
      all four local implementations. Procs is the atomic write call by call, ConcWrites its
      interleavings. StorageLens: a backend over a part of a larger state. ObjectStore, S3,
      S3Props, Gcs, GcsProps: internal/adapters/storage/s3 and gcs; Listings has their listings.
    - Queue, QueueProps: internal/adapters/queue/redisq (Module [Redisq]), internal/app/tasks
      (Module [Tasks]), internal/worker (Module [OldWorker]).
    - Server, ServerProps: internal/services/object_service.go, internal/handlers/grpc_handler.go,
      internal/server/download_http.go, and the interceptor chains. Rpc, RpcProps: both servers
      of internal/server/server.go.
    - Sftp, SftpProps: internal/filesystem/sftp_client.go.
    - Config: internal/config, internal/storage/factory.go, internal/di, cmd/worker's set-up.
    - Generated: pkg/generated/stub.go (Module [Pb]). Cmd: the handlers and the router of
      cmd/main.go (Module [TaskApi]), the handlers of cmd/server (Module [StubServer]). Main:
      internal/logger (Module [Logger]) and the main functions. Migrate: cmd/migrate.
    - System: the configured process, from the call of a client to the disk.

    The state of a component is explicit: the ACL store, the [world] of the file system, the
    objects behind a cloud client, the lists and keys of Redis, the task table. A process that
    owns several of them runs over their product ([sys] in Server, [stores] in Config, pairs in
    Queue and Migrate), and the calls of one component are lifted into it. A process is its log
    and its exit status, as a function of the events it meets ([run_state], [event] in Main).

    ** What the theorems show

    - Access control: [CanAccess] returns on rooted paths and grants exactly what the entries of
      the user and its roles on the path and its ancestors, or the role table, grant. This is
      not the documented rule, in which the closest entry decides: the code grants at least what
      the documents do, and more where an entry withholds (AclRule). The batch query and the
      loop agree when the batch answers are complete; storing entries has exactly its effect;
      the PostgreSQL store decides as the in-memory one with the entries it accepted, grants no
      more when its results end early, and fails closed when it is down. On paths without a
      leading slash the check never returns, and a path ending in ".." is decided by the wrong
      entry.
    - Authentication: an identity comes only from a verified token of a configured key family
      with the right issuer, audience and subject; everything else is rejected.
    - Authorization: each branch of the interceptors; behind the chain a handler of a mapped
      method runs only for an allowed caller, one of an unmapped method for every authenticated
      caller. The local backend serves the authorized location for a path without white space
      around it, decided by the entries on that location and above unless the path ends in
      "..". A stream is guarded at its first message only.
    - Servers: refused calls are as if they had never been made, over any sequence of calls; the
      download stream on every branch, and the sizes of its messages for every storage whose
      readers keep the rules of io.Reader (class [StreamStorage]); the raw HTTP download on every
      branch.
    - Local file system: returned paths lie below the base; atomic writes and moves are safe
      under every failure and at every crash; without failures they succeed. A new target below
      a link can leave the base, and the older adapter does not resolve links at all. On disks
      without links no sequence of calls of the local implementations changes anything outside
      the base, at any moment, but for the directories on the way to it and the temporary files
      of writes to the base itself. The tree stays well formed (FsInvariant).
    - Listings: one level of the tree of keys, exactly, on S3; the whole subtree on GCS.
    - Storage: every backend keeps the contract of atomic writes and reads, so that what was
      uploaded is what is downloaded (S3 for keys without an escape sequence: with one, writes
      and moves act on another object); moves that lose nothing and moves that do. On local disks
      deletion removes exactly what it should, listing is exact, and concurrent atomic writes
      are linearizable under every interleaving of their system calls and every failure. An SFTP
      write creates a file whole or not at all and never replaces one.
    - Queue and worker: payloads survive their encoding; the worker runs the queue in order and
      records every outcome; the older worker does too, but cannot be stopped.
    - Configuration and processes: what a started server is guaranteed to have, and that its
      parts fit each other and the worker; how the server process ends. In a process configured
      for local storage, what permitted clients upload, download and create is what is on the
      disk (System).
    - Task API and migrations: accepted requests can be followed up, sizes are int64 exactly;
      migrations run once each, in name order, up to the first failure.

    ** Fuel and bounds

    Loops whose recursion is not structural take fuel and give [None] when it runs out.
    [path_fuel] (two more than the length of the path) is enough for [parentPaths], since each
    round shortens a rooted path; slash collapsing and MkdirAll get more than the length of
    their path; the JSON reader gets twice the length of its text. The theorems say that these
    runs return. CreateTemp tries 10000 names, as the os package does; path resolution follows
    40 links as the kernel and 255 in EvalSymlinks. The worker's [Start] runs as many rounds as
    its context lives.

    ** Third-party code

    golang-jwt, x509, pgx, the AWS, Google, Redis, SSH and SFTP clients are parameters: records
    or classes of operations, with their documented behaviour as named laws ([JwtLibLaws],
    [S3Laws], [GcsLaws], [RedisUp], [SftpLaws], [RouterLaws]). So is the service code that protoc generates
    from the .proto file ([FileEngineService]); the stand-in for it that is in the repository,
    which registers nothing, is modelled in Generated. An error reply of a service may arrive after it has acted.
    Each set of laws has a concrete instance, at which the theorems are applied.

    ** Not modelled

    Listening, TLS, the gateway proxy and the reading of the network: the servers are functions
    of the calls that reach them. Time stamps and formatting of log lines, and the lines that
    the servers log themselves. The order of the goroutines of a process is the order of the
    events it is given. Two requests run one after the other, each cut off at any point by a
    crash; only atomic writes are interleaved. A few Go files hold no code. The PHP portal and
    the front end are other programs.

    ** Plan

    To be added: interleavings of deletions and moves with atomic writes, and the exact effect
    of moves of the older local adapters. *)
From stdpp Require Export base tactics list option strings gmap.

#[global] Set Default Goal Selector "!".

(** stdpp blocks the reduction of string concatenation; the proofs here use it. *)
#[global] Arguments String.append : simpl nomatch.

(** ** Go errors and fallible results *)

(** The POSIX error numbers that the code can observe. *)
Inductive errno :=
  | ENOENT | ENOTDIR | EEXIST | EISDIR | ENOTEMPTY | ELOOP | EXDEV | EACCES | EIO | EINVAL | ENOSPC.

#[global] Instance errno_eq_dec : EqDecision errno.
Proof. solve_decision. Defined.

(** gRPC status codes used by the interceptors and handlers. *)
Inductive code := Unauthenticated | InvalidArgument | PermissionDenied.

#[global] Instance code_eq_dec : EqDecision code.
Proof. solve_decision. Defined.

(** Go [error] values: [errors.New] / [fmt.Errorf] without a wrapped error,
    [fmt.Errorf] with [%w], an [*os.PathError] or [*os.LinkError], a gRPC status,
    the context error and an opaque error of a third-party library. *)
Inductive error :=
  | ErrNew (msg : string)
  | ErrWrap (msg : string) (e : error)
  | ErrOs (op : string) (e : errno)
  | ErrStatus (c : code) (msg : string)
  | ErrCanceled
  | ErrExt (msg : string).

#[global] Instance error_eq_dec : EqDecision error.
Proof. solve_decision. Defined.

(** A Go [(T, error)] pair of which the caller uses the value only when the
    error is nil. *)
Inductive result (A : Type) :=
  | Ok (a : A)
  | Err (e : error).
Arguments Ok {A} a.
Arguments Err {A} e.

#[global] Instance result_eq_dec `{EqDecision A} : EqDecision (result A).
Proof. solve_decision. Defined.

#[global] Instance Ok_inj {A} : Inj (=) (=) (@Ok A).
Proof. by intros a b [=]. Qed.

Definition is_ok {A} (r : result A) : bool :=
  match r with Ok _ => true | Err _ => false end.

Definition result_bind {A B} (r : result A) (k : A → result B) : result B :=
  match r with Ok a => k a | Err e => Err e end.

(** An error with [fmt.Errorf("msg: %w")] around it. *)
Definition result_wrap {A} (msg : string) (r : result A) : result A :=
  match r with Ok a => Ok a | Err e => Err (ErrWrap msg e) end.

Lemma result_wrap_ok {A} msg (r : result A) a : result_wrap msg r = Ok a → r = Ok a.
Proof. by destruct r. Qed.

(** ** Programs *)

(** A Go function that reads and changes a shared state [W] and returns [(A, error)]. [None]
    stands for a run that has not returned within the fuel of one of its loops. *)
Definition prog (W A : Type) : Type := W → option (result A * W).

Definition ret {W A} (a : A) : prog W A := fun w => Some (Ok a, w).
Definition throw {W A} (e : error) : prog W A := fun w => Some (Err e, w).
Definition diverge {W A} : prog W A := fun _ => None.

(** Go's [if err != nil { return err }] after a call. *)
Definition bind {W A B} (m : prog W A) (k : A → prog W B) : prog W B := fun w =>
  match m w with
  | None => None
  | Some (Ok a, w') => k a w'
  | Some (Err e, w') => Some (Err e, w')
  end.

(** A call whose error the caller inspects. *)
Definition attempt {W A} (m : prog W A) : prog W (result A) := fun w =>
  match m w with
  | None => None
  | Some (r, w') => Some (Ok r, w')
  end.

(** A pure fallible call. *)
Definition lift {W A} (r : result A) : prog W A := fun w => Some (r, w).

(** A call that may not return. *)
Definition total {W A} (o : option A) : prog W A := fun w => (fun a => (Ok a, w)) <$> o.

Definition gets {W A} (f : W → A) : prog W A := fun w => Some (Ok (f w), w).
Definition modify {W} (f : W → W) : prog W unit := fun w => Some (Ok tt, f w).

(** ** Notations *)
Declare Scope go_scope.
Delimit Scope go_scope with go.
Notation "'let!' x ':=' m 'in' k" := (bind m (fun x => k))
  (at level 10, x binder, m at level 100, k at level 200) : go_scope.
Notation "'do!' m 'in' k" := (bind m (fun _ => k))
  (at level 10, m at level 100, k at level 200) : go_scope.

(** ** Tactics *)

(** Case analysis on every boolean test, option or match of the goal, closing
    the contradictory branches. *)
Ltac go_cases :=
  repeat (first [ case_decide | case_match ]; simplify_eq/=; try done).

(** Rewrites boolean connectives and [bool_decide] in the context to [Prop]. *)
Ltac go_bool :=
  repeat match goal with
  | H : _ && _ = true |- _ => apply andb_true_iff in H; destruct H
  | H : _ || _ = true |- _ => apply orb_true_iff in H
  | H : _ || _ = false |- _ => apply orb_false_iff in H; destruct H
  | H : negb _ = true |- _ => apply negb_true_iff in H
  | H : negb _ = false |- _ => apply negb_false_iff in H
  | H : bool_decide _ = true |- _ => apply bool_decide_eq_true_1 in H
  | H : bool_decide _ = false |- _ => apply bool_decide_eq_false_1 in H
  end.

(** Facts about cleaned paths and their elements. *)
Create HintDb gopath.

(** ** Runs of sequenced programs *)

Lemma bind_ok {W A B} (m : prog W A) (k : A → prog W B) w a w1 : m w = Some (Ok a, w1) → bind m k w = k a w1.
Proof. unfold bind. by intros ->. Qed.

Lemma bind_none {W A B} (m : prog W A) (k : A → prog W B) w : m w = None → bind m k w = None.
Proof. unfold bind. by intros ->. Qed.

Lemma bind_attempt {W A B} (m : prog W A) (k : result A → prog W B) w r w1 :
  m w = Some (r, w1) → bind (attempt m) k w = k r w1.
Proof. unfold bind, attempt. by intros ->. Qed.

Lemma bind_attempt_none {W A B} (m : prog W A) (k : result A → prog W B) w :
  m w = None → bind (attempt m) k w = None.
Proof. unfold bind, attempt. by intros ->. Qed.

(** ** Lists *)

Lemma existsb_ext_perm {A} (f : A → bool) (l1 l2 : list A) :
  l1 ≡ₚ l2 → existsb f l1 = existsb f l2.
Proof.
  induction 1; simpl; try congruence.
  destruct (f x), (f y); reflexivity.
Qed.

Lemma existsb_elem_of {A} (f : A → bool) (l : list A) :
  existsb f l = true ↔ ∃ x, x ∈ l ∧ f x = true.
Proof.
  rewrite existsb_exists. split.
  - intros (x & Hx & Hf). exists x. rewrite list_elem_of_In. done.
  - intros (x & Hx & Hf). exists x. rewrite <- list_elem_of_In. done.
Qed.

(** Non-empty prefixes of a list, longest first, then the empty one. *)
Fixpoint prefixes_desc {A} (n : nat) (l : list A) : list (list A) :=
  match n with
  | 0 => [[]]
  | S n' => take n l :: prefixes_desc n' l
  end.

Lemma elem_of_prefixes_desc {A} (l q : list A) n :
  n ≤ length l →
  q ∈ prefixes_desc n l ↔ q `prefix_of` l ∧ length q ≤ n.
Proof.
  induction n as [|n IH]; intros Hn.
  - simpl. rewrite list_elem_of_singleton. split.
    + intros ->. split; [apply prefix_nil | done].
    + intros [_ Hq]. destruct q; simpl in *; [done | lia].
  - cbn [prefixes_desc]. rewrite elem_of_cons, IH by lia. split.
    + intros [-> | [? ?]]; [|split; [done | lia]].
      split; [exists (drop (S n) l); by rewrite take_drop | rewrite length_take; lia].
    + intros [[k ->] Hle]. destruct (decide (length q = S n)) as [E|].
      * left. rewrite <- E. by rewrite take_app_length.
      * right. split; [by exists k | lia].
Qed.
