(* ===== verification/GoStrings.v ===== *)
(** * The Go [strings] package

    Go strings are byte sequences, here [string] (a list of 8-bit [ascii]). This file holds
    the functions of the standard library's [strings] package that the file engine calls,
    with the laws the component proofs use. *)
From S2P Require Import Prelude.
From Stdlib Require Import Ascii.

#[local] Open Scope string_scope.
#[local] Open Scope nat_scope.
#[local] Open Scope list_scope.

(** ** Prefixes and suffixes *)

Fixpoint HasPrefix (s pre : string) {struct pre} : bool :=
  match pre, s with
  | "", _ => true
  | String a pre', String b s' => bool_decide (a = b) && HasPrefix s' pre'
  | _, "" => false
  end.

Fixpoint sdrop (n : nat) (s : string) : string :=
  match n, s with
  | 0, _ => s
  | S n', String _ s' => sdrop n' s'
  | S _, "" => ""
  end.

(** The first [n] bytes. *)
Fixpoint stake (n : nat) (s : string) : string :=
  match n, s with
  | S n', String a s' => String a (stake n' s')
  | _, _ => ""
  end.

Fixpoint srev_app (s acc : string) : string :=
  match s with
  | "" => acc
  | String a s' => srev_app s' (String a acc)
  end.

Definition srev (s : string) : string := srev_app s "".

Definition HasSuffix (s suf : string) : bool := HasPrefix (srev s) (srev suf).

Definition TrimPrefix (s pre : string) : string :=
  if HasPrefix s pre then sdrop (String.length pre) s else s.

Definition TrimSuffix (s suf : string) : string :=
  if HasSuffix s suf then srev (sdrop (String.length suf) (srev s)) else s.

(** [strings.Trim(s, cutset)] for a one-byte cutset. *)
Fixpoint trim_left_byte (c : ascii) (s : string) : string :=
  match s with
  | String a s' => if bool_decide (a = c) then trim_left_byte c s' else s
  | "" => ""
  end.

Definition Trim (s : string) (c : ascii) : string :=
  srev (trim_left_byte c (srev (trim_left_byte c s))).

(** The bytewise order, [strings.Compare a b <= 0]. *)
Definition string_le (a b : string) : Prop := match String.compare a b with Gt => False | _ => True end.

#[global] Instance string_le_dec a b : Decision (string_le a b).
Proof. unfold string_le. case_match; apply _. Defined.

(** ** White space *)

(** UTF-8 encodings of the code points with the Unicode White_Space property, which is
    what [unicode.IsSpace] tests. *)
Definition bytes (l : list nat) : string :=
  foldr (fun n s => String (ascii_of_nat n) s) "" l.

Definition space_runes : list string :=
  map bytes
    ([[9]; [10]; [11]; [12]; [13]; [32]; [194; 133]; [194; 160]; [225; 154; 128];
      [226; 128; 168]; [226; 128; 169]; [226; 128; 175]; [226; 129; 159]; [227; 128; 128]]
     ++ map (fun k => [226; 128; 128 + k]) (seq 0 11)).

(** Removes, as often as possible, one of [rs] from the front of [s]; every round shortens
    the string, so [String.length s] rounds are enough. *)
Fixpoint strip_any (fuel : nat) (rs : list string) (s : string) : string :=
  match fuel with
  | 0 => s
  | S fuel' =>
      match List.find (HasPrefix s) rs with
      | Some r => strip_any fuel' rs (sdrop (String.length r) s)
      | None => s
      end
  end.

Definition TrimSpace (s : string) : string :=
  let l := strip_any (String.length s) space_runes s in
  srev (strip_any (String.length l) (map srev space_runes) (srev l)).

(** ** Case *)

(** [strings.ToLower] on the ASCII letters. The callers compare the result with "bearer ",
    "local", "s3", "gcs" and "debug"; no other code point lowers to a letter of these. *)
Definition lower_byte (a : ascii) : ascii :=
  let n := nat_of_ascii a in
  if Nat.leb 65 n && Nat.leb n 90 then ascii_of_nat (n + 32) else a.

Fixpoint ToLower (s : string) : string :=
  match s with
  | "" => ""
  | String a s' => String (lower_byte a) (ToLower s')
  end.

(** ** Searching and replacing *)

Fixpoint Contains (s sub : string) : bool :=
  HasPrefix s sub ||
  match s with
  | "" => false
  | String _ s' => Contains s' sub
  end.

(** [strings.ReplaceAll(s, old, new)] for a non-empty [old]: left to right, without
    overlaps. [skip] counts the bytes of a match still to be dropped. *)
Fixpoint replace_go (skip : nat) (s old new : string) : string :=
  match s with
  | "" => ""
  | String a s' =>
      match skip with
      | S k => replace_go k s' old new
      | 0 => if HasPrefix s old then new +:+ replace_go (String.length old - 1) s' old new
             else String a (replace_go 0 s' old new)
      end
  end.

Definition ReplaceAll (s old new : string) : string := replace_go 0 s old new.

(** ** Laws *)

Lemma append_nil_r s : s +:+ "" = s.
Proof. induction s as [|a s IH]; simpl; [done | by rewrite IH]. Qed.

Lemma append_assoc a b c : (a +:+ b) +:+ c = a +:+ (b +:+ c).
Proof. induction a as [|x a IH]; simpl; [done | by rewrite IH]. Qed.

Lemma append_inj_l a b c : a +:+ b = a +:+ c → b = c.
Proof. induction a; simpl; intros; simplify_eq; auto. Qed.

Lemma length_append a b : String.length (a +:+ b) = String.length a + String.length b.
Proof. induction a as [|x a IH]; simpl; [done | by rewrite IH]. Qed.

Lemma HasPrefix_spec s pre : HasPrefix s pre = true ↔ ∃ k, s = pre +:+ k.
Proof.
  revert s. induction pre as [|a pre IH]; intros [|b s]; simpl.
  - split; [intros _; by exists "" | done].
  - split; [intros _; by eexists | done].
  - split; [done | intros [k Hk]; done].
  - rewrite andb_true_iff, IH, bool_decide_eq_true. split.
    + intros [-> [k ->]]. by exists k.
    + intros [k Hk]. simplify_eq. split; [done | by exists k].
Qed.

Lemma HasPrefix_app pre k : HasPrefix (pre +:+ k) pre = true.
Proof. apply HasPrefix_spec. by exists k. Qed.

Lemma sdrop_app pre k : sdrop (String.length pre) (pre +:+ k) = k.
Proof. induction pre; simpl; auto. Qed.

Lemma TrimPrefix_app pre k : TrimPrefix (pre +:+ k) pre = k.
Proof. unfold TrimPrefix. by rewrite HasPrefix_app, sdrop_app. Qed.

Lemma stake_sdrop n s : stake n s +:+ sdrop n s = s.
Proof. revert s. induction n as [|n IH]; intros [|a s]; simpl; [done..|]. by rewrite IH. Qed.

Lemma length_stake n s : String.length (stake n s) = n `min` String.length s.
Proof. revert s. induction n as [|n IH]; intros [|a s]; simpl; [done..|]. by rewrite IH. Qed.

Lemma length_sdrop n s : String.length (sdrop n s) = String.length s - n.
Proof. revert s. induction n as [|n IH]; intros [|a s]; simpl; [done..|]. apply IH. Qed.

Lemma stake_app s k : stake (String.length s) (s +:+ k) = s.
Proof. induction s as [|a s IH]; simpl; [by destruct k|]. by rewrite IH. Qed.

Lemma srev_app_spec s acc : srev_app s acc = srev s +:+ acc.
Proof.
  unfold srev. revert acc. induction s as [|a s IH]; intros acc; simpl; [done|].
  rewrite IH, (IH (String a "")), append_assoc. done.
Qed.

Lemma srev_cons x s : srev (String x s) = srev s +:+ String x "".
Proof. unfold srev at 1. simpl. apply srev_app_spec. Qed.

Lemma srev_append a b : srev (a +:+ b) = srev b +:+ srev a.
Proof.
  induction a as [|x a IH]; simpl.
  - by rewrite append_nil_r.
  - by rewrite !srev_cons, IH, append_assoc.
Qed.

Lemma srev_involutive s : srev (srev s) = s.
Proof.
  induction s as [|a s IH]; [done|]. by rewrite srev_cons, srev_append, IH.
Qed.

Lemma length_srev s : String.length (srev s) = String.length s.
Proof.
  induction s as [|a s IH]; [done|].
  rewrite srev_cons, length_append, IH. simpl. lia.
Qed.

Lemma HasSuffix_spec s suf : HasSuffix s suf = true ↔ ∃ k, s = k +:+ suf.
Proof.
  unfold HasSuffix. rewrite HasPrefix_spec. split; intros [k Hk].
  - exists (srev k). rewrite <- (srev_involutive s), Hk, srev_append, srev_involutive. done.
  - exists (srev k). subst. by rewrite srev_append.
Qed.

Lemma TrimSuffix_app k suf : TrimSuffix (k +:+ suf) suf = k.
Proof.
  unfold TrimSuffix. replace (HasSuffix (k +:+ suf) suf) with true.
  - rewrite srev_append, <- (length_srev suf), sdrop_app. apply srev_involutive.
  - symmetry. apply HasSuffix_spec. by exists k.
Qed.

Lemma TrimSuffix_cases s suf :
  s = TrimSuffix s suf +:+ suf ∨ (TrimSuffix s suf = s ∧ HasSuffix s suf = false).
Proof.
  destruct (HasSuffix s suf) eqn:E.
  - left. apply HasSuffix_spec in E as [k ->]. by rewrite TrimSuffix_app.
  - right. unfold TrimSuffix. by rewrite E.
Qed.

(** [strip_any] removes a string made of whole runs of [rs]; what is left starts with none
    of them. *)
Lemma strip_any_suffix fuel rs s : ∃ k, s = k +:+ strip_any fuel rs s.
Proof.
  revert s. induction fuel as [|fuel IH]; intros s; simpl; [by exists ""|].
  destruct (List.find (HasPrefix s) rs) as [r|] eqn:E; [|by exists ""].
  apply List.find_some in E as [_ E]. apply HasPrefix_spec in E as [t ->].
  rewrite sdrop_app. destruct (IH t) as [k Hk]. exists (r +:+ k).
  by rewrite append_assoc, <- Hk.
Qed.

Lemma strip_any_none fuel rs s :
  Forall (fun r => r ≠ "") rs → String.length s ≤ fuel →
  List.find (HasPrefix (strip_any fuel rs s)) rs = None.
Proof.
  intros Hrs. revert s. induction fuel as [|fuel IH]; intros s Hlen; simpl.
  - destruct s; simpl in *; [|lia]. clear Hlen.
    induction Hrs as [|r rs Hr Hrs IH]; simpl; [done|]. destruct r; simpl; done.
  - destruct (List.find (HasPrefix s) rs) as [r|] eqn:E; [|done].
    apply List.find_some in E as [Hin E]. apply HasPrefix_spec in E as [t ->].
    rewrite sdrop_app. apply IH. rewrite length_append in Hlen.
    apply list_elem_of_In in Hin. rewrite Forall_forall in Hrs.
    apply Hrs in Hin. destruct r; [done|]. simpl in Hlen. lia.
Qed.

(** Two slashes in a row: the test of the [for] loop that collapses them. *)
Lemma Contains_app a b sub : Contains b sub = true → Contains (a +:+ b) sub = true.
Proof.
  intros H. induction a as [|x a IH]; simpl; [done|]. rewrite IH. apply orb_true_r.
Qed.

Lemma Contains_cons x s sub :
  Contains (String x s) sub = HasPrefix (String x s) sub || Contains s sub.
Proof. done. Qed.

Lemma Contains_spec s sub : Contains s sub = true ↔ ∃ a b, s = a +:+ sub +:+ b.
Proof.
  split.
  - induction s as [|x s IH].
    + destruct sub; [|done]. intros _. by exists "", "".
    + rewrite Contains_cons, orb_true_iff. intros [H|H].
      * apply HasPrefix_spec in H as [k Hk]. by exists "", k.
      * apply IH in H as (a & b & ->). by exists (String x a), b.
  - intros (a & b & ->). apply Contains_app.
    pose proof (HasPrefix_app sub b) as H.
    destruct (sub +:+ b) as [|x t]; [by destruct sub|].
    by rewrite Contains_cons, H.
Qed.

(** ** Trimmed strings *)

Lemma HasPrefix_app_cases x y z :
  HasPrefix (x +:+ y) z = true →
  HasPrefix x z = true ∨ ∃ z', z = x +:+ z' ∧ z' ≠ "" ∧ HasPrefix y z' = true.
Proof.
  revert z. induction x as [|a x IH]; intros z Hz; simpl in Hz.
  - destruct z as [|b z]; [by left|]. right. by exists (String b z).
  - destruct z as [|b z]; [by left|]. simpl in *. go_bool. subst.
    match goal with H : HasPrefix _ z = true |- _ => apply IH in H as [?|(z' & -> & ? & ?)] end.
    + left. by rewrite bool_decide_eq_true_2.
    + right. by exists z'.
Qed.

Lemma find_HasPrefix_None s rs :
  List.find (HasPrefix s) rs = None ↔ Forall (fun r => HasPrefix s r = false) rs.
Proof.
  induction rs as [|r rs IH]; simpl; [by split; [constructor|]|].
  destruct (HasPrefix s r) eqn:E; split; intros Hf; try done.
  - inversion Hf; congruence.
  - constructor; [done|]. by apply IH.
  - apply IH. by inversion Hf.
Qed.

Lemma strip_any_id fuel rs s : List.find (HasPrefix s) rs = None → strip_any fuel rs s = s.
Proof. intros Hn. destruct fuel; simpl; [done|]. by rewrite Hn. Qed.

Lemma strip_any_length fuel rs s : String.length (strip_any fuel rs s) ≤ String.length s.
Proof.
  destruct (strip_any_suffix fuel rs s) as [k Hk]. rewrite Hk at 2. rewrite length_append. lia.
Qed.

Lemma append_length_inj k s : s = k +:+ s → k = "".
Proof.
  intros E. apply (f_equal String.length) in E. rewrite length_append in E.
  destruct k; [done|]. simpl in E. lia.
Qed.

Lemma strip_any_same_length fuel rs s :
  String.length s ≤ String.length (strip_any fuel rs s) → strip_any fuel rs s = s.
Proof.
  destruct (strip_any_suffix fuel rs s) as [k Hk]. intros Hl.
  rewrite Hk in Hl at 1. rewrite length_append in Hl. destruct k; simpl in Hl; [|lia].
  by rewrite Hk at 2.
Qed.

Lemma space_runes_nonempty : Forall (fun r => r ≠ "") space_runes.
Proof. apply (bool_decide_unpack _). by vm_compute. Qed.

Lemma space_runes_rev_nonempty : Forall (fun r => r ≠ "") (map srev space_runes).
Proof. apply (bool_decide_unpack _). by vm_compute. Qed.

(** A string is unchanged by [TrimSpace] exactly when no white space starts or ends it. *)
Lemma TrimSpace_id_iff s :
  TrimSpace s = s ↔
  Forall (fun r => HasPrefix s r = false) space_runes ∧
  Forall (fun r => HasPrefix (srev s) r = false) (map srev space_runes).
Proof.
  rewrite <- !find_HasPrefix_None. split.
  - intros E. unfold TrimSpace in E.
    pose proof (strip_any_length (String.length s) space_runes s) as L1.
    set (l := strip_any (String.length s) space_runes s) in *.
    pose proof (strip_any_length (String.length l) (map srev space_runes) (srev l)) as L2.
    rewrite length_srev in L2.
    pose proof (f_equal String.length E) as L3. rewrite length_srev in L3.
    assert (l = s) as Hl by (apply strip_any_same_length; fold l; lia).
    split.
    + rewrite <- Hl. unfold l. by apply strip_any_none; [apply space_runes_nonempty|].
    + assert (strip_any (String.length l) (map srev space_runes) (srev l) = srev l) as Hr
        by (apply strip_any_same_length; rewrite length_srev; lia).
      rewrite <- Hl, <- Hr. apply strip_any_none; [apply space_runes_rev_nonempty|].
      by rewrite length_srev.
  - intros [H1 H2]. unfold TrimSpace. rewrite (strip_any_id _ _ s), strip_any_id by done.
    apply srev_involutive.
Qed.

(** Prepending text that starts with no white-space byte and ends in a blank keeps a
    non-empty trimmed string trimmed. *)
Definition starts_rune (a : ascii) : bool := existsb (fun r => HasPrefix r (String a "")) space_runes.

Definition no_inner_blank (r : string) : bool :=
  negb (Contains (sdrop 1 r) " ").

Lemma space_runes_no_inner_blank : forallb no_inner_blank (map srev space_runes) = true.
Proof. by vm_compute. Qed.

Lemma TrimSpace_prepend a h t :
  starts_rune a = false → t ≠ "" → TrimSpace t = t →
  TrimSpace (String a (h +:+ String " " t)) = String a (h +:+ String " " t).
Proof.
  intros Ha Ht Htrim. apply TrimSpace_id_iff in Htrim as [_ Hr]. apply TrimSpace_id_iff. split.
  - apply Forall_forall. intros r Hin. destruct r as [|b r].
    + exfalso. pose proof space_runes_nonempty as Hn. rewrite Forall_forall in Hn. by apply Hn in Hin.
    + simpl. rewrite bool_decide_eq_false_2; [done|]. intros ->.
      assert (starts_rune a = true) as Hc; [|congruence].
      apply existsb_elem_of. exists (String a r). split; [done|]. apply (HasPrefix_app (String a "")).
  - rewrite Forall_forall in Hr |- *. intros r Hin. apply not_true_is_false. intros Hp.
    change (String a (h +:+ String " " t)) with (String a h +:+ String " " t) in Hp.
    change (String " " t) with (" " +:+ t) in Hp.
    rewrite !srev_append, append_assoc in Hp.
    apply HasPrefix_app_cases in Hp as [Hp|(z & -> & Hz & Hp)]; [by rewrite Hr in Hp|].
    pose proof space_runes_no_inner_blank as Hb. rewrite forallb_forall in Hb.
    apply list_elem_of_In in Hin. apply Hb in Hin. unfold no_inner_blank in Hin. go_bool.
    destruct z as [|b z]; [done|]. simpl in Hp. go_bool. subst b.
    destruct (srev t) as [|c u] eqn:E.
    + apply (f_equal srev) in E. rewrite srev_involutive in E. done.
    + assert (Contains (u +:+ String " " z) " " = true) as Hc; [|simpl in Hin; congruence].
      apply Contains_spec. by exists u, z.
Qed.

Lemma ToLower_append a b : ToLower (a +:+ b) = ToLower a +:+ ToLower b.
Proof. induction a as [|x a IH]; simpl; [done|]. by rewrite IH. Qed.

Lemma length_ToLower s : String.length (ToLower s) = String.length s.
Proof. induction s; simpl; auto. Qed.
