(* ===== verification/GoPath.v ===== *)
(** * The Go [path/filepath] package on Unix

    [Clean], [Join], [Dir], [Rel], [IsAbs], [Abs] and [Ext] as the standard library
    documents them, defined on the list of slash-separated elements of a path, with the
    laws that the path checks of the file engine rest on. *)
From S2P Require Import Prelude GoStrings.
From Stdlib Require Import Ascii.

#[local] Open Scope string_scope.
#[local] Open Scope nat_scope.
#[local] Open Scope list_scope.

Abbreviation slash := "/"%char.

(** ** Splitting and joining *)

Fixpoint split_slash (s : string) : list string :=
  match s with
  | "" => [""]
  | String c s' =>
      if bool_decide (c = slash) then "" :: split_slash s'
      else match split_slash s' with
           | h :: t => String c h :: t
           | [] => [String c ""]
           end
  end.

(** [strings.Join(elems, "/")] *)
Fixpoint join_slash (cs : list string) : string :=
  match cs with
  | [] => ""
  | [c] => c
  | c :: cs' => c +:+ "/" +:+ join_slash cs'
  end.

Definition rooted (p : string) : bool := HasPrefix p "/".

(** ** Clean *)

(** One pass over the elements with the output kept as a reversed stack: "" and "." are
    dropped, ".." removes the last element that is not itself "..", and is dropped at the
    root of a rooted path. *)
Fixpoint clean_go (r : bool) (stk cs : list string) : list string :=
  match cs with
  | [] => stk
  | c :: cs' =>
      if bool_decide (c = "" ∨ c = ".") then clean_go r stk cs'
      else if bool_decide (c = "..") then
        match stk with
        | top :: stk' =>
            if bool_decide (top = "..") then clean_go r (".." :: stk) cs'
            else clean_go r stk' cs'
        | [] => clean_go r (if r then [] else [".."]) cs'
        end
      else clean_go r (c :: stk) cs'
  end.

Definition clean_comps (p : string) : list string :=
  rev (clean_go (rooted p) [] (split_slash p)).

Definition render (r : bool) (cs : list string) : string :=
  if r then "/" +:+ join_slash cs
  else match cs with [] => "." | _ => join_slash cs end.

Definition Clean (p : string) : string := render (rooted p) (clean_comps p).

(** ** Join, Dir, IsAbs, Abs, Ext *)

(** Leading empty elements are ignored; the rest is joined and cleaned. *)
Fixpoint Join (elems : list string) : string :=
  match elems with
  | [] => ""
  | e :: es => if bool_decide (e = "") then Join es else Clean (join_slash elems)
  end.

(** The path up to and including its last slash. *)
Fixpoint upto_last_slash (s : string) : string :=
  match s with
  | "" => ""
  | String c s' =>
      let t := upto_last_slash s' in
      if bool_decide (t = "") then (if bool_decide (c = slash) then "/" else "")
      else String c t
  end.

Definition Dir (p : string) : string := Clean (upto_last_slash p).

Definition IsAbs (p : string) : bool := rooted p.

(** [filepath.Abs], given the result of [os.Getwd]. *)
Definition Abs (getwd : result string) (p : string) : result string :=
  if IsAbs p then Ok (Clean p)
  else result_bind getwd (fun wd => Ok (Join [wd; p])).

(** The suffix that starts at the last dot of the last element, or "". *)
Fixpoint ext_go (s acc : string) : string :=
  match s with
  | "" => ""
  | String c s' =>
      if bool_decide (c = slash) then ""
      else if bool_decide (c = "."%char) then String c acc
      else ext_go s' (String c acc)
  end.

Definition Ext (p : string) : string := ext_go (srev p) "".

(** ** Rel *)

Fixpoint strip_common (b t : list string) : list string * list string :=
  match b, t with
  | x :: b', y :: t' => if bool_decide (x = y) then strip_common b' t' else (b, t)
  | _, _ => (b, t)
  end.

Definition Rel (base targ : string) : result string :=
  if bool_decide (Clean targ = Clean base) then Ok "."
  else if Bool.eqb (rooted base) (rooted targ) then
    let '(b, t) := strip_common (clean_comps base) (clean_comps targ) in
    match b with
    | [] => Ok (join_slash t)
    | h :: _ =>
        if bool_decide (h = "..") then Err (ErrNew "Rel: can't make relative")
        else Ok (join_slash (map (fun _ => "..") b ++ t))
    end
  else Err (ErrNew "Rel: can't make relative").

(** ** Elements of a path *)

(** An element without a slash. *)
Fixpoint noslash (c : string) : Prop :=
  match c with
  | "" => True
  | String a c' => a ≠ slash ∧ noslash c'
  end.

(** An element that [Clean] keeps and that names a directory entry. *)
Definition normal (c : string) : Prop :=
  noslash c ∧ c ≠ "" ∧ c ≠ "." ∧ c ≠ "..".

#[global] Instance noslash_dec c : Decision (noslash c).
Proof. induction c; simpl; apply _. Defined.

#[global] Instance normal_dec c : Decision (normal c).
Proof. unfold normal. apply _. Defined.

(** Closes a goal [normal c] or [Forall normal cs] on concrete strings by evaluation. *)
Ltac solve_normal := apply (bool_decide_unpack _); vm_compute; exact I.

(** The element lists [Clean] produces: only names when the path is rooted, otherwise some
    ".." followed by names. *)
Definition canonical (r : bool) (cs : list string) : Prop :=
  ∃ n ns, cs = repeat ".." n ++ ns ∧ Forall normal ns ∧ (r = true → n = 0).

Lemma split_slash_nonempty s : split_slash s ≠ [].
Proof. destruct s as [|a s]; simpl; [done|]. case_match; [done|]. by destruct (split_slash s). Qed.

Lemma split_slash_app a b :
  split_slash (a +:+ String slash b) = split_slash a ++ split_slash b.
Proof.
  induction a as [|c a IH]; simpl; [done|].
  - case_bool_decide; rewrite IH; [done|].
    pose proof (split_slash_nonempty a). by destruct (split_slash a).
Qed.

Lemma split_slash_noslash c : noslash c → split_slash c = [c].
Proof.
  induction c as [|a c IH]; simpl; [done|]. intros [Ha Hc].
  by rewrite bool_decide_eq_false_2, IH.
Qed.

Lemma noslash_split_slash s : Forall noslash (split_slash s).
Proof.
  induction s as [|a s IH]; simpl.
  - by repeat constructor.
  - case_bool_decide as Ha; [by constructor|].
    destruct (split_slash s); inversion_clear IH; repeat constructor; done.
Qed.

Lemma join_slash_cons c cs :
  cs ≠ [] → join_slash (c :: cs) = c +:+ String slash (join_slash cs).
Proof. by destruct cs. Qed.

Lemma split_join cs : cs ≠ [] → Forall noslash cs → split_slash (join_slash cs) = cs.
Proof.
  induction cs as [|c cs IH]; [done|]. intros _ Hcs. inversion_clear Hcs.
  destruct (decide (cs = [])) as [->|Hne].
  - simpl. by apply split_slash_noslash.
  - rewrite join_slash_cons, split_slash_app, IH, split_slash_noslash; done.
Qed.

Lemma join_split s : join_slash (split_slash s) = s.
Proof.
  induction s as [|a s IH]; [done|]. cbn [split_slash].
  pose proof (split_slash_nonempty s) as Hne.
  case_bool_decide; subst.
  - by rewrite join_slash_cons, IH.
  - destruct (split_slash s) as [|h t]; [done|].
    destruct t; simpl in *; by rewrite <- IH.
Qed.

Lemma normal_noslash cs : Forall normal cs → Forall noslash cs.
Proof. intros H. eapply Forall_impl; [exact H|]. by intros ? []. Qed.

Lemma canonical_noslash r cs : canonical r cs → Forall noslash cs.
Proof.
  intros (n & ns & -> & Hns & _). apply Forall_app. split; [|by apply normal_noslash].
  apply Forall_forall. intros x Hx. apply list_elem_of_In, repeat_spec in Hx. by subst.
Qed.

Lemma canonical_rooted cs : canonical true cs ↔ Forall normal cs.
Proof.
  split.
  - intros (n & ns & -> & Hns & Hn). by rewrite Hn.
  - intros H. by exists 0, cs.
Qed.

(** ** Laws of the cleaning pass *)

Lemma clean_go_app r stk a b : clean_go r stk (a ++ b) = clean_go r (clean_go r stk a) b.
Proof.
  revert stk. induction a as [|c a IH]; intros stk; simpl; [done|].
  repeat case_bool_decide; auto. destruct stk; [auto|]. by case_bool_decide.
Qed.

Lemma clean_go_normal r stk cs :
  Forall normal cs → clean_go r stk cs = rev cs ++ stk.
Proof.
  intros H. revert stk. induction H as [|c cs (_ & H1 & H2 & H3) _ IH]; intros stk; simpl; [done|].
  rewrite bool_decide_eq_false_2, bool_decide_eq_false_2, IH, <- app_assoc; [done|done|tauto].
Qed.

Lemma rev_canonical_stack r stk :
  canonical r (rev stk) →
  Forall normal stk ∧ stk = [] ∨
  (∃ top stk', stk = top :: stk' ∧ canonical r (rev stk') ∧
     ((top = ".." ∧ r = false ∧ ∃ n, stk' = repeat ".." n) ∨ normal top)).
Proof.
  intros (n & ns & Hs & Hns & Hr).
  destruct stk as [|top stk']; [by left|]. right. exists top, stk'.
  simpl in Hs. split; [done|].
  destruct ns as [|m ms _] using rev_ind.
  - rewrite app_nil_r in Hs. destruct n as [|n]; [by destruct (rev stk')|].
    cbn [repeat] in Hs. rewrite repeat_cons in Hs. apply app_inj_tail in Hs as [Hs ->].
    assert (r = false) as -> by (destruct r; [by specialize (Hr eq_refl)|done]).
    split.
    + exists n, []. by rewrite app_nil_r.
    + left. split_and!; [done|done|]. exists n.
      by rewrite <- (rev_involutive stk'), Hs, rev_repeat.
  - rewrite app_assoc in Hs. apply app_inj_tail in Hs as [Hs ->].
    apply Forall_app in Hns as [Hms Hm]. inversion_clear Hm.
    split; [|by right]. by exists n, ms.
Qed.

Lemma canonical_snoc r cs c : canonical r cs → normal c → canonical r (cs ++ [c]).
Proof.
  intros (n & ns & -> & Hns & Hr) Hc. exists n, (ns ++ [c]).
  rewrite app_assoc. split_and!; auto. apply Forall_app. auto.
Qed.

Lemma clean_go_canonical r stk cs :
  Forall noslash cs → canonical r (rev stk) → canonical r (rev (clean_go r stk cs)).
Proof.
  intros Hcs. revert stk. induction Hcs as [|c cs Hc _ IH]; intros stk Hstk; simpl; [done|].
  case_bool_decide as E1; [by apply IH|].
  case_bool_decide as E2.
  - destruct (rev_canonical_stack _ _ Hstk)
      as [[_ ->]|(top & stk' & -> & Hcan & [(-> & -> & n & ->)|Htop])].
    + apply IH. destruct r; [done|]. by exists 1, [].
    + rewrite bool_decide_eq_true_2 by done. apply IH.
      change (".." :: ".." :: repeat ".." n) with (repeat ".." (S (S n))).
      rewrite rev_repeat. exists (S (S n)), []. by rewrite app_nil_r.
    + rewrite bool_decide_eq_false_2 by apply Htop. by apply IH.
  - apply IH. simpl. apply canonical_snoc; [done|]. unfold normal. tauto.
Qed.

Lemma canonical_nil r : canonical r [].
Proof. by exists 0, []. Qed.

Lemma clean_comps_canonical p : canonical (rooted p) (clean_comps p).
Proof. apply clean_go_canonical; [apply noslash_split_slash | apply canonical_nil]. Qed.

Lemma clean_go_dots n cs :
  Forall normal cs → clean_go false (repeat ".." n) cs = rev cs ++ repeat ".." n.
Proof. apply clean_go_normal. Qed.

Lemma clean_go_repeat_dots n k :
  clean_go false (repeat ".." n) (repeat ".." k) = repeat ".." (k + n).
Proof.
  revert n. induction k as [|k IH]; intros n; [done|].
  transitivity (clean_go false (repeat ".." (S n)) (repeat ".." k)); [by destruct n|].
  rewrite IH. f_equal. lia.
Qed.

(** [Clean] keeps a canonical element list unchanged. *)
Lemma clean_go_canonical_id r cs : canonical r cs → clean_go r [] cs = rev cs.
Proof.
  intros (n & ns & -> & Hns & Hr). rewrite clean_go_app. destruct r.
  - rewrite (Hr eq_refl). simpl. by rewrite clean_go_normal, app_nil_r.
  - change [] with (repeat ".." 0) at 1.
    rewrite clean_go_repeat_dots, clean_go_dots, rev_app_distr, rev_repeat by done.
    by rewrite Nat.add_0_r.
Qed.

Lemma clean_go_skip r stk cs :
  clean_go r stk ("" :: cs) = clean_go r stk cs.
Proof. done. Qed.

Lemma rooted_iff p : rooted p = true ↔ ∃ q, p = String slash q.
Proof. unfold rooted. by rewrite HasPrefix_spec. Qed.

Lemma noslash_not_rooted c : noslash c → rooted c = false.
Proof. destruct c as [|a c]; [done|]. intros [Ha _]. unfold rooted. simpl.
  by rewrite bool_decide_eq_false_2. Qed.

Lemma rooted_join_slash c cs : rooted (join_slash (c :: cs)) = rooted (if decide (c = "") then join_slash ("" :: cs) else c).
Proof.
  case_decide as E; [by subst|]. destruct cs; [done|]. destruct c; [done|]. done.
Qed.

Lemma rooted_render r cs : canonical r cs → rooted (render r cs) = r.
Proof.
  intros Hcan. destruct r; [done|]. destruct cs as [|c cs]; [done|].
  unfold render. rewrite rooted_join_slash.
  pose proof (canonical_noslash _ _ Hcan) as Hn. inversion_clear Hn.
  case_decide as E; [|by apply noslash_not_rooted].
  exfalso. subst. destruct Hcan as (n & ns & Hc & Hns & _).
  destruct n; simplify_eq/=. inversion_clear Hns as [|? ? Hbad]. by destruct Hbad as (_ & ? & _).
Qed.

Lemma split_render_true cs : split_slash (render true cs) = "" :: split_slash (join_slash cs).
Proof. done. Qed.

(** The element list of a rendered canonical list is that list. *)
Lemma clean_comps_render r cs : canonical r cs → clean_comps (render r cs) = cs.
Proof.
  intros Hcan. unfold clean_comps. rewrite rooted_render by done.
  destruct r; unfold render.
  - change ("/" +:+ join_slash cs) with (render true cs).
    rewrite split_render_true, clean_go_skip. destruct cs as [|c cs]; [done|].
    rewrite split_join, clean_go_canonical_id, rev_involutive; try done.
    by eapply canonical_noslash.
  - destruct cs as [|c cs]; [done|].
    rewrite split_join, clean_go_canonical_id, rev_involutive; try done.
    by eapply canonical_noslash.
Qed.

Lemma rooted_Clean p : rooted (Clean p) = rooted p.
Proof. apply rooted_render, clean_comps_canonical. Qed.

Lemma clean_comps_Clean p : clean_comps (Clean p) = clean_comps p.
Proof. apply clean_comps_render, clean_comps_canonical. Qed.

Lemma Clean_idemp p : Clean (Clean p) = Clean p.
Proof. unfold Clean at 1. by rewrite rooted_Clean, clean_comps_Clean. Qed.

(** Two paths clean to the same string exactly when they agree on rootedness and elements. *)
Lemma Clean_inj p q :
  Clean p = Clean q ↔ rooted p = rooted q ∧ clean_comps p = clean_comps q.
Proof.
  split.
  - intros E. split.
    + by rewrite <- (rooted_Clean p), E, rooted_Clean.
    + by rewrite <- (clean_comps_Clean p), E, clean_comps_Clean.
  - intros [E1 E2]. unfold Clean. by rewrite E1, E2.
Qed.

Lemma clean_comps_rooted_normal p : rooted p = true → Forall normal (clean_comps p).
Proof. intros H. apply canonical_rooted. rewrite <- H. apply clean_comps_canonical. Qed.

#[export] Hint Resolve normal_noslash clean_comps_canonical clean_comps_rooted_normal : gopath.

Lemma Clean_rooted_render p : rooted p = true → Clean p = "/" +:+ join_slash (clean_comps p).
Proof. intros H. unfold Clean. by rewrite H. Qed.

(** ** Joining below a rooted path *)

Lemma rooted_append p q : rooted p = true → rooted (p +:+ q) = true.
Proof. rewrite !rooted_iff. intros [t ->]. by exists (t +:+ q). Qed.

Lemma clean_comps_append p q :
  rooted p = true →
  clean_comps (p +:+ String slash q) =
  rev (clean_go true (rev (clean_comps p)) (split_slash q)).
Proof.
  intros H. unfold clean_comps. rewrite rooted_append, H by done.
  by rewrite split_slash_app, clean_go_app, rev_involutive.
Qed.

Lemma rooted_ne p : rooted p = true → p ≠ "".
Proof. by intros H ->. Qed.

Lemma Join_rooted p q :
  rooted p = true → Join [p; q] = Clean (p +:+ String slash q).
Proof.
  intros H. unfold Join at 1. rewrite bool_decide_eq_false_2 by by apply rooted_ne.
  done.
Qed.

(** Popping [n] elements off a stack of names, never below the root. *)
Lemma clean_go_pop stk n :
  Forall normal stk → clean_go true stk (repeat ".." n) = drop n stk.
Proof.
  intros H. revert stk H. induction n as [|n IH]; intros stk H; simpl; [done|].
  destruct H as [|c stk Hc H]; simpl; [by rewrite IH; destruct n|].
  rewrite bool_decide_eq_false_2 by apply Hc. by apply IH.
Qed.

Lemma clean_go_canonical_on stk n ns :
  Forall normal stk → Forall normal ns →
  clean_go true stk (repeat ".." n ++ ns) = rev ns ++ drop n stk.
Proof. intros. by rewrite clean_go_app, clean_go_pop, clean_go_normal. Qed.

(** Joining a rooted path with a cleaned one: each leading ".." of the second removes one
    element of the first. *)
Lemma clean_comps_join p n ns :
  rooted p = true → Forall normal ns → n + length ns ≠ 0 →
  clean_comps (Join [p; join_slash (repeat ".." n ++ ns)]) =
  take (length (clean_comps p) - n) (clean_comps p) ++ ns.
Proof.
  intros Hp Hns Hne.
  rewrite Join_rooted, clean_comps_Clean, clean_comps_append by done.
  rewrite split_join.
  - rewrite clean_go_canonical_on, rev_app_distr, rev_involutive, skipn_rev, rev_involutive;
      auto with gopath.
    apply Forall_rev. by apply clean_comps_rooted_normal.
  - destruct n, ns; simpl in *; try done; lia.
  - eapply (canonical_noslash false). by exists n, ns.
Qed.

Lemma clean_comps_join_rooted p q :
  rooted p = true → rooted q = true →
  clean_comps (Join [p; Clean q]) = clean_comps p ++ clean_comps q.
Proof.
  intros Hp Hq. rewrite Join_rooted, clean_comps_Clean, clean_comps_append by done.
  unfold Clean. rewrite Hq, split_render_true, clean_go_skip.
  destruct (clean_comps q) as [|c cs] eqn:E.
  - simpl. by rewrite app_nil_r, rev_involutive.
  - pose proof (clean_comps_rooted_normal _ Hq) as Hn. rewrite E in Hn.
    rewrite split_join, clean_go_normal, rev_app_distr, !rev_involutive;
      auto with gopath.
Qed.

(** *** Reading a path from the root *)

(** The elements that are no "..". *)
Definition strip (cs : list string) : list string := filter (fun c => c ≠ "..") cs.

Lemma strip_normal cs : Forall normal cs → strip cs = cs.
Proof.
  unfold strip. induction 1 as [|c cs Hc _ IH]; [done|]. rewrite filter_cons_True, IH; [done|apply Hc].
Qed.

Lemma strip_dots n : strip (repeat ".." n) = [].
Proof. unfold strip. induction n; [done|]. cbn [repeat]. by rewrite filter_cons_False by auto. Qed.

Lemma strip_rev cs : strip (rev cs) = rev (strip cs).
Proof.
  unfold strip. induction cs as [|c cs IH]; [done|]. simpl. rewrite filter_app, IH.
  destruct (decide (c = "..")) as [->|Hc].
  - rewrite !filter_cons_False by auto. by rewrite app_nil_r.
  - by rewrite !filter_cons_True.
Qed.

(** Read from the root, the ".." at the front of a relative path have no effect. *)
Lemma clean_go_root ns n cs :
  Forall normal ns → Forall noslash cs →
  clean_go true ns cs = strip (clean_go false (ns ++ repeat ".." n) cs).
Proof.
  intros Hns Hcs. revert ns n Hns. induction Hcs as [|c cs Hc _ IH]; intros ns n Hns.
  { simpl. unfold strip. rewrite filter_app. fold (strip ns) (strip (repeat ".." n)).
    by rewrite strip_normal, strip_dots, app_nil_r. }
  cbn [clean_go]. case_bool_decide as H1; [by apply IH|]. case_bool_decide as H2.
  - destruct Hns as [|top ns Ht Hns]; simpl.
    + destruct n as [|n]; simpl; [apply (IH [] 1); constructor|]. apply (IH [] (S (S n))). constructor.
    + rewrite bool_decide_eq_false_2 by apply Ht. by apply IH.
  - apply (IH (c :: ns) n). constructor; [|done]. split_and!; tauto.
Qed.

Lemma clean_comps_root p : clean_comps ("/" +:+ p) = strip (clean_comps p).
Proof.
  unfold clean_comps at 1. change (rooted ("/" +:+ p)) with true.
  change (split_slash ("/" +:+ p)) with ("" :: split_slash p). simpl.
  destruct (rooted p) eqn:Hr.
  - assert (rev (clean_go true [] (split_slash p)) = clean_comps p) as -> by (unfold clean_comps; by rewrite Hr).
    by rewrite strip_normal by by apply clean_comps_rooted_normal.
  - unfold clean_comps. rewrite Hr. rewrite (clean_go_root [] 0) by first [constructor|apply noslash_split_slash].
    by rewrite strip_rev.
Qed.

Lemma clean_comps_root_Clean p : clean_comps ("/" +:+ Clean p) = clean_comps ("/" +:+ p).
Proof. by rewrite !clean_comps_root, clean_comps_Clean. Qed.

(** A name appended to a path, read from the root. *)
Lemma clean_comps_root_Join p c :
  normal c → clean_comps ("/" +:+ Join [p; c]) = clean_comps ("/" +:+ p) ++ [c].
Proof.
  intros Hc. cbn [Join]. case_bool_decide as Hp.
  - subst. rewrite bool_decide_eq_false_2 by apply Hc. simpl join_slash.
    rewrite clean_comps_root_Clean.
    change ("/" +:+ c) with (render true [c]). rewrite clean_comps_render; [done|].
    apply canonical_rooted. by constructor.
  - rewrite clean_comps_root_Clean.
    change ("/" +:+ join_slash [p; c]) with (("/" +:+ p) +:+ String slash c).
    rewrite clean_comps_append by done. rewrite split_slash_noslash by apply Hc.
    rewrite clean_go_normal by by constructor. simpl. by rewrite rev_involutive.
Qed.

(** ** Dir *)

Lemma upto_last_slash_noslash c : noslash c → upto_last_slash c = "".
Proof.
  induction c as [|a c IH]; simpl; [done|]. intros [Ha Hc]. rewrite IH by done.
  by rewrite bool_decide_eq_true_2, bool_decide_eq_false_2.
Qed.

Lemma upto_last_slash_app p c :
  noslash c → upto_last_slash (p +:+ String slash c) = p +:+ "/".
Proof.
  intros Hc. induction p as [|a p IH]; simpl.
  - by rewrite upto_last_slash_noslash.
  - rewrite IH. by destruct p.
Qed.

Lemma join_slash_snoc cs c :
  cs ≠ [] → join_slash (cs ++ [c]) = join_slash cs +:+ String slash c.
Proof.
  induction cs as [|d cs IH]; [done|]. intros _.
  destruct (decide (cs = [])) as [->|Hne]; [done|].
  change ((d :: cs) ++ [c]) with (d :: (cs ++ [c])).
  rewrite !join_slash_cons, IH, append_assoc; [done|done|done|by destruct cs].
Qed.

(** [Dir] of a clean rooted path drops the last element. *)
Lemma Dir_render_snoc cs c :
  Forall normal cs → normal c → Dir (render true (cs ++ [c])) = render true cs.
Proof.
  intros Hcs Hc. unfold Dir, render.
  destruct (decide (cs = [])) as [->|Hne].
  - change ("/" +:+ join_slash ([] ++ [c])) with ("" +:+ String slash c).
    by rewrite upto_last_slash_app by apply Hc.
  - rewrite join_slash_snoc, <- append_assoc, upto_last_slash_app by (done || apply Hc).
    change ("/" +:+ join_slash cs) with (render true cs).
    unfold Clean. rewrite rooted_append by done. f_equal.
    change "/" with (String slash ""). rewrite clean_comps_append by done.
    cbn [split_slash clean_go]. rewrite bool_decide_eq_true_2, rev_involutive by auto.
    apply clean_comps_render. by apply canonical_rooted.
Qed.

Lemma rooted_upto_last_slash p : rooted p = true → rooted (upto_last_slash p) = true.
Proof.
  rewrite !rooted_iff. intros [q ->]. simpl. case_bool_decide.
  - by exists "".
  - by eexists.
Qed.

Lemma rooted_Dir p : rooted (Dir p) = rooted p.
Proof.
  unfold Dir. rewrite rooted_Clean. destruct (rooted p) eqn:E.
  - by apply rooted_upto_last_slash.
  - destruct p as [|a p]; [done|]. unfold rooted in *. simpl in *.
    rewrite andb_true_r, bool_decide_eq_false in E.
    repeat case_bool_decide; simplify_eq/=; done.
Qed.

Lemma Dir_clean p : Clean (Dir p) = Dir p.
Proof. apply Clean_idemp. Qed.

(** Every path is its part up to the last slash followed by a last element. *)
Lemma upto_last_slash_split p :
  ∃ c, noslash c ∧ p = upto_last_slash p +:+ c ∧
       (upto_last_slash p = "" ∨ ∃ q, upto_last_slash p = q +:+ "/").
Proof.
  induction p as [|a p (c & Hc & Hp & Hq)]; simpl.
  { exists "". split_and!; auto. done. }
  case_bool_decide as E.
  - rewrite E in Hp. simpl in Hp. subst c. case_bool_decide; subst.
    + exists p. split_and!; [done|done|]. right. by exists "".
    + exists (String a p). split_and!; auto. done.
  - exists c. split_and!; [done|simpl; by rewrite <- Hp|].
    right. destruct Hq as [?|[q Hq]]; [done|]. exists (String a q). by rewrite Hq.
Qed.

(** The elements of a rooted path are those of its [Dir] followed by its last element. *)
Lemma clean_comps_Dir p :
  rooted p = true →
  ∃ c, noslash c ∧ last (split_slash p) = Some c ∧
    clean_comps p = rev (clean_go true (rev (clean_comps (Dir p))) [c]).
Proof.
  intros Hp. pose proof (rooted_upto_last_slash _ Hp) as Hr.
  destruct (upto_last_slash_split p) as (c & Hc & Hsplit & Hq). exists c. split; [done|].
  destruct Hq as [E|[q Hq]]; [by rewrite E in Hr|].
  unfold Dir. rewrite clean_comps_Clean. rewrite Hq in *. clear Hq.
  rewrite append_assoc in Hsplit. cbn [String.append] in Hsplit. subst p.
  assert (split_slash c = [c]) as Hs by by apply split_slash_noslash.
  split; [by rewrite split_slash_app, Hs, last_snoc|]. unfold clean_comps.
  rewrite Hp, Hr, !split_slash_app, !clean_go_app, rev_involutive, Hs. done.
Qed.

(** The directory of a path that does not end in ".." is an ancestor. *)
Lemma clean_comps_Dir_prefix p :
  rooted p = true → last (split_slash p) ≠ Some ".." → clean_comps (Dir p) `prefix_of` clean_comps p.
Proof.
  intros Hp Hl. destruct (clean_comps_Dir p Hp) as (c & _ & Hc & ->). cbn [clean_go].
  repeat case_bool_decide; subst; try done; rewrite ?rev_involutive; [done|].
  cbn [rev]. rewrite rev_involutive. by apply prefix_app_r.
Qed.

(** ** Rel *)

Lemma strip_common_prefix b t : strip_common b (b ++ t) = ([], t).
Proof. induction b as [|x b IH]; simpl; [by destruct t|]. by rewrite bool_decide_eq_true_2. Qed.

Lemma strip_common_spec b t :
  ∃ k, b = k ++ (strip_common b t).1 ∧ t = k ++ (strip_common b t).2.
Proof.
  revert t. induction b as [|x b IH]; intros [|y t]; simpl; try (by exists []).
  case_bool_decide; [|by exists []]. subst. destruct (IH t) as (k & Hb & Ht).
  exists (y :: k). simpl. by rewrite <- Hb, <- Ht.
Qed.

Lemma HasPrefix_dotdot_names ns :
  Forall normal ns → HasPrefix (join_slash ns) ".." = true →
  ∃ c cs, ns = c :: cs ∧ HasPrefix c ".." = true.
Proof.
  intros Hns Hp. destruct ns as [|c cs]; [done|]. exists c, cs. split; [done|].
  destruct cs as [|d cs]; [done|]. inversion_clear Hns as [|? ? Hc _].
  rewrite join_slash_cons in Hp by done. destruct Hc as (Hs & Hc1 & Hc2 & _).
  destruct c as [|a c]; [done|]. destruct c as [|b c]; [|done].
  exfalso. simpl in Hp. go_bool. simplify_eq.
Qed.

(** The relative path between two rooted paths starts with ".." unless the base's
    elements are a prefix of the target's. *)
Lemma Rel_inside base targ rel :
  rooted base = true → rooted targ = true →
  Rel base targ = Ok rel → HasPrefix rel ".." = false →
  clean_comps base `prefix_of` clean_comps targ.
Proof.
  intros Hb Ht Hrel Hpre. unfold Rel in Hrel. rewrite Hb, Ht in Hrel.
  case_bool_decide as E.
  - apply Clean_inj in E as [_ ->]. done.
  - simpl in Hrel. destruct (strip_common_spec (clean_comps base) (clean_comps targ)) as (k & H1 & H2).
    destruct (strip_common _ _) as [b t]. simpl in *. destruct b as [|h b].
    + rewrite H1, H2, app_nil_r. by eexists.
    + case_bool_decide; simplify_eq/=. exfalso.
      destruct (map (λ _, "..") b ++ t); simpl in Hpre; done.
Qed.

Lemma Rel_below base targ ns :
  rooted base = true → rooted targ = true →
  clean_comps targ = clean_comps base ++ ns → ns ≠ [] →
  Rel base targ = Ok (join_slash ns).
Proof.
  intros Hb Ht E Hne. unfold Rel. rewrite Hb, Ht. rewrite bool_decide_eq_false_2.
  - simpl. by rewrite E, strip_common_prefix.
  - rewrite Clean_inj, E. intros [_ H]. apply (f_equal length) in H.
    rewrite length_app in H. destruct ns; [done|]. simpl in H. lia.
Qed.
