(* ===== verification/Acl.v ===== *)
(** * Access control: permissions, roles, ACL entries and the resolver

    [internal/auth/permissions.go], [roles.go], [acl.go], [store.go], [inmemory_store.go]
    and [resolver.go]. *)
From S2P Require Import Prelude GoStrings GoPath.

#[local] Open Scope string_scope.
#[local] Open Scope nat_scope.
#[local] Open Scope list_scope.

(** ** Data *)

(** [type Permission string] and its four constants. *)
Definition Permission := string.
Definition PermRead : Permission := "read".
Definition PermWrite : Permission := "write".
Definition PermDelete : Permission := "delete".
Definition PermList : Permission := "list".

Record ACL := mkACL {
  Path : string;
  PrincipalID : string;
  Permissions : gmap string bool
}.

#[global] Instance ACL_eq_dec : EqDecision ACL.
Proof. solve_decision. Defined.

Record AuthContext := mkAuthContext {
  UserID : string;
  Roles_of : list string
}.

#[global] Instance AuthContext_eq_dec : EqDecision AuthContext.
Proof. solve_decision. Defined.

(** A Go map read: the zero value when the key is absent. *)
Definition perm_get (m : gmap string bool) (p : Permission) : bool := default false (m !! p).

Definition Roles : gmap string (gmap string bool) :=
  {[ "admin" := {[ PermRead := true; PermWrite := true; PermDelete := true; PermList := true ]};
     "editor" := {[ PermRead := true; PermWrite := true; PermList := true ]};
     "viewer" := {[ PermRead := true; PermList := true ]} ]}.

(** [Roles[r][perm]]: reading a missing role gives a nil map, hence false. *)
Definition role_perm (r : string) (perm : Permission) : bool :=
  perm_get (default ∅ (Roles !! r)) perm.

(** ** Stores *)

(** The [ACLStore] interface. [GetACLsForPaths] is the optional [ACLBatchStore] method:
    [None] when the dynamic type of the store does not have it. *)
Class ACLStore (St : Type) := {
  GetACLs : St → string → list ACL;
  SetACL : St → ACL → result unit * St;
  GetACLsForPaths : St → option (list string → result (list ACL))
}.

(** The batch answers of a store are complete: they hold, for every requested path, the
    entries the single-path query returns, in some order. *)
Class CompleteBatch `{ACLStore St} (store : St) : Prop :=
  batch_agrees f ps acls p :
    GetACLsForPaths store = Some f → f ps = Ok acls → p ∈ ps →
    filter (fun a => Path a = p) acls ≡ₚ GetACLs store p.

(** The in-memory store: a map from path to the entries appended for it. *)
Module InMemory.
Record InMemoryACLStore := mkStore { data : gmap string (list ACL) }.

Definition NewInMemoryACLStore : InMemoryACLStore := mkStore ∅.

Definition GetACLs (s : InMemoryACLStore) (p : string) : list ACL :=
  default [] (data s !! p).

Definition SetACL (s : InMemoryACLStore) (a : ACL) : result unit * InMemoryACLStore :=
  (Ok tt, mkStore (<[Path a := default [] (data s !! Path a) ++ [a]]> (data s))).
End InMemory.

#[global] Instance InMemory_ACLStore : ACLStore InMemory.InMemoryACLStore := {
  GetACLs := InMemory.GetACLs;
  SetACL := InMemory.SetACL;
  GetACLsForPaths := fun _ => None
}.

#[global] Instance InMemory_CompleteBatch (s : InMemory.InMemoryACLStore) : CompleteBatch s.
Proof. intros f ps acls p [=]. Qed.

(** ** The resolver *)

(** The loop of [parentPaths]: [fuel] bounds its iterations, [None] means that the loop is
    still running after that many. *)
Fixpoint parentPaths (fuel : nat) (path : string) : option (list string) :=
  match fuel with
  | 0 => None
  | S fuel' =>
      if bool_decide (path = "/") then Some [path]
      else cons path <$> parentPaths fuel' (Dir path)
  end.

(** The two tests made on one entry: the user's own principal, then each role. *)
Definition acl_grants (ctx : AuthContext) (perm : Permission) (acl : ACL) : bool :=
  (bool_decide (PrincipalID acl = "user:" +:+ UserID ctx) && perm_get (Permissions acl) perm)
  || existsb (fun r => bool_decide (PrincipalID acl = "role:" +:+ r)
                       && perm_get (Permissions acl) perm) (Roles_of ctx).

Definition rbac_grants (ctx : AuthContext) (perm : Permission) : bool :=
  existsb (fun r => role_perm r perm) (Roles_of ctx).

(** [byPath[a.Path] = append(byPath[a.Path], a)] for every returned entry. *)
Definition add_by_path (m : gmap string (list ACL)) (a : ACL) : gmap string (list ACL) :=
  <[Path a := default [] (m !! Path a) ++ [a]]> m.

Definition group_by_path (acls : list ACL) : gmap string (list ACL) :=
  foldl add_by_path ∅ acls.

Section CanAccess.
Context {St : Type} `{ACLStore St}.

(** The per-path loop used without a batch store, and when the batch query fails. *)
Definition sequential_check (ctx : AuthContext) (perm : Permission) (store : St)
    (paths : list string) : bool :=
  existsb (fun p => existsb (acl_grants ctx perm) (GetACLs store p)) paths
  || rbac_grants ctx perm.

Definition batch_check (ctx : AuthContext) (perm : Permission)
    (paths : list string) (acls : list ACL) : bool :=
  let byPath := group_by_path acls in
  existsb (fun p => existsb (acl_grants ctx perm) (default [] (byPath !! p))) paths
  || rbac_grants ctx perm.

Definition CanAccess (fuel : nat) (ctx : AuthContext) (path : string) (perm : Permission)
    (store : St) : option bool :=
  paths ← parentPaths fuel path;
  Some (match GetACLsForPaths store with
        | Some f =>
            match f paths with
            | Ok acls => batch_check ctx perm paths acls
            | Err _ => sequential_check ctx perm store paths
            end
        | None => sequential_check ctx perm store paths
        end).
End CanAccess.

(** ** [parentPaths]: which paths are consulted, and when the loop ends *)

(** The paths consulted for a rooted path: the path as given, then every ancestor of its
    cleaned directory, nearest first. *)
Definition lineage (path : string) : list string :=
  path :: (if bool_decide (path = "/") then []
           else let cs := clean_comps (Dir path) in
                map (render true) (prefixes_desc (length cs) cs)).

Lemma render_true_root cs : Forall normal cs → render true cs = "/" → cs = [].
Proof.
  intros Hcs E. apply (f_equal clean_comps) in E.
  by rewrite clean_comps_render in E by by apply canonical_rooted.
Qed.

Lemma prefixes_desc_snoc {A} n (l : list A) x :
  n ≤ length l → prefixes_desc n (l ++ [x]) = prefixes_desc n l.
Proof.
  induction n as [|n IH]; intros Hn; [done|]. cbn [prefixes_desc].
  rewrite IH by lia. by rewrite take_app_le.
Qed.

Lemma parentPaths_clean cs fuel :
  Forall normal cs → length cs < fuel →
  parentPaths fuel (render true cs) = Some (map (render true) (prefixes_desc (length cs) cs)).
Proof.
  revert fuel. induction cs as [|c cs IH] using rev_ind; intros fuel Hcs Hf.
  - destruct fuel; [lia|done].
  - apply Forall_app in Hcs as [Hcs Hc]. inversion_clear Hc.
    rewrite length_app in Hf. simpl in Hf. destruct fuel as [|fuel]; [lia|].
    cbn [parentPaths]. rewrite bool_decide_eq_false_2.
    + rewrite Dir_render_snoc, IH by (done || lia). rewrite length_app. simpl.
      rewrite Nat.add_1_r. cbn [prefixes_desc map fmap option_fmap option_map].
      rewrite prefixes_desc_snoc, take_ge by (rewrite ?length_app; simpl; lia). done.
    + intros E. apply render_true_root in E; [by destruct cs|].
      apply Forall_app. auto.
Qed.

(** Enough iterations for every rooted path: one per byte, and two more. *)
Definition path_fuel (path : string) : nat := 2 + String.length path.

Lemma length_split_slash s : length (split_slash s) ≤ 1 + String.length s.
Proof.
  induction s as [|a s IH]; simpl; [lia|]. case_bool_decide; simpl; [lia|].
  destruct (split_slash s); simpl in *; lia.
Qed.

Lemma length_clean_go r stk cs : length (clean_go r stk cs) ≤ length stk + length cs.
Proof.
  revert stk. induction cs as [|c cs IH]; intros stk; simpl; [lia|].
  repeat case_bool_decide; try (specialize (IH stk); lia).
  - destruct stk as [|top stk]; [destruct r; etrans; try apply IH; simpl; lia|].
    case_bool_decide; etrans; try apply IH; simpl; lia.
  - etrans; [apply IH|]. simpl. lia.
Qed.

Lemma length_upto_last_slash p : String.length (upto_last_slash p) ≤ String.length p.
Proof. induction p; simpl; [lia|]. repeat case_bool_decide; simpl; lia. Qed.

Lemma length_clean_comps_rooted p :
  rooted p = true → length (clean_comps p) ≤ String.length p.
Proof.
  intros H. apply rooted_iff in H as [q ->].
  unfold clean_comps. rewrite length_rev.
  change (split_slash (String slash q)) with ("" :: split_slash q).
  rewrite clean_go_skip. etrans; [apply length_clean_go|].
  pose proof (length_split_slash q). simpl. lia.
Qed.

Lemma length_clean_comps_Dir p :
  rooted p = true → length (clean_comps (Dir p)) ≤ String.length p.
Proof.
  intros H. unfold Dir. rewrite clean_comps_Clean.
  etrans; [apply length_clean_comps_rooted; by apply rooted_upto_last_slash|].
  apply length_upto_last_slash.
Qed.

Lemma parentPaths_lineage fuel path :
  rooted path = true → path_fuel path ≤ fuel →
  parentPaths fuel path = Some (lineage path).
Proof.
  intros Hr Hf. unfold path_fuel in Hf. destruct fuel as [|fuel]; [lia|].
  unfold lineage. cbn [parentPaths]. case_bool_decide; [done|].
  assert (Dir path = render true (clean_comps (Dir path))) as E.
  { rewrite <- (Dir_clean path) at 1. unfold Clean. by rewrite rooted_Dir, Hr. }
  rewrite E at 1. rewrite parentPaths_clean; [done| |].
  - apply clean_comps_rooted_normal. by rewrite rooted_Dir.
  - pose proof (length_clean_comps_Dir _ Hr). lia.
Qed.

Lemma parentPaths_relative fuel path : rooted path = false → parentPaths fuel path = None.
Proof.
  revert path. induction fuel as [|fuel IH]; intros path Hr; [done|]. cbn [parentPaths].
  rewrite bool_decide_eq_false_2 by by intros ->.
  by rewrite IH by by rewrite rooted_Dir.
Qed.

(** ** Specification of an access decision *)

(** The paths whose entries decide about [path]: the path itself and every ancestor of its
    cleaned directory. *)
Definition consulted (path q : string) : Prop :=
  q = path ∨ (path ≠ "/" ∧ ∃ ks, ks `prefix_of` clean_comps (Dir path) ∧ q = render true ks).

Definition acl_matches (ctx : AuthContext) (perm : Permission) (acl : ACL) : Prop :=
  perm_get (Permissions acl) perm = true ∧
  (PrincipalID acl = "user:" +:+ UserID ctx ∨
   ∃ r, r ∈ Roles_of ctx ∧ PrincipalID acl = "role:" +:+ r).

(** Some entry among [entries q], for a consulted path [q], or a role grants the permission. *)
Definition granted_by (entries : string → list ACL) (ctx : AuthContext) (path : string)
    (perm : Permission) : Prop :=
  (∃ q acl, consulted path q ∧ acl ∈ entries q ∧ acl_matches ctx perm acl) ∨
  (∃ r, r ∈ Roles_of ctx ∧ role_perm r perm = true).

(** The entries of the path [q] that the store answers with when it is asked about [paths]:
    those of the batch answer, or of the single query when there is none. *)
Definition answers `{ACLStore St} (store : St) (paths : list string) (q : string) : list ACL :=
  match GetACLsForPaths store with
  | Some f =>
      match f paths with
      | Ok acls => filter (fun a => Path a = q) acls
      | Err _ => GetACLs store q
      end
  | None => GetACLs store q
  end.

(** What the resolver grants, on the answers of the store. *)
Definition Allowed `{ACLStore St} (store : St) (ctx : AuthContext) (path : string)
    (perm : Permission) : Prop :=
  granted_by (answers store (lineage path)) ctx path perm.

Lemma elem_of_lineage path q : q ∈ lineage path ↔ consulted path q.
Proof.
  unfold lineage, consulted. rewrite elem_of_cons.
  case_bool_decide as E.
  - rewrite elem_of_nil. naive_solver.
  - rewrite list_elem_of_fmap. setoid_rewrite elem_of_prefixes_desc; [|done].
    split; (intros [?|Hq]; [by left|right]).
    + destruct Hq as (ks & -> & [Hk _]). eauto.
    + destruct Hq as (_ & ks & Hk & ->). exists ks. split_and!; [done|done|].
      by apply prefix_length.
Qed.

Lemma acl_grants_spec ctx perm acl :
  acl_grants ctx perm acl = true ↔ acl_matches ctx perm acl.
Proof.
  unfold acl_grants, acl_matches. rewrite orb_true_iff, andb_true_iff, existsb_elem_of.
  setoid_rewrite andb_true_iff. setoid_rewrite bool_decide_eq_true. naive_solver.
Qed.

Lemma rbac_grants_spec ctx perm :
  rbac_grants ctx perm = true ↔ ∃ r, r ∈ Roles_of ctx ∧ role_perm r perm = true.
Proof. apply existsb_elem_of. Qed.

(** The scan of the entries of the consulted paths, and the role table. *)
Definition scan (entries : string → list ACL) (ctx : AuthContext) (perm : Permission) (paths : list string) : bool :=
  existsb (fun p => existsb (acl_grants ctx perm) (entries p)) paths || rbac_grants ctx perm.

Lemma scan_spec entries ctx perm path :
  scan entries ctx perm (lineage path) = true ↔ granted_by entries ctx path perm.
Proof.
  unfold scan, granted_by. rewrite orb_true_iff, rbac_grants_spec, existsb_elem_of.
  setoid_rewrite existsb_elem_of. setoid_rewrite acl_grants_spec.
  setoid_rewrite elem_of_lineage. naive_solver.
Qed.

Lemma Allowed_spec `{ACLStore St} ctx perm (store : St) path :
  scan (answers store (lineage path)) ctx perm (lineage path) = true ↔ Allowed store ctx path perm.
Proof. apply scan_spec. Qed.

Lemma foldl_add_by_path acls m p :
  default [] (foldl add_by_path m acls !! p)
  = default [] (m !! p) ++ filter (fun a => Path a = p) acls.
Proof.
  revert m. induction acls as [|a acls IH]; intros m; simpl.
  - by rewrite app_nil_r.
  - rewrite IH, filter_cons. unfold add_by_path. case_decide as E.
    + subst. rewrite lookup_insert_eq. simpl. by rewrite <- app_assoc.
    + by rewrite lookup_insert_ne.
Qed.

Lemma group_by_path_lookup acls p :
  default [] (group_by_path acls !! p) = filter (fun a => Path a = p) acls.
Proof. unfold group_by_path. by rewrite foldl_add_by_path, lookup_empty. Qed.

Lemma existsb_ext_in {A} (f g : A → bool) (l : list A) :
  (∀ x, x ∈ l → f x = g x) → existsb f l = existsb g l.
Proof.
  induction l as [|x l IH]; intros H; simpl; [done|]. by rewrite H, IH by set_solver.
Qed.

Lemma scan_ext entries entries' ctx perm paths :
  (∀ p, p ∈ paths → entries p ≡ₚ entries' p) → scan entries ctx perm paths = scan entries' ctx perm paths.
Proof. intros He. unfold scan. f_equal. apply existsb_ext_in. intros p Hp. by apply existsb_ext_perm, He. Qed.

Lemma CanAccess_scan `{ACLStore St} fuel ctx path perm (store : St) :
  CanAccess fuel ctx path perm store =
  (fun paths => scan (answers store paths) ctx perm paths) <$> parentPaths fuel path.
Proof.
  unfold CanAccess, answers. destruct (parentPaths fuel path) as [paths|]; simpl; [|done]. f_equal.
  destruct (GetACLsForPaths store) as [f|]; [|done]. destruct (f paths) as [acls|]; [|done].
  unfold batch_check, scan. f_equal. apply existsb_ext_in. intros p _. by rewrite group_by_path_lookup.
Qed.

Lemma answers_complete `{ACLStore St} (store : St) `{!CompleteBatch store} paths p :
  p ∈ paths → answers store paths p ≡ₚ GetACLs store p.
Proof.
  intros Hp. unfold answers. destruct (GetACLsForPaths store) as [f|] eqn:Ef; [|done].
  destruct (f paths) as [acls|] eqn:Eq; [|done]. by eapply batch_agrees.
Qed.

(** On a complete store the decision is the scan of the single queries. *)
Lemma CanAccess_complete `{ACLStore St} (store : St) `{!CompleteBatch store} fuel ctx path perm :
  CanAccess fuel ctx path perm store = scan (GetACLs store) ctx perm <$> parentPaths fuel path.
Proof.
  rewrite CanAccess_scan. destruct (parentPaths fuel path) as [paths|]; simpl; [|done]. f_equal.
  apply scan_ext. intros p. by apply answers_complete.
Qed.

Lemma CanAccess_rooted `{ACLStore St} fuel ctx path perm (store : St) :
  rooted path = true → path_fuel path ≤ fuel →
  CanAccess fuel ctx path perm store = Some (scan (answers store (lineage path)) ctx perm (lineage path)).
Proof. intros. by rewrite CanAccess_scan, parentPaths_lineage. Qed.

Lemma CanAccess_rooted_complete `{ACLStore St} (store : St) `{!CompleteBatch store} fuel ctx path perm :
  rooted path = true → path_fuel path ≤ fuel →
  CanAccess fuel ctx path perm store = Some (scan (GetACLs store) ctx perm (lineage path)).
Proof. intros. by rewrite CanAccess_complete, parentPaths_lineage. Qed.

(** A store seen without its batch method. *)
Record without_batch (St : Type) := NoBatch { inner : St }.
Arguments NoBatch {St}.
Arguments inner {St}.

#[global] Instance NoBatch_ACLStore `{ACLStore St} : ACLStore (without_batch St) := {
  GetACLs := fun s => GetACLs (inner s);
  SetACL := fun s a => let '(r, s') := SetACL (inner s) a in (r, NoBatch s');
  GetACLsForPaths := fun _ => None
}.

#[global] Instance NoBatch_CompleteBatch `{ACLStore St} (s : without_batch St) : CompleteBatch s.
Proof. intros f ps acls p [=]. Qed.

(** ** Properties of the resolver *)

(** C1: On every rooted path the resolver terminates, whatever store it is given (with or
    without the batch query, failing or not), and it grants the permission exactly when one of
    the entries that the store answers with grants it: an entry of the user or of one of its
    roles, on the path itself or on any ancestor of its cleaned directory, with the permission
    set to true; or when one of the caller's roles has the permission in the role table. When
    the batch answers of the store are complete, these are the entries that the store has on
    those paths. This is the rule of the code, not the one of its documents, in which the
    closest entry decides; for the difference see [CanAccess_documented]. *)
Theorem CanAccess_correct `{ACLStore St} fuel ctx path perm (store : St) :
  rooted path = true → path_fuel path ≤ fuel →
  ∃ b, CanAccess fuel ctx path perm store = Some b ∧
       (b = true ↔ granted_by (answers store (lineage path)) ctx path perm) ∧
       (CompleteBatch store → (b = true ↔ granted_by (GetACLs store) ctx path perm)).
Proof.
  intros Hr Hf. eexists. split; [by apply CanAccess_rooted|]. split; [apply scan_spec|].
  intros Hc. rewrite <- scan_spec. erewrite scan_ext; [done|]. intros p. by apply answers_complete.
Qed.

(** C17: The batch query is only an optimisation: on a store whose batch answers are complete
    every decision, on every path and every fuel, is the one of the same store without the
    batch method. *)
Theorem CanAccess_batch_equiv `{ACLStore St} fuel ctx path perm (store : St) :
  CompleteBatch store →
  CanAccess fuel ctx path perm store = CanAccess fuel ctx path perm (NoBatch store).
Proof. intros Hc. by rewrite !CanAccess_complete by apply _. Qed.

Lemma CanAccess_unrooted `{ACLStore St} fuel ctx path perm (store : St) :
  rooted path = false → CanAccess fuel ctx path perm store = None.
Proof. intros Hr. unfold CanAccess. by rewrite parentPaths_relative. Qed.

(** C32: The loop of [parentPaths] never ends on a path that does not start with a slash, so
    an access check on such a path does not return. *)
Theorem CanAccess_relative_diverges `{ACLStore St} ctx path perm (store : St) :
  rooted path = false → ∀ fuel, CanAccess fuel ctx path perm store = None.
Proof. intros Hr fuel. by apply CanAccess_unrooted. Qed.

(** The paths consulted for a rooted path, in order: the path as given, then the
    ancestors of its cleaned directory from the nearest to the root. *)
Theorem parentPaths_spec fuel path :
  rooted path = true → path_fuel path ≤ fuel →
  parentPaths fuel path =
  Some (path :: (if bool_decide (path = "/") then []
                 else map (render true)
                        (prefixes_desc (length (clean_comps (Dir path))) (clean_comps (Dir path))))).
Proof. intros. by rewrite parentPaths_lineage. Qed.

Lemma consulted_clean cs q :
  Forall normal cs →
  consulted (render true cs) q ↔ ∃ ks, ks `prefix_of` cs ∧ q = render true ks.
Proof.
  intros Hcs. unfold consulted. destruct cs as [|c cs _] using rev_ind.
  - split.
    + intros [->|[? _]]; [|done]. by exists [].
    + intros (ks & Hk & ->). apply prefix_nil_inv in Hk. subst. by left.
  - apply Forall_app in Hcs as [Hcs Hc]. inversion_clear Hc.
    rewrite Dir_render_snoc, clean_comps_render by (done || by apply canonical_rooted).
    split.
    + intros [->|(_ & ks & Hk & ->)]; [by exists (cs ++ [c])|].
      exists ks. split; [|done]. by apply prefix_app_r.
    + intros (ks & [k Hk] & ->). destruct k as [|x k _] using rev_ind.
      * rewrite app_nil_r in Hk. subst. by left.
      * rewrite app_assoc in Hk. apply app_inj_tail in Hk as [-> ->]. right.
        split; [|exists ks; split; [by apply prefix_app_r|done]].
        intros E. apply render_true_root in E; [by destruct (ks ++ k)|].
        apply Forall_app. auto.
Qed.

(** Inheritance. An entry on a directory that grants a permission to the caller grants
    it on every path below that directory, to any depth. *)
Theorem CanAccess_inherits `{ACLStore St} fuel ctx perm (store : St) `{!CompleteBatch store} cs ks acl :
  Forall normal cs → Forall normal ks →
  acl ∈ GetACLs store (render true cs) → acl_matches ctx perm acl →
  path_fuel (render true (cs ++ ks)) ≤ fuel →
  CanAccess fuel ctx (render true (cs ++ ks)) perm store = Some true.
Proof.
  intros Hcs Hks Hacl Hm Hf. rewrite CanAccess_rooted_complete by done. f_equal.
  apply scan_spec. left. exists (render true cs), acl. split_and!; [|done..].
  apply consulted_clean; [by apply Forall_app|]. exists cs. split; [by apply prefix_app_r|done].
Qed.

Lemma InMemory_SetACL_GetACLs (s : InMemory.InMemoryACLStore) a p :
  GetACLs (SetACL s a).2 p = GetACLs s p ++ (if decide (Path a = p) then [a] else []).
Proof.
  simpl. unfold InMemory.GetACLs. simpl. case_decide as E.
  - subst. by rewrite lookup_insert_eq.
  - rewrite lookup_insert_ne by done. by rewrite app_nil_r.
Qed.

Lemma InMemory_SetACL_scan ctx perm (s : InMemory.InMemoryACLStore) a ps :
  existsb (fun p => existsb (acl_grants ctx perm) (GetACLs (SetACL s a).2 p)) ps =
  existsb (fun p => existsb (acl_grants ctx perm) (GetACLs s p)) ps
  || (bool_decide (Path a ∈ ps) && acl_grants ctx perm a).
Proof.
  apply eq_true_iff_eq. rewrite orb_true_iff, andb_true_iff, bool_decide_eq_true, !existsb_elem_of.
  setoid_rewrite InMemory_SetACL_GetACLs. setoid_rewrite existsb_app.
  split.
  - intros (p & Hp & [?|Hg]%orb_true_iff); [left; eauto|right]. case_decide; [|done]. subst.
    split; [done|]. simpl in Hg. by rewrite orb_false_r in Hg.
  - intros [(p & Hp & Hg)|[Hp Hg]].
    + exists p. by rewrite Hg.
    + exists (Path a). split; [done|]. rewrite decide_True by done. simpl.
      by rewrite Hg, orb_true_r.
Qed.

Lemma CanAccess_SetACL fuel ctx path perm (s : InMemory.InMemoryACLStore) a :
  rooted path = true → path_fuel path ≤ fuel →
  CanAccess fuel ctx path perm (SetACL s a).2 =
  (b ← CanAccess fuel ctx path perm s;
   Some (b || (bool_decide (Path a ∈ lineage path) && acl_grants ctx perm a))).
Proof.
  intros Hr Hf. rewrite !CanAccess_rooted_complete by (done || apply _). cbn [mbind option_bind]. f_equal.
  unfold scan. rewrite InMemory_SetACL_scan.
  by rewrite <- orb_assoc, (orb_comm (_ && _)), orb_assoc.
Qed.

(** Storing an entry in the in-memory store never revokes an access, and changes a
    decision about a rooted path from deny to allow precisely when the entry sits on a
    consulted path and grants the permission to the caller. *)
Theorem SetACL_effect fuel ctx path perm (s : InMemory.InMemoryACLStore) a :
  rooted path = true → path_fuel path ≤ fuel →
  (CanAccess fuel ctx path perm s = Some true →
   CanAccess fuel ctx path perm (SetACL s a).2 = Some true) ∧
  (CanAccess fuel ctx path perm s = Some false →
   CanAccess fuel ctx path perm (SetACL s a).2 =
   Some (bool_decide (Path a ∈ lineage path) && acl_grants ctx perm a)).
Proof. intros. rewrite CanAccess_SetACL by done. by split; intros ->. Qed.

(** Loading a list of entries one [SetACL] at a time. *)
Definition SetACLs (s : InMemory.InMemoryACLStore) (acls : list ACL) : InMemory.InMemoryACLStore :=
  foldl (fun s a => (SetACL s a).2) s acls.

Lemma CanAccess_SetACLs fuel ctx path perm acls :
  rooted path = true → path_fuel path ≤ fuel →
  CanAccess fuel ctx path perm (SetACLs InMemory.NewInMemoryACLStore acls) =
  Some (rbac_grants ctx perm ||
        existsb (fun a => bool_decide (Path a ∈ lineage path) && acl_grants ctx perm a) acls).
Proof.
  intros Hr Hf. unfold SetACLs. induction acls as [|a acls IH] using rev_ind.
  - rewrite CanAccess_rooted_complete by (done || apply _). cbn [foldl existsb]. rewrite orb_false_r. f_equal.
    unfold scan. rewrite (existsb_ext_in _ (fun _ => false)).
    + by induction (lineage path).
    + done.
  - rewrite foldl_app. cbn [foldl]. rewrite CanAccess_SetACL, IH by done.
    cbn [mbind option_bind]. rewrite existsb_app. cbn [existsb].
    by rewrite orb_false_r, orb_assoc.
Qed.

(** Deny by default and grant-only entries, for any sequence of [SetACL] calls on a
    fresh in-memory store: access is allowed exactly when a role of the table allows it or
    one of the stored entries, on a consulted path, grants it. *)
Theorem CanAccess_after_SetACLs fuel ctx path perm acls :
  rooted path = true → path_fuel path ≤ fuel →
  CanAccess fuel ctx path perm (SetACLs InMemory.NewInMemoryACLStore acls) =
  Some (rbac_grants ctx perm ||
        existsb (fun a => bool_decide (Path a ∈ lineage path) && acl_grants ctx perm a) acls).
Proof. apply CanAccess_SetACLs. Qed.

(** ** Paths that end in ".." *)

Lemma render_snoc cs c : render true (cs ++ [c]) = render true cs +:+ (if decide (cs = []) then c else "/" +:+ c).
Proof.
  unfold render. case_decide as E; [by subst|].
  by rewrite join_slash_snoc, <- append_assoc.
Qed.

Definition dotdot (p : string) : string := p +:+ "/..".

Lemma upto_last_slash_dotdot p : upto_last_slash (dotdot p) = p +:+ "/".
Proof. by apply (upto_last_slash_app p ".."). Qed.

Lemma Dir_dotdot cs : Forall normal cs → Dir (dotdot (render true cs)) = render true cs.
Proof.
  intros Hcs. unfold Dir. rewrite upto_last_slash_dotdot. unfold Clean.
  rewrite rooted_append by done. f_equal. rewrite (clean_comps_append _ "") by done.
  cbn [split_slash clean_go]. rewrite bool_decide_eq_true_2, rev_involutive by auto.
  apply clean_comps_render. by apply canonical_rooted.
Qed.

Lemma Clean_dotdot cs c :
  Forall normal cs → normal c → Clean (dotdot (render true (cs ++ [c]))) = render true cs.
Proof.
  intros Hcs Hc. unfold Clean, dotdot. rewrite rooted_append by done. f_equal.
  rewrite (clean_comps_append _ "..") by done.
  rewrite clean_comps_render by (apply canonical_rooted, Forall_app; auto).
  rewrite rev_app_distr.
  change (clean_go true (rev [c] ++ rev cs) (split_slash ".."))
    with (if bool_decide (c = "..") then ".." :: c :: rev cs else rev cs).
  rewrite bool_decide_eq_false_2 by apply Hc. by rewrite rev_involutive.
Qed.

Lemma render_inj cs ds : Forall normal cs → Forall normal ds → render true cs = render true ds → cs = ds.
Proof.
  intros Hc Hd E. apply (f_equal clean_comps) in E.
  by rewrite !clean_comps_render in E by by apply canonical_rooted.
Qed.

(** A path ending in ".." is authorised against the child it climbs out of. With a single
    entry on "/.../c", the path "/.../c/.." (which names the parent directory) is allowed,
    while the parent's own path is denied: cleaning the path changes the decision. *)
Theorem CanAccess_dotdot_uses_child fuel uid perm cs c :
  Forall normal cs → normal c →
  let child := render true (cs ++ [c]) in
  let ctx := mkAuthContext uid [] in
  let store := SetACLs InMemory.NewInMemoryACLStore
                 [mkACL child ("user:" +:+ uid) {[perm := true]}] in
  path_fuel (dotdot child) ≤ fuel →
  Clean (dotdot child) = render true cs ∧
  CanAccess fuel ctx (dotdot child) perm store = Some true ∧
  CanAccess fuel ctx (Clean (dotdot child)) perm store = Some false.
Proof.
  intros Hcs Hc child ctx store Hf. subst child store.
  assert (Forall normal (cs ++ [c])) as Hcc by (apply Forall_app; auto).
  assert (acl_grants ctx perm (mkACL (render true (cs ++ [c])) ("user:" +:+ uid) {[perm := true]}) = true) as Hg.
  { apply acl_grants_spec. split; [|by left]. unfold perm_get. simpl. by rewrite lookup_singleton_eq. }
  split; [by apply Clean_dotdot|]. rewrite Clean_dotdot by done.
  split; rewrite CanAccess_SetACLs; cbn [existsb]; rewrite ?Hg; try done.
  - rewrite bool_decide_eq_true_2; [done|]. simpl Path. apply elem_of_lineage. right.
    split.
    { intros E%(f_equal String.length). unfold dotdot in E. rewrite length_append in E. simpl in E. lia. }
    exists (cs ++ [c]). split; [|done].
    rewrite Dir_dotdot, clean_comps_render by (done || by apply canonical_rooted). done.
  - rewrite bool_decide_eq_false_2; [done|]. simpl Path. rewrite elem_of_lineage, consulted_clean by done.
    intros (ks & Hk & E). apply render_inj in E; [|done|].
    + subst. apply prefix_length in Hk. rewrite length_app in Hk. simpl in Hk. lia.
    + destruct Hk as [k ->]. by apply Forall_app in Hcs as [? _].
  - unfold path_fuel, dotdot in *. rewrite render_snoc, !length_append in Hf. lia.
Qed.

(** ** Witnesses *)

Definition sample_store : InMemory.InMemoryACLStore :=
  SetACLs InMemory.NewInMemoryACLStore
    [mkACL "/projects" "role:editor" {[PermWrite := true]};
     mkACL "/projects/alpha" "user:42" {[PermDelete := true]}].

Definition sample_ctx : AuthContext := mkAuthContext "42" ["editor"].

(** A tactic for the fuel side conditions of the witnesses. *)
Ltac solve_fuel := unfold path_fuel; vm_compute; lia.

Lemma CanAccess_relative_diverges_witness :
  CanAccess 1000 sample_ctx "report.txt" PermRead sample_store = None.
Proof. apply CanAccess_relative_diverges. reflexivity. Defined.

Lemma parentPaths_spec_witness :
  parentPaths 40 "/a/b/c.txt" = Some ["/a/b/c.txt"; "/a/b"; "/a"; "/"].
Proof. rewrite (parentPaths_spec 40 "/a/b/c.txt"); [reflexivity | reflexivity | solve_fuel]. Defined.

Lemma CanAccess_inherits_witness :
  CanAccess 40 sample_ctx "/projects/alpha/docs" PermWrite sample_store = Some true.
Proof.
  apply (CanAccess_inherits 40 sample_ctx PermWrite sample_store ["projects"] ["alpha"; "docs"]
           (mkACL "/projects" "role:editor" {[PermWrite := true]})).
  - solve_normal.
  - solve_normal.
  - vm_compute. left.
  - split; [reflexivity|]. right. exists "editor". split; [left|reflexivity].
  - solve_fuel.
Defined.

Lemma SetACL_effect_witness :
  CanAccess 40 sample_ctx "/projects" PermDelete
    (SetACL sample_store (mkACL "/" "user:42" {[PermDelete := true]})).2 =
  Some (bool_decide ("/" ∈ lineage "/projects") &&
        acl_grants sample_ctx PermDelete (mkACL "/" "user:42" {[PermDelete := true]})).
Proof.
  apply (SetACL_effect 40 sample_ctx "/projects" PermDelete sample_store
           (mkACL "/" "user:42" {[PermDelete := true]})); [reflexivity | solve_fuel | reflexivity].
Defined.

Lemma CanAccess_after_SetACLs_witness :
  CanAccess 40 (mkAuthContext "13" []) "/secret" PermRead
    (SetACLs InMemory.NewInMemoryACLStore [mkACL "/public" "user:13" {[PermRead := true]}]) =
  Some (rbac_grants (mkAuthContext "13" []) PermRead ||
        existsb (fun a => bool_decide (Path a ∈ lineage "/secret") &&
                          acl_grants (mkAuthContext "13" []) PermRead a)
          [mkACL "/public" "user:13" {[PermRead := true]}]).
Proof. apply CanAccess_after_SetACLs; [reflexivity | solve_fuel]. Defined.

Lemma CanAccess_dotdot_uses_child_witness :
  Clean "/projects/alpha/.." = "/projects" ∧
  CanAccess 40 (mkAuthContext "7" []) "/projects/alpha/.." PermList
    (SetACLs InMemory.NewInMemoryACLStore [mkACL "/projects/alpha" "user:7" {[PermList := true]}])
    = Some true ∧
  CanAccess 40 (mkAuthContext "7" []) "/projects" PermList
    (SetACLs InMemory.NewInMemoryACLStore [mkACL "/projects/alpha" "user:7" {[PermList := true]}])
    = Some false.
Proof.
  apply (CanAccess_dotdot_uses_child 40 "7" PermList ["projects"] "alpha").
  - solve_normal.
  - solve_normal.
  - solve_fuel.
Defined.
