(* ===== verification/AclRule.v ===== *)
(** * The documented access rule

    docs/auth.md (Resolution order) and docs/architecture/file-engine.md (8.2 to 8.5): the
    closest entry of the user decides, then the closest of its roles, then the role table. The
    code lets any entry and any role grant; this file says how the two decisions are related. *)
From S2P Require Import Prelude GoStrings GoPath Acl.

#[local] Open Scope string_scope.
#[local] Open Scope nat_scope.
#[local] Open Scope list_scope.

(** The entries of the principals [prs] on the nearest path that has one. *)
Fixpoint closest (entries : string → list ACL) (prs paths : list string) : option (list ACL) :=
  match paths with
  | [] => None
  | p :: ps =>
      match filter (fun a => PrincipalID a ∈ prs) (entries p) with
      | [] => closest entries prs ps
      | es => Some es
      end
  end.

Definition user_principal (ctx : AuthContext) : string := "user:" +:+ UserID ctx.
Definition role_principals (ctx : AuthContext) : list string := (fun r => "role:" +:+ r) <$> Roles_of ctx.

(** An entry of the caller. *)
Definition own (ctx : AuthContext) (a : ACL) : Prop := PrincipalID a ∈ user_principal ctx :: role_principals ctx.

(** An entry overrides by its value for the permission, true or false. *)
Definition any_grants (perm : Permission) (es : list ACL) : bool :=
  existsb (fun a => perm_get (Permissions a) perm) es.

Definition documented_access (entries : string → list ACL) (ctx : AuthContext) (perm : Permission)
    (paths : list string) : bool :=
  match closest entries [user_principal ctx] paths with
  | Some es => any_grants perm es
  | None =>
      match closest entries (role_principals ctx) paths with
      | Some es => any_grants perm es
      | None => rbac_grants ctx perm
      end
  end.

Lemma own_matches ctx perm a : own ctx a → perm_get (Permissions a) perm = true → acl_matches ctx perm a.
Proof.
  unfold own, user_principal, role_principals. rewrite elem_of_cons, list_elem_of_fmap.
  intros Hp Hg. split; [done|]. naive_solver.
Qed.

Lemma matches_own ctx perm a : acl_matches ctx perm a → own ctx a ∧ perm_get (Permissions a) perm = true.
Proof.
  unfold own, user_principal, role_principals. rewrite elem_of_cons, list_elem_of_fmap.
  intros [Hg Hp]. split; [|done]. naive_solver.
Qed.

Section Rule.
Context (entries : string → list ACL) (ctx : AuthContext) (perm : Permission).

(** Entries that were found are entries of a consulted path and of one of the principals. *)
Lemma closest_some prs paths es :
  closest entries prs paths = Some es →
  es ≠ [] ∧ ∀ a, a ∈ es → PrincipalID a ∈ prs ∧ ∃ p, p ∈ paths ∧ a ∈ entries p.
Proof.
  induction paths as [|p ps IH]; cbn [closest]; [done|].
  destruct (filter _ _) as [|a0 es0] eqn:E.
  - intros [Hne H]%IH. split; [done|]. intros a (? & p' & Hp & ?)%H. split; [done|].
    exists p'. split; [by right|done].
  - intros [= <-]. split; [done|]. intros a Ha. rewrite <- E, list_elem_of_filter in Ha.
    destruct Ha as [? ?]. split; [done|]. exists p. split; [left|done].
Qed.

Lemma closest_none prs paths p a :
  closest entries prs paths = None → p ∈ paths → a ∈ entries p → PrincipalID a ∉ prs.
Proof.
  induction paths as [|p0 ps IH]; cbn [closest]; [by intros _ ?%not_elem_of_nil|].
  destruct (filter _ _) as [|a0 es0] eqn:E; [|done]. intros Hc [->|Hp]%elem_of_cons Ha Hpr; [|by eapply IH].
  eapply not_elem_of_nil. rewrite <- E, list_elem_of_filter. by split.
Qed.

Lemma any_grants_scan prs paths es :
  closest entries prs paths = Some es → (∀ pr, pr ∈ prs → pr ∈ user_principal ctx :: role_principals ctx) →
  any_grants perm es = true → scan entries ctx perm paths = true.
Proof.
  intros [_ Hes]%closest_some Hprs. unfold any_grants. rewrite existsb_elem_of. intros (a & Ha & Hg).
  destruct (Hes a Ha) as (Hpr & p & Hp & Hap). unfold scan. rewrite orb_true_iff, existsb_elem_of. left.
  exists p. split; [done|]. rewrite existsb_elem_of. exists a. split; [done|]. apply acl_grants_spec, own_matches; auto.
  by apply Hprs.
Qed.

(** The code grants whatever the documents grant. *)
Lemma documented_scan paths :
  documented_access entries ctx perm paths = true → scan entries ctx perm paths = true.
Proof.
  unfold documented_access. destruct (closest entries [_] paths) as [es|] eqn:Eu.
  - apply (any_grants_scan _ _ _ Eu). intros pr ->%list_elem_of_singleton. left.
  - destruct (closest entries (role_principals ctx) paths) as [es|] eqn:Er.
    + apply (any_grants_scan _ _ _ Er). intros pr ?. by right.
    + intros Hr. unfold scan. by rewrite Hr, orb_true_r.
Qed.

Lemma any_grants_false es :
  es ≠ [] → any_grants perm es = false → ∃ a, a ∈ es ∧ perm_get (Permissions a) perm = false.
Proof.
  destruct es as [|a es]; [done|]. intros _. unfold any_grants. cbn [existsb]. rewrite orb_false_iff.
  intros [Ha _]. exists a. split; [left|done].
Qed.

(** The code grants more only by passing over an entry of the caller that withholds. *)
Lemma scan_beyond_documented paths :
  scan entries ctx perm paths = true → documented_access entries ctx perm paths = false →
  ∃ p a, p ∈ paths ∧ a ∈ entries p ∧ own ctx a ∧ perm_get (Permissions a) perm = false.
Proof.
  intros Hs. unfold documented_access. destruct (closest entries [_] paths) as [es|] eqn:Eu.
  { pose proof (closest_some _ _ _ Eu) as [Hne Hes]. intros (a & Ha & Hg)%any_grants_false; [|done].
    destruct (Hes a Ha) as (Hpr%list_elem_of_singleton & p & ? & ?). exists p, a. split_and!; [done..| |done].
    unfold own. rewrite Hpr. left. }
  destruct (closest entries (role_principals ctx) paths) as [es|] eqn:Er.
  { pose proof (closest_some _ _ _ Er) as [Hne Hes]. intros (a & Ha & Hg)%any_grants_false; [|done].
    destruct (Hes a Ha) as (Hpr & p & ? & ?). exists p, a. split_and!; [done..| |done].
    unfold own. by right. }
  intros Hb. unfold scan in Hs. rewrite Hb, orb_false_r, existsb_elem_of in Hs. destruct Hs as (p & Hp & Hs).
  rewrite existsb_elem_of in Hs. destruct Hs as (a & Ha & [Ho _]%acl_grants_spec%matches_own).
  exfalso. unfold own in Ho. apply elem_of_cons in Ho as [Ho|Ho].
  - eapply closest_none; [exact Eu|done..|]. rewrite Ho. left.
  - by eapply closest_none; [exact Er|..].
Qed.
End Rule.

(** C9: How the code and the documented rule are related (docs/auth.md: the closest entry of
    the user decides, then the closest of its roles, then the role table). On every rooted path
    and every store with complete answers, what the documents grant the code grants; and when
    the code grants what the documents refuse, an entry of the caller on the path or one of its
    ancestors has the permission set to false and is passed over. So the two agree wherever no
    entry withholds the permission, and an explicit denial has no effect. *)
Theorem CanAccess_documented `{ACLStore St} (store : St) `{!CompleteBatch store} fuel ctx path perm :
  rooted path = true → path_fuel path ≤ fuel →
  let doc := documented_access (GetACLs store) ctx perm (lineage path) in
  ∃ b, CanAccess fuel ctx path perm store = Some b ∧
    (doc = true → b = true) ∧
    (b = true → doc = false →
     ∃ q a, consulted path q ∧ a ∈ GetACLs store q ∧ own ctx a ∧ perm_get (Permissions a) perm = false).
Proof.
  intros Hr Hf doc. eexists. split; [by apply CanAccess_rooted_complete|].
  split; [apply documented_scan|]. intros Hb Hd.
  destruct (scan_beyond_documented _ _ _ _ Hb Hd) as (q & a & Hq & ?).
  exists q, a. by rewrite <- elem_of_lineage.
Qed.

(** Storing an entry that withholds the permission changes no decision about it. *)
Theorem denial_ignored fuel ctx path perm (s : InMemory.InMemoryACLStore) a :
  rooted path = true → path_fuel path ≤ fuel → perm_get (Permissions a) perm = false →
  CanAccess fuel ctx path perm (SetACL s a).2 = CanAccess fuel ctx path perm s.
Proof.
  intros Hr Hf Ha. rewrite CanAccess_SetACL by done.
  assert (acl_grants ctx perm a = false) as ->.
  { apply not_true_iff_false. intros [? _]%acl_grants_spec. congruence. }
  destruct (CanAccess _ _ _ _ _); simpl; [|done]. by rewrite andb_false_r, orb_false_r.
Qed.

(** ** The two rules apart *)

(** The user is denied on the file and granted on its directory. *)
Definition denied_store : InMemory.InMemoryACLStore :=
  SetACLs InMemory.NewInMemoryACLStore
    [mkACL "/projects/alpha/secret.txt" "user:42" {[PermRead := false]};
     mkACL "/projects/alpha" "user:42" {[PermRead := true]}].

(** The closest entry denies; the code grants by the entry above it, and a viewer by the role
    table, although an entry exists. *)
Example closest_denial_passed_over :
  CanAccess 40 (mkAuthContext "42" []) "/projects/alpha/secret.txt" PermRead denied_store = Some true ∧
  documented_access (GetACLs denied_store) (mkAuthContext "42" []) PermRead
    (lineage "/projects/alpha/secret.txt") = false.
Proof. split; vm_compute; reflexivity. Qed.

Lemma CanAccess_documented_witness :
  let ctx := mkAuthContext "42" ["viewer"] in
  let path := "/projects/alpha/secret.txt" in
  let doc := documented_access (GetACLs denied_store) ctx PermRead (lineage path) in
  ∃ b, CanAccess 40 ctx path PermRead denied_store = Some b ∧
    (doc = true → b = true) ∧
    (b = true → doc = false →
     ∃ q a, consulted path q ∧ a ∈ GetACLs denied_store q ∧ own ctx a ∧ perm_get (Permissions a) PermRead = false).
Proof. apply CanAccess_documented; [apply _|reflexivity|solve_fuel]. Defined.
