(* ===== verification/Json.v ===== *)
(** * JSON values and their Go decodings

    The values that [encoding/json] reads and writes, and how it stores them into the Go
    types the file engine uses: [map[string]bool] (ACL permissions), [map[string]string]
    and [string] (task payloads). *)
From S2P Require Import Prelude GoStrings.

#[local] Open Scope string_scope.
#[local] Open Scope nat_scope.
#[local] Open Scope list_scope.

Inductive json :=
  | JNull
  | JBool (b : bool)
  | JNum (lit : string)
  | JStr (s : string)
  | JArr (l : list json)
  | JObj (fields : list (string * json)).

(** ** [map[string]bool] *)

(** A member of an object stored into a map of booleans: null leaves the zero value. *)
Definition decode_bool (j : json) : option bool :=
  match j with
  | JBool b => Some b
  | JNull => Some false
  | _ => None
  end.

(** [json.Unmarshal(_, &tmp)] with [tmp map[string]bool]; [None] is a type error. *)
Fixpoint decode_bool_fields (fields : list (string * json)) (m : gmap string bool) :
    option (gmap string bool) :=
  match fields with
  | [] => Some m
  | (k, j) :: rest => b ← decode_bool j; decode_bool_fields rest (<[k := b]> m)
  end.

Definition unmarshal_bool_map (j : json) : option (gmap string bool) :=
  match j with
  | JNull => Some ∅
  | JObj fields => decode_bool_fields fields ∅
  | _ => None
  end.

Lemma decode_bool_fields_bools l m :
  decode_bool_fields ((fun '(k, b) => (k, JBool b)) <$> l) m =
  Some (list_to_map (reverse l) ∪ m).
Proof.
  revert m. induction l as [|[k b] l IH]; intros m; simpl.
  - by rewrite map_empty_union.
  - rewrite IH, reverse_cons, list_to_map_app. simpl.
    by rewrite <- map_union_assoc, insert_empty, <- insert_union_singleton_l.
Qed.
