(* ===== verification/JsonText.v ===== *)
(** * JSON text

    The text that [encoding/json] writes and reads: UTF-8, the escaping of strings, and the
    grammar with its nesting limit. Used for the task payloads that travel through the queue. *)
From Stdlib Require Import Ascii.
From S2P Require Import Prelude GoStrings Json.

#[local] Open Scope string_scope.
#[local] Open Scope nat_scope.
#[local] Open Scope list_scope.

(** ** UTF-8 *)

Definition in_range (lo hi : N) (a : ascii) : bool := (lo <=? N_of_ascii a)%N && (N_of_ascii a <=? hi)%N.

(** A continuation byte, and the second bytes allowed after a given first byte. *)
Definition cont : ascii → bool := in_range 128 191.

Definition second_of_3 (a : ascii) : ascii → bool :=
  if (N_of_ascii a =? 224)%N then in_range 160 191
  else if (N_of_ascii a =? 237)%N then in_range 128 159 else cont.

Definition second_of_4 (a : ascii) : ascii → bool :=
  if (N_of_ascii a =? 240)%N then in_range 144 191
  else if (N_of_ascii a =? 244)%N then in_range 128 143 else cont.

(** The length of the valid sequence at the front of the string, 0 if there is none. *)
Definition rune_len (s : string) : nat :=
  match s with
  | "" => 0
  | String a s1 =>
      if (N_of_ascii a <? 128)%N then 1
      else if in_range 194 223 a then
        match s1 with String b _ => if cont b then 2 else 0 | _ => 0 end
      else if in_range 224 239 a then
        match s1 with String b (String c _) => if second_of_3 a b && cont c then 3 else 0 | _ => 0 end
      else if in_range 240 244 a then
        match s1 with
        | String b (String c (String d _)) => if second_of_4 a b && cont c && cont d then 4 else 0
        | _ => 0
        end
      else 0
  end.

(** A string as Go ranges over it: ASCII bytes, longer sequences, invalid bytes. *)
Inductive rune :=
  | RByte (a : ascii)
  | RSeq (s : string)
  | RBad (a : ascii).

Fixpoint runes_go (fuel : nat) (s : string) : list rune :=
  match fuel, s with
  | S fuel', String a s1 =>
      match rune_len s with
      | 0 => RBad a :: runes_go fuel' s1
      | 1 => RByte a :: runes_go fuel' s1
      | n => RSeq (stake n s) :: runes_go fuel' (sdrop n s)
      end
  | _, _ => []
  end.

Definition runes (s : string) : list rune := runes_go (String.length s) s.

Definition rune_bytes (r : rune) : string :=
  match r with RByte a => String a "" | RSeq s => s | RBad a => String a "" end.

Definition good_rune (r : rune) : Prop :=
  match r with
  | RByte a => (N_of_ascii a < 128)%N
  | RSeq s => rune_len s = String.length s ∧ 2 ≤ String.length s
  | RBad _ => False
  end.

#[global] Instance good_rune_dec r : Decision (good_rune r).
Proof. destruct r; simpl; apply _. Defined.

(** [utf8.ValidString] *)
Definition valid_utf8 (s : string) : Prop := Forall good_rune (runes s).

(** [utf8.AppendRune] *)
Definition encode_rune (n : N) : string :=
  let b (x : N) (k : string) := String (ascii_of_N x) k in
  if (n <? 128)%N then b n ""
  else if (n <? 2048)%N then b (192 + n / 64)%N (b (128 + n mod 64)%N "")
  else if (n <? 65536)%N then
    b (224 + n / 4096)%N (b (128 + (n / 64) mod 64)%N (b (128 + n mod 64)%N ""))
  else b (240 + n / 262144)%N (b (128 + (n / 4096) mod 64)%N (b (128 + (n / 64) mod 64)%N (b (128 + n mod 64)%N ""))).

(** ** Strings *)

Definition dquote : ascii := "034"%char.
Definition hex_lower (n : N) : ascii := ascii_of_N (if (n <? 10)%N then 48 + n else 87 + n).

Definition quote_rune (r : rune) : string :=
  match r with
  | RByte a =>
      let n := N_of_ascii a in
      if bool_decide (a = dquote ∨ a = "\"%char) then String "\" (String a "")
      else if (n =? 8)%N then "\b"
      else if (n =? 12)%N then "\f"
      else if (n =? 10)%N then "\n"
      else if (n =? 13)%N then "\r"
      else if (n =? 9)%N then "\t"
      else if (n <? 32)%N || bool_decide (a = "<"%char ∨ a = ">"%char ∨ a = "&"%char)
      then "\u00" +:+ String (hex_lower (n / 16)) (String (hex_lower (n mod 16)) "")
      else String a ""
  | RSeq s =>
      if bool_decide (s = GoStrings.bytes [226; 128; 168]) then "\u2028"
      else if bool_decide (s = GoStrings.bytes [226; 128; 169]) then "\u2029"
      else s
  | RBad _ => "\ufffd"
  end.

Definition quote_runes (rs : list rune) : string := foldr (fun r k => quote_rune r +:+ k) "" rs.

Definition quote (s : string) : string :=
  String dquote (quote_runes (runes s) +:+ String dquote "").

Definition hex_digit_val (a : ascii) : option N :=
  let n := N_of_ascii a in
  if in_range 48 57 a then Some (n - 48)%N
  else if in_range 97 102 a then Some (n - 87)%N
  else if in_range 65 70 a then Some (n - 55)%N
  else None.

(** Four hexadecimal digits and the rest. *)
Definition hex4 (s : string) : option (N * string) :=
  match s with
  | String a (String b (String c (String d s'))) =>
      w ← hex_digit_val a; x ← hex_digit_val b; y ← hex_digit_val c; z ← hex_digit_val d;
      Some (w * 4096 + x * 256 + y * 16 + z, s')%N
  | _ => None
  end.

Definition simple_escape (e : ascii) : option ascii :=
  if bool_decide (e = dquote ∨ e = "\"%char ∨ e = "/"%char) then Some e
  else if bool_decide (e = "b"%char) then Some "008"%char
  else if bool_decide (e = "f"%char) then Some "012"%char
  else if bool_decide (e = "n"%char) then Some "010"%char
  else if bool_decide (e = "r"%char) then Some "013"%char
  else if bool_decide (e = "t"%char) then Some "009"%char
  else None.

(** The rune of an escape \uXXXX whose digits gave [n], before [s]: a surrogate pair is
    combined, a lone surrogate becomes U+FFFD. *)
Definition unescape_u (n : N) (s : string) : string * string :=
  if (55296 <=? n)%N && (n <? 57344)%N then
    match s with
    | String b (String u s1) =>
        match (if bool_decide (b = "\"%char ∧ u = "u"%char) then hex4 s1 else None) with
        | Some (n2, s2) =>
            if (n <? 56320)%N && (56320 <=? n2)%N && (n2 <? 57344)%N
            then (encode_rune (65536 + (n - 55296) * 1024 + (n2 - 56320))%N, s2)
            else (encode_rune 65533, s)
        | None => (encode_rune 65533, s)
        end
    | _ => (encode_rune 65533, s)
    end
  else (encode_rune n, s).

(** One element of a string literal: its bytes and the rest, or the end of the literal. *)
Inductive string_step := StepEnd (rest : string) | StepBytes (b rest : string) | StepError.

Definition string_next (s : string) : string_step :=
  match s with
  | "" => StepError
  | String a s1 =>
      if bool_decide (a = dquote) then StepEnd s1
      else if bool_decide (a = "\"%char) then
        match s1 with
        | "" => StepError
        | String e s2 =>
            match simple_escape e with
            | Some c => StepBytes (String c "") s2
            | None =>
                if bool_decide (e = "u"%char) then
                  match hex4 s2 with
                  | Some (n, s3) => let '(b, s4) := unescape_u n s3 in StepBytes b s4
                  | None => StepError
                  end
                else StepError
            end
        end
      else if (N_of_ascii a <? 32)%N then StepError
      else if (N_of_ascii a <? 128)%N then StepBytes (String a "") s1
      else match rune_len s with
           | 0 => StepBytes (encode_rune 65533) s1
           | n => StepBytes (stake n s) (sdrop n s)
           end
  end.

(** The contents of a literal after its opening quote, and what follows it. *)
Fixpoint unquote (fuel : nat) (s : string) : option (string * string) :=
  match fuel with
  | 0 => None
  | S fuel' =>
      match string_next s with
      | StepEnd rest => Some ("", rest)
      | StepBytes b rest => '(k, r) ← unquote fuel' rest; Some (b +:+ k, r)
      | StepError => None
      end
  end.

(** ** The literal of a string reads back as the string *)

Lemma rune_len_app s k : rune_len s ≠ 0 → rune_len (s +:+ k) = rune_len s.
Proof.
  destruct s as [|a s]; [done|]. cbn [String.append rune_len].
  destruct (N_of_ascii a <? 128)%N; [done|].
  destruct (in_range 194 223 a); [by destruct s|].
  destruct (in_range 224 239 a); [by destruct s as [|b [|c s]]|].
  destruct (in_range 240 244 a); [by destruct s as [|b [|c [|d s]]]|done].
Qed.

Lemma string_next_seq s k :
  good_rune (RSeq s) → string_next (s +:+ k) = StepBytes s k.
Proof.
  intros [Hl Hn]. destruct s as [|a s]; [simpl in Hn; lia|].
  assert ((N_of_ascii a <? 128)%N = false) as Ha.
  { apply not_true_is_false. intros Ha. cbn [rune_len] in Hl. rewrite Ha in Hl. simpl in Hl, Hn. lia. }
  unfold string_next. cbn [String.append]. change (String a (s +:+ k)) with (String a s +:+ k).
  assert (128 ≤ N_of_ascii a)%N as Hge by (apply N.ltb_ge; done).
  rewrite !bool_decide_eq_false_2 by (intros ->; done).
  rewrite (proj2 (N.ltb_ge _ _)) by lia. rewrite Ha, rune_len_app by (rewrite Hl; simpl; lia).
  rewrite Hl. transitivity (StepBytes (stake (String.length (String a s)) (String a s +:+ k))
    (sdrop (String.length (String a s)) (String a s +:+ k))); [reflexivity|].
  by rewrite stake_app, sdrop_app.
Qed.

Lemma string_next_byte a k :
  good_rune (RByte a) → string_next (quote_rune (RByte a) +:+ k) = StepBytes (String a "") k.
Proof.
  simpl. destruct a as [[] [] [] [] [] [] [] []]; intros H; try (by exfalso; vm_compute in H); reflexivity.
Qed.

Lemma string_next_good r k :
  good_rune r → string_next (quote_rune r +:+ k) = StepBytes (rune_bytes r) k.
Proof.
  intros Hr. destruct r as [a|s|a]; [by apply string_next_byte| |done].
  cbn [quote_rune]. case_bool_decide as E1; [by subst|].
  case_bool_decide as E2; [by subst|]. by apply string_next_seq.
Qed.

Definition runes_bytes (rs : list rune) : string := foldr (fun r k => rune_bytes r +:+ k) "" rs.

Lemma unquote_quote_runes rs k fuel :
  Forall good_rune rs → length rs < fuel →
  unquote fuel (quote_runes rs +:+ String dquote k) = Some (runes_bytes rs, k).
Proof.
  intros Hrs. revert fuel. induction Hrs as [|r rs Hr _ IH]; intros [|fuel] Hf; simpl in Hf; try lia.
  - done.
  - cbn [unquote quote_runes runes_bytes foldr]. fold (quote_runes rs). fold (runes_bytes rs).
    rewrite append_assoc, string_next_good by done. by rewrite IH by lia.
Qed.

Lemma rune_len_le s : rune_len s ≤ String.length s.
Proof.
  destruct s as [|a s]; [done|]. cbn [rune_len]. simpl.
  repeat first [case_match; simpl; try lia].
Qed.

Lemma runes_bytes_go fuel s : String.length s ≤ fuel → runes_bytes (runes_go fuel s) = s.
Proof.
  revert s. induction fuel as [|fuel IH]; intros [|a s] Hf; simpl in Hf; try done; [lia|].
  cbn [runes_go]. pose proof (rune_len_le (String a s)) as Hl.
  destruct (rune_len (String a s)) as [|[|n]] eqn:E; cbn [runes_bytes foldr rune_bytes].
  - fold (runes_bytes (runes_go fuel s)). by rewrite IH by lia.
  - fold (runes_bytes (runes_go fuel s)). by rewrite IH by lia.
  - fold (runes_bytes (runes_go fuel (sdrop (S (S n)) (String a s)))).
    rewrite IH; [apply stake_sdrop|]. rewrite length_sdrop. simpl. lia.
Qed.

Lemma runes_bytes_runes s : runes_bytes (runes s) = s.
Proof. by apply runes_bytes_go. Qed.

Lemma length_quote_runes rs : Forall good_rune rs → length rs ≤ String.length (quote_runes rs).
Proof.
  induction 1 as [|r rs Hr _ IH]; [done|]. cbn [quote_runes foldr]. fold (quote_runes rs).
  rewrite length_append. simpl. enough (1 ≤ String.length (quote_rune r)) by lia.
  destruct r as [a|s|a]; cbn [quote_rune]; repeat first [case_match | case_bool_decide]; simpl; try lia.
  destruct Hr. lia.
Qed.

Lemma unquote_quote s k fuel :
  valid_utf8 s → String.length (quote s) ≤ fuel →
  unquote fuel (quote_runes (runes s) +:+ String dquote k) = Some (s, k).
Proof.
  intros Hs Hf. rewrite unquote_quote_runes; [by rewrite runes_bytes_runes|done|].
  pose proof (length_quote_runes _ Hs). unfold quote in Hf. simpl in Hf.
  rewrite length_append in Hf. simpl in Hf. lia.
Qed.

(** ASCII strings are valid. *)
Fixpoint all_ascii (s : string) : bool :=
  match s with "" => true | String a s' => (N_of_ascii a <? 128)%N && all_ascii s' end.

Lemma runes_ascii fuel s : all_ascii s = true → String.length s ≤ fuel → Forall good_rune (runes_go fuel s).
Proof.
  revert s. induction fuel as [|fuel IH]; intros [|a s] Ha Hf; cbn [runes_go];
    [constructor|simpl in Hf; lia|constructor|].
  simpl in Ha, Hf. go_bool. unfold rune_len. rewrite H. constructor.
  - by apply N.ltb_lt.
  - apply IH; [done|lia].
Qed.

Lemma valid_ascii s : all_ascii s = true → valid_utf8 s.
Proof. intros H. by apply runes_ascii. Qed.

Lemma all_ascii_append a b : all_ascii (a +:+ b) = all_ascii a && all_ascii b.
Proof. induction a as [|x a IH]; simpl; [done|]. by rewrite IH, andb_assoc. Qed.

(** ** Values *)

(** What [json.Marshal] writes for a value, without insignificant space. *)
Definition print_elems (pr : json → string) : list json → string :=
  fix elems (l : list json) : string :=
    match l with
    | [] => "]"
    | x :: l' => pr x +:+ match l' with [] => "]" | _ => String "," (elems l') end
    end.

Definition print_members (pr : json → string) : list (string * json) → string :=
  fix members (fs : list (string * json)) : string :=
    match fs with
    | [] => "}"
    | kx :: fs' =>
        quote kx.1 +:+ String ":" (pr kx.2 +:+ match fs' with [] => "}" | _ => String "," (members fs') end)
    end.

Fixpoint print_json (j : json) : string :=
  match j with
  | JNull => "null"
  | JBool b => if b then "true" else "false"
  | JNum lit => lit
  | JStr s => quote s
  | JArr l => String "[" (print_elems print_json l)
  | JObj fs => String "{" (print_members print_json fs)
  end.

Fixpoint skip_ws (s : string) : string :=
  match s with
  | String a s' =>
      if bool_decide (a = " "%char ∨ a = "009"%char ∨ a = "010"%char ∨ a = "013"%char) then skip_ws s' else s
  | "" => ""
  end.

(** A string literal and the rest. *)
Definition parse_string (s : string) : option (string * string) :=
  match s with
  | String a s' => if bool_decide (a = dquote) then unquote (String.length s) s' else None
  | "" => None
  end.

Fixpoint digits (s : string) : string * string :=
  match s with
  | String a s' => if in_range 48 57 a then let '(d, r) := digits s' in (String a d, r) else ("", s)
  | "" => ("", "")
  end.

(** -?(0|[1-9][0-9]* )(\.[0-9]+)?([eE][+-]?[0-9]+)? *)
Definition parse_int (s : string) : option (string * string) :=
  match s with
  | String a s' =>
      if bool_decide (a = "0"%char) then Some ("0", s')
      else if in_range 49 57 a then let '(d, r) := digits s' in Some (String a d, r)
      else None
  | "" => None
  end.

Definition parse_frac (s : string) : option (string * string) :=
  match s with
  | String a s' =>
      if bool_decide (a = "."%char) then
        let '(d, r) := digits s' in
        if bool_decide (d = "") then None else Some (String a d, r)
      else Some ("", s)
  | "" => Some ("", "")
  end.

Definition parse_exp (s : string) : option (string * string) :=
  match s with
  | String a s' =>
      if bool_decide (a = "e"%char ∨ a = "E"%char) then
        let '(sign, s1) := match s' with
                           | String b s2 => if bool_decide (b = "+"%char ∨ b = "-"%char) then (String b "", s2) else ("", s')
                           | "" => ("", "")
                           end in
        let '(d, r) := digits s1 in
        if bool_decide (d = "") then None else Some (String a (sign +:+ d), r)
      else Some ("", s)
  | "" => Some ("", "")
  end.

Definition parse_number (s : string) : option (json * string) :=
  let '(sign, s1) := if HasPrefix s "-" then ("-", sdrop 1 s) else ("", s) in
  '(i, s2) ← parse_int s1; '(f, s3) ← parse_frac s2; '(e, s4) ← parse_exp s3;
  Some (JNum (sign +:+ i +:+ f +:+ e), s4).

(** [encoding/json] refuses more than 10000 nested arrays and objects. *)
Definition max_depth : N := 10000.

(** A value after white space, the elements of an array and the members of an object, each
    with what follows it. Every call is one unit of fuel; at most two per byte are needed. *)
Fixpoint parse_value (fuel : nat) (depth : N) (s : string) {struct fuel} : option (json * string) :=
  match fuel with
  | 0 => None
  | S fuel' =>
      match skip_ws s with
      | "" => None
      | String a s1 as s0 =>
          if bool_decide (a = "{"%char) then
            if (max_depth <=? depth)%N then None
            else match skip_ws s1 with
                 | String b s2 =>
                     if bool_decide (b = "}"%char) then Some (JObj [], s2)
                     else '(fs, r) ← parse_members fuel' (depth + 1) s1; Some (JObj fs, r)
                 | "" => None
                 end
          else if bool_decide (a = "["%char) then
            if (max_depth <=? depth)%N then None
            else match skip_ws s1 with
                 | String b s2 =>
                     if bool_decide (b = "]"%char) then Some (JArr [], s2)
                     else '(l, r) ← parse_elems fuel' (depth + 1) s1; Some (JArr l, r)
                 | "" => None
                 end
          else if bool_decide (a = dquote) then '(x, r) ← parse_string s0; Some (JStr x, r)
          else if HasPrefix s0 "null" then Some (JNull, sdrop 4 s0)
          else if HasPrefix s0 "true" then Some (JBool true, sdrop 4 s0)
          else if HasPrefix s0 "false" then Some (JBool false, sdrop 5 s0)
          else parse_number s0
      end
  end
with parse_elems (fuel : nat) (depth : N) (s : string) {struct fuel} : option (list json * string) :=
  match fuel with
  | 0 => None
  | S fuel' =>
      '(x, r) ← parse_value fuel' depth s;
      match skip_ws r with
      | String c r' =>
          if bool_decide (c = "]"%char) then Some ([x], r')
          else if bool_decide (c = ","%char) then '(l, r2) ← parse_elems fuel' depth r'; Some (x :: l, r2)
          else None
      | "" => None
      end
  end
with parse_members (fuel : nat) (depth : N) (s : string) {struct fuel} : option (list (string * json) * string) :=
  match fuel with
  | 0 => None
  | S fuel' =>
      '(k, r) ← parse_string (skip_ws s);
      match skip_ws r with
      | String c r1 =>
          if bool_decide (c = ":"%char) then
            '(x, r2) ← parse_value fuel' depth r1;
            match skip_ws r2 with
            | String d r3 =>
                if bool_decide (d = "}"%char) then Some ([(k, x)], r3)
                else if bool_decide (d = ","%char) then
                  '(fs, r4) ← parse_members fuel' depth r3; Some ((k, x) :: fs, r4)
                else None
            | "" => None
            end
          else None
      | "" => None
      end
  end.

(** A whole JSON text; [None] is a syntax error. *)
Definition parse_json (s : string) : option json :=
  '(j, r) ← parse_value (2 + 2 * String.length s) 0 s;
  if bool_decide (skip_ws r = "") then Some j else None.

(** ** What was written reads back *)

(** Values without numbers whose strings are valid UTF-8, nested at most [d] deep. *)
Inductive wf_json : nat → json → Prop :=
  | wf_null d : wf_json d JNull
  | wf_bool d b : wf_json d (JBool b)
  | wf_str d s : valid_utf8 s → wf_json d (JStr s)
  | wf_arr d l : Forall (wf_json d) l → wf_json (S d) (JArr l)
  | wf_obj d fs : Forall (fun kx => valid_utf8 kx.1 ∧ wf_json d kx.2) fs → wf_json (S d) (JObj fs).

Lemma parse_string_quote s k : valid_utf8 s → parse_string (quote s +:+ k) = Some (s, k).
Proof.
  intros Hs. unfold quote. cbn [String.append]. rewrite append_assoc. cbn [String.append parse_string].
  rewrite bool_decide_eq_true_2 by done. apply unquote_quote; [done|].
  unfold quote. simpl. rewrite !length_append. simpl. lia.
Qed.

Lemma skip_ws_quote s k : skip_ws (quote s +:+ k) = quote s +:+ k.
Proof. done. Qed.

Section Parse.
Variable d : nat.
Hypothesis parse_value_print : ∀ j fuel depth k,
  wf_json d j → 2 * String.length (print_json j) ≤ fuel → (depth + N.of_nat d <= max_depth)%N →
  parse_value fuel depth (print_json j +:+ k) = Some (j, k).

Lemma parse_members_print fs fuel depth k :
  Forall (fun kx => valid_utf8 kx.1 ∧ wf_json d kx.2) fs → fs ≠ [] →
  2 * String.length (print_members print_json fs) ≤ fuel → (depth + N.of_nat d <= max_depth)%N →
  parse_members fuel depth (print_members print_json fs +:+ k) = Some (fs, k).
Proof.
  intros Hfs. revert fuel. induction Hfs as [|[q x] fs [Hq Hx] _ IH]; intros fuel Hne Hf Hd; [done|].
  cbn [print_members] in *. simpl in Hq, Hx. cbn [fst snd] in *.
  rewrite !length_append in Hf. simpl in Hf. rewrite !length_append in Hf.
  destruct fuel as [|fuel]; [lia|]. cbn [parse_members].
  rewrite append_assoc, skip_ws_quote, parse_string_quote by done. cbn [mbind option_bind String.append].
  change (skip_ws (String ":" ?t)) with (String ":" t). cbv iota.
  rewrite bool_decide_eq_true_2, append_assoc, parse_value_print by (done || lia).
  cbn [mbind option_bind]. destruct fs as [|kx fs]; [done|].
  change (skip_ws (String "," (?t) +:+ k)) with (String "," (t +:+ k)). cbv iota.
  rewrite bool_decide_eq_false_2, bool_decide_eq_true_2 by done.
  rewrite IH; [done|done| |done]. cbn [String.length] in Hf. lia.
Qed.

Lemma parse_elems_print l fuel depth k :
  Forall (wf_json d) l → l ≠ [] →
  2 * String.length (print_elems print_json l) ≤ fuel → (depth + N.of_nat d <= max_depth)%N →
  parse_elems fuel depth (print_elems print_json l +:+ k) = Some (l, k).
Proof.
  intros Hl. revert fuel. induction Hl as [|x l Hx _ IH]; intros fuel Hne Hf Hd; [done|].
  cbn [print_elems] in *. rewrite !length_append in Hf.
  destruct fuel as [|fuel]; [destruct l; simpl in Hf; lia|]. cbn [parse_elems].
  rewrite append_assoc, parse_value_print; [|done|destruct l; simpl in Hf; lia|done].
  cbn [mbind option_bind]. destruct l as [|y l]; [done|].
  change (skip_ws (String "," (?t) +:+ k)) with (String "," (t +:+ k)). cbv iota.
  rewrite bool_decide_eq_false_2, bool_decide_eq_true_2 by done.
  rewrite IH; [done|done| |done]. cbn [String.length] in Hf. lia.
Qed.
End Parse.

Lemma parse_value_string s fuel depth k :
  valid_utf8 s → parse_value (S fuel) depth (quote s +:+ k) = Some (JStr s, k).
Proof.
  intros Hs. cbn [parse_value]. rewrite skip_ws_quote. unfold quote at 1. cbn [String.append].
  rewrite !(bool_decide_eq_false_2 (dquote = _)), (bool_decide_eq_true_2 (dquote = dquote)) by done.
  transitivity ('(x, r) ← parse_string (quote s +:+ k); Some (JStr x, r)); [done|].
  by rewrite parse_string_quote.
Qed.

Lemma print_members_first q x fs k :
  ∃ t, print_members print_json ((q, x) :: fs) +:+ k = String dquote t.
Proof. by eexists. Qed.

Lemma print_json_first d j : wf_json d j → ∃ a t, print_json j = String a t ∧
  (∀ k, skip_ws (String a k) = String a k) ∧ a ≠ "]"%char.
Proof. by destruct 1 as [|? []| | |]; eexists _, _. Qed.

Lemma parse_value_print d j fuel depth k :
  wf_json d j → 2 * String.length (print_json j) ≤ fuel → (depth + N.of_nat d <= max_depth)%N →
  parse_value fuel depth (print_json j +:+ k) = Some (j, k).
Proof.
  revert j fuel depth k. induction d as [|d IH]; intros j fuel depth k Hj Hf Hd;
    (destruct fuel as [|fuel]; [destruct (print_json_first _ _ Hj) as (a & t & E & _); rewrite E in Hf; simpl in Hf; lia|]);
    inversion Hj as [|? b|? s Hs|d' l Hl|d' fs Hfs]; subst; try done; try (by destruct b);
    try by apply parse_value_string.
  - cbn [print_json parse_value]. cbn [print_json String.length] in Hf.
    change (skip_ws (String "[" ?t +:+ k)) with (String "[" (t +:+ k)). cbv iota.
    rewrite bool_decide_eq_false_2, bool_decide_eq_true_2 by done.
    rewrite (proj2 (N.leb_gt _ _)) by lia. destruct l as [|x l]; [done|].
    assert (∃ a t, print_elems print_json (x :: l) +:+ k = String a t ∧ skip_ws (String a t) = String a t ∧ a ≠ "]"%char)
      as (a & t & E & Ews & Hne).
    { inversion_clear Hl as [|? ? Hx _]. destruct (print_json_first _ _ Hx) as (a & t & E & Ews & Hne).
      cbn [print_elems]. rewrite E. by eexists a, _. }
    rewrite E, Ews, bool_decide_eq_false_2 by done. rewrite <- E.
    rewrite (parse_elems_print d IH); [done|done|done|lia|lia].
  - cbn [print_json parse_value]. cbn [print_json String.length] in Hf.
    change (skip_ws (String "{" ?t +:+ k)) with (String "{" (t +:+ k)). cbv iota.
    rewrite bool_decide_eq_true_2 by done.
    rewrite (proj2 (N.leb_gt _ _)) by lia. destruct fs as [|[q x] fs]; [done|].
    destruct (print_members_first q x fs k) as [t E]. rewrite E.
    change (skip_ws (String dquote t)) with (String dquote t). cbv iota.
    rewrite bool_decide_eq_false_2 by done. rewrite <- E.
    rewrite (parse_members_print d IH); [done|done|done|lia|lia].
Qed.

Lemma parse_json_print d j :
  wf_json d j → (N.of_nat d <= max_depth)%N → parse_json (print_json j) = Some j.
Proof.
  intros Hj Hd. unfold parse_json. rewrite <- (append_nil_r (print_json j)) at 2.
  rewrite (parse_value_print d); [done|done|lia|lia].
Qed.
