(* ===== verification/PgAcl.v ===== *)
(** * The PostgreSQL ACL store

    [internal/auth/postgres_store.go] over the table of
    [db/migrations/0001_create_acl_entries.sql], in a database with the encoding UTF8. The
    server is a table of rows and a health state; the order in which it returns the rows of a
    query without ORDER BY, and which entries fit its indexes, are parameters. *)
From Stdlib Require Import Ascii.
From stdpp Require Import sorting.
From S2P Require Import Prelude GoStrings GoPath Json JsonText Acl.

#[local] Open Scope string_scope.
#[local] Open Scope nat_scope.
#[local] Open Scope list_scope.

(** One row of acl_entries. [row_scan_ok] is false for a row on which [rows.Scan] fails. *)
Record row := mkRow {
  row_path : string;
  row_principal : string;
  row_permissions : json;
  row_scan_ok : bool
}.

(** Which statements fail: none, only the multi-path query, or every statement. With [Cut n]
    every query is accepted and its result ends with an error after [n] rows. *)
Inductive health := Up | BatchDown | Down | Cut (n : nat).

#[global] Instance health_eq_dec : EqDecision health.
Proof. solve_decision. Defined.

Record PostgresACLStore := mkPg {
  acl_entries : list row;
  pg_health : health
}.

Definition NewPostgresACLStore (h : health) : PostgresACLStore := mkPg [] h.

(** ** Values on the wire *)

(** A value of type TEXT: valid UTF-8 without a zero byte. *)
Definition pg_text (s : string) : bool :=
  bool_decide (valid_utf8 s) && negb (Contains s (String "000" "")).

(** [encoding/json] writes an invalid byte as the replacement character. *)
Definition rune_text (r : rune) : string :=
  match r with RBad _ => GoStrings.bytes [239; 191; 189] | _ => rune_bytes r end.

Definition runes_text (rs : list rune) : string := foldr (fun r k => rune_text r +:+ k) "" rs.

Definition json_key (s : string) : string := runes_text (runes s).

Definition key_le (a b : string * bool) : Prop := string_le a.1 b.1.

#[global] Instance key_le_dec a b : Decision (key_le a b).
Proof. unfold key_le. apply _. Defined.

(** [json.Marshal] of a [map[Permission]bool]: the members sorted by their keys. Reading an
    object with a repeated key takes its last value, as JSONB does when it stores one. *)
Definition marshal_bool_map (m : gmap string bool) : json :=
  JObj ((fun '(k, b) => (json_key k, JBool b)) <$> merge_sort key_le (map_to_list m)).

(** JSONB refuses the escape of a zero byte. *)
Definition jsonb_keys (m : gmap string bool) : bool :=
  forallb (fun kb => negb (Contains kb.1 (String "000" ""))) (map_to_list m).

Section Postgres.
(** The order chosen by the query planner, and whether an index entry of the path and the
    principal is small enough. *)
Variable query_order : list row → list row.
Variable index_fits : string → string → bool.

(** The permissions of a row: those that are not an object of booleans read as none. *)
Definition scan_row (r : row) : ACL :=
  mkACL (row_path r) (row_principal r) (default ∅ (unmarshal_bool_map (row_permissions r))).

(** The row loop. A failed [Scan] closes the rows, so [continue] leads to the end of the
    loop. *)
Fixpoint scan_rows (rows : list row) : list ACL :=
  match rows with
  | [] => []
  | r :: rows' => if row_scan_ok r then scan_row r :: scan_rows rows' else []
  end.

(** The rows that [rows.Next] delivers; the error that ends them is not asked for. *)
Definition delivered (h : health) (rows : list row) : list row :=
  match h with Cut n => take n rows | _ => rows end.

(** What the server stores of an entry. *)
Definition pg_row (acl : ACL) : row := mkRow (Path acl) (PrincipalID acl) (marshal_bool_map (Permissions acl)) true.

Definition pg_accepts (acl : ACL) : bool :=
  pg_text (Path acl) && pg_text (PrincipalID acl) && jsonb_keys (Permissions acl)
  && index_fits (Path acl) (PrincipalID acl).

Definition pg_SetACL (s : PostgresACLStore) (acl : ACL) : result unit * PostgresACLStore :=
  let failed := (Err (ErrWrap "insert acl" (ErrExt "pg")), s) in
  match pg_health s with
  | Down => failed
  | _ => if pg_accepts acl then (Ok tt, mkPg (acl_entries s ++ [pg_row acl]) (pg_health s)) else failed
  end.

(** [SELECT ... WHERE path = $1]; a failed query gives a nil slice. *)
Definition pg_GetACLs (s : PostgresACLStore) (path : string) : list ACL :=
  match pg_health s with
  | Down => []
  | h => if pg_text path
         then scan_rows (delivered h (query_order (filter (fun r => row_path r = path) (acl_entries s))))
         else []
  end.

(** [SELECT ... WHERE path = ANY($1)]. *)
Definition pg_GetACLsForPaths (s : PostgresACLStore) (paths : list string) : result (list ACL) :=
  let failed := Err (ErrWrap "query acls" (ErrExt "pg")) in
  match paths with
  | [] => Ok []
  | _ =>
      match pg_health s with
      | Down | BatchDown => failed
      | h => if forallb pg_text paths
             then Ok (scan_rows (delivered h (query_order (filter (fun r => row_path r ∈ paths) (acl_entries s)))))
             else failed
      end
  end.

(** The server returns every matching row once. *)
Hypothesis query_order_perm : ∀ rows, query_order rows ≡ₚ rows.

#[local] Instance Pg_ACLStore : ACLStore PostgresACLStore := {
  GetACLs := pg_GetACLs;
  SetACL := pg_SetACL;
  GetACLsForPaths := fun s => Some (pg_GetACLsForPaths s)
}.

(** ** What the queries return *)

Lemma scan_rows_ok rows : Forall (fun r => row_scan_ok r = true) rows → scan_rows rows = scan_row <$> rows.
Proof. induction 1 as [|r rows Hr _ IH]; cbn [scan_rows fmap list_fmap]; [done|]. by rewrite Hr, IH. Qed.

Lemma scan_rows_elem a rows : a ∈ scan_rows rows → ∃ r, r ∈ rows ∧ a = scan_row r.
Proof.
  induction rows as [|r rows IH]; cbn [scan_rows]; [by intros ?%not_elem_of_nil|].
  destruct (row_scan_ok r); [|by intros ?%not_elem_of_nil]. rewrite elem_of_cons.
  intros [->|(r' & ? & ->)%IH]; eexists; (split; [|done]); [left|by right].
Qed.

Lemma filter_scan_row p (rows : list row) :
  filter (fun a => Path a = p) (scan_row <$> rows) = scan_row <$> filter (fun r => row_path r = p) rows.
Proof.
  induction rows as [|r rows IH]; [done|]. cbn [fmap list_fmap]. rewrite !filter_cons.
  simpl Path. case_decide; cbn [fmap list_fmap]; by rewrite IH.
Qed.

Lemma filter_in_paths p (paths : list string) (rows : list row) :
  p ∈ paths →
  filter (fun r => row_path r = p) (filter (fun r => row_path r ∈ paths) rows) =
  filter (fun r => row_path r = p) rows.
Proof.
  intros Hp. rewrite list_filter_filter. apply list_filter_iff. intros r.
  split; [naive_solver|]. by intros ->.
Qed.

(** The entries that the table has on a path. *)
Definition stored_at (s : PostgresACLStore) (p : string) : list ACL :=
  scan_row <$> filter (fun r => row_path r = p) (acl_entries s).

Lemma delivered_elem h a rows : a ∈ scan_rows (delivered h (query_order rows)) → ∃ r, r ∈ rows ∧ a = scan_row r.
Proof using query_order_perm.
  intros (r & Hr & ->)%scan_rows_elem. exists r. split; [|done]. rewrite <- (query_order_perm rows).
  destruct h; simpl in Hr; [done..|]. by eapply elem_of_take in Hr as (i & Hi%list_elem_of_lookup_2 & _).
Qed.

(** Whatever fails, what is returned is stored. *)
Lemma pg_GetACLs_sound s p a : a ∈ pg_GetACLs s p → a ∈ stored_at s p.
Proof using query_order_perm.
  unfold pg_GetACLs, stored_at. intros Ha.
  assert (∃ r, r ∈ filter (fun r => row_path r = p) (acl_entries s) ∧ a = scan_row r) as (r & Hr & ->).
  { destruct (pg_health s); [..|by apply not_elem_of_nil in Ha|];
      (destruct (pg_text p); [by apply delivered_elem in Ha|by apply not_elem_of_nil in Ha]). }
  by apply list_elem_of_fmap_2.
Qed.

Lemma pg_answers_sound s ps p a : a ∈ answers s ps p → a ∈ stored_at s p.
Proof using query_order_perm.
  unfold answers. cbn [GetACLsForPaths Pg_ACLStore GetACLs].
  destruct (pg_GetACLsForPaths s ps) as [acls|] eqn:E; [|apply pg_GetACLs_sound].
  rewrite list_elem_of_filter. intros [Hp Ha].
  assert (∃ r, r ∈ filter (fun r => row_path r ∈ ps) (acl_entries s) ∧ a = scan_row r) as (r & Hr & ->).
  { unfold pg_GetACLsForPaths in E. destruct ps; [injection E as <-; by apply not_elem_of_nil in Ha|].
    destruct (pg_health s); try done; (destruct (forallb _ _); [|done]); apply (inj Ok) in E; subst acls; by apply delivered_elem in Ha. }
  apply list_elem_of_filter in Hr as [_ Hr]. apply list_elem_of_fmap_2, list_elem_of_filter. by split.
Qed.

(** Every row can be scanned, and no result ends early. *)
Definition pg_whole (s : PostgresACLStore) : Prop :=
  Forall (fun r => row_scan_ok r = true) (acl_entries s) ∧ ∀ n, pg_health s ≠ Cut n.

Lemma delivered_whole s (P : row → Prop) `{!∀ r, Decision (P r)} :
  pg_whole s → scan_rows (delivered (pg_health s) (query_order (filter P (acl_entries s))))
               ≡ₚ scan_row <$> filter P (acl_entries s).
Proof using query_order_perm.
  intros [Hok Hcut]. assert (∀ rows, delivered (pg_health s) rows = rows) as ->.
  { intros rows. destruct (pg_health s) eqn:E; try done. by destruct (Hcut n). }
  rewrite scan_rows_ok; [by rewrite query_order_perm|].
  rewrite (query_order_perm (filter P _)). rewrite Forall_forall in *.
  intros r [_ Hr]%list_elem_of_filter. by apply Hok.
Qed.

Lemma pg_GetACLs_whole s p :
  pg_whole s → pg_health s ≠ Down → pg_text p = true → pg_GetACLs s p ≡ₚ stored_at s p.
Proof using query_order_perm.
  intros Hw Hd Hp. unfold stored_at. rewrite <- (delivered_whole s (fun r => row_path r = p) Hw).
  unfold pg_GetACLs. rewrite Hp. by destruct (pg_health s).
Qed.

#[local] Instance Pg_CompleteBatch s : pg_whole s → CompleteBatch s.
Proof using query_order_perm.
  intros Hw f ps acls p Hf Hq Hp. simplify_eq/=.
  unfold pg_GetACLsForPaths in Hq. destruct ps as [|p0 ps]; [by apply not_elem_of_nil in Hp|].
  assert (pg_health s ≠ Down ∧ forallb pg_text (p0 :: ps) = true ∧
    acls = scan_rows (delivered (pg_health s) (query_order (filter (fun r => row_path r ∈ p0 :: ps) (acl_entries s)))))
    as (Hd & Ht & ->).
  { destruct (pg_health s); try done; (destruct (forallb _ _); [|done]); by injection Hq as <-. }
  rewrite pg_GetACLs_whole; [|done..|].
  - rewrite (delivered_whole s _ Hw), filter_scan_row. unfold stored_at. by rewrite filter_in_paths.
  - rewrite forallb_forall in Ht. by apply Ht, list_elem_of_In.
Qed.

(** ** Permissions through the table *)

Lemma rune_text_ascii r : all_ascii (rune_text r) = true → rune_text r = rune_bytes r.
Proof. by destruct r. Qed.

Lemma runes_text_ascii rs : all_ascii (runes_text rs) = true → runes_text rs = runes_bytes rs.
Proof.
  induction rs as [|r rs IH]; [done|]. cbn [runes_text runes_bytes foldr]. fold (runes_text rs) (runes_bytes rs).
  rewrite all_ascii_append. intros [Hr Hrs]%andb_true_iff. by rewrite rune_text_ascii, IH.
Qed.

Lemma json_key_ascii k : all_ascii (json_key k) = true → json_key k = k.
Proof. intros Hk. unfold json_key. by rewrite runes_text_ascii, runes_bytes_runes. Qed.

Lemma json_key_good k : all_ascii k = true → json_key k = k.
Proof.
  intros Hk. transitivity (runes_bytes (runes k)); [|apply runes_bytes_runes].
  unfold json_key. pose proof (valid_ascii k Hk) as Hv. unfold valid_utf8 in Hv.
  induction Hv as [|r rs Hr _ IH]; [done|]. cbn [runes_text runes_bytes foldr].
  fold (runes_text rs) (runes_bytes rs). rewrite IH. by destruct r.
Qed.

Lemma unmarshal_marshal_perm m perm :
  all_ascii perm = true → perm_get (default ∅ (unmarshal_bool_map (marshal_bool_map m))) perm = perm_get m perm.
Proof.
  intros Hp. unfold marshal_bool_map, perm_get. cbn [unmarshal_bool_map].
  set (l := merge_sort key_le (map_to_list m)).
  assert (∀ k b, (k, b) ∈ l ↔ m !! k = Some b) as Hl.
  { intros k b. subst l. by rewrite merge_sort_Permutation, elem_of_map_to_list. }
  replace ((fun '(k, b) => (json_key k, JBool b)) <$> l)
    with ((fun '(k, b) => (k, JBool b)) <$> (prod_map json_key id <$> l))
    by (rewrite <- list_fmap_compose; apply list_fmap_ext; by intros ? [??]).
  rewrite decode_bool_fields_bools, map_union_empty. cbn [default]. f_equal.
  assert (∀ b, (perm, b) ∈ reverse (prod_map json_key id <$> l) ↔ m !! perm = Some b) as Hr.
  { intros b. rewrite elem_of_reverse, list_elem_of_fmap, <- Hl. split.
    - intros ([k b'] & [= E ->] & Hin). rewrite json_key_ascii in E by by rewrite <- E. by subst.
    - intros Hin. exists (perm, b). split; [|done]. unfold prod_map. simpl. by rewrite json_key_good. }
  change (list_to_map (M := gmap string bool) (reverse (prod_map json_key id <$> l)) !! (perm : string) = m !! (perm : string)).
  destruct (m !! perm) as [b|] eqn:E.
  - apply elem_of_list_to_map_1'; [|by apply Hr]. intros b' Hb'%Hr. congruence.
  - apply not_elem_of_list_to_map_1. intros ([k b] & -> & Hin)%list_elem_of_fmap. apply Hr in Hin. congruence.
Qed.

Lemma acl_grants_pg_row ctx perm a :
  all_ascii perm = true → acl_grants ctx perm (scan_row (pg_row a)) = acl_grants ctx perm a.
Proof. intros Hp. unfold acl_grants. cbn [scan_row pg_row Permissions PrincipalID row_permissions row_principal].
  by rewrite unmarshal_marshal_perm. Qed.

(** ** Refinement of the in-memory store *)

Definition pg_SetACLs (s : PostgresACLStore) (acls : list ACL) : PostgresACLStore :=
  foldl (fun s a => (SetACL s a).2) s acls.

(** The entries for which [SetACL] reports success. *)
Definition accepted (h : health) (acls : list ACL) : list ACL :=
  filter (fun a => is_ok (SetACL (NewPostgresACLStore h) a).1 = true) acls.

Lemma pg_SetACL_run s a :
  (is_ok (SetACL s a).1 = is_ok (SetACL (NewPostgresACLStore (pg_health s)) a).1) ∧
  (SetACL s a).2 = mkPg (acl_entries s ++ (if is_ok (SetACL s a).1 then [pg_row a] else [])) (pg_health s).
Proof.
  cbn [SetACL Pg_ACLStore]. unfold pg_SetACL. cbn [NewPostgresACLStore pg_health].
  destruct s as [es h]. destruct h, (pg_accepts a); simpl; rewrite ?app_nil_r; done.
Qed.

Lemma pg_SetACLs_entries h acls es :
  pg_SetACLs (mkPg es h) acls = mkPg (es ++ (pg_row <$> accepted h acls)) h.
Proof.
  revert es. induction acls as [|a acls IH]; intros es; [by rewrite app_nil_r|].
  unfold pg_SetACLs. cbn [foldl]. destruct (pg_SetACL_run (mkPg es h) a) as [Ho ->].
  fold (pg_SetACLs (mkPg (acl_entries (mkPg es h) ++ (if is_ok (SetACL (mkPg es h) a).1 then [pg_row a] else [])) h) acls).
  unfold accepted. rewrite filter_cons. cbn [acl_entries pg_health] in *. rewrite IH, Ho, <- app_assoc.
  case_decide as E; [by rewrite E|]. by rewrite (not_true_is_false _ E).
Qed.

Lemma pg_stored_at h acls p :
  stored_at (pg_SetACLs (NewPostgresACLStore h) acls) p =
  (fun a => scan_row (pg_row a)) <$> filter (fun a => Path a = p) (accepted h acls).
Proof.
  unfold NewPostgresACLStore. rewrite pg_SetACLs_entries. unfold stored_at. cbn [acl_entries app].
  induction (accepted h acls) as [|a l IH]; [done|]. cbn [fmap list_fmap]. rewrite !filter_cons.
  cbn [pg_row row_path]. case_decide; cbn [fmap list_fmap]; by rewrite IH.
Qed.

Lemma InMemory_SetACLs_GetACLs acls p :
  GetACLs (SetACLs InMemory.NewInMemoryACLStore acls) p = filter (fun a => Path a = p) acls.
Proof.
  unfold SetACLs. induction acls as [|a acls IH] using rev_ind; [done|].
  rewrite foldl_app, filter_app, <- IH. cbn [foldl]. rewrite InMemory_SetACL_GetACLs, filter_cons. by case_decide.
Qed.

Lemma accepted_text h acls a : a ∈ accepted h acls → h ≠ Down ∧ pg_text (Path a) = true.
Proof.
  unfold accepted. rewrite list_elem_of_filter. cbn [SetACL Pg_ACLStore]. unfold pg_SetACL, pg_accepts.
  cbn [NewPostgresACLStore pg_health]. intros [Ha _]. destruct h; try done; (split; [done|]);
    by destruct (pg_text (Path a)).
Qed.

Lemma pg_SetACLs_whole h acls : (∀ n, h ≠ Cut n) → pg_whole (pg_SetACLs (NewPostgresACLStore h) acls).
Proof.
  intros Hcut. unfold NewPostgresACLStore. rewrite pg_SetACLs_entries. split; [|done].
  apply Forall_forall. by intros r (a & -> & _)%list_elem_of_fmap.
Qed.

(** Without a cut the single queries return the stored entries, also on paths that the server
    refuses: there are none. *)
Lemma pg_GetACLs_accepted h acls p :
  (∀ n, h ≠ Cut n) → let s := pg_SetACLs (NewPostgresACLStore h) acls in pg_GetACLs s p ≡ₚ stored_at s p.
Proof using query_order_perm.
  intros Hcut s. pose proof (pg_SetACLs_whole h acls Hcut) as Hw.
  assert (pg_health s = h) as Hh by (subst s; unfold NewPostgresACLStore; by rewrite pg_SetACLs_entries).
  destruct (decide (h ≠ Down ∧ pg_text p = true)) as [[Hd Hp]|Hno].
  - apply pg_GetACLs_whole; [done|by rewrite Hh|done].
  - assert (filter (fun a => Path a = p) (accepted h acls) = []) as E.
    { apply elem_of_nil_inv. intros a [<- ?%accepted_text]%list_elem_of_filter. by apply Hno. }
    subst s. rewrite pg_stored_at, E. cbn [fmap list_fmap]. unfold pg_GetACLs. rewrite Hh.
    destruct h, (pg_text p); try done; by destruct Hno.
Qed.

Lemma existsb_subset {A} (f : A → bool) (l l' : list A) :
  (∀ x, x ∈ l → x ∈ l') → existsb f l = true → existsb f l' = true.
Proof. rewrite !existsb_elem_of. naive_solver. Qed.

(** The scan of what the table has is the scan of the in-memory store. *)
Lemma scan_stored h acls ctx perm paths :
  all_ascii perm = true →
  scan (stored_at (pg_SetACLs (NewPostgresACLStore h) acls)) ctx perm paths =
  scan (GetACLs (SetACLs InMemory.NewInMemoryACLStore (accepted h acls))) ctx perm paths.
Proof.
  intros Hp. unfold scan. f_equal. apply existsb_ext_in. intros p _.
  rewrite pg_stored_at, InMemory_SetACLs_GetACLs. induction (filter _ _) as [|a l IH]; [done|].
  cbn [fmap list_fmap existsb]. by rewrite IH, acl_grants_pg_row.
Qed.


(** C33: The store fails closed. While the server is unreachable, whatever is in its
    table, an access check on a rooted path still returns and grants only what the role
    table grants; and storing an entry is reported as an error and changes nothing. *)
Theorem pg_down_fails_closed s fuel ctx path perm a :
  pg_health s = Down → rooted path = true → path_fuel path ≤ fuel →
  CanAccess fuel ctx path perm s = Some (rbac_grants ctx perm) ∧
  SetACL s a = (Err (ErrWrap "insert acl" (ErrExt "pg")), s).
Proof using query_order_perm.
  intros Hh Hr Hf. split; [|simpl; unfold pg_SetACL; by rewrite Hh].
  rewrite CanAccess_rooted by done. f_equal. unfold scan.
  rewrite (existsb_ext_in _ (fun _ => false)).
  - by induction (lineage path).
  - intros p Hp. destruct (existsb _ _) eqn:E; [|done]. apply existsb_elem_of in E as (x & Hx & _).
    unfold answers in Hx. cbn [GetACLsForPaths GetACLs Pg_ACLStore] in Hx. unfold pg_GetACLsForPaths, pg_GetACLs in Hx.
    rewrite Hh in Hx. unfold lineage in Hx. by apply not_elem_of_nil in Hx.
Qed.
End Postgres.

(** ** Witnesses *)

Lemma reverse_order_perm (rows : list row) : reverse rows ≡ₚ rows.
Proof. apply reverse_Permutation. Defined.

Definition any_size (p q : string) : bool := true.

#[local] Abbreviation Pg := (Pg_ACLStore reverse any_size).

(** An accepted entry, one with a zero byte that is refused, and one whose second key is not
    UTF-8. *)
Definition pg_sample_acls : list ACL :=
  [mkACL "/tenants/1" "user:7" {[PermRead := true]};
   mkACL ("/tenants/2" +:+ String "000" "") "user:7" {[PermRead := true]};
   mkACL "/tenants" "role:ops" {[String "255" "" := true; PermList := true]}].

Definition pg_sample : PostgresACLStore := pg_SetACLs reverse any_size (NewPostgresACLStore Up) pg_sample_acls.


Lemma pg_down_fails_closed_witness :
  CanAccess 40 (mkAuthContext "7" ["viewer"]) "/tenants/1" PermRead (H := Pg)
    (mkPg [mkRow "/tenants/1" "user:7" JNull true] Down) = Some true ∧
  SetACL (ACLStore := Pg) (mkPg [mkRow "/tenants/1" "user:7" JNull true] Down)
    (mkACL "/" "role:viewer" ∅)
  = (Err (ErrWrap "insert acl" (ErrExt "pg")), mkPg [mkRow "/tenants/1" "user:7" JNull true] Down).
Proof.
  apply (pg_down_fails_closed reverse any_size reverse_order_perm); [reflexivity | reflexivity |].
  unfold path_fuel. simpl. lia.
Defined.

(** The resolver over a store with the batch query. *)
Lemma CanAccess_correct_witness :
  ∃ b, CanAccess 40 (mkAuthContext "7" []) "/tenants/1/a.txt" PermRead (H := Pg) pg_sample = Some b ∧
    (b = true ↔ granted_by (answers (H := Pg) pg_sample (lineage "/tenants/1/a.txt")) (mkAuthContext "7" []) "/tenants/1/a.txt" PermRead) ∧
    (CompleteBatch (H := Pg) pg_sample →
     (b = true ↔ granted_by (GetACLs (ACLStore := Pg) pg_sample) (mkAuthContext "7" []) "/tenants/1/a.txt" PermRead)).
Proof. apply (CanAccess_correct (H := Pg)); [reflexivity | solve_fuel]. Defined.

Lemma CanAccess_batch_equiv_witness :
  CanAccess 40 (mkAuthContext "7" []) "/tenants/1/a.txt" PermRead (H := Pg) pg_sample =
  CanAccess 40 (mkAuthContext "7" []) "/tenants/1/a.txt" PermRead (H := NoBatch_ACLStore (H := Pg)) (NoBatch pg_sample).
Proof.
  apply (CanAccess_batch_equiv (H := Pg)). apply (Pg_CompleteBatch reverse any_size reverse_order_perm).
  apply (pg_SetACLs_whole reverse any_size). discriminate.
Defined.

(** The batch query answers, so it is the batch that decides. *)
Example pg_sample_batch :
  match pg_GetACLsForPaths reverse pg_sample (lineage "/tenants/1/a.txt") with Ok acls => length acls | Err _ => 0 end = 2.
Proof. vm_compute. reflexivity. Qed.

(** A result that ends early is taken for the whole: the entry that grants is not seen, the
    caller is refused, and the single queries are not tried. *)
Example pg_cut_denies :
  CanAccess 40 (mkAuthContext "7" []) "/tenants/1/a.txt" PermRead (H := Pg)
    (pg_SetACLs reverse any_size (NewPostgresACLStore (Cut 1)) pg_sample_acls) = Some false ∧
  pg_GetACLs reverse (pg_SetACLs reverse any_size (NewPostgresACLStore (Cut 1)) pg_sample_acls) "/tenants/1" ≠ [].
Proof. split; [vm_compute; reflexivity|vm_compute; discriminate]. Qed.
