(* ===== verification/Jwt.v ===== *)
(** * Authentication: JWT verification, request contexts and the authentication layer

    [internal/auth/jwt.go], [context.go], [http_middleware.go] and [grpc_interceptor.go].
    The golang-jwt and x509 libraries are parameters: a class of operations, and a class of
    the documented laws that the soundness theorems use. *)
From S2P Require Import Prelude GoStrings GoPath Acl.
From Stdlib Require Import Ascii.

#[local] Open Scope string_scope.
#[local] Open Scope nat_scope.
#[local] Open Scope list_scope.
#[local] Open Scope go_scope.

(** ** Data *)

(** [Claims]: the roles and the registered claims the code reads. *)
Record Claims := mkClaims {
  Roles_claim : list string;
  Issuer : string;
  Audience : list string;
  Subject : string
}.

(** The dynamic types that the key function distinguishes; the string is [Alg()]. *)
Inductive signing_method :=
  | SigningMethodHMAC (alg : string)
  | SigningMethodRSA (alg : string)
  | SigningMethodOther (alg : string).

(** An RSA public key, and the keys handed to the library. *)
Record rsa_public_key := mkRsa { rsa_id : string }.

Inductive key :=
  | HMACKey (secret : string)
  | RSAKey (pk : rsa_public_key).

(** A parsed public key of any algorithm. *)
Inductive any_public_key :=
  | AnyRSA (pk : rsa_public_key)
  | AnyOther.

Record JWTVerifier := mkVerifier {
  secret : string;
  pubKey : option rsa_public_key;
  issuer : string;
  audience : string
}.

(** ** The libraries *)

Class JwtLib := {
  (** [jwt.ParseWithClaims]: the claims and the [Valid] flag of the parsed token. *)
  ParseWithClaims : string → (signing_method → result key) → result (Claims * bool);
  VerifyAudience : Claims → string → bool → bool;
  (** What a token says: its header's method, its payload, and whether its signature is
      correct under a key. *)
  method_of : string → option signing_method;
  claims_of : string → option Claims;
  sig_valid : signing_method → key → string → bool;
  (** [pem.Decode], [x509.ParsePKIXPublicKey] and the key of [x509.ParseCertificate]. *)
  pem_decode : string → option string;
  ParsePKIXPublicKey : string → result any_public_key;
  ParseCertificateKey : string → result any_public_key
}.

(** Documented behaviour of golang-jwt: a token is returned only if the key function gave a
    key for the method of its header and the signature verifies under that key; the
    audience test succeeds only for a listed audience when it is required. *)
Class JwtLibLaws `{JwtLib} := {
  parse_sound t kf c valid :
    ParseWithClaims t kf = Ok (c, valid) →
    ∃ m k, method_of t = Some m ∧ kf m = Ok k ∧ sig_valid m k t = true ∧ claims_of t = Some c;
  audience_sound c aud : VerifyAudience c aud true = true → aud ∈ Audience c
}.

Section Verifier.
Context `{JwtLib}.

Definition parseRSAPublicKeyFromPEM (pemStr : string) : result rsa_public_key :=
  match pem_decode pemStr with
  | None => Err (ErrNew "failed to decode PEM")
  | Some block =>
      match ParsePKIXPublicKey block with
      | Ok (AnyRSA pk) => Ok pk
      | Ok AnyOther => Err (ErrNew "PEM is not RSA public key")
      | Err err =>
          match ParseCertificateKey block with
          | Ok (AnyRSA pk) => Ok pk
          | Ok AnyOther => Err (ErrNew "cert public key is not RSA")
          | Err _ => Err err
          end
      end
  end.

Definition NewJWTVerifier (sec publicKeyPEM iss aud : string) : result JWTVerifier :=
  match (if bool_decide (publicKeyPEM = "") then Ok None
         else match parseRSAPublicKeyFromPEM publicKeyPEM with
              | Ok pk => Ok (Some pk)
              | Err e => Err e
              end) with
  | Err e => Err e
  | Ok pk =>
      if bool_decide (sec = "") && bool_decide (pk = None)
      then Err (ErrNew "JWT verifier requires JWT_SECRET or JWT_PUBLIC_KEY_PEM")
      else Ok (mkVerifier sec pk iss aud)
  end.

(** The key function passed to [jwt.ParseWithClaims]. *)
Definition keyfunc (v : JWTVerifier) (m : signing_method) : result key :=
  match m with
  | SigningMethodHMAC _ =>
      if bool_decide (secret v = "") then Err (ErrNew "hmac not configured")
      else Ok (HMACKey (secret v))
  | SigningMethodRSA _ =>
      match pubKey v with
      | None => Err (ErrNew "rsa public key not configured")
      | Some pk => Ok (RSAKey pk)
      end
  | SigningMethodOther alg => Err (ErrNew ("unsupported signing method: " +:+ alg))
  end.

(** The token inside an Authorization header. *)
Definition header_token (authHeader : string) : string :=
  let token := TrimSpace authHeader in
  if HasPrefix (ToLower token) "bearer " then TrimSpace (sdrop 7 token) else token.

Definition ParseAuthContext (v : JWTVerifier) (authHeader : string) : result AuthContext :=
  let token := header_token authHeader in
  if bool_decide (token = "") then Err (ErrNew "missing token")
  else
    match ParseWithClaims token (keyfunc v) with
    | Err e => Err e
    | Ok (claims, valid) =>
        if negb valid then Err (ErrNew "invalid token")
        else if negb (bool_decide (issuer v = "")) && negb (bool_decide (Issuer claims = issuer v))
        then Err (ErrNew "invalid issuer")
        else if negb (bool_decide (audience v = "")) && negb (VerifyAudience claims (audience v) true)
        then Err (ErrNew "invalid audience")
        else
          let userID := if bool_decide (Subject claims = "") then "" else Subject claims in
          if bool_decide (userID = "") then Err (ErrNew "missing sub claim")
          else Ok (mkAuthContext userID (Roles_claim claims))
    end.
End Verifier.

(** ** Request contexts *)

(** The part of a [context.Context] that the code reads: the authentication value, the
    incoming gRPC metadata and whether the context is done. *)
Record context := mkCtx {
  ctx_auth : option AuthContext;
  ctx_md : option (gmap string (list string));
  ctx_done : bool
}.

Definition WithAuthContext (ctx : context) (a : AuthContext) : context :=
  mkCtx (Some a) (ctx_md ctx) (ctx_done ctx).

Definition FromContext (ctx : context) : option AuthContext := ctx_auth ctx.

(** [metadata.MD.Get] lower-cases its key. *)
Definition md_get (md : gmap string (list string)) (k : string) : list string :=
  default [] (md !! ToLower k).

(** ** HTTP *)

Record http_request := mkHttpReq {
  req_authorization : string;
  req_query_path : string;
  req_ctx : context
}.

Record http_response := mkHttpResp {
  resp_status : nat;
  resp_content_type : string;
  resp_body : string
}.

(** [http.Error] *)
Definition http_error (status : nat) (msg : string) : http_response :=
  mkHttpResp status "text/plain; charset=utf-8" (msg +:+ String (ascii_of_nat 10) "").

Definition StatusOK := 200.
Definition StatusBadRequest := 400.
Definition StatusUnauthorized := 401.
Definition StatusForbidden := 403.
Definition StatusNotFound := 404.

Section Layers.
Context `{JwtLib} {W : Type}.

Definition HTTPAuthMiddleware (verifier : JWTVerifier)
    (next : http_request → prog W http_response) (r : http_request) : prog W http_response :=
  match ParseAuthContext verifier (req_authorization r) with
  | Err _ => ret (http_error StatusUnauthorized "unauthorized")
  | Ok a =>
      next (mkHttpReq (req_authorization r) (req_query_path r) (WithAuthContext (req_ctx r) a))
  end.

(** The body shared by the unary and the stream interceptor up to the handler call: the
    context with the caller's identity, or the status returned to the client. *)
Definition authenticate (verifier : JWTVerifier) (ctx : context) : result context :=
  match ctx_md ctx with
  | None => Err (ErrStatus Unauthenticated "missing metadata")
  | Some md =>
      let vals := md_get md "authorization" in
      let vals := match vals with [] => md_get md "Authorization" | _ => vals end in
      match vals with
      | [] => Err (ErrStatus Unauthenticated "missing authorization")
      | v :: _ =>
          match ParseAuthContext verifier v with
          | Err _ => Err (ErrStatus Unauthenticated "invalid token")
          | Ok a => Ok (WithAuthContext ctx a)
          end
      end
  end.

Definition GRPCAuthInterceptor {Req Resp} (verifier : JWTVerifier) (ctx : context) (req : Req)
    (fullMethod : string) (handler : context → Req → prog W Resp) : prog W Resp :=
  match authenticate verifier ctx with
  | Err e => throw e
  | Ok ctx' => handler ctx' req
  end.

(** The stream's context is replaced by the authenticated one. *)
Definition GRPCStreamAuthInterceptor {Resp} (verifier : JWTVerifier) (ctx : context)
    (fullMethod : string) (handler : context → prog W Resp) : prog W Resp :=
  match authenticate verifier ctx with
  | Err e => throw e
  | Ok ctx' => handler ctx'
  end.
End Layers.

(** ** The token of an Authorization header *)

Lemma lower_byte_blank c : lower_byte c = " "%char → c = " "%char.
Proof. destruct c as [[] [] [] [] [] [] [] []]; vm_compute; congruence. Qed.

Lemma lower_byte_b c : lower_byte c = "b"%char → starts_rune c = false.
Proof. destruct c as [[] [] [] [] [] [] [] []]; vm_compute; congruence. Qed.

(** Any spelling of the scheme is one byte that starts no white space, some text, a blank. *)
Lemma bearer_shape h :
  ToLower h = "bearer " →
  ∃ a k, h = String a (k +:+ " ") ∧ starts_rune a = false ∧ String.length h = 7.
Proof.
  intros E. pose proof (f_equal String.length E) as L. rewrite length_ToLower in L.
  do 7 (destruct h as [|? h]; [done|]). destruct h; [|done].
  simpl in E. simplify_eq.
  match goal with H : lower_byte ?c = " "%char |- _ => apply lower_byte_blank in H; subst end.
  eexists _, (String _ (String _ (String _ (String _ (String _ ""))))).
  split; [reflexivity|]. split; [by apply lower_byte_b|done].
Qed.

Lemma header_token_plain t :
  TrimSpace t = t → HasPrefix (ToLower t) "bearer " = false → header_token t = t.
Proof. intros Ht Hp. unfold header_token. by rewrite Ht, Hp. Qed.

Lemma header_token_bearer h t :
  ToLower h = "bearer " → t ≠ "" → TrimSpace t = t → header_token (h +:+ t) = t.
Proof.
  intros Hh Hne Ht. destruct (bearer_shape _ Hh) as (a & k & E & Ha & L).
  unfold header_token.
  assert (TrimSpace (h +:+ t) = h +:+ t) as ->.
  { rewrite E. cbn [String.append]. rewrite append_assoc. by apply TrimSpace_prepend. }
  rewrite ToLower_append, Hh, HasPrefix_app, <- L, sdrop_app. done.
Qed.

(** ** Properties of the verifier *)

Section VerifierProperties.
Context `{JwtLibLaws}.

(** C11: An identity is produced only from a token whose signature verifies under a key
    this verifier was configured with, for the family of the token's own header: an
    HMAC token under the secret, an RSA token under the public key, no other method and
    never one family's token under the other's key. The configured issuer and audience
    are enforced, the user id is the non-empty subject and the roles are the claimed
    ones. *)
Theorem ParseAuthContext_sound v h a :
  ParseAuthContext v h = Ok a →
  ∃ c, claims_of (header_token h) = Some c ∧
    UserID a = Subject c ∧ UserID a ≠ "" ∧ Roles_of a = Roles_claim c ∧
    (issuer v = "" ∨ Issuer c = issuer v) ∧
    (audience v = "" ∨ audience v ∈ Audience c) ∧
    ((∃ alg, method_of (header_token h) = Some (SigningMethodHMAC alg) ∧ secret v ≠ "" ∧
             sig_valid (SigningMethodHMAC alg) (HMACKey (secret v)) (header_token h) = true) ∨
     (∃ alg pk, method_of (header_token h) = Some (SigningMethodRSA alg) ∧ pubKey v = Some pk ∧
             sig_valid (SigningMethodRSA alg) (RSAKey pk) (header_token h) = true)).
Proof.
  unfold ParseAuthContext. intros Ha.
  case_bool_decide; [done|]. destruct (ParseWithClaims _ _) as [[c valid]|] eqn:Ep; [|done].
  destruct valid; [|done]. cbn [negb] in Ha.
  destruct (negb (bool_decide (issuer v = "")) && _) eqn:Ei; [done|].
  destruct (negb (bool_decide (audience v = "")) && _) eqn:Eau; [done|].
  apply parse_sound in Ep as (m & k & Hm & Hk & Hs & Hc).
  exists c. assert ((if bool_decide (Subject c = "") then "" else Subject c) = Subject c) as Hu
    by (destruct (bool_decide_reflect (Subject c = "")); congruence).
  rewrite Hu in Ha. case_bool_decide as Es; [done|]. simplify_eq/=. split_and!; try done.
  - apply andb_false_iff in Ei as [Ei|Ei]; go_bool; auto.
  - apply andb_false_iff in Eau as [Ei'|Ei']; go_bool; [auto|]. right. by apply audience_sound.
  - destruct m as [alg|alg|alg]; simpl in Hk.
    + left. destruct (bool_decide_reflect (secret v = "")); simplify_eq. eauto.
    + right. destruct (pubKey v) as [pk|] eqn:Epk; simplify_eq. eauto.
    + done.
Qed.

(** A verifier configured for one algorithm family rejects every token of the other
    one and of any further method, whatever the token contains. *)
Theorem ParseAuthContext_rejects_unconfigured v h m :
  method_of (header_token h) = Some m →
  match m with
  | SigningMethodHMAC _ => secret v = ""
  | SigningMethodRSA _ => pubKey v = None
  | SigningMethodOther _ => True
  end →
  ∃ e, ParseAuthContext v h = Err e.
Proof.
  intros Hm Hconf. destruct (ParseAuthContext v h) as [a|e] eqn:E; [|by eexists].
  exfalso. unfold ParseAuthContext in E. case_bool_decide; [done|].
  destruct (ParseWithClaims _ _) as [[c valid]|] eqn:Ep; [|done].
  apply parse_sound in Ep as (m' & k & Hm' & Hk & _). simplify_eq.
  destruct m; simpl in Hk; [by rewrite bool_decide_eq_true_2 in Hk|by rewrite Hconf in Hk|done].
Qed.
End VerifierProperties.

Section HeaderProperties.
Context `{JwtLib}.

(** The scheme of the header is optional and case-insensitive: prefixing a trimmed
    token with any spelling of "Bearer " does not change the outcome. *)
Theorem ParseAuthContext_bearer_scheme v h t :
  ToLower h = "bearer " → t ≠ "" → TrimSpace t = t →
  HasPrefix (ToLower t) "bearer " = false →
  ParseAuthContext v (h +:+ t) = ParseAuthContext v t.
Proof.
  intros Hh Hne Ht Hp. unfold ParseAuthContext.
  by rewrite header_token_bearer, header_token_plain.
Qed.

(** A verifier is built only with at least one key; the issuer and audience it
    enforces are the configured ones, an unparsable key is an error even when a secret is
    also given. *)
Theorem NewJWTVerifier_spec sec pem iss aud :
  match NewJWTVerifier sec pem iss aud with
  | Ok v => secret v = sec ∧ issuer v = iss ∧ audience v = aud ∧
            (secret v ≠ "" ∨ pubKey v ≠ None) ∧
            (pubKey v = None ↔ pem = "")
  | Err e => (sec = "" ∧ pem = "") ∨ (pem ≠ "" ∧ parseRSAPublicKeyFromPEM pem = Err e)
  end.
Proof.
  unfold NewJWTVerifier. case_bool_decide as Ep.
  - simpl. destruct (decide (sec = "")) as [->|Hs]; simpl; [by left|].
    rewrite bool_decide_eq_false_2 by done. simpl. split_and!; auto. done.
  - destruct (parseRSAPublicKeyFromPEM pem) as [pk|e] eqn:E; [|by right].
    rewrite andb_false_r. simpl. split_and!; auto. done.
Qed.
End HeaderProperties.

Section LayerProperties.
Context `{JwtLib} {W : Type}.

(** Behind the unary interceptor a handler never runs without a verified identity.
    Either the request is refused with Unauthenticated before the handler, leaving the
    state untouched, or the handler runs exactly once on the given request, in a context
    whose identity was parsed from the request's own authorization metadata. *)
Theorem GRPCAuthInterceptor_authenticates {Req Resp} v ctx (req : Req) m
    (handler : context → Req → prog W Resp) (w : W) :
  (∃ msg, GRPCAuthInterceptor v ctx req m handler w
          = Some (Err (ErrStatus Unauthenticated msg), w)) ∨
  (∃ md hdr rest a,
     ctx_md ctx = Some md ∧ md_get md "authorization" = hdr :: rest ∧
     ParseAuthContext v hdr = Ok a ∧
     GRPCAuthInterceptor v ctx req m handler w = handler (WithAuthContext ctx a) req w).
Proof.
  unfold GRPCAuthInterceptor, authenticate. destruct (ctx_md ctx) as [md|] eqn:Emd; [|left; by eexists].
  change (md_get md "Authorization") with (md_get md "authorization").
  destruct (md_get md "authorization") as [|hdr rest] eqn:Eg; [left; by eexists|].
  destruct (ParseAuthContext v hdr) as [a|] eqn:Ep; [|left; by eexists].
  right. by exists md, hdr, rest, a.
Qed.
End LayerProperties.

(** ** Witnesses *)

(** A token library that knows one token, signed with the HMAC secret "s3cr3t". *)
Definition toy_claims : Claims := mkClaims ["viewer"] "iss" ["file-engine"] "user-1".

#[local] Instance toy_lib : JwtLib := {
  ParseWithClaims t kf :=
    if bool_decide (t = "H:s3cr3t") then
      match kf (SigningMethodHMAC "HS256") with
      | Ok (HMACKey s) => if bool_decide (s = "s3cr3t") then Ok (toy_claims, true) else Err (ErrExt "signature")
      | Ok _ => Err (ErrExt "key type")
      | Err e => Err e
      end
    else Err (ErrExt "malformed");
  VerifyAudience c aud req := bool_decide (aud ∈ Audience c);
  method_of t := if bool_decide (t = "H:s3cr3t") then Some (SigningMethodHMAC "HS256") else None;
  claims_of t := if bool_decide (t = "H:s3cr3t") then Some toy_claims else None;
  sig_valid m k t := match k with HMACKey s => bool_decide (s = "s3cr3t") | RSAKey _ => false end;
  pem_decode s := Some s;
  ParsePKIXPublicKey s := Ok (AnyRSA (mkRsa s));
  ParseCertificateKey s := Err (ErrExt "not a certificate")
}.

#[local] Instance toy_laws : JwtLibLaws.
Proof.
  split.
  - intros t kf c valid Hp. unfold ParseWithClaims, toy_lib in Hp. case_bool_decide; [|done].
    destruct (kf _) as [[s|]|] eqn:Ek; try done. case_bool_decide; simplify_eq.
    eexists _, _. split_and!; [|exact Ek|..]; reflexivity.
  - intros c aud Ha. simpl in Ha. by apply bool_decide_eq_true_1 in Ha.
Defined.

Definition toy_verifier : JWTVerifier := mkVerifier "s3cr3t" None "iss" "file-engine".

Lemma ParseAuthContext_sound_witness :
  ∃ c, claims_of (header_token "Bearer H:s3cr3t") = Some c ∧ "user-1" = Subject c.
Proof.
  destruct (ParseAuthContext_sound toy_verifier "Bearer H:s3cr3t" (mkAuthContext "user-1" ["viewer"]))
    as (c & Hc & Hu & _); [vm_compute; reflexivity|]. exists c. split; [exact Hc | exact Hu].
Defined.

Lemma ParseAuthContext_rejects_unconfigured_witness :
  ∃ e, ParseAuthContext (mkVerifier "" (Some (mkRsa "k")) "" "") "Bearer H:s3cr3t" = Err e.
Proof.
  apply (ParseAuthContext_rejects_unconfigured _ _ (SigningMethodHMAC "HS256")); vm_compute; reflexivity.
Defined.

Lemma ParseAuthContext_bearer_scheme_witness :
  ParseAuthContext toy_verifier ("BeArEr " +:+ "H:s3cr3t") = ParseAuthContext toy_verifier "H:s3cr3t".
Proof.
  apply ParseAuthContext_bearer_scheme; [vm_compute; reflexivity | discriminate | vm_compute; reflexivity
    | vm_compute; reflexivity].
Defined.
