(* ===== verification/Authz.v ===== *)
(** * Authorization of RPCs

    [internal/authz/method_map.go], [path_extract.go] and [grpc_authz_interceptor.go]: which
    permission a method needs, which path a request is about, and the unary and stream
    interceptors that put the two together. *)
From S2P Require Import Prelude GoStrings GoPath Acl Jwt.

#[local] Open Scope string_scope.
#[local] Open Scope nat_scope.
#[local] Open Scope list_scope.
#[local] Open Scope go_scope.

(** ** Requests *)

(** The request messages, with the fields the code reads; any other message. *)
Inductive request :=
  | ListObjectsRequest (Prefix : string)
  | UploadObjectRequest (ReqPath : string) (Content : string)
  | DownloadObjectRequest (ReqPath : string)
  | InitiateUploadRequest (TargetPath : string)
  | CompleteUploadRequest (UploadId : string)
  | TaskStatusRequest (TaskId : string)
  | GetTaskRequest (TaskId : string)
  | CreateFolderRequest (ParentPath FolderName RequestedBy : string)
  | OtherRequest.

Definition MethodPermission : gmap string Permission :=
  {[ "/fileengine.FileEngine/CreateFolder" := PermWrite;
     "/fileengine.FileEngine/ListObjects" := PermList;
     "/fileengine.FileEngine/UploadObject" := PermWrite;
     "/fileengine.FileEngine/DownloadObject" := PermRead;
     "/fileengine.FileEngine/InitiateUpload" := PermWrite;
     "/fileengine.FileEngine/CompleteUpload" := PermWrite;
     "/fileengine.FileEngine/GetTaskStatus" := PermRead;
     "/fileengine.FileEngine/GetTask" := PermRead ]}.

(** ** Path extraction *)

(** [for strings.Contains(p, "//") { p = strings.ReplaceAll(p, "//", "/") }]; [None] when
    the loop is still running after [fuel] rounds. *)
Fixpoint collapse_slashes (fuel : nat) (p : string) : option string :=
  if Contains p "//" then
    match fuel with
    | 0 => None
    | S fuel' => collapse_slashes fuel' (ReplaceAll p "//" "/")
    end
  else Some p.

Definition normalize_fuel (fuel : nat) (p : string) : option string :=
  let p := TrimSpace p in
  if bool_decide (p = "") then Some "/"
  else collapse_slashes fuel (if HasPrefix p "/" then p else "/" +:+ p).

(** Every round removes at least one byte, so the length of the path bounds the rounds
    ([normalize_total] below). *)
Definition normalize (p : string) : string :=
  default "" (normalize_fuel (1 + String.length p) p).

Definition ExtractPath (req : request) : result string :=
  match req with
  | ListObjectsRequest prefix => Ok (normalize prefix)
  | UploadObjectRequest path _ => Ok (normalize path)
  | DownloadObjectRequest path => Ok (normalize path)
  | InitiateUploadRequest target => Ok (normalize target)
  | CompleteUploadRequest _ => Ok "/"
  | TaskStatusRequest _ => Ok "/"
  | GetTaskRequest _ => Ok "/"
  | CreateFolderRequest parentPath folderName _ =>
      let parent := TrimSuffix parentPath "/" in
      Ok (normalize (parent +:+ "/" +:+ folderName))
  | OtherRequest => Err (ErrNew "no path extractor")
  end.

(** ** Laws of the slash-collapsing loop *)

Definition nonempty_comps (s : string) : list string :=
  filter (fun c => c ≠ "") (split_slash s).

(** Induction on strings that also gives the hypothesis two bytes down. *)
Lemma string_ind2 (P : string → Prop) :
  P "" → (∀ a, P (String a "")) →
  (∀ a b s, P s → P (String b s) → P (String a (String b s))) → ∀ s, P s.
Proof.
  intros H0 H1 H2 s. cut (P s ∧ ∀ a, P (String a s)); [tauto|].
  induction s as [|b s [IH1 IH2]]; split; auto.
Qed.

Lemma ReplaceAll_slashes_cons2 s :
  ReplaceAll (String slash (String slash s)) "//" "/" = String slash (ReplaceAll s "//" "/").
Proof. reflexivity. Qed.

Lemma ReplaceAll_slashes_other a s :
  HasPrefix (String a s) "//" = false →
  ReplaceAll (String a s) "//" "/" = String a (ReplaceAll s "//" "/").
Proof. intros H. unfold ReplaceAll. cbn [replace_go]. by rewrite H. Qed.

Lemma HasPrefix_slashes a b s :
  HasPrefix (String a (String b s)) "//" = true → a = slash ∧ b = slash.
Proof. simpl. intros H. go_bool. by subst. Qed.

Lemma ReplaceAll_slashes_length s :
  String.length (ReplaceAll s "//" "/") ≤ String.length s ∧
  (Contains s "//" = true → String.length (ReplaceAll s "//" "/") < String.length s).
Proof.
  induction s as [|a|a b s [IH1 IH1'] [IH2 IH2']] using string_ind2.
  - by split.
  - destruct a as [[] [] [] [] [] [] [] []]; by split; [vm_compute; lia|].
  - destruct (HasPrefix (String a (String b s)) "//") eqn:E.
    + apply HasPrefix_slashes in E as [-> ->]. rewrite ReplaceAll_slashes_cons2. simpl. lia.
    + rewrite ReplaceAll_slashes_other, Contains_cons, E by done. cbn [String.length orb] in *.
      split; [lia|]. intros Hc. apply IH2' in Hc. lia.
Qed.

Lemma nonempty_comps_cons_slash s : nonempty_comps (String slash s) = nonempty_comps s.
Proof. done. Qed.

Lemma split_slash_cons a s :
  a ≠ slash →
  ∃ h t, split_slash s = h :: t ∧ split_slash (String a s) = String a h :: t.
Proof.
  intros Ha. pose proof (split_slash_nonempty s). destruct (split_slash s) as [|h t] eqn:E; [done|].
  exists h, t. split; [done|]. cbn [split_slash]. by rewrite bool_decide_eq_false_2, E.
Qed.

(** Same first element and same non-empty elements after it. *)
Definition same_comps (l1 l2 : list string) : Prop :=
  head l1 = head l2 ∧ filter (fun c => c ≠ "") (tail l1) = filter (fun c => c ≠ "") (tail l2).

Lemma same_comps_filter l1 l2 :
  l1 ≠ [] → l2 ≠ [] → same_comps l1 l2 →
  filter (fun c => c ≠ "") l1 = filter (fun c => c ≠ "") l2.
Proof.
  intros H1 H2 [Hh Ht]. destruct l1, l2; try done. simpl in Hh, Ht. simplify_eq.
  by rewrite !filter_cons, Ht.
Qed.

Lemma ReplaceAll_slashes_comps s :
  same_comps (split_slash (ReplaceAll s "//" "/")) (split_slash s).
Proof.
  induction s as [|a|a b s IH1 IH2] using string_ind2.
  - done.
  - rewrite ReplaceAll_slashes_other by by destruct a as [[] [] [] [] [] [] [] []]. done.
  - destruct (HasPrefix (String a (String b s)) "//") eqn:E.
    + apply HasPrefix_slashes in E as [-> ->]. rewrite ReplaceAll_slashes_cons2.
      split; [done|]. apply (same_comps_filter _ _ (split_slash_nonempty _) (split_slash_nonempty _) IH1).
    + rewrite ReplaceAll_slashes_other by done.
      set (t := String b s) in *. destruct (decide (a = slash)) as [->|Ha].
      * split; [done|]. apply (same_comps_filter _ _ (split_slash_nonempty _) (split_slash_nonempty _) IH2).
      * destruct (split_slash_cons a t Ha) as (h1 & t1 & E1 & ->).
        destruct (split_slash_cons a (ReplaceAll t "//" "/") Ha) as (h2 & t2 & E2 & ->).
        rewrite E1, E2 in IH2. destruct IH2 as [Hh Ht]. simpl in *. by simplify_eq.
Qed.

Lemma nonempty_comps_ReplaceAll s :
  nonempty_comps (ReplaceAll s "//" "/") = nonempty_comps s.
Proof.
  apply same_comps_filter; [apply split_slash_nonempty..|apply ReplaceAll_slashes_comps].
Qed.

Lemma rooted_ReplaceAll s : rooted s = true → rooted (ReplaceAll s "//" "/") = true.
Proof.
  rewrite !rooted_iff. intros [q ->]. destruct q as [|b q]; [by exists ""|].
  destruct (HasPrefix (String slash (String b q)) "//") eqn:E.
  - apply HasPrefix_slashes in E as [_ ->]. rewrite ReplaceAll_slashes_cons2. by eexists.
  - rewrite ReplaceAll_slashes_other by done. by eexists.
Qed.

(** [Clean] does not see empty elements. *)
Lemma clean_go_nonempty r stk cs :
  clean_go r stk (filter (fun c => c ≠ "") cs) = clean_go r stk cs.
Proof.
  revert stk. induction cs as [|c cs IH]; intros stk; [done|]. rewrite filter_cons.
  case_decide as E; cbn [clean_go].
  - repeat case_bool_decide; auto. destruct stk; auto. case_bool_decide; auto.
  - rewrite bool_decide_eq_true_2; [apply IH|]. left. by destruct (decide (c = "")).
Qed.

Lemma clean_comps_nonempty p q :
  rooted p = rooted q → nonempty_comps p = nonempty_comps q → clean_comps p = clean_comps q.
Proof.
  intros Hr Hn. unfold clean_comps. rewrite Hr, <- (clean_go_nonempty _ _ (split_slash p)).
  fold (nonempty_comps p). rewrite Hn. unfold nonempty_comps. by rewrite clean_go_nonempty.
Qed.

Lemma collapse_slashes_spec fuel p :
  String.length p ≤ fuel → rooted p = true →
  ∃ q, collapse_slashes fuel p = Some q ∧ Contains q "//" = false ∧
       rooted q = true ∧ nonempty_comps q = nonempty_comps p.
Proof.
  revert p. induction fuel as [|fuel IH]; intros p Hf Hr; cbn [collapse_slashes].
  - destruct p; [done|]. simpl in Hf. lia.
  - destruct (Contains p "//") eqn:E; [|by exists p].
    destruct (IH (ReplaceAll p "//" "/")) as (q & -> & ? & ? & Hn).
    + pose proof (proj2 (ReplaceAll_slashes_length p) E). lia.
    + by apply rooted_ReplaceAll.
    + exists q. split_and!; auto. by rewrite Hn, nonempty_comps_ReplaceAll.
Qed.

Lemma TrimSpace_length s : String.length (TrimSpace s) ≤ String.length s.
Proof.
  unfold TrimSpace. rewrite length_srev. etrans; [apply strip_any_length|].
  rewrite length_srev. apply strip_any_length.
Qed.

(** The location a request path stands for: its elements below the root. *)
Definition location (p : string) : list string := clean_comps ("/" +:+ p).

Lemma nonempty_comps_add_slash p : nonempty_comps ("/" +:+ p) = nonempty_comps p.
Proof. apply nonempty_comps_cons_slash. Qed.

Lemma normalize_fuel_spec fuel p :
  1 + String.length p ≤ fuel →
  ∃ q, normalize_fuel fuel p = Some q ∧ rooted q = true ∧ Contains q "//" = false ∧
       clean_comps q = location (TrimSpace p).
Proof.
  intros Hf. unfold normalize_fuel, location. pose proof (TrimSpace_length p) as Hl.
  case_bool_decide as E; [rewrite E; by exists "/"|].
  set (t := TrimSpace p) in *.
  destruct (collapse_slashes_spec fuel (if HasPrefix t "/" then t else "/" +:+ t))
    as (q & Hq & Hc & Hr & Hn).
  - destruct (HasPrefix t "/"); simpl; lia.
  - destruct (HasPrefix t "/") eqn:Et; [exact Et|done].
  - exists q. split_and!; [done..|]. apply clean_comps_nonempty; [by rewrite Hr|].
    rewrite Hn, nonempty_comps_add_slash. destruct (HasPrefix t "/"); [done|].
    apply nonempty_comps_add_slash.
Qed.

Lemma normalize_props p :
  rooted (normalize p) = true ∧ Contains (normalize p) "//" = false ∧
  clean_comps (normalize p) = location (TrimSpace p).
Proof.
  unfold normalize. destruct (normalize_fuel_spec (1 + String.length p) p) as (q & -> & ?); [lia|done].
Qed.

Lemma ExtractPath_rooted req p : ExtractPath req = Ok p → rooted p = true.
Proof. destruct req; simpl; intros; simplify_eq; try done; apply normalize_props. Qed.

#[export] Hint Resolve ExtractPath_rooted : gopath.

(** ** The unary interceptor *)

Section Interceptors.
Context `{ACLStore St} {W : Type}.
(** Where the shared state keeps the ACL store, and the fuel of the access checks. *)
Variable acl_store : W → St.
Variable fuel : nat.

Definition GRPCAuthZInterceptor {Resp} (ctx : context) (req : request) (fullMethod : string)
    (handler : context → request → prog W Resp) : prog W Resp :=
  match MethodPermission !! fullMethod with
  | None =>
      match FromContext ctx with
      | None => throw (ErrStatus Unauthenticated "missing auth context")
      | Some _ => handler ctx req
      end
  | Some perm =>
      match FromContext ctx with
      | None => throw (ErrStatus Unauthenticated "missing auth context")
      | Some a =>
          match ExtractPath req with
          | Err _ => throw (ErrStatus InvalidArgument "cannot extract path")
          | Ok path =>
              let! store := gets acl_store in
              let! allowed := total (CanAccess fuel a path perm store) in
              if negb allowed then throw (ErrStatus PermissionDenied "access denied")
              else handler ctx req
          end
      end
  end.

(** C16: Authorization on every branch. A caller without an identity is refused. For a method
    of the permission table the interceptor, with enough fuel for the request's path, always
    decides: no path, denied, or the handler runs on the unchanged request; the refusals leave
    the state untouched, and the handler runs exactly when the caller is allowed the method's
    permission on the path of the request. A method that is missing from the table is not
    denied: its handler runs for every authenticated caller, whatever the request and the
    entries of the store. *)
Theorem GRPCAuthZInterceptor_decides {Resp} ctx req m
    (handler : context → request → prog W Resp) w :
  (∀ path, ExtractPath req = Ok path → path_fuel path ≤ fuel) →
  let run := GRPCAuthZInterceptor ctx req m handler w in
  match MethodPermission !! m, FromContext ctx, ExtractPath req with
  | _, None, _ => run = Some (Err (ErrStatus Unauthenticated "missing auth context"), w)
  | None, Some _, _ => run = handler ctx req w
  | Some _, Some _, Err _ => run = Some (Err (ErrStatus InvalidArgument "cannot extract path"), w)
  | Some perm, Some a, Ok path =>
      (Allowed (acl_store w) a path perm ∧ run = handler ctx req w) ∨
      (¬ Allowed (acl_store w) a path perm ∧
       run = Some (Err (ErrStatus PermissionDenied "access denied"), w))
  end.
Proof.
  intros Hf run. subst run. unfold GRPCAuthZInterceptor.
  destruct (MethodPermission !! m) as [perm|]; destruct (FromContext ctx) as [a|]; try exact eq_refl.
  destruct (ExtractPath req) as [path|] eqn:Ep; [|exact eq_refl].
  unfold bind, gets, total. rewrite CanAccess_rooted by eauto with gopath. simpl.
  destruct (scan _ _ _ _) eqn:E; [left|right]; (split; [|exact eq_refl]).
  - by apply Allowed_spec.
  - rewrite <- Allowed_spec. congruence.
Qed.

(** ** The stream interceptor *)

(** A server stream as the handler sees it: the transport's messages, and for the
    [authzServerStream] wrapper the identity, the permission and the [checked] flag. *)
Record server_stream := mkStream {
  transport : list (result request);
  guard : option (AuthContext * Permission);
  checked : bool
}.

(** The underlying [ServerStream.RecvMsg]: the next message, or end of stream. *)
Definition transport_recv (s : server_stream) : result request * server_stream :=
  match transport s with
  | [] => (Err (ErrExt "EOF"), s)
  | m :: ms => (m, mkStream ms (guard s) (checked s))
  end.

Definition RecvMsg (store : St) (s : server_stream) : option (result request * server_stream) :=
  match guard s with
  | None => Some (transport_recv s)
  | Some (a, perm) =>
      let '(r, s') := transport_recv s in
      match r with
      | Err e => Some (Err e, s')
      | Ok m =>
          if checked s' then Some (Ok m, s')
          else
            let s'' := mkStream (transport s') (guard s') true in
            match ExtractPath m with
            | Err _ => Some (Err (ErrStatus InvalidArgument "cannot extract path"), s'')
            | Ok path =>
                b ← CanAccess fuel a path perm store;
                Some (if negb b then Err (ErrStatus PermissionDenied "access denied") else Ok m, s'')
            end
      end
  end.

Definition GRPCAuthZStreamInterceptor {Resp} (ctx : context) (stream : server_stream)
    (fullMethod : string) (handler : context → server_stream → prog W Resp) : prog W Resp :=
  match MethodPermission !! fullMethod with
  | None =>
      match FromContext ctx with
      | None => throw (ErrStatus Unauthenticated "missing auth context")
      | Some _ => handler ctx stream
      end
  | Some perm =>
      match FromContext ctx with
      | None => throw (ErrStatus Unauthenticated "missing auth context")
      | Some a => handler ctx (mkStream (transport stream) (Some (a, perm)) false)
      end
  end.

(** The first message of a guarded stream is delivered only if the caller is allowed
    the method's permission on that message's path; a denied or path-less first message
    is an error. *)
Theorem RecvMsg_first_guarded (store : St) a perm m ms :
  (∀ path, ExtractPath m = Ok path → path_fuel path ≤ fuel) →
  let after := mkStream ms (Some (a, perm)) true in
  match ExtractPath m with
  | Err _ => RecvMsg store (mkStream (Ok m :: ms) (Some (a, perm)) false)
             = Some (Err (ErrStatus InvalidArgument "cannot extract path"), after)
  | Ok path =>
      (Allowed store a path perm ∧
       RecvMsg store (mkStream (Ok m :: ms) (Some (a, perm)) false) = Some (Ok m, after)) ∨
      (¬ Allowed store a path perm ∧
       RecvMsg store (mkStream (Ok m :: ms) (Some (a, perm)) false)
       = Some (Err (ErrStatus PermissionDenied "access denied"), after))
  end.
Proof.
  intros Hf after. unfold RecvMsg. cbn [guard transport_recv transport checked].
  destruct (ExtractPath m) as [path|] eqn:Ep; [|done].
  rewrite CanAccess_rooted by eauto with gopath. cbn [mbind option_bind].
  destruct (scan _ _ _ _) eqn:E; [left|right]; (split; [|done]).
  - by apply Allowed_spec.
  - rewrite <- Allowed_spec. congruence.
Qed.

(** Only the first message is guarded. Once one message has been received, even one
    that was denied, every later message of the stream is delivered without any check of
    its path. *)
Theorem RecvMsg_later_unguarded (store : St) s r s' m ms :
  guard s ≠ None → transport s = r :: Ok m :: ms → is_ok r = true →
  (∃ out, RecvMsg store s = Some (out, s')) →
  RecvMsg store s' = Some (Ok m, mkStream ms (guard s) true).
Proof.
  intros Hg Ht Hr [out Ho]. destruct s as [tr [[a perm]|] c]; [|done]. simpl in Ht. subst tr.
  destruct r as [m0|]; [|done]. unfold RecvMsg in Ho. cbn in Ho.
  assert (s' = mkStream (Ok m :: ms) (Some (a, perm)) true) as ->; [|done].
  destruct c; [by simplify_eq|]. destruct (ExtractPath m0); [|by simplify_eq].
  destruct (CanAccess _ _ _ _ _); by simplify_eq/=.
Qed.
End Interceptors.

(** ** Path normalization *)

(** Normalization always ends, in a rooted path without empty elements that names the
    location of the trimmed request path: only white space around the path, empty elements
    and a missing leading slash are changed. *)
Theorem normalize_total fuel p :
  1 + String.length p ≤ fuel →
  ∃ q, normalize_fuel fuel p = Some q ∧ normalize_fuel (1 + String.length p) p = Some (normalize p) ∧
       rooted q = true ∧ Contains q "//" = false ∧ clean_comps q = location (TrimSpace p).
Proof.
  intros Hf. destruct (normalize_fuel_spec fuel p Hf) as (q & Hq & ? & ? & ?).
  exists q. split_and!; auto. unfold normalize.
  by destruct (normalize_fuel_spec (1 + String.length p) p) as (q' & -> & _); [lia|].
Qed.

(** ** Witnesses *)

(** A mapped method, and one that is not. *)
Lemma GRPCAuthZInterceptor_decides_witness :
  let w := sample_store in
  let handler := fun (_ : context) (_ : request) => ret (W := InMemory.InMemoryACLStore) "done" in
  let run ctx req m := GRPCAuthZInterceptor id 40 ctx req m handler w in
  let ctx := mkCtx (Some sample_ctx) None false in
  let req := UploadObjectRequest "projects//x" "data" in
  let method := "/fileengine.FileEngine/UploadObject" in
  ((Allowed sample_store sample_ctx "/projects/x" PermWrite ∧ run ctx req method = handler ctx OtherRequest w) ∨
   (¬ Allowed sample_store sample_ctx "/projects/x" PermWrite ∧
    run ctx req method = Some (Err (ErrStatus PermissionDenied "access denied"), w))) ∧
  run (mkCtx (Some (mkAuthContext "13" [])) None false) (DownloadObjectRequest "/secret")
    "/fileengine.FileEngine/DeleteObject" = Some (Ok "done", w).
Proof.
  split.
  - refine (GRPCAuthZInterceptor_decides id 40 (mkCtx (Some sample_ctx) None false)
      (UploadObjectRequest "projects//x" "data") "/fileengine.FileEngine/UploadObject" _ sample_store _).
    intros path Hp. vm_compute in Hp. injection Hp as <-. solve_fuel.
  - refine (GRPCAuthZInterceptor_decides id 40 (mkCtx (Some (mkAuthContext "13" [])) None false)
      (DownloadObjectRequest "/secret") "/fileengine.FileEngine/DeleteObject" _ sample_store _).
    intros path Hp. vm_compute in Hp. injection Hp as <-. solve_fuel.
Defined.

Lemma RecvMsg_first_guarded_witness :
  (Allowed sample_store (mkAuthContext "13" []) "/secret" PermRead ∧
   RecvMsg 40 sample_store
     (mkStream [Ok (DownloadObjectRequest "/secret")] (Some (mkAuthContext "13" [], PermRead)) false)
   = Some (Ok (DownloadObjectRequest "/secret"), mkStream [] (Some (mkAuthContext "13" [], PermRead)) true)) ∨
  (¬ Allowed sample_store (mkAuthContext "13" []) "/secret" PermRead ∧
   RecvMsg 40 sample_store
     (mkStream [Ok (DownloadObjectRequest "/secret")] (Some (mkAuthContext "13" [], PermRead)) false)
   = Some (Err (ErrStatus PermissionDenied "access denied"),
           mkStream [] (Some (mkAuthContext "13" [], PermRead)) true)).
Proof.
  apply (RecvMsg_first_guarded 40 sample_store (mkAuthContext "13" []) PermRead
           (DownloadObjectRequest "/secret") []).
  intros path Hp. vm_compute in Hp. injection Hp as <-. solve_fuel.
Defined.

Lemma RecvMsg_later_unguarded_witness :
  RecvMsg 40 sample_store
    (mkStream [Ok (DownloadObjectRequest "/secret/2")] (Some (mkAuthContext "13" [], PermRead)) true)
  = Some (Ok (DownloadObjectRequest "/secret/2"), mkStream [] (Some (mkAuthContext "13" [], PermRead)) true).
Proof.
  apply (RecvMsg_later_unguarded 40 sample_store
    (mkStream [Ok (DownloadObjectRequest "/secret/1"); Ok (DownloadObjectRequest "/secret/2")]
       (Some (mkAuthContext "13" [], PermRead)) false) (Ok (DownloadObjectRequest "/secret/1"))).
  - discriminate.
  - reflexivity.
  - reflexivity.
  - eexists. vm_compute. reflexivity.
Defined.

Lemma normalize_total_witness :
  ∃ q, normalize_fuel 40 " a//b " = Some q ∧
       normalize_fuel (1 + String.length " a//b ") " a//b " = Some (normalize " a//b ") ∧
       rooted q = true ∧ Contains q "//" = false ∧ clean_comps q = location (TrimSpace " a//b ").
Proof. apply normalize_total. vm_compute. lia. Defined.
