(* ===== verification/PosixFs.v ===== *)
(** * A POSIX file system and the Go [os] functions over it

    The state every local backend works on: a tree of directories, files and symbolic links
    keyed by canonical location, path resolution as the kernel does it, and the [os]
    functions the file engine calls. Any call can be made to fail (disk full, permission,
    cross-device rename, ...) by the fault script of the world, and the world records the
    file system after every change, so that theorems can speak about every moment at which
    the process may be killed. *)
From stdpp Require Import pretty sorting.
From S2P Require Import Prelude GoStrings GoPath.
From Stdlib Require Import Ascii.

#[local] Open Scope string_scope.
#[local] Open Scope nat_scope.
#[local] Open Scope list_scope.
#[local] Open Scope go_scope.

(** ** State *)

Inductive node :=
  | NDir (mode : N)
  | NFile (mode : N) (content : string)
  | NLink (target : string).

#[global] Instance node_eq_dec : EqDecision node.
Proof. solve_decision. Defined.

Definition is_dir (n : node) : bool := match n with NDir _ => true | _ => false end.

(** A canonical location: the names from the root down. *)
Abbreviation loc := (list string).
Abbreviation fs := (@gmap (list string) (@list_eq_dec string String.eq_dec)
  (@list_countable string String.eq_dec String.countable) node).

Record world := mkWorld {
  w_fs : fs;
  (** Injected failure of the next calls, [None] for a call that runs normally. *)
  w_faults : list (option errno);
  (** The random numbers [os.CreateTemp] draws, and how many were drawn. *)
  w_rand : nat → N;
  w_drawn : nat;
  w_umask : N;
  w_cwd : loc;
  (** The file system after each change, oldest first. *)
  w_trace : list fs
}.

Definition set_faults (w : world) (fl : list (option errno)) : world :=
  mkWorld (w_fs w) fl (w_rand w) (w_drawn w) (w_umask w) (w_cwd w) (w_trace w).

Definition set_fs (w : world) (s : fs) : world :=
  mkWorld s (w_faults w) (w_rand w) (w_drawn w) (w_umask w) (w_cwd w) (w_trace w ++ [s]).

(** One system call: fails as the script says, or acts on the file system. *)
Definition syscall {A} (op : string) (f : world → errno + (A * option fs)) : prog world A := fun w =>
  let w' := set_faults w (tail (w_faults w)) in
  match head (w_faults w) with
  | Some (Some e) => Some (Err (ErrOs op e), w')
  | _ =>
      match f w' with
      | inl e => Some (Err (ErrOs op e), w')
      | inr (a, None) => Some (Ok a, w')
      | inr (a, Some s) => Some (Ok a, set_fs w' s)
      end
  end.

(** ** Path resolution *)

Definition parent (l : loc) : loc := take (length l - 1) l.

(** Follows [rest] from the directory [cur]. Symbolic links are followed everywhere except,
    when [follow] is false, in the last position; at most [links] of them (ELOOP). The last
    element need not exist. *)
Fixpoint walk (links : nat) (s : fs) (follow : bool) (cur : loc) (rest : list string) {struct links}
    : errno + loc :=
  (fix go (cur : loc) (rest : list string) {struct rest} : errno + loc :=
     match rest with
     | [] => inr cur
     | c :: rest' =>
         if bool_decide (c = "" ∨ c = ".") then go cur rest'
         else if bool_decide (c = "..") then go (parent cur) rest'
         else
           match s !! (cur ++ [c]) with
           | None => match rest' with [] => inr (cur ++ [c]) | _ => inl ENOENT end
           | Some (NDir _) => go (cur ++ [c]) rest'
           | Some (NFile _ _) => match rest' with [] => inr (cur ++ [c]) | _ => inl ENOTDIR end
           | Some (NLink t) =>
               if bool_decide (rest' = []) && negb follow then inr (cur ++ [c])
               else match links with
                    | 0 => inl ELOOP
                    | S l => walk l s follow (if rooted t then [] else cur) (split_slash t ++ rest')
                    end
           end
     end) cur rest.

(** The kernel follows at most 40 links. *)
Definition max_links := 40.

(** A relative path starts at the working directory, which may have been removed. *)
Definition resolve_at (links : nat) (w : world) (follow : bool) (p : string) : errno + loc :=
  if bool_decide (p = "") then inl ENOENT
  else if rooted p then walk links (w_fs w) follow [] (split_slash p)
  else match w_fs w !! w_cwd w with
       | Some (NDir _) => walk links (w_fs w) follow (w_cwd w) (split_slash p)
       | _ => inl ENOENT
       end.

Definition resolve := resolve_at max_links.

(** ** Calls that read *)

Definition lookup_node (w : world) (follow : bool) (p : string) : errno + (loc * node) :=
  match resolve w follow p with
  | inl e => inl e
  | inr l => match w_fs w !! l with Some n => inr (l, n) | None => inl ENOENT end
  end.

Definition Stat (p : string) : prog world node :=
  syscall "stat" (fun w => match lookup_node w true p with
                           | inl e => inl e | inr (_, n) => inr (n, None) end).

Definition Lstat (p : string) : prog world node :=
  syscall "lstat" (fun w => match lookup_node w false p with
                            | inl e => inl e | inr (_, n) => inr (n, None) end).

(** [os.Open]: a directory can be opened for reading too. The handle is its location. *)
Definition Open (p : string) : prog world loc :=
  syscall "open" (fun w => match lookup_node w true p with
                           | inl e => inl e | inr (l, _) => inr (l, None) end).

(** [os.IsNotExist] *)
Definition IsNotExist (e : error) : bool :=
  match e with ErrOs _ ENOENT => true | _ => false end.

(** [filepath.EvalSymlinks] on a rooted path: every element must exist, 255 links at most. *)
Definition EvalSymlinks (p : string) : prog world string :=
  syscall "lstat" (fun w =>
    match resolve_at 255 w true p with
    | inl e => inl e
    | inr l => match w_fs w !! l with Some _ => inr (render true l, None) | None => inl ENOENT end
    end).

(** The entries of a directory, sorted by name as [os.ReadDir] returns them. *)
Definition children (s : fs) (l : loc) : list (string * node) :=
  omap (fun '(k, n) => if bool_decide (k ≠ [] ∧ parent k = l)
                       then (fun c => (c, n)) <$> last k else None) (map_to_list s).

Definition name_le (a b : string * node) : Prop :=
  match String.compare a.1 b.1 with Gt => False | _ => True end.

#[global] Instance name_le_dec a b : Decision (name_le a b).
Proof. unfold name_le. case_match; apply _. Defined.

Definition ReadDir (p : string) : prog world (list (string * node)) :=
  syscall "open" (fun w =>
    match lookup_node w true p with
    | inl e => inl e
    | inr (l, NDir _) => inr (merge_sort name_le (children (w_fs w) l), None)
    | inr _ => inl ENOTDIR
    end).

(** ** Calls that change the tree *)

Definition apply_umask (w : world) (perm : N) : N := N.ldiff perm (w_umask w).

Definition Mkdir (p : string) (perm : N) : prog world unit :=
  syscall "mkdir" (fun w =>
    match resolve w false p with
    | inl e => inl e
    | inr l =>
        match w_fs w !! l with
        | Some _ => inl EEXIST
        | None => inr (tt, Some (<[l := NDir (apply_umask w perm)]> (w_fs w)))
        end
    end).

(** The part of a path before its last element, without its trailing slash; "" for the root
    and for a single relative element. *)
Definition parent_path (p : string) : string :=
  if bool_decide (p = "/") then ""
  else let u := upto_last_slash p in
       if bool_decide (u = "/") then u else TrimSuffix u "/".

(** [os.MkdirAll]: stop at an existing directory, otherwise create the parent first. Every
    recursive call drops at least one byte of the path. *)
Fixpoint mkdir_all (fuel : nat) (path : string) (perm : N) : prog world unit :=
  match fuel with
  | 0 => diverge
  | S fuel' =>
      let! st := attempt (Stat path) in
      match st with
      | Ok n => if is_dir n then ret tt else throw (ErrOs "mkdir" ENOTDIR)
      | Err _ =>
          let parent := parent_path path in
          do! (if bool_decide (parent = "") then ret tt else mkdir_all fuel' parent perm) in
          let! r := attempt (Mkdir path perm) in
          match r with
          | Ok _ => ret tt
          | Err e =>
              let! st := attempt (Lstat path) in
              match st with
              | Ok n => if is_dir n then ret tt else throw e
              | Err _ => throw e
              end
          end
      end
  end.

Definition MkdirAll (path : string) (perm : N) : prog world unit :=
  mkdir_all (1 + String.length path) path perm.

(** [os.OpenFile] with O_CREATE and O_EXCL. *)
Definition open_excl (p : string) (perm : N) : prog world loc :=
  syscall "open" (fun w =>
    match resolve w false p with
    | inl e => inl e
    | inr l =>
        match w_fs w !! l with
        | Some _ => inl EEXIST
        | None => inr (l, Some (<[l := NFile (apply_umask w perm) ""]> (w_fs w)))
        end
    end).

(** [os.Create]: an existing file is truncated and keeps its mode. *)
Definition Create (p : string) : prog world loc :=
  syscall "open" (fun w =>
    match resolve w true p with
    | inl e => inl e
    | inr l =>
        match w_fs w !! l with
        | Some (NDir _) => inl EISDIR
        | Some (NLink _) => inl ELOOP
        | Some (NFile m _) => inr (l, Some (<[l := NFile m ""]> (w_fs w)))
        | None => inr (l, Some (<[l := NFile (apply_umask w 438%N) ""]> (w_fs w)))
        end
    end).

Definition draw : prog world N := fun w =>
  Some (Ok (w_rand w (w_drawn w)),
        mkWorld (w_fs w) (w_faults w) (w_rand w) (S (w_drawn w)) (w_umask w) (w_cwd w) (w_trace w)).

(** [os.CreateTemp(dir, pattern)] for a pattern "<prefix>*": random names until one is free,
    10000 attempts at most. Returns the file's name and handle. *)
Definition temp_path (dir prefix : string) (r : N) : string :=
  (if HasSuffix dir "/" then dir else dir +:+ "/") +:+ prefix +:+ pretty r.

Fixpoint create_temp (tries : nat) (dir prefix : string) : prog world (string * loc) :=
  match tries with
  | 0 => throw (ErrOs "createtemp" EEXIST)
  | S tries' =>
      let! r := draw in
      let name := temp_path dir prefix r in
      let! f := attempt (open_excl name 384%N) in
      match f with
      | Ok h => ret (name, h)
      | Err (ErrOs op EEXIST) => create_temp tries' dir prefix
      | Err e => throw e
      end
  end.

Definition CreateTemp (dir prefix : string) : prog world (string * loc) :=
  create_temp (N.to_nat 10000) dir prefix.

(** A write appends to the open file. *)
Definition write_chunk (h : loc) (data : string) : prog world unit :=
  syscall "write" (fun w =>
    match w_fs w !! h with
    | Some (NFile m c) => inr (tt, Some (<[h := NFile m (c +:+ data)]> (w_fs w)))
    | _ => inl EIO
    end).

Definition Sync (h : loc) : prog world unit := syscall "sync" (fun _ => inr (tt, None)).
Definition Close (h : loc) : prog world unit := syscall "close" (fun _ => inr (tt, None)).

Definition Chmod (p : string) (perm : N) : prog world unit :=
  syscall "chmod" (fun w =>
    match lookup_node w true p with
    | inl e => inl e
    | inr (l, NFile _ c) => inr (tt, Some (<[l := NFile perm c]> (w_fs w)))
    | inr (l, NDir _) => inr (tt, Some (<[l := NDir perm]> (w_fs w)))
    | inr (_, NLink _) => inl ELOOP
    end).

(** A location below [old] moved to the same place below [new]. *)
Definition retarget (old new l : loc) : loc :=
  if bool_decide (old `prefix_of` l) then new ++ drop (length old) l else l.

Definition move_tree (s : fs) (old new : loc) : fs :=
  list_to_map ((fun '(k, n) => (retarget old new k, n)) <$> map_to_list (delete new s)).

(** rename(2) between two resolved locations. *)
Definition rename_loc (s : fs) (old new : loc) : errno + option fs :=
  match s !! old with
  | None => inl ENOENT
  | Some (NDir _) =>
      if bool_decide (old = new) then inr None
      else if bool_decide (old `prefix_of` new) then inl EINVAL
      else match s !! new with
           | None => inr (Some (move_tree s old new))
           | Some (NDir _) =>
               match children s new with
               | [] => inr (Some (move_tree s old new))
               | _ => inl ENOTEMPTY
               end
           | Some _ => inl ENOTDIR
           end
  | Some n =>
      if bool_decide (old = new) then inr None
      else match s !! new with
           | Some (NDir _) => inl EISDIR
           | _ => inr (Some (<[new := n]> (delete old s)))
           end
  end.

(** [os.Rename] first refuses to replace a directory, unless both names are the same entry
    spelled differently, which rename(2) then leaves alone. *)
Definition rename_guard (oldname newname : string) : prog world unit :=
  let! fi := attempt (Lstat newname) in
  match fi with
  | Ok n =>
      if is_dir n then
        do! Lstat oldname in
        let! same := gets (fun w => bool_decide (resolve w false oldname = resolve w false newname)) in
        if bool_decide (newname = oldname) || negb same
        then throw (ErrOs "rename" EEXIST) else ret tt
      else ret tt
  | Err _ => ret tt
  end.

Definition rename_call (oldname newname : string) : prog world unit :=
  syscall "rename" (fun w =>
    match resolve w false oldname, resolve w false newname with
    | inl e, _ => inl e
    | _, inl e => inl e
    | inr old, inr new =>
        match rename_loc (w_fs w) old new with
        | inl e => inl e
        | inr s => inr (tt, s)
        end
    end).

Definition Rename (oldname newname : string) : prog world unit :=
  do! rename_guard oldname newname in rename_call oldname newname.

(** [os.Remove]: a file, a link or an empty directory. *)
Definition Remove (p : string) : prog world unit :=
  syscall "remove" (fun w =>
    match lookup_node w false p with
    | inl e => inl e
    | inr (l, NDir _) =>
        match l, children (w_fs w) l with
        | [], _ => inl EINVAL
        | _, [] => inr (tt, Some (delete l (w_fs w)))
        | _, _ => inl ENOTEMPTY
        end
    | inr (l, _) => inr (tt, Some (delete l (w_fs w)))
    end).

(** ** Readers and copying *)

(** An [io.Reader]: the blocks it will deliver, then end of file ([None]) or an error. *)
Record reader := mkReader {
  blocks : list string;
  read_end : option error
}.

Definition reader_data (r : reader) : string := foldr String.append "" (blocks r).

Fixpoint write_blocks (h : loc) (bs : list string) : prog world unit :=
  match bs with
  | [] => ret tt
  | b :: bs' => do! write_chunk h b in write_blocks h bs'
  end.

(** [io.Copy(file, r)] *)
Definition Copy (h : loc) (r : reader) : prog world unit :=
  do! write_blocks h (blocks r) in
  match read_end r with None => ret tt | Some e => throw e end.

Fixpoint split_blocks (fuel size : nat) (s : string) : list string :=
  match fuel, s with
  | S fuel', String _ _ => stake size s :: split_blocks fuel' size (sdrop size s)
  | _, _ => []
  end.

(** [io.Copy] reads in blocks of 32 KiB. *)
Definition copy_buffer : nat := N.to_nat 32768.

(** One [Read] for each block, and a last one that meets the end of the file. A [Read] that
    fails ends the reader with its error; the blocks before it have been delivered. *)
Fixpoint read_blocks (bs : list string) : prog world reader :=
  match bs with
  | [] =>
      let! r := attempt (syscall "read" (fun _ => inr (tt, None))) in
      ret (mkReader [] (match r with Ok _ => None | Err e => Some e end))
  | b :: bs' =>
      let! r := attempt (syscall "read" (fun _ => inr (tt, None))) in
      match r with
      | Err e => ret (mkReader [] (Some e))
      | Ok _ => let! rd := read_blocks bs' in ret (mkReader (b :: blocks rd) (read_end rd))
      end
  end.

(** Reading an open file to its end with a buffer of [size] bytes, which every [Read] of a
    regular file fills up to the last; a directory cannot be read. *)
Definition file_reader (size : nat) (src : loc) : prog world reader := fun w =>
  match w_fs w !! src with
  | Some (NFile _ c) => read_blocks (split_blocks (String.length c) size c) w
  | Some (NDir _) => syscall "read" (fun _ => inl EISDIR) w
  | _ => syscall "read" (fun _ => inl EIO) w
  end.

Definition CopyFile (dst src : loc) : prog world unit :=
  let! r := file_reader copy_buffer src in Copy dst r.

(** ** [os.RemoveAll] *)

Definition deeper (a b : loc) : Prop := length b ≤ length a.

#[global] Instance deeper_dec a b : Decision (deeper a b).
Proof. unfold deeper. apply _. Defined.

Definition subtree (s : fs) (l : loc) : list loc :=
  merge_sort deeper (filter (fun k => l `prefix_of` k) ((map_to_list s).*1)).

(** The entries of the tree, deepest first; the first error is remembered and the others
    are still attempted. *)
Fixpoint remove_entries (ls : list loc) (err : option error) : prog world unit :=
  match ls with
  | [] => match err with None => ret tt | Some e => throw e end
  | l :: ls' =>
      let! r := attempt (Remove (render true l)) in
      remove_entries ls'
        (match err, r with
         | Some e, _ => Some e
         | None, Err e => if IsNotExist e then None else Some e
         | None, Ok _ => None
         end)
  end.

Definition RemoveAll (p : string) : prog world unit :=
  let! r := attempt (Remove p) in
  match r with
  | Ok _ => ret tt
  | Err e =>
      if IsNotExist e then ret tt
      else
        let! l := gets (fun w => resolve w false p) in
        match l with
        | inl e' => throw (ErrOs "unlinkat" e')
        | inr l => let! ls := gets (fun w => subtree (w_fs w) l) in remove_entries ls None
        end
  end.
