(* ===== verification/LocalFs.v ===== *)
(** * The hardened local file system

    [internal/filesystem/fs.go]: path confinement with symlink resolution, folder creation,
    atomic writes through a temporary file, and moves with a copy fallback. *)
From S2P Require Import Prelude GoStrings GoPath Jwt PosixFs.

#[local] Open Scope string_scope.
#[local] Open Scope nat_scope.
#[local] Open Scope list_scope.
#[local] Open Scope go_scope.

(** The Go pattern [if err := m; err != nil { return fmt.Errorf("msg: %w", err) }]. *)
Definition wrap_err {W A} (msg : string) (m : prog W A) : prog W A :=
  let! r := attempt m in
  match r with Ok a => ret a | Err e => throw (ErrWrap msg e) end.

(** A deferred best-effort cleanup: runs whatever the outcome of [m], its errors ignored. *)
Definition with_defer {W A} (cleanup : prog W unit) (m : prog W A) : prog W A :=
  let! r := attempt m in
  let! _ := attempt cleanup in
  lift r.

(** [select { case <-ctx.Done(): return ctx.Err() default: }] *)
Definition check_ctx {W A} (ctx : context) (m : prog W A) : prog W A :=
  if ctx_done ctx then throw ErrCanceled else m.

Record LocalFs := mkLocalFs { BaseRoot : string }.

Definition NewLocalFs (getwd : result string) (baseRoot : string) : result LocalFs :=
  if bool_decide (baseRoot = "") then Err (ErrNew "baseRoot is required")
  else match Abs getwd baseRoot with
       | Err e => Err (ErrWrap "cannot resolve baseRoot" e)
       | Ok abs => Ok (mkLocalFs (Clean abs))
       end.

(** The path below the base before links are resolved. *)
Definition join_below (base : string) (parts : list string) : string :=
  let clean := Clean (Join parts) in
  let clean := if IsAbs clean then TrimPrefix clean "/" else clean in
  Join [base; clean].

Definition sanitizeAndJoin (l : LocalFs) (parts : list string) : prog world string :=
  let full := join_below (BaseRoot l) parts in
  let! ev := attempt (EvalSymlinks full) in
  let full := match ev with Ok fullEval => fullEval | Err _ => full end in
  match Rel (BaseRoot l) full with
  | Err e => throw (ErrWrap "path outside base root" e)
  | Ok rel =>
      if HasPrefix rel ".." then throw (ErrNew "path outside base root") else ret full
  end.

Definition CreateFolder (l : LocalFs) (ctx : context) (relParts : list string) : prog world unit :=
  check_ctx ctx (
    let! full := sanitizeAndJoin l relParts in
    wrap_err "mkdir failed" (MkdirAll full 493%N)).

(** From the temporary file to the rename; the temporary file is closed and removed when
    this returns. *)
Definition write_and_rename (tmpName : string) (h : loc) (perm : N) (data : reader)
    (targetFull : string) : prog world unit :=
  with_defer (let! _ := attempt (Close h) in Remove tmpName) (
    do! wrap_err "write temp file failed" (Copy h data) in
    let! _ := attempt (Sync h) in
    do! wrap_err "close temp file failed" (Close h) in
    do! wrap_err "chmod temp file failed" (Chmod tmpName perm) in
    wrap_err "atomic rename failed" (Rename tmpName targetFull)).

Definition AtomicWriteFile (l : LocalFs) (ctx : context) (perm : N) (data : reader)
    (targetParts : list string) : prog world unit :=
  check_ctx ctx (
    if bool_decide (targetParts = []) then throw (ErrNew "target path required")
    else
      let! targetFull := sanitizeAndJoin l targetParts in
      let dir := Dir targetFull in
      do! wrap_err "ensure dir failed" (MkdirAll dir 493%N) in
      let! tmp := wrap_err "create temp file failed" (CreateTemp dir ".tmp-") in
      let '(tmpName, h) := tmp in
      write_and_rename tmpName h perm data targetFull).

Definition node_mode (n : node) : N :=
  match n with NDir m => m | NFile m _ => m | NLink _ => 511%N end.

(** [in.Stat()] on an open file. *)
Definition Fstat (h : loc) : prog world node :=
  syscall "stat" (fun w => match w_fs w !! h with Some n => inr (n, None) | None => inl EIO end).

Definition copyFileContents (src dst : string) : prog world unit :=
  let! hin := wrap_err "open src failed" (Open src) in
  with_defer (Close hin) (
    let! fi := wrap_err "stat src failed" (Fstat hin) in
    let! tmp := wrap_err "create tmp dst failed" (CreateTemp (Dir dst) ".tmpcopy-") in
    let '(tmpName, h) := tmp in
    with_defer (let! _ := attempt (Close h) in Remove tmpName) (
      do! wrap_err "copy data failed" (CopyFile h hin) in
      let! _ := attempt (Sync h) in
      do! wrap_err "close tmp dst failed" (Close h) in
      do! wrap_err "chmod tmp dst failed" (Chmod tmpName (node_mode fi)) in
      wrap_err "rename tmp to dst failed" (Rename tmpName dst))).

Definition MoveUploadedFile (l : LocalFs) (ctx : context) (srcParts dstParts : list string)
    : prog world unit :=
  check_ctx ctx (
    let! srcFull := wrap_err "invalid src" (sanitizeAndJoin l srcParts) in
    let! dstFull := wrap_err "invalid dst" (sanitizeAndJoin l dstParts) in
    do! wrap_err "ensure dst dir failed" (MkdirAll (Dir dstFull) 493%N) in
    let! r := attempt (Rename srcFull dstFull) in
    match r with
    | Ok _ => ret tt
    | Err _ =>
        do! wrap_err "copy fallback failed" (copyFileContents srcFull dstFull) in
        wrap_err "remove src after copy failed" (Remove srcFull)
    end).

Definition Exists (l : LocalFs) (relParts : list string) : prog world bool :=
  let! full := sanitizeAndJoin l relParts in
  let! r := attempt (Stat full) in
  match r with
  | Ok _ => ret true
  | Err e => if IsNotExist e then ret false else throw e
  end.
