(* ===== verification/CrashLogic.v ===== *)
(** * Reasoning about programs over the file system

    A total-correctness triple with a crash condition: from a world that satisfies [P] the
    program returns, its result and final world satisfy [Q], and the file system satisfies
    [I] after every change made on the way, so also at any moment a crash can happen. *)
From S2P Require Import Prelude GoStrings GoPath Jwt PosixFs LocalFs.

#[local] Open Scope string_scope.
#[local] Open Scope nat_scope.
#[local] Open Scope list_scope.
#[local] Open Scope go_scope.

(** The parts of a world no call changes. *)
Definition same_env (w w' : world) : Prop :=
  w_rand w' = w_rand w ∧ w_umask w' = w_umask w ∧ w_cwd w' = w_cwd w.

Definition evolves (I : fs → Prop) (w w' : world) : Prop :=
  same_env w w' ∧ ∃ tr, w_trace w' = w_trace w ++ tr ∧ Forall I tr.

Definition triple {A : Type} (I : fs → Prop) (P : world → Prop) (m : prog world A)
    (Q : result A → world → Prop) : Prop :=
  ∀ w, P w → ∃ r w', m w = Some (r, w') ∧ Q r w' ∧ evolves I w w'.

#[global] Instance evolves_refl I : Reflexive (evolves I).
Proof. intros w. split; [done|]. exists []. by rewrite app_nil_r. Qed.

#[global] Instance evolves_trans I : Transitive (evolves I).
Proof.
  intros w1 w2 w3 [(? & ? & ?) (t1 & E1 & F1)] [(? & ? & ?) (t2 & E2 & F2)].
  split; [split_and!; congruence|]. exists (t1 ++ t2).
  rewrite E2, E1, app_assoc. split; [done|]. by apply Forall_app.
Qed.

Lemma triple_ret {A : Type} I (P : world → Prop) (a : A) (Q : result A → world → Prop) :
  (∀ w, P w → Q (Ok a) w) → triple I P (ret a) Q.
Proof. intros H w Hw. exists (Ok a), w. split_and!; [done|auto|reflexivity]. Qed.

Lemma triple_throw {A : Type} I (P : world → Prop) e (Q : result A → world → Prop) :
  (∀ w, P w → Q (Err e) w) → triple I P (throw e) Q.
Proof. intros H w Hw. exists (Err e), w. split_and!; [done|auto|reflexivity]. Qed.

Lemma triple_lift {A : Type} I (P : world → Prop) r (Q : result A → world → Prop) :
  (∀ w, P w → Q r w) → triple I P (lift r) Q.
Proof. intros H w Hw. exists r, w. split_and!; [done|auto|reflexivity]. Qed.

Lemma triple_conseq {A : Type} (I I' : fs → Prop) (P P' : world → Prop) (m : prog world A)
    (Q Q' : result A → world → Prop) :
  triple I P m Q → (∀ w, P' w → P w) → (∀ r w, Q r w → Q' r w) → (∀ s, I s → I' s) →
  triple I' P' m Q'.
Proof.
  intros H HP HQ HI w Hw. destruct (H w (HP w Hw)) as (r & w' & E & Hq & He & tr & Et & Ft).
  exists r, w'. split_and!; auto. split; [done|]. exists tr. split; [done|].
  eapply Forall_impl; eauto.
Qed.

Lemma triple_bind {A B : Type} I (P : world → Prop) (m : prog world A) (k : A → prog world B)
    (Q : result A → world → Prop) (R : result B → world → Prop) :
  triple I P m Q → (∀ a, triple I (Q (Ok a)) (k a) R) → (∀ e w, Q (Err e) w → R (Err e) w) →
  triple I P (bind m k) R.
Proof.
  intros Hm Hk He w Hw. destruct (Hm w Hw) as (r & w1 & E & Hq & Hev). unfold bind. rewrite E.
  destruct r as [a|e].
  - destruct (Hk a w1 Hq) as (r2 & w2 & E2 & Hr & Hev2). exists r2, w2.
    split_and!; auto. by etrans.
  - exists (Err e), w1. auto.
Qed.

Lemma triple_attempt {A : Type} I (P : world → Prop) (m : prog world A)
    (Q : result A → world → Prop) :
  triple I P m Q →
  triple I P (attempt m) (fun r w => match r with Ok r' => Q r' w | Err _ => False end).
Proof.
  intros Hm w Hw. destruct (Hm w Hw) as (r & w1 & E & Hq & Hev). unfold attempt. rewrite E.
  by exists (Ok r), w1.
Qed.

(** [r := m; k r] where [k] inspects the error. *)
Lemma triple_try {A B : Type} I (P : world → Prop) (m : prog world A) (k : result A → prog world B)
    (Q : result A → world → Prop) (R : result B → world → Prop) :
  triple I P m Q → (∀ r, triple I (Q r) (k r) R) → triple I P (bind (attempt m) k) R.
Proof.
  intros Hm Hk. eapply triple_bind; [by apply triple_attempt|done|by intros].
Qed.

Lemma triple_wrap {A : Type} I (P : world → Prop) msg (m : prog world A)
    (Q : result A → world → Prop) :
  triple I P m Q →
  (∀ e w, Q (Err e) w → Q (Err (ErrWrap msg e)) w) →
  triple I P (wrap_err msg m) Q.
Proof.
  intros Hm Hw. unfold wrap_err. eapply triple_try; [exact Hm|].
  intros [a|e]; [by apply triple_ret | apply triple_throw; auto].
Qed.

Lemma triple_defer {A : Type} I (P : world → Prop) cleanup (m : prog world A)
    (Q R : result A → world → Prop) :
  triple I P m Q →
  (∀ r, triple I (Q r) cleanup (fun _ w => R r w)) →
  triple I P (with_defer cleanup m) R.
Proof.
  intros Hm Hc. unfold with_defer. eapply triple_try; [exact Hm|].
  intros r. eapply triple_try; [apply Hc|]. intros ?. by apply triple_lift.
Qed.

(** A system call: any failure leaves the file system alone. *)
Lemma triple_syscall {A : Type} I (P : world → Prop) op (f : world → errno + (A * option fs))
    (Q : result A → world → Prop) :
  (∀ w fl, P w → let w' := set_faults w fl in
     (∀ e, Q (Err (ErrOs op e)) w') ∧
     (∀ a, f w' = inr (a, None) → Q (Ok a) w') ∧
     (∀ a s, f w' = inr (a, Some s) → I s ∧ Q (Ok a) (set_fs w' s))) →
  triple I P (syscall op f) Q.
Proof.
  intros H w Hw. destruct (H w (tail (w_faults w)) Hw) as (H1 & H2 & H3). unfold syscall.
  set (w' := set_faults w (tail (w_faults w))) in *.
  assert (evolves I w w') as Hev.
  { split; [done|]. exists []. by rewrite app_nil_r. }
  assert (∃ r w'', match f w' with
      | inl e => Some (Err (ErrOs op e), w')
      | inr (a, None) => Some (Ok a, w')
      | inr (a, Some s) => Some (Ok a, set_fs w' s)
      end = Some (r, w'') ∧ Q r w'' ∧ evolves I w w'') as Hf.
  { destruct (f w') as [e|[a [s|]]] eqn:E.
    - eauto 10.
    - destruct (H3 a s eq_refl) as [Hi Hq]. eexists _, _. split_and!; [done|done|].
      etrans; [exact Hev|]. split; [done|]. exists [s]. by split; [|constructor].
    - eauto 10. }
  destruct (head (w_faults w)) as [[e|]|]; [eauto 10|exact Hf|exact Hf].
Qed.

(** No call changes the random source. *)
Lemma triple_rand {A : Type} I (P : world → Prop) (m : prog world A)
    (Q : result A → world → Prop) rand :
  triple I P m Q →
  triple I (fun w => P w ∧ w_rand w = rand) m (fun r w => Q r w ∧ w_rand w = rand).
Proof.
  intros Hm w [Hw <-]. destruct (Hm w Hw) as (r & w' & E & Hq & Hev). exists r, w'.
  split_and!; [done|done| |done]. apply Hev.
Qed.

(** A fact that holds before the call can be assumed. *)
Lemma triple_pure {A : Type} I (P P' : world → Prop) (φ : Prop) (m : prog world A)
    (Q : result A → world → Prop) :
  (∀ w, P w → φ ∧ P' w) → (φ → triple I P' m Q) → triple I P m Q.
Proof. intros HP Hm w Hw. apply HP in Hw as [Hφ Hw]. by apply Hm. Qed.

(** Calls that only read. *)
Lemma triple_read {A : Type} I (P : world → Prop) op (f : world → errno + (A * option fs))
    (Q : result A → world → Prop) :
  (∀ w fl, P w → let w' := set_faults w fl in
     (∀ e, Q (Err (ErrOs op e)) w') ∧
     (∀ a o, f w' = inr (a, o) → o = None ∧ Q (Ok a) w')) →
  triple I P (syscall op f) Q.
Proof.
  intros H. apply triple_syscall. intros w fl Hw w'. destruct (H w fl Hw) as [H1 H2].
  split_and!; [auto| |].
  - intros a E. by apply H2 in E as [_ ?].
  - intros a s E. by apply H2 in E as [? _].
Qed.

(** ** File systems without symbolic links *)

Definition nolinks (s : fs) : Prop := ∀ l t, s !! l ≠ Some (NLink t).

Lemma nolinks_insert s l n : nolinks s → (∀ t, n ≠ NLink t) → nolinks (<[l := n]> s).
Proof. intros Hs Hn k t. rewrite lookup_insert. case_decide; [|apply Hs].
  intros E. simplify_eq. by eapply Hn. Qed.

Lemma nolinks_delete s l : nolinks s → nolinks (delete l s).
Proof. intros Hs k t. rewrite lookup_delete. case_decide; [done|apply Hs]. Qed.

Lemma walk_unfold links s follow cur c rest :
  walk links s follow cur (c :: rest) =
  if bool_decide (c = "" ∨ c = ".") then walk links s follow cur rest
  else if bool_decide (c = "..") then walk links s follow (parent cur) rest
  else
    match s !! (cur ++ [c]) with
    | None => match rest with [] => inr (cur ++ [c]) | _ => inl ENOENT end
    | Some (NDir _) => walk links s follow (cur ++ [c]) rest
    | Some (NFile _ _) => match rest with [] => inr (cur ++ [c]) | _ => inl ENOTDIR end
    | Some (NLink t) =>
        if bool_decide (rest = []) && negb follow then inr (cur ++ [c])
        else match links with
             | 0 => inl ELOOP
             | S l => walk l s follow (if rooted t then [] else cur) (split_slash t ++ rest)
             end
    end.
Proof. by destruct links. Qed.

Lemma walk_nil links s follow cur : walk links s follow cur [] = inr cur.
Proof. by destruct links. Qed.

(** Without links a canonical path resolves to itself or not at all. *)
Lemma walk_nolinks links s follow cur cs l :
  nolinks s → Forall normal cs → walk links s follow cur cs = inr l → l = cur ++ cs.
Proof.
  intros Hs Hcs. revert cur. induction Hcs as [|c cs Hc _ IH]; intros cur Hw.
  - rewrite walk_nil in Hw. simplify_eq. by rewrite app_nil_r.
  - rewrite walk_unfold in Hw. destruct Hc as (_ & Hc1 & Hc2 & Hc3).
    rewrite bool_decide_eq_false_2, bool_decide_eq_false_2 in Hw by tauto.
    destruct (s !! (cur ++ [c])) as [[m|m d|t]|] eqn:E.
    + apply IH in Hw. by rewrite Hw, <- app_assoc.
    + destruct cs; by simplify_eq.
    + by apply Hs in E.
    + destruct cs; by simplify_eq.
Qed.

(** It resolves when its proper prefixes are directories. *)
Lemma walk_dirs links s follow cur cs :
  Forall normal cs →
  (∀ k c r, cs = k ++ c :: r → r ≠ [] → ∃ m, s !! (cur ++ k ++ [c]) = Some (NDir m)) →
  (follow = true → ∀ t, s !! (cur ++ cs) ≠ Some (NLink t)) →
  walk links s follow cur cs = inr (cur ++ cs).
Proof.
  intros Hcs. revert cur. induction Hcs as [|c cs Hc _ IH]; intros cur Hd Hl.
  - by rewrite walk_nil, app_nil_r.
  - rewrite walk_unfold. destruct Hc as (_ & Hc1 & Hc2 & Hc3).
    rewrite bool_decide_eq_false_2, bool_decide_eq_false_2 by tauto.
    destruct cs as [|d cs].
    + destruct (s !! (cur ++ [c])) as [[m|m x|t]|] eqn:E; try done.
      * by rewrite walk_nil.
      * destruct follow; [|done]. by destruct (Hl eq_refl t).
    + destruct (Hd [] c (d :: cs)) as [m Hm]; [done|done|]. simpl in Hm. rewrite Hm.
      rewrite IH, <- app_assoc; [done| |].
      * intros k c' r E Hr. rewrite <- app_assoc. apply (Hd (c :: k) c' r); [by rewrite E|done].
      * intros Hf t. rewrite <- app_assoc. by apply Hl.
Qed.

Lemma split_slash_render cs :
  Forall normal cs → cs ≠ [] → split_slash (render true cs) = "" :: cs.
Proof. intros Hcs Hne. rewrite split_render_true, split_join; auto with gopath. Qed.

Lemma render_true_ne cs : render true cs ≠ "".
Proof. done. Qed.

Lemma resolve_render links w follow cs :
  Forall normal cs →
  resolve_at links w follow (render true cs) = walk links (w_fs w) follow [] cs.
Proof.
  intros Hcs. unfold resolve_at. rewrite bool_decide_eq_false_2 by done.
  change (rooted (render true cs)) with true. cbv iota.
  destruct (decide (cs = [])) as [->|Hne].
  - change (split_slash (render true [])) with ["" ; ""]. rewrite !walk_unfold. done.
  - rewrite split_slash_render, walk_unfold by done. done.
Qed.

Lemma resolve_nolinks w follow cs l :
  nolinks (w_fs w) → Forall normal cs → resolve w follow (render true cs) = inr l → l = cs.
Proof.
  intros Hs Hcs Hr. unfold resolve in Hr. rewrite resolve_render in Hr by done.
  by apply walk_nolinks in Hr.
Qed.

Lemma lookup_node_nolinks w follow cs l n :
  nolinks (w_fs w) → Forall normal cs →
  lookup_node w follow (render true cs) = inr (l, n) → l = cs ∧ w_fs w !! cs = Some n.
Proof.
  intros Hs Hcs. unfold lookup_node. destruct (resolve w follow _) as [e|l'] eqn:E; [done|].
  apply resolve_nolinks in E; [|done..]. subst. destruct (w_fs w !! cs) eqn:En; [|done].
  intros. by simplify_eq.
Qed.
