(* ===== verification/FsTriples.v ===== *)
(** * Triples of the [os] functions on a tree without symbolic links

    What each call does to a canonical path, whatever calls fail: the directories that
    [MkdirAll] may add, and the life of a temporary file from its creation to the rename. *)
From stdpp Require Import pretty.
From S2P Require Import Prelude GoStrings GoPath Jwt PosixFs LocalFs CrashLogic.

#[local] Open Scope string_scope.
#[local] Open Scope nat_scope.
#[local] Open Scope list_scope.
#[local] Open Scope go_scope.

(** ** Directories added on the way to a location *)

(** [s] is [s0] with, at most, missing prefixes of [d] added as directories. *)
Definition created_dirs (d : loc) (s0 s : fs) : Prop :=
  ∀ q, s !! q = s0 !! q ∨ (s0 !! q = None ∧ q `prefix_of` d ∧ ∃ m, s !! q = Some (NDir m)).

Lemma created_dirs_refl d s : created_dirs d s s.
Proof. intros q. by left. Qed.

Lemma created_dirs_insert d s0 s l m :
  created_dirs d s0 s → s !! l = None → l `prefix_of` d → created_dirs d s0 (<[l := NDir m]> s).
Proof.
  intros Hc Hl Hp q. rewrite lookup_insert. case_decide as E; [subst|apply Hc].
  right. destruct (Hc q) as [Hq|(Hq & _)]; [|by eauto]. rewrite Hl in Hq. eauto.
Qed.

Lemma created_dirs_old d s0 s q n : created_dirs d s0 s → s0 !! q = Some n → s !! q = Some n.
Proof. intros Hc Hq. destruct (Hc q) as [->|(E & _)]; [done|congruence]. Qed.

Lemma created_dirs_below d s0 s c : created_dirs d s0 s → s !! (d ++ [c]) = s0 !! (d ++ [c]).
Proof.
  intros Hc. destruct (Hc (d ++ [c])) as [|(_ & Hp & _)]; [done|].
  apply prefix_length in Hp. rewrite length_app in Hp. simpl in Hp. lia.
Qed.

Lemma created_dirs_nolinks d s0 s : created_dirs d s0 s → nolinks s0 → nolinks s.
Proof.
  intros Hc Hn l t E. destruct (Hc l) as [Hl|(_ & _ & m & Hl)]; [|congruence].
  rewrite E in Hl. by apply (Hn l t).
Qed.

(** [m] keeps [I] true of the file system at every change. *)
Definition preserves {A : Type} (I : fs → Prop) (m : prog world A) : Prop :=
  triple I (fun w => I (w_fs w)) m (fun _ w => I (w_fs w)).

Lemma preserves_bind {A B : Type} I (m : prog world A) (k : A → prog world B) :
  preserves I m → (∀ a, preserves I (k a)) → preserves I (bind m k).
Proof. intros Hm Hk. eapply triple_bind; [exact Hm|intros a; apply Hk|done]. Qed.

Lemma preserves_try {A B : Type} I (m : prog world A) (k : result A → prog world B) :
  preserves I m → (∀ r, preserves I (k r)) → preserves I (bind (attempt m) k).
Proof. intros Hm Hk. eapply triple_try; [exact Hm|intros r; apply Hk]. Qed.

Lemma preserves_ret {A : Type} I (a : A) : preserves I (ret a).
Proof. by apply triple_ret. Qed.

Lemma preserves_throw {A : Type} I e : preserves (A := A) I (throw e).
Proof. by apply triple_throw. Qed.

Lemma preserves_lift {A : Type} I (r : result A) : preserves I (lift r).
Proof. by apply triple_lift. Qed.

Lemma preserves_wrap {A : Type} I msg (m : prog world A) : preserves I m → preserves I (wrap_err msg m).
Proof. intros Hm. eapply triple_wrap; [exact Hm|done]. Qed.

Lemma preserves_read {A : Type} I op (f : world → errno + (A * option fs)) :
  (∀ w a o, f w = inr (a, o) → o = None) → preserves I (syscall op f).
Proof. intros Hf. apply triple_read. intros w fl Hw w'. split; [done|]. intros a o E. by apply Hf in E. Qed.

Lemma preserves_syscall {A : Type} (I : fs → Prop) op (f : world → errno + (A * option fs)) :
  (∀ w a s, I (w_fs w) → f w = inr (a, Some s) → I s) → preserves I (syscall op f).
Proof. intros Hf. apply triple_syscall. intros w fl Hw w'. split_and!; [done..|]. intros a s E. by apply Hf in E. Qed.

Lemma preserves_gets {A : Type} I (f : world → A) : preserves I (gets f).
Proof. intros w Hw. exists (Ok (f w)), w. split_and!; [done|done|reflexivity]. Qed.

Create HintDb triples.
#[export] Hint Constants Opaque : triples.
#[export] Hint Resolve preserves_bind preserves_try preserves_ret preserves_throw preserves_lift
  preserves_wrap preserves_gets : triples.

Ltac read_only := apply preserves_read; intros; repeat case_match; simplify_eq; done.

Lemma preserves_Stat I p : preserves I (Stat p).
Proof. unfold Stat. read_only. Qed.
Lemma preserves_Lstat I p : preserves I (Lstat p).
Proof. unfold Lstat. read_only. Qed.
Lemma preserves_Open I p : preserves I (Open p).
Proof. unfold Open. read_only. Qed.
Lemma preserves_Fstat I h : preserves I (Fstat h).
Proof. unfold Fstat. read_only. Qed.
Lemma preserves_EvalSymlinks I p : preserves I (EvalSymlinks p).
Proof. unfold EvalSymlinks. read_only. Qed.
Lemma preserves_Sync I h : preserves I (Sync h).
Proof. unfold Sync. read_only. Qed.
Lemma preserves_Close I h : preserves I (Close h).
Proof. unfold Close. read_only. Qed.
#[export] Hint Resolve preserves_Stat preserves_Lstat preserves_Open preserves_Fstat
  preserves_EvalSymlinks preserves_Sync preserves_Close : triples.

Lemma preserves_Lstat_at I s p :
  triple I (fun w => w_fs w = s) (Lstat p) (fun _ w => w_fs w = s).
Proof.
  eapply triple_read. intros w fl Hw w'. split; [done|]. intros; repeat case_match; by simplify_eq.
Qed.

(** ** [MkdirAll] *)

Lemma parent_path_render cs c :
  normal c → parent_path (render true (cs ++ [c])) = render true cs.
Proof.
  intros Hc. unfold parent_path.
  assert (render true (cs ++ [c]) ≠ "/") as Hne.
  { intros E%(f_equal String.length). destruct Hc as (_ & Hc & _). unfold render in E.
    destruct cs as [|d cs].
    - simpl in E. destruct c; [done|]. simpl in E. lia.
    - rewrite join_slash_snoc in E by done. rewrite !length_append in E. simpl in E. lia. }
  rewrite bool_decide_eq_false_2 by done. unfold render.
  destruct (decide (cs = [])) as [->|Hcs].
  - change ("/" +:+ join_slash ([] ++ [c])) with ("" +:+ String slash c).
    by rewrite upto_last_slash_app by apply Hc.
  - rewrite join_slash_snoc, <- append_assoc, upto_last_slash_app by (done || apply Hc).
    rewrite bool_decide_eq_false_2; [apply TrimSuffix_app|].
    intros E%(f_equal String.length). rewrite length_append in E. simpl in E. lia.
Qed.

(** An invariant that survives new directories at the locations of [D], which has the parents
    of its elements. *)
Section MkdirAll.
Context (I : fs → Prop) (D : loc → Prop).
Hypothesis D_parent : ∀ d c, D (d ++ [c]) → D d.
Hypothesis I_nolinks : ∀ s, I s → nolinks s.
Hypothesis I_dir : ∀ s d m, I s → D d → Forall normal d → s !! d = None → I (<[d := NDir m]> s).

Lemma preserves_Mkdir cs perm : Forall normal cs → D cs → preserves I (Mkdir (render true cs) perm).
Proof using I_nolinks I_dir.
  intros Hcs Hd. apply preserves_syscall. intros w a s Hw.
  destruct (resolve w false (render true cs)) as [e|l] eqn:E; [done|].
  apply resolve_nolinks in E; [|by apply I_nolinks|done]. subst.
  destruct (w_fs w !! cs) eqn:El; [done|]. intros [= _ <-]. by apply I_dir.
Qed.

Lemma length_render_snoc cs c :
  normal c → String.length (render true cs) < String.length (render true (cs ++ [c])).
Proof.
  intros (_ & Hc & _). unfold render. destruct (decide (cs = [])) as [->|Hne].
  - destruct c; [done|]. simpl. lia.
  - rewrite join_slash_snoc by done. rewrite !length_append. simpl. lia.
Qed.

Lemma preserves_mkdir_all fuel cs perm :
  Forall normal cs → D cs → String.length (render true cs) < fuel →
  preserves I (mkdir_all fuel (render true cs) perm).
Proof using D_parent I_nolinks I_dir.
  revert cs. induction fuel as [|fuel IH]; intros cs Hcs Hp Hf; [lia|].
  cbn [mkdir_all]. apply preserves_try; [auto with triples|].
  intros [n|e]; [destruct (is_dir n); auto with triples|].
  apply preserves_bind.
  - destruct cs as [|c cs _] using rev_ind; [apply preserves_ret|].
    apply Forall_app in Hcs as [Hcs Hc]. inversion_clear Hc.
    rewrite parent_path_render by done. rewrite bool_decide_eq_false_2 by done.
    apply IH; [done|by eapply D_parent|].
    assert (String.length (render true cs) < String.length (render true (cs ++ [c])))
      by by apply length_render_snoc.
    lia.
  - intros _. apply preserves_try; [by apply preserves_Mkdir|].
    intros [?|e2]; [auto with triples|]. apply preserves_try; [auto with triples|].
    intros [n|?]; [destruct (is_dir n)|]; auto with triples.
Qed.

Lemma preserves_MkdirAll_at cs perm : Forall normal cs → D cs → preserves I (MkdirAll (render true cs) perm).
Proof using D_parent I_nolinks I_dir. intros. apply preserves_mkdir_all; [done..|lia]. Qed.
End MkdirAll.

Lemma preserves_MkdirAll d s0 cs perm :
  Forall normal cs → cs `prefix_of` d →
  preserves (fun s => created_dirs d s0 s ∧ nolinks s) (MkdirAll (render true cs) perm).
Proof.
  intros Hcs Hp. apply preserves_MkdirAll_at with (D := fun k => k `prefix_of` d); [| | |done..].
  - intros k c Hk. etrans; [|exact Hk]. by apply prefix_app_r.
  - by intros s [].
  - intros s k m [Hc Hn] Hk _ Hs. split; [by apply created_dirs_insert|by apply nolinks_insert].
Qed.

(** ** Temporary files *)

Lemma noslash_append a b : noslash a → noslash b → noslash (a +:+ b).
Proof. induction a as [|x a IH]; simpl; [done|]. intros [? ?] ?. auto. Qed.

Lemma noslash_pretty (r : N) : noslash (pretty r).
Proof.
  cut (∀ s, noslash s → noslash (pretty_N_go r s)).
  { intros H. unfold pretty, pretty_N. case_decide; [done|by apply H]. }
  induction (N.lt_wf_0 r) as [r _ IH]. intros s Hs.
  assert (r = 0 ∨ 0 < r)%N as [->|Hr] by lia; [by rewrite pretty_N_go_0|].
  rewrite pretty_N_go_step by done. apply IH; [by apply N.div_lt|].
  split; [|done]. unfold pretty_N_char. by repeat case_match.
Qed.

Lemma HasSuffix_render_slash d c :
  Forall normal d → normal c → HasSuffix (render true (d ++ [c])) "/" = false.
Proof.
  intros Hd Hc. apply not_true_is_false. intros [k Hk]%HasSuffix_spec.
  apply (f_equal split_slash) in Hk. rewrite (split_slash_app k "") in Hk.
  rewrite split_slash_render in Hk by first [by destruct d | apply Forall_app; auto].
  change ("" :: d ++ [c]) with (("" :: d) ++ [c]) in Hk.
  apply app_inj_tail in Hk as [_ Hk]. by destruct Hc as (_ & ? & _).
Qed.

(** The prefixes of temporary names: "." and at least two more bytes. *)
Definition temp_prefix (p : string) : Prop := noslash p ∧ 3 ≤ String.length p.

Lemma normal_temp p (r : N) : temp_prefix p → normal (p +:+ pretty r).
Proof.
  intros [Hs Hl]. split; [by apply noslash_append, noslash_pretty|].
  split_and!; intros E%(f_equal String.length); rewrite length_append in E; simpl in E; lia.
Qed.

#[export] Hint Resolve normal_temp : gopath.

Lemma temp_path_render d p (r : N) :
  Forall normal d → temp_path (render true d) p r = render true (d ++ [p +:+ pretty r]).
Proof.
  intros Hd. unfold temp_path. destruct d as [|c d _] using rev_ind; [done|].
  apply Forall_app in Hd as [Hd Hc]. inversion_clear Hc.
  rewrite HasSuffix_render_slash by done. unfold render.
  rewrite (join_slash_snoc (d ++ [c])) by by destruct d. by rewrite !append_assoc.
Qed.

(** The location of a temporary file drawn in world [w]. *)
Definition temp_loc (rand : nat → N) (d : loc) (p : string) (h : loc) : Prop :=
  ∃ n, h = d ++ [p +:+ pretty (rand n)].

(** After [CreateTemp]: the tree [s1] as it was, plus an empty file at a free name. *)
Definition temp_created (rand : nat → N) (d : loc) (p : string) (J : fs → Prop)
    (r : result (string * loc)) (w : world) : Prop :=
  match r with
  | Ok (name, h) =>
      name = render true h ∧ temp_loc rand d p h ∧
      ∃ s1 m, J s1 ∧ s1 !! h = None ∧ w_fs w = <[h := NFile m ""]> s1
  | Err _ => J (w_fs w)
  end.

Lemma create_temp_triple rand d p (J I : fs → Prop) tries :
  Forall normal d → temp_prefix p → (∀ s, J s → nolinks s) →
  (∀ s h m, J s → temp_loc rand d p h → s !! h = None → I (<[h := NFile m ""]> s)) →
  triple I (fun w => J (w_fs w) ∧ w_rand w = rand) (create_temp tries (render true d) p)
    (temp_created rand d p J).
Proof.
  intros Hd Hp Hn HI. induction tries as [|tries IH]; cbn [create_temp].
  { apply triple_throw. by intros w [? _]. }
  apply triple_bind with (Q := fun r w => match r with
    | Ok x => J (w_fs w) ∧ w_rand w = rand ∧ ∃ n, x = rand n | Err _ => False end).
  { intros w [Hw <-]. eexists _, _. split_and!; [done| |split; [done|exists []; by rewrite app_nil_r]].
    split_and!; [done|done|by eexists]. }
  2: done.
  intros x. cbv zeta. rewrite temp_path_render by done.
  apply triple_try with (Q := fun r w => match r with
    | Ok h => temp_created rand d p J (Ok (render true (d ++ [p +:+ pretty x]), h)) w
    | Err _ => J (w_fs w) ∧ w_rand w = rand end).
  - apply triple_syscall. intros w fl (Hw & Hr & n & ->) w'.
    assert (Forall normal (d ++ [p +:+ pretty (rand n)])) as Hnorm
      by (apply Forall_app; auto with gopath).
    assert (nolinks (w_fs w')) as Hn' by by apply Hn.
    split; [done|]. clear Hr.
    split; intros; destruct (resolve w' false _) as [e|l] eqn:E; simplify_eq;
      apply resolve_nolinks in E; try done; subst;
      destruct (w_fs w' !! (d ++ [p +:+ pretty (rand n)])) eqn:El; simplify_eq.
    split; [apply HI; [done|by eexists|done]|]. split_and!; [done|by eexists|].
    eexists (w_fs w), _. done.
  - intros [h|e]; [by apply triple_ret|].
    assert (triple I (fun w => J (w_fs w) ∧ w_rand w = rand) (throw e) (temp_created rand d p J))
      by (apply triple_throw; by intros w [? _]).
    by destruct e as [| |op []| | |].
Qed.

(** ** Moving and removing files *)

Lemma rename_guard_triple I s old new :
  triple I (fun w => w_fs w = s) (rename_guard old new) (fun _ w => w_fs w = s).
Proof.
  unfold rename_guard. eapply triple_try; [apply preserves_Lstat_at|].
  intros [n|e]; [destruct (is_dir n)|]; [|by apply triple_ret..].
  eapply triple_bind; [apply preserves_Lstat_at|intros n'|done].
  eapply triple_bind with (Q := fun _ w => w_fs w = s); [|intros same|done].
  - intros w Hw. eexists _, w. split_and!; [done|done|reflexivity].
  - destruct (_ || _); [by apply triple_throw|by apply triple_ret].
Qed.

(** rename(2) of a file: the target is replaced by the whole file, in one step. *)
Lemma Rename_file_triple I s1 old new m c :
  nolinks s1 → s1 !! old = Some (NFile m c) → Forall normal old → Forall normal new → old ≠ new →
  I (<[new := NFile m c]> (delete old s1)) →
  triple I (fun w => w_fs w = s1) (Rename (render true old) (render true new))
    (fun r w => match r with
                | Ok _ => w_fs w = <[new := NFile m c]> (delete old s1)
                | Err _ => w_fs w = s1 end).
Proof.
  intros Hnl Hold Hno Hnn Hne HI. unfold Rename.
  eapply triple_bind; [apply rename_guard_triple|intros ?|done].
  apply triple_syscall. intros w fl <- w'. split; [done|].
  change (w_fs w) with (w_fs w') in *. clearbody w'.
  destruct (resolve w' false (render true old)) as [|lh] eqn:Eh; [done|].
  destruct (resolve w' false (render true new)) as [|lt] eqn:Et; [done|].
  apply resolve_nolinks in Eh, Et; try done. subst. unfold rename_loc.
  rewrite Hold, bool_decide_eq_false_2 by done.
  destruct (w_fs w' !! new) as [[| |]|]; split; intros; by simplify_eq.
Qed.

(** Removing a file deletes exactly its entry. *)
Lemma Remove_file_triple I s1 l m c :
  nolinks s1 → s1 !! l = Some (NFile m c) → Forall normal l → I (delete l s1) →
  triple I (fun w => w_fs w = s1) (Remove (render true l))
    (fun r w => match r with Ok _ => w_fs w = delete l s1 | Err _ => w_fs w = s1 end).
Proof.
  intros Hn Hl Hnorm HI. apply triple_syscall. intros w fl <- w'. split; [done|].
  change (w_fs w) with (w_fs w') in *. clearbody w'.
  split; intros; destruct (lookup_node w' false (render true l)) as [e|[k n]] eqn:E; simplify_eq;
    (apply lookup_node_nolinks in E as [-> E]; [|done..]); rewrite Hl in E; by simplify_eq/=.
Qed.

(** ** The life of a temporary file *)

Section TempFile.
Variables (h : loc) (s1 : fs) (I : fs → Prop).
Hypothesis s1_nolinks : nolinks s1.
Hypothesis s1_free : s1 !! h = None.
Hypothesis h_normal : Forall normal h.
(** The crash condition holds while the temporary file is being written. *)
Hypothesis I_temp : ∀ m c, I (<[h := NFile m c]> s1).

Definition temp_at (m : N) (c : string) (w : world) : Prop := w_fs w = <[h := NFile m c]> s1.
Definition temp_some (w : world) : Prop := ∃ m c, temp_at m c w.

Lemma temp_at_nolinks m c w : temp_at m c w → nolinks (w_fs w).
Proof. intros ->. by apply nolinks_insert. Qed.

Lemma write_chunk_triple m c data :
  triple I (temp_at m c) (write_chunk h data)
    (fun r => match r with Ok _ => temp_at m (c +:+ data) | Err _ => temp_at m c end).
Proof.
  apply triple_syscall. intros w fl Hw w'. split; [done|].
  assert (w_fs w' !! h = Some (NFile m c)) as El by (unfold w'; simpl; rewrite Hw; apply lookup_insert_eq).
  split; [|intros a s]; [intros a|]; intros E; rewrite El in E; simplify_eq. unfold temp_at. simpl.
  rewrite Hw, insert_insert_eq. auto.
Qed.

Lemma write_blocks_triple m c bs :
  triple I (temp_at m c) (write_blocks h bs)
    (fun r w => match r with Ok _ => temp_at m (c +:+ foldr String.append "" bs) w | Err _ => temp_some w end).
Proof.
  revert c. induction bs as [|b bs IH]; intros c; cbn [write_blocks foldr].
  - apply triple_ret. intros w. by rewrite append_nil_r.
  - eapply triple_bind; [apply write_chunk_triple| |].
    + intros ?. rewrite <- append_assoc. apply IH.
    + intros e w Hw. by exists m, c.
Qed.

Lemma Copy_triple m c r :
  triple I (temp_at m c) (Copy h r)
    (fun res w => match res with
                  | Ok _ => read_end r = None ∧ temp_at m (c +:+ reader_data r) w
                  | Err _ => temp_some w end).
Proof.
  unfold Copy. eapply triple_bind; [apply write_blocks_triple| |done].
  intros ?. destruct (read_end r) as [e|].
  - apply triple_throw. intros w Hw. by eexists _, _.
  - by apply triple_ret.
Qed.

Lemma Chmod_triple m c perm :
  triple I (temp_at m c) (Chmod (render true h) perm)
    (fun r => match r with Ok _ => temp_at perm c | Err _ => temp_at m c end).
Proof.
  apply triple_syscall. intros w fl Hw w'. split; [done|].
  assert (nolinks (w_fs w')) as Hn by by eapply temp_at_nolinks.
  assert (w_fs w' !! h = Some (NFile m c)) as El by (unfold w'; simpl; rewrite Hw; apply lookup_insert_eq).
  split; intros; destruct (lookup_node w' true (render true h)) as [e|[l n]] eqn:E; simplify_eq;
    (apply lookup_node_nolinks in E as [-> E]; [|done..]); rewrite El in E; simplify_eq/=.
  unfold temp_at. simpl. rewrite Hw, insert_insert_eq. auto.
Qed.

(** The rename replaces the target by the temporary file, in one step. *)
Lemma Rename_triple t m c :
  Forall normal t → h ≠ t → I (<[t := NFile m c]> s1) →
  triple I (temp_at m c) (Rename (render true h) (render true t))
    (fun r w => match r with
                | Ok _ => w_fs w = <[t := NFile m c]> s1
                | Err _ => temp_at m c w end).
Proof.
  intros Ht Hne HI.
  pose proof (Rename_file_triple I (<[h := NFile m c]> s1) h t m c) as H.
  rewrite delete_insert_id in H by done. apply H; try done.
  - by apply nolinks_insert.
  - apply lookup_insert_eq.
Qed.

(** Removing the temporary file gives back the tree without it. *)
Lemma Remove_temp_triple :
  I s1 →
  triple I temp_some (Remove (render true h))
    (fun _ w => w_fs w = s1 ∨ temp_some w).
Proof.
  intros HI w (m & c & Hw).
  destruct (Remove_file_triple I (<[h := NFile m c]> s1) h m c) with (w := w) as (r & w' & E & Hq & Hev);
    [by apply nolinks_insert|apply lookup_insert_eq|done|by rewrite delete_insert_id|done|].
  rewrite delete_insert_id in Hq by done. exists r, w'. split; [done|]. split; [|done].
  destruct r; [by left|right; by eexists _, _].
Qed.

(** After the rename there is nothing left to remove. *)
Lemma Remove_gone_triple s2 :
  nolinks s2 → s2 !! h = None →
  triple I (fun w => w_fs w = s2) (Remove (render true h)) (fun _ w => w_fs w = s2).
Proof.
  intros Hn Hh. apply triple_syscall. intros w fl Hw w'. split; [done|].
  split; intros; destruct (lookup_node w' false (render true h)) as [e|[l n]] eqn:E; simplify_eq;
    (apply lookup_node_nolinks in E as [-> E]; [|done..]); simpl in E; congruence.
Qed.

Lemma keep_triple {A : Type} (P : world → Prop) op (f : world → errno + (A * option fs)) :
  (∀ w a o, f w = inr (a, o) → o = None) → (∀ w fl, P w → P (set_faults w fl)) →
  triple I P (syscall op f) (fun _ => P).
Proof. intros Hf HP. apply triple_read. intros w fl Hw w'. split; [intros e; by apply HP|].
  intros a o E. split; [by eapply Hf|by apply HP]. Qed.

Lemma Sync_keep (P : world → Prop) : (∀ w fl, P w → P (set_faults w fl)) → triple I P (Sync h) (fun _ => P).
Proof. intros. apply keep_triple; [|done]. intros; by simplify_eq. Qed.

Lemma Close_keep (P : world → Prop) : (∀ w fl, P w → P (set_faults w fl)) → triple I P (Close h) (fun _ => P).
Proof. intros. apply keep_triple; [|done]. intros; by simplify_eq. Qed.

(** Fill the temporary file with [copy], then close, chmod and rename it over [t]; whatever
    happens the temporary file is closed and removed. *)
Definition fill_and_rename (m1 m2 m3 m4 : string) (copy : prog world unit) (tmpName : string)
    (perm : N) (target : string) : prog world unit :=
  with_defer (let! _ := attempt (Close h) in Remove tmpName) (
    do! wrap_err m1 copy in
    let! _ := attempt (Sync h) in
    do! wrap_err m2 (Close h) in
    do! wrap_err m3 (Chmod tmpName perm) in
    wrap_err m4 (Rename tmpName target)).

Lemma fill_and_rename_triple m1 m2 m3 m4 copy perm t m (data : string) (φ : Prop) :
  Forall normal t → h ≠ t → I s1 → I (<[t := NFile perm data]> s1) →
  triple I (temp_at m "") copy
    (fun r w => match r with Ok _ => φ ∧ temp_at m data w | Err _ => temp_some w end) →
  triple I (temp_at m "") (fill_and_rename m1 m2 m3 m4 copy (render true h) perm (render true t))
    (fun r w => match r with
                | Ok _ => φ ∧ w_fs w = <[t := NFile perm data]> s1
                | Err _ => w_fs w = s1 ∨ temp_some w
                end).
Proof.
  intros Htn Hne HI1 HI2 Hcopy. unfold fill_and_rename.
  apply triple_defer with (Q := fun r w => match r with
    | Ok _ => φ ∧ w_fs w = <[t := NFile perm data]> s1 | Err _ => temp_some w end).
  - eapply triple_bind; [eapply triple_wrap; [exact Hcopy|done]| |done].
    intros ?. set (P := fun w => φ ∧ temp_at m data w).
    eapply triple_try with (Q := fun _ => P); [by apply Sync_keep|intros _].
    eapply triple_bind with (Q := fun r w => match r with Ok _ => P w | Err _ => temp_some w end); [| |done].
    { eapply triple_conseq; [eapply triple_wrap; [by apply (Close_keep P)|done]|done| |done].
      intros [] w Hw; [done|]. destruct Hw as [_ Hw]. by eexists _, _. }
    intros ?. apply triple_pure with (φ := φ) (P' := temp_at m data); [done|]. intros Hφ.
    eapply triple_bind with (Q := fun r w => match r with Ok _ => temp_at perm data w | Err _ => temp_some w end);
      [| |done].
    { eapply triple_conseq; [eapply triple_wrap; [apply Chmod_triple|done]|done| |done].
      intros [] w Hw; [done|by eexists _, _]. }
    intros ?. eapply triple_conseq; [eapply triple_wrap; [by apply (Rename_triple t perm data)|done]|done| |done].
    intros [] w Hw; [done|by eexists _, _].
  - intros r. eapply triple_try with (Q := fun _ w => match r with
      | Ok _ => φ ∧ w_fs w = <[t := NFile perm data]> s1 | Err _ => temp_some w end).
    { apply Close_keep. by destruct r. }
    intros _. destruct r; [|by apply Remove_temp_triple].
    apply triple_pure with (φ := φ) (P' := fun w => w_fs w = <[t := NFile perm data]> s1); [done|].
    intros Hφ. eapply triple_conseq; [apply (Remove_gone_triple (<[t := NFile perm data]> s1))| | |]; [..|done|done|done].
    + by apply nolinks_insert.
    + by rewrite lookup_insert_ne.
Qed.
End TempFile.

(** ** Reading files *)

Lemma Open_file_triple I s1 l :
  nolinks s1 → Forall normal l →
  triple I (fun w => w_fs w = s1) (Open (render true l))
    (fun r w => w_fs w = s1 ∧ match r with Ok h => h = l | Err _ => True end).
Proof.
  intros Hn Hl. apply triple_read. intros w fl Hw w'. split; [done|].
  intros a o. destruct (lookup_node w' true (render true l)) as [|[k n]] eqn:E; [done|].
  apply lookup_node_nolinks in E as [-> _]; [|unfold w'; simpl; by rewrite Hw|done].
  intros. by simplify_eq.
Qed.

Lemma Fstat_triple I s1 l n :
  s1 !! l = Some n →
  triple I (fun w => w_fs w = s1) (Fstat l)
    (fun r w => w_fs w = s1 ∧ match r with Ok k => k = n | Err _ => True end).
Proof.
  intros Hn. apply triple_read. intros w fl Hw w'. split; [done|].
  intros a o. unfold w'. simpl. rewrite Hw, Hn. intros. by simplify_eq.
Qed.

(** ** Copying between files *)

Lemma concat_split_blocks fuel size s :
  String.length s ≤ fuel → 0 < size → foldr String.append "" (split_blocks fuel size s) = s.
Proof.
  revert s. induction fuel as [|fuel IH]; intros [|a s] Hf Hs; try done; [simpl in Hf; lia|].
  cbn [split_blocks foldr]. rewrite IH; [apply stake_sdrop| |done].
  rewrite length_sdrop. simpl in *. lia.
Qed.

(** A reader that is read to its end has delivered all the blocks; otherwise some of the first. *)
Definition read_of (bs : list string) (rd : reader) : Prop :=
  blocks rd `prefix_of` bs ∧ (read_end rd = None → blocks rd = bs).

Lemma read_blocks_triple I (P : world → Prop) bs :
  (∀ w fl, P w → P (set_faults w fl)) →
  triple I P (read_blocks bs) (fun r w => P w ∧ ∃ rd, r = Ok rd ∧ read_of bs rd).
Proof.
  intros HP. assert (triple I P (syscall "read" (fun _ => inr (tt, None))) (fun _ => P)) as Hread.
  { apply triple_read. intros w fl Hw w'. split; [intros e; by apply HP|]. intros a o [= <- <-].
    split; [done|by apply HP]. }
  induction bs as [|b bs IH]; cbn [read_blocks]; (eapply triple_try; [exact Hread|intros r]).
  - apply triple_ret. intros w Hw. split; [done|]. eexists. split; [done|]. split; [apply prefix_nil|done].
  - destruct r as [u|e].
    + eapply triple_bind; [exact IH| |].
      * intros rd. apply triple_ret. intros w [Hw (rd' & [= <-] & Hp & He)]. split; [done|]. eexists. split; [done|].
        split; [by apply prefix_cons|]. intros Hn. simpl. by rewrite He.
      * intros e w [Hw (rd & [=] & _)].
    + apply triple_ret. intros w Hw. split; [done|]. eexists. split; [done|]. split; [apply prefix_nil|done].
Qed.

Lemma file_reader_triple I (P : world → Prop) size src n :
  (∀ w fl, P w → P (set_faults w fl)) → (∀ w, P w → w_fs w !! src = Some n) →
  triple I P (file_reader size src) (fun r w => P w ∧ match r with
    | Ok rd => ∃ m c, n = NFile m c ∧ read_of (split_blocks (String.length c) size c) rd
    | Err _ => True end).
Proof.
  intros HP Hn. assert (∀ e, triple I P (syscall "read" (fun _ => inl e)) (fun r w => P w ∧ match r with
    | Ok rd => ∃ m c, n = NFile m c ∧ read_of (split_blocks (String.length c) size c) rd | Err _ => True end)) as Hfail.
  { intros e. apply triple_read. intros w fl Hw w'. split; [intros e'; split; [by apply HP|done]|done]. }
  intros w Hw. unfold file_reader. rewrite (Hn w Hw). destruct n as [m|m c|t]; [by apply Hfail| |by apply Hfail].
  destruct (read_blocks_triple I P (split_blocks (String.length c) size c) HP w Hw)
    as (r & w' & E & [Hw' (rd & -> & Hrd)] & Hev).
  exists (Ok rd), w'. split; [done|]. split; [|done]. split; [done|]. by exists m, c.
Qed.

Lemma read_of_data size c rd :
  0 < size → read_of (split_blocks (String.length c) size c) rd → read_end rd = None → reader_data rd = c.
Proof. intros Hs [_ He] Hn. unfold reader_data. rewrite He by done. by apply concat_split_blocks. Qed.

(** [io.Copy] from a file into the temporary file writes exactly the file's content. *)
Lemma CopyFile_triple h s1 I src m0 data m :
  (∀ m c, I (<[h := NFile m c]> s1)) → src ≠ h → s1 !! src = Some (NFile m0 data) →
  triple I (temp_at h s1 m "") (CopyFile h src)
    (fun r w => match r with Ok _ => True ∧ temp_at h s1 m data w | Err _ => temp_some h s1 w end).
Proof.
  intros HI Hne Hsrc. unfold CopyFile.
  eapply triple_bind; [apply (file_reader_triple I (temp_at h s1 m "") copy_buffer src (NFile m0 data))| |].
  - done.
  - intros w ->. by rewrite lookup_insert_ne.
  - intros rd. apply triple_pure with (P' := temp_at h s1 m "") (φ := read_of (split_blocks (String.length data) copy_buffer data) rd);
      [by intros w (? & ? & ? & [= <- <-] & ?)|]. intros Hrd.
    eapply triple_conseq; [by apply Copy_triple|done| |done].
    intros [] w Hw; [|done]. destruct Hw as [Hend Hw]. cbn [String.append] in Hw.
    rewrite (read_of_data copy_buffer data rd) in Hw; [done|unfold copy_buffer; lia|done..].
  - intros e w [Hw _]. by eexists _, _.
Qed.

Lemma preserves_file_reader I size src : preserves I (file_reader size src).
Proof.
  intros w Hw. assert (∀ e, preserves I (syscall (A := reader) "read" (fun _ => inl e))) as Hfail
    by (intros e; by apply preserves_read).
  unfold file_reader. destruct (w_fs w !! src) as [[m|m c|t]|]; try by apply Hfail.
  assert (preserves I (read_blocks (split_blocks (String.length c) size c))) as Hp; [|by apply Hp].
  eapply triple_conseq; [apply (read_blocks_triple I (fun w => I (w_fs w))); done|done|by intros r w' []|done].
Qed.

(** ** A whole temporary-file write *)

(** Create a temporary file in [d] and go on with it. *)
Lemma with_temp_triple {A : Type} rand d pre (J I : fs → Prop) (mk : prog world (string * loc) → prog world (string * loc))
    (k : string → loc → prog world A) (Q : result A → world → Prop) :
  (mk = id ∨ ∃ msg, mk = wrap_err msg) →
  Forall normal d → temp_prefix pre → (∀ s, J s → nolinks s) →
  (∀ s h n, J s → temp_loc rand d pre h → s !! h = None → I (<[h := n]> s)) →
  (∀ e w, J (w_fs w) → Q (Err e) w) →
  (∀ h s1 m, temp_loc rand d pre h → Forall normal h → J s1 → s1 !! h = None →
     triple I (temp_at h s1 m "") (k (render true h) h) Q) →
  triple I (fun w => J (w_fs w) ∧ w_rand w = rand)
    (let! tmp := mk (CreateTemp (render true d) pre) in let '(tmpName, h) := tmp in k tmpName h) Q.
Proof.
  intros Hmk Hd Hpre Hn HI Hnil Hk.
  eapply triple_bind with (Q := temp_created rand d pre J); [| |done].
  { assert (triple I (fun w => J (w_fs w) ∧ w_rand w = rand) (CreateTemp (render true d) pre)
      (temp_created rand d pre J)) as Hct by (apply create_temp_triple; auto).
    destruct Hmk as [->|[msg ->]]; [done|]. eapply triple_wrap; [exact Hct|by intros e w]. }
  intros [tmpName h]. apply triple_pure with (φ := tmpName = render true h ∧ temp_loc rand d pre h)
    (P' := fun w => ∃ s1 m, J s1 ∧ s1 !! h = None ∧ w_fs w = <[h:=NFile m ""]> s1).
  { intros w (? & ? & ?). auto. }
  intros [-> Hh] w (s1 & m & Hj & Hs1 & Hw). apply (Hk h s1 m); auto.
  destruct Hh as [n ->]. apply Forall_app. auto with gopath.
Qed.

Section TempWrite.
Variables (rand : nat → N) (d : loc) (c pre : string) (J I : fs → Prop).
Variables (copy : loc → prog world unit) (perm : N) (data : string) (φ : Prop).
Hypothesis d_normal : Forall normal d.
Hypothesis c_normal : normal c.
Hypothesis pre_ok : temp_prefix pre.
Hypothesis c_not_temp : ∀ n, c ≠ pre +:+ pretty (rand n).
(** [J] holds of the tree without the temporary file, [I] at every moment. *)
Hypothesis J_nolinks : ∀ s, J s → nolinks s.
Hypothesis J_I : ∀ s, J s → I s.
Hypothesis J_temp : ∀ s h n, J s → temp_loc rand d pre h → s !! h = None → I (<[h := n]> s).
Hypothesis J_done : ∀ s, J s → I (<[d ++ [c] := NFile perm data]> s).
Hypothesis copy_ok : ∀ h s1 m, temp_loc rand d pre h → J s1 → s1 !! h = None →
  triple I (temp_at h s1 m "") (copy h)
    (fun r w => match r with Ok _ => φ ∧ temp_at h s1 m data w | Err _ => temp_some h s1 w end).

(** Where a temporary-file write may end: done, or at most a temporary file left. *)
Definition temp_write_post (r : result unit) (w : world) : Prop :=
  ∃ s1, J s1 ∧
  match r with
  | Ok _ => φ ∧ w_fs w = <[d ++ [c] := NFile perm data]> s1
  | Err _ => w_fs w = s1 ∨ ∃ h, temp_loc rand d pre h ∧ s1 !! h = None ∧ temp_some h s1 w
  end.

Lemma temp_write_triple msg m1 m2 m3 m4 :
  triple I (fun w => J (w_fs w) ∧ w_rand w = rand)
    (let! tmp := wrap_err msg (CreateTemp (render true d) pre) in
     let '(tmpName, h) := tmp in
     fill_and_rename h m1 m2 m3 m4 (copy h) tmpName perm (render true (d ++ [c])))
    temp_write_post.
Proof.
  apply (with_temp_triple rand d pre J I (wrap_err msg)
    (fun tmpName h => fill_and_rename h m1 m2 m3 m4 (copy h) tmpName perm (render true (d ++ [c]))));
    [by eauto|done|done|done|done| |].
  - intros e w Hw. exists (w_fs w). auto.
  - intros h s1 m Hh Hnorm Hj Hs1.
    assert (h ≠ d ++ [c]) as Hne by (destruct Hh as [n ->]; intros E; simplify_list_eq; by eapply c_not_temp).
    eapply triple_conseq; [apply (fill_and_rename_triple h s1 I) with (m := m) (data := data) (φ := φ)| | |]; auto.
    + apply Forall_app; auto.
    + intros r w Hq. exists s1. split; [done|]. destruct r; [done|].
      destruct Hq; [by left|]. right. by exists h.
Qed.
End TempWrite.
