(* ===== verification/FsRuns.v ===== *)
(** * Runs in which no call fails

    Exact executions of the [os] functions on a well-formed tree when the fault script is
    empty: what the calls return when nothing prevents them from succeeding. *)
From stdpp Require Import pretty.
From S2P Require Import Prelude GoStrings GoPath Jwt PosixFs LocalFs CrashLogic FsTriples.

#[local] Open Scope string_scope.
#[local] Open Scope nat_scope.
#[local] Open Scope list_scope.
#[local] Open Scope go_scope.

(** No failure is injected. *)
Definition quiet (w : world) : Prop := w_faults w = [].

Lemma set_faults_quiet w : quiet w → set_faults w (tail (w_faults w)) = w.
Proof. destruct w. unfold quiet. simpl. by intros ->. Qed.

Lemma syscall_run {A : Type} op (f : world → errno + (A * option fs)) w :
  quiet w →
  syscall op f w = match f w with
                   | inl e => Some (Err (ErrOs op e), w)
                   | inr (a, None) => Some (Ok a, w)
                   | inr (a, Some s) => Some (Ok a, set_fs w s)
                   end.
Proof. intros Hq. unfold syscall. rewrite set_faults_quiet by done. unfold quiet in Hq. by rewrite Hq. Qed.

(** ** Sequencing of runs *)

Lemma bind_run {A B : Type} (m : prog world A) (k : A → prog world B) w a w1 :
  m w = Some (Ok a, w1) → bind m k w = k a w1.
Proof. unfold bind. by intros ->. Qed.

Lemma try_run {A B : Type} (m : prog world A) (k : result A → prog world B) w r w1 :
  m w = Some (r, w1) → bind (attempt m) k w = k r w1.
Proof. unfold bind, attempt. by intros ->. Qed.

Lemma wrap_run {A : Type} msg (m : prog world A) w a w1 :
  m w = Some (Ok a, w1) → wrap_err msg m w = Some (Ok a, w1).
Proof. intros H. unfold wrap_err. by rewrite (try_run _ _ _ _ _ H). Qed.

Lemma defer_run {A : Type} cleanup (m : prog world A) w r w1 r2 w2 :
  m w = Some (r, w1) → cleanup w1 = Some (r2, w2) → with_defer cleanup m w = Some (r, w2).
Proof. intros H H2. unfold with_defer. by rewrite (try_run _ _ _ _ _ H), (try_run _ _ _ _ _ H2). Qed.

Lemma Sync_run h w : quiet w → Sync h w = Some (Ok tt, w).
Proof. intros. unfold Sync. by rewrite syscall_run. Qed.

Lemma Close_run h w : quiet w → Close h w = Some (Ok tt, w).
Proof. intros. unfold Close. by rewrite syscall_run. Qed.

(** ** Well-formed trees *)

(** The root is a directory, and so is the parent of every entry. *)
Definition tree_ok (s : fs) : Prop :=
  (∃ m, s !! [] = Some (NDir m)) ∧
  ∀ k c n, s !! (k ++ [c]) = Some n → ∃ m, s !! k = Some (NDir m).

(** [d] and the directories above it exist. *)
Definition dirs_to (s : fs) (d : loc) : Prop := ∀ k, k `prefix_of` d → ∃ m, s !! k = Some (NDir m).

(** Nothing but directories on the way to [d], as far as it exists. *)
Definition only_dirs (s : fs) (d : loc) : Prop :=
  ∀ k n, k `prefix_of` d → s !! k = Some n → is_dir n = true.

Lemma prefix_snoc_cases (k d : loc) c : k `prefix_of` d ++ [c] → k = d ++ [c] ∨ k `prefix_of` d.
Proof.
  intros [r E]. destruct r as [|x r _] using rev_ind.
  - left. by rewrite app_nil_r in E.
  - right. rewrite app_assoc in E. apply app_inj_tail in E as [-> _]. by exists r.
Qed.

Lemma dirs_to_snoc s d c m : dirs_to s d → s !! (d ++ [c]) = Some (NDir m) → dirs_to s (d ++ [c]).
Proof. intros Hd Hc k [->|Hk]%prefix_snoc_cases; [by eexists|by apply Hd]. Qed.

Lemma tree_ok_dirs s d m : tree_ok s → s !! d = Some (NDir m) → dirs_to s d.
Proof.
  intros [Hr Ht]. revert m. induction d as [|c d IH] using rev_ind; intros m Hd.
  - intros k Hk. apply prefix_nil_inv in Hk. by subst.
  - destruct (Ht _ _ _ Hd) as [m' Hm']. eapply dirs_to_snoc; [by eapply IH|done].
Qed.

Lemma tree_ok_insert s d c n : tree_ok s → dirs_to s d → s !! (d ++ [c]) = None →
  tree_ok (<[d ++ [c] := n]> s).
Proof.
  intros [[m Hr] Ht] Hd Hc. split.
  - exists m. rewrite lookup_insert_ne; [done|by destruct d].
  - intros k c' n' H. rewrite lookup_insert in H. case_decide as E.
    + apply app_inj_tail in E as [-> ->]. destruct (Hd k) as [m' Hm']; [done|].
      exists m'. rewrite lookup_insert_ne; [done|]. intros E%(f_equal length).
      rewrite length_app in E. simpl in E. lia.
    + apply Ht in H as [m' Hm']. exists m'. rewrite lookup_insert_ne; [done|]. congruence.
Qed.

Lemma dirs_to_insert s d l n : dirs_to s d → s !! l = None → dirs_to (<[l := n]> s) d.
Proof.
  intros Hd Hl k Hk. destruct (Hd k Hk) as [m Hm]. exists m. rewrite lookup_insert_ne; [done|].
  congruence.
Qed.

(** ** Resolution *)

Lemma resolve_dirs w follow d c :
  nolinks (w_fs w) → Forall normal (d ++ [c]) → dirs_to (w_fs w) d →
  resolve w follow (render true (d ++ [c])) = inr (d ++ [c]).
Proof.
  intros Hn Hnorm Hd. unfold resolve. rewrite resolve_render by done.
  apply (walk_dirs _ _ _ []); [done| |intros _ t; apply Hn].
  intros k x r E Hr. simpl. apply Hd. destruct r as [|y r _] using rev_ind; [done|].
  exists r.
  assert (d ++ [c] = ((k ++ [x]) ++ r) ++ [y]) as E' by (rewrite E; by rewrite <- !app_assoc).
  by apply app_inj_tail in E' as [-> _].
Qed.

Lemma resolve_dir w follow d :
  nolinks (w_fs w) → Forall normal d → dirs_to (w_fs w) d →
  resolve w follow (render true d) = inr d.
Proof.
  intros Hn Hnorm Hd. destruct d as [|c d _] using rev_ind.
  - unfold resolve. rewrite resolve_render by done. apply walk_nil.
  - apply resolve_dirs; [done..|]. intros k Hk. apply Hd. by apply prefix_app_r.
Qed.

(** ** [MkdirAll] *)

Lemma Stat_dir_run w d m :
  quiet w → nolinks (w_fs w) → Forall normal d → dirs_to (w_fs w) d →
  w_fs w !! d = Some (NDir m) → Stat (render true d) w = Some (Ok (NDir m), w).
Proof.
  intros Hq Hn Hnorm Hd Hm. unfold Stat. rewrite syscall_run by done. unfold lookup_node.
  by rewrite resolve_dir, Hm by done.
Qed.

Lemma Stat_missing_run w d :
  quiet w → nolinks (w_fs w) → Forall normal d → w_fs w !! d = None →
  ∃ e, Stat (render true d) w = Some (Err e, w).
Proof.
  intros Hq Hn Hnorm Hd. unfold Stat. rewrite syscall_run by done.
  destruct (lookup_node w true (render true d)) as [e|[l n]] eqn:E; [by eexists|].
  apply lookup_node_nolinks in E as [-> E]; [|done..]. congruence.
Qed.

Lemma Remove_missing_run w d :
  quiet w → nolinks (w_fs w) → Forall normal d → w_fs w !! d = None →
  ∃ e, Remove (render true d) w = Some (Err e, w).
Proof.
  intros Hq Hn Hnorm Hd. unfold Remove. rewrite syscall_run by done.
  destruct (lookup_node w false (render true d)) as [e|[l n]] eqn:E; [by eexists|].
  apply lookup_node_nolinks in E as [-> E]; [|done..]. congruence.
Qed.

Lemma mkdir_all_run fuel cs perm w :
  quiet w → nolinks (w_fs w) → tree_ok (w_fs w) → Forall normal cs → only_dirs (w_fs w) cs →
  String.length (render true cs) < fuel →
  ∃ w', mkdir_all fuel (render true cs) perm w = Some (Ok tt, w') ∧
    quiet w' ∧ tree_ok (w_fs w') ∧ nolinks (w_fs w') ∧ dirs_to (w_fs w') cs ∧
    created_dirs cs (w_fs w) (w_fs w') ∧
    w_rand w' = w_rand w ∧ w_drawn w' = w_drawn w ∧ w_umask w' = w_umask w.
Proof.
  revert cs. induction fuel as [|fuel IH]; intros cs Hq Hn Ht Hnorm Ho Hf; [lia|].
  cbn [mkdir_all]. unfold bind at 1, attempt at 1. destruct (w_fs w !! cs) as [n|] eqn:Ecs.
  - assert (is_dir n = true) as Hd by by eapply Ho. destruct n as [m| |]; try done.
    assert (dirs_to (w_fs w) cs) by by eapply tree_ok_dirs.
    rewrite (Stat_dir_run w cs m) by done. exists w. split_and!; try done. apply created_dirs_refl.
  - destruct (Stat_missing_run w cs) as [e ->]; [done..|].
    destruct cs as [|c cs _] using rev_ind; [destruct Ht as [[m Hm] _]; congruence|].
    assert (Forall normal cs ∧ normal c) as [Hcs Hc]
      by (apply Forall_app in Hnorm as [? Hx]; by inversion Hx).
    rewrite parent_path_render, bool_decide_eq_false_2 by done. unfold bind at 1.
    pose proof (length_render_snoc cs c Hc).
    destruct (IH cs) as (w1 & -> & Hq1 & Ht1 & Hn1 & Hd1 & Hc1 & Hr1 & Hdr1 & Hu1); [done..| |lia|].
    { intros k n Hk. apply Ho. by apply prefix_app_r. }
    assert (w_fs w1 !! (cs ++ [c]) = None) as Hnone by by rewrite (created_dirs_below cs (w_fs w)).
    unfold bind at 1, attempt at 1, Mkdir. rewrite syscall_run, resolve_dirs, Hnone by done.
    eexists. split; [done|]. simpl. split_and!; try done.
    + by apply tree_ok_insert.
    + by apply nolinks_insert.
    + eapply dirs_to_snoc; [by apply dirs_to_insert|apply lookup_insert_eq].
    + apply created_dirs_insert; [|done|done]. intros q.
      destruct (Hc1 q) as [?|(? & ? & ?)]; [by left|]. right. split_and!; [done|by apply prefix_app_r|done].
Qed.

Lemma MkdirAll_run cs perm w :
  quiet w → nolinks (w_fs w) → tree_ok (w_fs w) → Forall normal cs → only_dirs (w_fs w) cs →
  ∃ w', MkdirAll (render true cs) perm w = Some (Ok tt, w') ∧
    quiet w' ∧ tree_ok (w_fs w') ∧ nolinks (w_fs w') ∧ dirs_to (w_fs w') cs ∧
    created_dirs cs (w_fs w) (w_fs w') ∧
    w_rand w' = w_rand w ∧ w_drawn w' = w_drawn w ∧ w_umask w' = w_umask w.
Proof. intros. apply mkdir_all_run; try done. lia. Qed.

(** ** A temporary-file write *)

Lemma CreateTemp_run w d pre :
  quiet w → nolinks (w_fs w) → Forall normal d → temp_prefix pre → dirs_to (w_fs w) d →
  let h := d ++ [pre +:+ pretty (w_rand w (w_drawn w))] in
  w_fs w !! h = None →
  ∃ w', CreateTemp (render true d) pre w = Some (Ok (render true h, h), w') ∧ quiet w' ∧
    w_fs w' = <[h := NFile (apply_umask w 384%N) ""]> (w_fs w) ∧ w_rand w' = w_rand w.
Proof.
  intros Hq Hn Hd Hpre Hdir h Hh. subst h. unfold CreateTemp.
  assert (N.to_nat 10000 = S (N.to_nat 9999)) as -> by lia.
  generalize (N.to_nat 9999). intros tries. cbn [create_temp].
  unfold bind at 1, draw. unfold bind at 1, attempt. rewrite temp_path_render by done.
  unfold open_excl. rewrite syscall_run by done. rewrite resolve_dirs; [|done| |done].
  - simpl. rewrite Hh. by eexists.
  - apply Forall_app. auto with gopath.
Qed.

Lemma write_blocks_run h s1 m bs c w :
  quiet w → temp_at h s1 m c w →
  ∃ w', write_blocks h bs w = Some (Ok tt, w') ∧ quiet w' ∧ temp_at h s1 m (c +:+ foldr String.append "" bs) w'.
Proof.
  revert c w. induction bs as [|b bs IH]; intros c w Hq Hw; cbn [write_blocks foldr].
  - exists w. by rewrite append_nil_r.
  - assert (w_fs w !! h = Some (NFile m c)) as El by (rewrite Hw; apply lookup_insert_eq).
    unfold bind, write_chunk. rewrite syscall_run, El by done.
    rewrite <- append_assoc. apply IH; [done|]. unfold temp_at. simpl. by rewrite Hw, insert_insert_eq.
Qed.

Lemma Rename_run w old d c m x :
  quiet w → nolinks (w_fs w) → Forall normal (d ++ [c]) →
  resolve w false (render true old) = inr old → w_fs w !! old = Some (NFile m x) →
  dirs_to (w_fs w) d → (∀ k, w_fs w !! (d ++ [c]) ≠ Some (NDir k)) → old ≠ d ++ [c] →
  Rename (render true old) (render true (d ++ [c])) w =
    Some (Ok tt, set_fs w (<[d ++ [c] := NFile m x]> (delete old (w_fs w)))).
Proof.
  intros Hq Hn Hnorm Hro Hold Hd Hdir Hne.
  assert (rename_guard (render true old) (render true (d ++ [c])) w = Some (Ok tt, w)) as Hg.
  { unfold rename_guard, bind at 1, attempt, Lstat. rewrite syscall_run by done. unfold lookup_node.
    rewrite resolve_dirs by done.
    destruct (w_fs w !! (d ++ [c])) as [[k| |]|] eqn:E; try done. by destruct (Hdir k). }
  unfold Rename, bind. rewrite Hg. unfold rename_call. rewrite syscall_run, Hro, resolve_dirs by done.
  unfold rename_loc. rewrite Hold, bool_decide_eq_false_2 by done.
  destruct (w_fs w !! (d ++ [c])) as [[k| |]|] eqn:E; try done. by destruct (Hdir k).
Qed.

Lemma write_and_rename_run w d c x m perm data s1 :
  let h := d ++ [x] in
  quiet w → nolinks s1 → s1 !! h = None → temp_at h s1 m "" w → Forall normal (d ++ [x]) →
  Forall normal (d ++ [c]) → x ≠ c → dirs_to s1 d → (∀ k, s1 !! (d ++ [c]) ≠ Some (NDir k)) →
  read_end data = None →
  ∃ w', write_and_rename (render true h) h perm data (render true (d ++ [c])) w = Some (Ok tt, w') ∧
    quiet w' ∧ w_fs w' = <[d ++ [c] := NFile perm (reader_data data)]> s1.
Proof.
  intros h Hq Hn Hh Hw Hhn Htn Hne Hd Hdir Hend.
  assert (h ≠ d ++ [c]) as Hne' by (unfold h; intros E; by simplify_list_eq).
  destruct (write_blocks_run h s1 m (blocks data) "" w) as (w1 & E1 & Hq1 & Hw1); [done..|].
  change ("" +:+ foldr String.append "" (blocks data)) with (reader_data data) in Hw1.
  assert (nolinks (w_fs w1)) as Hn1 by (rewrite Hw1; by apply nolinks_insert).
  assert (dirs_to (w_fs w1) d) as Hd1 by (rewrite Hw1; by apply dirs_to_insert).
  assert (w_fs w1 !! h = Some (NFile m (reader_data data))) as Hl1 by (rewrite Hw1; apply lookup_insert_eq).
  set (w2 := set_fs w1 (<[h := NFile perm (reader_data data)]> (w_fs w1))).
  assert (w_fs w2 = <[h := NFile perm (reader_data data)]> s1) as Hw2
    by (simpl; by rewrite Hw1, insert_insert_eq).
  assert (nolinks (w_fs w2)) as Hn2 by (rewrite Hw2; by apply nolinks_insert).
  assert (dirs_to (w_fs w2) d) as Hd2 by (rewrite Hw2; by apply dirs_to_insert).
  set (w3 := set_fs w2 (<[d ++ [c] := NFile perm (reader_data data)]> (delete h (w_fs w2)))).
  assert (w_fs w3 = <[d ++ [c] := NFile perm (reader_data data)]> s1) as Hw3
    by (change (w_fs w3) with (<[d ++ [c] := NFile perm (reader_data data)]> (delete h (w_fs w2)));
        by rewrite Hw2, delete_insert_id).
  destruct (Remove_missing_run w3 h) as [e Hrm]; [done|rewrite Hw3; by apply nolinks_insert|done| |].
  { by rewrite Hw3, lookup_insert_ne. }
  exists w3. split; [|done]. eapply defer_run.
  - rewrite (bind_run _ _ w tt w1).
    2:{ apply wrap_run. unfold Copy. rewrite (bind_run _ _ _ _ _ E1). by rewrite Hend. }
    rewrite (try_run _ _ _ _ _ (Sync_run h w1 Hq1)).
    rewrite (bind_run _ _ w1 tt w1) by (by apply wrap_run, Close_run).
    rewrite (bind_run _ _ w1 tt w2).
    2:{ apply wrap_run. unfold Chmod. rewrite syscall_run by done. unfold lookup_node, h.
        rewrite resolve_dirs by done. fold h. by rewrite Hl1. }
    apply wrap_run, Rename_run; [done..| | |done| |done].
    + by apply resolve_dirs.
    + rewrite Hw2. apply lookup_insert_eq.
    + intros k. rewrite Hw2, lookup_insert_ne by done. apply Hdir.
  - by rewrite (try_run _ _ _ _ _ (Close_run h w3 Hq1)).
Qed.
