(* ===== verification/FsInvariant.v ===== *)
(** * The tree invariant

    A file system is well formed when its root is a directory, the parent of every entry is a
    directory, and every name is one a path can spell. Every [os] function keeps it so at every
    change it makes, whatever paths, links and failures it meets. *)
From S2P Require Import Prelude GoStrings GoPath Jwt PosixFs LocalFs CrashLogic FsTriples FsRuns.

#[local] Open Scope string_scope.
#[local] Open Scope nat_scope.
#[local] Open Scope list_scope.
#[local] Open Scope go_scope.

(** ** Children *)

Lemma elem_of_children s l c n : (c, n) ∈ children s l ↔ s !! (l ++ [c]) = Some n.
Proof.
  unfold children. rewrite list_elem_of_omap. split.
  - intros ([k n'] & Hk & E). case_bool_decide as Hb; [|done]. destruct Hb as [Hne Hp].
    destruct k as [|k0 k] using rev_ind; [done|]. rewrite last_snoc in E. simplify_eq/=.
    apply elem_of_map_to_list in Hk. unfold parent in *.
    by rewrite length_app, Nat.add_sub, take_app_length.
  - intros Hs. exists (l ++ [c], n). split; [by apply elem_of_map_to_list|].
    rewrite bool_decide_eq_true_2.
    { by rewrite last_snoc. }
    split; [by destruct l|]. unfold parent. by rewrite length_app, Nat.add_sub, take_app_length.
Qed.

Lemma NoDup_children s l : NoDup (fst <$> children s l).
Proof.
  unfold children. generalize (NoDup_fst_map_to_list s). generalize (map_to_list s).
  induction l0 as [|[k n] kns IH]; simpl; intros Hnd; [constructor|].
  apply NoDup_cons in Hnd as [Hk Hnd]. specialize (IH Hnd).
  case_bool_decide as Hb; [|done]. destruct Hb as [Hne Hp].
  destruct k as [|k0 k _] using rev_ind; [done|]. rewrite last_snoc. simpl.
  apply NoDup_cons. split; [|done]. intros Hin. apply Hk.
  apply list_elem_of_fmap in Hin as ([c n'] & -> & Hin). simpl in *.
  apply list_elem_of_omap in Hin as ([k' n''] & Hk' & E). case_bool_decide as Hb; [|done].
  destruct Hb as [Hne' Hp']. destruct k' as [|c' k' _] using rev_ind; [done|].
  rewrite last_snoc in E. simplify_eq/=.
  unfold parent in Hp'. rewrite !length_app, !Nat.add_sub, !take_app_length in Hp'. subst.
  apply list_elem_of_fmap. by exists (k ++ [c], n').
Qed.

(** ** Well-formed file systems *)

Definition names_ok (s : fs) : Prop := ∀ k n, s !! k = Some n → Forall normal k.

Definition wf (s : fs) : Prop := tree_ok s ∧ names_ok s.

Definition dir_at (s : fs) (l : loc) : Prop := ∃ m, s !! l = Some (NDir m).

(** A location that path resolution can return: the root, or a name in an existing directory. *)
Definition placed (s : fs) (l : loc) : Prop := l = [] ∨ ∃ d c, l = d ++ [c] ∧ dir_at s d ∧ normal c.

Lemma parent_snoc (d : loc) c : parent (d ++ [c]) = d.
Proof. unfold parent. by rewrite length_app, Nat.add_sub, take_app_length. Qed.

Lemma dir_at_parent s l : tree_ok s → dir_at s l → dir_at s (parent l).
Proof.
  intros [Hr Ht] [m Hm]. destruct l as [|c l _] using rev_ind; [by eexists|].
  rewrite parent_snoc. by eapply Ht.
Qed.

Lemma no_children s l : tree_ok s → ¬ dir_at s l → ∀ c, s !! (l ++ [c]) = None.
Proof. intros [_ Ht] Hl c. destruct (s !! (l ++ [c])) eqn:E; [|done]. by apply Ht in E. Qed.

Lemma children_nil s l : children s l = [] → ∀ c, s !! (l ++ [c]) = None.
Proof.
  intros E c. destruct (s !! (l ++ [c])) as [n|] eqn:En; [|done].
  apply elem_of_children in En. rewrite E in En. by apply not_elem_of_nil in En.
Qed.

Lemma placed_dir s l : wf s → dir_at s l → placed s l.
Proof.
  intros [Ht Hn] Hd. destruct l as [|c l _] using rev_ind; [by left|]. right. exists l, c.
  split_and!; [done| |].
  - rewrite <- (parent_snoc l c). by apply dir_at_parent.
  - destruct Hd as [m Hm]. apply Hn, Forall_app in Hm as [_ Hm]. by inversion Hm.
Qed.

(** Resolution only ever stands in existing directories. *)
Lemma walk_placed links s follow cur rest l :
  wf s → Forall noslash rest → dir_at s cur → walk links s follow cur rest = inr l → placed s l.
Proof.
  intros Hwf. revert cur rest. induction links as [links IHl] using lt_wf_ind.
  intros cur rest Hrest. revert cur. induction Hrest as [|c rest Hc Hrest IH]; intros cur Hcur.
  { rewrite walk_nil. intros [= <-]. by apply placed_dir. }
  rewrite walk_unfold. case_bool_decide as H1; [by apply IH|].
  case_bool_decide as H2; [apply IH, dir_at_parent; [apply Hwf|done]|].
  assert (placed s (cur ++ [c])) as Hp.
  { right. exists cur, c. split_and!; [done..|]. split_and!; tauto. }
  destruct (s !! (cur ++ [c])) as [[m|m d|t]|] eqn:E.
  - apply IH. by exists m.
  - by destruct rest; intros [= <-].
  - case_match; [by intros [= <-]|]. destruct links as [|links]; [done|]. apply IHl; [lia| |].
    + apply Forall_app. split; [apply noslash_split_slash|done].
    + destruct (rooted t); [apply Hwf|done].
  - by destruct rest; intros [= <-].
Qed.

Lemma resolve_placed links w follow p l :
  wf (w_fs w) → resolve_at links w follow p = inr l → placed (w_fs w) l.
Proof.
  intros Hwf. unfold resolve_at. case_bool_decide; [done|]. destruct (rooted p).
  - apply walk_placed; [done|apply noslash_split_slash|apply Hwf].
  - destruct (w_fs w !! w_cwd w) as [[m|m c|t]|] eqn:E; [|done..].
    apply walk_placed; [done|apply noslash_split_slash|by exists m].
Qed.

Lemma lookup_node_placed w follow p l n :
  wf (w_fs w) → lookup_node w follow p = inr (l, n) → placed (w_fs w) l ∧ w_fs w !! l = Some n.
Proof.
  intros Hwf. unfold lookup_node. destruct (resolve w follow p) as [e|l'] eqn:E; [done|].
  destruct (w_fs w !! l') eqn:En; [|done]. intros [= <- <-]. split; [by eapply resolve_placed|done].
Qed.

(** ** Changes that keep it *)

Lemma placed_normal s l : wf s → placed s l → Forall normal l.
Proof.
  intros [_ Hn] [->|(d & c & -> & [m Hm] & Hc)]; [constructor|].
  apply Forall_app. split; [by eapply Hn|by constructor].
Qed.

Lemma snoc_neq (k : loc) c : k ≠ k ++ [c].
Proof. intros E%(f_equal length). rewrite length_app in E. simpl in E. lia. Qed.

Lemma wf_insert s l n :
  wf s → placed s l → (is_dir n = true ∨ l ≠ [] ∧ ∀ c, s !! (l ++ [c]) = None) → wf (<[l := n]> s).
Proof.
  intros Hwf Hp Hn. split; [split|].
  - destruct Hwf as [[[m Hr] _] _]. destruct (decide (l = [])) as [->|Hl].
    + rewrite lookup_insert_eq. destruct Hn as [Hn|[? _]]; [|done]. destruct n; [by eexists|done..].
    + exists m. by rewrite lookup_insert_ne.
  - intros k c n' Hk. assert (∃ m, s !! k = Some (NDir m)) as [m Hm].
    { rewrite lookup_insert in Hk. case_decide as E; [|by eapply Hwf].
      destruct Hp as [->|(d & c' & -> & Hd & _)]; [by destruct k|]. by apply app_inj_tail in E as [-> _]. }
    rewrite lookup_insert. case_decide as E; [|by exists m]. subst k.
    destruct Hn as [Hn|[_ Hn]]; [destruct n; [by eexists|done..]|].
    rewrite lookup_insert_ne in Hk by apply snoc_neq. by rewrite Hn in Hk.
  - intros k n' Hk. rewrite lookup_insert in Hk. case_decide; [subst|by eapply Hwf].
    by eapply placed_normal.
Qed.

Lemma wf_insert_free s l n : wf s → placed s l → s !! l = None → wf (<[l := n]> s).
Proof.
  intros Hwf Hp Hl. apply wf_insert; [done..|]. right. split.
  - intros ->. destruct Hwf as [[[m Hr] _] _]. congruence.
  - apply no_children; [apply Hwf|]. intros [m Hm]. congruence.
Qed.

Lemma wf_insert_file s l m c n : wf s → placed s l → s !! l = Some (NFile m c) → wf (<[l := n]> s).
Proof.
  intros Hwf Hp Hl. apply wf_insert; [done..|]. right. split.
  - intros ->. destruct Hwf as [[[m' Hr] _] _]. congruence.
  - apply no_children; [apply Hwf|]. intros [m' Hm]. congruence.
Qed.

Lemma wf_delete s l : wf s → l ≠ [] → (∀ c, s !! (l ++ [c]) = None) → wf (delete l s).
Proof.
  intros Hwf Hl Hc. split; [split|].
  - destruct Hwf as [[[m Hr] _] _]. exists m. by rewrite lookup_delete_ne.
  - intros k c n Hk. rewrite lookup_delete in Hk. case_decide; [done|].
    assert (∃ m, s !! k = Some (NDir m)) as [m Hm] by by eapply Hwf.
    exists m. rewrite lookup_delete_ne; [done|]. intros <-. by rewrite Hc in Hk.
  - intros k n Hk. apply lookup_delete_Some in Hk as [_ Hk]. by eapply Hwf.
Qed.

(** *** Moving a directory *)

Lemma below_dir s (l x : loc) : tree_ok s → is_Some (s !! (l ++ x)) → x ≠ [] → ∃ c, is_Some (s !! (l ++ [c])).
Proof.
  intros Ht. revert l. induction x as [|c x IH] using rev_ind; intros l Hs Hx; [done|].
  destruct (decide (x = [])) as [->|Hne]; [by exists c|].
  apply IH; [|done]. destruct Hs as [n Hn]. rewrite app_assoc in Hn. destruct Ht as [_ Ht].
  apply Ht in Hn as [m Hm]. by eexists.
Qed.

Lemma retarget_below old new x : retarget old new (old ++ x) = new ++ x.
Proof. unfold retarget. rewrite bool_decide_eq_true_2 by by exists x. by rewrite drop_app_length. Qed.

Lemma retarget_other old new k : ¬ old `prefix_of` k → retarget old new k = k.
Proof. intros. unfold retarget. by rewrite bool_decide_eq_false_2. Qed.

(** Nothing is below [new], so that the moved entries do not meet others there. *)
Section Move.
Context (s : fs) (old new : loc).
Hypothesis (Htree : tree_ok s) (Hfree : ∀ c, s !! (new ++ [c]) = None) (Hapart : ¬ old `prefix_of` new).

Lemma move_clear k n : delete new s !! k = Some n → ¬ new `prefix_of` k.
Proof.
  intros [Hk Hs]%lookup_delete_Some [x ->]. destruct (decide (x = [])) as [->|Hne].
  - by rewrite app_nil_r in Hk.
  - destruct (below_dir s new x) as [c [n' Hc]]; [done|by eexists|done|]. by rewrite Hfree in Hc.
Qed.

Lemma move_tree_Some k n :
  move_tree s old new !! k = Some n ↔ ∃ k0, delete new s !! k0 = Some n ∧ retarget old new k0 = k.
Proof.
  unfold move_tree. rewrite <- elem_of_list_to_map.
  - rewrite list_elem_of_fmap. split.
    + intros ([k0 n0] & [= -> ->] & Hin). exists k0. by rewrite <- elem_of_map_to_list.
    + intros (k0 & Hk0 & <-). exists (k0, n). split; [done|]. by apply elem_of_map_to_list.
  - rewrite <- list_fmap_compose.
    rewrite (list_fmap_ext _ (retarget old new ∘ fst)) by by intros ? [].
    rewrite list_fmap_compose. apply NoDup_fmap_2_strong; [|apply NoDup_fst_map_to_list].
    intros k1 k2 ([k1' n1] & -> & H1)%list_elem_of_fmap ([k2' n2] & -> & H2)%list_elem_of_fmap E.
    apply elem_of_map_to_list in H1, H2. simpl in *.
    apply move_clear in H1, H2.
    destruct (decide (old `prefix_of` k1')) as [[x1 ->]|N1], (decide (old `prefix_of` k2')) as [[x2 ->]|N2];
      rewrite ?retarget_below, ?retarget_other in E by done.
    + by apply app_inv_head in E as ->.
    + subst. destruct H2. by exists x1.
    + subst. destruct H1. by exists x2.
    + done.
Qed.

Lemma move_tree_lookup k :
  move_tree s old new !! k =
    if decide (new `prefix_of` k) then delete new s !! (old ++ drop (length new) k)
    else if decide (old `prefix_of` k) then None else s !! k.
Proof.
  apply option_eq. intros n. rewrite move_tree_Some. split.
  - intros (k0 & Hk0 & <-). pose proof (move_clear _ _ Hk0) as Hc.
    destruct (decide (old `prefix_of` k0)) as [[x ->]|N]; rewrite ?retarget_below, ?retarget_other by done.
    + rewrite decide_True by by exists x. by rewrite drop_app_length.
    + rewrite decide_False, decide_False by done. by apply lookup_delete_Some in Hk0 as [_ ?].
  - case_decide as Hp; [destruct Hp as [x ->]; rewrite drop_app_length|case_decide as Ho; [done|]].
    + intros Hx. exists (old ++ x). split; [done|apply retarget_below].
    + intros Hk. exists k. split; [|by apply retarget_other].
      rewrite lookup_delete_ne; [done|]. by intros ->.
Qed.

Lemma wf_move m : wf s → placed s new → s !! old = Some (NDir m) → wf (move_tree s old new).
Proof.
  intros Hwf Hp Ho.
  assert (old ≠ []) as Hold by (intros ->; by apply Hapart, prefix_nil).
  assert (new ≠ []) as Hnew.
  { intros ->. destruct (below_dir s [] old) as [c [n Hc]]; [done|by eexists|done|]. by rewrite Hfree in Hc. }
  split; [split|].
  - destruct Htree as [[m' Hr] _]. exists m'. rewrite move_tree_lookup.
    rewrite !decide_False by by intros ?%prefix_nil_inv. done.
  - intros k c n. rewrite move_tree_lookup. case_decide as Hn.
    + apply prefix_snoc_cases in Hn as [E0|[x ->]].
      * intros _. destruct Hp as [?|(d & c' & E & [m' Hd] & _)]; [done|].
        assert (d = k) as -> by (rewrite E0 in E; by apply app_inj_tail in E as [<- _]).
        exists m'. rewrite move_tree_lookup. rewrite !decide_False; [done| |].
        -- intros Hk. apply Hapart. rewrite E. by apply prefix_app_r.
        -- intros Hk%prefix_length. rewrite E, length_app in Hk. simpl in Hk. lia.
      * rewrite <- app_assoc, drop_app_length. intros [_ Hs]%lookup_delete_Some. rewrite app_assoc in Hs.
        apply Htree in Hs as [m' Hm']. exists m'. rewrite move_tree_lookup, decide_True by by exists x.
        rewrite drop_app_length, lookup_delete_ne; [done|]. intros E. apply Hapart. by exists x.
    + case_decide as Hko; [done|]. intros Hs. apply Htree in Hs as [m' Hm']. exists m'.
      rewrite move_tree_lookup. rewrite !decide_False; [done| |]; intros Hk; [apply Hko|apply Hn]; by apply prefix_app_r.
  - intros k n. rewrite move_tree_lookup. case_decide as Hk; [destruct Hk as [x ->]; rewrite drop_app_length|].
    + intros [_ Hs]%lookup_delete_Some. apply Hwf, Forall_app in Hs as [_ Hx].
      apply Forall_app. split; [by eapply placed_normal|done].
    + case_decide; [done|]. intros Hs. by eapply Hwf.
Qed.
End Move.

(** ** The calls *)

Lemma wf_Mkdir p perm : preserves wf (Mkdir p perm).
Proof.
  apply preserves_syscall. intros w a s Hwf. destruct (resolve w false p) as [e|l] eqn:E; [done|].
  destruct (w_fs w !! l) eqn:El; [done|]. intros [= _ <-]. apply wf_insert_free; [done| |done]. by eapply resolve_placed.
Qed.

Lemma wf_open_excl p perm : preserves wf (open_excl p perm).
Proof.
  apply preserves_syscall. intros w a s Hwf. destruct (resolve w false p) as [e|l] eqn:E; [done|].
  destruct (w_fs w !! l) eqn:El; [done|]. intros [= _ <-]. apply wf_insert_free; [done| |done]. by eapply resolve_placed.
Qed.

Lemma wf_Create p : preserves wf (Create p).
Proof.
  apply preserves_syscall. intros w a s Hwf. destruct (resolve w true p) as [e|l] eqn:E; [done|].
  apply resolve_placed in E; [|done]. destruct (w_fs w !! l) as [[m|m c|t]|] eqn:El; [done| |done|]; intros [= _ <-].
  - by eapply wf_insert_file.
  - by apply wf_insert_free.
Qed.

Lemma placed_some s l n : wf s → s !! l = Some n → placed s l.
Proof.
  intros [Ht Hn] Hl. destruct l as [|c l _] using rev_ind; [by left|]. right. exists l, c.
  split_and!; [done|by eapply Ht|]. apply Hn, Forall_app in Hl as [_ Hl]. by inversion Hl.
Qed.

Lemma wf_write_chunk h data : preserves wf (write_chunk h data).
Proof.
  apply preserves_syscall. intros w a s Hwf. destruct (w_fs w !! h) as [[m|m c|t]|] eqn:El; [done| |done..].
  intros [= _ <-]. eapply wf_insert_file; [done|by eapply placed_some|done].
Qed.

Lemma wf_Chmod p perm : preserves wf (Chmod p perm).
Proof.
  apply preserves_syscall. intros w a s Hwf. destruct (lookup_node w true p) as [e|[l n]] eqn:E; [done|].
  apply lookup_node_placed in E as [Hp Hl]; [|done]. destruct n as [m|m c|t]; [| |done]; intros [= _ <-].
  - apply wf_insert; [done..|by left].
  - by eapply wf_insert_file.
Qed.

Lemma wf_rename_loc s old new s' :
  wf s → placed s new → rename_loc s old new = inr (Some s') → wf s'.
Proof.
  intros Hwf Hp. unfold rename_loc. destruct (s !! old) as [n|] eqn:Ho; [|done].
  assert (is_dir n = false → old ≠ new → ¬ dir_at s new → wf (<[new := n]> (delete old s))) as Hfile.
  { intros Hf Hne Hnd. assert (¬ dir_at s old) as Hod by (intros [m Hm]; rewrite Ho in Hm; by simplify_eq).
    assert (old ≠ []) by (intros ->; apply Hod, Hwf).
    assert (∀ k, dir_at s k → dir_at (delete old s) k) as Hkeep.
    { intros k [m Hm]. exists m. rewrite lookup_delete_ne; [done|]. intros ->. apply Hod. by exists m. }
    apply wf_insert; [apply wf_delete; [done..|by apply no_children, Hod; apply Hwf]| |].
    - destruct Hp as [->|(d & c & -> & Hd & Hc)]; [by left|]. right. exists d, c. auto.
    - right. split; [intros ->; apply Hnd, Hwf|]. intros c. apply lookup_delete_None. right.
      apply no_children; [apply Hwf|done]. }
  destruct n as [m|m c|t].
  - case_bool_decide; [done|]. case_bool_decide as Hpre; [done|].
    destruct (s !! new) as [[m'|m' c'|t']|] eqn:En; [|done..|].
    + destruct (children s new) eqn:Ec; [|done]. intros [= <-].
      eapply wf_move; [apply Hwf|by apply children_nil|done..].
    + intros [= <-]. eapply wf_move; [apply Hwf| |done..]. apply no_children; [apply Hwf|].
      intros [m' Hm']. congruence.
  - case_bool_decide; [done|]. destruct (s !! new) as [[m'|m' c'|t']|] eqn:En; [done|..];
      intros [= <-]; apply Hfile; try done; intros [? Hx]; congruence.
  - case_bool_decide; [done|]. destruct (s !! new) as [[m'|m' c'|t']|] eqn:En; [done|..];
      intros [= <-]; apply Hfile; try done; intros [? Hx]; congruence.
Qed.

Lemma wf_rename_call p q : preserves wf (rename_call p q).
Proof.
  apply preserves_syscall. intros w a s Hwf. destruct (resolve w false p) as [|old]; [done|].
  destruct (resolve w false q) as [|new] eqn:En; [done|].
  destruct (rename_loc (w_fs w) old new) as [|o] eqn:E; [done|]. intros [= _ ->].
  eapply wf_rename_loc; [done|by eapply resolve_placed|done].
Qed.

Lemma wf_Remove p : preserves wf (Remove p).
Proof.
  apply preserves_syscall. intros w a s Hwf. destruct (lookup_node w false p) as [e|[l n]] eqn:E; [done|].
  apply lookup_node_placed in E as [_ Hl]; [|done].
  assert (is_dir n = false → wf (delete l (w_fs w))) as Hfile.
  { intros Hf. assert (¬ dir_at (w_fs w) l) as Hnd by (intros [m Hm]; rewrite Hl in Hm; by simplify_eq).
    apply wf_delete; [done|intros ->; apply Hnd, Hwf|apply no_children; [apply Hwf|done]]. }
  destruct n as [m|m c|t]; [|intros [= _ <-]; by apply Hfile..].
  destruct l as [|x l]; [done|]. destruct (children (w_fs w) (x :: l)) eqn:Ec; [|done].
  intros [= _ <-]. apply wf_delete; [done..|by apply children_nil].
Qed.

#[export] Hint Resolve wf_Mkdir wf_open_excl wf_Create wf_write_chunk wf_Chmod wf_rename_call wf_Remove : triples.

(** ** Compound calls *)

Lemma preserves_defer {A : Type} I cleanup (m : prog world A) :
  preserves I m → preserves I cleanup → preserves I (with_defer cleanup m).
Proof. intros Hm Hc. eapply triple_defer; [exact Hm|intros r; exact Hc]. Qed.
#[export] Hint Resolve preserves_defer : triples.

(** Goes through the sequencing, the branches and the known calls of a program. *)
Ltac keeps_go :=
  repeat first
    [ progress intros
    | solve [eauto 2 with triples nocore]
    | apply preserves_try | apply preserves_bind | apply preserves_wrap | apply preserves_defer
    | lazymatch goal with |- preserves _ (match ?x with _ => _ end) => destruct x eqn:? end
    | progress cbv zeta ].

Lemma length_parent_path p : parent_path p ≠ "" → String.length (parent_path p) < String.length p.
Proof.
  unfold parent_path. case_bool_decide as Hp; [done|]. intros Hne.
  destruct (upto_last_slash_split p) as (c & _ & E & Hu). pose proof (f_equal String.length E) as El.
  rewrite length_append in El. case_bool_decide as Hr.
  - rewrite Hr in *. destruct c; [done|]. simpl in *. lia.
  - destruct Hu as [Hu|[q Hu]]; rewrite Hu in *; [done|].
    rewrite length_append in El. rewrite TrimSuffix_app. simpl in El. lia.
Qed.

Lemma wf_mkdir_all fuel p perm : String.length p < fuel → preserves wf (mkdir_all fuel p perm).
Proof.
  revert p. induction fuel as [|fuel IH]; intros p Hf; [lia|]. cbn [mkdir_all]. keeps_go.
  go_bool. apply IH. assert (String.length (parent_path p) < String.length p) by by apply length_parent_path. lia.
Qed.

Lemma wf_MkdirAll p perm : preserves wf (MkdirAll p perm).
Proof. apply wf_mkdir_all. lia. Qed.

Lemma preserves_draw I : preserves I draw.
Proof. intros w Hw. eexists _, _. split_and!; [done|done|]. split; [done|]. exists []. by rewrite app_nil_r. Qed.

Lemma wf_create_temp tries dir prefix : preserves wf (create_temp tries dir prefix).
Proof.
  induction tries as [|tries IH]; cbn [create_temp]; [apply preserves_throw|].
  apply preserves_bind; [apply preserves_draw|]. intros r. cbv zeta. apply preserves_try; [apply wf_open_excl|].
  intros [h|e]; [apply preserves_ret|]. destruct e as [| |op []| | |]; first [exact IH|apply preserves_throw].
Qed.

Lemma wf_CreateTemp dir prefix : preserves wf (CreateTemp dir prefix).
Proof. apply wf_create_temp. Qed.

Lemma wf_write_blocks h bs : preserves wf (write_blocks h bs).
Proof. induction bs; cbn [write_blocks]; keeps_go. Qed.

Lemma wf_Copy h r : preserves wf (Copy h r).
Proof. apply preserves_bind; [apply wf_write_blocks|keeps_go]. Qed.


Lemma wf_CopyFile dst src : preserves wf (CopyFile dst src).
Proof. apply preserves_bind; [apply preserves_file_reader|intros r; apply wf_Copy]. Qed.

Lemma wf_Rename p q : preserves wf (Rename p q).
Proof. unfold Rename, rename_guard. keeps_go. Qed.

Lemma wf_remove_entries ls err : preserves wf (remove_entries ls err).
Proof. revert err. induction ls; intros err; cbn [remove_entries]; keeps_go. Qed.
#[export] Hint Resolve wf_MkdirAll wf_CreateTemp wf_Copy wf_CopyFile wf_Rename wf_remove_entries preserves_file_reader : triples.

Lemma wf_RemoveAll p : preserves wf (RemoveAll p).
Proof. unfold RemoveAll. keeps_go. Qed.

Lemma preserves_ReadDir I p : preserves I (ReadDir p).
Proof. unfold ReadDir. read_only. Qed.
#[export] Hint Resolve wf_RemoveAll preserves_ReadDir : triples.

(** ** A decision procedure *)

#[global] Instance noslash_dec c : Decision (noslash c).
Proof. induction c; simpl; apply _. Defined.

#[global] Instance normal_dec c : Decision (normal c).
Proof. unfold normal. apply _. Defined.

Definition entry_ok (s : fs) (k : loc) (n : node) : Prop :=
  Forall normal k ∧ (if decide (k = []) then is_dir n else match s !! parent k with Some n' => is_dir n' | None => false end) = true.

#[global] Instance entry_ok_dec s k n : Decision (entry_ok s k n).
Proof. unfold entry_ok. apply _. Defined.

Definition wf_check (s : fs) : bool :=
  bool_decide (is_Some (s !! [])) && bool_decide (map_Forall (entry_ok s) s).

Lemma wf_check_sound s : wf_check s = true → wf s.
Proof.
  intros H. unfold wf_check in H. go_bool. destruct H as [n Hn]. rename H0 into Hall. split; [split|].
  - destruct (Hall [] n Hn) as [_ Hd]. simpl in Hd. destruct n; [by eexists|done..].
  - intros k c n' Hk. destruct (Hall _ _ Hk) as [_ Hd]. rewrite decide_False in Hd by by destruct k.
    rewrite parent_snoc in Hd. destruct (s !! k) as [[]|]; [by eexists|done..].
  - intros k n' Hk. apply (Hall _ _ Hk).
Qed.
