(* ===== verification/RemoveSpec.v ===== *)
(** * What [os.RemoveAll] removes

    The exact effect of deleting a tree, under failures and at every step, and its success when
    nothing fails. *)
From stdpp Require Import sorting.
From S2P Require Import Prelude GoStrings GoPath Jwt PosixFs LocalFs CrashLogic FsTriples FsRuns FsInvariant.

#[local] Open Scope string_scope.
#[local] Open Scope nat_scope.
#[local] Open Scope list_scope.
#[local] Open Scope go_scope.

(** ** Removing one entry *)

(** The failures that are injected do not pretend that a file is missing. *)
Definition honest (w : world) : Prop := Forall (fun f => f ≠ Some ENOENT) (w_faults w).

Lemma honest_tail w : honest w → honest (set_faults w (tail (w_faults w))).
Proof. unfold honest. simpl. destruct (w_faults w); [done|]. by inversion 1. Qed.

(** Links are not followed on a path whose proper prefixes are no links. *)
Lemma walk_plain links s cur cs l :
  Forall normal cs → (∀ d c r t, cs = d ++ c :: r → r ≠ [] → s !! (cur ++ d ++ [c]) ≠ Some (NLink t)) →
  walk links s false cur cs = inr l → l = cur ++ cs.
Proof.
  intros Hcs. revert cur. induction Hcs as [|c cs Hc _ IH]; intros cur Hl Hw.
  { rewrite walk_nil in Hw. simplify_eq. by rewrite app_nil_r. }
  rewrite walk_unfold in Hw. destruct Hc as (_ & H1 & H2 & H3).
  rewrite bool_decide_eq_false_2, bool_decide_eq_false_2 in Hw by tauto.
  destruct (s !! (cur ++ [c])) as [[m|m d|t]|] eqn:E.
  - apply IH in Hw; [by rewrite Hw, <- app_assoc|]. intros d' c' r t Er Hr. rewrite <- app_assoc.
    apply (Hl (c :: d') c' r t); [by rewrite Er|done].
  - destruct cs; by simplify_eq.
  - destruct cs as [|c' cs]; [by simpl in Hw; simplify_eq|].
    by destruct (Hl [] c (c' :: cs) t).
  - destruct cs; by simplify_eq.
Qed.

Lemma prefix_dir s k d c r n :
  tree_ok s → s !! k = Some n → k = d ++ c :: r → r ≠ [] → ∃ m, s !! (d ++ [c]) = Some (NDir m).
Proof.
  intros Ht Hk -> Hr. destruct r as [|y r _] using rev_ind; [done|].
  assert (d ++ c :: r ++ [y] = ((d ++ [c]) ++ r) ++ [y]) as E by by rewrite <- !app_assoc.
  rewrite E in Hk. destruct Ht as [Hr0 Ht]. apply Ht in Hk as [m Hm].
  apply (tree_ok_dirs s ((d ++ [c]) ++ r) m); [done|done|]. by exists r.
Qed.

(** An entry that exists resolves to itself; one that is gone is reported missing. *)
Lemma lookup_node_entry w k n :
  wf (w_fs w) → w_fs w !! k = Some n → lookup_node w false (render true k) = inr (k, n).
Proof.
  intros [Ht Hn] Hk. unfold lookup_node, resolve. rewrite resolve_render by by eapply Hn.
  rewrite (walk_dirs _ _ _ []); [simpl; by rewrite Hk|by eapply Hn| |done].
  intros d c r E Hr. by eapply (prefix_dir _ k).
Qed.

Lemma lookup_node_gone s0 w k n l n' :
  tree_ok s0 → Forall normal k → w_fs w ⊆ s0 → s0 !! k = Some n →
  lookup_node w false (render true k) = inr (l, n') → l = k ∧ w_fs w !! k = Some n'.
Proof.
  intros Ht Hn Hs Hk. unfold lookup_node, resolve. rewrite resolve_render by done.
  destruct (walk _ _ _ _ _) as [e|l'] eqn:E; [done|].
  apply walk_plain in E; [subst; simpl|done|].
  - destruct (w_fs w !! k) eqn:Ek; [|done]. intros. by simplify_eq.
  - intros d c r t Er Hr Hlk. simpl in Hlk. apply (lookup_weaken _ _ _ _ Hlk) in Hs.
    edestruct (prefix_dir s0 k) as [m Hm]; [done..|congruence].
Qed.

(** What [Remove] did when it returned [r] and led from [w] to [w'], for the location [l]. *)
Definition removed (l : loc) (w : world) (r : result unit) (w' : world) : Prop :=
  honest w' ∧ w_cwd w' = w_cwd w ∧
  match r with
  | Ok _ => w_fs w' = delete l (w_fs w) ∧ wf (w_fs w') ∧ w_trace w' = w_trace w ++ [w_fs w']
  | Err e => w_fs w' = w_fs w ∧ w_trace w' = w_trace w ∧ (IsNotExist e = true → w_fs w !! l = None)
  end.

Lemma Remove_outcome w p l :
  wf (w_fs w) → honest w →
  (∀ l' n, lookup_node w false p = inr (l', n) → l' = l ∧ w_fs w !! l = Some n) →
  (lookup_node w false p = inl ENOENT → w_fs w !! l = None) →
  ∃ r w', Remove p w = Some (r, w') ∧ removed l w r w'.
Proof.
  intros Hwf Hh Hl Hgone.
  destruct (wf_Remove p w Hwf) as (r & w' & E & Hw' & [(_ & _ & Hcwd) _]).
  exists r, w'. split; [done|]. revert E. unfold Remove, syscall.
  set (w1 := set_faults w (tail (w_faults w))).
  assert (honest w1) as Hh1 by by apply honest_tail.
  change (lookup_node w1 false p) with (lookup_node w false p).
  destruct (head (w_faults w)) as [[e|]|] eqn:Hf.
  { intros [= <- <-]. split_and!; [done..|]. simpl. intros He. destruct e; try done.
    unfold honest in Hh. destruct (w_faults w); [done|]. simpl in Hf. simplify_eq. by inversion Hh. }
  all: destruct (lookup_node w false p) as [e|[l' n]] eqn:En;
    [intros [= <- <-]; split_and!; [done..|]; intros He; apply Hgone; by destruct e|].
  all: destruct (Hl l' n eq_refl) as [-> Ek].
  all: destruct n as [m|m c|t]; [|by intros [= <- <-]; split_and!..].
  all: destruct l as [|x l]; [intros [= <- <-]; by split_and!|].
  all: destruct (children (w_fs w1) (x :: l)); intros [= <- <-]; by split_and!.
Qed.

(** One [Remove] inside a tree of which entries may be gone already. *)
Lemma Remove_entry s0 w k n :
  wf s0 → wf (w_fs w) → honest w → w_fs w ⊆ s0 → s0 !! k = Some n →
  ∃ r w', Remove (render true k) w = Some (r, w') ∧ removed k w r w'.
Proof.
  intros Hwf0 Hwf Hh Hs Hk. apply Remove_outcome; [done..| |].
  - intros l' n'. apply (lookup_node_gone s0 w k n); [apply Hwf0|by eapply Hwf0|done..].
  - intros E. destruct (w_fs w !! k) eqn:Ek; [|done]. by rewrite (lookup_node_entry _ _ _ Hwf Ek) in E.
Qed.

Lemma Remove_at w p l :
  wf (w_fs w) → honest w → resolve w false p = inr l →
  ∃ r w', Remove p w = Some (r, w') ∧ removed l w r w'.
Proof.
  intros Hwf Hh Hl. apply Remove_outcome; [done..| |]; unfold lookup_node; rewrite Hl.
  - intros l' n. destruct (w_fs w !! l); [|done]. intros. by simplify_eq.
  - by destruct (w_fs w !! l).
Qed.

(** ** Removing a list of entries *)

(** [s] is [s0] with, at most, entries of [ls] removed. *)
Definition pruned (ls : loc → Prop) (s0 s : fs) : Prop :=
  ∀ k, s !! k = s0 !! k ∨ (ls k ∧ s !! k = None).

Lemma pruned_refl ls s : pruned ls s s.
Proof. intros k. by left. Qed.

Lemma pruned_trans ls s0 s1 s2 : pruned ls s0 s1 → pruned ls s1 s2 → pruned ls s0 s2.
Proof. intros H1 H2 k. destruct (H2 k) as [->|?]; [apply H1|by right]. Qed.

Lemma pruned_mono (ls ls' : loc → Prop) s0 s : (∀ k, ls k → ls' k) → pruned ls s0 s → pruned ls' s0 s.
Proof. intros Hl H k. destruct (H k) as [?|[? ?]]; auto. Qed.

Lemma pruned_delete (ls : loc → Prop) s k : ls k → pruned ls s (delete k s).
Proof. intros Hk k'. rewrite lookup_delete. case_decide; [subst; by right|by left]. Qed.

Lemma pruned_sub ls s0 s : pruned ls s0 s → s ⊆ s0.
Proof. intros H. apply map_subseteq_spec. intros k n Hk. destruct (H k) as [<-|[_ E]]; [done|congruence]. Qed.

Lemma remove_entries_spec s0 ls err w :
  wf s0 → wf (w_fs w) → honest w → w_fs w ⊆ s0 → Forall (fun k => is_Some (s0 !! k)) ls →
  ∃ r w' tr, remove_entries ls err w = Some (r, w') ∧ wf (w_fs w') ∧
    pruned (.∈ ls) (w_fs w) (w_fs w') ∧
    (r = Ok tt → err = None ∧ ∀ k, k ∈ ls → w_fs w' !! k = None) ∧
    w_trace w' = w_trace w ++ tr ∧ Forall (pruned (.∈ ls) (w_fs w)) tr.
Proof.
  intros Hwf0 Hwf Hh Hs Hls. revert w err Hwf Hh Hs.
  induction Hls as [|k ls [n Hk] Hls IH]; intros w err Hwf Hh Hs; cbn [remove_entries].
  { exists (match err with None => Ok tt | Some e => Err e end), w, []. split_and!.
    - by destruct err.
    - done.
    - apply pruned_refl.
    - destruct err; [done|]. intros _. split; [done|]. by intros k ?%not_elem_of_nil.
    - by rewrite app_nil_r.
    - constructor. }
  destruct (Remove_entry s0 w k n) as (r & w1 & E & Hh1 & _ & Hr); [done..|].
  set (err' := match err, r with Some e, _ => Some e | None, Err e => if IsNotExist e then None else Some e | None, Ok _ => None end).
  assert (wf (w_fs w1) ∧ pruned (.∈ k :: ls) (w_fs w) (w_fs w1) ∧ (err' = None → err = None ∧ w_fs w1 !! k = None) ∧
    ∃ tr, w_trace w1 = w_trace w ++ tr ∧ Forall (pruned (.∈ k :: ls) (w_fs w)) tr) as (Hwf1 & Hp1 & He1 & tr1 & Et1 & Ft1).
  { assert (pruned (.∈ k :: ls) (w_fs w) (delete k (w_fs w))) as Hd by (apply pruned_delete; left).
    destruct r as [[]|e].
    - destruct Hr as (Ef & Hw1 & Et). split_and!; [done|by rewrite Ef| |exists [w_fs w1]; split; [done|]].
      + unfold err'. destruct err; [done|]. intros _. split; [done|]. rewrite Ef. apply lookup_delete_eq.
      + constructor; [by rewrite Ef|constructor].
    - destruct Hr as (Ef & Et & Hn). rewrite Ef. split_and!; [done|apply pruned_refl| |exists []; by rewrite app_nil_r].
      unfold err'. destruct err; [done|]. destruct (IsNotExist e); [|done]. auto. }
  destruct (IH w1 err') as (r2 & w2 & tr2 & E2 & Hwf2 & Hp2 & Hr2 & Et2 & Ft2);
    [done..|by etrans; [eapply pruned_sub|exact Hs]|].
  assert (∀ s, pruned (.∈ ls) (w_fs w1) s → pruned (.∈ k :: ls) (w_fs w) s) as Hlift.
  { intros s Hps. eapply pruned_trans; [exact Hp1|]. eapply pruned_mono; [|exact Hps]. intros. by right. }
  exists r2, w2, (tr1 ++ tr2). split_and!.
  - rewrite (try_run _ _ _ _ _ E). exact E2.
  - done.
  - by apply Hlift.
  - intros Ho. destruct (Hr2 Ho) as [He Hgone]. destruct (He1 He) as [-> Hk1]. split; [done|].
    intros k' [->|Hk']%elem_of_cons; [|by apply Hgone]. destruct (Hp2 k) as [->|[_ ?]]; done.
  - by rewrite Et2, Et1, app_assoc.
  - apply Forall_app. split; [done|]. eapply Forall_impl; [exact Ft2|exact Hlift].
Qed.

Lemma elem_of_subtree s l k : k ∈ subtree s l ↔ l `prefix_of` k ∧ is_Some (s !! k).
Proof.
  unfold subtree. rewrite merge_sort_Permutation, list_elem_of_filter, list_elem_of_fmap. split.
  - intros [Hp ([k' n] & -> & Hk)]. apply elem_of_map_to_list in Hk. by eauto.
  - intros [Hp [n Hn]]. split; [done|]. exists (k, n). split; [done|]. by apply elem_of_map_to_list.
Qed.

(** ** [RemoveAll] *)

Lemma nothing_below s l k : tree_ok s → s !! l = None → l `prefix_of` k → s !! k = None.
Proof.
  intros Ht Hl [x ->]. destruct (decide (x = [])) as [->|Hx]; [by rewrite app_nil_r|].
  destruct (s !! (l ++ x)) eqn:E; [|done]. destruct (below_dir s l x) as [c [n' Hc]]; [done|by eexists|done|].
  destruct Ht as [_ Ht]. apply Ht in Hc as [m Hm]. congruence.
Qed.

Lemma resolve_ext w w' follow p :
  w_fs w' = w_fs w → w_cwd w' = w_cwd w → resolve w' follow p = resolve w follow p.
Proof. intros E1 E2. unfold resolve, resolve_at. by rewrite E1, E2. Qed.

(** Whatever fails: only entries of the tree at the path go, at every moment, and success
    means that all of them are gone. *)
Lemma RemoveAll_spec w p l :
  wf (w_fs w) → honest w → resolve w false p = inr l →
  ∃ r w' tr, RemoveAll p w = Some (r, w') ∧ wf (w_fs w') ∧
    pruned (prefix l) (w_fs w) (w_fs w') ∧
    (r = Ok tt → ∀ k, l `prefix_of` k → w_fs w' !! k = None) ∧
    w_trace w' = w_trace w ++ tr ∧ Forall (pruned (prefix l) (w_fs w)) tr.
Proof.
  intros Hwf Hh Hl. destruct (Remove_at w p l) as (r & w1 & E & Hh1 & Hc & Hr); [done..|].
  unfold RemoveAll. rewrite (try_run _ _ _ _ _ E). destruct r as [[]|e].
  { destruct Hr as (Ef & Hwf1 & Et). exists (Ok tt), w1, [w_fs w1].
    assert (pruned (prefix l) (w_fs w) (w_fs w1)) by (rewrite Ef; by apply pruned_delete).
    split_and!; [done..| |done|by constructor]. intros _ k. apply nothing_below; [apply Hwf1|].
    rewrite Ef. apply lookup_delete_eq. }
  destruct Hr as (Ef & Et & Hn). rewrite <- Ef in *. destruct (IsNotExist e).
  { exists (Ok tt), w1, []. rewrite app_nil_r. split_and!; [done..|apply pruned_refl| |done|constructor].
    intros _ k. apply nothing_below; [apply Hwf|auto]. }
  rewrite (bind_run _ _ _ _ _ (eq_refl : gets _ w1 = Some (Ok _, w1))).
  rewrite (resolve_ext w w1), Hl by done.
  rewrite (bind_run _ _ _ _ _ (eq_refl : gets _ w1 = Some (Ok _, w1))).
  destruct (remove_entries_spec (w_fs w1) (subtree (w_fs w1) l) None w1) as (r & w' & tr & E' & Hwf' & Hp & Ho & Et' & Ft);
    [done..| |].
  { apply Forall_forall. intros k [_ Hk]%elem_of_subtree. done. }
  assert (∀ s, pruned (.∈ subtree (w_fs w1) l) (w_fs w1) s → pruned (prefix l) (w_fs w1) s) as Hlift.
  { intros s. apply pruned_mono. by intros k [Hk _]%elem_of_subtree. }
  exists r, w', tr. split_and!; [done|done|by apply Hlift| |by rewrite Et', Et|by eapply Forall_impl].
  intros Hok k Hk. destruct (Ho Hok) as [_ Hgone]. destruct (w_fs w1 !! k) as [n|] eqn:Ek.
  - apply Hgone, elem_of_subtree. by eauto.
  - destruct (Hp k) as [->|[_ ?]]; done.
Qed.

(** ** Success when nothing fails *)

#[local] Instance deeper_total : Total deeper.
Proof. intros a b. unfold deeper. lia. Qed.
#[local] Instance deeper_trans : Transitive deeper.
Proof. intros a b c. unfold deeper. lia. Qed.

Lemma quiet_honest w : quiet w → honest w.
Proof. unfold quiet, honest. by intros ->. Qed.

Lemma children_empty s l : (∀ c, s !! (l ++ [c]) = None) → children s l = [].
Proof.
  intros H. destruct (children s l) as [|[c n] cs] eqn:E; [done|].
  assert ((c, n) ∈ children s l) as Hin by (rewrite E; left). apply elem_of_children in Hin. by rewrite H in Hin.
Qed.

(** An entry without children goes. *)
Lemma Remove_run w k n :
  quiet w → wf (w_fs w) → k ≠ [] → w_fs w !! k = Some n → (∀ c, w_fs w !! (k ++ [c]) = None) →
  Remove (render true k) w = Some (Ok tt, set_fs w (delete k (w_fs w))).
Proof.
  intros Hq Hwf Hne Hk Hc. unfold Remove. rewrite syscall_run by done.
  rewrite (lookup_node_entry _ _ _ Hwf Hk). destruct n; [|done..].
  destruct k; [done|]. by rewrite children_empty.
Qed.

Lemma remove_entries_run l ls w :
  quiet w → wf (w_fs w) → l ≠ [] → NoDup ls → StronglySorted deeper ls →
  (∀ k, k ∈ ls ↔ l `prefix_of` k ∧ is_Some (w_fs w !! k)) →
  ∃ w', remove_entries ls None w = Some (Ok tt, w').
Proof.
  intros Hq Hwf Hl Hnd Hss Hls. revert w Hq Hwf Hls.
  induction Hss as [|k ls Hss IH Hdeep]; intros w Hq Hwf Hls; [by eexists|].
  apply NoDup_cons in Hnd as [Hk Hnd]. destruct (proj1 (Hls k)) as [Hp [n Hn]]; [left|].
  assert (k ≠ []) as Hne by (intros ->; by apply prefix_nil_inv in Hp).
  assert (∀ c, w_fs w !! (k ++ [c]) = None) as Hc.
  { intros c. destruct (w_fs w !! (k ++ [c])) eqn:E; [|done].
    assert (k ++ [c] ∈ k :: ls) as [E'|Hin]%elem_of_cons.
    - apply Hls. split; [by apply prefix_app_r|by eexists].
    - symmetry in E'. by apply snoc_neq in E'.
    - rewrite Forall_forall in Hdeep. apply Hdeep in Hin. unfold deeper in Hin. rewrite length_app in Hin. simpl in Hin. lia. }
  cbn [remove_entries]. rewrite (try_run _ _ _ _ _ (Remove_run w k n Hq Hwf Hne Hn Hc)).
  apply IH; [done|done|by apply wf_delete|]. intros k'. simpl. rewrite lookup_delete. split.
  - intros Hin. rewrite decide_False by by intros ->. apply Hls. by right.
  - intros [Hp' Hs]. case_decide; [by destruct Hs|]. assert (k' ∈ k :: ls) as [->|]%elem_of_cons; [by apply Hls|done..].
Qed.

Lemma RemoveAll_succeeds w p l :
  quiet w → wf (w_fs w) → l ≠ [] → resolve w false p = inr l → ∃ w', RemoveAll p w = Some (Ok tt, w').
Proof.
  intros Hq Hwf Hne Hl. destruct (Remove_at w p l) as (r & w1 & E & Hh & Hc & Hr); [done|by apply quiet_honest|done|].
  unfold RemoveAll. rewrite (try_run _ _ _ _ _ E). destruct r as [[]|e]; [by eexists|].
  destruct Hr as (Ef & _ & _). destruct (IsNotExist e); [by eexists|].
  rewrite (bind_run _ _ _ _ _ (eq_refl : gets _ w1 = Some (Ok _, w1))).
  rewrite (resolve_ext w w1), Hl by done.
  rewrite (bind_run _ _ _ _ _ (eq_refl : gets _ w1 = Some (Ok _, w1))).
  apply (remove_entries_run l).
  - unfold quiet. revert E. unfold Remove. rewrite syscall_run by done. repeat case_match; intros; by simplify_eq.
  - by rewrite Ef.
  - done.
  - unfold subtree. rewrite merge_sort_Permutation. apply NoDup_filter, NoDup_fst_map_to_list.
  - apply StronglySorted_merge_sort; apply _.
  - apply elem_of_subtree.
Qed.
