(* ===== verification/LocalFsProps.v ===== *)
(** * Properties of the hardened local file system

    Confinement of paths below the base directory, crash safety of atomic writes and of
    moves, for [internal/filesystem/fs.go]. *)
From stdpp Require Import pretty.
From S2P Require Import Prelude GoStrings GoPath Jwt PosixFs LocalFs CrashLogic FsTriples FsRuns.

#[local] Open Scope string_scope.
#[local] Open Scope nat_scope.
#[local] Open Scope list_scope.
#[local] Open Scope go_scope.

(** ** Path confinement *)

(** A base directory as [NewLocalFs] builds it: rooted and clean. *)
Definition base_ok (l : LocalFs) (bs : loc) : Prop :=
  Forall normal bs ∧ BaseRoot l = render true bs.

Lemma base_ok_rooted l bs : base_ok l bs → rooted (BaseRoot l) = true ∧ clean_comps (BaseRoot l) = bs.
Proof. intros [Hb ->]. split; [done|]. apply clean_comps_render. by apply canonical_rooted. Qed.

Lemma rooted_Join p q : rooted p = true → rooted (Join [p; q]) = true.
Proof. intros H. rewrite Join_rooted by done. rewrite rooted_Clean. by apply rooted_append. Qed.

Lemma rooted_join_below base parts : rooted base = true → rooted (join_below base parts) = true.
Proof. apply rooted_Join. Qed.

Lemma Join_clean p q : rooted p = true → Clean (Join [p; q]) = Join [p; q].
Proof. intros H. rewrite Join_rooted by done. apply Clean_idemp. Qed.

Lemma join_below_render base parts :
  rooted base = true →
  join_below base parts = render true (clean_comps (join_below base parts)) ∧
  Forall normal (clean_comps (join_below base parts)).
Proof.
  intros Hb. pose proof (rooted_join_below base parts Hb) as Hr. split.
  - rewrite <- (Join_clean base _ Hb : Clean (join_below base parts) = _) at 1.
    unfold Clean. by rewrite Hr.
  - by apply clean_comps_rooted_normal.
Qed.

Lemma EvalSymlinks_result p w :
  ∃ r w', EvalSymlinks p w = Some (r, w') ∧ w_fs w' = w_fs w ∧ w_trace w' = w_trace w ∧ same_env w w' ∧
    match r with
    | Err _ => True
    | Ok q => ∃ k, q = render true k ∧ resolve_at 255 w true p = inr k ∧ is_Some (w_fs w !! k)
    end.
Proof.
  unfold EvalSymlinks, syscall. set (w1 := set_faults w (tail (w_faults w))).
  change (resolve_at 255 w1 true p) with (resolve_at 255 w true p).
  change (w_fs w1) with (w_fs w).
  destruct (head (w_faults w)) as [[e|]|]; [by eexists _, _| |];
    (destruct (resolve_at 255 w true p) as [e|k]; [by eexists _, _|];
     destruct (w_fs w !! k) eqn:E; (eexists _, _; split_and!; [done..|]); [|done];
     exists k; by rewrite E).
Qed.

(** Only the file system's own resolution, or the joined path itself, is returned. *)
Lemma sanitizeAndJoin_result l parts w :
  ∃ r w', sanitizeAndJoin l parts w = Some (r, w') ∧
  w_fs w' = w_fs w ∧ w_trace w' = w_trace w ∧ same_env w w' ∧
  match r with
  | Err _ => True
  | Ok full =>
      (full = join_below (BaseRoot l) parts ∨
       ∃ k, full = render true k ∧ resolve_at 255 w true (join_below (BaseRoot l) parts) = inr k ∧
            is_Some (w_fs w !! k)) ∧
      ∃ rel, Rel (BaseRoot l) full = Ok rel ∧ HasPrefix rel ".." = false
  end.
Proof.
  unfold sanitizeAndJoin, bind, attempt.
  destruct (EvalSymlinks_result (join_below (BaseRoot l) parts) w) as (r & w' & -> & Hf & Ht & He & Hr).
  set (full := match r with Ok fullEval => fullEval | Err _ => join_below (BaseRoot l) parts end).
  destruct (Rel (BaseRoot l) full) as [rel|e] eqn:Erel; [|by eexists _, _].
  destruct (HasPrefix rel "..") eqn:Ep; [by eexists _, _|].
  eexists _, _. split_and!; [done..|]. split; [|by eexists].
  destruct r; [by right|by left].
Qed.

(** C7: Whatever the parts contain (absolute paths, "..", repeated slashes) and whatever
    links the file system holds, a path returned by [sanitizeAndJoin] lies, element by
    element, at or below the base directory; checking it changes nothing on disk. *)
Theorem sanitizeAndJoin_confined l bs parts w full w' :
  base_ok l bs →
  sanitizeAndJoin l parts w = Some (Ok full, w') →
  rooted full = true ∧ bs `prefix_of` clean_comps full ∧ w_fs w' = w_fs w.
Proof.
  intros Hb Hs. destruct (base_ok_rooted _ _ Hb) as [Hr Hc].
  destruct (sanitizeAndJoin_result l parts w) as (r & w1 & E & Hw & _ & _ & Hr1).
  rewrite E in Hs. injection Hs as -> ->.
  destruct Hr1 as (Hfull & rel & Hrel & Hp).
  assert (rooted full = true) as Hf.
  { destruct Hfull as [->|(k & -> & _)]; [by apply rooted_join_below|done]. }
  split_and!; [done| |done]. rewrite <- Hc. by eapply Rel_inside.
Qed.

(** ** Atomic writes *)

(** [s] differs from [s0] in no existing entry but [t], and [t] is either as in [s0] or the
    complete new node: the states an observer may see around an atomic write. *)
Definition atomic_at (t : loc) (new : node) (s0 s : fs) : Prop :=
  (∀ q n, s0 !! q = Some n → q ≠ t → s !! q = Some n) ∧ (s !! t = s0 !! t ∨ s !! t = Some new).

Lemma atomic_at_dirs d c new s0 s : created_dirs d s0 s → atomic_at (d ++ [c]) new s0 s.
Proof.
  intros Hc. split; [|left; by apply created_dirs_below].
  intros q n Hq _. by eapply created_dirs_old.
Qed.

Lemma atomic_at_temp t new s0 s h n :
  atomic_at t new s0 s → s !! h = None → h ≠ t → atomic_at t new s0 (<[h := n]> s).
Proof.
  intros [H1 H2] Hh Hne. split.
  - intros q x Hq Hqt. rewrite lookup_insert. case_decide; [|auto]. subst.
    rewrite (H1 q x) in Hh by done. done.
  - by rewrite !lookup_insert_ne.
Qed.

Lemma atomic_at_done t new s0 s : atomic_at t new s0 s → atomic_at t new s0 (<[t := new]> s).
Proof.
  intros [H1 _]. split; [|right; apply lookup_insert_eq].
  intros q n Hq Hqt. rewrite lookup_insert_ne by done. auto.
Qed.

(** Without links the checks of [sanitizeAndJoin] return the joined path itself. *)
Lemma sanitizeAndJoin_triple l bs parts s0 I :
  base_ok l bs → nolinks s0 →
  triple I (fun w => w_fs w = s0) (sanitizeAndJoin l parts)
    (fun r w => w_fs w = s0 ∧ match r with
       | Ok full => full = render true (clean_comps (join_below (BaseRoot l) parts)) | Err _ => True end).
Proof.
  intros Hb Hn w Hw. destruct (base_ok_rooted _ _ Hb) as [Hr Hc].
  destruct (join_below_render (BaseRoot l) parts Hr) as [Ej Hj].
  destruct (sanitizeAndJoin_result l parts w) as (r & w' & E & Hf & Ht & Hev & Hq).
  exists r, w'. split_and!; [done|congruence| |].
  - destruct r as [full|e]; [|done]. destruct Hq as [[Hq|(k & Hq & Hk & _)] _]; [congruence|].
    rewrite Ej, resolve_render in Hk by done. apply walk_nolinks in Hk; [|by rewrite Hw|done].
    by subst.
  - split; [done|]. exists []. by rewrite app_nil_r.
Qed.

(** The tree, with at most directories of [d] added. *)
Definition dirs_added (d : loc) (s0 s : fs) : Prop := created_dirs d s0 s ∧ nolinks s.

Lemma temp_write_post_target rand d c pre s0 perm data φ r w :
  (∀ n, c ≠ pre +:+ pretty (rand n)) →
  temp_write_post rand d c pre (dirs_added d s0) perm data φ r w →
  w_fs w !! (d ++ [c]) = if is_ok r then Some (NFile perm data) else s0 !! (d ++ [c]).
Proof.
  intros Hc (s1 & [Hd _] & Hr). rewrite <- (created_dirs_below d s0 s1 c Hd). destruct r; simpl.
  - destruct Hr as [_ ->]. apply lookup_insert_eq.
  - destruct Hr as [->|(h & [n ->] & Hh & m & x & Hw)]; [done|]. rewrite Hw.
    apply lookup_insert_ne. intros E. simplify_list_eq. by eapply Hc.
Qed.

(** From the directory to the rename, once the target path is known. *)
Lemma write_tail_triple rand s0 d c perm data :
  nolinks s0 → Forall normal d → normal c → (∀ n, c ≠ ".tmp-" +:+ pretty (rand n)) →
  triple (atomic_at (d ++ [c]) (NFile perm (reader_data data)) s0)
    (fun w => w_fs w = s0 ∧ w_rand w = rand)
    (do! wrap_err "ensure dir failed" (MkdirAll (render true d) 493%N) in
     let! tmp := wrap_err "create temp file failed" (CreateTemp (render true d) ".tmp-") in
     let '(tmpName, h) := tmp in
     write_and_rename tmpName h perm data (render true (d ++ [c])))
    (temp_write_post rand d c ".tmp-" (dirs_added d s0) perm (reader_data data) (read_end data = None)).
Proof.
  intros Hn Hd Hc Htmp. set (I := atomic_at (d ++ [c]) (NFile perm (reader_data data)) s0).
  assert (∀ s, dirs_added d s0 s → I s) as HJI by (intros s [? _]; by apply atomic_at_dirs).
  assert (∀ s h n, dirs_added d s0 s → temp_loc rand d ".tmp-" h → s !! h = None → I (<[h := n]> s)) as HIt.
  { intros s h n HJ [k ->] Hs. apply atomic_at_temp; [by apply HJI|done|].
    intros E. simplify_list_eq. by eapply Htmp. }
  eapply triple_bind with (Q := fun _ w => dirs_added d s0 (w_fs w) ∧ w_rand w = rand).
  { eapply triple_conseq; [apply triple_rand with (rand := rand), preserves_wrap,
      (preserves_MkdirAll d s0 d); [done|reflexivity]| |done|exact HJI].
    intros w [-> ?]. split; [|done]. split; [apply created_dirs_refl|done]. }
  2:{ intros e w [? _]. exists (w_fs w). auto. }
  intros _. apply (temp_write_triple rand d c ".tmp-" (dirs_added d s0) I (fun h => Copy h data)); try done.
  - split; [done|simpl; lia].
  - by intros s [].
  - intros s HJ. by apply atomic_at_done, HJI.
  - intros. apply Copy_triple. auto.
Qed.

Lemma AtomicWriteFile_triple l bs ctx perm data parts rand s0 d c :
  base_ok l bs → nolinks s0 →
  clean_comps (join_below (BaseRoot l) parts) = d ++ [c] →
  (∀ n, c ≠ ".tmp-" +:+ pretty (rand n)) →
  let new := NFile perm (reader_data data) in
  triple (atomic_at (d ++ [c]) new s0) (fun w => w_fs w = s0 ∧ w_rand w = rand)
    (AtomicWriteFile l ctx perm data parts)
    (temp_write_post rand d c ".tmp-" (dirs_added d s0) perm (reader_data data) (read_end data = None)).
Proof.
  intros Hb Hn Hjoin Hc new.
  assert (Forall normal (d ++ [c])) as Hnorm.
  { rewrite <- Hjoin. apply join_below_render. by eapply base_ok_rooted. }
  assert (∀ e w, w_fs w = s0 →
    temp_write_post rand d c ".tmp-" (dirs_added d s0) perm (reader_data data) (read_end data = None) (Err e) w) as Hnil.
  { intros e w Hw. exists s0. split; [|by left]. split; [apply created_dirs_refl|done]. }
  unfold AtomicWriteFile, check_ctx. destruct (ctx_done ctx).
  { apply triple_throw. intros w [? ?]. by apply Hnil. }
  case_bool_decide. { apply triple_throw. intros w [? ?]. by apply Hnil. }
  eapply triple_bind; [by apply triple_rand, (sanitizeAndJoin_triple l bs)| |].
  2:{ intros e w [[? _] ?]. by apply Hnil. }
  intros full. apply triple_pure with (φ := full = render true (d ++ [c]))
    (P' := fun w => w_fs w = s0 ∧ w_rand w = rand).
  { intros w [[? ->] ?]. by rewrite Hjoin. }
  apply Forall_app in Hnorm as [Hdn Hcn]. inversion_clear Hcn.
  intros ->. cbv zeta. rewrite Dir_render_snoc by done. by apply write_tail_triple.
Qed.

(** C2: An atomic write is atomic under crashes and failures. Whatever system call fails
    and wherever the process is killed, the target holds either its old node or the complete
    new content with the requested mode, and no other existing entry is touched. The call
    always returns; when it reports success the new content is in place and no temporary file
    is left, when it reports an error the target is unchanged. *)
Theorem AtomicWriteFile_crash_safe l bs ctx perm data parts w d c :
  base_ok l bs → nolinks (w_fs w) →
  clean_comps (join_below (BaseRoot l) parts) = d ++ [c] →
  (∀ n, c ≠ ".tmp-" +:+ pretty (w_rand w n)) →
  let t := d ++ [c] in
  let new := NFile perm (reader_data data) in
  ∃ r w', AtomicWriteFile l ctx perm data parts w = Some (r, w') ∧
    evolves (atomic_at t new (w_fs w)) w w' ∧
    match r with
    | Ok _ => read_end data = None ∧ ∃ s1, created_dirs d (w_fs w) s1 ∧ w_fs w' = <[t := new]> s1
    | Err _ => w_fs w' !! t = w_fs w !! t
    end.
Proof.
  intros Hb Hn Hj Hc t new.
  destruct (AtomicWriteFile_triple l bs ctx perm data parts (w_rand w) (w_fs w) d c) with (w := w)
    as (r & w' & E & Ho & Hev); try done.
  exists r, w'. split; [done|]. split; [done|]. destruct r as [u|e].
  - destruct Ho as (s1 & [? _] & ? & ?). split; [done|by exists s1].
  - by apply temp_write_post_target in Ho.
Qed.

(** ** Moves *)

(** What a move of the file [n0] may show at any moment: the file is at the source or at the
    destination, and no other existing entry has changed. *)
Definition survives (src dst : loc) (n0 : node) (s0 s : fs) : Prop :=
  (s !! src = Some n0 ∨ s !! dst = Some n0) ∧
  (∀ q n, s0 !! q = Some n → q ≠ src → q ≠ dst → s !! q = Some n).

Section Move.
Variables (s0 : fs) (src d : loc) (c : string) (m : N) (x : string) (rand : nat → N).
Hypothesis s0_nolinks : nolinks s0.
Hypothesis src_normal : Forall normal src.
Hypothesis d_normal : Forall normal d.
Hypothesis c_normal : normal c.
Hypothesis src_not_dst : src ≠ d ++ [c].
Hypothesis src_file : s0 !! src = Some (NFile m x).
Hypothesis c_not_temp : ∀ n, c ≠ ".tmpcopy-" +:+ pretty (rand n).

#[local] Abbreviation dst := (d ++ [c]).
#[local] Abbreviation new := (NFile m x).
#[local] Abbreviation I := (survives src dst new s0).
#[local] Abbreviation J := (fun s => created_dirs d s0 s ∧ nolinks s).

Lemma J_src s : J s → s !! src = Some new.
Proof. intros [Hc _]. by eapply created_dirs_old. Qed.

Lemma J_survives s : J s → I s.
Proof.
  intros HJ. split; [left; by apply J_src|]. intros q n Hq _ _. by eapply created_dirs_old; [apply HJ|].
Qed.

Lemma survives_temp s h n : J s → s !! h = None → I (<[h := n]> s).
Proof.
  intros HJ Hh. split.
  - left. rewrite lookup_insert_ne; [by apply J_src|]. intros ->. by rewrite J_src in Hh.
  - intros q k Hq Hs Hd. rewrite lookup_insert_ne; [by apply (J_survives s)|]. intros ->.
    assert (s !! q = Some k) by (by eapply created_dirs_old; [apply HJ|]). congruence.
Qed.

Lemma survives_copied s : J s → I (<[dst := new]> s).
Proof.
  intros HJ. split; [right; apply lookup_insert_eq|].
  intros q k Hq Hs Hd. rewrite lookup_insert_ne by done. by apply (J_survives s).
Qed.

Lemma survives_moved s : J s → I (<[dst := new]> (delete src s)).
Proof.
  intros HJ. split; [right; apply lookup_insert_eq|].
  intros q k Hq Hs Hd. rewrite lookup_insert_ne, lookup_delete_ne by done. by apply (J_survives s).
Qed.

(** The copy fallback: the destination appears complete or not at all, the source stays. *)
Lemma copyFileContents_triple s1 :
  J s1 →
  triple I (fun w => w_fs w = s1 ∧ w_rand w = rand)
    (copyFileContents (render true src) (render true dst))
    (temp_write_post rand d c ".tmpcopy-" (fun s => s = s1) m x True).
Proof.
  intros HJ. set (Q := temp_write_post rand d c ".tmpcopy-" (fun s => s = s1) m x True).
  assert (∀ e w, w_fs w = s1 → Q (Err e) w) as Hnil by (intros e w Hw; exists s1; auto).
  unfold copyFileContents.
  eapply triple_bind; [apply triple_rand; eapply triple_wrap; [apply (Open_file_triple _ s1 src)|done]; [apply HJ|done]| |].
  2:{ intros e w [[? _] _]. auto. }
  intros hin. apply triple_pure with (φ := hin = src) (P' := fun w => w_fs w = s1 ∧ w_rand w = rand).
  { by intros w [[? ?] ?]. }
  intros ->. apply triple_defer with (Q := Q).
  2:{ intros r. apply Close_keep. by destruct r. }
  eapply triple_bind; [apply triple_rand; eapply triple_wrap; [by apply (Fstat_triple _ s1 src new), J_src|done]| |].
  2:{ intros e w [[? _] _]. auto. }
  intros fi. apply triple_pure with (φ := fi = new) (P' := fun w => w_fs w = s1 ∧ w_rand w = rand).
  { by intros w [[? ?] ?]. }
  intros ->. rewrite Dir_render_snoc by done.
  apply (temp_write_triple rand d c ".tmpcopy-" (fun s => s = s1) I (fun h => CopyFile h src)); try done.
  - split; [done|simpl; lia].
  - intros s ->. apply HJ.
  - intros s ->. by apply J_survives.
  - intros s h n -> _ Hs. by apply survives_temp.
  - intros s ->. by apply survives_copied.
  - intros h s k _ -> Hh. apply CopyFile_triple with (m0 := m).
    + intros. by apply survives_temp.
    + intros E. rewrite <- E, J_src in Hh; done.
    + by apply J_src.
Qed.

(** After the fallback copy the source is removed. *)
Lemma remove_src_triple s1 msg :
  J s1 →
  triple I (fun w => w_fs w = <[dst := new]> s1) (wrap_err msg (Remove (render true src)))
    (fun r w => I (w_fs w) ∧ match r with
       | Ok _ => w_fs w !! dst = Some new ∧ w_fs w !! src = None
       | Err _ => w_fs w !! src = Some new end).
Proof.
  intros HJ. assert (delete src (<[dst := new]> s1) = <[dst := new]> (delete src s1)) as Ed
    by by rewrite delete_insert_ne.
  assert (<[dst := new]> s1 !! src = Some new) as Es by (rewrite lookup_insert_ne by done; by apply J_src).
  eapply triple_wrap; [|done]. eapply triple_conseq.
  - apply (Remove_file_triple I (<[dst := new]> s1) src m x); [|done|done|].
    + apply nolinks_insert; [apply HJ|done].
    + rewrite Ed. by apply survives_moved.
  - done.
  - intros [] w Hw.
    + rewrite Hw, lookup_delete_eq, Ed, lookup_insert_eq. by split; [apply survives_moved|].
    + rewrite Hw. split; [by apply survives_copied|done].
  - done.
Qed.

(** Where a move may end. *)
Definition move_post (r : result unit) (w : world) : Prop :=
  I (w_fs w) ∧ match r with
  | Ok _ => w_fs w !! dst = Some new ∧ w_fs w !! src = None
  | Err _ => w_fs w !! src = Some new
  end.

Lemma rename_or_copy_triple s1 :
  J s1 →
  triple I (fun w => w_fs w = s1 ∧ w_rand w = rand)
    (let! r := attempt (Rename (render true src) (render true dst)) in
     match r with
     | Ok _ => ret tt
     | Err _ =>
         do! wrap_err "copy fallback failed" (copyFileContents (render true src) (render true dst)) in
         wrap_err "remove src after copy failed" (Remove (render true src))
     end) move_post.
Proof.
  intros HJ. eapply triple_try; [apply triple_rand, (Rename_file_triple I s1 src dst m x)|]; try done.
  - apply HJ.
  - by apply J_src.
  - by apply Forall_app; auto.
  - by apply survives_moved.
  - intros [?|e].
    + apply triple_ret. intros w [Hw _]. unfold move_post.
      rewrite Hw, lookup_insert_eq, lookup_insert_ne, lookup_delete_eq by done.
      by split; [apply survives_moved|].
    + eapply triple_bind; [eapply triple_wrap; [by apply (copyFileContents_triple s1)|by intros ? w]| |].
      * intros ?. eapply triple_conseq; [by apply (remove_src_triple s1)| |done|done].
        by intros w (? & -> & _ & ?).
      * intros e' w (? & -> & [Hw|(h & _ & Hh & k & y & Hw)]); unfold move_post; rewrite Hw.
        { split; [by apply J_survives|by apply J_src]. }
        { split; [by apply survives_temp|]. rewrite lookup_insert_ne; [by apply J_src|].
          intros ->. by rewrite J_src in Hh. }
Qed.
End Move.

Lemma MoveUploadedFile_triple l bs ctx sp dp s0 rand src d c m x :
  base_ok l bs → nolinks s0 →
  clean_comps (join_below (BaseRoot l) sp) = src →
  clean_comps (join_below (BaseRoot l) dp) = d ++ [c] →
  src ≠ d ++ [c] → s0 !! src = Some (NFile m x) →
  (∀ n, c ≠ ".tmpcopy-" +:+ pretty (rand n)) →
  triple (survives src (d ++ [c]) (NFile m x) s0) (fun w => w_fs w = s0 ∧ w_rand w = rand)
    (MoveUploadedFile l ctx sp dp) (move_post s0 src d c m x).
Proof.
  intros Hb Hn Hs Hd Hne Hsrc Hc.
  assert (Forall normal src ∧ Forall normal (d ++ [c])) as [Hsn Hnorm].
  { rewrite <- Hs, <- Hd. destruct (base_ok_rooted _ _ Hb). by split; apply join_below_render. }
  apply Forall_app in Hnorm as [Hdn Hcn]. inversion_clear Hcn.
  assert (∀ e w, w_fs w = s0 → move_post s0 src d c m x (Err e) w) as Hnil.
  { intros e w Hw. unfold move_post. rewrite Hw. split; [|done]. split; [by left|done]. }
  unfold MoveUploadedFile, check_ctx. destruct (ctx_done ctx).
  { apply triple_throw. intros w [? ?]. by apply Hnil. }
  eapply triple_bind; [apply triple_rand; eapply triple_wrap; [by apply (sanitizeAndJoin_triple l bs)|done]| |].
  2:{ intros e w [[? _] ?]. by apply Hnil. }
  intros sf. apply triple_pure with (φ := sf = render true src) (P' := fun w => w_fs w = s0 ∧ w_rand w = rand).
  { intros w [[? ->] ?]. by rewrite Hs. }
  intros ->.
  eapply triple_bind; [apply triple_rand; eapply triple_wrap; [by apply (sanitizeAndJoin_triple l bs)|done]| |].
  2:{ intros e w [[? _] ?]. by apply Hnil. }
  intros df. apply triple_pure with (φ := df = render true (d ++ [c])) (P' := fun w => w_fs w = s0 ∧ w_rand w = rand).
  { intros w [[? ->] ?]. by rewrite Hd. }
  intros ->. rewrite Dir_render_snoc by done.
  eapply triple_bind with (Q := fun _ w => dirs_added d s0 (w_fs w) ∧ w_rand w = rand).
  { eapply triple_conseq; [apply triple_rand with (rand := rand), preserves_wrap,
      (preserves_MkdirAll d s0 d); [done|reflexivity]| |done|by apply J_survives].
    intros w [-> ?]. split; [|done]. split; [apply created_dirs_refl|done]. }
  2:{ intros e w [HJ _]. split; [by eapply J_survives|by eapply J_src]. }
  intros _ w [HJ Hr]. by eapply rename_or_copy_triple.
Qed.


(** ** Success *)

Lemma sanitizeAndJoin_run l bs parts w n ns :
  base_ok l bs → nolinks (w_fs w) → quiet w →
  clean_comps (join_below (BaseRoot l) parts) = bs ++ n :: ns → HasPrefix n ".." = false →
  sanitizeAndJoin l parts w = Some (Ok (render true (bs ++ n :: ns)), w).
Proof.
  intros Hb Hn Hq Hj Hdots. destruct (base_ok_rooted _ _ Hb) as [Hr Hc].
  destruct (join_below_render (BaseRoot l) parts Hr) as [Ej Hnorm]. rewrite Hj in Ej, Hnorm.
  unfold sanitizeAndJoin. rewrite Ej.
  assert (∃ r, EvalSymlinks (render true (bs ++ n :: ns)) w = Some (r, w) ∧
    match r with Ok f => f | Err _ => render true (bs ++ n :: ns) end = render true (bs ++ n :: ns))
    as (r & Er & Ef).
  { unfold EvalSymlinks. rewrite syscall_run, resolve_render by done.
    destruct (walk 255 _ _ _ _) as [e|k] eqn:Ew; [by eexists|].
    apply walk_nolinks in Ew; [|done..]. simpl in Ew. subst k.
    destruct (w_fs w !! (bs ++ n :: ns)); by eexists. }
  rewrite (try_run _ _ _ _ _ Er), Ef, (Rel_below _ _ (n :: ns)); [|done|done| |done].
  - destruct (HasPrefix (join_slash (n :: ns)) "..") eqn:E; [|done].
    apply HasPrefix_dotdot_names in E as (c & cs & ? & ?); [simplify_eq|].
    + congruence.
    + by apply Forall_app in Hnorm as [_ ?].
  - rewrite clean_comps_render by (by apply canonical_rooted). by rewrite Hc.
Qed.


(** ** Links *)

Lemma normal_parent k : Forall normal k → Forall normal (parent k).
Proof. apply Forall_take. Qed.

(** Whatever the links contain, resolution ends at a canonical location. *)
Lemma walk_normal links s follow cur rest l :
  Forall normal cur → Forall noslash rest → walk links s follow cur rest = inr l → Forall normal l.
Proof.
  revert cur rest. induction links as [|links IHl]; intros cur rest Hcur Hrest;
    (revert cur Hcur; induction Hrest as [|c rest Hc Hrest IH]; intros cur Hcur Hw;
     [rewrite walk_nil in Hw; by simplify_eq|]; rewrite walk_unfold in Hw;
     case_bool_decide as Hdot; [by eapply IH|];
     case_bool_decide as Hdd; [by eapply IH; [apply normal_parent|]|];
     assert (Forall normal (cur ++ [c])) as Hcc
       by (apply Forall_app; split; [done|]; constructor; [split_and!; tauto|done]);
     destruct (s !! (cur ++ [c])) as [[m|m x|t]|];
     [by eapply IH|by destruct rest; simplify_eq| |by destruct rest; simplify_eq]);
    destruct (_ && _); try by simplify_eq.
  eapply IHl; [| |exact Hw].
  - by destruct (rooted t).
  - apply Forall_app. split; [apply noslash_split_slash|done].
Qed.

(** Links are resolved before the check when the target exists: if the joined path
    leads to an existing entry [k], [sanitizeAndJoin] returns the physical location [k] itself
    and only if [k] is inside the base, so an existing target outside the base is refused
    however many links lead to it. *)
Theorem sanitizeAndJoin_existing l bs parts w k full w' :
  base_ok l bs → quiet w →
  resolve_at 255 w true (join_below (BaseRoot l) parts) = inr k → is_Some (w_fs w !! k) →
  sanitizeAndJoin l parts w = Some (Ok full, w') →
  full = render true k ∧ bs `prefix_of` k.
Proof.
  intros Hb Hq Hk [n Hn] Hs. destruct (base_ok_rooted _ _ Hb) as [Hr Hc].
  destruct (join_below_render (BaseRoot l) parts Hr) as [Ej Hnorm].
  assert (Forall normal k) as Hkn.
  { rewrite Ej, resolve_render in Hk by done. eapply (walk_normal _ _ _ []); [done| |exact Hk].
    by apply normal_noslash. }
  unfold sanitizeAndJoin in Hs.
  rewrite (try_run _ _ _ (Ok (render true k)) w) in Hs.
  2:{ unfold EvalSymlinks. by rewrite syscall_run, Hk, Hn. }
  cbv zeta iota in Hs. destruct (Rel (BaseRoot l) (render true k)) as [rel|e] eqn:Erel; [|done].
  destruct (HasPrefix rel "..") eqn:Ep; [done|]. unfold ret in Hs. simplify_eq. split; [done|].
  rewrite <- (clean_comps_render true k) by by apply canonical_rooted.
  by eapply Rel_inside.
Qed.

(** The base "/srv" with a link to "/etc" in it. *)
Definition linked_world : world :=
  mkWorld (<[["srv"; "pub"] := NLink "/etc"]> (<[["srv"] := NDir 493]> (<[["etc"; "passwd"] := NFile 420 "root"]>
    (<[["etc"] := NDir 493]> (<[[] := NDir 493]> ∅))))) [] N.of_nat 0 18 [] [].

(** The check does not cover a target that does not exist yet: resolution then fails,
    the unresolved path is checked instead, and a write through a link that leads out of the
    base creates the file outside the base and reports success. The same link is refused
    once the target exists. *)
Theorem AtomicWriteFile_new_target_escapes :
  let write parts := AtomicWriteFile (mkLocalFs "/srv") (mkCtx None None false) 420%N
                       (mkReader ["evil"] None) parts linked_world in
  (fun x => (x.1, w_fs x.2 !! ["etc"; "cron"])) <$> write ["pub"; "cron"] =
    Some (Ok tt, Some (NFile 420 "evil")) ∧
  (fun x => (x.1, w_fs x.2 !! ["etc"; "passwd"])) <$> write ["pub"; "passwd"] =
    Some (Err (ErrNew "path outside base root"), Some (NFile 420 "root")).
Proof. split; vm_compute; reflexivity. Qed.

(** ** Concrete instances *)

Lemma nolinks_empty : nolinks ∅.
Proof. intros l t. by rewrite lookup_empty. Qed.

Ltac solve_nolinks := repeat (apply nolinks_insert; [|done]); apply nolinks_empty.

(** The base "/srv" with one file; the calls fail as [faults] says. *)
Definition demo_fs : fs :=
  <[["srv"; "a"] := NFile 420 "hi"]> (<[["srv"] := NDir 493]> (<[[] := NDir 493]> ∅)).
Definition demo_world (faults : list (option errno)) : world :=
  mkWorld demo_fs faults N.of_nat 0 18 [] [].
Definition demo_local : LocalFs := mkLocalFs "/srv".
Definition demo_ctx : context := mkCtx None None false.

Lemma demo_base : base_ok demo_local ["srv"].
Proof. split; [|done]. repeat constructor; solve_normal. Qed.

Lemma demo_nolinks faults : nolinks (w_fs (demo_world faults)).
Proof. change (nolinks demo_fs). unfold demo_fs. solve_nolinks. Qed.

Lemma demo_tree_ok faults : tree_ok (w_fs (demo_world faults)).
Proof.
  change (tree_ok demo_fs). unfold demo_fs. apply (tree_ok_insert _ ["srv"] "a").
  - apply (tree_ok_insert _ [] "srv"); [split; [by eexists|]| |done].
    + intros k c n. rewrite lookup_insert_ne by (by destruct k). by rewrite lookup_empty.
    + intros k Hk. apply prefix_nil_inv in Hk. subst. by eexists.
  - intros k [r E]. destruct k as [|x [|y k]]; simplify_list_eq; by eexists.
  - done.
Qed.

Lemma sanitizeAndJoin_confined_witness :
  rooted "/srv/a" = true ∧ ["srv"] `prefix_of` clean_comps "/srv/a" ∧
  w_fs (demo_world []) = w_fs (demo_world []).
Proof.
  apply (sanitizeAndJoin_confined demo_local ["srv"] ["/x/.."; "/a"] (demo_world [])).
  - apply demo_base.
  - vm_compute. reflexivity.
Defined.

Lemma AtomicWriteFile_crash_safe_witness :
  let w := demo_world [None; None; None; None; Some ENOSPC] in
  ∃ r w', AtomicWriteFile demo_local demo_ctx 384 (mkReader ["x"; "y"] None) ["a"] w = Some (r, w') ∧
    evolves (atomic_at ["srv"; "a"] (NFile 384 "xy") (w_fs w)) w w' ∧
    match r with
    | Ok _ => @None error = None ∧ ∃ s1, created_dirs ["srv"] (w_fs w) s1 ∧ w_fs w' = <[["srv"; "a"] := NFile 384 "xy"]> s1
    | Err _ => w_fs w' !! ["srv"; "a"] = w_fs w !! ["srv"; "a"]
    end.
Proof.
  apply (AtomicWriteFile_crash_safe demo_local ["srv"] demo_ctx 384 (mkReader ["x"; "y"] None) ["a"]
    (demo_world [None; None; None; None; Some ENOSPC]) ["srv"] "a").
  - apply demo_base.
  - apply demo_nolinks.
  - reflexivity.
  - intros n. discriminate.
Defined.



Lemma sanitizeAndJoin_existing_witness :
  "/srv/a" = render true ["srv"; "a"] ∧ ["srv"] `prefix_of` ["srv"; "a"].
Proof.
  apply (sanitizeAndJoin_existing demo_local ["srv"] ["a"] (demo_world []) ["srv"; "a"] "/srv/a" (demo_world [])).
  - apply demo_base.
  - reflexivity.
  - reflexivity.
  - by eexists.
  - vm_compute. reflexivity.
Defined.
