(* ===== verification/Storage.v ===== *)
(** * The storage interface

    [internal/storage/storage.go]: the operations every backend offers, and what the code
    above it (object service, handlers, task processor) may rely on. The laws are a class, so
    that the clients are verified once against it and every backend discharges it. *)
From S2P Require Import Prelude GoStrings Jwt PosixFs.

#[local] Open Scope string_scope.
#[local] Open Scope nat_scope.
#[local] Open Scope list_scope.
#[local] Open Scope go_scope.

Record ObjectInfo := mkObjectInfo { Path : string; Size : Z; IsDir : bool }.

#[global] Instance ObjectInfo_eq_dec : EqDecision ObjectInfo.
Proof. solve_decision. Defined.

(** An [io.ReadCloser]: reading it to the end with a buffer of the given size, and closing
    it. *)
Record ReadCloser (W : Type) := mkReadCloser {
  rc_read : nat → prog W reader;
  rc_close : prog W unit
}.
Arguments mkReadCloser {W}.
Arguments rc_read {W}.
Arguments rc_close {W}.

(** The interface, over the state [W] of a backend. *)
Record Storage (W : Type) := mkStorage {
  st_CreateFolder : context → string → prog W unit;
  st_AtomicWrite : context → string → reader → prog W unit;
  st_Move : context → string → string → prog W unit;
  st_Delete : context → string → prog W unit;
  st_Exists : context → string → prog W bool;
  st_List : context → string → prog W (list ObjectInfo);
  st_Open : context → string → prog W (ReadCloser W)
}.
Arguments mkStorage {W}.
Arguments st_CreateFolder {W}.
Arguments st_AtomicWrite {W}.
Arguments st_Move {W}.
Arguments st_Delete {W}.
Arguments st_Exists {W}.
Arguments st_List {W}.
Arguments st_Open {W}.

(** ** What a backend promises *)

(** [obj w p] is the content the path [p] denotes in the state [w]; [st_inv] the states and
    [st_path] the paths the promise is about. "AtomicWrite writes content atomically: either
    full object exists at target, or it doesn't": after an error the target holds the old
    content or the whole new one. *)
Class StorageSpec {W : Type} (st : Storage W) (obj : W → string → option string) := {
  st_inv : W → Prop;
  st_path : string → Prop;
  AtomicWrite_law : ∀ ctx p r w, st_inv w → st_path p →
    ∃ res w', st_AtomicWrite st ctx p r w = Some (res, w') ∧ st_inv w' ∧
      match res with
      | Ok _ => read_end r = None ∧ obj w' p = Some (reader_data r)
      | Err _ => obj w' p = obj w p ∨ obj w' p = Some (reader_data r)
      end;
  (** Opening and reading change no content, and what is read to the end is the content. *)
  Open_law : ∀ ctx p w, st_inv w → st_path p →
    ∃ res w', st_Open st ctx p w = Some (res, w') ∧ st_inv w' ∧ (∀ q, obj w' q = obj w q) ∧
      match res with
      | Ok rc =>
          (∀ size, 0 < size → ∃ rr w2, rc_read rc size w' = Some (rr, w2) ∧ st_inv w2 ∧ (∀ q, obj w2 q = obj w q) ∧
             match rr with
             | Ok rd => read_end rd = None → obj w p = Some (reader_data rd)
             | Err _ => True
             end) ∧
          (∀ w2, st_inv w2 → ∃ rr w3, rc_close rc w2 = Some (rr, w3) ∧ st_inv w3 ∧ (∀ q, obj w3 q = obj w2 q))
      | Err _ => True
      end
}.
