(* ===== verification/LocalStorage.v ===== *)
(** * Local storage backends

    [internal/adapters/storage/local/local_storage.go], the backend the servers and the
    worker use; [internal/adapters/fs/local/local.go], used by the older worker; and
    [internal/fs/local_fs.go]. *)
From stdpp Require Import pretty.
From S2P Require Import Prelude GoStrings GoPath Jwt PosixFs LocalFs Storage.

#[local] Open Scope string_scope.
#[local] Open Scope nat_scope.
#[local] Open Scope list_scope.
#[local] Open Scope go_scope.

Module LocalStorage.
Record LocalStorage := mkLocalStorage { base : string }.

Definition New (base : string) : LocalStorage := mkLocalStorage base.

Definition full (l : LocalStorage) (p : string) : string :=
  let clean := Clean ("/" +:+ p) in
  Join [base l; clean].

Definition CreateFolder (l : LocalStorage) (ctx : context) (path : string) : prog world unit :=
  MkdirAll (full l path) 493%N.

Definition AtomicWrite (l : LocalStorage) (ctx : context) (path : string) (r : reader) : prog world unit :=
  let full := full l path in
  let dir := Dir full in
  do! MkdirAll dir 493%N in
  let! tmp := CreateTemp dir ".tmp-" in
  let '(tmpName, h) := tmp in
  let! c := attempt (Copy h r) in
  match c with
  | Err e => let! _ := attempt (Close h) in throw e
  | Ok _ => let! _ := attempt (Close h) in Rename tmpName full
  end.

Definition Move (l : LocalStorage) (ctx : context) (src dst : string) : prog world unit :=
  let srcF := full l src in
  let dstF := full l dst in
  do! MkdirAll (Dir dstF) 493%N in
  let! r := attempt (Rename srcF dstF) in
  match r with
  | Ok _ => ret tt
  | Err _ =>
      let! hin := PosixFs.Open srcF in
      with_defer (Close hin) (
        let! out := Create dstF in
        let! c := attempt (CopyFile out hin) in
        match c with
        | Err e => let! _ := attempt (Close out) in throw e
        | Ok _ => let! _ := attempt (Close out) in Remove srcF
        end)
  end.

Definition Delete (l : LocalStorage) (ctx : context) (path : string) : prog world unit :=
  RemoveAll (full l path).

Definition Exists (l : LocalStorage) (ctx : context) (path : string) : prog world bool :=
  let! r := attempt (Stat (full l path)) in
  match r with
  | Ok _ => ret true
  | Err e => if IsNotExist e then ret false else throw e
  end.

(** [FileInfo.Size]; the size of a directory is up to the platform. *)
Definition node_size (dir_size : Z) (n : node) : Z :=
  match n with
  | NDir _ => dir_size
  | NFile _ c => Z.of_nat (String.length c)
  | NLink t => Z.of_nat (String.length t)
  end.

(** One listed entry: [e.Info()] looks the entry up again, and its failure gives size 0. *)
Definition list_entry (dir_size : Z) (full prefix : string) (e : string * node) : prog world ObjectInfo :=
  let! info := attempt (Lstat (Join [full; e.1])) in
  ret (mkObjectInfo (Join [prefix; e.1])
         (match info with Ok n => node_size dir_size n | Err _ => 0%Z end)
         (is_dir e.2)).

Fixpoint list_entries (dir_size : Z) (full prefix : string) (es : list (string * node))
    : prog world (list ObjectInfo) :=
  match es with
  | [] => ret []
  | e :: es' =>
      let! o := list_entry dir_size full prefix e in
      let! os := list_entries dir_size full prefix es' in
      ret (o :: os)
  end.

Definition List (dir_size : Z) (l : LocalStorage) (ctx : context) (prefix : string)
    : prog world (list ObjectInfo) :=
  let full := full l prefix in
  let! entries := ReadDir full in
  list_entries dir_size full prefix entries.

Definition Open (l : LocalStorage) (ctx : context) (path : string) : prog world (ReadCloser world) :=
  let! h := PosixFs.Open (full l path) in
  ret (mkReadCloser (fun size => file_reader size h) (Close h)).

Definition storage (dir_size : Z) (l : LocalStorage) : Storage world :=
  mkStorage (CreateFolder l) (AtomicWrite l) (Move l) (Delete l) (Exists l) (List dir_size l) (Open l).
End LocalStorage.

(** ** The older adapter *)

Module OldLocal.
Record LocalFs := mkLocalFs { BaseRoot : string }.

Definition NewLocalFs (getwd : result string) (base : string) : result LocalFs :=
  if bool_decide (base = "") then Err (ErrNew "base required")
  else match Abs getwd base with
       | Err e => Err e
       | Ok abs => Ok (mkLocalFs (Clean abs))
       end.

Definition sanitizeAndJoin (l : LocalFs) (parts : list string) : result string :=
  let joined := Join parts in
  let clean := Clean joined in
  let clean := if IsAbs clean then TrimPrefix clean "/" else clean in
  let full := Join [BaseRoot l; clean] in
  match Rel (BaseRoot l) full with
  | Err e => Err e
  | Ok rel => if HasPrefix rel ".." then Err (ErrNew "outside base") else Ok full
  end.

Definition CreateFolder (l : LocalFs) (ctx : context) (parts : list string) : prog world unit :=
  let! full := lift (sanitizeAndJoin l parts) in
  MkdirAll full 493%N.

Definition AtomicWriteFile (l : LocalFs) (ctx : context) (perm : N) (data : string) (parts : list string)
    : prog world unit :=
  let! full := lift (sanitizeAndJoin l parts) in
  let dir := Dir full in
  do! MkdirAll dir 493%N in
  let! tmp := CreateTemp dir ".tmp-" in
  let '(tmpName, h) := tmp in
  let! c := attempt (write_chunk h data) in
  match c with
  | Err e => let! _ := attempt (Close h) in throw e
  | Ok _ =>
      let! _ := attempt (Close h) in
      do! Chmod tmpName perm in
      Rename tmpName full
  end.

Definition MoveUploadedFile (l : LocalFs) (ctx : context) (src dst : list string) : prog world unit :=
  let! srcF := lift (sanitizeAndJoin l src) in
  let! dstF := lift (sanitizeAndJoin l dst) in
  do! MkdirAll (Dir dstF) 493%N in
  let! r := attempt (Rename srcF dstF) in
  match r with
  | Ok _ => ret tt
  | Err _ =>
      let! hin := PosixFs.Open srcF in
      with_defer (Close hin) (
        let! out := Create dstF in
        with_defer (Close out) (
          do! CopyFile out hin in
          Remove srcF))
  end.

Definition Exists (l : LocalFs) (parts : list string) : prog world bool :=
  let! full := lift (sanitizeAndJoin l parts) in
  let! r := attempt (Stat full) in
  match r with
  | Ok _ => ret true
  | Err e => if IsNotExist e then ret false else throw e
  end.
End OldLocal.

(** ** The first version *)

Module FirstLocal.
Record LocalFS := mkLocalFS { Base : string }.

Definition NewLocalFS (b : string) : LocalFS := mkLocalFS b.

Definition full (l : LocalFS) (p : string) : string := Join [Base l; Clean ("/" +:+ p)].

Definition CreateFolder (l : LocalFS) (ctx : context) (p : string) : prog world unit :=
  MkdirAll (full l p) 493%N.

(** The errors of [os.Create], [io.Copy] and [Close] are ignored; copying to the nil file of
    a failed [os.Create] does nothing. *)
Definition AtomicWrite (l : LocalFS) (ctx : context) (p : string) (r : reader) : prog world unit :=
  let f := full l p in
  let t := f +:+ ".tmp" in
  let! o := attempt (Create t) in
  do! match o with
      | Ok h => let! _ := attempt (Copy h r) in let! _ := attempt (Close h) in ret tt
      | Err _ => ret tt
      end in
  Rename t f.
End FirstLocal.
