(* ===== verification/LocalStorageProps.v ===== *)
(** * Properties of the local storage backend

    Confinement, the storage contract (atomic writes, reads), and what happens on the paths
    the contract does not cover, for [internal/adapters/storage/local/local_storage.go]. *)
From stdpp Require Import pretty.
From S2P Require Import Prelude GoStrings GoPath Jwt PosixFs LocalFs CrashLogic FsTriples FsRuns LocalFsProps Storage LocalStorage.
Import LocalStorage.

#[local] Open Scope string_scope.
#[local] Open Scope nat_scope.
#[local] Open Scope list_scope.
#[local] Open Scope go_scope.

(** ** Confinement *)

Lemma full_comps l p :
  rooted (base l) = true → clean_comps (full l p) = clean_comps (base l) ++ clean_comps ("/" +:+ p).
Proof. intros Hb. unfold full. by rewrite clean_comps_join_rooted. Qed.

Lemma full_render l p :
  rooted (base l) = true →
  full l p = render true (clean_comps (full l p)) ∧ Forall normal (clean_comps (full l p)).
Proof.
  intros Hb. assert (rooted (full l p) = true) as Hr by by apply rooted_Join. split.
  - unfold full. rewrite <- (Join_clean (base l) _ Hb) at 1. fold (full l p).
    unfold Clean. by rewrite Hr.
  - by apply clean_comps_rooted_normal.
Qed.

(** The path of every request is resolved below the base: whatever the path contains
    ("..", absolute or empty elements), [full] is the base followed by the path read from the
    root, so ".." can never climb above the base. *)
Theorem full_confined l p :
  rooted (base l) = true →
  rooted (full l p) = true ∧ Clean (full l p) = full l p ∧
  clean_comps (full l p) = clean_comps (base l) ++ clean_comps ("/" +:+ p) ∧
  Forall normal (clean_comps ("/" +:+ p)).
Proof.
  intros Hb. split_and!.
  - by apply rooted_Join.
  - by apply Join_clean.
  - by apply full_comps.
  - by apply clean_comps_rooted_normal.
Qed.

(** ** Atomic writes *)

(** The content of the file at a location. *)
Definition content (s : fs) (t : loc) : option string :=
  match s !! t with Some (NFile _ x) => Some x | _ => None end.

(** As [atomic_at], for a file whose mode is that of the temporary file. *)
Definition atomic_content (t : loc) (data : string) (s0 s : fs) : Prop := ∃ m, atomic_at t (NFile m data) s0 s.

(** Copy into the temporary file, close it and rename it over the target; a failed copy
    leaves it behind. *)
Lemma copy_and_rename_triple h t s1 I m r :
  nolinks s1 → s1 !! h = None → Forall normal h → Forall normal t → h ≠ t →
  (∀ m x, I (<[h := NFile m x]> s1)) → I (<[t := NFile m (reader_data r)]> s1) →
  triple I (temp_at h s1 m "")
    (let! c := attempt (Copy h r) in
     match c with
     | Err e => let! _ := attempt (Close h) in throw e
     | Ok _ => let! _ := attempt (Close h) in Rename (render true h) (render true t)
     end)
    (fun res w => match res with
       | Ok _ => read_end r = None ∧ w_fs w = <[t := NFile m (reader_data r)]> s1
       | Err _ => temp_some h s1 w end).
Proof.
  intros Hn Hh Hhn Htn Hne HI HId. eapply triple_try; [by apply Copy_triple|]. intros [?|e].
  - apply triple_pure with (φ := read_end r = None) (P' := temp_at h s1 m (reader_data r)); [done|].
    intros Hend. eapply triple_try; [by apply (Close_keep h I (temp_at h s1 m (reader_data r)))|intros ?].
    eapply triple_conseq; [by apply (Rename_triple h s1 I)|done| |done].
    intros [] w Hw; [done|by eexists _, _].
  - eapply triple_try; [by apply (Close_keep h I (temp_some h s1))|intros ?]. by apply triple_throw.
Qed.

(** Where [AtomicWrite] may end. *)
Definition write_post (rand : nat → N) (d : loc) (c : string) (data : reader) (s0 : fs)
    (r : result unit) (w : world) : Prop :=
  ∃ s1, dirs_added d s0 s1 ∧
  match r with
  | Ok _ => read_end data = None ∧ ∃ m, w_fs w = <[d ++ [c] := NFile m (reader_data data)]> s1
  | Err _ => w_fs w = s1 ∨ ∃ h, temp_loc rand d ".tmp-" h ∧ s1 !! h = None ∧ temp_some h s1 w
  end.

Lemma AtomicWrite_triple l ctx p data s0 rand d c :
  rooted (base l) = true → nolinks s0 → clean_comps (full l p) = d ++ [c] →
  (∀ n, c ≠ ".tmp-" +:+ pretty (rand n)) →
  triple (atomic_content (d ++ [c]) (reader_data data) s0) (fun w => w_fs w = s0 ∧ w_rand w = rand)
    (AtomicWrite l ctx p data) (write_post rand d c data s0).
Proof.
  intros Hb Hn Hf Htmp. destruct (full_render l p Hb) as [Er Hnorm]. rewrite Hf in Er, Hnorm.
  assert (Forall normal d ∧ normal c) as [Hd Hc]
    by (apply Forall_app in Hnorm as [? Hx]; by inversion Hx).
  set (I := atomic_content (d ++ [c]) (reader_data data) s0).
  assert (∀ m s, dirs_added d s0 s → atomic_at (d ++ [c]) (NFile m (reader_data data)) s0 s) as Hat
    by (intros m s [? _]; by apply atomic_at_dirs).
  assert (∀ h, temp_loc rand d ".tmp-" h → h ≠ d ++ [c]) as Hne.
  { intros h [n ->] E. simplify_list_eq. by eapply Htmp. }
  unfold AtomicWrite. rewrite Er, Dir_render_snoc by done.
  eapply triple_bind with (Q := fun _ w => dirs_added d s0 (w_fs w) ∧ w_rand w = rand).
  { eapply triple_conseq; [apply triple_rand with (rand := rand), (preserves_MkdirAll d s0 d);
      [done|reflexivity]| |done|intros s ?; exists 0%N; by apply Hat].
    intros w [-> ?]. split; [|done]. split; [apply created_dirs_refl|done]. }
  2:{ intros e w [? _]. exists (w_fs w). auto. }
  intros _. apply (with_temp_triple rand d ".tmp-" (dirs_added d s0) I id
    (fun tmpName h => let! c0 := attempt (Copy h data) in match c0 with
       | Err e => let! _ := attempt (Close h) in throw e
       | Ok _ => let! _ := attempt (Close h) in Rename tmpName (render true (d ++ [c])) end)).
  - by left.
  - done.
  - split; [done|simpl; lia].
  - by intros s [].
  - intros s h n HJ Hh Hs. exists 0%N. apply atomic_at_temp; auto.
  - intros e w HJ. exists (w_fs w). auto.
  - intros h s1 m Hh Hhn HJ Hs1.
    eapply triple_conseq; [apply (copy_and_rename_triple h (d ++ [c]) s1 I m)| | |]; auto.
    + apply HJ.
    + intros m' x. exists 0%N. apply atomic_at_temp; auto.
    + exists m. apply atomic_at_done. auto.
    + intros [] w Hw; exists s1; split; [done| |done|].
      * destruct Hw as [? ?]. split; [done|by eexists].
      * right. exists h. auto.
Qed.

Lemma write_post_content rand d c data s0 r w :
  (∀ n, c ≠ ".tmp-" +:+ pretty (rand n)) → write_post rand d c data s0 r w →
  nolinks (w_fs w) ∧
  content (w_fs w) (d ++ [c]) = if is_ok r then Some (reader_data data) else content s0 (d ++ [c]).
Proof.
  intros Hc (s1 & [Hd Hn] & Hr). unfold content. rewrite <- (created_dirs_below d s0 s1 c Hd).
  destruct r as [u|e]; simpl.
  - destruct Hr as (_ & m & ->). rewrite lookup_insert_eq. by split; [apply nolinks_insert|].
  - destruct Hr as [->|(h & [n ->] & Hh & m & x & Hw)]; [done|]. rewrite Hw.
    split; [by apply nolinks_insert|]. rewrite lookup_insert_ne; [done|].
    intros E. simplify_list_eq. by eapply Hc.
Qed.

(** C19: [AtomicWrite] keeps the promise of the storage interface on local disks: at every
    moment, under any failures, the target holds its old node or the whole new content and no
    other existing entry changes; success means the content is in place, an error that the
    target is unchanged (a temporary file may be left beside it). *)
Theorem AtomicWrite_atomic l ctx p data w d c :
  rooted (base l) = true → nolinks (w_fs w) → clean_comps (full l p) = d ++ [c] →
  (∀ n, c ≠ ".tmp-" +:+ pretty (w_rand w n)) →
  ∃ r w', AtomicWrite l ctx p data w = Some (r, w') ∧
    evolves (atomic_content (d ++ [c]) (reader_data data) (w_fs w)) w w' ∧
    match r with
    | Ok _ => read_end data = None ∧ content (w_fs w') (d ++ [c]) = Some (reader_data data)
    | Err _ => w_fs w' !! (d ++ [c]) = w_fs w !! (d ++ [c])
    end.
Proof.
  intros Hb Hn Hf Hc.
  destruct (AtomicWrite_triple l ctx p data (w_fs w) (w_rand w) d c) with (w := w)
    as (r & w' & E & Hq & Hev); try done.
  exists r, w'. split; [done|]. split; [done|].
  pose proof (write_post_content _ _ _ _ _ _ _ Hc Hq) as [_ Hcont].
  destruct Hq as (s1 & [Hd _] & Hr). destruct r as [u|e]; simpl in *; [by destruct Hr|].
  rewrite <- (created_dirs_below d (w_fs w) s1 c Hd).
  destruct Hr as [->|(h & [n ->] & Hh & m & x & Hw)]; [done|]. rewrite Hw.
  apply lookup_insert_ne. intros E'. simplify_list_eq. by eapply Hc.
Qed.

(** ** The storage contract *)

Section Contract.
Context (dir_size : Z) (l : LocalStorage) (rand : nat → N).
Context (base_rooted : rooted (base l) = true).

Definition local_obj (w : world) (p : string) : option string :=
  content (w_fs w) (clean_comps (full l p)).

(** Trees without links. *)
Definition local_inv (w : world) : Prop := nolinks (w_fs w) ∧ w_rand w = rand.

(** Paths below the base whose last element is not the name of a temporary file. *)
Definition local_path (p : string) : Prop :=
  ∃ d c, clean_comps (full l p) = d ++ [c] ∧ ∀ n, c ≠ ".tmp-" +:+ pretty (rand n).

Lemma local_AtomicWrite_law ctx p r w :
  local_inv w → local_path p →
  ∃ res w', AtomicWrite l ctx p r w = Some (res, w') ∧ local_inv w' ∧
    match res with
    | Ok _ => read_end r = None ∧ local_obj w' p = Some (reader_data r)
    | Err _ => local_obj w' p = local_obj w p ∨ local_obj w' p = Some (reader_data r)
    end.
Proof.
  intros [Hn Hr] (d & c & Hf & Hc). unfold local_obj. rewrite Hf.
  destruct (AtomicWrite_triple l ctx p r (w_fs w) rand d c) with (w := w) as (res & w' & E & Hq & Hev);
    try done.
  pose proof (write_post_content _ _ _ _ _ _ _ Hc Hq) as [Hn' Hcont].
  exists res, w'. split; [done|]. split.
  - split; [done|]. destruct Hev as [(-> & _) _]. done.
  - destruct res; simpl in Hcont; [|by left]. split; [|done]. by destruct Hq as (? & _ & ? & _).
Qed.

Lemma file_reader_run size h w :
  0 < size → ∃ rr w', file_reader size h w = Some (rr, w') ∧ w_fs w' = w_fs w ∧ w_rand w' = w_rand w ∧
    match rr with Ok rd => read_end rd = None → content (w_fs w) h = Some (reader_data rd) | Err _ => True end.
Proof.
  intros Hsize. set (P := fun w' => w_fs w' = w_fs w).
  destruct (w_fs w !! h) as [n|] eqn:E.
  - destruct (file_reader_triple (fun _ => True) P size h n) with (w := w)
      as (r & w' & Er & [Hw Hr] & [(Hrand & _) _]); [done|by intros w1 ->|done|].
    exists r, w'. split_and!; [done..|]. destruct r as [rd|e]; [|done]. intros Hend.
    destruct Hr as (m & c & -> & Hrd). unfold content. rewrite E. f_equal. symmetry. by eapply read_of_data.
  - unfold file_reader. rewrite E. unfold syscall. destruct (head (w_faults w)) as [[e|]|]; by eexists _, _.
Qed.

Lemma local_Open_law ctx p w :
  local_inv w → local_path p →
  ∃ res w', Open l ctx p w = Some (res, w') ∧ local_inv w' ∧ (∀ q, local_obj w' q = local_obj w q) ∧
    match res with
    | Ok rc =>
        (∀ size, 0 < size → ∃ rr w2, rc_read rc size w' = Some (rr, w2) ∧ local_inv w2 ∧ (∀ q, local_obj w2 q = local_obj w q) ∧
           match rr with
           | Ok rd => read_end rd = None → local_obj w p = Some (reader_data rd)
           | Err _ => True
           end) ∧
        (∀ w2, local_inv w2 → ∃ rr w3, rc_close rc w2 = Some (rr, w3) ∧ local_inv w3 ∧
           (∀ q, local_obj w3 q = local_obj w2 q))
    | Err _ => True
    end.
Proof.
  intros [Hn Hr] Hp. destruct (full_render l p base_rooted) as [Er Hnorm].
  destruct (Open_file_triple (fun _ => True) (w_fs w) (clean_comps (full l p)) Hn Hnorm w eq_refl)
    as (res & w' & E & [Hw Hh] & [(Hrand & _) _]).
  unfold Open. rewrite Er. unfold bind. rewrite E. unfold local_inv, local_obj.
  destruct res as [h|e]; eexists _, w'; (split; [done|]); rewrite Hw, Hrand; [|done]. subst h.
  split; [done|]. split; [done|]. split; simpl.
  - intros size Hsize. destruct (file_reader_run size (clean_comps (full l p)) w' Hsize) as (rr & w2 & E2 & Hw2 & Hr2 & Hrr).
    exists rr, w2. rewrite Hw2, Hr2, Hrand, Hw in *. split_and!; try done.
  - intros w2 Hi2. unfold Close, syscall.
    destruct (head (w_faults w2)) as [[e|]|]; by eexists _, _.
Qed.

#[export] Instance local_storage_spec : StorageSpec (storage dir_size l) local_obj :=
  Build_StorageSpec world (storage dir_size l) local_obj local_inv local_path
    local_AtomicWrite_law local_Open_law.
End Contract.

(** ** Moves *)

(** "/srv/d" is a directory, "/srv/a" and "/srv/b" are files. *)
Definition busy_world (faults : list (option errno)) : world :=
  mkWorld (<[["srv"; "d"] := NDir 493]> (<[["srv"; "b"] := NFile 420 "old"]> demo_fs)) faults N.of_nat 0 18 [] [].

(** [Move] falls back to truncating the destination in place. Moving a directory onto a
    file, with no failing call at all, reports an error and empties the file; so does a
    cross-device move of a file that runs out of space. The hardened file system of fs.go
    keeps the destination in both cases. *)
Theorem Move_fallback_truncates :
  let at_b (x : result unit * world) := (x.1, w_fs x.2 !! ["srv"; "b"]) in
  at_b <$> Move (New "/srv") demo_ctx "/d" "/b" (busy_world []) =
    Some (Err (ErrOs "read" EISDIR), Some (NFile 420 "")) ∧
  at_b <$> MoveUploadedFile demo_local demo_ctx ["d"] ["b"] (busy_world []) =
    Some (Err (ErrWrap "copy fallback failed" (ErrWrap "copy data failed" (ErrOs "read" EISDIR))),
          Some (NFile 420 "old")) ∧
  at_b <$> Move (New "/srv") demo_ctx "/a" "/b"
      (busy_world [None; None; Some EXDEV; None; None; None; None; Some ENOSPC]) =
    Some (Err (ErrOs "write" ENOSPC), Some (NFile 420 "")) ∧
  at_b <$> MoveUploadedFile demo_local demo_ctx ["a"] ["b"]
      (busy_world [None; None; None; None; Some EXDEV; None; None; None; None; None; Some ENOSPC]) =
    Some (Err (ErrWrap "copy fallback failed" (ErrWrap "copy data failed" (ErrOs "write" ENOSPC))),
          Some (NFile 420 "old")).
Proof. split_and!; vm_compute; reflexivity. Qed.

(** ** Concrete instances *)

Lemma full_confined_witness :
  rooted "/srv/etc/x" = true ∧ Clean "/srv/etc/x" = "/srv/etc/x" ∧
  clean_comps "/srv/etc/x" = ["srv"] ++ ["etc"; "x"] ∧ Forall normal ["etc"; "x"].
Proof. apply (full_confined (New "/srv") "../..//etc/./x"). reflexivity. Defined.

Lemma AtomicWrite_atomic_witness :
  let w := demo_world [None; None; Some EIO] in
  ∃ r w', AtomicWrite (New "/srv") demo_ctx "/../a" (mkReader ["x"; "y"] None) w = Some (r, w') ∧
    evolves (atomic_content ["srv"; "a"] "xy" (w_fs w)) w w' ∧
    match r with
    | Ok _ => @None error = None ∧ content (w_fs w') ["srv"; "a"] = Some "xy"
    | Err _ => w_fs w' !! ["srv"; "a"] = w_fs w !! ["srv"; "a"]
    end.
Proof.
  apply (AtomicWrite_atomic (New "/srv") demo_ctx "/../a" (mkReader ["x"; "y"] None)
    (demo_world [None; None; Some EIO]) ["srv"] "a").
  - reflexivity.
  - apply demo_nolinks.
  - reflexivity.
  - intros n. discriminate.
Defined.
