(* ===== verification/OldLocalProps.v ===== *)
(** * Properties of the older local adapter

    [internal/adapters/fs/local/local.go] and the interface it implements,
    [internal/fs/filesystem.go]. *)
From stdpp Require Import pretty.
From S2P Require Import Prelude GoStrings GoPath Jwt PosixFs LocalFs CrashLogic FsTriples FsRuns LocalFsProps Storage LocalStorage LocalStorageProps.
Import OldLocal.

#[local] Open Scope string_scope.
#[local] Open Scope nat_scope.
#[local] Open Scope list_scope.
#[local] Open Scope go_scope.

(** ** The interface *)

Record FileSystem (W : Type) := mkFileSystem {
  fs_CreateFolder : context → list string → prog W unit;
  fs_AtomicWriteFile : context → N → string → list string → prog W unit;
  fs_MoveUploadedFile : context → list string → list string → prog W unit;
  fs_Exists : list string → prog W bool
}.
Arguments mkFileSystem {W}.
Arguments fs_CreateFolder {W}.
Arguments fs_AtomicWriteFile {W}.
Arguments fs_MoveUploadedFile {W}.
Arguments fs_Exists {W}.

(** The older adapter has exactly its methods. *)
Definition file_system (l : OldLocal.LocalFs) : FileSystem world :=
  mkFileSystem (CreateFolder l) (AtomicWriteFile l) (MoveUploadedFile l) (Exists l).

(** ** Confinement *)

Definition old_base (l : OldLocal.LocalFs) (bs : loc) : Prop := Forall normal bs ∧ BaseRoot l = render true bs.

Lemma sanitizeAndJoin_below l bs parts full :
  old_base l bs → sanitizeAndJoin l parts = Ok full →
  ∃ ks, full = render true (bs ++ ks) ∧ Forall normal (bs ++ ks) ∧ full = join_below (BaseRoot l) parts.
Proof.
  intros [Hn Hb] Hs. assert (rooted (BaseRoot l) = true) as Hr by by rewrite Hb.
  unfold sanitizeAndJoin in Hs. cbv zeta in Hs. fold (join_below (BaseRoot l) parts) in Hs.
  destruct (Rel (BaseRoot l) (join_below (BaseRoot l) parts)) as [rel|] eqn:Erel; [|done].
  destruct (HasPrefix rel "..") eqn:Ep; [done|]. injection Hs as <-.
  destruct (join_below_render (BaseRoot l) parts Hr) as [Ej Hj].
  assert (clean_comps (BaseRoot l) `prefix_of` clean_comps (join_below (BaseRoot l) parts)) as Hpre
    by (eapply Rel_inside; [..|done|done]; [done|by apply rooted_join_below]).
  destruct Hpre as [ks Hks]. exists ks.
  assert (clean_comps (BaseRoot l) = bs) as Hbs by (rewrite Hb; by apply clean_comps_render, canonical_rooted).
  rewrite Hbs in Hks. by rewrite <- Hks.
Qed.

(** ** Atomic writes *)

(** Write into the temporary file, close it, set its mode and rename it over the target; on a
    failure it stays. *)
Lemma chunk_and_rename_triple h t s1 I m perm data :
  nolinks s1 → s1 !! h = None → Forall normal h → Forall normal t → h ≠ t →
  (∀ m x, I (<[h := NFile m x]> s1)) → I (<[t := NFile perm data]> s1) →
  triple I (temp_at h s1 m "")
    (let! c := attempt (write_chunk h data) in
     match c with
     | Err e => let! _ := attempt (Close h) in throw e
     | Ok _ =>
         let! _ := attempt (Close h) in
         do! Chmod (render true h) perm in
         Rename (render true h) (render true t)
     end)
    (fun res w => match res with
       | Ok _ => w_fs w = <[t := NFile perm data]> s1
       | Err _ => temp_some h s1 w end).
Proof.
  intros Hn Hh Hhn Htn Hne HI HId. eapply triple_try; [by apply (write_chunk_triple h s1)|]. intros [?|e].
  - eapply triple_try; [by apply (Close_keep h I (temp_at h s1 m data))|intros ?].
    eapply triple_bind; [by apply (Chmod_triple h s1 I)|intros ?|intros e w Hw; by exists m, data].
    eapply triple_conseq; [by apply (Rename_triple h s1 I)|done| |done].
    intros [] w Hw; [done|by eexists _, _].
  - eapply triple_try; [by apply (Close_keep h I (temp_at h s1 m ""))|intros ?].
    apply triple_throw. intros w Hw. by exists m, "".
Qed.

(** Where the write may end. *)
Definition old_write_post (rand : nat → N) (d t : loc) (new : node) (s0 : fs) (r : result unit) (w : world) : Prop :=
  ∃ s1, dirs_added d s0 s1 ∧
  match r with
  | Ok _ => w_fs w = <[t := new]> s1
  | Err _ => w_fs w = s1 ∨ ∃ h, temp_loc rand d ".tmp-" h ∧ s1 !! h = None ∧ temp_some h s1 w
  end.

Lemma old_write_triple rand s0 d c perm data :
  nolinks s0 → Forall normal d → normal c → (∀ n, c ≠ ".tmp-" +:+ pretty (rand n)) →
  triple (atomic_at (d ++ [c]) (NFile perm data) s0) (fun w => w_fs w = s0 ∧ w_rand w = rand)
    (do! MkdirAll (render true d) 493%N in
     let! tmp := CreateTemp (render true d) ".tmp-" in
     let '(tmpName, h) := tmp in
     let! c' := attempt (write_chunk h data) in
     match c' with
     | Err e => let! _ := attempt (Close h) in throw e
     | Ok _ =>
         let! _ := attempt (Close h) in
         do! Chmod tmpName perm in
         Rename tmpName (render true (d ++ [c]))
     end)
    (old_write_post rand d (d ++ [c]) (NFile perm data) s0).
Proof.
  intros Hn Hd Hc Htmp. set (I := atomic_at (d ++ [c]) (NFile perm data) s0).
  assert (∀ s, dirs_added d s0 s → I s) as HJI by (intros s [? _]; by apply atomic_at_dirs).
  assert (∀ h, temp_loc rand d ".tmp-" h → h ≠ d ++ [c]) as Hne.
  { intros h [n ->] E. simplify_list_eq. by eapply Htmp. }
  eapply triple_bind with (Q := fun _ w => dirs_added d s0 (w_fs w) ∧ w_rand w = rand).
  { eapply triple_conseq; [apply triple_rand with (rand := rand), (preserves_MkdirAll d s0 d);
      [done|reflexivity]| |done|exact HJI].
    intros w [-> ?]. split; [|done]. split; [apply created_dirs_refl|done]. }
  2:{ intros e w [? _]. exists (w_fs w). auto. }
  intros _. apply (with_temp_triple rand d ".tmp-" (dirs_added d s0) I id
    (fun tmpName h => let! c' := attempt (write_chunk h data) in match c' with
       | Err e => let! _ := attempt (Close h) in throw e
       | Ok _ => let! _ := attempt (Close h) in do! Chmod tmpName perm in Rename tmpName (render true (d ++ [c])) end)).
  - by left.
  - done.
  - split; [done|simpl; lia].
  - by intros s [].
  - intros s h n HJ Hh Hs. apply atomic_at_temp; [by apply HJI|done|by apply Hne].
  - intros e w HJ. exists (w_fs w). auto.
  - intros h s1 m Hh Hhn HJ Hs1.
    eapply triple_conseq; [apply (chunk_and_rename_triple h (d ++ [c]) s1 I m)| | |]; auto.
    + apply HJ.
    + apply Forall_app. by split; [|constructor].
    + intros m' x. apply atomic_at_temp; [by apply HJI|done|by apply Hne].
    + by apply atomic_at_done, HJI.
    + intros [] w Hw; exists s1; (split; [done|]); [done|]. right. exists h. auto.
Qed.

(** C39: Where and how the older adapter writes. Whatever the parts are, either they are refused
    and nothing happens, or they name a place below the base. On a disk without symbolic links
    the write to that place always returns, under any failures; at every moment the target is as
    it was or complete, with its mode, and no other existing entry changes; success means
    complete, an error that the target is as it was. With links this does not confine the
    write, because they are not resolved before it: through a link "/srv/pub" to "/etc" a write
    below the base "/srv" replaces a file of "/etc", and reports success. *)
Theorem old_AtomicWriteFile_atomic l bs ctx perm data parts w :
  old_base l bs →
  match sanitizeAndJoin l parts with
  | Err e => fs_AtomicWriteFile (file_system l) ctx perm data parts w = Some (Err e, w)
  | Ok full =>
      ∃ ks, full = render true (bs ++ ks) ∧ Forall normal (bs ++ ks) ∧
      (nolinks (w_fs w) →
       ∀ d c, bs ++ ks = d ++ [c] → (∀ n, c ≠ ".tmp-" +:+ pretty (w_rand w n)) →
       ∃ r w', fs_AtomicWriteFile (file_system l) ctx perm data parts w = Some (r, w') ∧
         evolves (atomic_at (d ++ [c]) (NFile perm data) (w_fs w)) w w' ∧
         w_fs w' !! (d ++ [c]) = match r with Ok _ => Some (NFile perm data) | Err _ => w_fs w !! (d ++ [c]) end)
  end ∧
  (fun x => (x.1, w_fs x.2 !! ["etc"; "passwd"])) <$>
    fs_AtomicWriteFile (file_system (OldLocal.mkLocalFs "/srv")) ctx 420%N "evil" ["pub"; "passwd"] linked_world =
    Some (Ok tt, Some (NFile 420 "evil")).
Proof.
  intros Hb. split; [|vm_compute; reflexivity]. cbn [file_system fs_AtomicWriteFile]. unfold AtomicWriteFile.
  destruct (sanitizeAndJoin l parts) as [full|e] eqn:Es; [|done].
  destruct (sanitizeAndJoin_below l bs parts full Hb Es) as (ks & -> & Hnorm & _). exists ks. split_and!; [done..|].
  intros Hn d c E Hc. rewrite E in *.
  assert (Forall normal d ∧ normal c) as [Hd Hc'] by (apply Forall_app in Hnorm as [? Hx]; by inversion Hx).
  destruct (old_write_triple (w_rand w) (w_fs w) d c perm data Hn Hd Hc' Hc w) as (r & w' & Er & Hq & Hev); [done|].
  exists r, w'. split; [|split; [done|]].
  - unfold bind at 1, lift at 1. cbv beta iota zeta. rewrite Dir_render_snoc by done. exact Er.
  - destruct Hq as (s1 & [Hdirs _] & Hr). rewrite <- (created_dirs_below d (w_fs w) s1 c Hdirs).
    destruct r as [u|e]; [rewrite Hr; apply lookup_insert_eq|].
    destruct Hr as [->|(h & [n ->] & Hh & m & x & Hw)]; [done|]. rewrite Hw.
    apply lookup_insert_ne. intros E'. simplify_list_eq. by eapply Hc.
Qed.

Definition demo_old : OldLocal.LocalFs := OldLocal.mkLocalFs "/srv".

Lemma old_AtomicWriteFile_atomic_witness :
  let w := demo_world [None; None; None; Some ENOSPC] in
  ∃ ks, "/srv/d/b" = render true (["srv"] ++ ks) ∧ Forall normal (["srv"] ++ ks) ∧
    ∀ d c, ["srv"] ++ ks = d ++ [c] → (∀ n, c ≠ ".tmp-" +:+ pretty (w_rand w n)) →
    ∃ r w', fs_AtomicWriteFile (file_system demo_old) demo_ctx 384%N "xy" ["d/../d"; "b"] w = Some (r, w') ∧
      evolves (atomic_at (d ++ [c]) (NFile 384 "xy") (w_fs w)) w w' ∧
      w_fs w' !! (d ++ [c]) = match r with Ok _ => Some (NFile 384 "xy") | Err _ => w_fs w !! (d ++ [c]) end.
Proof.
  intros w. destruct (old_AtomicWriteFile_atomic demo_old ["srv"] demo_ctx 384%N "xy" ["d/../d"; "b"] w) as [H _];
    [split; [repeat constructor; solve_normal|reflexivity]|].
  change (sanitizeAndJoin demo_old ["d/../d"; "b"]) with (Ok "/srv/d/b") in H. destruct H as (ks & E & Hk & H).
  exists ks. split; [exact E|]. split; [exact Hk|]. apply H, demo_nolinks.
Defined.
