(* ===== verification/Confined.v ===== *)
(** * The local backends stay below their base

    Any sequence of calls of the four implementations of internal/adapters/storage/local,
    internal/filesystem/fs.go, internal/adapters/fs/local and internal/fs, over one base
    directory and a disk without symbolic links: what may change outside the base, at every
    moment and under every failure. *)
From stdpp Require Import pretty sorting.
From S2P Require Import Prelude GoStrings GoPath Jwt Authz PosixFs LocalFs CrashLogic FsTriples FsRuns FsInvariant LocalFsProps Storage LocalStorage LocalStorageProps OldLocalProps.

#[local] Open Scope string_scope.
#[local] Open Scope nat_scope.
#[local] Open Scope list_scope.
#[local] Open Scope go_scope.

(** A call of one of the four implementations, with all its arguments. *)
Inductive fs_call :=
  | FsCreateFolder (l : LocalFs) (ctx : context) (parts : list string)
  | FsAtomicWriteFile (l : LocalFs) (ctx : context) (perm : N) (data : reader) (parts : list string)
  | FsMoveUploadedFile (l : LocalFs) (ctx : context) (src dst : list string)
  | FsExists (l : LocalFs) (parts : list string)
  | StCreateFolder (l : LocalStorage.LocalStorage) (ctx : context) (p : string)
  | StAtomicWrite (l : LocalStorage.LocalStorage) (ctx : context) (p : string) (r : reader)
  | StMove (l : LocalStorage.LocalStorage) (ctx : context) (src dst : string)
  | StDelete (l : LocalStorage.LocalStorage) (ctx : context) (p : string)
  | StExists (l : LocalStorage.LocalStorage) (ctx : context) (p : string)
  | StList (dir_size : Z) (l : LocalStorage.LocalStorage) (ctx : context) (prefix : string)
  | StRead (size : nat) (l : LocalStorage.LocalStorage) (ctx : context) (p : string)
  | OldCreateFolder (l : OldLocal.LocalFs) (ctx : context) (parts : list string)
  | OldAtomicWriteFile (l : OldLocal.LocalFs) (ctx : context) (perm : N) (data : string) (parts : list string)
  | OldMoveUploadedFile (l : OldLocal.LocalFs) (ctx : context) (src dst : list string)
  | OldExists (l : OldLocal.LocalFs) (parts : list string)
  | FirstCreateFolder (l : FirstLocal.LocalFS) (ctx : context) (p : string)
  | FirstAtomicWrite (l : FirstLocal.LocalFS) (ctx : context) (p : string) (r : reader).

Definition run_call (c : fs_call) : prog world unit :=
  match c with
  | FsCreateFolder l ctx parts => CreateFolder l ctx parts
  | FsAtomicWriteFile l ctx perm data parts => AtomicWriteFile l ctx perm data parts
  | FsMoveUploadedFile l ctx src dst => MoveUploadedFile l ctx src dst
  | FsExists l parts => do! Exists l parts in ret tt
  | StCreateFolder l ctx p => LocalStorage.CreateFolder l ctx p
  | StAtomicWrite l ctx p r => LocalStorage.AtomicWrite l ctx p r
  | StMove l ctx src dst => LocalStorage.Move l ctx src dst
  | StDelete l ctx p => LocalStorage.Delete l ctx p
  | StExists l ctx p => do! LocalStorage.Exists l ctx p in ret tt
  | StList dir_size l ctx prefix => do! LocalStorage.List dir_size l ctx prefix in ret tt
  | StRead size l ctx p =>
      let! rc := LocalStorage.Open l ctx p in
      with_defer (rc_close rc) (do! rc_read rc size in ret tt)
  | OldCreateFolder l ctx parts => OldLocal.CreateFolder l ctx parts
  | OldAtomicWriteFile l ctx perm data parts => OldLocal.AtomicWriteFile l ctx perm data parts
  | OldMoveUploadedFile l ctx src dst => OldLocal.MoveUploadedFile l ctx src dst
  | OldExists l parts => do! OldLocal.Exists l parts in ret tt
  | FirstCreateFolder l ctx p => FirstLocal.CreateFolder l ctx p
  | FirstAtomicWrite l ctx p r => FirstLocal.AtomicWrite l ctx p r
  end.

(** The calls one after the other, whatever each of them reports. *)
Fixpoint run_calls (cs : list fs_call) : prog world (list (result unit)) :=
  match cs with
  | [] => ret []
  | c :: cs' =>
      let! r := attempt (run_call c) in
      let! rs := run_calls cs' in
      ret (r :: rs)
  end.

(** The base directory of the implementation that is called. *)
Definition call_base (c : fs_call) : string :=
  match c with
  | FsCreateFolder l _ _ | FsAtomicWriteFile l _ _ _ _ | FsMoveUploadedFile l _ _ _ | FsExists l _ => BaseRoot l
  | StCreateFolder l _ _ | StAtomicWrite l _ _ _ | StMove l _ _ _ | StDelete l _ _
  | StExists l _ _ | StList _ l _ _ | StRead _ l _ _ => LocalStorage.base l
  | OldCreateFolder l _ _ | OldAtomicWriteFile l _ _ _ _ | OldMoveUploadedFile l _ _ _ | OldExists l _ => OldLocal.BaseRoot l
  | FirstCreateFolder l _ _ | FirstAtomicWrite l _ _ _ => FirstLocal.Base l
  end.

(** A call that writes to the base itself instead of a path below it. *)
Definition writes_base (c : fs_call) : bool :=
  match c with
  | FsAtomicWriteFile l _ _ _ parts => bool_decide (join_below (BaseRoot l) parts = BaseRoot l)
  | FsMoveUploadedFile l _ _ dst => bool_decide (join_below (BaseRoot l) dst = BaseRoot l)
  | OldAtomicWriteFile l _ _ _ parts => bool_decide (join_below (OldLocal.BaseRoot l) parts = OldLocal.BaseRoot l)
  | StAtomicWrite _ _ p _ | FirstAtomicWrite _ _ p _ => bool_decide (location p = [])
  | _ => false
  end.

(** The temporary files of such a write lie beside the base. *)
Definition beside (bs : loc) (q : loc) : Prop :=
  ∃ d c t r, bs = d ++ [c] ∧ q = d ++ t :: r ∧ (HasPrefix t ".tmp" = true ∨ t = c +:+ ".tmp").

(** What calls over the base [bs] may do to the disk [s0]: nothing outside the base changes,
    except that missing directories on the way to it are created; with [b], temporary files
    beside the base may change too. *)
Definition stays_below (bs : loc) (b : bool) (s0 s : fs) : Prop :=
  ∀ q, ¬ bs `prefix_of` q → (b = true → ¬ beside bs q) →
       s !! q = s0 !! q ∨ (s0 !! q = None ∧ q `prefix_of` bs ∧ ∃ m, s !! q = Some (NDir m)).

(** The base of the call is the directory [bs]. The constructors of the two file systems store
    a clean path; the storages take the path as it is configured. *)
Definition over (bs : loc) (c : fs_call) : Prop :=
  match c with
  | StCreateFolder _ _ _ | StAtomicWrite _ _ _ _ | StMove _ _ _ _ | StDelete _ _ _
  | StExists _ _ _ | StList _ _ _ _ | StRead _ _ _ _ | FirstCreateFolder _ _ _ | FirstAtomicWrite _ _ _ _ =>
      rooted (call_base c) = true ∧ clean_comps (call_base c) = bs
  | _ => call_base c = render true bs
  end.

(** ** Paths *)

Lemma Dir_render t : Forall normal t → Dir (render true t) = render true (parent t).
Proof.
  destruct t as [|c d _] using rev_ind; [done|]. intros [Hd Hc]%Forall_app. inversion_clear Hc.
  by rewrite Dir_render_snoc, parent_snoc.
Qed.

Lemma parent_normal t : Forall normal t → Forall normal (parent t).
Proof. apply Forall_take. Qed.

Lemma HasPrefix_tmp s : HasPrefix (".tmp" +:+ s) ".tmp" = true.
Proof. apply HasPrefix_spec. by exists s. Qed.

(** ** What the calls may change *)

Section Confined.
Context (bs : loc) (b : bool) (s0 : fs).

Definition mine (q : loc) : Prop := bs `prefix_of` q ∨ (b = true ∧ beside bs q).

Definition kept (s : fs) : Prop := nolinks s ∧ names_ok s ∧ stays_below bs b s0 s.

Lemma mine_app q r : mine q → mine (q ++ r).
Proof.
  intros [Hq|[Hb (d & c & t & r' & -> & -> & Ht)]]; [left; by apply prefix_app_r|right].
  split; [done|]. exists d, c, t, (r' ++ r). split_and!; [done| |done]. by rewrite <- app_assoc.
Qed.

Lemma mine_prefix q k : mine q → q `prefix_of` k → mine k.
Proof. intros Hq [r ->]. by apply mine_app. Qed.

(** A temporary name in the directory of a target. *)
Lemma mine_temp t pre n :
  bs `prefix_of` t → (t = bs → b = true) → mine (parent t ++ [".tmp" +:+ pre +:+ n]).
Proof.
  intros Ht Hb. destruct t as [|c d _] using rev_ind.
  { apply prefix_nil_inv in Ht. left. rewrite Ht. apply prefix_nil. }
  rewrite parent_snoc. apply prefix_snoc_cases in Ht as [->|Ht]; [|left; by apply prefix_app_r].
  right. split; [by apply Hb|]. exists d, c, (".tmp" +:+ pre +:+ n), []. split_and!; [done..|]. left.
  apply HasPrefix_tmp.
Qed.

Lemma kept_nolinks s : kept s → nolinks s.
Proof. by intros []. Qed.

(** A change at locations of ours only. *)
Lemma kept_change s s' :
  kept s → nolinks s' → names_ok s' → (∀ q, ¬ mine q → s' !! q = s !! q) → kept s'.
Proof.
  intros (_ & _ & Hs) Hl Hn Hq. split_and!; [done..|]. intros q H1 H2. rewrite Hq; [by apply Hs|].
  unfold mine. naive_solver.
Qed.

Lemma names_insert s l n : names_ok s → Forall normal l → names_ok (<[l := n]> s).
Proof. intros Hs Hl k n' [[<- _]|[_ Hk]]%lookup_insert_Some; [done|by eapply Hs]. Qed.

Lemma kept_insert s l n :
  kept s → mine l → Forall normal l → (∀ t, n ≠ NLink t) → kept (<[l := n]> s).
Proof.
  intros Hs Hl Hn Ht. apply (kept_change s); [done|apply nolinks_insert; [apply Hs|done]|apply names_insert; [apply Hs|done]|].
  intros q Hq. rewrite lookup_insert_ne; [done|]. by intros ->.
Qed.

Lemma kept_delete s l : kept s → mine l → kept (delete l s).
Proof.
  intros Hs Hl. apply (kept_change s); [done|apply nolinks_delete, Hs| |].
  - intros k n [_ Hk]%lookup_delete_Some. by eapply Hs.
  - intros q Hq. rewrite lookup_delete_ne; [done|]. by intros ->.
Qed.

Definition on_the_way (k : loc) : Prop := k `prefix_of` bs ∨ bs `prefix_of` k.

Lemma on_the_way_parent d c : on_the_way (d ++ [c]) → on_the_way d.
Proof.
  intros [H|H]; [left; etrans; [|exact H]; by apply prefix_app_r|].
  apply prefix_snoc_cases in H as [E|H]; [left; rewrite E; by apply prefix_app_r|by right].
Qed.

Lemma on_the_way_dir t : bs `prefix_of` t → on_the_way (parent t).
Proof.
  intros Ht. destruct t as [|c d _] using rev_ind; [right; by apply Ht|].
  rewrite parent_snoc. apply (on_the_way_parent _ c). by right.
Qed.

Lemma kept_dir s d m :
  kept s → on_the_way d → Forall normal d → s !! d = None → kept (<[d := NDir m]> s).
Proof.
  intros Hs [Hd|Hd] Hn Hf; [|by apply kept_insert; [|left|..]].
  split_and!; [apply nolinks_insert; [apply Hs|done]|apply names_insert; [apply Hs|done]|].
  intros q H1 H2. destruct Hs as (_ & _ & Hs). specialize (Hs q H1 H2). rewrite lookup_insert.
  case_decide as E; [subst q|done]. right. destruct Hs as [E|(E & _)]; [|by eauto].
  rewrite Hf in E. eauto.
Qed.

(** Moving a tree between locations of ours. *)
Lemma move_tree_from s old new k n :
  move_tree s old new !! k = Some n → ∃ k0, s !! k0 = Some n ∧ k = retarget old new k0.
Proof.
  unfold move_tree. intros Hk%elem_of_list_to_map_2. apply list_elem_of_fmap in Hk as ([k0 n0] & [= -> ->] & Hin).
  exists k0. split; [|done]. apply elem_of_map_to_list in Hin. by apply lookup_delete_Some in Hin as [_ ?].
Qed.

Lemma move_tree_other s old new k :
  ¬ old `prefix_of` k → ¬ new `prefix_of` k → move_tree s old new !! k = s !! k.
Proof.
  intros Ho Hn. assert (∀ n, (k, n) ∈ (fun '(k, n) => (retarget old new k, n)) <$> map_to_list (delete new s) ↔ s !! k = Some n) as Hk.
  { intros n. rewrite list_elem_of_fmap. split.
    - intros ([k0 n0] & [= E ->] & Hin). apply elem_of_map_to_list, lookup_delete_Some in Hin as [_ Hin].
      destruct (decide (old `prefix_of` k0)) as [[x ->]|N].
      + rewrite retarget_below in E. destruct Hn. rewrite E. by apply prefix_app_r.
      + by rewrite retarget_other in E by done; subst.
    - intros Hk. exists (k, n). rewrite retarget_other by done. split; [done|].
      apply elem_of_map_to_list. rewrite lookup_delete_ne; [done|]. by intros ->. }
  unfold move_tree. destruct (s !! k) as [n|] eqn:E.
  - apply elem_of_list_to_map_1'; [|by apply Hk]. intros n' Hn'%Hk. congruence.
  - apply not_elem_of_list_to_map_1. intros ([k' n] & -> & Hin)%list_elem_of_fmap. apply Hk in Hin. simpl in *. congruence.
Qed.

Lemma kept_move s old new : kept s → mine old → mine new → Forall normal new → kept (move_tree s old new).
Proof.
  intros Hs Ho Hn Hnn. apply (kept_change s); [done|..].
  - intros k t (k0 & Hk & _)%move_tree_from. by eapply Hs.
  - intros k n (k0 & Hk & ->)%move_tree_from. destruct Hs as (_ & Hs & _). apply Hs in Hk.
    unfold retarget. case_bool_decide; [|done]. apply Forall_app. split; [done|by apply Forall_drop].
  - intros q Hq. apply move_tree_other; intros Hp; apply Hq; (eapply mine_prefix; [|exact Hp]; done).
Qed.

Lemma kept_rename s old new s' :
  kept s → mine old → mine new → Forall normal new → rename_loc s old new = inr (Some s') → kept s'.
Proof.
  intros Hs Ho Hn Hnn. unfold rename_loc. destruct (s !! old) as [n|] eqn:E; [|done].
  assert ((∀ t, n ≠ NLink t) → kept (<[new := n]> (delete old s))) by (intros; apply kept_insert; [by apply kept_delete|done..]).
  assert (kept (move_tree s old new)) by by apply kept_move.
  destruct n as [m|m c|t]; [| |by apply kept_nolinks in Hs; apply Hs in E]; repeat (case_match; try done); naive_solver.
Qed.

(** ** The calls on canonical paths *)

(** A call that keeps the invariant and returns a result with [φ]. *)
Definition keeps {A : Type} (φ : A → Prop) (m : prog world A) : Prop :=
  triple kept (fun w => kept (w_fs w)) m
    (fun r w => kept (w_fs w) ∧ match r with Ok a => φ a | Err _ => True end).

Lemma keeps_bind {A B : Type} (φ : A → Prop) (m : prog world A) (k : A → prog world B) :
  keeps φ m → (∀ a, φ a → preserves kept (k a)) → preserves kept (bind m k).
Proof.
  intros Hm Hk. eapply triple_bind; [exact Hm| |by intros ?? [? _]].
  intros a. eapply triple_pure; [|intros Ha; exact (Hk a Ha)]. by intros w [??].
Qed.

Lemma keeps_wrap {A : Type} (φ : A → Prop) msg (m : prog world A) : keeps φ m → keeps φ (wrap_err msg m).
Proof. intros Hm. eapply triple_wrap; [exact Hm|done]. Qed.

Lemma keeps_lift {A : Type} (φ : A → Prop) (r : result A) : (∀ a, r = Ok a → φ a) → keeps φ (lift r).
Proof. intros Hr. apply triple_lift. intros w Hw. split; [done|]. destruct r; auto. Qed.

(** A location of ours that a path can spell. *)
Definition target (k : loc) : Prop := mine k ∧ Forall normal k.

Lemma kept_resolve w follow k l :
  kept (w_fs w) → target k → resolve w follow (render true k) = inr l → l = k.
Proof. intros Hw [_ Hk]. apply resolve_nolinks; [by apply kept_nolinks|done]. Qed.

Lemma kept_MkdirAll t perm : bs `prefix_of` t → Forall normal t → preserves kept (MkdirAll (render true t) perm).
Proof.
  intros Ht Hn. apply preserves_MkdirAll_at with (D := on_the_way); [by apply on_the_way_parent|by apply kept_nolinks|
    by intros; apply kept_dir|done|by right].
Qed.

Lemma kept_MkdirAll_Dir t perm :
  bs `prefix_of` t → Forall normal t → preserves kept (MkdirAll (Dir (render true t)) perm).
Proof.
  intros Ht Hn. rewrite Dir_render by done.
  apply preserves_MkdirAll_at with (D := on_the_way); [by apply on_the_way_parent|by apply kept_nolinks|
    by intros; apply kept_dir|by apply parent_normal|by apply on_the_way_dir].
Qed.

(** The temporary file for a target below the base. *)
Lemma keeps_CreateTemp t pre :
  bs `prefix_of` t → (t = bs → b = true) → Forall normal t → noslash pre →
  keeps (fun x => x.1 = render true x.2 ∧ target x.2) (CreateTemp (Dir (render true t)) (".tmp" +:+ pre)).
Proof.
  intros Ht Hb Hn Hp. rewrite Dir_render by done.
  assert (∀ rand h, temp_loc rand (parent t) (".tmp" +:+ pre) h → target h) as Hh.
  { intros rand h [n ->]. rewrite append_assoc. split; [by apply mine_temp|].
    apply Forall_app. split; [by apply parent_normal|]. constructor; [|constructor]. rewrite <- append_assoc.
    apply normal_temp. split; [done|]. simpl. lia. }
  intros w Hw.
  destruct (create_temp_triple (w_rand w) (parent t) (".tmp" +:+ pre) kept kept (N.to_nat 10000)) with (w := w)
    as (r & w' & E & Hr & Hev); [by apply parent_normal| |by apply kept_nolinks| |done|].
  - split; [done|]. simpl. lia.
  - intros s h m Hs [Hm Hh']%Hh _. by apply kept_insert.
  - exists r, w'. split; [exact E|]. split; [|done]. destruct r as [[name h]|e]; [|done].
    destruct Hr as (-> & Hl & s1 & m & Hs & _ & ->). apply Hh in Hl. split; [|done]. by apply kept_insert; [|apply Hl|apply Hl|].
Qed.

Lemma keeps_Create k : target k → keeps target (Create (render true k)).
Proof.
  intros Hk. apply triple_syscall. intros w fl Hw w'. split; [done|].
  assert (∀ m c, kept (<[k := NFile m c]> (w_fs w'))) as Hl.
  { intros m c. by apply kept_insert; [|apply Hk|apply Hk|]. }
  destruct (resolve w' true (render true k)) as [e|l] eqn:E; [done|]. apply kept_resolve in E as ->; [|done..].
  split; intros a; intros; destruct (w_fs w' !! k) as [[m|m c|t]|]; simplify_eq; (split; [apply Hl|]); [split; [apply Hl|done]..].
Qed.

Lemma kept_write_chunk h data : target h → preserves kept (write_chunk h data).
Proof.
  intros [Hm Hn]. apply preserves_syscall. intros w a s Hw. repeat case_match; try done.
  intros [= _ <-]. by apply kept_insert.
Qed.

Lemma kept_Copy h r : target h → preserves kept (Copy h r).
Proof.
  intros Hh. unfold Copy. apply preserves_bind; [|keeps_go].
  induction (blocks r) as [|x bl IH]; cbn [write_blocks]; [apply preserves_ret|].
  apply preserves_bind; [by apply kept_write_chunk|done].
Qed.

Lemma kept_CopyFile h src : target h → preserves kept (CopyFile h src).
Proof. intros Hh. apply preserves_bind; [apply preserves_file_reader|intros r; by apply kept_Copy]. Qed.

Lemma kept_lookup w follow k l n :
  kept (w_fs w) → target k → lookup_node w follow (render true k) = inr (l, n) → l = k.
Proof. intros Hw [_ Hk] Hl. by apply lookup_node_nolinks in Hl as [-> _]; [|apply kept_nolinks|]. Qed.

Lemma kept_Chmod k perm : target k → preserves kept (Chmod (render true k) perm).
Proof.
  intros Hk. apply preserves_syscall. intros w a s Hw.
  destruct (lookup_node w true (render true k)) as [e|[l n]] eqn:E; [done|]. apply kept_lookup in E as ->; [|done..].
  destruct n; try done; intros [= _ <-]; by apply kept_insert; [|apply Hk|apply Hk|].
Qed.

Lemma kept_Remove k : target k → preserves kept (Remove (render true k)).
Proof.
  intros Hk. apply preserves_syscall. intros w a s Hw.
  destruct (lookup_node w false (render true k)) as [e|[l n]] eqn:E; [done|]. apply kept_lookup in E as ->; [|done..].
  assert (kept (delete k (w_fs w))) by (apply kept_delete; [done|apply Hk]).
  destruct n; repeat (case_match; try done); naive_solver.
Qed.

Lemma kept_Rename k t : target k → target t → preserves kept (Rename (render true k) (render true t)).
Proof.
  intros Hk Ht. unfold Rename. apply preserves_bind; [unfold rename_guard; keeps_go|intros _].
  apply preserves_syscall. intros w a s Hw.
  destruct (resolve w false (render true k)) as [e|l] eqn:El; [done|].
  destruct (resolve w false (render true t)) as [e|l'] eqn:Et; [done|].
  apply kept_resolve in El as ->; [|done..]. apply kept_resolve in Et as ->; [|done..].
  destruct (rename_loc (w_fs w) k t) as [e|o] eqn:E; [done|]. intros [= _ ->].
  eapply kept_rename; [exact Hw|apply Hk|apply Ht|apply Ht|exact E].
Qed.

Lemma kept_remove_entries ls err : Forall target ls → preserves kept (remove_entries ls err).
Proof.
  intros Hls. revert err. induction Hls as [|l ls Hl _ IH]; intros err; cbn [remove_entries]; [keeps_go|].
  apply preserves_try; [by apply kept_Remove|intros r; apply IH].
Qed.

Lemma keeps_gets {A : Type} (φ : A → Prop) (f : world → A) : (∀ w, kept (w_fs w) → φ (f w)) → keeps φ (gets f).
Proof. intros Hf w Hw. exists (Ok (f w)), w. split_and!; [done|done|by apply Hf|reflexivity]. Qed.

Lemma kept_RemoveAll k : target k → preserves kept (RemoveAll (render true k)).
Proof.
  intros Hk. unfold RemoveAll. apply preserves_try; [by apply kept_Remove|]. intros [u|e]; [apply preserves_ret|].
  destruct (IsNotExist e); [apply preserves_ret|].
  apply (keeps_bind (fun r => ∀ l, r = inr l → l = k)).
  { apply keeps_gets. intros w Hw l. by apply kept_resolve. }
  intros [e'|l] Hl; [apply preserves_throw|]. rewrite (Hl l eq_refl).
  apply (keeps_bind (Forall target)); [|intros ls; apply kept_remove_entries].
  apply keeps_gets. intros w Hw. unfold subtree. rewrite merge_sort_Permutation. apply Forall_forall.
  intros q [Hq Hin]%list_elem_of_filter. apply list_elem_of_fmap in Hin as ([q' n] & -> & Hin).
  apply elem_of_map_to_list in Hin. split; [by eapply mine_prefix; [apply Hk|]|]. by eapply Hw.
Qed.

#[local] Hint Resolve kept_write_chunk kept_Copy kept_CopyFile kept_Chmod kept_Remove kept_Rename kept_RemoveAll
  kept_MkdirAll kept_MkdirAll_Dir : triples.

(** ** The four implementations *)

(** A canonical path at or below the base. *)
Definition path_below (full : string) (k : loc) : Prop :=
  full = render true k ∧ bs `prefix_of` k ∧ Forall normal k.

Lemma path_target k : bs `prefix_of` k → Forall normal k → target k.
Proof. intros. split; [by left|done]. Qed.
#[local] Hint Resolve path_target : triples.

Lemma keeps_sanitizeAndJoin l parts :
  base_ok l bs →
  keeps (fun full => ∃ k, path_below full k ∧ (k = bs → join_below (BaseRoot l) parts = BaseRoot l)) (sanitizeAndJoin l parts).
Proof.
  intros Hl w Hw. destruct (base_ok_rooted _ _ Hl) as [Hr Hc].
  destruct (join_below_render (BaseRoot l) parts Hr) as [Ej Hj].
  destruct (sanitizeAndJoin_result l parts w) as (r & w' & E & Hf & Ht & Hev & Hq).
  exists r, w'. split_and!; [done|by rewrite Hf| |split; [done|exists []; by rewrite app_nil_r]].
  destruct r as [full|e]; [|done]. destruct Hq as [Hq (rel & Hrel & Hp)].
  set (k := clean_comps (join_below (BaseRoot l) parts)) in *.
  assert (full = render true k) as ->.
  { destruct Hq as [->|(k' & -> & Hk & _)]; [done|]. rewrite Ej, resolve_render in Hk by done.
    by apply walk_nolinks in Hk as ->; [|apply kept_nolinks|]. }
  exists k. split; [split_and!; [done| |done]|].
  - rewrite <- Hc, <- (clean_comps_render true k) by by apply canonical_rooted. by eapply Rel_inside.
  - intros Hk. rewrite Ej, Hk. symmetry. apply Hl.
Qed.

Lemma old_sanitizeAndJoin l parts full :
  old_base l bs → OldLocal.sanitizeAndJoin l parts = Ok full →
  ∃ k, path_below full k ∧ (k = bs → join_below (OldLocal.BaseRoot l) parts = OldLocal.BaseRoot l).
Proof.
  intros Hl Hs. destruct (sanitizeAndJoin_below l bs parts full Hl Hs) as (ks & Hf & Hn & Hj).
  exists (bs ++ ks). split; [split_and!; [done|by apply prefix_app_r|done]|].
  intros E. rewrite <- Hj, Hf, E. symmetry. apply Hl.
Qed.

Lemma storage_path l p :
  rooted (LocalStorage.base l) = true → clean_comps (LocalStorage.base l) = bs →
  path_below (LocalStorage.full l p) (bs ++ location p).
Proof.
  intros Hr Hc. destruct (full_render l p Hr) as [Hf Hn]. rewrite full_comps, Hc in Hf, Hn by done.
  split_and!; [done|by apply prefix_app_r|done].
Qed.

Lemma kept_write_and_rename h perm data t :
  target h → target t → preserves kept (write_and_rename (render true h) h perm data (render true t)).
Proof. intros Hh Ht. unfold write_and_rename. keeps_go. Qed.

Lemma kept_copyFileContents src t :
  bs `prefix_of` t → Forall normal t → (t = bs → b = true) → preserves kept (copyFileContents src (render true t)).
Proof.
  intros Hp Hn Hb. unfold copyFileContents. apply preserves_bind; [keeps_go|]. intros hin.
  apply preserves_defer; [|keeps_go]. apply preserves_bind; [keeps_go|]. intros fi.
  eapply keeps_bind; [apply keeps_wrap, (keeps_CreateTemp t "copy-"); done|]. intros [name h] [E Hh]. cbn [fst snd] in E, Hh. subst name.
  assert (target t) by by apply path_target. keeps_go.
Qed.

Lemma kept_AtomicWriteFile l ctx perm data parts :
  base_ok l bs → (join_below (BaseRoot l) parts = BaseRoot l → b = true) →
  preserves kept (AtomicWriteFile l ctx perm data parts).
Proof.
  intros Hl Hb. unfold AtomicWriteFile, check_ctx. destruct (ctx_done ctx); [keeps_go|]. case_bool_decide; [keeps_go|].
  eapply keeps_bind; [by apply keeps_sanitizeAndJoin|]. intros full (t & (-> & Hp & Hn) & Ht). cbv zeta.
  assert (t = bs → b = true) by auto. apply preserves_bind; [keeps_go|intros _].
  eapply keeps_bind; [apply keeps_wrap, (keeps_CreateTemp t "-"); done|]. intros [name h] [E Hh]. cbn [fst snd] in E, Hh. subst name.
  apply kept_write_and_rename; [done|by apply path_target].
Qed.

Lemma kept_MoveUploadedFile l ctx src dst :
  base_ok l bs → (join_below (BaseRoot l) dst = BaseRoot l → b = true) →
  preserves kept (MoveUploadedFile l ctx src dst).
Proof.
  intros Hl Hb. unfold MoveUploadedFile, check_ctx. destruct (ctx_done ctx); [keeps_go|].
  eapply keeps_bind; [by apply keeps_wrap, keeps_sanitizeAndJoin|]. intros full (k & (-> & Hkp & Hkn) & _).
  eapply keeps_bind; [by apply keeps_wrap, keeps_sanitizeAndJoin|]. intros full (t & (-> & Htp & Htn) & Ht).
  assert (target k ∧ target t) as [Hk' Ht'] by (split; by apply path_target).
  apply preserves_bind; [keeps_go|intros _]. apply preserves_try; [by apply kept_Rename|]. intros [u|e]; [keeps_go|].
  apply preserves_bind; [apply preserves_wrap, kept_copyFileContents; auto|intros _; keeps_go].
Qed.

Lemma kept_st_AtomicWrite l ctx p r :
  rooted (LocalStorage.base l) = true → clean_comps (LocalStorage.base l) = bs → (location p = [] → b = true) →
  preserves kept (LocalStorage.AtomicWrite l ctx p r).
Proof.
  intros Hr Hc Hb. destruct (storage_path l p Hr Hc) as (Hf & Hp & Hn). unfold LocalStorage.AtomicWrite. cbv zeta. rewrite Hf.
  set (t := bs ++ location p) in *. assert (target t) by by apply path_target.
  apply preserves_bind; [keeps_go|intros _].
  eapply keeps_bind; [apply (keeps_CreateTemp t "-"); try done|].
  - intros E. apply Hb, (app_inv_head bs). by rewrite app_nil_r.
  - intros [name h] [E Hh]. cbn [fst snd] in E, Hh. subst name. keeps_go.
Qed.

Lemma kept_st_Move l ctx src dst :
  rooted (LocalStorage.base l) = true → clean_comps (LocalStorage.base l) = bs →
  preserves kept (LocalStorage.Move l ctx src dst).
Proof.
  intros Hr Hc. destruct (storage_path l src Hr Hc) as (Hf & Hp & Hn), (storage_path l dst Hr Hc) as (Hf' & Hp' & Hn').
  unfold LocalStorage.Move. cbv zeta. rewrite Hf, Hf'.
  assert (target (bs ++ location src) ∧ target (bs ++ location dst)) as [Hs Hd] by (split; by apply path_target).
  apply preserves_bind; [keeps_go|intros _]. apply preserves_try; [by apply kept_Rename|]. intros [u|e]; [keeps_go|].
  apply preserves_bind; [keeps_go|intros hin]. apply preserves_defer; [|keeps_go].
  eapply keeps_bind; [by apply keeps_Create|]. intros out Hout. keeps_go.
Qed.

Lemma kept_old_AtomicWriteFile l ctx perm data parts :
  old_base l bs → (join_below (OldLocal.BaseRoot l) parts = OldLocal.BaseRoot l → b = true) →
  preserves kept (OldLocal.AtomicWriteFile l ctx perm data parts).
Proof.
  intros Hl Hb. unfold OldLocal.AtomicWriteFile.
  eapply keeps_bind; [apply keeps_lift; intros full; by apply old_sanitizeAndJoin|]. intros full (t & (-> & Hp & Hn) & Ht). cbv zeta.
  assert (t = bs → b = true) by auto. assert (target t) by by apply path_target.
  apply preserves_bind; [keeps_go|intros _].
  eapply keeps_bind; [apply (keeps_CreateTemp t "-"); done|].
  intros [name h] [E Hh]. cbn [fst snd] in E, Hh. subst name. keeps_go.
Qed.

Lemma kept_old_MoveUploadedFile l ctx src dst :
  old_base l bs → preserves kept (OldLocal.MoveUploadedFile l ctx src dst).
Proof.
  intros Hl. unfold OldLocal.MoveUploadedFile.
  eapply keeps_bind; [apply keeps_lift; intros full; by apply old_sanitizeAndJoin|]. intros full (k & (-> & Hkp & Hkn) & _).
  eapply keeps_bind; [apply keeps_lift; intros full; by apply old_sanitizeAndJoin|]. intros full (t & (-> & Htp & Htn) & _).
  assert (target k ∧ target t) as [Hk Ht] by (split; by apply path_target).
  apply preserves_bind; [keeps_go|intros _]. apply preserves_try; [by apply kept_Rename|]. intros [u|e]; [keeps_go|].
  apply preserves_bind; [keeps_go|intros hin]. apply preserves_defer; [|keeps_go].
  eapply keeps_bind; [by apply keeps_Create|]. intros out Hout. keeps_go.
Qed.

(** The temporary name of the first version. *)
Lemma first_temp k :
  bs `prefix_of` k → Forall normal k → (k = bs → b = true) →
  ∃ k', render true k +:+ ".tmp" = render true k' ∧ target k'.
Proof.
  intros Hp Hn Hb. destruct k as [|c d _] using rev_ind.
  { exists [".tmp"]. split; [done|]. apply prefix_nil_inv in Hp. split; [left; rewrite Hp; apply prefix_nil|].
    by repeat constructor. }
  apply Forall_app in Hn as [Hd Hc]. inversion_clear Hc. exists (d ++ [c +:+ ".tmp"]). split; [|split].
  - unfold render. destruct d as [|x d]; [done|]. by rewrite !join_slash_snoc, !append_assoc.
  - apply prefix_snoc_cases in Hp as [E|Hp]; [|left; by apply prefix_app_r]. right. split; [auto|].
    exists d, c, (c +:+ ".tmp"), []. auto.
  - apply Forall_app. split; [done|]. constructor; [|constructor]. destruct H as (Hs & Hne & _ & _).
    split; [by apply noslash_append|]. split_and!; intros E%(f_equal String.length); rewrite length_append in E; simpl in E; lia.
Qed.

Lemma kept_first_AtomicWrite l ctx p r :
  rooted (FirstLocal.Base l) = true → clean_comps (FirstLocal.Base l) = bs → (location p = [] → b = true) →
  preserves kept (FirstLocal.AtomicWrite l ctx p r).
Proof.
  intros Hr Hc Hb. destruct (storage_path (LocalStorage.mkLocalStorage (FirstLocal.Base l)) p Hr Hc) as (Hf & Hp & Hn).
  unfold FirstLocal.AtomicWrite, FirstLocal.full. unfold LocalStorage.full in Hf. cbn [LocalStorage.base] in Hf. cbv zeta in *. rewrite Hf.
  destruct (first_temp _ Hp Hn) as (t & -> & Ht).
  { intros E. apply Hb, (app_inv_head bs). by rewrite app_nil_r. }
  assert (target (bs ++ location p)) by by apply path_target.
  eapply triple_try; [by apply keeps_Create|]. intros o.
  eapply triple_pure with (φ := ∀ h, o = Ok h → target h); [|intros Ho].
  { intros w [Hw Ho]. split; [|exact Hw]. by intros h ->. }
  apply preserves_bind; [|intros _; by apply kept_Rename].
  destruct o as [h|e]; [|keeps_go]. specialize (Ho h eq_refl). keeps_go.
Qed.

Lemma preserves_list_entries I ds full prefix es : preserves I (LocalStorage.list_entries ds full prefix es).
Proof.
  induction es; cbn [LocalStorage.list_entries]; [apply preserves_ret|].
  unfold LocalStorage.list_entry. keeps_go.
Qed.
#[local] Hint Resolve preserves_list_entries : triples.

Lemma preserves_sanitizeAndJoin I l parts : preserves I (sanitizeAndJoin l parts).
Proof. unfold sanitizeAndJoin. cbv zeta. keeps_go. Qed.
#[local] Hint Resolve preserves_sanitizeAndJoin : triples.

Lemma kept_run_call c : Forall normal bs → over bs c → (writes_base c = true → b = true) → preserves kept (run_call c).
Proof.
  intros Hbs Ho Hb. destruct c; cbn [run_call over call_base writes_base] in *.
  - unfold CreateFolder, check_ctx. destruct (ctx_done ctx); [keeps_go|].
    eapply keeps_bind; [by apply keeps_sanitizeAndJoin|]. intros full (k & (-> & Hp & Hn) & _). keeps_go.
  - apply kept_AtomicWriteFile; [done|]. intros E. by rewrite E, bool_decide_eq_true_2 in Hb; [apply Hb|].
  - apply kept_MoveUploadedFile; [done|]. intros E. by rewrite E, bool_decide_eq_true_2 in Hb; [apply Hb|].
  - unfold Exists. keeps_go.
  - destruct (storage_path l p) as (Hf & Hp & Hn); [apply Ho..|]. unfold LocalStorage.CreateFolder. rewrite Hf. keeps_go.
  - apply kept_st_AtomicWrite; [apply Ho..|]. intros E. by rewrite E in Hb; apply Hb.
  - by apply kept_st_Move; apply Ho.
  - destruct (storage_path l p) as (Hf & Hp & Hn); [apply Ho..|]. unfold LocalStorage.Delete. rewrite Hf.
    by apply kept_RemoveAll, path_target.
  - unfold LocalStorage.Exists. keeps_go.
  - unfold LocalStorage.List. keeps_go.
  - unfold LocalStorage.Open, bind. (* opening and reading change nothing *)
    assert (preserves kept (let! h := PosixFs.Open (LocalStorage.full l p) in
      with_defer (Close h) (do! file_reader size h in ret tt))) as H by keeps_go.
    intros w Hw. destruct (H w Hw) as (r & w' & E & Hr). exists r, w'. split; [|done]. rewrite <- E. unfold bind.
    by destruct (PosixFs.Open _ w) as [[[]]|].
  - unfold OldLocal.CreateFolder.
    eapply keeps_bind; [apply keeps_lift; intros full; by apply old_sanitizeAndJoin|]. intros full (k & (-> & Hp & Hn) & _). keeps_go.
  - apply kept_old_AtomicWriteFile; [done|]. intros E. by rewrite E, bool_decide_eq_true_2 in Hb; [apply Hb|].
  - by apply kept_old_MoveUploadedFile.
  - unfold OldLocal.Exists. keeps_go.
  - destruct (storage_path (LocalStorage.mkLocalStorage (FirstLocal.Base l)) p) as (Hf & Hp & Hn); [apply Ho..|].
    unfold LocalStorage.full in Hf. cbn [LocalStorage.base] in Hf. cbv zeta in Hf.
    unfold FirstLocal.CreateFolder, FirstLocal.full. rewrite Hf. keeps_go.
  - apply kept_first_AtomicWrite; [apply Ho..|]. intros E. by rewrite E in Hb; apply Hb.
Qed.
End Confined.

Lemma stays_below_refl bs b s : stays_below bs b s s.
Proof. intros q _ _. by left. Qed.

Lemma kept_run_calls bs b s0 cs w :
  Forall normal bs → Forall (over bs) cs → (existsb writes_base cs = true → b = true) → kept bs b s0 (w_fs w) →
  ∃ rs w' tr, run_calls cs w = Some (Ok rs, w') ∧ length rs = length cs ∧ kept bs b s0 (w_fs w') ∧
    w_trace w' = w_trace w ++ tr ∧ Forall (kept bs b s0) tr.
Proof.
  intros Hbs Ho. revert w. induction Ho as [|c cs Hc _ IH]; intros w Hb Hw; cbn [run_calls].
  { exists [], w, []. rewrite app_nil_r. by split_and!. }
  cbn [existsb] in Hb. rewrite orb_true_iff in Hb.
  destruct (kept_run_call bs b s0 c Hbs Hc ltac:(auto) w Hw) as (r & w1 & E & Hw1 & _ & tr1 & Et1 & Ft1).
  destruct (IH w1 ltac:(auto) Hw1) as (rs & w2 & tr2 & E2 & Hl & Hw2 & Et2 & Ft2).
  exists (r :: rs), w2, (tr1 ++ tr2). rewrite (try_run _ _ _ _ _ E), (bind_run _ _ _ _ _ E2). split_and!.
  - done.
  - simpl. by rewrite Hl.
  - done.
  - by rewrite Et2, Et1, app_assoc.
  - by apply Forall_app.
Qed.

(** C8: The local backends stay below their base directory. Take any sequence of calls of the
    four implementations over one base, with any paths ("..", absolute, empty), under any
    failures, on a disk without symbolic links. Every call returns; and at the end and after
    every single change on the way, nothing outside the base differs from the disk at the
    beginning, except that missing directories on the way to the base have been created. Only
    when one of the calls writes to the base itself (a path like "/" or "a/..") temporary files
    beside the base are excepted too: for this exception see [base_write_leaks]. *)
Theorem local_calls_confined bs cs w :
  Forall normal bs → nolinks (w_fs w) → names_ok (w_fs w) → Forall (over bs) cs →
  ∃ rs w' tr, run_calls cs w = Some (Ok rs, w') ∧ length rs = length cs ∧ w_trace w' = w_trace w ++ tr ∧
    Forall (stays_below bs (existsb writes_base cs) (w_fs w)) (tr ++ [w_fs w']).
Proof.
  intros Hbs Hl Hn Ho.
  destruct (kept_run_calls bs (existsb writes_base cs) (w_fs w) cs w) as (rs & w' & tr & E & El & Hw & Et & Ft); [done..| |].
  { split_and!; [done..|apply stays_below_refl]. }
  exists rs, w', tr. split_and!; [done..|]. apply Forall_app. split; [|constructor; [apply Hw|constructor]].
  eapply Forall_impl; [exact Ft|]. by intros s (_ & _ & ?).
Qed.

(** ** Witnesses *)

Definition beside_world : world :=
  mkWorld (<[ ["srv"] := NDir 493%N ]> (<[ ["srv"; "data"] := NDir 493%N ]> {[ [] := NDir 493%N ]}))
    [] (fun _ => 7%N) 0 18%N [] [].

(** A write to the base itself fails, and leaves its content beside the base. *)
Example base_write_leaks :
  (fun x => (x.1, w_fs x.2 !! ["srv"; ".tmp-7"])) <$>
    LocalStorage.AtomicWrite (LocalStorage.New "/srv/data") (mkCtx None None false) "/" (mkReader ["secret"] None) beside_world =
  Some (Err (ErrOs "rename" EEXIST), Some (NFile 384 "secret")).
Proof. vm_compute. reflexivity. Qed.

Lemma local_calls_confined_witness :
  let ctx := mkCtx None None false in
  let cs := [StAtomicWrite (LocalStorage.New "/srv/data/") ctx "../../a/b" (mkReader ["x"] None);
             OldMoveUploadedFile (OldLocal.mkLocalFs "/srv/data") ctx ["a"; "b"] ["c"];
             StDelete (LocalStorage.New "/srv/data") ctx ".."] in
  let w := set_faults beside_world [None; None; None; None; None; Some EIO] in
  ∃ rs w' tr, run_calls cs w = Some (Ok rs, w') ∧ length rs = length cs ∧ w_trace w' = w_trace w ++ tr ∧
    Forall (stays_below ["srv"; "data"] false (w_fs w)) (tr ++ [w_fs w']).
Proof.
  apply (local_calls_confined ["srv"; "data"]); [by repeat constructor| | |].
  - intros l t E. cbn [w_fs set_faults beside_world] in E. rewrite !lookup_insert, lookup_singleton in E. by repeat case_decide.
  - apply wf_check_sound. vm_compute. reflexivity.
  - repeat constructor.
Defined.
