(* ===== verification/LocalStorageOps.v ===== *)
(** * Deletion, listing and existence in the local storage backend

    For [internal/adapters/storage/local/local_storage.go]: what [Delete], [List] and [Exists]
    do on any well-formed file system, links included. *)
From stdpp Require Import pretty sorting.
From S2P Require Import Prelude GoStrings GoPath Jwt PosixFs LocalFs CrashLogic FsTriples FsRuns FsInvariant RemoveSpec LocalFsProps Storage LocalStorage LocalStorageProps.
Import LocalStorage.

#[local] Open Scope string_scope.
#[local] Open Scope nat_scope.
#[local] Open Scope list_scope.
#[local] Open Scope go_scope.

(** ** Deletion *)

(** C15: Deleting a path removes what is there and nothing else. When the path leads to the
    location [k], then whatever calls fail: [Delete] returns, at every moment only entries at or
    below [k] are missing, and when it reports success all of them are. When no call fails and
    [k] is not the root of the disk, it succeeds. *)
Theorem Delete_spec l ctx p w k :
  wf (w_fs w) → honest w → resolve w false (full l p) = inr k →
  ∃ r w' tr, Delete l ctx p w = Some (r, w') ∧
    pruned (prefix k) (w_fs w) (w_fs w') ∧
    w_trace w' = w_trace w ++ tr ∧ Forall (pruned (prefix k) (w_fs w)) tr ∧
    (r = Ok tt → ∀ q, k `prefix_of` q → w_fs w' !! q = None) ∧
    (quiet w → k ≠ [] → r = Ok tt).
Proof.
  intros Hwf Hh Hk. destruct (RemoveAll_spec w (full l p) k) as (r & w' & tr & E & _ & Hp & Hr & Et & Ft); [done..|].
  exists r, w', tr. split_and!; [done..|]. intros Hq Hne.
  destruct (RemoveAll_succeeds w (full l p) k) as [w2 E2]; [done..|]. congruence.
Qed.

(** ** Listing *)

(** A name below a directory that a path leads to. *)
Lemma walk_child links s cur cs l c :
  Forall normal cs → normal c → walk links s true cur cs = inr l → dir_at s l →
  walk links s false cur (cs ++ [c]) = inr (l ++ [c]).
Proof.
  intros Hcs Hc. assert (Forall noslash cs) as Hns by by apply normal_noslash. clear Hcs.
  revert cur cs Hns. induction links as [links IHl] using lt_wf_ind.
  intros cur cs Hcs. revert cur. induction Hcs as [|x cs Hx Hcs IH]; intros cur.
  { rewrite walk_nil. intros [= <-] _. simpl. rewrite walk_unfold. destruct Hc as (_ & H1 & H2 & H3).
    rewrite bool_decide_eq_false_2, bool_decide_eq_false_2 by tauto.
    destruct (s !! (cur ++ [c])) as [[]|]; [by rewrite walk_nil|done..]. }
  rewrite <- app_comm_cons, !walk_unfold. case_bool_decide; [by apply IH|]. case_bool_decide; [by apply IH|].
  destruct (s !! (cur ++ [x])) as [[m|m d|t]|] eqn:E.
  - apply IH.
  - destruct cs; [|done]. intros [= <-] [m' Hm']. congruence.
  - rewrite (andb_false_r (bool_decide (cs = []))). rewrite bool_decide_eq_false_2 by by destruct cs. simpl.
    destruct links as [|links]; [done|]. rewrite app_assoc. apply IHl; [lia|].
    apply Forall_app. split; [apply noslash_split_slash|done].
  - destruct cs; [|done]. intros [= <-] [m' Hm']. congruence.
Qed.

Lemma Join_render cs c : Forall normal cs → normal c → Join [render true cs; c] = render true (cs ++ [c]).
Proof.
  intros Hcs Hc. rewrite Join_rooted by done. unfold Clean. rewrite rooted_append by done. f_equal.
  rewrite clean_comps_append by done. rewrite clean_comps_render by by apply canonical_rooted.
  rewrite split_slash_noslash by apply Hc. rewrite clean_go_normal by by constructor.
  simpl. by rewrite rev_involutive.
Qed.

(** What [List] reports about an entry. *)
Definition entry_info (dir_size : Z) (prefix : string) (e : string * node) : ObjectInfo :=
  mkObjectInfo (Join [prefix; e.1]) (node_size dir_size e.2) (is_dir e.2).

Lemma list_entries_run ds w cs k prefix es :
  quiet w → wf (w_fs w) → Forall normal cs → resolve w true (render true cs) = inr k → dir_at (w_fs w) k →
  (∀ e, e ∈ es → w_fs w !! (k ++ [e.1]) = Some e.2) →
  list_entries ds (render true cs) prefix es w = Some (Ok (entry_info ds prefix <$> es), w).
Proof.
  intros Hq Hwf Hcs Hk Hd. induction es as [|[c n] es IH]; intros Hes; [done|]. cbn [list_entries].
  assert (w_fs w !! (k ++ [c]) = Some n) as Hc by (apply (Hes (c, n)); left).
  assert (normal c) as Hcn by (apply Hwf, Forall_app in Hc as [_ Hc]; by inversion Hc).
  assert (Lstat (Join [render true cs; c]) w = Some (Ok n, w)) as Hst.
  { unfold Lstat. rewrite syscall_run by done. unfold lookup_node, resolve in *.
    rewrite resolve_render in Hk by done. rewrite Join_render, resolve_render by first [done|apply Forall_app; auto].
    by rewrite (walk_child _ _ _ _ k), Hc. }
  unfold list_entry. rewrite (bind_run _ _ _ (mkObjectInfo (Join [prefix; c]) (node_size ds n) (is_dir n)) w).
  - rewrite (bind_run _ _ _ _ _ (IH ltac:(intros e He; apply Hes; by right))). done.
  - by rewrite (try_run _ _ _ _ _ Hst).
Qed.

#[local] Instance name_le_total : Total name_le.
Proof.
  intros a b. unfold name_le. rewrite (String.compare_antisym a.1 b.1).
  destruct (String.compare b.1 a.1); simpl; auto.
Qed.

(** C20: Listing a directory is exact. When the prefix leads to the directory at [k] and no call
    fails, [List] changes nothing and returns one item for every entry of that directory, in
    name order and without repetition: its path, the size of the entry itself and whether it is
    a directory. The path of an item leads, below the base, to the prefix followed by the name
    of the entry. *)
Theorem List_spec ds l ctx prefix w k m :
  rooted (base l) = true → wf (w_fs w) → quiet w →
  resolve w true (full l prefix) = inr k → w_fs w !! k = Some (NDir m) →
  ∃ es, List ds l ctx prefix w = Some (Ok (entry_info ds prefix <$> es), w) ∧
    Sorted name_le es ∧ NoDup es.*1 ∧ (∀ c n, (c, n) ∈ es ↔ w_fs w !! (k ++ [c]) = Some n) ∧
    ∀ c n, (c, n) ∈ es → clean_comps (full l (Path (entry_info ds prefix (c, n)))) = clean_comps (full l prefix) ++ [c].
Proof.
  intros Hb Hwf Hq Hk Hm. exists (merge_sort name_le (children (w_fs w) k)).
  destruct (full_render l prefix Hb) as [Hf Hn].
  assert (∀ c n, (c, n) ∈ merge_sort name_le (children (w_fs w) k) ↔ w_fs w !! (k ++ [c]) = Some n) as Hin.
  { intros c n. by rewrite merge_sort_Permutation, elem_of_children. }
  split_and!.
  - unfold List. cbv zeta. assert (ReadDir (full l prefix) w = Some (Ok (merge_sort name_le (children (w_fs w) k)), w)) as Hr.
    { unfold ReadDir. rewrite syscall_run by done. unfold lookup_node. by rewrite Hk, Hm. }
    rewrite (bind_run _ _ _ _ _ Hr). rewrite Hf. apply (list_entries_run _ _ _ k); [done..|by rewrite <- Hf|by eexists|].
    intros [c n] He. by apply Hin.
  - apply Sorted_merge_sort. apply _.
  - rewrite merge_sort_Permutation. apply NoDup_children.
  - done.
  - intros c n He%Hin. rewrite !full_comps by done. cbn [entry_info Path fst snd].
    rewrite clean_comps_root_Join, app_assoc; [done|].
    apply Hwf, Forall_app in He as [_ He]. by inversion He.
Qed.

(** ** Existence *)

(** [Exists] answers for the entry that the path leads to, links followed: without failures
    it changes nothing, says yes exactly when there is such an entry, and reports an error only
    when the path runs through something that is no directory or through too many links. *)
Lemma Exists_spec l ctx p w :
  quiet w →
  Exists l ctx p w =
    match lookup_node w true (full l p) with
    | inr _ => Some (Ok true, w)
    | inl ENOENT => Some (Ok false, w)
    | inl e => Some (Err (ErrOs "stat" e), w)
    end.
Proof.
  intros Hq. unfold Exists. destruct (lookup_node w true (full l p)) as [e|[k n]] eqn:E.
  - assert (Stat (full l p) w = Some (Err (ErrOs "stat" e), w)) as Hs.
    { unfold Stat. rewrite syscall_run by done. by rewrite E. }
    rewrite (try_run _ _ _ _ _ Hs). by destruct e.
  - assert (Stat (full l p) w = Some (Ok n, w)) as Hs.
    { unfold Stat. rewrite syscall_run by done. by rewrite E. }
    by rewrite (try_run _ _ _ _ _ Hs).
Qed.

(** ** Witnesses *)

(** A base with a directory, a file in it, and a link to the directory. *)
Definition sample_tree : fs :=
  <[["srv"; "docs"; "a.txt"] := NFile 420%N "hello"]> (<[["srv"; "docs"; "sub"] := NDir 493%N]>
  (<[["srv"; "latest"] := NLink "docs"]> (<[["srv"; "docs"] := NDir 493%N]>
  (<[["srv"] := NDir 493%N]> (<[[] := NDir 493%N]> ∅))))).

Definition sample_disk : world := mkWorld sample_tree [] (fun _ => 0%N) 0 18%N [] [].

Lemma sample_disk_wf : wf (w_fs sample_disk).
Proof. apply wf_check_sound. vm_compute. reflexivity. Qed.

Lemma Delete_spec_witness :
  let l := New "/srv" in
  let ctx := mkCtx None None false in
  ∃ r w' tr, Delete l ctx "docs" sample_disk = Some (r, w') ∧
    pruned (prefix ["srv"; "docs"]) (w_fs sample_disk) (w_fs w') ∧
    w_trace w' = w_trace sample_disk ++ tr ∧ Forall (pruned (prefix ["srv"; "docs"]) (w_fs sample_disk)) tr ∧
    (r = Ok tt → ∀ q, ["srv"; "docs"] `prefix_of` q → w_fs w' !! q = None) ∧
    (quiet sample_disk → ["srv"; "docs"] ≠ [] → r = Ok tt).
Proof.
  apply (Delete_spec (New "/srv") (mkCtx None None false) "docs" sample_disk ["srv"; "docs"]).
  - exact sample_disk_wf.
  - constructor.
  - vm_compute. reflexivity.
Defined.

(** Listing through the link lists the directory. *)
Lemma List_spec_witness :
  let l := New "/srv" in
  let ctx := mkCtx None None false in
  ∃ es, List 4096 l ctx "latest" sample_disk = Some (Ok (entry_info 4096 "latest" <$> es), sample_disk) ∧
    Sorted name_le es ∧ NoDup es.*1 ∧
    (∀ c n, (c, n) ∈ es ↔ w_fs sample_disk !! (["srv"; "docs"] ++ [c]) = Some n) ∧
    ∀ c n, (c, n) ∈ es →
      clean_comps (full l (Path (entry_info 4096 "latest" (c, n)))) = clean_comps (full l "latest") ++ [c].
Proof.
  apply (List_spec 4096 (New "/srv") (mkCtx None None false) "latest" sample_disk ["srv"; "docs"] 493%N).
  - reflexivity.
  - exact sample_disk_wf.
  - reflexivity.
  - vm_compute. reflexivity.
  - vm_compute. reflexivity.
Defined.
