(* ===== verification/Procs.v ===== *)
(** * Programs as sequences of system calls, and their interleavings

    [prog world A] runs a program in one go. Here the same programs are trees of atomic calls,
    so that several of them can run at the same time, one system call after the other in any
    order. [implements] says that such a tree, run alone, is the program. *)
From S2P Require Import Prelude GoStrings GoPath Jwt PosixFs LocalFs LocalStorage.

#[local] Open Scope string_scope.
#[local] Open Scope nat_scope.
#[local] Open Scope list_scope.
#[local] Open Scope go_scope.

Inductive proc (A : Type) : Type :=
  | PDone (r : result A)
  | PStep (X : Type) (m : prog world X) (k : result X → proc A).
Arguments PDone {A} r.
Arguments PStep {A X} m k.

(** Running a process alone. *)
Fixpoint run {A : Type} (p : proc A) : prog world A :=
  match p with
  | PDone r => lift r
  | PStep m k => bind (attempt m) (fun r => run (k r))
  end.

Definition p_call {A : Type} (m : prog world A) : proc A := PStep m PDone.

(** A process whose result, error included, is inspected. *)
Fixpoint p_try {A B : Type} (p : proc A) (k : result A → proc B) : proc B :=
  match p with
  | PDone r => k r
  | PStep m k' => PStep m (fun r => p_try (k' r) k)
  end.

Definition p_ret {A : Type} (a : A) : proc A := PDone (Ok a).
Definition p_throw {A : Type} (e : error) : proc A := PDone (Err e).

Definition p_bind {A B : Type} (p : proc A) (k : A → proc B) : proc B :=
  p_try p (fun r => match r with Ok a => k a | Err e => PDone (Err e) end).

(** ** The calls of an atomic write *)

Fixpoint p_mkdir_all (fuel : nat) (path : string) (perm : N) : proc unit :=
  match fuel with
  | 0 => p_call diverge
  | S fuel' =>
      p_try (p_call (Stat path)) (fun st =>
      match st with
      | Ok n => if is_dir n then p_ret tt else p_throw (ErrOs "mkdir" ENOTDIR)
      | Err _ =>
          let parent := parent_path path in
          p_bind (if bool_decide (parent = "") then p_ret tt else p_mkdir_all fuel' parent perm) (fun _ =>
          p_try (p_call (Mkdir path perm)) (fun r =>
          match r with
          | Ok _ => p_ret tt
          | Err e =>
              p_try (p_call (Lstat path)) (fun st =>
              match st with
              | Ok n => if is_dir n then p_ret tt else p_throw e
              | Err _ => p_throw e
              end)
          end))
      end)
  end.

Definition p_MkdirAll (path : string) (perm : N) : proc unit := p_mkdir_all (1 + String.length path) path perm.

Fixpoint p_create_temp (tries : nat) (dir prefix : string) : proc (string * loc) :=
  match tries with
  | 0 => p_throw (ErrOs "createtemp" EEXIST)
  | S tries' =>
      p_bind (p_call draw) (fun r =>
      let name := temp_path dir prefix r in
      p_try (p_call (open_excl name 384%N)) (fun f =>
      match f with
      | Ok h => p_ret (name, h)
      | Err (ErrOs op EEXIST) => p_create_temp tries' dir prefix
      | Err e => p_throw e
      end))
  end.

Definition p_CreateTemp (dir prefix : string) : proc (string * loc) := p_create_temp (N.to_nat 10000) dir prefix.

Fixpoint p_write_blocks (h : loc) (bs : list string) : proc unit :=
  match bs with
  | [] => p_ret tt
  | b :: bs' => p_bind (p_call (write_chunk h b)) (fun _ => p_write_blocks h bs')
  end.

Definition p_Copy (h : loc) (r : reader) : proc unit :=
  p_bind (p_write_blocks h (blocks r)) (fun _ =>
  match read_end r with None => p_ret tt | Some e => p_throw e end).

Definition p_Rename (oldname newname : string) : proc unit :=
  p_bind
    (p_try (p_call (Lstat newname)) (fun fi =>
     match fi with
     | Ok n =>
         if is_dir n then
           p_bind (p_call (Lstat oldname)) (fun _ =>
           p_bind (p_call (gets (fun w => bool_decide (resolve w false oldname = resolve w false newname)))) (fun same =>
           if bool_decide (newname = oldname) || negb same
           then p_throw (ErrOs "rename" EEXIST) else p_ret tt))
         else p_ret tt
     | Err _ => p_ret tt
     end))
    (fun _ => p_call (rename_call oldname newname)).

(** [LocalStorage.AtomicWrite], call by call. *)
Definition p_AtomicWrite (l : LocalStorage.LocalStorage) (path : string) (r : reader) : proc unit :=
  let full := LocalStorage.full l path in
  let dir := Dir full in
  p_bind (p_MkdirAll dir 493%N) (fun _ =>
  p_bind (p_CreateTemp dir ".tmp-") (fun tmp =>
  let '(tmpName, h) := tmp in
  p_try (p_Copy h r) (fun c =>
  match c with
  | Err e => p_try (p_call (Close h)) (fun _ => p_throw e)
  | Ok _ => p_try (p_call (Close h)) (fun _ => p_Rename tmpName full)
  end))).

(** ** Alone, a process is its program *)

Definition implements {A : Type} (p : proc A) (m : prog world A) : Prop := ∀ w, run p w = m w.

Lemma run_try {A B : Type} (p : proc A) (k : result A → proc B) w :
  run (p_try p k) w = bind (attempt (run p)) (fun r => run (k r)) w.
Proof.
  revert w. induction p as [r|X m k' IH]; intros w; [done|]. cbn [p_try run].
  unfold bind, attempt. destruct (m w) as [[r w']|]; [|done]. rewrite IH. done.
Qed.

Lemma impl_call {A : Type} (m : prog world A) : implements (p_call m) m.
Proof. intros w. unfold p_call. cbn [run]. unfold bind, attempt, lift. by destruct (m w) as [[]|]. Qed.

Lemma impl_try {A B : Type} (p : proc A) m (k : result A → proc B) f :
  implements p m → (∀ r, implements (k r) (f r)) → implements (p_try p k) (bind (attempt m) f).
Proof.
  intros Hp Hk w. rewrite run_try. unfold bind, attempt. rewrite Hp.
  destruct (m w) as [[r w']|]; [|done]. apply Hk.
Qed.

Lemma impl_bind {A B : Type} (p : proc A) m (k : A → proc B) f :
  implements p m → (∀ a, implements (k a) (f a)) → implements (p_bind p k) (bind m f).
Proof.
  intros Hp Hk w. unfold p_bind. rewrite run_try. unfold bind, attempt. rewrite Hp.
  destruct (m w) as [[[a|e] w']|]; [apply Hk|done..].
Qed.

Lemma impl_ret {A : Type} (a : A) : implements (p_ret a) (ret a).
Proof. by intros w. Qed.
Lemma impl_throw {A : Type} e : implements (A := A) (p_throw e) (throw e).
Proof. by intros w. Qed.

Create HintDb procs.
#[export] Hint Constants Opaque : procs.
#[export] Hint Resolve impl_call impl_try impl_bind impl_ret impl_throw : procs.

Ltac impl_go :=
  repeat first
    [ progress intros
    | solve [eauto 1 with procs nocore]
    | apply impl_try | apply impl_bind
    | lazymatch goal with |- implements (match ?x with _ => _ end) _ => destruct x end ].

Lemma impl_mkdir_all fuel path perm : implements (p_mkdir_all fuel path perm) (mkdir_all fuel path perm).
Proof. revert path. induction fuel as [|fuel IH]; intros path; cbn [p_mkdir_all mkdir_all]; impl_go. Qed.

Lemma impl_create_temp tries dir prefix : implements (p_create_temp tries dir prefix) (create_temp tries dir prefix).
Proof.
  induction tries as [|tries IH]; cbn [p_create_temp create_temp]; [apply impl_throw|].
  apply impl_bind; [apply impl_call|]. intros r. apply impl_try; [apply impl_call|].
  intros [h|e]; [apply impl_ret|]. destruct e as [| |op []| | |]; first [exact IH|apply impl_throw].
Qed.

Lemma impl_write_blocks h bs : implements (p_write_blocks h bs) (write_blocks h bs).
Proof. induction bs; cbn [p_write_blocks write_blocks]; impl_go. Qed.
#[export] Hint Resolve impl_mkdir_all impl_create_temp impl_write_blocks : procs.

Lemma impl_Copy h r : implements (p_Copy h r) (Copy h r).
Proof. unfold p_Copy, Copy. impl_go. Qed.

Lemma impl_Rename p q : implements (p_Rename p q) (Rename p q).
Proof. unfold p_Rename, Rename, rename_guard. impl_go. Qed.
#[export] Hint Resolve impl_Copy impl_Rename : procs.

(** The call-by-call form of the atomic write is the atomic write: run without others, the
    process makes the same calls with the same results as [LocalStorage.AtomicWrite], in every
    world and under every failure. *)
Theorem AtomicWrite_call_by_call l ctx path r w :
  run (p_AtomicWrite l path r) w = LocalStorage.AtomicWrite l ctx path r w.
Proof.
  revert w. change (implements (p_AtomicWrite l path r) (LocalStorage.AtomicWrite l ctx path r)).
  unfold p_AtomicWrite, LocalStorage.AtomicWrite, p_MkdirAll, MkdirAll, p_CreateTemp, CreateTemp. cbv zeta. impl_go.
Qed.
