(* ===== verification/ConcWrites.v ===== *)
(** * Concurrent atomic writes

    Any number of [LocalStorage.AtomicWrite] calls that run at the same time on one disk, their
    system calls interleaved in any order and any of them failing. The abstract object is a map
    from paths to contents with atomic writes; each call takes effect at its rename. *)
From stdpp Require Import pretty relations.
From S2P Require Import Prelude GoStrings GoPath Jwt PosixFs LocalFs CrashLogic FsTriples LocalFsProps Storage LocalStorage LocalStorageProps Procs.

#[local] Open Scope string_scope.
#[local] Open Scope nat_scope.
#[local] Open Scope list_scope.
#[local] Open Scope go_scope.

(** ** The system *)

Definition config : Type := world * list (proc unit).

(** Some process makes its next system call. *)
Inductive step : config → config → Prop :=
  | step_call w ps i X (m : prog world X) k r w' :
      ps !! i = Some (PStep m k) → m w = Some (r, w') → step (w, ps) (w', <[i := k r]> ps).

(** ** What one process may do *)

(** How far a write has come: no temporary file yet; a temporary file of its own with some
    content; renamed over the target. *)
Inductive phase := Before | Writing (h : loc) (x : string) | Installed.

Definition temp_named (q : loc) : Prop := ∃ d (n : N), q = d ++ [".tmp-" +:+ pretty n].

(** The changes of the file system that a write of [data] to [t] makes. *)
Inductive action (t : loc) (data : string) : phase → fs → phase → fs → Prop :=
  | act_none g s : action t data g s g s
  | act_mkdir g s q m : s !! q = None → q `prefix_of` t → q ≠ t → action t data g s g (<[q := NDir m]> s)
  | act_create s h m : s !! h = None → temp_named h → action t data Before s (Writing h "") (<[h := NFile m ""]> s)
  | act_write s h m x y : s !! h = Some (NFile m x) →
      action t data (Writing h x) s (Writing h (x +:+ y)) (<[h := NFile m (x +:+ y)]> s)
  | act_install s h m : s !! h = Some (NFile m data) → h ≠ t → (∀ m', s !! t ≠ Some (NDir m')) →
      action t data (Writing h data) s Installed (<[t := NFile m data]> (delete h s)).

(** The process has the temporary file it believes to have. *)
Definition owns (g : phase) (s : fs) : Prop :=
  match g with Writing h x => ∃ m, s !! h = Some (NFile m x) | _ => True end.

(** Every call of the process returns and is an action, whatever the others did in between. *)
Fixpoint acts {A : Type} (t : loc) (data : string) (g : phase) (p : proc A) (Q : phase → result A → Prop) : Prop :=
  match p with
  | PDone r => Q g r
  | PStep m k => ∀ w, nolinks (w_fs w) → owns g (w_fs w) →
      ∃ r w' g', m w = Some (r, w') ∧ action t data g (w_fs w) g' (w_fs w') ∧ acts t data g' (k r) Q
  end.

Section Acts.
Context (t : loc) (data : string).

Lemma acts_weaken {A : Type} g (p : proc A) (Q R : phase → result A → Prop) :
  acts t data g p Q → (∀ g r, Q g r → R g r) → acts t data g p R.
Proof.
  intros Hp HQ. revert g Hp. induction p as [r|X m k IH]; intros g Hp; [by apply HQ|].
  intros w Hn Ho. destruct (Hp w Hn Ho) as (r & w' & g' & E & Ha & Hk). exists r, w', g'. eauto.
Qed.

Lemma acts_try {A B : Type} g (p : proc A) (k : result A → proc B) Q R :
  acts t data g p Q → (∀ g' r, Q g' r → acts t data g' (k r) R) → acts t data g (p_try p k) R.
Proof.
  intros Hp Hk. revert g Hp. induction p as [r|X m k' IH]; intros g Hp; [by apply Hk|].
  intros w Hn Ho. destruct (Hp w Hn Ho) as (r & w' & g' & E & Ha & Hk'). exists r, w', g'. eauto.
Qed.

Lemma acts_bind {A B : Type} g (p : proc A) (k : A → proc B) Q R :
  acts t data g p Q → (∀ g' a, Q g' (Ok a) → acts t data g' (k a) R) → (∀ g' e, Q g' (Err e) → R g' (Err e)) →
  acts t data g (p_bind p k) R.
Proof. intros Hp Hk He. eapply acts_try; [exact Hp|]. intros g' [a|e] HQ; [by apply Hk|by apply He]. Qed.

(** A single system call: it fails without effect, or acts. *)
Lemma acts_syscall {A : Type} g op (f : world → errno + (A * option fs)) (Q : phase → result A → Prop) :
  (∀ e, Q g (Err (ErrOs op e))) →
  (∀ w a o, nolinks (w_fs w) → owns g (w_fs w) → f w = inr (a, o) →
     ∃ g', action t data g (w_fs w) g' (default (w_fs w) o) ∧ Q g' (Ok a)) →
  acts t data g (p_call (syscall op f)) Q.
Proof.
  intros Herr Hok w Hn Ho. unfold syscall. set (w1 := set_faults w (tail (w_faults w))).
  assert (∃ r w' g', match f w1 with
      | inl e => Some (Err (ErrOs op e), w1)
      | inr (a, None) => Some (Ok a, w1)
      | inr (a, Some s) => Some (Ok a, set_fs w1 s)
      end = Some (r, w') ∧ action t data g (w_fs w) g' (w_fs w') ∧ acts t data g' (PDone r) Q) as H.
  { destruct (f w1) as [e|[a o]] eqn:E.
    - exists (Err (ErrOs op e)), w1, g. split_and!; [done|apply act_none|apply Herr].
    - destruct (Hok w1 a o Hn Ho E) as (g' & Ha & HQ). destruct o as [s|]; eexists _, _, g'; by split_and!. }
  destruct (head (w_faults w)) as [[e|]|]; [|exact H..].
  exists (Err (ErrOs op e)), w1, g. split_and!; [done|apply act_none|apply Herr].
Qed.

Lemma acts_read {A : Type} g op (f : world → errno + (A * option fs)) (Q : phase → result A → Prop) :
  (∀ w a o, f w = inr (a, o) → o = None) → (∀ r, Q g r) → acts t data g (p_call (syscall op f)) Q.
Proof.
  intros Hf HQ. apply acts_syscall; [done|]. intros w a o _ _ E. apply Hf in E as ->. exists g. split; [apply act_none|done].
Qed.

Ltac reads := apply acts_read; [intros; repeat case_match; by simplify_eq|].

(** The target is [d ++ [c]], and its name is not that of a temporary file. *)
Context (d : loc) (c : string).
Hypothesis t_eq : t = d ++ [c].
Hypothesis t_normal : Forall normal t.
Hypothesis t_not_temp : ¬ temp_named t.

Lemma d_normal : Forall normal d.
Proof. rewrite t_eq in t_normal. by apply Forall_app in t_normal as [? _]. Qed.

Lemma acts_mkdir_all fuel k g perm :
  k `prefix_of` d → String.length (render true k) < fuel →
  acts t data g (p_mkdir_all fuel (render true k) perm) (fun g' _ => g' = g).
Proof.
  revert k g. induction fuel as [|fuel IH]; intros k g Hk Hf; [lia|]. cbn [p_mkdir_all].
  assert (Forall normal k) as Hkn by (destruct Hk as [x E]; pose proof d_normal as Hd; rewrite E in Hd; by apply Forall_app in Hd as [? _]).
  eapply acts_try with (Q := fun g' _ => g' = g); [by reads|]. intros g' st ->.
  destruct st as [n|e]; [by destruct (is_dir n)|]. cbv zeta.
  eapply acts_bind with (Q := fun g' _ => g' = g); [|intros g' [] ->|done].
  { destruct k as [|x k _] using rev_ind; [done|]. apply Forall_app in Hkn as [Hk1 Hx]. inversion_clear Hx.
    rewrite parent_path_render by done. rewrite bool_decide_eq_false_2 by done. apply IH.
    - etrans; [|exact Hk]. by apply prefix_app_r.
    - assert (String.length (render true k) < String.length (render true (k ++ [x]))) by by apply length_render_snoc. lia. }
  eapply acts_try with (Q := fun g' _ => g' = g).
  - apply acts_syscall; [done|]. intros w a o Hn _ E. exists g. split; [|done].
    destruct (resolve w false (render true k)) as [|q] eqn:Er; [done|]. apply resolve_nolinks in Er; [|done..]. subst q.
    destruct (w_fs w !! k) eqn:El; [done|]. injection E as <- <-. apply act_mkdir; [done| |].
    + rewrite t_eq. by apply prefix_app_r.
    + rewrite t_eq. intros ->. apply prefix_length in Hk. rewrite length_app in Hk. simpl in Hk. lia.
  - intros g' r ->. destruct r as [|e']; [done|].
    eapply acts_try with (Q := fun g' _ => g' = g); [by reads|]. intros g' st ->. destruct st as [n|]; [by destruct (is_dir n)|done].
Qed.

(** Ends with a fresh temporary file, or without one. *)
Definition temp_phase (g : phase) (r : result (string * loc)) : Prop :=
  match r with
  | Ok (name, h) => name = render true h ∧ Forall normal h ∧ temp_named h ∧ g = Writing h ""
  | Err _ => g = Before
  end.

Lemma acts_create_temp tries : acts t data Before (p_create_temp tries (render true d) ".tmp-") temp_phase.
Proof.
  induction tries as [|tries IH]; cbn [p_create_temp]; [done|].
  eapply acts_bind with (Q := fun g _ => g = Before); [|intros g r ->|by intros g e ->].
  { intros w Hn Ho. eexists _, _, Before. split_and!; [done|apply act_none|done]. }
  cbv zeta. rewrite temp_path_render by apply d_normal.
  assert (Forall normal (d ++ [".tmp-" +:+ pretty r])) as Hnorm.
  { apply Forall_app. split; [apply d_normal|]. constructor; [|constructor].
    apply normal_temp. split; [by vm_compute|simpl; lia]. }
  eapply acts_try with (Q := fun g f => match f with
    | Ok h => h = d ++ [".tmp-" +:+ pretty r] ∧ g = Writing h "" | Err _ => g = Before end).
  - apply acts_syscall; [done|]. intros w a o Hn _ E.
    destruct (resolve w false _) as [|q] eqn:Er; [done|]. apply resolve_nolinks in Er; [|done..]. subst q.
    destruct (w_fs w !! _) eqn:El; [done|]. injection E as <- <-.
    exists (Writing (d ++ [".tmp-" +:+ pretty r]) ""). split; [|done].
    apply act_create; [done|]. by eexists _, _.
  - intros g [h|e]; [intros [-> ->]|intros ->].
    + split_and!; [done|done|by eexists _, _|done].
    + by destruct e as [| |op []| | |].
Qed.

Lemma acts_write_blocks h x bs :
  acts t data (Writing h x) (p_write_blocks h bs)
    (fun g r => ∃ y, g = Writing h y ∧ (r = Ok tt → y = x +:+ foldr String.append "" bs)).
Proof.
  revert x. induction bs as [|b bs IH]; intros x; cbn [p_write_blocks].
  { exists x. split; [done|]. intros _. simpl. by rewrite append_nil_r. }
  eapply acts_bind with (Q := fun g r => g = Writing h (match r with Ok _ => x +:+ b | Err _ => x end)).
  - apply acts_syscall; [done|]. intros w a o Hn [m Hm] E. rewrite Hm in E. injection E as <- <-.
    eexists. split; [|done]. by apply act_write.
  - intros g [] ->. eapply acts_weaken; [apply IH|]. intros g r (y & -> & Hy). exists y. split; [done|].
    intros Hr. rewrite (Hy Hr). simpl. by rewrite append_assoc.
  - intros g e ->. by exists x.
Qed.

Lemma acts_Rename h :
  Forall normal h → temp_named h →
  acts t data (Writing h data) (p_Rename (render true h) (render true t))
    (fun g r => match r with Ok _ => g = Installed | Err _ => g = Writing h data end).
Proof.
  intros Hh Htmp. unfold p_Rename.
  eapply acts_bind with (Q := fun g _ => g = Writing h data); [|intros g [] ->|by intros g e ->].
  - eapply acts_try with (Q := fun g _ => g = Writing h data); [by reads|]. intros g fi ->.
    destruct fi as [n|e]; [|done]. destruct (is_dir n); [|done].
    eapply acts_bind with (Q := fun g _ => g = Writing h data); [by reads|intros g n' ->|by intros g e ->].
    eapply acts_bind with (Q := fun g _ => g = Writing h data); [|intros g same ->|by intros g e ->].
    + intros w Hn Ho. eexists _, _, _. split_and!; [done|apply act_none|done].
    + by destruct (_ || _).
  - apply acts_syscall; [done|]. intros w a o Hn [m Hm] E.
    destruct (resolve w false (render true h)) as [|q] eqn:E1; [done|].
    destruct (resolve w false (render true t)) as [|q'] eqn:E2; [done|].
    apply resolve_nolinks in E1, E2; [|done..]. subst q q'. unfold rename_loc in E. rewrite Hm in E.
    assert (h ≠ t) as Hne by by intros ->. rewrite bool_decide_eq_false_2 in E by done.
    exists Installed. split; [|done].
    destruct (w_fs w !! t) as [[m'|m' x'|t']|] eqn:Et; [done|..]; injection E as <- <-;
      (apply act_install; [done..|intros m''; by rewrite Et]).
Qed.
End Acts.

(** ** The whole write *)

Lemma acts_AtomicWrite l path r t d c :
  rooted (LocalStorage.base l) = true → t = clean_comps (LocalStorage.full l path) → t = d ++ [c] → ¬ temp_named t →
  acts t (reader_data r) Before (p_AtomicWrite l path r)
    (fun g res => match res with Ok _ => g = Installed | Err _ => g ≠ Installed end).
Proof.
  intros Hb Ht Hdc Htmp. destruct (full_render l path Hb) as [Hf Hn]. rewrite <- Ht in Hf, Hn.
  unfold p_AtomicWrite. cbv zeta. rewrite Hf.
  assert (Dir (render true t) = render true d) as ->.
  { rewrite Hdc in *. apply Forall_app in Hn as [? Hc]. apply Dir_render_snoc; [done|by inversion Hc]. }
  eapply acts_bind with (Q := fun g _ => g = Before).
  { apply (acts_mkdir_all t _ d c); [done..|lia]. }
  2: by intros g e ->.
  intros g [] ->. eapply acts_bind; [by apply (acts_create_temp t _ d c)| |].
  2: by intros g e ->.
  intros g [tmpName h] (-> & Hh & Hht & ->).
  eapply acts_try with (Q := fun g res => ∃ y, g = Writing h y ∧ (res = Ok tt → y = reader_data r)).
  { unfold p_Copy. eapply acts_bind; [apply acts_write_blocks| |].
    - intros g [] (y & -> & Hy). destruct (read_end r); exists y; by auto.
    - intros g e (y & -> & _). by exists y. }
  intros g res (y & -> & Hy). destruct res as [[]|e].
  - rewrite Hy by done. eapply acts_try with (Q := fun g _ => g = Writing h (reader_data r)).
    + apply acts_read; [intros; by simplify_eq|done].
    + intros g ? ->. eapply acts_weaken; [by apply (acts_Rename t _ d c)|]. intros g [] ->; done.
  - eapply acts_try with (Q := fun g _ => g = Writing h y).
    + apply acts_read; [intros; by simplify_eq|done].
    + by intros g ? ->.
Qed.

(** ** The system of writers *)

Record write_job := mkJob { j_store : LocalStorage.LocalStorage; j_path : string; j_reader : reader }.

Definition target (j : write_job) : loc := clean_comps (LocalStorage.full (j_store j) (j_path j)).
Definition job_data (j : write_job) : string := reader_data (j_reader j).
Definition job_proc (j : write_job) : proc unit := p_AtomicWrite (j_store j) (j_path j) (j_reader j).

(** The base is a rooted path, the target is not the root, and its name is not one that
    temporary files get. *)
Definition job_ok (j : write_job) : Prop :=
  rooted (LocalStorage.base (j_store j)) = true ∧ target j ≠ [] ∧ ¬ temp_named (target j).

Section System.
Context (jobs : list write_job) (s0 : fs).

(** The abstract object: the last write to [q] among the writes that took effect, in order. *)
Definition last_write (hist : list nat) (q : loc) : option string :=
  last (omap (fun i => j ← jobs !! i; if decide (target j = q) then Some (job_data j) else None) hist).

(** What is at a location that no temporary file uses. *)
Definition seen (s : fs) (hist : list nat) (q : loc) : Prop :=
  match last_write hist q with
  | Some x => ∃ m, s !! q = Some (NFile m x)
  | None => s !! q = s0 !! q ∨
      (s0 !! q = None ∧ (∃ j, j ∈ jobs ∧ q `prefix_of` target j ∧ q ≠ target j) ∧ ∃ m, s !! q = Some (NDir m))
  end.

Definition write_end (g : phase) (r : result unit) : Prop :=
  match r with Ok _ => g = Installed | Err _ => g ≠ Installed end.

Record inv (w : world) (ps : list (proc unit)) (gs : list phase) (hist : list nat) : Prop := {
  inv_nolinks : nolinks (w_fs w);
  inv_length : length ps = length jobs ∧ length gs = length jobs;
  inv_acts : ∀ i j p g, jobs !! i = Some j → ps !! i = Some p → gs !! i = Some g →
    acts (target j) (job_data j) g p write_end;
  inv_owns : ∀ i g, gs !! i = Some g → owns g (w_fs w);
  inv_temp : ∀ i h x, gs !! i = Some (Writing h x) → temp_named h;
  inv_apart : ∀ i i' h x x', gs !! i = Some (Writing h x) → gs !! i' = Some (Writing h x') → i = i';
  inv_hist : NoDup hist ∧ ∀ i, i ∈ hist ↔ gs !! i = Some Installed;
  inv_seen : ∀ q, ¬ temp_named q → seen (w_fs w) hist q
}.

Lemma last_write_snoc hist i j q :
  jobs !! i = Some j →
  last_write (hist ++ [i]) q = if decide (target j = q) then Some (job_data j) else last_write hist q.
Proof.
  intros Hj. unfold last_write. rewrite omap_app. simpl. rewrite Hj. simpl.
  case_decide; [apply last_snoc|by rewrite app_nil_r].
Qed.

(** A location where nothing is has not been written. *)
Lemma seen_None s hist q : seen s hist q → s !! q = None → last_write hist q = None ∧ s0 !! q = None.
Proof.
  unfold seen. intros Hs Hq. rewrite Hq in Hs. destruct (last_write hist q); [by destruct Hs|].
  split; [done|]. destruct Hs as [->|(_ & _ & m & ?)]; done.
Qed.

(** One process moves on: what is left to check. *)
Lemma inv_update w ps gs hist i j p w' p' g' hist' :
  inv w ps gs hist → jobs !! i = Some j → ps !! i = Some p →
  acts (target j) (job_data j) g' p' write_end →
  nolinks (w_fs w') → owns g' (w_fs w') →
  (∀ i' h x, i' ≠ i → gs !! i' = Some (Writing h x) → w_fs w' !! h = w_fs w !! h) →
  (∀ h x, g' = Writing h x → temp_named h ∧ ∀ i' x', i' ≠ i → gs !! i' ≠ Some (Writing h x')) →
  NoDup hist' ∧ (∀ i', i' ∈ hist' ↔ <[i := g']> gs !! i' = Some Installed) →
  (∀ q, ¬ temp_named q → seen (w_fs w') hist' q) →
  inv w' (<[i := p']> ps) (<[i := g']> gs) hist'.
Proof.
  intros [Hn [Hl1 Hl2] Ha Ho Ht Hap Hh Hs] Hj Hp Hacts Hn' Ho' Hother Hnew Hhist' Hseen'.
  assert (i < length gs) as Hi by (rewrite Hl2; by eapply lookup_lt_Some).
  split; [done|by rewrite !length_insert| | | | |done|done].
  - intros i' j' p2 g2 Hj2 Hp2 Hg2. rewrite list_lookup_insert_Some in Hp2. rewrite list_lookup_insert_Some in Hg2.
    destruct Hp2 as [(<- & <- & _)|[Hne Hp2]], Hg2 as [(? & <- & _)|[? Hg2]]; try done.
    + rewrite Hj in Hj2. by simplify_eq.
    + by eapply Ha.
  - intros i' g2 Hg2. rewrite list_lookup_insert_Some in Hg2. destruct Hg2 as [(_ & <- & _)|[Hne Hg2]]; [done|].
    specialize (Ho _ _ Hg2). destruct g2 as [|h x|]; [done| |done]. destruct Ho as [m Hm]. exists m.
    by rewrite (Hother i' h x).
  - intros i' h x Hg2. rewrite list_lookup_insert_Some in Hg2. destruct Hg2 as [(_ & -> & _)|[Hne Hg2]]; [by eapply Hnew|by eapply Ht].
  - intros i1 i2 h x1 x2 H1 H2. rewrite list_lookup_insert_Some in H1. rewrite list_lookup_insert_Some in H2.
    destruct H1 as [(<- & -> & _)|[Hn1 H1]], H2 as [(<- & E2 & _)|[Hn2 H2]]; [done| | |by eapply Hap].
    + destruct (Hnew h x1 eq_refl) as [_ Hno]. by destruct (Hno i2 x2).
    + destruct (Hnew h x2 E2) as [_ Hno]. by destruct (Hno i1 x1).
Qed.

Hypothesis jobs_ok : Forall job_ok jobs.

Lemma target_not_temp i j : jobs !! i = Some j → ¬ temp_named (target j).
Proof. intros Hj. rewrite Forall_lookup in jobs_ok. apply (jobs_ok _ _ Hj). Qed.

Lemma hist_keep w ps gs hist i g g' :
  inv w ps gs hist → gs !! i = Some g → (g = Installed ↔ g' = Installed) →
  NoDup hist ∧ ∀ i', i' ∈ hist ↔ <[i := g']> gs !! i' = Some Installed.
Proof.
  intros [_ _ _ _ _ _ [Hnd Hh] _] Hg Hgg. split; [done|]. intros i'. rewrite Hh, list_lookup_insert.
  case_decide as E; [|done]. destruct E as [<- _]. rewrite Hg. split; intros [= ->]; f_equal; by apply Hgg.
Qed.

(** Whatever a process does, the invariant holds again, and at most its own write is added to
    the writes that took effect. *)
Lemma inv_action w ps gs hist i j p g w' p' g' :
  inv w ps gs hist → jobs !! i = Some j → ps !! i = Some p → gs !! i = Some g →
  action (target j) (job_data j) g (w_fs w) g' (w_fs w') →
  acts (target j) (job_data j) g' p' write_end →
  ∃ hist', hist `prefix_of` hist' ∧ inv w' (<[i := p']> ps) (<[i := g']> gs) hist'.
Proof.
  intros HI Hj Hp Hg Hact Hacts. pose proof HI as [Hn Hlen _ Ho Ht Hap [Hnd Hh] Hs].
  assert (∀ h x i' h' x', g = Writing h x → i' ≠ i → gs !! i' = Some (Writing h' x') → h' ≠ h) as Hmine.
  { intros h x i' h' x' -> Hne Hi' ->. by apply Hne, (Hap i' i h x' x). }
  assert (∀ i' h x, gs !! i' = Some (Writing h x) → w_fs w !! h ≠ None) as Hthere.
  { intros i' h x Hi'. apply Ho in Hi' as [m ->]. done. }
  assert (∀ q q' x' i', w_fs w !! q = None → gs !! i' = Some (Writing q' x') → q ≠ q') as Hfree.
  { intros q q' x' i' Hq Hi' ->. by eapply Hthere. }
  remember (w_fs w') as s' eqn:Es'. remember (w_fs w) as s eqn:Es.
  destruct Hact as [g s|g s q m Hq Hqp Hqt|s h m Hh0 Htmp|s h m x y Hx|s h m Hx Hht Hdir].
  - exists hist. split; [done|]. eapply (inv_update w ps gs hist); rewrite <- ?Es', <- ?Es; try done.
    + by eapply Ho.
    + intros h x ->. split; [by eapply Ht|]. intros i' x' Hne Hi'. by eapply Hmine.
    + by eapply hist_keep.
  - exists hist. split; [done|]. eapply (inv_update w ps gs hist); rewrite <- ?Es', <- ?Es; try done.
    + by apply nolinks_insert.
    + specialize (Ho _ _ Hg). destruct g as [|h x|]; [done| |done]. destruct Ho as [m' Hm'].
      exists m'. rewrite lookup_insert_ne; [done|]. by intros ->; rewrite Hq in Hm'.
    + intros i' h x Hne Hi'. apply lookup_insert_ne. by eapply Hfree.
    + intros h x ->. split; [by eapply Ht|]. intros i' x' Hne Hi'. by eapply Hmine.
    + by eapply hist_keep.
    + intros q' Hq'. specialize (Hs q' Hq'). destruct (decide (q = q')) as [<-|Hne].
      * destruct (seen_None _ _ _ Hs Hq) as [E1 E2]. unfold seen. rewrite E1, lookup_insert_eq. right.
        split_and!; [done| |by eexists]. exists j. split_and!; [by eapply list_elem_of_lookup_2|done|done].
      * unfold seen in *. by rewrite lookup_insert_ne.
  - exists hist. split; [done|]. eapply (inv_update w ps gs hist); rewrite <- ?Es', <- ?Es; try done.
    + by apply nolinks_insert.
    + exists m. by rewrite lookup_insert_eq.
    + intros i' h' x Hne Hi'. apply lookup_insert_ne. by eapply Hfree.
    + intros h' x [= <- <-]. split; [done|]. intros i' x' Hne Hi'. by eapply Hfree.
    + by eapply hist_keep.
    + intros q' Hq'. specialize (Hs q' Hq'). unfold seen in *. rewrite lookup_insert_ne; [done|]. by intros ->.
  - exists hist. split; [done|]. eapply (inv_update w ps gs hist); rewrite <- ?Es', <- ?Es; try done.
    + by apply nolinks_insert.
    + exists m. by rewrite lookup_insert_eq.
    + intros i' h' x' Hne Hi'. apply lookup_insert_ne. symmetry. by eapply Hmine.
    + intros h' x' [= <- <-]. split; [by eapply Ht|]. intros i' x' Hne Hi'. by eapply Hmine.
    + by eapply hist_keep.
    + intros q' Hq'. specialize (Hs q' Hq'). unfold seen in *. rewrite lookup_insert_ne; [done|].
      intros <-. apply Hq'. by eapply Ht.
  - pose proof (target_not_temp _ _ Hj) as Htt.
    exists (hist ++ [i]). split; [by exists [i]|]. eapply (inv_update w ps gs hist); rewrite <- ?Es', <- ?Es; try done.
    + apply nolinks_insert; [by apply nolinks_delete|done].
    + intros i' h' x' Hne Hi'. rewrite lookup_insert_ne by (intros <-; by apply Htt, (Ht _ _ _ Hi')).
      apply lookup_delete_ne. symmetry. by eapply Hmine.
    + split.
      * apply NoDup_app. split_and!; [done| |apply NoDup_singleton]. intros i' Hi' ->%list_elem_of_singleton.
        apply Hh in Hi'. congruence.
      * intros i'. rewrite elem_of_app, Hh, list_elem_of_singleton, list_lookup_insert.
        case_decide as E; [naive_solver|]. split; [intros [?| ->]; [done|]|by left].
        destruct E. split; [done|]. by eapply lookup_lt_Some.
    + intros q' Hq'. specialize (Hs q' Hq'). unfold seen in *. rewrite (last_write_snoc _ _ j) by done.
      case_decide as E; [subst q'; exists m; by rewrite lookup_insert_eq|].
      rewrite lookup_insert_ne, lookup_delete_ne; [done| |done]. intros <-. apply Hq'. by eapply Ht.
Qed.

Lemma inv_step w ps gs hist w' ps' :
  inv w ps gs hist → step (w, ps) (w', ps') →
  ∃ gs' hist', hist `prefix_of` hist' ∧ inv w' ps' gs' hist'.
Proof.
  intros HI Hstep. inversion Hstep as [w1 ps1 i X m k r w1' Hi Hm]; subst. pose proof HI as [Hn [Hl1 Hl2] Ha Ho _ _ _ _].
  destruct (lookup_lt_is_Some_2 jobs i) as [j Hj]; [rewrite <- Hl1; by eapply lookup_lt_Some|].
  destruct (lookup_lt_is_Some_2 gs i) as [g Hg]; [rewrite Hl2, <- Hl1; by eapply lookup_lt_Some|].
  destruct (Ha _ _ _ _ Hj Hi Hg w Hn (Ho _ _ Hg)) as (r' & w2 & g' & E & Hact & Hacts).
  rewrite Hm in E. injection E as <- <-.
  destruct (inv_action w ps gs hist i j (PStep m k) g w' (k r) g') as (hist' & Hp & HI'); [done..|]. eauto.
Qed.

Lemma inv_steps c c' gs hist :
  inv c.1 c.2 gs hist → rtc step c c' → ∃ gs' hist', hist `prefix_of` hist' ∧ inv c'.1 c'.2 gs' hist'.
Proof.
  intros HI Hs. revert gs hist HI. induction Hs as [c|[w1 ps1] [w2 ps2] c3 Hstep _ IH]; intros gs hist HI.
  { exists gs, hist. by split. }
  destruct (inv_step _ _ _ _ _ _ HI Hstep) as (gs2 & hist2 & Hp & HI2).
  destruct (IH gs2 hist2 HI2) as (gs3 & hist3 & Hp3 & HI3). exists gs3, hist3. split; [by etrans|done].
Qed.

Lemma inv_init w : s0 = w_fs w → nolinks s0 → inv w (job_proc <$> jobs) (replicate (length jobs) Before) [].
Proof.
  intros E Hn. split.
  - by rewrite <- E.
  - by rewrite length_fmap, length_replicate.
  - intros i j p g Hj Hp Hg. apply lookup_replicate in Hg as [-> _]. rewrite list_lookup_fmap, Hj in Hp.
    injection Hp as <-. rewrite Forall_lookup in jobs_ok. destruct (jobs_ok _ _ Hj) as (Hb & Hne & Htt).
    destruct (target j) as [|c d _] eqn:Et using rev_ind; [done|].
    apply (acts_AtomicWrite _ _ _ _ d c); [done|by rewrite <- Et|done..].
  - intros i g Hg. by apply lookup_replicate in Hg as [-> _].
  - intros i h x Hg. by apply lookup_replicate in Hg as [? _].
  - intros i i' h x x' Hg. by apply lookup_replicate in Hg as [? _].
  - split; [constructor|]. intros i. rewrite elem_of_nil. split; [done|]. intros Hg. by apply lookup_replicate in Hg as [? _].
  - intros q _. left. by rewrite <- E.
Qed.
End System.

(** ** Linearizability *)

(** The configuration is explained by the writes of [hist], taken atomically and in that order:
    the writes that have returned success are among them and those that have returned an error
    are not, every target holds the last of them or what it held before, every location that is
    not on the way to a target and has no temporary name is untouched, and every process that
    has not returned can go on. *)
Definition explains (jobs : list write_job) (w0 : world) (hist : list nat) (c : config) : Prop :=
  NoDup hist ∧ (∀ i, i ∈ hist → i < length jobs) ∧
  (∀ i r, c.2 !! i = Some (PDone r) → r = Ok tt ↔ i ∈ hist) ∧
  (∀ j, j ∈ jobs → content (w_fs c.1) (target j) =
     match last_write jobs hist (target j) with Some x => Some x | None => content (w_fs w0) (target j) end) ∧
  (∀ q, ¬ temp_named q → (∀ j, j ∈ jobs → ¬ q `prefix_of` target j) → w_fs c.1 !! q = w_fs w0 !! q) ∧
  (∀ i X (m : prog world X) k, c.2 !! i = Some (PStep m k) → ∃ r w', step c (w', <[i := k r]> c.2)).

Lemma inv_explains jobs w0 w ps gs hist :
  Forall job_ok jobs → inv jobs (w_fs w0) w ps gs hist → explains jobs w0 hist (w, ps).
Proof.
  intros Hok [Hn [Hl1 Hl2] Ha Ho Ht Hap [Hnd Hh] Hs]. split_and!; simpl.
  - done.
  - intros i Hi. apply Hh in Hi. rewrite <- Hl2. by eapply lookup_lt_Some.
  - intros i r Hi. destruct (lookup_lt_is_Some_2 jobs i) as [j Hj]; [rewrite <- Hl1; by eapply lookup_lt_Some|].
    destruct (lookup_lt_is_Some_2 gs i) as [g Hg]; [rewrite Hl2, <- Hl1; by eapply lookup_lt_Some|].
    pose proof (Ha _ _ _ _ Hj Hi Hg) as Hend. simpl in Hend. rewrite Hh, Hg.
    destruct r as [[]|e]; simpl in Hend; [by subst|]. split; [done|]. by intros [= ->].
  - intros j Hj. apply list_elem_of_lookup_1 in Hj as [i Hj].
    specialize (Hs (target j) (target_not_temp _ Hok _ _ Hj)). unfold seen in Hs. unfold content.
    destruct (last_write jobs hist (target j)) as [x|].
    + destruct Hs as [m ->]. done.
    + destruct Hs as [->|(-> & _ & m & ->)]; done.
  - intros q Hq Hnp. specialize (Hs q Hq). unfold seen in Hs.
    assert (last_write jobs hist q = None) as E.
    { unfold last_write. apply last_None. apply elem_of_nil_inv. intros x Hx.
      apply list_elem_of_omap in Hx as (i & _ & Hi). destruct (jobs !! i) as [j|] eqn:Hj; simpl in Hi; [|done].
      case_decide as E; [|done]. apply (Hnp j); [by eapply list_elem_of_lookup_2|by rewrite E]. }
    rewrite E in Hs. destruct Hs as [->|(_ & (j & Hj & Hp & _) & _)]; [done|]. by destruct (Hnp j).
  - intros i X m k Hi. destruct (lookup_lt_is_Some_2 jobs i) as [j Hj]; [rewrite <- Hl1; by eapply lookup_lt_Some|].
    destruct (lookup_lt_is_Some_2 gs i) as [g Hg]; [rewrite Hl2, <- Hl1; by eapply lookup_lt_Some|].
    destruct (Ha _ _ _ _ Hj Hi Hg w Hn (Ho _ _ Hg)) as (r & w' & _ & E & _). exists r, w'. by eapply step_call.
Qed.

(** C4: Concurrent atomic writes are linearizable. Let any number of [AtomicWrite] calls run
    at the same time on a disk without links, their system calls interleaved in any order and
    failing at will. Then any two configurations reached one after the other are explained by
    atomic writes, the later one by the same writes and possibly more: no reader ever sees
    anything but the old content or a complete new one, a success that was reported stays in
    the history, and an order observed once is never revised. *)
Theorem concurrent_writes_linearizable jobs w c1 c2 :
  Forall job_ok jobs → nolinks (w_fs w) →
  rtc step (w, job_proc <$> jobs) c1 → rtc step c1 c2 →
  ∃ hist1 hist2, hist1 `prefix_of` hist2 ∧ explains jobs w hist1 c1 ∧ explains jobs w hist2 c2.
Proof.
  intros Hok Hn H1 H2. pose proof (inv_init jobs (w_fs w) Hok w eq_refl Hn) as HI.
  destruct (inv_steps _ _ Hok _ _ _ _ (HI : inv _ _ (w, job_proc <$> jobs).1 (w, job_proc <$> jobs).2 _ _) H1) as (gs1 & hist1 & _ & HI1).
  destruct (inv_steps _ _ Hok _ _ _ _ HI1 H2) as (gs2 & hist2 & Hp & HI2).
  exists hist1, hist2. destruct c1, c2. split_and!; [done|by eapply inv_explains..].
Qed.

(** ** A concrete race *)

(** Runs the processes of a schedule, one call at a time. *)
Fixpoint run_schedule (sched : list nat) (c : config) : option config :=
  match sched with
  | [] => Some c
  | i :: sched' =>
      match c.2 !! i with
      | Some (PStep m k) =>
          match m c.1 with
          | Some (r, w') => run_schedule sched' (w', <[i := k r]> c.2)
          | None => None
          end
      | _ => None
      end
  end.

Lemma run_schedule_steps sched c c' : run_schedule sched c = Some c' → rtc step c c'.
Proof.
  revert c. induction sched as [|i sched IH]; intros [w ps]; simpl; [by intros [= ->]|].
  destruct (ps !! i) as [[r|X m k]|] eqn:Hi; try done. destruct (m w) as [[r w']|] eqn:Hm; [|done].
  intros H. eapply rtc_l; [by eapply step_call|by apply IH].
Qed.

Definition race_world : world := mkWorld {[ [] := NDir 493%N ]} [] (fun n => N.of_nat (n / 2)) 0 18%N [] [].
Definition race_jobs : list write_job :=
  [mkJob (LocalStorage.New "/srv") "x" (mkReader ["one"; "1"] None);
   mkJob (LocalStorage.New "/srv") "x" (mkReader ["two"] None)].

(** Both writers draw the same temporary name first; the second one draws again. *)
Definition race_first : list nat := [0; 1; 0; 1; 0; 1; 1; 0; 0; 1; 0; 1; 1].
Definition race_second : list nat := [1; 0; 1; 0; 1; 0; 1; 0; 1].

Lemma race_jobs_ok : Forall job_ok race_jobs.
Proof.
  assert (∀ d (n : N), ["srv"; "x"] ≠ d ++ [".tmp-" +:+ pretty n]) as H.
  { intros d n E. apply (f_equal last) in E. rewrite last_snoc in E. by injection E. }
  repeat constructor; try done; intros (d & n & E); by eapply H.
Qed.

Lemma race_nolinks : nolinks (w_fs race_world).
Proof. intros k t H. simpl in H. by apply lookup_singleton_Some in H as [_ ?]. Qed.

Lemma concurrent_writes_linearizable_witness :
  match run_schedule race_first (race_world, job_proc <$> race_jobs) with
  | Some c1 =>
      match run_schedule race_second c1 with
      | Some c2 =>
          content (w_fs c2.1) ["srv"; "x"] = Some "two" ∧
          ∃ hist1 hist2, hist1 `prefix_of` hist2 ∧
            explains race_jobs race_world hist1 c1 ∧ explains race_jobs race_world hist2 c2
      | None => False
      end
  | None => False
  end.
Proof.
  assert (match run_schedule race_first (race_world, job_proc <$> race_jobs) with
          | Some c1 => match run_schedule race_second c1 with
                       | Some c2 => content (w_fs c2.1) ["srv"; "x"] | None => None end
          | None => None end = Some "two") as H by (vm_compute; reflexivity).
  destruct (run_schedule race_first (race_world, job_proc <$> race_jobs)) as [c1|] eqn:E1; [|discriminate H].
  destruct (run_schedule race_second c1) as [c2|] eqn:E2; [|discriminate H].
  split; [exact H|].
  exact (concurrent_writes_linearizable race_jobs race_world c1 c2 race_jobs_ok race_nolinks
           (run_schedule_steps _ _ _ E1) (run_schedule_steps _ _ _ E2)).
Defined.
