(* ===== verification/ObjectStore.v ===== *)
(** * Object stores

    What the object-store backends (S3 and GCS) have in common: the objects of a service by
    bucket and key, the effect of a call that may have acted although it reported an error, and
    the temporary keys of the emulated atomic write. *)
From S2P Require Import Prelude GoStrings.

#[local] Open Scope string_scope.
#[local] Open Scope list_scope.

(** The objects by bucket and key. *)
Abbreviation objects := (gmap (string * string) string).

(** The effect of storing [k := v], done if the call succeeded, and perhaps also done if it
    reported an error. *)
Definition stored (b k v : string) (ok : bool) (o o' : objects) : Prop :=
  o' = <[(b, k) := v]> o ∨ (ok = false ∧ o' = o).

Lemma tmp_not_final k hex : k +:+ ".tmp-" +:+ hex ≠ k.
Proof. intros E%(f_equal String.length). rewrite length_append in E. simpl in E. lia. Qed.

Section Frame.
Context {W : Type} (objs : W → objects) (bucket : string).

(** Only the keys [ks] of the bucket may have changed. *)
Definition frame (ks : list string) (w w' : W) : Prop :=
  ∀ b k, (b = bucket → k ∉ ks) → objs w' !! (b, k) = objs w !! (b, k).

Lemma frame_insert k v ks w w' : k ∈ ks → objs w' = <[(bucket, k) := v]> (objs w) → frame ks w w'.
Proof.
  intros Hk Ho b k' Hn. rewrite Ho. apply lookup_insert_ne. intros [= <- <-]. by apply Hn.
Qed.

Lemma frame_delete k ks w w' : k ∈ ks → objs w' = delete (bucket, k) (objs w) → frame ks w w'.
Proof.
  intros Hk Ho b k' Hn. rewrite Ho. apply lookup_delete_ne. intros [= <- <-]. by apply Hn.
Qed.

Lemma frame_same ks w w' : objs w' = objs w → frame ks w w'.
Proof. intros Ho b k _. by rewrite Ho. Qed.

Lemma frame_trans ks w1 w2 w3 : frame ks w1 w2 → frame ks w2 w3 → frame ks w1 w3.
Proof. intros H1 H2 b k Hk. by rewrite H2, H1. Qed.

Lemma frame_stored k v ok ks w w' : k ∈ ks → stored bucket k v ok (objs w) (objs w') → frame ks w w'.
Proof. intros Hk [Ho|[_ Ho]]; [by eapply frame_insert|by apply frame_same]. Qed.

Lemma frame_mono ks ks' w w' : ks ⊆ ks' → frame ks w w' → frame ks' w w'.
Proof. intros Hs Hf b k Hk. apply Hf. intros ->. specialize (Hk eq_refl). set_solver. Qed.
End Frame.
