(* ===== verification/S3.v ===== *)
(** * The S3 backend

    [internal/adapters/storage/s3/s3_storage.go]. The AWS client is a parameter; the laws it is
    assumed to satisfy are those the S3 documentation gives (an object is stored whole or not
    at all, a copy names its source URL-encoded, listings are by prefix and delimiter), and an
    error reply may arrive after the service has acted. *)
From Stdlib Require Import Ascii.
From S2P Require Import Prelude GoStrings Jwt PosixFs Storage.

#[local] Open Scope string_scope.
#[local] Open Scope nat_scope.
#[local] Open Scope list_scope.
#[local] Open Scope go_scope.

(** ** crypto/rand and encoding/hex *)

Definition hex_digit (n : N) : ascii := ascii_of_N (if (n <? 10)%N then 48 + n else 87 + n).

Fixpoint EncodeToString (b : list N) : string :=
  match b with
  | [] => ""
  | x :: b' => String (hex_digit (x / 16)) (String (hex_digit (x mod 16)) (EncodeToString b'))
  end.

(** ** The client *)

Record s3_object := mkS3Object { obj_Key : option string; obj_Size : option Z }.
Record s3_page := mkS3Page { CommonPrefixes : list (option string); Contents : list s3_object }.

(** The operations of [*s3.Client] the code calls, and the random source of the process. The
    pages of a listing are those the paginator would deliver, in order; an error ends it. *)
Record s3_client (W : Type) := mkS3Client {
  rand_Read : nat → prog W (list N);
  PutObject : context → string → string → reader → prog W unit;
  CopyObject : context → string → string → string → prog W unit;
  DeleteObject : context → string → string → prog W unit;
  HeadObject : context → string → string → prog W unit;
  GetObject : context → string → string → prog W (ReadCloser W);
  ListObjectsV2 : context → string → string → string → prog W (list (result s3_page))
}.
Arguments mkS3Client {W}.
Arguments rand_Read {W}.
Arguments PutObject {W}.
Arguments CopyObject {W}.
Arguments DeleteObject {W}.
Arguments HeadObject {W}.
Arguments GetObject {W}.
Arguments ListObjectsV2 {W}.

Module S3.
Record S3Storage (W : Type) := mkS3Storage { client : s3_client W; bucket : string; prefix : string }.
Arguments mkS3Storage {W}.
Arguments client {W}.
Arguments bucket {W}.
Arguments prefix {W}.

Record Config := mkConfig {
  Bucket : string; Region : string; Prefix : string; Endpoint : string;
  AccessKeyID : string; SecretAccessKey : string; SessionToken : string
}.

(** The options handed to [config.LoadDefaultConfig]. *)
Inductive load_option :=
  | WithRegion (r : string)
  | WithStaticCredentials (id secret token : string).

Definition load_options (cfg : Config) : list load_option :=
  (if bool_decide (Region cfg = "") then [] else [WithRegion (Region cfg)]) ++
  (if negb (bool_decide (AccessKeyID cfg = "")) && negb (bool_decide (SecretAccessKey cfg = ""))
   then [WithStaticCredentials (AccessKeyID cfg) (SecretAccessKey cfg) (SessionToken cfg)] else []).

(** [LoadDefaultConfig] and [NewFromConfig], the latter with the custom endpoint and
    path-style addressing when one is configured. *)
Definition New {W aws} (LoadDefaultConfig : list load_option → result aws)
    (NewFromConfig : aws → option (string * bool) → s3_client W) (cfg : Config) : result (S3Storage W) :=
  if bool_decide (Bucket cfg = "") then Err (ErrNew "S3 bucket required")
  else match LoadDefaultConfig (load_options cfg) with
       | Err e => Err e
       | Ok awsCfg =>
           let c := NewFromConfig awsCfg
             (if bool_decide (Endpoint cfg = "") then None else Some (Endpoint cfg, true)) in
           Ok (mkS3Storage c (Bucket cfg) (Trim (Prefix cfg) "/"%char))
       end.

(** Minimal URL escaping for CopySource: spaces only. *)
Definition urlPathEscape (s : string) : string := ReplaceAll s " " "%20".

Section Operations.
Context {W : Type}.
Implicit Type s : S3Storage W.

Definition key s (path : string) : string :=
  let p := TrimPrefix path "/" in
  if bool_decide (prefix s = "") then p else prefix s +:+ "/" +:+ p.

(** The error of [rand.Read] is ignored: the buffer then keeps its zeros. *)
Definition randHex s (n : nat) : prog W string :=
  let! b := attempt (rand_Read (client s) n) in
  ret (EncodeToString (match b with Ok b => b | Err _ => repeat 0%N n end)).

Definition CreateFolder s (ctx : context) (path : string) : prog W unit :=
  let key := key s (TrimSuffix path "/" +:+ "/") in
  PutObject (client s) ctx (bucket s) key (mkReader [""] None).

Definition AtomicWrite s (ctx : context) (path : string) (r : reader) : prog W unit :=
  let finalKey := key s path in
  let! hex := randHex s 8 in
  let tmpKey := finalKey +:+ ".tmp-" +:+ hex in
  do! PutObject (client s) ctx (bucket s) tmpKey r in
  let copySource := urlPathEscape (bucket s +:+ "/" +:+ tmpKey) in
  do! CopyObject (client s) ctx (bucket s) finalKey copySource in
  let! _ := attempt (DeleteObject (client s) ctx (bucket s) tmpKey) in
  ret tt.

Definition Move s (ctx : context) (src dst : string) : prog W unit :=
  let srcKey := key s src in
  let dstKey := key s dst in
  let copySource := urlPathEscape (bucket s +:+ "/" +:+ srcKey) in
  do! CopyObject (client s) ctx (bucket s) dstKey copySource in
  DeleteObject (client s) ctx (bucket s) srcKey.

Definition Delete s (ctx : context) (path : string) : prog W unit :=
  DeleteObject (client s) ctx (bucket s) (key s path).

Definition Exists s (ctx : context) (path : string) : prog W bool :=
  let! r := attempt (HeadObject (client s) ctx (bucket s) (key s path)) in
  ret (is_ok r).

Definition list_prefix s (pre : string) : string :=
  let keyPrefix := key s (TrimPrefix pre "/") in
  if negb (bool_decide (keyPrefix = "")) && negb (HasSuffix keyPrefix "/")
  then keyPrefix +:+ "/" else keyPrefix.

Definition prefix_info s (cp : option string) : option ObjectInfo :=
  p ← cp;
  let p := TrimPrefix p (prefix s +:+ "/") in
  Some (mkObjectInfo ("/" +:+ TrimSuffix p "/") 0 true).

Definition object_info s (o : s3_object) : option ObjectInfo :=
  k ← obj_Key o;
  if HasSuffix k "/" && bool_decide (obj_Size o = Some 0%Z) then None
  else
    let p := TrimPrefix k (prefix s +:+ "/") in
    Some (mkObjectInfo ("/" +:+ p) (default 0%Z (obj_Size o)) false).

Definition page_infos s (pg : s3_page) : list ObjectInfo :=
  omap (prefix_info s) (CommonPrefixes pg) ++ omap (object_info s) (Contents pg).

(** The paginator loop: the first page that fails ends the listing with its error. *)
Fixpoint list_pages s (pgs : list (result s3_page)) : result (list ObjectInfo) :=
  match pgs with
  | [] => Ok []
  | Err e :: _ => Err e
  | Ok pg :: pgs' =>
      match list_pages s pgs' with
      | Err e => Err e
      | Ok out => Ok (page_infos s pg ++ out)
      end
  end.

Definition List s (ctx : context) (pre : string) : prog W (list ObjectInfo) :=
  let! pgs := ListObjectsV2 (client s) ctx (bucket s) (list_prefix s pre) "/" in
  lift (list_pages s pgs).

Definition Open s (ctx : context) (path : string) : prog W (ReadCloser W) :=
  GetObject (client s) ctx (bucket s) (key s path).

Definition storage s : Storage W :=
  mkStorage (CreateFolder s) (AtomicWrite s) (Move s) (Delete s) (Exists s) (List s) (Open s).
End Operations.
End S3.
