(* ===== verification/S3Props.v ===== *)
(** * Properties of the S3 backend

    The emulated atomic write, moves and listings, for every client that behaves as the S3
    documentation says. *)
From Stdlib Require Import Ascii.
From S2P Require Import Prelude GoStrings GoPath Jwt PosixFs Storage ObjectStore S3.
Import S3.

#[local] Open Scope string_scope.
#[local] Open Scope nat_scope.
#[local] Open Scope list_scope.
#[local] Open Scope go_scope.

(** ** URL decoding of a copy source *)

Definition hex_val (a : ascii) : option N :=
  let n := N_of_ascii a in
  if ((48 <=? n) && (n <=? 57))%N then Some (n - 48)%N
  else if ((97 <=? n) && (n <=? 102))%N then Some (n - 87)%N
  else if ((65 <=? n) && (n <=? 70))%N then Some (n - 55)%N
  else None.

Fixpoint pct_decode (s : string) : string :=
  match s with
  | "" => ""
  | String c s1 =>
      match s1 with
      | String a (String b s2) =>
          match (if bool_decide (c = "%"%char) then hex_val a else None), hex_val b with
          | Some x, Some y => String (ascii_of_N (16 * x + y)) (pct_decode s2)
          | _, _ => String c (pct_decode s1)
          end
      | _ => String c (pct_decode s1)
      end
  end.

Definition no_pct (s : string) : Prop := Contains s "%" = false.

Lemma no_pct_cons a s : no_pct (String a s) ↔ a ≠ "%"%char ∧ no_pct s.
Proof.
  unfold no_pct. rewrite Contains_cons, orb_false_iff. simpl.
  split; intros [H ?]; (split; [|done]).
  - intros ->. by rewrite bool_decide_eq_true_2 in H.
  - by rewrite bool_decide_eq_false_2.
Qed.

Lemma no_pct_append a b : no_pct a → no_pct b → no_pct (a +:+ b).
Proof.
  induction a as [|x a IH]; [done|]. cbn [String.append]. rewrite !no_pct_cons. naive_solver.
Qed.

Lemma pct_decode_plain c s : c ≠ "%"%char → pct_decode (String c s) = String c (pct_decode s).
Proof.
  intros Hc. cbn [pct_decode]. rewrite bool_decide_eq_false_2 by done.
  by destruct s as [|a [|b s]].
Qed.

Lemma pct_decode_pct a b s :
  pct_decode (String "%" (String a (String b s))) =
  match hex_val a, hex_val b with
  | Some x, Some y => String (ascii_of_N (16 * x + y)) (pct_decode s)
  | _, _ => String "%" (pct_decode (String a (String b s)))
  end.
Proof. done. Qed.

Lemma pct_decode_space s : pct_decode ("%20" +:+ s) = String " " (pct_decode s).
Proof. done. Qed.

Lemma pct_decode_escape s : no_pct s → pct_decode (urlPathEscape s) = s.
Proof.
  unfold urlPathEscape, ReplaceAll. induction s as [|a s IH]; [done|].
  rewrite no_pct_cons. intros [Ha Hs]. cbn [replace_go HasPrefix].
  destruct (bool_decide (" "%char = a)) eqn:E; simpl (_ && true); cbv iota.
  - apply bool_decide_eq_true_1 in E. subst. rewrite pct_decode_space. change (String.length " " - 1) with 0. by rewrite IH.
  - rewrite pct_decode_plain by done. by rewrite IH.
Qed.

(** An escape sequence "%xx" somewhere in the string. *)
Definition escape_at (s : string) : bool :=
  match s with
  | String c (String a (String b _)) =>
      bool_decide (c = "%"%char) && bool_decide (is_Some (hex_val a)) && bool_decide (is_Some (hex_val b))
  | _ => false
  end.

Fixpoint has_escape (s : string) : bool :=
  match s with "" => false | String _ s' => escape_at s || has_escape s' end.

Lemma urlPathEscape_cons a s :
  urlPathEscape (String a s) = if bool_decide (a = " "%char) then "%20" +:+ urlPathEscape s
                               else String a (urlPathEscape s).
Proof.
  unfold urlPathEscape, ReplaceAll. cbn [replace_go HasPrefix]. rewrite andb_true_r.
  destruct (decide (a = " "%char)) as [->|Hn]; [done|]. by rewrite !bool_decide_eq_false_2 by congruence.
Qed.

(** Escaping a space never completes an escape sequence that was begun before it. *)
Lemma pct_decode_urlPathEscape_cons a s :
  escape_at (String a s) = false →
  pct_decode (urlPathEscape (String a s)) = String a (pct_decode (urlPathEscape s)).
Proof.
  intros He. rewrite urlPathEscape_cons. case_bool_decide as Hsp; [by subst|].
  destruct (decide (a = "%"%char)) as [->|Hn]; [|by apply pct_decode_plain].
  destruct s as [|b s]; [done|]. rewrite urlPathEscape_cons. case_bool_decide as Hb; [by subst|].
  destruct s as [|c s]; [done|]. rewrite (urlPathEscape_cons c). case_bool_decide as Hc.
  - change ("%20" +:+ urlPathEscape s) with (String "%" ("20" +:+ urlPathEscape s)).
    rewrite pct_decode_pct. by destruct (hex_val b).
  - rewrite pct_decode_pct. unfold escape_at in He. rewrite bool_decide_eq_true_2 in He by done.
    simpl in He. rewrite andb_false_iff, !bool_decide_eq_false in He.
    destruct (hex_val b), (hex_val c); try done. exfalso. destruct He as [He|He]; apply He; by eexists.
Qed.

Lemma pct_decode_urlPathEscape_seq a b s :
  escape_at (String "%" (String a (String b s))) = true →
  ∃ x, pct_decode (urlPathEscape (String "%" (String a (String b s)))) = String x (pct_decode (urlPathEscape s)).
Proof.
  intros He. unfold escape_at in He. go_bool. destruct H1 as [x Hx], H0 as [y Hy].
  assert (a ≠ " "%char ∧ b ≠ " "%char) as [Ha Hb] by (by split; intros ->).
  rewrite !urlPathEscape_cons, !bool_decide_eq_false_2 by done.
  rewrite pct_decode_pct, Hx, Hy. by eexists.
Qed.

Lemma length_pct_decode_urlPathEscape n s :
  String.length s ≤ n →
  String.length (pct_decode (urlPathEscape s)) ≤ String.length s ∧
  (has_escape s = true → String.length (pct_decode (urlPathEscape s)) < String.length s).
Proof.
  revert s. induction n as [|n IH]; intros [|a s] Hn; simpl in Hn; try done; try lia.
  destruct (escape_at (String a s)) eqn:E.
  - destruct s as [|b [|c s]]; try done.
    assert (a = "%"%char) as -> by (unfold escape_at in E; by go_bool).
    destruct (pct_decode_urlPathEscape_seq b c s E) as [x ->]. simpl in *.
    destruct (IH s ltac:(lia)) as [H _]. lia.
  - rewrite pct_decode_urlPathEscape_cons by done. cbn [has_escape]. rewrite E. simpl.
    destruct (IH s ltac:(lia)) as [H1 H2]. split; [lia|]. intros H%H2. lia.
Qed.

(** The escaping of a copy source is undone by the service exactly when the source
    contains no escape sequence "%xx" of its own; otherwise another object is copied. *)
Theorem urlPathEscape_roundtrip s :
  pct_decode (urlPathEscape s) = s ↔ has_escape s = false.
Proof.
  split.
  - intros E. destruct (has_escape s) eqn:H; [|done].
    destruct (length_pct_decode_urlPathEscape _ s (le_n _)) as [_ Hlt]. rewrite E in Hlt.
    specialize (Hlt H). lia.
  - induction s as [|a s IH]; [done|]. cbn [has_escape]. rewrite orb_false_iff. intros [He Hs].
    by rewrite pct_decode_urlPathEscape_cons, IH.
Qed.

(** The string that the service reads when the escaped one is its copy source. *)
Definition copied (k : string) : string := pct_decode (urlPathEscape k).

Lemma copied_same k : has_escape k = false → copied k = k.
Proof. apply urlPathEscape_roundtrip. Qed.

Lemma copied_other k : has_escape k = true → copied k ≠ k.
Proof. intros H E. apply urlPathEscape_roundtrip in E. congruence. Qed.

Lemma escape_at_no_pct a s : a ≠ "%"%char → escape_at (String a s) = false.
Proof. intros Ha. unfold escape_at. destruct s as [|b [|c s]]; [done..|]. by rewrite bool_decide_eq_false_2. Qed.

Lemma copied_append a k : no_pct a → copied (a +:+ k) = a +:+ copied k.
Proof.
  unfold copied. induction a as [|x a IH]; [done|]. rewrite no_pct_cons. intros [Hx Ha]. cbn [String.append].
  rewrite pct_decode_urlPathEscape_cons by by apply escape_at_no_pct. by rewrite IH.
Qed.

Lemma has_escape_no_pct t : no_pct t → has_escape t = false.
Proof.
  induction t as [|a t IH]; [done|]. rewrite no_pct_cons. intros [Ha Ht]. cbn [has_escape].
  rewrite escape_at_no_pct by done. by apply IH.
Qed.

(** A dot after a key neither completes nor begins an escape sequence. *)
Lemma has_escape_dot k t : no_pct t → has_escape (k +:+ String "." t) = has_escape k.
Proof.
  intros Ht. induction k as [|a k IH].
  - change ("" +:+ String "." t) with (String "." t). apply has_escape_no_pct, no_pct_cons. by split.
  - cbn [String.append has_escape]. rewrite IH. f_equal. unfold escape_at.
    destruct k as [|b [|c k]]; [..|done]; cbn [String.append].
    + destruct t; [done|]. by rewrite (bool_decide_eq_false_2 (is_Some (hex_val "."))) by (by intros [? [=]]); rewrite andb_false_r.
    + by rewrite (bool_decide_eq_false_2 (is_Some (hex_val "."))) by (by intros [? [=]]); rewrite andb_false_r.
Qed.

(** ** What the service promises *)

Class S3Laws {W : Type} (c : s3_client W) (objs : W → objects) := {
  rand_law : ∀ n w, ∃ r w', rand_Read c n w = Some (r, w') ∧ objs w' = objs w ∧
    match r with Ok b => Forall (fun x => x < 256)%N b | Err _ => True end;
  (** "Amazon S3 never adds partial objects." *)
  put_law : ∀ ctx b k r w, ∃ res w', PutObject c ctx b k r w = Some (res, w') ∧
    (read_end r = None ∧ stored b k (reader_data r) (is_ok res) (objs w) (objs w') ∨
     is_ok res = false ∧ objs w' = objs w);
  (** The source is given as "bucket/key", URL-encoded. *)
  copy_law : ∀ ctx b k cs w, ∃ res w', CopyObject c ctx b k cs w = Some (res, w') ∧
    ((∃ b' k' v, noslash b' ∧ pct_decode cs = b' +:+ "/" +:+ k' ∧ objs w !! (b', k') = Some v ∧
        stored b k v (is_ok res) (objs w) (objs w')) ∨
     is_ok res = false ∧ objs w' = objs w);
  delete_law : ∀ ctx b k w, ∃ res w', DeleteObject c ctx b k w = Some (res, w') ∧
    (objs w' = delete (b, k) (objs w) ∨ is_ok res = false ∧ objs w' = objs w);
  head_law : ∀ ctx b k w, ∃ res w', HeadObject c ctx b k w = Some (res, w') ∧ objs w' = objs w ∧
    (is_ok res → is_Some (objs w !! (b, k)));
  get_law : ∀ ctx b k w, ∃ res w', GetObject c ctx b k w = Some (res, w') ∧ objs w' = objs w ∧
    match res with
    | Ok rc =>
        (∀ size, 0 < size → ∃ rr w2, rc_read rc size w' = Some (rr, w2) ∧ objs w2 = objs w' ∧
           match rr with Ok rd => read_end rd = None → objs w !! (b, k) = Some (reader_data rd) | Err _ => True end) ∧
        (∀ w2, ∃ rr w3, rc_close rc w2 = Some (rr, w3) ∧ objs w3 = objs w2)
    | Err _ => True
    end
}.

Section Laws.
Context {W : Type} (s : S3Storage W) (objs : W → objects) `{!S3Laws (client s) objs}.
Context (bucket_name : noslash (bucket s)) (bucket_pct : no_pct (bucket s)).

#[local] Abbreviation at_key w k := (objs w !! (bucket s, k)).

Lemma source_decode k b' k' :
  noslash b' →
  pct_decode (urlPathEscape (bucket s +:+ "/" +:+ k)) = b' +:+ "/" +:+ k' → b' = bucket s ∧ k' = copied k.
Proof using bucket_name bucket_pct.
  intros Hb'. change (pct_decode (urlPathEscape (bucket s +:+ "/" +:+ k))) with (copied (bucket s +:+ "/" +:+ k)).
  rewrite !copied_append by done. intros E%(f_equal split_slash). change ("/" +:+ copied k) with (String slash (copied k)) in E.
  change ("/" +:+ k') with (String slash k') in E. rewrite !split_slash_app in E.
  rewrite (split_slash_noslash b'), (split_slash_noslash (bucket s)) in E by done.
  apply app_inj_1 in E as [E1 E2]; [|done]. split; [by injection E1|].
  by rewrite <- (join_split (copied k)), <- (join_split k'), E2.
Qed.

Lemma hex_digit_no_pct n : (n < 16)%N → hex_digit n ≠ "%"%char.
Proof.
  intros Hn E. apply (f_equal N_of_ascii) in E. unfold hex_digit in E.
  rewrite N_ascii_embedding in E by (case_match; lia). revert E. case_match eqn:H; simpl; [|lia].
  apply N.ltb_lt in H. lia.
Qed.

Lemma EncodeToString_no_pct b : Forall (fun x => x < 256)%N b → no_pct (EncodeToString b).
Proof.
  induction 1 as [|x b Hx _ IH]; [done|]. cbn [EncodeToString]. rewrite !no_pct_cons. split_and!; [..|done].
  - apply hex_digit_no_pct. apply N.Div0.div_lt_upper_bound. lia.
  - apply hex_digit_no_pct. apply N.mod_lt. lia.
Qed.

Lemma randHex_law n w :
  ∃ hex w', randHex s n w = Some (Ok hex, w') ∧ objs w' = objs w ∧ no_pct hex.
Proof.
  destruct (rand_law n w) as (r & w' & E & Ho & Hr). unfold randHex, bind, attempt. rewrite E.
  eexists _, w'. split; [done|]. split; [done|]. apply EncodeToString_no_pct.
  destruct r; [done|]. clear. induction n; simpl; [constructor|by constructor; [lia|]].
Qed.

#[local] Abbreviation frame := (frame objs (bucket s)).

Lemma put_step ctx k r w ks :
  k ∈ ks →
  ∃ res w', PutObject (client s) ctx (bucket s) k r w = Some (res, w') ∧ frame ks w w' ∧
    (is_ok res → read_end r = None ∧ at_key w' k = Some (reader_data r)).
Proof using S3Laws0.
  intros Hk. destruct (put_law ctx (bucket s) k r w) as (res & w' & E & H). exists res, w'.
  split; [done|]. destruct H as [(? & [Ho|[Hres Ho]])|[Hres Ho]].
  - split; [by eapply frame_insert|]. intros _. by rewrite Ho, lookup_insert_eq.
  - split; [by apply frame_same|]. by rewrite Hres.
  - split; [by apply frame_same|]. by rewrite Hres.
Qed.

(** A copy with the key [k0] of the bucket as its source: what is copied is the object whose
    key the escaped source names. *)
Lemma copy_step ctx k k0 w ks :
  k ∈ ks →
  ∃ res w', CopyObject (client s) ctx (bucket s) k (urlPathEscape (bucket s +:+ "/" +:+ k0)) w = Some (res, w') ∧
    frame ks w w' ∧
    ((∃ v, at_key w (copied k0) = Some v ∧ objs w' = <[(bucket s, k) := v]> (objs w)) ∨
     is_ok res = false ∧ objs w' = objs w).
Proof using S3Laws0 bucket_name bucket_pct.
  intros Hk. destruct (copy_law ctx (bucket s) k (urlPathEscape (bucket s +:+ "/" +:+ k0)) w)
    as (res & w' & E & H). exists res, w'. split; [done|].
  destruct H as [(b' & k' & v & Hb' & Hd & Hl & H)|[Hres Ho]].
  - apply source_decode in Hd as [-> ->]; [|done].
    destruct H as [Ho|[Hres Ho]]; [|by split; [apply frame_same|auto]].
    split; [by eapply frame_insert|]. left. by exists v.
  - split; [by apply frame_same|auto].
Qed.

Lemma delete_step ctx k w ks :
  k ∈ ks →
  ∃ res w', DeleteObject (client s) ctx (bucket s) k w = Some (res, w') ∧ frame ks w w' ∧
    (objs w' = delete (bucket s, k) (objs w) ∨ is_ok res = false ∧ objs w' = objs w).
Proof using S3Laws0.
  intros Hk. destruct (delete_law ctx (bucket s) k w) as (res & w' & E & H). exists res, w'.
  split; [done|]. destruct H as [Ho|[Hres Ho]].
  - split; [by eapply frame_delete|auto].
  - split; [by apply frame_same|auto].
Qed.

(** What the copy publishes: the content of the object that the temporary key names as a copy
    source, which is the new object unless the key has an escape sequence. *)
Definition published (k hex : string) (r : reader) (w : W) (v : string) : Prop :=
  let tmp := k +:+ ".tmp-" +:+ hex in
  if has_escape k then copied tmp ≠ tmp ∧ at_key w (copied tmp) = Some v
  else read_end r = None ∧ v = reader_data r.

Lemma has_escape_tmp k hex : no_pct hex → has_escape (k +:+ ".tmp-" +:+ hex) = has_escape k.
Proof using. intros Hh. change (".tmp-" +:+ hex) with (String "." ("tmp-" +:+ hex)). apply has_escape_dot. by apply no_pct_append. Qed.

Lemma published_copied k hex r w w1 v :
  no_pct hex → read_end r = None → at_key w1 (k +:+ ".tmp-" +:+ hex) = Some (reader_data r) →
  frame [k +:+ ".tmp-" +:+ hex] w w1 → at_key w1 (copied (k +:+ ".tmp-" +:+ hex)) = Some v → published k hex r w v.
Proof using S3Laws0 bucket_name bucket_pct.
  intros Hh Hend Htmp Hf Hv. unfold published. set (tmp := k +:+ ".tmp-" +:+ hex) in *.
  pose proof (has_escape_tmp k hex Hh) as He. fold tmp in He. destruct (has_escape k).
  - pose proof (copied_other tmp He). split; [done|]. rewrite <- Hv. symmetry. apply Hf. intros _. set_solver.
  - rewrite (copied_same tmp He), Htmp in Hv. split; [done|]. by injection Hv.
Qed.

Lemma S3_AtomicWrite_run ctx p r w :
  ∃ res w' hex, AtomicWrite s ctx p r w = Some (res, w') ∧
    frame [key s p; key s p +:+ ".tmp-" +:+ hex] w w' ∧
    match res with
    | Ok _ => ∃ v, published (key s p) hex r w v ∧ at_key w' (key s p) = Some v
    | Err _ => at_key w' (key s p) = at_key w (key s p) ∨
               ∃ v, published (key s p) hex r w v ∧ at_key w' (key s p) = Some v
    end.
Proof using S3Laws0 bucket_name bucket_pct.
  set (fin := key s p).
  destruct (randHex_law 8 w) as (hex & w0 & E0 & H0 & Hhex). set (tmp := fin +:+ ".tmp-" +:+ hex).
  assert (tmp ≠ fin) as Hne by apply tmp_not_final.
  unfold AtomicWrite. fold fin. unfold bind at 1. rewrite E0. fold tmp.
  destruct (put_step ctx tmp r w0 [tmp]) as (r1 & w1 & E1 & F1 & H1); [set_solver|].
  assert (frame [tmp] w w1) as F1t by (intros b k Hk; by rewrite F1, H0).
  assert (at_key w1 fin = at_key w fin) as Hf1 by (rewrite F1t by set_solver; done).
  assert (frame [fin; tmp] w w1) as F1' by (eapply frame_mono; [|exact F1t]; set_solver).
  unfold bind at 1. rewrite E1. destruct r1 as [u|e].
  2:{ eexists _, w1, hex. split; [done|]. split; [done|by left]. }
  destruct (H1 ltac:(done)) as [Hend Htmp].
  destruct (copy_step ctx fin tmp w1 [fin]) as (r2 & w2 & E2 & F2 & H2); [set_solver|].
  assert (frame [fin; tmp] w w2) as F2' by (eapply frame_trans; [exact F1'|eapply frame_mono; [|exact F2]; set_solver]).
  assert (∀ v, at_key w1 (copied tmp) = Some v → published fin hex r w v) as Hpub
    by (intros v; by apply published_copied).
  unfold bind at 1. rewrite E2. destruct r2 as [u2|e].
  2:{ eexists _, w2, hex. split; [done|]. split; [done|].
      destruct H2 as [(v & Hv & Ho)|[_ Ho]]; rewrite Ho; [right; exists v; by rewrite lookup_insert_eq; auto|by left]. }
  destruct H2 as [(v & Hv & Ho)|[? _]]; [|done].
  destruct (delete_step ctx tmp w2 [tmp]) as (r3 & w3 & E3 & F3 & _); [set_solver|].
  unfold bind, attempt. rewrite E3. eexists _, w3, hex. split; [done|]. split.
  - eapply frame_trans; [exact F2'|]. eapply frame_mono; [|exact F3]. set_solver.
  - exists v. split; [by apply Hpub|]. rewrite F3 by set_solver. by rewrite Ho, lookup_insert_eq.
Qed.

Lemma S3_Move_run ctx src dst w v :
  key s src ≠ key s dst → at_key w (key s src) = Some v →
  ∃ res w', Move s ctx src dst w = Some (res, w') ∧ frame [key s src; key s dst] w w' ∧
    let stored v' := at_key w (copied (key s src)) = Some v' ∧ at_key w' (key s dst) = Some v' in
    match res with
    | Ok _ => at_key w' (key s src) = None ∧ ∃ v', stored v'
    | Err _ => at_key w' (key s src) = Some v ∨ ∃ v', stored v'
    end.
Proof using S3Laws0 bucket_name bucket_pct.
  intros Hne Hv. set (sk := key s src) in *. set (dk := key s dst) in *.
  unfold Move. fold sk dk.
  destruct (copy_step ctx dk sk w [sk; dk]) as (r1 & w1 & E1 & F1 & H1); [set_solver|].
  unfold bind. rewrite E1.
  destruct r1 as [u|e].
  2:{ eexists _, w1. split; [done|]. split; [done|]. left. destruct H1 as [(v' & _ & Ho)|[_ Ho]]; rewrite Ho; [|done].
      rewrite lookup_insert_ne by congruence. done. }
  destruct H1 as [(v' & Hv' & Ho)|[? _]]; [|done].
  destruct (delete_step ctx sk w1 [sk; dk]) as (r2 & w2 & E2 & F2 & H2); [set_solver|].
  exists r2, w2. split; [done|]. split; [by eapply frame_trans|].
  assert (at_key w2 dk = Some v') as Hd.
  { destruct H2 as [->|[_ ->]]; [rewrite lookup_delete_ne by congruence|]; by rewrite Ho, lookup_insert_eq. }
  destruct r2; [|right; by exists v']. split; [|by exists v']. destruct H2 as [->|[? _]]; [|done].
  apply lookup_delete_eq.
Qed.

(** *** The storage contract *)

Definition s3_obj (w : W) (p : string) : option string := at_key w (key s p).

Lemma s3_AtomicWrite_law ctx p r w :
  True → has_escape (key s p) = false →
  ∃ res w', AtomicWrite s ctx p r w = Some (res, w') ∧ True ∧
    match res with
    | Ok _ => read_end r = None ∧ s3_obj w' p = Some (reader_data r)
    | Err _ => s3_obj w' p = s3_obj w p ∨ s3_obj w' p = Some (reader_data r)
    end.
Proof using S3Laws0 bucket_name bucket_pct.
  intros _ Hp. destruct (S3_AtomicWrite_run ctx p r w) as (res & w' & hex & E & _ & H).
  exists res, w'. split_and!; [done|done|]. unfold published in H. rewrite Hp in H. unfold s3_obj. destruct res.
  - by destruct H as (v & [? ->] & ?).
  - destruct H as [?|(v & [? ->] & ?)]; auto.
Qed.

Lemma s3_Open_law ctx p w :
  True → has_escape (key s p) = false →
  ∃ res w', Open s ctx p w = Some (res, w') ∧ True ∧ (∀ q, s3_obj w' q = s3_obj w q) ∧
    match res with
    | Ok rc =>
        (∀ size, 0 < size → ∃ rr w2, rc_read rc size w' = Some (rr, w2) ∧ True ∧ (∀ q, s3_obj w2 q = s3_obj w q) ∧
           match rr with
           | Ok rd => read_end rd = None → s3_obj w p = Some (reader_data rd)
           | Err _ => True
           end) ∧
        (∀ w2, True → ∃ rr w3, rc_close rc w2 = Some (rr, w3) ∧ True ∧ (∀ q, s3_obj w3 q = s3_obj w2 q))
    | Err _ => True
    end.
Proof using S3Laws0.
  intros _ _. destruct (get_law ctx (bucket s) (key s p) w) as (res & w' & E & Ho & H).
  exists res, w'. unfold s3_obj. split_and!; [done|done|by rewrite Ho|].
  destruct res as [rc|e]; [|done]. destruct H as [Hread Hc]. split.
  - intros size Hsize. destruct (Hread size Hsize) as (rr & w2 & Er & Ho2 & Hr). exists rr, w2. split_and!; [done|done|by rewrite Ho2, Ho|done].
  - intros w2' _. destruct (Hc w2') as (rr3 & w3 & E3 & Ho3). exists rr3, w3. by rewrite Ho3.
Qed.

#[export] Instance s3_storage_spec : StorageSpec (storage s) s3_obj :=
  Build_StorageSpec W (storage s) s3_obj (fun _ => True) (fun p => has_escape (key s p) = false)
    s3_AtomicWrite_law s3_Open_law.

(** C23: The emulated atomic write, for every client that obeys the S3 documentation. No key is
    touched but the target and the temporary one. When the target key has no escape sequence
    ("%" and two hexadecimal digits), the promise of the storage interface is kept: the target
    holds its old object or the complete new one at the end, also when an error is reported.
    When it has one, the promise is broken: the service reads the copy source as another key, and
    a reported success means that the target now holds the content of that other object, which
    was there before. *)
Theorem S3_AtomicWrite_atomic ctx p r w :
  ∃ res w' hex, AtomicWrite s ctx p r w = Some (res, w') ∧
    let tmp := key s p +:+ ".tmp-" +:+ hex in
    (∀ b k, (b, k) ≠ (bucket s, key s p) → (b, k) ≠ (bucket s, tmp) → objs w' !! (b, k) = objs w !! (b, k)) ∧
    if has_escape (key s p) then
      let other v := copied tmp ≠ tmp ∧ at_key w (copied tmp) = Some v ∧ at_key w' (key s p) = Some v in
      match res with
      | Ok _ => ∃ v, other v
      | Err _ => at_key w' (key s p) = at_key w (key s p) ∨ ∃ v, other v
      end
    else
      match res with
      | Ok _ => read_end r = None ∧ at_key w' (key s p) = Some (reader_data r)
      | Err _ => at_key w' (key s p) = at_key w (key s p) ∨
                 read_end r = None ∧ at_key w' (key s p) = Some (reader_data r)
      end.
Proof using S3Laws0 bucket_name bucket_pct.
  destruct (S3_AtomicWrite_run ctx p r w) as (res & w' & hex & E & F & H).
  exists res, w', hex. split; [done|]. cbv zeta. split.
  - intros b k H1 H2. apply F. intros -> Hin. set_solver.
  - unfold published in H. destruct (has_escape (key s p)), res; naive_solver.
Qed.

(** C34: Moving an object to another key. When its key has no escape sequence, the object is
    never lost: it ends at the destination only when the move succeeds, and is still at the
    source or already at the destination when it fails. When its key has one, the move copies
    the object of another key, and a reported success means that this other content is at the
    destination and the source has been deleted: the object is lost. *)
Theorem S3_Move_no_loss ctx src dst w v :
  key s src ≠ key s dst → at_key w (key s src) = Some v →
  ∃ res w', Move s ctx src dst w = Some (res, w') ∧
    if has_escape (key s src) then
      let other v' := copied (key s src) ≠ key s src ∧ at_key w (copied (key s src)) = Some v' ∧
                      at_key w' (key s dst) = Some v' in
      match res with
      | Ok _ => at_key w' (key s src) = None ∧ ∃ v', other v'
      | Err _ => at_key w' (key s src) = Some v ∨ ∃ v', other v'
      end
    else
      match res with
      | Ok _ => at_key w' (key s dst) = Some v ∧ at_key w' (key s src) = None
      | Err _ => at_key w' (key s src) = Some v ∨ at_key w' (key s dst) = Some v
      end.
Proof using S3Laws0 bucket_name bucket_pct.
  intros Hne Hv. destruct (S3_Move_run ctx src dst w v Hne Hv) as (res & w' & E & _ & H).
  exists res, w'. split; [done|]. cbv zeta in *. destruct (has_escape (key s src)) eqn:He.
  - pose proof (copied_other _ He). destruct res; naive_solver.
  - rewrite (copied_same _ He), Hv in H. destruct res; naive_solver.
Qed.
End Laws.

(** ** Listings *)

Lemma TrimPrefix_slash x : TrimPrefix (String "/" x) "/" = x.
Proof. apply (TrimPrefix_app "/"). Qed.

(** A listed path names the listed object: for the key of any path (without a doubled
    leading slash when no prefix is configured), the path that [List] reports leads back to
    the same key. *)
Theorem List_path_key {W : Type} (s : S3Storage W) (path : string) (size : option Z) info :
  (prefix s = "" → HasPrefix (TrimPrefix path "/") "/" = false) →
  object_info s (mkS3Object (Some (key s path)) size) = Some info →
  key s (Path info) = key s path ∧ IsDir info = false ∧ Size info = default 0%Z size.
Proof.
  intros Hpre Hi. unfold object_info in Hi. cbn [obj_Key obj_Size mbind option_bind] in Hi.
  destruct (HasSuffix _ _ && _); [done|]. injection Hi as <-. cbn [Path IsDir Size]. split; [|done].
  unfold key. rewrite TrimPrefix_slash. case_bool_decide as E.
  - rewrite E. unfold TrimPrefix at 1. change ("" +:+ "/") with "/". by rewrite Hpre.
  - replace (prefix s +:+ "/" +:+ TrimPrefix path "/") with ((prefix s +:+ "/") +:+ TrimPrefix path "/") at 1
      by by rewrite append_assoc.
    by rewrite TrimPrefix_app.
Qed.

(** ** A service in memory *)

(** The bucket and the key of a decoded copy source. *)
Definition cut_slash (src : string) : option (string * string) :=
  match split_slash src with
  | b :: c :: r => Some (b, join_slash (c :: r))
  | _ => None
  end.

Lemma cut_slash_spec src b k : cut_slash src = Some (b, k) → noslash b ∧ src = b +:+ "/" +:+ k.
Proof.
  unfold cut_slash. pose proof (noslash_split_slash src) as Hn. pose proof (join_split src) as Hj.
  destruct (split_slash src) as [|b' [|c r]]; [done..|]. intros [= <- <-]. inversion_clear Hn. split; [done|].
  rewrite <- Hj. by rewrite join_slash_cons.
Qed.

Definition mem_s3 : s3_client objects := mkS3Client
  (fun n => ret (repeat 171%N n))
  (fun _ b k r => match read_end r with
                  | None => modify (fun o => <[(b, k) := reader_data r]> o)
                  | Some e => throw e end)
  (fun _ b k cs o =>
     match cut_slash (pct_decode cs) with
     | None => Some (Err (ErrExt "InvalidArgument"), o)
     | Some src => match o !! src with
                   | None => Some (Err (ErrExt "NoSuchKey"), o)
                   | Some v => Some (Ok tt, <[(b, k) := v]> o) end
     end)
  (fun _ b k => modify (delete (b, k)))
  (fun _ b k o => match o !! (b, k) with Some _ => Some (Ok tt, o) | None => Some (Err (ErrExt "NotFound"), o) end)
  (fun _ b k o => match o !! (b, k) with
                  | Some v => Some (Ok (mkReadCloser (fun _ => ret (mkReader [v] None)) (ret tt)), o)
                  | None => Some (Err (ErrExt "NoSuchKey"), o) end)
  (fun _ b pre _ => gets (fun o =>
     [Ok (mkS3Page [] (omap (fun '((b', k), v) =>
        if bool_decide (b' = b) && HasPrefix k pre
        then Some (mkS3Object (Some k) (Some (Z.of_nat (String.length v)))) else None) (map_to_list o)))])).

#[export] Instance mem_s3_laws : S3Laws mem_s3 id.
Proof.
  split; unfold id; simpl.
  - intros n w. eexists _, w. split_and!; [done..|]. induction n; simpl; [constructor|by constructor; [lia|]].
  - intros ctx b k r w. destruct (read_end r); eexists _, _; (split; [done|]); [by right|].
    left. split; [done|by left].
  - intros ctx b k cs w. destruct (cut_slash (pct_decode cs)) as [[b' k']|] eqn:E; [|by eexists _, w; auto].
    destruct (w !! (b', k')) as [v|] eqn:El; eexists _, _; (split; [done|]); [|by right].
    apply cut_slash_spec in E as [Hb E]. left. exists b', k', v. split_and!; [done..|by left].
  - intros ctx b k w. eexists _, _. split; [done|by left].
  - intros ctx b k w. destruct (w !! (b, k)); eexists _, _; by split_and!.
  - intros ctx b k w. destruct (w !! (b, k)) as [v|] eqn:E; eexists _, _; split_and!; try done. simpl. split.
    + intros size _. eexists _, _. split_and!; [done..|]. intros _. unfold reader_data. simpl. by rewrite append_nil_r.
    + intros w2. by eexists _, _.
Qed.

Definition mem_bucket : S3Storage objects := mkS3Storage mem_s3 "bkt" "fe".
Definition mem_state : objects := {[ ("bkt", "fe/a") := "old" ]}.

Lemma mem_bucket_name : noslash (bucket mem_bucket).
Proof. by vm_compute. Qed.

Lemma S3_AtomicWrite_atomic_witness :
  ∃ res w' hex, AtomicWrite mem_bucket (mkCtx None None false) "/a" (mkReader ["new"] None) mem_state = Some (res, w') ∧
    (∀ b k, (b, k) ≠ ("bkt", "fe/a") → (b, k) ≠ ("bkt", "fe/a" +:+ ".tmp-" +:+ hex) →
       w' !! (b, k) = mem_state !! (b, k)) ∧
    match res with
    | Ok _ => @None error = None ∧ w' !! ("bkt", "fe/a") = Some "new"
    | Err _ => w' !! ("bkt", "fe/a") = mem_state !! ("bkt", "fe/a") ∨
               @None error = None ∧ w' !! ("bkt", "fe/a") = Some "new"
    end.
Proof.
  exact (S3_AtomicWrite_atomic mem_bucket id mem_bucket_name eq_refl
    (mkCtx None None false) "/a" (mkReader ["new"] None) mem_state).
Defined.

(** A key with an escape sequence, and the key that it names as a copy source. *)
Definition escape_state : objects := <[("bkt", "fe/50%25") := "mine"]> {[ ("bkt", "fe/50%") := "other" ]}.

Lemma S3_Move_no_loss_witness :
  (∃ res w', Move mem_bucket (mkCtx None None false) "/a" "b" mem_state = Some (res, w') ∧
    match res with
    | Ok _ => w' !! ("bkt", "fe/b") = Some "old" ∧ w' !! ("bkt", "fe/a") = None
    | Err _ => w' !! ("bkt", "fe/a") = Some "old" ∨ w' !! ("bkt", "fe/b") = Some "old"
    end) ∧
  ∃ res w', Move mem_bucket (mkCtx None None false) "50%25" "b" escape_state = Some (res, w') ∧
    let other v' := "fe/50%" ≠ "fe/50%25" ∧ escape_state !! ("bkt", "fe/50%") = Some v' ∧ w' !! ("bkt", "fe/b") = Some v' in
    match res with
    | Ok _ => w' !! ("bkt", "fe/50%25") = None ∧ ∃ v', other v'
    | Err _ => w' !! ("bkt", "fe/50%25") = Some "mine" ∨ ∃ v', other v'
    end.
Proof.
  split.
  - apply (S3_Move_no_loss mem_bucket id mem_bucket_name eq_refl
      (mkCtx None None false) "/a" "b" mem_state "old"); [discriminate|reflexivity].
  - apply (S3_Move_no_loss mem_bucket id mem_bucket_name eq_refl
      (mkCtx None None false) "50%25" "b" escape_state "mine"); [discriminate|reflexivity].
Defined.

(** The second move succeeds, so the object is lost. *)
Example S3_Move_escape_loses :
  match Move mem_bucket (mkCtx None None false) "50%25" "b" escape_state with
  | Some (Ok _, w') => bool_decide (w' = <[("bkt", "fe/b") := "other"]> {[ ("bkt", "fe/50%") := "other" ]}) = true
  | _ => False
  end.
Proof. vm_compute. reflexivity. Qed.

Lemma List_path_key_witness :
  key mem_bucket "/a b" = key mem_bucket "a b" ∧ false = false ∧ 3%Z = default 0%Z (Some 3%Z).
Proof.
  apply (List_path_key mem_bucket "a b" (Some 3%Z) (mkObjectInfo "/a b" 3 false)).
  - discriminate.
  - reflexivity.
Defined.
