(* ===== verification/Gcs.v ===== *)
(** * The Google Cloud Storage backend

    [internal/adapters/storage/gcs/gcs_storage.go]. The GCS client is a parameter; its laws
    are those of its documentation: an object appears when its writer is closed, a copy is
    all or nothing, deleting a missing object is an error, and an error reply may arrive
    after the service has acted. *)
From Stdlib Require Import Ascii.
From S2P Require Import Prelude GoStrings Jwt PosixFs Storage ObjectStore S3.

#[local] Open Scope string_scope.
#[local] Open Scope nat_scope.
#[local] Open Scope list_scope.
#[local] Open Scope go_scope.

(** ** The client *)

(** An open [*storage.Writer] and the bytes written to it so far. *)
Record gcs_writer := mkWriter { gw_bucket : string; gw_key : string; gw_data : string }.

Record gcs_object := mkGcsObject { Name : string; ObjSize : Z }.

(** The operations of [*storage.Client] the code calls, and the random source of the process.
    [Objects] is the sequence its iterator would deliver before [iterator.Done]. *)
Record gcs_client (W : Type) := mkGcsClient {
  gcs_rand : nat → prog W (list N);
  gcs_Write : context → gcs_writer → string → prog W gcs_writer;
  gcs_Close : context → gcs_writer → prog W unit;
  gcs_Copy : context → string → string → string → prog W unit;
  gcs_Delete : context → string → string → prog W unit;
  gcs_Attrs : context → string → string → prog W unit;
  gcs_NewReader : context → string → string → prog W (ReadCloser W);
  gcs_Objects : context → string → string → prog W (list (result gcs_object))
}.
Arguments mkGcsClient {W}.
Arguments gcs_rand {W}.
Arguments gcs_Write {W}.
Arguments gcs_Close {W}.
Arguments gcs_Copy {W}.
Arguments gcs_Delete {W}.
Arguments gcs_Attrs {W}.
Arguments gcs_NewReader {W}.
Arguments gcs_Objects {W}.

Module Gcs.
Record GCSStorage (W : Type) := mkGCSStorage { client : gcs_client W; bucket : string; prefix : string }.
Arguments mkGCSStorage {W}.
Arguments client {W}.
Arguments bucket {W}.
Arguments prefix {W}.

Record Config := mkConfig { Bucket : string; Prefix : string }.

Definition New {W} (NewClient : result (gcs_client W)) (cfg : Config) : result (GCSStorage W) :=
  if bool_decide (Bucket cfg = "") then Err (ErrNew "GCS bucket required")
  else match NewClient with
       | Err e => Err e
       | Ok c => Ok (mkGCSStorage c (Bucket cfg) (Trim (Prefix cfg) "/"%char))
       end.

Section Operations.
Context {W : Type}.
Implicit Type g : GCSStorage W.

Definition key g (path : string) : string :=
  let p := TrimPrefix path "/" in
  if bool_decide (prefix g = "") then p else prefix g +:+ "/" +:+ p.

Definition randHex g (n : nat) : prog W string :=
  let! b := attempt (gcs_rand (client g) n) in
  ret (EncodeToString (match b with Ok b => b | Err _ => repeat 0%N n end)).

Definition CreateFolder g (ctx : context) (path : string) : prog W unit :=
  let key := key g (TrimSuffix path "/" +:+ "/") in
  gcs_Close (client g) ctx (mkWriter (bucket g) key "").

(** [io.Copy(tw, r)]: the writer with what reached it, and the error that stopped the copy. *)
Fixpoint copy_blocks g (ctx : context) (tw : gcs_writer) (bs : list string) (stop : option error)
    : prog W (gcs_writer * option error) :=
  match bs with
  | [] => ret (tw, stop)
  | b :: bs' =>
      let! r := attempt (gcs_Write (client g) ctx tw b) in
      match r with
      | Ok tw' => copy_blocks g ctx tw' bs' stop
      | Err e => ret (tw, Some e)
      end
  end.

Definition AtomicWrite g (ctx : context) (path : string) (r : reader) : prog W unit :=
  let finalKey := key g path in
  let! hex := randHex g 8 in
  let tmpKey := finalKey +:+ ".tmp-" +:+ hex in
  let! c := copy_blocks g ctx (mkWriter (bucket g) tmpKey "") (blocks r) (read_end r) in
  let '(tw, err) := c in
  match err with
  | Some e => let! _ := attempt (gcs_Close (client g) ctx tw) in throw e
  | None =>
      do! gcs_Close (client g) ctx tw in
      do! gcs_Copy (client g) ctx (bucket g) tmpKey finalKey in
      let! _ := attempt (gcs_Delete (client g) ctx (bucket g) tmpKey) in
      ret tt
  end.

Definition Move g (ctx : context) (src dst : string) : prog W unit :=
  let srcKey := key g src in
  let dstKey := key g dst in
  do! gcs_Copy (client g) ctx (bucket g) srcKey dstKey in
  gcs_Delete (client g) ctx (bucket g) srcKey.

Definition Delete g (ctx : context) (path : string) : prog W unit :=
  gcs_Delete (client g) ctx (bucket g) (key g path).

Definition Exists g (ctx : context) (path : string) : prog W bool :=
  let! r := attempt (gcs_Attrs (client g) ctx (bucket g) (key g path)) in
  ret (is_ok r).

Definition list_prefix g (pre : string) : string :=
  let keyPrefix := key g (TrimPrefix pre "/") in
  if negb (bool_decide (keyPrefix = "")) && negb (HasSuffix keyPrefix "/")
  then keyPrefix +:+ "/" else keyPrefix.

Definition object_info g (o : gcs_object) : option ObjectInfo :=
  let k := Name o in
  if HasSuffix k "/" && bool_decide (ObjSize o = 0%Z) then None
  else
    let p := if bool_decide (prefix g = "") then k else TrimPrefix k (prefix g +:+ "/") in
    Some (mkObjectInfo ("/" +:+ p) (ObjSize o) false).

(** The iterator loop: the first error ends the listing. *)
Fixpoint list_objects g (os : list (result gcs_object)) : result (list ObjectInfo) :=
  match os with
  | [] => Ok []
  | Err e :: _ => Err e
  | Ok o :: os' =>
      match list_objects g os' with
      | Err e => Err e
      | Ok out => Ok (option_list (object_info g o) ++ out)
      end
  end.

Definition List g (ctx : context) (pre : string) : prog W (list ObjectInfo) :=
  let! os := gcs_Objects (client g) ctx (bucket g) (list_prefix g pre) in
  lift (list_objects g os).

Definition Open g (ctx : context) (path : string) : prog W (ReadCloser W) :=
  gcs_NewReader (client g) ctx (bucket g) (key g path).

Definition storage g : Storage W :=
  mkStorage (CreateFolder g) (AtomicWrite g) (Move g) (Delete g) (Exists g) (List g) (Open g).
End Operations.
End Gcs.
