(* ===== verification/GcsProps.v ===== *)
(** * Properties of the Google Cloud Storage backend *)
From S2P Require Import Prelude GoStrings Jwt PosixFs Storage ObjectStore S3 Gcs.
Import Gcs.

#[local] Open Scope string_scope.
#[local] Open Scope nat_scope.
#[local] Open Scope list_scope.
#[local] Open Scope go_scope.

(** ** What the service promises *)

Class GcsLaws {W : Type} (c : gcs_client W) (objs : W → objects) := {
  gcs_rand_law : ∀ n w, ∃ r w', gcs_rand c n w = Some (r, w') ∧ objs w' = objs w;
  (** A write buffers or uploads; nothing is visible before the writer is closed. *)
  gcs_write_law : ∀ ctx tw d w, ∃ r w', gcs_Write c ctx tw d w = Some (r, w') ∧ objs w' = objs w ∧
    match r with Ok tw' => tw' = mkWriter (gw_bucket tw) (gw_key tw) (gw_data tw +:+ d) | Err _ => True end;
  gcs_close_law : ∀ ctx tw w, ∃ r w', gcs_Close c ctx tw w = Some (r, w') ∧
    stored (gw_bucket tw) (gw_key tw) (gw_data tw) (is_ok r) (objs w) (objs w');
  gcs_copy_law : ∀ ctx b src dst w, ∃ r w', gcs_Copy c ctx b src dst w = Some (r, w') ∧
    ((∃ v, objs w !! (b, src) = Some v ∧ stored b dst v (is_ok r) (objs w) (objs w')) ∨
     is_ok r = false ∧ objs w' = objs w);
  gcs_delete_law : ∀ ctx b k w, ∃ r w', gcs_Delete c ctx b k w = Some (r, w') ∧
    (is_Some (objs w !! (b, k)) ∧ objs w' = delete (b, k) (objs w) ∨ is_ok r = false ∧ objs w' = objs w);
  gcs_reader_law : ∀ ctx b k w, ∃ res w', gcs_NewReader c ctx b k w = Some (res, w') ∧ objs w' = objs w ∧
    match res with
    | Ok rc =>
        (∀ size, 0 < size → ∃ rr w2, rc_read rc size w' = Some (rr, w2) ∧ objs w2 = objs w' ∧
           match rr with Ok rd => read_end rd = None → objs w !! (b, k) = Some (reader_data rd) | Err _ => True end) ∧
        (∀ w2, ∃ rr w3, rc_close rc w2 = Some (rr, w3) ∧ objs w3 = objs w2)
    | Err _ => True
    end
}.

Section Laws.
Context {W : Type} (g : GCSStorage W) (objs : W → objects) `{!GcsLaws (client g) objs}.

#[local] Abbreviation at_key w k := (objs w !! (bucket g, k)).
#[local] Abbreviation frame := (frame objs (bucket g)).

Lemma copy_blocks_run ctx b k bs stop acc w :
  ∃ tw err w', copy_blocks g ctx (mkWriter b k acc) bs stop w = Some (Ok (tw, err), w') ∧
    objs w' = objs w ∧ gw_bucket tw = b ∧ gw_key tw = k ∧
    (err = None → stop = None ∧ gw_data tw = acc +:+ foldr String.append "" bs).
Proof using GcsLaws0.
  revert acc w. induction bs as [|x bs IH]; intros acc w; cbn [copy_blocks foldr].
  - eexists _, _, w. split_and!; [done..|]. simpl. intros ->. by rewrite append_nil_r.
  - destruct (gcs_write_law ctx (mkWriter b k acc) x w) as (r & w1 & E & Ho & Hr).
    unfold bind, attempt. rewrite E. destruct r as [tw'|e].
    + subst tw'. simpl. destruct (IH (acc +:+ x) w1) as (tw & err & w' & E2 & Ho2 & Hb & Hk & He).
      exists tw, err, w'. rewrite <- append_assoc, <- Ho. auto.
    + by eexists _, (Some e), w1.
Qed.

Lemma randHex_run n w : ∃ hex w', randHex g n w = Some (Ok hex, w') ∧ objs w' = objs w.
Proof using GcsLaws0.
  destruct (gcs_rand_law n w) as (r & w' & E & Ho). unfold randHex, bind, attempt. rewrite E.
  by eexists _, w'.
Qed.

Lemma Gcs_AtomicWrite_run ctx p r w :
  ∃ res w' hex, AtomicWrite g ctx p r w = Some (res, w') ∧
    frame [key g p; key g p +:+ ".tmp-" +:+ hex] w w' ∧
    match res with
    | Ok _ => read_end r = None ∧ at_key w' (key g p) = Some (reader_data r)
    | Err _ => at_key w' (key g p) = at_key w (key g p) ∨
               read_end r = None ∧ at_key w' (key g p) = Some (reader_data r)
    end.
Proof using GcsLaws0.
  set (fin := key g p). destruct (randHex_run 8 w) as (hex & w0 & E0 & H0).
  set (tmp := fin +:+ ".tmp-" +:+ hex). assert (tmp ≠ fin) as Hne by apply tmp_not_final.
  unfold AtomicWrite. fold fin. unfold bind at 1. rewrite E0. fold tmp.
  destruct (copy_blocks_run ctx (bucket g) tmp (blocks r) (read_end r) "" w0)
    as (tw & err & w1 & E1 & H1 & Hb & Hk & Herr).
  unfold bind at 1. rewrite E1.
  destruct (gcs_close_law ctx tw w1) as (r2 & w2 & E2 & H2). rewrite Hb, Hk in H2.
  assert (frame [tmp] w w2) as F2.
  { eapply frame_trans; [|by eapply frame_stored; [|exact H2]; set_solver].
    apply frame_same. by rewrite H1. }
  assert (frame [fin; tmp] w w2) as F2' by (eapply frame_mono; [|exact F2]; set_solver).
  assert (at_key w2 fin = at_key w fin) as Hf2 by (apply F2; set_solver).
  destruct err as [e|].
  { unfold bind, attempt. rewrite E2. eexists _, w2, hex. split; [done|]. split; [done|by left]. }
  destruct (Herr eq_refl) as [Hend Hdata]. unfold bind at 1. rewrite E2. destruct r2 as [u|e].
  2:{ eexists _, w2, hex. split; [done|]. split; [done|by left]. }
  destruct H2 as [H2|[? _]]; [|done].
  assert (at_key w2 tmp = Some (reader_data r)) as Ht2 by (rewrite H2, lookup_insert_eq; by rewrite Hdata).
  destruct (gcs_copy_law ctx (bucket g) tmp fin w2) as (r3 & w3 & E3 & H3). rewrite Ht2 in H3.
  assert (frame [fin; tmp] w w3) as F3.
  { eapply frame_trans; [exact F2'|]. destruct H3 as [(v & _ & H3)|[_ H3]]; [|by apply frame_same].
    eapply frame_stored; [|exact H3]. set_solver. }
  unfold bind at 1. rewrite E3. destruct r3 as [u3|e].
  2:{ eexists _, w3, hex. split; [done|]. split; [done|].
      destruct H3 as [(v & [= <-] & [->|[_ ->]])|[_ ->]]; [right|by left..].
      by rewrite lookup_insert_eq. }
  destruct H3 as [(v & [= <-] & [H3|[? _]])|[? _]]; [|done..].
  destruct (gcs_delete_law ctx (bucket g) tmp w3) as (r4 & w4 & E4 & H4).
  assert (frame [tmp] w3 w4) as F4.
  { destruct H4 as [[_ H4]|[_ H4]]; [by eapply frame_delete; [|exact H4]; set_solver|by apply frame_same]. }
  unfold bind, attempt. rewrite E4. eexists _, w4, hex. split; [done|]. split.
  - eapply frame_trans; [exact F3|]. eapply frame_mono; [|exact F4]. set_solver.
  - split; [done|]. rewrite F4 by set_solver. by rewrite H3, lookup_insert_eq.
Qed.

(** *** The storage contract *)

Definition gcs_obj (w : W) (p : string) : option string := at_key w (key g p).

Lemma gcs_AtomicWrite_law ctx p r w :
  True → True →
  ∃ res w', AtomicWrite g ctx p r w = Some (res, w') ∧ True ∧
    match res with
    | Ok _ => read_end r = None ∧ gcs_obj w' p = Some (reader_data r)
    | Err _ => gcs_obj w' p = gcs_obj w p ∨ gcs_obj w' p = Some (reader_data r)
    end.
Proof using GcsLaws0.
  intros _ _. destruct (Gcs_AtomicWrite_run ctx p r w) as (res & w' & hex & E & _ & H).
  exists res, w'. split_and!; [done|done|]. destruct res; [done|]. destruct H as [?|[_ ?]]; auto.
Qed.

Lemma gcs_Open_law ctx p w :
  True → True →
  ∃ res w', Open g ctx p w = Some (res, w') ∧ True ∧ (∀ q, gcs_obj w' q = gcs_obj w q) ∧
    match res with
    | Ok rc =>
        (∀ size, 0 < size → ∃ rr w2, rc_read rc size w' = Some (rr, w2) ∧ True ∧ (∀ q, gcs_obj w2 q = gcs_obj w q) ∧
           match rr with
           | Ok rd => read_end rd = None → gcs_obj w p = Some (reader_data rd)
           | Err _ => True
           end) ∧
        (∀ w2, True → ∃ rr w3, rc_close rc w2 = Some (rr, w3) ∧ True ∧ (∀ q, gcs_obj w3 q = gcs_obj w2 q))
    | Err _ => True
    end.
Proof using GcsLaws0.
  intros _ _. destruct (gcs_reader_law ctx (bucket g) (key g p) w) as (res & w' & E & Ho & H).
  exists res, w'. unfold gcs_obj. split_and!; [done|done|by rewrite Ho|].
  destruct res as [rc|e]; [|done]. destruct H as [Hread Hc]. split.
  - intros size Hsize. destruct (Hread size Hsize) as (rr & w2 & Er & Ho2 & Hr). exists rr, w2. split_and!; [done|done|by rewrite Ho2, Ho|done].
  - intros w3 _. destruct (Hc w3) as (rr4 & w4 & E4 & Ho4). exists rr4, w4. by rewrite Ho4.
Qed.

#[export] Instance gcs_storage_spec : StorageSpec (storage g) gcs_obj :=
  Build_StorageSpec W (storage g) gcs_obj (fun _ => True) (fun _ => True)
    gcs_AtomicWrite_law gcs_Open_law.

(** C24: The emulated atomic write on Google Cloud Storage keeps the promise of the storage
    interface for every client that obeys its documentation, although a failed upload commits
    the partial temporary object: the target holds its old object or the complete new one,
    and no key is touched but the target and the temporary one. *)
Theorem Gcs_AtomicWrite_atomic ctx p r w :
  ∃ res w' hex, AtomicWrite g ctx p r w = Some (res, w') ∧
    (∀ b k, (b, k) ≠ (bucket g, key g p) → (b, k) ≠ (bucket g, key g p +:+ ".tmp-" +:+ hex) →
       objs w' !! (b, k) = objs w !! (b, k)) ∧
    match res with
    | Ok _ => read_end r = None ∧ at_key w' (key g p) = Some (reader_data r)
    | Err _ => at_key w' (key g p) = at_key w (key g p) ∨
               read_end r = None ∧ at_key w' (key g p) = Some (reader_data r)
    end.
Proof using GcsLaws0.
  destruct (Gcs_AtomicWrite_run ctx p r w) as (res & w' & hex & E & F & H).
  exists res, w', hex. split; [done|]. split; [|done].
  intros b k H1 H2. apply F. intros -> Hin. set_solver.
Qed.

(** A move that reports success deletes its source key, also when source and
    destination are the same key: moving an object onto itself destroys it. *)
Theorem Gcs_Move_deletes_source ctx src dst w w' :
  Move g ctx src dst w = Some (Ok tt, w') →
  at_key w' (key g src) = None ∧
  (key g src ≠ key g dst → at_key w' (key g dst) = at_key w (key g src) ∧ is_Some (at_key w (key g src))).
Proof using GcsLaws0.
  unfold Move. set (sk := key g src). set (dk := key g dst).
  destruct (gcs_copy_law ctx (bucket g) sk dk w) as (r1 & w1 & E1 & H1). unfold bind. rewrite E1.
  destruct r1 as [u|e]; [|done]. intros E2.
  destruct H1 as [(v & Hv & [H1|[? _]])|[? _]]; [|done..].
  destruct (gcs_delete_law ctx (bucket g) sk w1) as (r2 & w2 & E2' & H2).
  rewrite E2' in E2. injection E2 as -> ->. destruct H2 as [[_ H2]|[? _]]; [|done].
  rewrite H2. split; [apply lookup_delete_eq|]. intros Hne.
  rewrite lookup_delete_ne by congruence. rewrite H1, lookup_insert_eq, Hv. by split; [|eexists].
Qed.
End Laws.

(** ** A service in memory *)

Definition mem_gcs : gcs_client objects := mkGcsClient
  (fun n => ret (repeat 18%N n))
  (fun _ tw d => ret (mkWriter (gw_bucket tw) (gw_key tw) (gw_data tw +:+ d)))
  (fun _ tw => modify (fun o => <[(gw_bucket tw, gw_key tw) := gw_data tw]> o))
  (fun _ b src dst o => match o !! (b, src) with
                        | Some v => Some (Ok tt, <[(b, dst) := v]> o)
                        | None => Some (Err (ErrExt "object doesn't exist"), o) end)
  (fun _ b k o => match o !! (b, k) with
                  | Some _ => Some (Ok tt, delete (b, k) o)
                  | None => Some (Err (ErrExt "object doesn't exist"), o) end)
  (fun _ b k o => match o !! (b, k) with
                  | Some _ => Some (Ok tt, o)
                  | None => Some (Err (ErrExt "object doesn't exist"), o) end)
  (fun _ b k o => match o !! (b, k) with
                  | Some v => Some (Ok (mkReadCloser (fun _ => ret (mkReader [v] None)) (ret tt)), o)
                  | None => Some (Err (ErrExt "object doesn't exist"), o) end)
  (fun _ b pre => gets (fun o => omap (fun '((b', k), v) =>
        if bool_decide (b' = b) && HasPrefix k pre
        then Some (Ok (mkGcsObject k (Z.of_nat (String.length v)))) else None) (map_to_list o))).

#[export] Instance mem_gcs_laws : GcsLaws mem_gcs id.
Proof.
  split; unfold id; simpl.
  - intros n w. by eexists _, w.
  - intros ctx tw d w. by eexists _, w.
  - intros ctx tw w. eexists _, _. split; [done|by left].
  - intros ctx b src dst w. destruct (w !! (b, src)) as [v|]; eexists _, _; (split; [done|]); [|by right].
    left. exists v. split; [done|by left].
  - intros ctx b k w. destruct (w !! (b, k)); eexists _, _; (split; [done|]); [left|by right].
    split; [by eexists|done].
  - intros ctx b k w. destruct (w !! (b, k)) as [v|] eqn:E; eexists _, _; split_and!; try done. simpl. split.
    + intros size _. eexists _, _. split_and!; [done..|]. intros _. unfold reader_data. simpl. by rewrite append_nil_r.
    + intros w2. by eexists _, _.
Qed.

Definition mem_gcs_bucket : GCSStorage objects := mkGCSStorage mem_gcs "bkt" "fe".
Definition mem_gcs_state : objects := {[ ("bkt", "fe/a") := "old" ]}.

Lemma Gcs_AtomicWrite_atomic_witness :
  ∃ res w' hex, AtomicWrite mem_gcs_bucket (mkCtx None None false) "/a"
      (mkReader ["new"] (Some (ErrExt "connection reset"))) mem_gcs_state = Some (res, w') ∧
    (∀ b k, (b, k) ≠ ("bkt", "fe/a") → (b, k) ≠ ("bkt", "fe/a" +:+ ".tmp-" +:+ hex) →
       w' !! (b, k) = mem_gcs_state !! (b, k)) ∧
    match res with
    | Ok _ => Some (ErrExt "connection reset") = None ∧ w' !! ("bkt", "fe/a") = Some "new"
    | Err _ => w' !! ("bkt", "fe/a") = mem_gcs_state !! ("bkt", "fe/a") ∨
               Some (ErrExt "connection reset") = None ∧ w' !! ("bkt", "fe/a") = Some "new"
    end.
Proof.
  apply (Gcs_AtomicWrite_atomic mem_gcs_bucket id (mkCtx None None false) "/a"
    (mkReader ["new"] (Some (ErrExt "connection reset"))) mem_gcs_state).
Defined.

Lemma Gcs_Move_deletes_source_witness :
  (∅ : objects) !! ("bkt", "fe/a") = None ∧
  ("fe/a" ≠ "fe/a" → (∅ : objects) !! ("bkt", "fe/a") = mem_gcs_state !! ("bkt", "fe/a") ∧
                     is_Some (mem_gcs_state !! ("bkt", "fe/a"))).
Proof.
  apply (Gcs_Move_deletes_source mem_gcs_bucket id (mkCtx None None false) "/a" "a" mem_gcs_state ∅).
  vm_compute. reflexivity.
Defined.
