(* ===== verification/Listings.v ===== *)
(** * Listings of the object stores

    What [List] of the S3 and of the GCS backend returns, for every client whose listing calls
    behave as documented: the S3 backend lists one level and reports directories, the GCS
    backend lists everything below the prefix and reports files only. *)
From Stdlib Require Import Ascii.
From S2P Require Import Prelude GoStrings GoPath Jwt PosixFs Storage ObjectStore S3 S3Props Gcs GcsProps.

#[local] Open Scope string_scope.
#[local] Open Scope nat_scope.
#[local] Open Scope list_scope.
#[local] Open Scope go_scope.

(** ** Prefixes *)

(** What every key of a backend starts with, and the rest of the prefix of a listing. *)
Definition base_key (pfx : string) : string := if bool_decide (pfx = "") then "" else pfx +:+ "/".

Definition list_rel (pre : string) : string :=
  let p := TrimPrefix (TrimPrefix pre "/") "/" in
  if bool_decide (p = "") || HasSuffix p "/" then p else p +:+ "/".

Lemma HasSuffix_append a p : p ≠ "" → HasSuffix (a +:+ p) "/" = HasSuffix p "/".
Proof.
  intros Hp. apply eq_true_iff_eq. rewrite !HasSuffix_spec. split.
  - induction a as [|x a IH]; [done|]. intros [[|y k] E].
    + injection E as _ E. by destruct a, p.
    + injection E as _ E. apply IH. by exists k.
  - intros [k ->]. exists (a +:+ k). by rewrite append_assoc.
Qed.

Lemma HasPrefix_slash_append a b : a ≠ "" → HasPrefix (a +:+ b) "/" = HasPrefix a "/".
Proof. destruct a as [|x a]; [done|]. intros _. simpl. by rewrite !andb_true_r. Qed.

Lemma noslash_HasPrefix c : noslash c → HasPrefix c "/" = false.
Proof.
  destruct c as [|x c]; [done|]. intros [Hx _]. simpl. rewrite andb_true_r. by rewrite bool_decide_eq_false_2.
Qed.

Lemma TrimPrefix_none p q : HasPrefix p q = false → TrimPrefix p q = p.
Proof. unfold TrimPrefix. by intros ->. Qed.

Section Prefix.
Context (pfx pre : string).

(** The prefix of the key that the code computes. *)
Lemma list_prefix_split :
  let k := if bool_decide (pfx = "") then TrimPrefix (TrimPrefix pre "/") "/"
           else pfx +:+ "/" +:+ TrimPrefix (TrimPrefix pre "/") "/" in
  (if negb (bool_decide (k = "")) && negb (HasSuffix k "/") then k +:+ "/" else k) = base_key pfx +:+ list_rel pre.
Proof.
  cbv zeta. unfold base_key, list_rel. set (p := TrimPrefix (TrimPrefix pre "/") "/"). clearbody p.
  destruct (decide (pfx = "")) as [->|Hne].
  - rewrite !(bool_decide_eq_true_2 ("" = "")) by done. cbn [String.append]. by destruct (bool_decide (p = "")), (HasSuffix p "/").
  - rewrite !(bool_decide_eq_false_2 (pfx = "")) by done. rewrite (bool_decide_eq_false_2 (_ = "")) by by destruct pfx.
    cbn [negb andb]. replace (HasSuffix (pfx +:+ "/" +:+ p) "/") with (bool_decide (p = "") || HasSuffix p "/").
    + destruct (bool_decide (p = "") || HasSuffix p "/"); cbn [negb]; by rewrite !append_assoc.
    + rewrite HasSuffix_append by done. change ("/" +:+ p) with (String "/" p).
      destruct (decide (p = "")) as [->|Hp]; [done|]. rewrite bool_decide_eq_false_2 by done.
      symmetry. apply (HasSuffix_append "/"). done.
Qed.

(** A listed path never starts with a doubled slash by accident of an empty prefix. *)
Context (plain : pfx = "" → HasPrefix (list_rel pre) "/" = false).

Lemma trim_file c :
  noslash c → TrimPrefix (base_key pfx +:+ list_rel pre +:+ c) (pfx +:+ "/") = list_rel pre +:+ c.
Proof.
  intros Hc. unfold base_key. case_bool_decide as E; [|apply TrimPrefix_app]. rewrite E. cbn [String.append].
  apply TrimPrefix_none. specialize (plain E). destruct (list_rel pre) as [|x r] eqn:Er; [by apply noslash_HasPrefix|].
  by rewrite HasPrefix_slash_append.
Qed.

Lemma trim_dir c :
  noslash c → TrimSuffix (TrimPrefix (base_key pfx +:+ list_rel pre +:+ c +:+ "/") (pfx +:+ "/")) "/" = list_rel pre +:+ c.
Proof.
  intros Hc. unfold base_key. case_bool_decide as E.
  - rewrite E. cbn [String.append]. specialize (plain E). destruct (list_rel pre) as [|x r] eqn:Er.
    + destruct c as [|y c]; [by vm_compute|]. cbn [String.append].
      rewrite TrimPrefix_none by by apply (noslash_HasPrefix (String y c)) in Hc. apply (TrimSuffix_app (String y c)).
    + rewrite TrimPrefix_none by by rewrite HasPrefix_slash_append.
      rewrite <- append_assoc. apply TrimSuffix_app.
  - rewrite TrimPrefix_app, <- append_assoc. apply TrimSuffix_app.
Qed.
End Prefix.

(** ** Lists *)

Lemma NoDup_omap_inj {A B : Type} (f : A → option B) (l : list A) :
  (∀ x y z, x ∈ l → y ∈ l → f x = Some z → f y = Some z → x = y) → NoDup l → NoDup (omap f l).
Proof.
  intros Hinj Hl. induction Hl as [|x l Hx _ IH]; [constructor|].
  assert (NoDup (omap f l)) as Hn by (apply IH; intros a b z Ha Hb; apply Hinj; by right).
  cbn. destruct (f x) as [z|] eqn:E; [|done]. constructor; [|done].
  intros (y & Hy & Ey)%list_elem_of_omap. apply Hx.
  by rewrite (Hinj x y z (list_elem_of_here _ _) (list_elem_of_further _ _ _ Hy) E Ey).
Qed.

(** ** S3 *)

(** "Keys that contain the same string between the prefix and the next occurrence of the
    delimiter are grouped under a single result element in CommonPrefixes"; the other keys with
    the prefix are listed with their sizes. A listing that fails half way says nothing. *)
Class S3ListLaw {W : Type} (c : s3_client W) (objs : W → objects) := {
  list_objects_law : ∀ ctx b P w, ∃ r w', ListObjectsV2 c ctx b P "/" w = Some (r, w') ∧ objs w' = objs w ∧
    ∀ pgs, r = Ok (Ok <$> pgs) →
      let cps := mjoin (CommonPrefixes <$> pgs) in
      let cts := mjoin (Contents <$> pgs) in
      NoDup cps ∧ NoDup cts ∧
      (∀ x, x ∈ cps ↔ ∃ c k, noslash c ∧ x = Some (P +:+ c +:+ "/") ∧ is_Some (objs w !! (b, P +:+ c +:+ "/" +:+ k))) ∧
      (∀ o, o ∈ cts ↔ ∃ c v, noslash c ∧ objs w !! (b, P +:+ c) = Some v ∧
                        o = mkS3Object (Some (P +:+ c)) (Some (Z.of_nat (String.length v))))
}.

Section S3List.
Context {W : Type} (s : S3.S3Storage W) (objs : W → objects) `{!S3ListLaw (S3.client s) objs}.

(** The object at a path below the configured prefix. *)
Definition s3_at (w : W) (x : string) : option string := objs w !! (S3.bucket s, base_key (S3.prefix s) +:+ x).

Lemma s3_list_prefix pre : S3.list_prefix s pre = base_key (S3.prefix s) +:+ list_rel pre.
Proof using. exact (list_prefix_split (S3.prefix s) pre). Qed.

Lemma list_pages_ok pgs out :
  S3.list_pages s pgs = Ok out → ∃ ps, pgs = Ok <$> ps ∧ out = mjoin (S3.page_infos s <$> ps).
Proof using.
  revert out. induction pgs as [|[pg|e] pgs IH]; intros out; cbn [S3.list_pages]; [| |done].
  - intros [= <-]. by exists [].
  - destruct (S3.list_pages s pgs) as [out'|]; [|done]. intros [= <-].
    destruct (IH out' eq_refl) as (ps & -> & ->). by exists (pg :: ps).
Qed.

Lemma page_infos_split ps :
  mjoin (S3.page_infos s <$> ps) ≡ₚ
    omap (S3.prefix_info s) (mjoin (CommonPrefixes <$> ps)) ++ omap (S3.object_info s) (mjoin (Contents <$> ps)).
Proof using.
  induction ps as [|pg ps IH]; [done|]. cbn [fmap list_fmap mjoin list_join]. rewrite IH, !omap_app.
  unfold S3.page_infos. solve_Permutation.
Qed.

(** The entries directly below a prefix: the objects whose rest of the key has no slash, but
    for empty placeholders, and the directories, which are the first elements of the rest. *)
Definition s3_entry (w : W) (rel : string) (info : ObjectInfo) : Prop :=
  (∃ c v, noslash c ∧ s3_at w (rel +:+ c) = Some v ∧
     ¬ (HasSuffix (base_key (S3.prefix s) +:+ rel +:+ c) "/" = true ∧ v = "") ∧
     info = mkObjectInfo ("/" +:+ rel +:+ c) (Z.of_nat (String.length v)) false) ∨
  (∃ c k, noslash c ∧ is_Some (s3_at w (rel +:+ c +:+ "/" +:+ k)) ∧ info = mkObjectInfo ("/" +:+ rel +:+ c) 0 true).

Lemma length_zero v : Z.of_nat (String.length v) = 0%Z ↔ v = "".
Proof using. destruct v; simpl; split; (done || lia). Qed.

(** C21: A listing of the S3 backend is one level of the tree of keys, exactly. The listing
    always returns and changes no object; when it succeeds it has one item, and only one, for
    every object directly below the prefix, with its size, except for the empty placeholders of
    folders, and one for every directory below the prefix, that is, for every first element of
    a longer key, whether or not the directory has a placeholder. *)
Theorem S3_List_spec ctx pre w :
  (S3.prefix s = "" → HasPrefix (list_rel pre) "/" = false) →
  ∃ r w', S3.List s ctx pre w = Some (r, w') ∧ objs w' = objs w ∧
    match r with
    | Ok infos => NoDup infos ∧ ∀ info, info ∈ infos ↔ s3_entry w (list_rel pre) info
    | Err _ => True
    end.
Proof using S3ListLaw0.
  intros Hplain. unfold S3.List, bind.
  destruct (list_objects_law ctx (S3.bucket s) (S3.list_prefix s pre) w) as (r & w' & E & Ho & Hr).
  rewrite E. destruct r as [pgs|e]; [|by eexists _, w']. exists (S3.list_pages s pgs), w'. split; [done|]. split; [done|].
  destruct (S3.list_pages s pgs) as [infos|e] eqn:Ep; [|done]. apply list_pages_ok in Ep as (ps & -> & ->).
  destruct (Hr ps eq_refl) as (Hnp & Hno & Hp & Hc). rewrite s3_list_prefix in *. clear Hr.
  set (rel := list_rel pre) in *. set (B := base_key (S3.prefix s)) in *.
  assert (∀ c, noslash c → S3.prefix_info s (Some ((B +:+ rel) +:+ c +:+ "/")) = Some (mkObjectInfo ("/" +:+ rel +:+ c) 0 true)) as Hpi.
  { intros c Hcs. unfold S3.prefix_info. cbn [mbind option_bind]. rewrite append_assoc. unfold B, rel.
    by rewrite trim_dir. }
  assert (∀ c v, noslash c → S3.object_info s (mkS3Object (Some ((B +:+ rel) +:+ c)) (Some (Z.of_nat (String.length v)))) =
    if decide (HasSuffix (B +:+ rel +:+ c) "/" = true ∧ v = "") then None
    else Some (mkObjectInfo ("/" +:+ rel +:+ c) (Z.of_nat (String.length v)) false)) as Hoi.
  { intros c v Hcs. unfold S3.object_info. cbn [obj_Key obj_Size mbind option_bind]. rewrite append_assoc.
    unfold B, rel. rewrite trim_file by done. cbn [default]. fold B rel.
    destruct (decide (HasSuffix (B +:+ rel +:+ c) "/" = true ∧ v = "")) as [[-> ->]|Hn]; [done|].
    destruct (HasSuffix (B +:+ rel +:+ c) "/"); [|done]. rewrite bool_decide_eq_false_2; [done|].
    intros [= Hz%length_zero]. by apply Hn. }
  assert (∀ c c', rel +:+ c = rel +:+ c' → c = c') as Hinj by apply append_inj_l.
  split.
  - rewrite page_infos_split. apply NoDup_app. split_and!.
    + apply NoDup_omap_inj; [|done]. intros x y z (c & _ & Hcs & -> & _)%Hp (c' & _ & Hcs' & -> & _)%Hp.
      rewrite !Hpi by done. intros [= <-] [= E']. by rewrite (Hinj c c' (eq_sym E')).
    + intros info (x & (c & _ & Hcs & -> & _)%Hp & Hx)%list_elem_of_omap (o & (c' & v & Hcs' & _ & ->)%Hc & Hy)%list_elem_of_omap.
      rewrite Hpi in Hx by done. rewrite Hoi in Hy by done. case_decide; [done|]. congruence.
    + apply NoDup_omap_inj; [|done]. intros x y z (c & v & Hcs & Hv & ->)%Hc (c' & v' & Hcs' & Hv' & ->)%Hc.
      rewrite !Hoi by done. repeat case_decide; try done. intros [= <-] [= E' _].
      rewrite (Hinj c c' (eq_sym E')) in *. congruence.
  - intros info. rewrite page_infos_split, elem_of_app, !list_elem_of_omap. unfold s3_entry, s3_at. fold B. split.
    + intros [(x & (c & k & Hcs & -> & Hk)%Hp & Hx)|(o & (c & v & Hcs & Hv & ->)%Hc & Hx)]; [right|left].
      * rewrite Hpi in Hx by done. injection Hx as <-. exists c, k. by rewrite append_assoc in Hk.
      * rewrite Hoi in Hx by done. case_decide; [done|]. injection Hx as <-. exists c, v. by rewrite append_assoc in Hv.
    + intros [(c & v & Hcs & Hv & Hn & ->)|(c & k & Hcs & Hk & ->)]; [right|left].
      * exists (mkS3Object (Some ((B +:+ rel) +:+ c)) (Some (Z.of_nat (String.length v)))). split.
        { apply Hc. exists c, v. by rewrite append_assoc. }
        rewrite Hoi by done. by rewrite decide_False.
      * exists (Some ((B +:+ rel) +:+ c +:+ "/")). split; [|by apply Hpi].
        apply Hp. exists c, k. split_and!; [done..|by rewrite append_assoc].
Qed.
End S3List.

(** ** GCS *)

(** Without a delimiter the iterator delivers every object with the prefix, once. *)
Class GcsListLaw {W : Type} (c : gcs_client W) (objs : W → objects) := {
  objects_law : ∀ ctx b P w, ∃ r w', gcs_Objects c ctx b P w = Some (r, w') ∧ objs w' = objs w ∧
    ∀ os, r = Ok (Ok <$> os) →
      NoDup os ∧ ∀ o, o ∈ os ↔ ∃ x v, objs w !! (b, P +:+ x) = Some v ∧ o = mkGcsObject (P +:+ x) (Z.of_nat (String.length v))
}.

Section GcsList.
Context {W : Type} (g : Gcs.GCSStorage W) (objs : W → objects) `{!GcsListLaw (Gcs.client g) objs}.

Definition gcs_at (w : W) (x : string) : option string := objs w !! (Gcs.bucket g, base_key (Gcs.prefix g) +:+ x).

Lemma gcs_list_prefix pre : Gcs.list_prefix g pre = base_key (Gcs.prefix g) +:+ list_rel pre.
Proof using. exact (list_prefix_split (Gcs.prefix g) pre). Qed.

Lemma list_objects_ok os out :
  Gcs.list_objects g os = Ok out → ∃ xs, os = Ok <$> xs ∧ out = omap (Gcs.object_info g) xs.
Proof using.
  revert out. induction os as [|[o|e] os IH]; intros out; cbn [Gcs.list_objects]; [| |done].
  - intros [= <-]. by exists [].
  - destruct (Gcs.list_objects g os) as [out'|]; [|done]. intros [= <-].
    destruct (IH out' eq_refl) as (xs & -> & ->). exists (o :: xs). split; [done|]. cbn. by destruct (Gcs.object_info g o).
Qed.

Definition gcs_entry (w : W) (rel : string) (info : ObjectInfo) : Prop :=
  ∃ x v, gcs_at w (rel +:+ x) = Some v ∧
    ¬ (HasSuffix (base_key (Gcs.prefix g) +:+ rel +:+ x) "/" = true ∧ v = "") ∧
    info = mkObjectInfo ("/" +:+ rel +:+ x) (Z.of_nat (String.length v)) false.

(** C38: A listing of the GCS backend is the whole subtree, exactly. The listing always returns
    and changes no object; when it succeeds it has one item, and only one, for every object at
    any depth below the prefix, with its size, except for empty placeholders, and it never
    reports a directory. This is not what the S3 and the local backends list for the same
    tree. *)
Theorem Gcs_List_spec ctx pre w :
  ∃ r w', Gcs.List g ctx pre w = Some (r, w') ∧ objs w' = objs w ∧
    match r with
    | Ok infos => NoDup infos ∧ (∀ info, info ∈ infos ↔ gcs_entry w (list_rel pre) info) ∧
                  Forall (fun info => IsDir info = false) infos
    | Err _ => True
    end.
Proof using GcsListLaw0.
  unfold Gcs.List, bind.
  destruct (objects_law ctx (Gcs.bucket g) (Gcs.list_prefix g pre) w) as (r & w' & E & Ho & Hr).
  rewrite E. destruct r as [os|e]; [|by eexists _, w']. exists (Gcs.list_objects g os), w'. split; [done|]. split; [done|].
  destruct (Gcs.list_objects g os) as [infos|e] eqn:Ep; [|done]. apply list_objects_ok in Ep as (xs & -> & ->).
  destruct (Hr xs eq_refl) as (Hn & Hx). rewrite gcs_list_prefix in *. clear Hr.
  set (rel := list_rel pre) in *. set (B := base_key (Gcs.prefix g)) in *.
  assert (∀ x v, Gcs.object_info g (mkGcsObject ((B +:+ rel) +:+ x) (Z.of_nat (String.length v))) =
    if decide (HasSuffix (B +:+ rel +:+ x) "/" = true ∧ v = "") then None
    else Some (mkObjectInfo ("/" +:+ rel +:+ x) (Z.of_nat (String.length v)) false)) as Hoi.
  { intros x v. unfold Gcs.object_info. cbn [Name ObjSize]. rewrite append_assoc.
    assert ((if bool_decide (Gcs.prefix g = "") then B +:+ rel +:+ x else TrimPrefix (B +:+ rel +:+ x) (Gcs.prefix g +:+ "/")) = rel +:+ x) as ->.
    { unfold B, base_key. case_bool_decide; [done|]. apply TrimPrefix_app. }
    destruct (decide (HasSuffix (B +:+ rel +:+ x) "/" = true ∧ v = "")) as [[-> ->]|Hne]; [done|].
    destruct (HasSuffix (B +:+ rel +:+ x) "/"); [|done]. rewrite bool_decide_eq_false_2; [done|].
    intros Hz. apply Hne. by destruct v. }
  assert (∀ info, info ∈ omap (Gcs.object_info g) xs ↔ gcs_entry w rel info) as Hent.
  { intros info. rewrite list_elem_of_omap. unfold gcs_entry, gcs_at. fold B. split.
    - intros (o & (x & v & Hv & ->)%Hx & Hi). rewrite Hoi in Hi. case_decide; [done|]. injection Hi as <-.
      exists x, v. by rewrite append_assoc in Hv.
    - intros (x & v & Hv & Hne & ->). exists (mkGcsObject ((B +:+ rel) +:+ x) (Z.of_nat (String.length v))).
      split; [apply Hx; exists x, v; by rewrite append_assoc|]. rewrite Hoi. by rewrite decide_False. }
  split_and!; [|done|].
  - apply NoDup_omap_inj; [|done]. intros o o' z (x & v & Hv & ->)%Hx (x' & v' & Hv' & ->)%Hx.
    rewrite !Hoi. repeat case_decide; try done. intros [= <-] [= E' _].
    rewrite (append_inj_l rel x x' (eq_sym E')) in *. congruence.
  - apply Forall_forall. by intros info (x & v & _ & _ & ->)%Hent.
Qed.
End GcsList.

(** ** Services in memory *)

(** The keys of a bucket that start with a prefix, by their rest. *)
Definition rests (o : objects) (b P : string) : list (string * string) :=
  omap (fun '((b', k), v) => if bool_decide (b' = b) && HasPrefix k P then Some (TrimPrefix k P, v) else None) (map_to_list o).

Lemma elem_of_rests o b P x v : (x, v) ∈ rests o b P ↔ o !! (b, P +:+ x) = Some v.
Proof.
  unfold rests. rewrite list_elem_of_omap. split.
  - intros ([[b' k] v'] & Hin & H). apply elem_of_map_to_list in Hin.
    destruct (bool_decide (b' = b) && HasPrefix k P) eqn:E; [|done]. injection H as <- <-.
    apply andb_true_iff in E as [->%bool_decide_eq_true_1 [y ->]%HasPrefix_spec]. by rewrite TrimPrefix_app.
  - intros Hv. exists ((b, P +:+ x), v). rewrite elem_of_map_to_list. split; [done|].
    by rewrite bool_decide_eq_true_2, HasPrefix_app, TrimPrefix_app by done.
Qed.

Lemma NoDup_rests o b P : NoDup (rests o b P).
Proof.
  apply NoDup_omap_inj; [|apply NoDup_map_to_list].
  intros [[b1 k1] v1] [[b2 k2] v2] [x v] _ _. simpl.
  destruct (bool_decide (b1 = b) && HasPrefix k1 P) eqn:E1; [|done].
  destruct (bool_decide (b2 = b) && HasPrefix k2 P) eqn:E2; [|done].
  apply andb_true_iff in E1 as [->%bool_decide_eq_true_1 [y1 ->]%HasPrefix_spec],
    E2 as [->%bool_decide_eq_true_1 [y2 ->]%HasPrefix_spec]. rewrite !TrimPrefix_app. by intros [= -> ->] [= -> ->].
Qed.

(** The first element of a key, and what follows it. *)
Definition first_elem (x : string) : option string :=
  match split_slash x with c :: _ :: _ => Some c | _ => None end.

Lemma first_elem_spec x c : first_elem x = Some c ↔ noslash c ∧ ∃ k, x = c +:+ "/" +:+ k.
Proof.
  unfold first_elem. split.
  - pose proof (noslash_split_slash x) as Hn. pose proof (join_split x) as Hj.
    destruct (split_slash x) as [|c' [|d r]]; [done..|]. intros [= ->]. inversion_clear Hn. split; [done|].
    exists (join_slash (d :: r)). by rewrite <- Hj, join_slash_cons.
  - intros [Hc [k ->]]. change ("/" +:+ k) with (String slash k). rewrite split_slash_app, split_slash_noslash by done.
    destruct (split_slash k) eqn:E; [|done]. by destruct (split_slash_nonempty k).
Qed.

(** One page of a delimited listing. *)
Definition mem_page (o : objects) (b P : string) : s3_page :=
  let rs := rests o b P in
  mkS3Page ((fun c => Some (P +:+ c +:+ "/")) <$> remove_dups (omap (fun xv => first_elem xv.1) rs))
    ((fun xv => mkS3Object (Some (P +:+ xv.1)) (Some (Z.of_nat (String.length xv.2)))) <$>
       filter (fun xv => noslash xv.1) rs).

Definition mem_s3_list : s3_client objects :=
  mkS3Client (rand_Read mem_s3) (PutObject mem_s3) (CopyObject mem_s3) (DeleteObject mem_s3) (HeadObject mem_s3)
    (GetObject mem_s3) (fun _ b P _ => gets (fun o => [Ok (mem_page o b P)])).

#[export] Instance mem_s3_list_law : S3ListLaw mem_s3_list id.
Proof.
  split. intros ctx b P w. eexists _, w. split; [done|]. split; [done|]. intros pgs Hr.
  assert (pgs = [mem_page w b P]) as ->.
  { injection Hr as E. destruct pgs as [|pg [|? ?]]; [done| |done]. simpl in E. by injection E as ->. }
  cbn [fmap list_fmap mjoin list_join mem_page CommonPrefixes Contents]. rewrite !app_nil_r.
  pose proof (elem_of_rests w b P) as Hel. unfold id. split_and!.
  - apply NoDup_fmap_2_strong; [|apply NoDup_remove_dups].
    intros c c' _ _ [= E%append_inj_l]. apply (f_equal (fun x => TrimSuffix x "/")) in E. by rewrite !TrimSuffix_app in E.
  - apply NoDup_fmap_2_strong; [|by apply NoDup_filter, NoDup_rests].
    intros [x v] [x' v'] H1 H2 [= E%append_inj_l _]. simpl in E. subst.
    apply list_elem_of_filter in H1 as [_ H1%Hel], H2 as [_ H2%Hel]. congruence.
  - intros x. rewrite list_elem_of_fmap. setoid_rewrite elem_of_remove_dups. setoid_rewrite list_elem_of_omap. split.
    + intros (c & -> & [y v] & Hin%Hel & (Hc & k & Hk)%first_elem_spec).
      simpl in Hk. subst y. exists c, k. split_and!; [done..|by exists v].
    + intros (c & k & Hc & -> & v & Hv). exists c. split; [done|]. exists (c +:+ "/" +:+ k, v).
      split; [by apply Hel|]. apply first_elem_spec. split; [done|by exists k].
  - intros o. rewrite list_elem_of_fmap. setoid_rewrite list_elem_of_filter. split.
    + intros ([x v] & -> & Hx & Hin%Hel). by exists x, v.
    + intros (c & v & Hc & Hv & ->). exists (c, v). by rewrite Hel.
Qed.

#[export] Instance mem_gcs_list_law : GcsListLaw mem_gcs id.
Proof.
  split. intros ctx b P w. eexists _, w. split; [done|]. split; [done|]. unfold id. intros os Hr.
  assert (os = (fun xv => mkGcsObject (P +:+ xv.1) (Z.of_nat (String.length xv.2))) <$> rests w b P) as ->.
  { assert (Inj (=) (=) (@Ok gcs_object)) by by intros ?? [= ->].
    apply (inj (fmap (M := list) Ok)). injection Hr as <-. unfold rests. induction (map_to_list w) as [|[[b' k] v] l IH]; [done|].
    cbn. destruct (bool_decide (b' = b) && HasPrefix k P) eqn:E; [|done].
    cbn. rewrite <- IH. apply andb_true_iff in E as [_ [y ->]%HasPrefix_spec]. by rewrite TrimPrefix_app. }
  pose proof (elem_of_rests w b P) as Hel. split.
  - apply NoDup_fmap_2_strong; [|apply NoDup_rests].
    intros [x v] [x' v'] H1%Hel H2%Hel [= E%append_inj_l _]. simpl in E. subst. congruence.
  - intros o. rewrite list_elem_of_fmap. split.
    + intros ([x v] & -> & Hin%Hel). by exists x, v.
    + intros (x & v & Hv & ->). exists (x, v). by rewrite Hel.
Qed.

(** A tree with a file, a folder placeholder and a file in a folder. *)
Definition tree_objects : objects :=
  {[ ("bkt", "fe/a") := "abc"; ("bkt", "fe/d/") := ""; ("bkt", "fe/d/b") := "x" ]}.

Definition tree_s3 : S3.S3Storage objects := S3.mkS3Storage mem_s3_list "bkt" "fe".

Lemma S3_List_spec_witness :
  ∃ r w', S3.List tree_s3 (mkCtx None None false) "/" tree_objects = Some (r, w') ∧ w' = tree_objects ∧
    match r with
    | Ok infos => NoDup infos ∧ ∀ info, info ∈ infos ↔ s3_entry tree_s3 id tree_objects "" info
    | Err _ => True
    end.
Proof. apply (S3_List_spec tree_s3 id (mkCtx None None false) "/" tree_objects). discriminate. Defined.

Lemma Gcs_List_spec_witness :
  ∃ r w', Gcs.List mem_gcs_bucket (mkCtx None None false) "/" tree_objects = Some (r, w') ∧ w' = tree_objects ∧
    match r with
    | Ok infos => NoDup infos ∧ (∀ info, info ∈ infos ↔ gcs_entry mem_gcs_bucket id tree_objects "" info) ∧
                  Forall (fun info => IsDir info = false) infos
    | Err _ => True
    end.
Proof. apply (Gcs_List_spec mem_gcs_bucket id (mkCtx None None false) "/" tree_objects). Defined.

(** The same tree, listed by the two backends. *)
Lemma listings_differ :
  (fun x => x.1) <$> S3.List tree_s3 (mkCtx None None false) "/" tree_objects =
    Some (Ok [mkObjectInfo "/d" 0 true; mkObjectInfo "/a" 3 false]) ∧
  ∃ infos, (fun x => x.1) <$> Gcs.List mem_gcs_bucket (mkCtx None None false) "/" tree_objects = Some (Ok infos) ∧
    mkObjectInfo "/d/b" 1 false ∈ infos ∧ mkObjectInfo "/d" 0 true ∉ infos.
Proof.
  split; [vm_compute; reflexivity|]. eexists. split; [vm_compute; reflexivity|].
  split; [|by intros H; repeat (apply elem_of_cons in H as [H|H]; [done|]); apply elem_of_nil in H].
  rewrite !elem_of_cons. auto.
Qed.
