(* ===== verification/Queue.v ===== *)
(** * Task queue, processor and worker

    [internal/adapters/queue/redisq/redisq.go], [internal/app/tasks/processor.go] and
    [internal/app/tasks/worker.go], and the older worker of [internal/worker/worker.go] and
    [worker_impl.go]. The Redis client is a parameter. *)
From stdpp Require Import pretty sorting.
From S2P Require Import Prelude GoStrings Jwt Json JsonText PosixFs LocalStorage Storage.

#[local] Open Scope string_scope.
#[local] Open Scope nat_scope.
#[local] Open Scope list_scope.
#[local] Open Scope go_scope.

(** ** Payloads *)

(** A Go map may be nil. *)
Record TaskPayload := mkTask { ID : string; Type_ : string; Params : option (gmap string string) }.

#[global] Instance TaskPayload_eq_dec : EqDecision TaskPayload.
Proof. solve_decision. Defined.

Definition zero_task : TaskPayload := mkTask "" "" None.

(** [t.Params[k]]: the zero value when the key, or the map, is missing. *)
Definition param (t : TaskPayload) (k : string) : string := default "" (Params t ≫= lookup k).

(** *** [json.Marshal]: struct fields in order, map keys sorted *)

Definition key_le (a b : string * string) : Prop :=
  match String.compare a.1 b.1 with Gt => False | _ => True end.

#[global] Instance key_le_dec a b : Decision (key_le a b).
Proof. unfold key_le. case_match; apply _. Defined.

Definition map_json (m : option (gmap string string)) : json :=
  match m with
  | None => JNull
  | Some m => JObj ((fun '(k, v) => (k, JStr v)) <$> merge_sort key_le (map_to_list m))
  end.

Definition task_json (t : TaskPayload) : json :=
  JObj [("id", JStr (ID t)); ("type", JStr (Type_ t)); ("params", map_json (Params t))].

Definition Marshal (t : TaskPayload) : string := print_json (task_json t).

(** *** [json.Unmarshal] *)

(** Field names match exactly or else up to case folding, in which the long s and the Kelvin
    sign fold to ASCII letters. *)
Definition fold_name (s : string) : string :=
  ToLower (ReplaceAll (ReplaceAll s (GoStrings.bytes [197; 191]) "s") (GoStrings.bytes [226; 132; 170]) "k").

Inductive task_field := FID | FType | FParams.

Definition field_of (k : string) : option task_field :=
  let k := fold_name k in
  if bool_decide (k = "id") then Some FID
  else if bool_decide (k = "type") then Some FType
  else if bool_decide (k = "params") then Some FParams
  else None.

(** A value stored into a string: null leaves it alone, another type is an error that is
    remembered while decoding goes on. The flag is the remembered error. *)
Definition store_string (old : string) (j : json) : string * bool :=
  match j with JStr s => (s, false) | JNull => (old, false) | _ => (old, true) end.

Fixpoint store_entries (fs : list (string * json)) (m : gmap string string) : gmap string string * bool :=
  match fs with
  | [] => (m, false)
  | (k, j) :: fs' =>
      let '(v, e) := store_string "" j in
      let '(m', e') := store_entries fs' (<[k := v]> m) in
      (m', e || e')
  end.

Definition store_map (old : option (gmap string string)) (j : json) : option (gmap string string) * bool :=
  match j with
  | JObj fs => let '(m, e) := store_entries fs (default ∅ old) in (Some m, e)
  | JNull => (None, false)
  | _ => (old, true)
  end.

Definition store_field (t : TaskPayload) (k : string) (j : json) : TaskPayload * bool :=
  match field_of k with
  | Some FID => let '(s, e) := store_string (ID t) j in (mkTask s (Type_ t) (Params t), e)
  | Some FType => let '(s, e) := store_string (Type_ t) j in (mkTask (ID t) s (Params t), e)
  | Some FParams => let '(m, e) := store_map (Params t) j in (mkTask (ID t) (Type_ t) m, e)
  | None => (t, false)
  end.

Fixpoint store_fields (fs : list (string * json)) (t : TaskPayload) : TaskPayload * bool :=
  match fs with
  | [] => (t, false)
  | (k, j) :: fs' =>
      let '(t', e) := store_field t k j in
      let '(t2, e') := store_fields fs' t' in
      (t2, e || e')
  end.

(** [json.Unmarshal(b, &t)] from a zero [t]: what [t] holds afterwards, and whether an error
    is returned. A syntax error leaves [t] zero. *)
Definition Unmarshal (s : string) : TaskPayload * option error :=
  match parse_json s with
  | None => (zero_task, Some (ErrNew "invalid character"))
  | Some (JObj fs) =>
      let '(t, e) := store_fields fs zero_task in
      (t, if e then Some (ErrNew "cannot unmarshal") else None)
  | Some JNull => (zero_task, None)
  | Some _ => (zero_task, Some (ErrNew "cannot unmarshal"))
  end.

(** ** Redis *)

(** The calls on [*redis.Client]: BLPOP waits without limit for an element, which it returns
    after the name of its list. *)
Record redis_client (R : Type) := mkRedis {
  BLPop : context → string → prog R (string * string);
  RPush : context → string → string → prog R unit;
  Set_ : context → string → string → prog R unit
}.
Arguments mkRedis {R}.
Arguments BLPop {R}.
Arguments RPush {R}.
Arguments Set_ {R}.

(** A broken-down UTC time, as [time.Now().UTC()] gives it. *)
Record utc := mkUtc { year : N; month : N; day : N; hour : N; minute : N; second : N; nanosecond : N }.

Definition zeros (n : nat) : string := foldr String.append "" (repeat "0" n).

(** A number padded with zeros to [w] digits. *)
Definition pad (w : nat) (n : N) : string :=
  let s := pretty n in zeros (w - String.length s) +:+ s.

(** [t.Format("20060102T150405.000000000Z07:00")] *)
Definition format_id (t : utc) : string :=
  pad 4 (year t) +:+ pad 2 (month t) +:+ pad 2 (day t) +:+ "T" +:+
  pad 2 (hour t) +:+ pad 2 (minute t) +:+ pad 2 (second t) +:+ "." +:+ pad 9 (nanosecond t) +:+ "Z".

Module Redisq.
Record RedisQueue (R : Type) := mkQueue { client : redis_client R }.
Arguments mkQueue {R}.
Arguments client {R}.

Definition NewRedisQueue {R} (c : redis_client R) : RedisQueue R := mkQueue c.

Section Queue.
Context {R : Type}.
Implicit Type q : RedisQueue R.

(** The error of [json.Unmarshal] is ignored. *)
Definition Pop q (ctx : context) : prog R TaskPayload :=
  let! res := BLPop (client q) ctx "tasks" in
  ret (Unmarshal res.2).1.

Definition Complete q (ctx : context) (id status : string) : prog R unit :=
  Set_ (client q) ctx ("task:" +:+ id) status.

Definition Enqueue q (ctx : context) (payload : TaskPayload) : prog R unit :=
  RPush (client q) ctx "tasks" (Marshal payload).

Definition EnqueueCreateFolder q (ctx : context) (now : utc) (parentPath folderName requestedBy : string)
    : prog R string :=
  let id := format_id now in
  let p := mkTask id "create_folder"
             (Some {[ "parent" := parentPath; "name" := folderName; "by" := requestedBy ]}) in
  do! Enqueue q ctx p in
  ret id.
End Queue.
End Redisq.

(** ** Processor *)

Module Tasks.
Record Processor (S : Type) := mkProcessor { st : Storage S }.
Arguments mkProcessor {S}.
Arguments st {S}.

Definition NewProcessorWithStorage {S} (st : Storage S) : Processor S := mkProcessor st.

Definition Process {S} (p : Processor S) (ctx : context) (t : TaskPayload) : prog S unit :=
  if bool_decide (Type_ t = "create_folder") then
    let parent := param t "parent" in
    let name := param t "name" in
    if bool_decide (parent = "" ∨ name = "") then throw (ErrNew "missing params")
    else
      let parent := TrimSuffix parent "/" in
      st_CreateFolder (st p) ctx (parent +:+ "/" +:+ name)
  else if bool_decide (Type_ t = "move_file") then
    let src := param t "src" in
    let dst := param t "dst" in
    if bool_decide (src = "" ∨ dst = "") then throw (ErrNew "missing params")
    else st_Move (st p) ctx src dst
  else throw (ErrNew ("unknown task type " +:+ Type_ t)).

(** *** Worker *)

(** The worker runs over the state of Redis and the state of the storage backend. *)
Definition on_queue {R S A} (m : prog R A) : prog (R * S) A := fun w =>
  match m w.1 with None => None | Some (r, x) => Some (r, (x, w.2)) end.
Definition on_storage {R S A} (m : prog S A) : prog (R * S) A := fun w =>
  match m w.2 with None => None | Some (r, x) => Some (r, (w.1, x)) end.

Record Worker (R S : Type) := mkWorker { wq : Redisq.RedisQueue R; wp : Processor S }.
Arguments mkWorker {R S}.
Arguments wq {R S}.
Arguments wp {R S}.

Definition NewWorker {R S} (q : Redisq.RedisQueue R) (p : Processor S) : Worker R S := mkWorker q p.

Section Worker.
Context {R S : Type} (w : Worker R S).

(** One round of the loop, after the context was found alive. A failed pop only sleeps. *)
Definition round (ctx : context) : prog (R * S) unit :=
  let! task := attempt (on_queue (Redisq.Pop (wq w) ctx)) in
  match task with
  | Err _ => ret tt
  | Ok task =>
      let! r := attempt (on_storage (Process (wp w) ctx task)) in
      let status := match r with Err _ => "failed" | Ok _ => "success" end in
      let! _ := attempt (on_queue (Redisq.Complete (wq w) ctx (ID task) status)) in
      ret tt
  end.

(** [ctxs i] is the state of the context when round [i] starts. *)
Fixpoint Start_from (fuel i : nat) (ctxs : nat → context) : prog (R * S) unit :=
  match fuel with
  | 0 => diverge
  | Datatypes.S fuel' =>
      if ctx_done (ctxs i) then ret tt
      else do! round (ctxs i) in Start_from fuel' (Datatypes.S i) ctxs
  end.

Definition Start (fuel : nat) (ctxs : nat → context) : prog (R * S) unit := Start_from fuel 0 ctxs.
End Worker.
End Tasks.

(** ** The older worker *)

Module OldWorker.
(** The interfaces of [worker.go]; a [nil] task is [None]. *)
Definition Task : Type := TaskPayload.
Record Queue (R : Type) := mkQueueI { q_Pop : context → prog R (option Task); q_Complete : context → string → string → prog R unit }.
Arguments mkQueueI {R}.
Arguments q_Pop {R}.
Arguments q_Complete {R}.
Record Processor (S : Type) := mkProcessorI { p_Process : context → Task → prog S unit }.
Arguments mkProcessorI {S}.
Arguments p_Process {S}.
Record Worker (R S : Type) := mkWorker { w_Queue : Queue R; w_Processor : Processor S }.
Arguments mkWorker {R S}.
Arguments w_Queue {R S}.
Arguments w_Processor {R S}.

Record RedisQueue (R : Type) := mkQueue { Client : redis_client R }.
Arguments mkQueue {R}.
Arguments Client {R}.

(** [opt] holds the options of [redis.NewClient]. *)
Definition NewRedisQueue {R Options} (NewClient : Options → redis_client R) (opt : Options) : RedisQueue R :=
  mkQueue (NewClient opt).

(** A payload that does not decode is an error of [Pop]. *)
Definition Pop {R} (q : RedisQueue R) (ctx : context) : prog R (option Task) :=
  let! res := BLPop (Client q) ctx "tasks" in
  match Unmarshal res.2 with
  | (t, None) => ret (Some t)
  | (_, Some e) => throw e
  end.

Definition Complete {R} (q : RedisQueue R) (ctx : context) (id status : string) : prog R unit :=
  Set_ (Client q) ctx ("task:" +:+ id) status.

Definition redis_queue {R} (q : RedisQueue R) : Queue R := mkQueueI (Pop q) (Complete q).

Record FSProcessor := mkFSProcessor { FS : OldLocal.LocalFs }.

Definition NewFSProcessor (fs : OldLocal.LocalFs) : FSProcessor := mkFSProcessor fs.

Definition Process (p : FSProcessor) (ctx : context) (task : Task) : prog world unit :=
  if bool_decide (Type_ task = "create_folder") then
    let path := param task "path" in
    let folder := param task "folder" in
    if bool_decide (path = "" ∨ folder = "") then throw (ErrNew "missing params")
    else OldLocal.CreateFolder (FS p) ctx [path; folder]
  else if bool_decide (Type_ task = "complete_upload") then
    let uploadTmp := param task "upload_tmp" in
    let targetPath := param task "target_path" in
    let filename := param task "filename" in
    if bool_decide (uploadTmp = "" ∨ targetPath = "" ∨ filename = "")
    then throw (ErrNew "missing params for complete_upload")
    else OldLocal.MoveUploadedFile (FS p) ctx [uploadTmp] [targetPath; filename]
  else throw (ErrNew ("unknown task type: " +:+ Type_ task)).

Definition fs_processor (p : FSProcessor) : Processor world := mkProcessorI (Process p).

(** The status of a finished task carries the error's text, of which [error_text] is the
    rendering. *)
Definition status_text (error_text : error → string) (r : result unit) : string :=
  match r with Ok _ => "success" | Err e => "error: " +:+ error_text e end.

(** One round of the loop, which never looks at the context. *)
Definition round {R S} (error_text : error → string) (w : Worker R S) (ctx : context) : prog (R * S) unit :=
  let! task := attempt (Tasks.on_queue (q_Pop (w_Queue w) ctx)) in
  match task with
  | Err _ => ret tt
  | Ok None => ret tt
  | Ok (Some task) =>
      let! r := attempt (Tasks.on_storage (p_Process (w_Processor w) ctx task)) in
      let! _ := attempt (Tasks.on_queue (q_Complete (w_Queue w) ctx (ID task) (status_text error_text r))) in
      ret tt
  end.

(** [fuel] rounds of the loop without an exit. *)
Fixpoint Start {R S} (fuel : nat) (error_text : error → string) (w : Worker R S) (ctx : context) : prog (R * S) unit :=
  match fuel with
  | 0 => diverge
  | Datatypes.S fuel' => do! round error_text w ctx in Start fuel' error_text w ctx
  end.

End OldWorker.
