(* ===== verification/QueueProps.v ===== *)
(** * Properties of the task queue, processor and worker *)
From stdpp Require Import pretty sorting.
From S2P Require Import Prelude GoStrings GoPath Jwt Json JsonText PosixFs Storage LocalStorage Queue Acl Authz.

#[local] Open Scope string_scope.
#[local] Open Scope nat_scope.
#[local] Open Scope list_scope.
#[local] Open Scope go_scope.

(** ** Payloads survive the queue *)

Definition valid_task (t : TaskPayload) : Prop :=
  valid_utf8 (ID t) ∧ valid_utf8 (Type_ t) ∧
  match Params t with None => True | Some m => map_Forall (fun k v => valid_utf8 k ∧ valid_utf8 v) m end.

Lemma store_entries_strings l m :
  store_entries ((fun '(k, v) => (k, JStr v)) <$> l) m = (list_to_map (reverse l) ∪ m, false).
Proof.
  revert m. induction l as [|[k v] l IH]; intros m; cbn [fmap list_fmap store_entries store_string].
  - change (list_to_map (reverse [])) with (∅ : gmap string string). by rewrite map_empty_union.
  - rewrite IH, reverse_cons, list_to_map_app. simpl.
    by rewrite <- map_union_assoc, insert_empty, <- insert_union_singleton_l.
Qed.

Lemma list_to_map_sorted (m : gmap string string) :
  list_to_map (reverse (merge_sort key_le (map_to_list m))) ∪ ∅ = m.
Proof.
  rewrite map_union_empty.
  assert (reverse (merge_sort key_le (map_to_list m)) ≡ₚ map_to_list m) as Hp
    by (etrans; [apply reverse_Permutation|apply merge_sort_Permutation]).
  transitivity (list_to_map (M := gmap string string) (map_to_list m)); [|apply list_to_map_to_list].
  apply list_to_map_proper; [|done]. rewrite Hp. apply NoDup_fst_map_to_list.
Qed.

Lemma task_json_wf t : valid_task t → wf_json 2 (task_json t).
Proof.
  intros (Hi & Ht & Hp). constructor.
  assert (valid_utf8 "id" ∧ valid_utf8 "type" ∧ valid_utf8 "params") as (? & ? & ?)
    by (unfold valid_utf8; split_and!; apply (bool_decide_unpack _); vm_compute; exact I).
  repeat (constructor; [split; [done|try by constructor]|]); [|constructor].
  unfold map_json. destruct (Params t) as [m|]; [|constructor]. constructor.
  apply Forall_fmap, Forall_forall. intros [k v] Hin. simpl.
  rewrite merge_sort_Permutation in Hin. apply elem_of_map_to_list in Hin.
  destruct (Hp k v Hin). split; [done|by constructor].
Qed.

Lemma Unmarshal_Marshal_valid t : valid_task t → Unmarshal (Marshal t) = (t, None).
Proof.
  intros Hv. unfold Unmarshal, Marshal. rewrite (parse_json_print 2); [|by apply task_json_wf|done].
  unfold task_json. destruct t as [i ty ps]. cbn [store_fields ID Type_ Params].
  unfold store_field. change (field_of "id") with (Some FID). change (field_of "type") with (Some FType).
  change (field_of "params") with (Some FParams). cbn [store_string zero_task ID Type_ Params].
  destruct ps as [m|]; [|done]. unfold store_map, map_json. cbn [default].
  by rewrite store_entries_strings, list_to_map_sorted.
Qed.

(** C25: A task survives its trip through the queue: for every payload whose strings are
    valid UTF-8, decoding the text that [json.Marshal] produces gives back the same payload
    without an error. *)
Theorem Unmarshal_Marshal t : valid_task t → Unmarshal (Marshal t) = (t, None).
Proof. apply Unmarshal_Marshal_valid. Qed.

(** *** Task ids *)

Lemma all_ascii_pretty (n : N) : all_ascii (pretty n) = true.
Proof.
  cut (∀ s, all_ascii s = true → all_ascii (pretty_N_go n s) = true).
  { intros H. unfold pretty, pretty_N. case_decide; [done|by apply H]. }
  induction (N.lt_wf_0 n) as [n _ IH]. intros s Hs.
  assert (n = 0 ∨ 0 < n)%N as [->|Hr] by lia; [by rewrite pretty_N_go_0|].
  rewrite pretty_N_go_step by done. apply IH; [by apply N.div_lt|].
  simpl. rewrite Hs, andb_true_r. unfold pretty_N_char. by repeat case_match.
Qed.

Lemma all_ascii_pad w n : all_ascii (pad w n) = true.
Proof.
  unfold pad. rewrite all_ascii_append, all_ascii_pretty, andb_true_r. unfold zeros.
  by induction (w - _).
Qed.

Lemma valid_format_id t : valid_utf8 (format_id t).
Proof. apply valid_ascii. unfold format_id. by rewrite !all_ascii_append, !all_ascii_pad. Qed.

(** ** The worker *)

(** A Redis server that is up: the list of waiting payloads and the stored statuses. A call
    whose context is done fails and has no effect. *)
Class RedisUp {R : Type} (c : redis_client R) (waiting : R → list string) (statuses : R → gmap string string) := {
  blpop_law : ∀ ctx w v vs, ctx_done ctx = false → waiting w = v :: vs →
    ∃ w', BLPop c ctx "tasks" w = Some (Ok ("tasks", v), w') ∧ waiting w' = vs ∧ statuses w' = statuses w;
  rpush_law : ∀ ctx v w, ctx_done ctx = false →
    ∃ w', RPush c ctx "tasks" v w = Some (Ok tt, w') ∧ waiting w' = waiting w ++ [v] ∧ statuses w' = statuses w;
  set_law : ∀ ctx k v w, ctx_done ctx = false →
    ∃ w', Set_ c ctx k v w = Some (Ok tt, w') ∧ waiting w' = waiting w ∧ statuses w' = <[k := v]> (statuses w);
  blpop_done_law : ∀ ctx w, ctx_done ctx = true → ∃ e, BLPop c ctx "tasks" w = Some (Err e, w)
}.

Section Worker.
Context {R St : Type} (q : Redisq.RedisQueue R) (p : Tasks.Processor St).
Context (waiting : R → list string) (statuses : R → gmap string string).
Context `{!RedisUp (Redisq.client q) waiting statuses}.

#[local] Abbreviation worker := (Tasks.NewWorker q p).

(** Processing the tasks one after the other, without a queue. *)
Fixpoint process_all (ctx : context) (ts : list TaskPayload) : St → option (list (result unit) * St) := fun s =>
  match ts with
  | [] => Some ([], s)
  | t :: ts' =>
      '(r, s1) ← Tasks.Process p ctx t s;
      '(rs, s2) ← process_all ctx ts' s1;
      Some (r :: rs, s2)
  end.

Definition status_of (r : result unit) : string := if is_ok r then "success" else "failed".

Definition record_status (m : gmap string string) (tr : TaskPayload * result unit) : gmap string string :=
  <["task:" +:+ ID tr.1 := status_of tr.2]> m.

(** One round takes the oldest payload, processes it and records its status. *)
Lemma round_run ctx r s v vs res s' :
  ctx_done ctx = false → waiting r = v :: vs → Tasks.Process p ctx (Unmarshal v).1 s = Some (res, s') →
  ∃ r', Tasks.round worker ctx (r, s) = Some (Ok tt, (r', s')) ∧ waiting r' = vs ∧
    statuses r' = record_status (statuses r) ((Unmarshal v).1, res).
Proof using RedisUp0.
  intros Hl Hw Hp. destruct (blpop_law ctx r v vs Hl Hw) as (r1 & E1 & Hw1 & Hs1).
  destruct (set_law ctx ("task:" +:+ ID (Unmarshal v).1) (status_of res) r1 Hl) as (r2 & E2 & Hw2 & Hs2).
  exists r2. unfold record_status. cbn [fst snd]. rewrite Hs2, Hw2, Hs1. split; [|done].
  unfold Tasks.round, bind, attempt, Tasks.on_queue, Tasks.on_storage, Redisq.Pop, Redisq.Complete, bind.
  cbn [fst snd Tasks.wq Tasks.wp Tasks.NewWorker]. rewrite E1. unfold ret. cbn [fst snd].
  rewrite Hp. cbn [fst snd].
  replace (match res with Ok _ => "success" | Err _ => "failed" end) with (status_of res) by by destruct res.
  by rewrite E2.
Qed.

Lemma Start_from_run ctxs i ts vs r s rs s' :
  (∀ j, i ≤ j < i + length ts → ctxs j = ctxs i) → ctx_done (ctxs i) = false ∨ ts = [] →
  ctx_done (ctxs (i + length ts)) = true →
  waiting r = (Marshal <$> ts) ++ vs → Forall valid_task ts →
  process_all (ctxs i) ts s = Some (rs, s') →
  ∃ r', Tasks.Start_from worker (S (length ts)) i ctxs (r, s) = Some (Ok tt, (r', s')) ∧
    waiting r' = vs ∧ statuses r' = foldl record_status (statuses r) (zip ts rs).
Proof using RedisUp0.
  intros Hctx Hlive Hdone Hw Hv. revert i r s rs Hctx Hlive Hdone Hw.
  induction Hv as [|t ts Ht _ IH]; intros i r s rs Hctx Hlive Hdone Hw Hp; cbn [Tasks.Start_from length].
  - rewrite Nat.add_0_r in Hdone. rewrite Hdone. simpl in Hp. injection Hp as <- <-.
    exists r. done.
  - destruct Hlive as [Hlive|]; [|done]. rewrite Hlive. cbn [process_all] in Hp.
    destruct (Tasks.Process p (ctxs i) t s) as [[r1 s1]|] eqn:E1; [|done]. cbn [mbind option_bind] in Hp.
    destruct (process_all (ctxs i) ts s1) as [[rs1 s2]|] eqn:E2; [|done]. cbn [mbind option_bind] in Hp.
    injection Hp as <- <-.
    destruct (round_run (ctxs i) r s (Marshal t) ((Marshal <$> ts) ++ vs) r1 s1) as (r' & Er & Hw' & Hs');
      [done|by rewrite Hw|by rewrite Unmarshal_Marshal_valid|].
    rewrite Unmarshal_Marshal_valid in Hs' by done. cbn [fst] in Hs'.
    unfold bind at 1. rewrite Er. cbn [zip_with foldl]. rewrite <- Hs'. cbn [length] in *.
    apply IH.
    + intros j Hj. rewrite (Hctx j) by lia. destruct ts; [simpl in *; lia|]. simpl in *.
      symmetry. apply Hctx. lia.
    + destruct ts as [|t2 ts]; [by right|left]. rewrite (Hctx (S i)) by (simpl; lia). done.
    + by rewrite <- Nat.add_succ_comm in Hdone.
    + done.
    + destruct ts as [|t2 ts]; [done|]. rewrite (Hctx (S i)) by (simpl; lia). done.
Qed.

(** C12: The worker is a faithful FIFO executor: started on a queue that holds the payloads
    of the tasks [ts] (and then others), and cancelled after as many rounds, it returns, has
    run each task exactly once in order on the storage backend, as processing the list
    directly would, has recorded "success" or "failed" under each task's id, and has left
    the rest of the queue alone. *)
Theorem Start_fifo ctx ctxs ts vs r s rs s' :
  (∀ j, j < length ts → ctxs j = ctx) → ctx_done ctx = false → ctx_done (ctxs (length ts)) = true →
  waiting r = (Marshal <$> ts) ++ vs → Forall valid_task ts →
  process_all ctx ts s = Some (rs, s') →
  ∃ r', Tasks.Start worker (S (length ts)) ctxs (r, s) = Some (Ok tt, (r', s')) ∧
    waiting r' = vs ∧ statuses r' = foldl record_status (statuses r) (zip ts rs).
Proof using RedisUp0.
  intros Hctx Hlive Hdone Hw Hv Hp. apply Start_from_run; try done.
  - intros j Hj. rewrite !Hctx by lia. done.
  - destruct ts; [by right|left]. by rewrite Hctx by (simpl; lia).
  - destruct ts; [done|]. by rewrite Hctx by (simpl; lia).
Qed.

(** A message that is not JSON is consumed without a trace of what it was: the storage
    is not touched, and a failure is recorded under the empty task id. *)
Theorem round_malformed ctx r s v vs :
  ctx_done ctx = false → waiting r = v :: vs → parse_json v = None →
  ∃ r', Tasks.round worker ctx (r, s) = Some (Ok tt, (r', s)) ∧ waiting r' = vs ∧
    statuses r' = <["task:" := "failed"]> (statuses r).
Proof using RedisUp0.
  intros Hl Hw Hv. assert (Unmarshal v = (zero_task, Some (ErrNew "invalid character"))) as Hu
    by (unfold Unmarshal; by rewrite Hv).
  destruct (round_run ctx r s v vs (Err (ErrNew "unknown task type ")) s Hl Hw) as (r' & E & Hw' & Hs').
  - by rewrite Hu.
  - exists r'. rewrite Hs', Hu. done.
Qed.

(** *** From the request to the folder *)

(** The payload that the handler enqueues for a folder request is popped by the worker, which
    asks the storage backend for exactly the path whose normal form the authorization
    interceptor checked, and records the outcome under the id returned to the client. With an
    empty parent or name it does nothing and records a failure. *)
Theorem CreateFolder_end_to_end ctx ctx' now parent name by_ r s res s' :
  let path := TrimSuffix parent "/" +:+ "/" +:+ name in
  ctx_done ctx = false → ctx_done ctx' = false → waiting r = [] →
  valid_utf8 parent → valid_utf8 name → valid_utf8 by_ →
  (if bool_decide (parent = "" ∨ name = "") then res = Err (ErrNew "missing params") ∧ s' = s
   else st_CreateFolder (Tasks.st p) ctx' path s = Some (res, s')) →
  ExtractPath (CreateFolderRequest parent name by_) = Ok (normalize path) ∧
  ∃ id r1 r2, Redisq.EnqueueCreateFolder q ctx now parent name by_ r = Some (Ok id, r1) ∧
    Tasks.round worker ctx' (r1, s) = Some (Ok tt, (r2, s')) ∧
    waiting r2 = [] ∧ statuses r2 = <["task:" +:+ id := status_of res]> (statuses r).
Proof using RedisUp0.
  intros path Hl Hl' Hw Hvp Hvn Hvb Hst. split; [done|].
  set (t := mkTask (format_id now) "create_folder" (Some {[ "parent" := parent; "name" := name; "by" := by_ ]})).
  assert (valid_task t) as Hvt.
  { split_and!; [apply valid_format_id|by apply valid_ascii|]. simpl.
    repeat (apply map_Forall_insert_2; [by split; [apply valid_ascii|]|]).
    apply map_Forall_empty. }
  destruct (rpush_law ctx (Marshal t) r Hl) as (r1 & E1 & Hw1 & Hs1). rewrite Hw in Hw1.
  destruct (round_run ctx' r1 s (Marshal t) [] res s' Hl' Hw1) as (r2 & E2 & Hw2 & Hs2).
  { rewrite Unmarshal_Marshal_valid by done. cbn [fst]. unfold Tasks.Process. cbn [Type_ t].
    rewrite bool_decide_eq_true_2 by done. change (param t "parent") with parent. change (param t "name") with name.
    case_bool_decide; [by destruct Hst as [-> ->]|done]. }
  exists (format_id now), r1, r2. rewrite Unmarshal_Marshal_valid in Hs2 by done. split_and!.
  - unfold Redisq.EnqueueCreateFolder, Redisq.Enqueue, bind. fold t. by rewrite E1.
  - done.
  - done.
  - by rewrite Hs2, Hs1.
Qed.
End Worker.

(** ** The older worker *)

Section Older.
Context {R St : Type} (c : redis_client R) (pr : OldWorker.Processor St) (error_text : error → string).
Context (waiting : R → list string) (statuses : R → gmap string string).
Context `{!RedisUp c waiting statuses}.

#[local] Abbreviation older := (OldWorker.mkWorker (OldWorker.redis_queue (OldWorker.mkQueue c)) pr).

(** [n] rounds of the loop. *)
Fixpoint rounds (n : nat) (ctx : context) : prog (R * St) unit :=
  match n with
  | 0 => ret tt
  | S n' => do! OldWorker.round error_text older ctx in rounds n' ctx
  end.

(** The payloads one after the other, without a queue: a malformed one is only dropped. *)
Fixpoint old_process_all (ctx : context) (vs : list string) : gmap string string * St → option (gmap string string * St) := fun ms =>
  match vs with
  | [] => Some ms
  | v :: vs' =>
      match Unmarshal v with
      | (t, None) =>
          '(r, s1) ← OldWorker.p_Process pr ctx t ms.2;
          old_process_all ctx vs' (<["task:" +:+ ID t := OldWorker.status_text error_text r]> ms.1, s1)
      | (_, Some _) => old_process_all ctx vs' ms
      end
  end.

Lemma old_round_run ctx r s v vs ms' :
  ctx_done ctx = false → waiting r = v :: vs → old_process_all ctx [v] (statuses r, s) = Some ms' →
  ∃ r', OldWorker.round error_text older ctx (r, s) = Some (Ok tt, (r', ms'.2)) ∧ waiting r' = vs ∧ statuses r' = ms'.1.
Proof using RedisUp0.
  intros Hl Hw Hp. destruct (blpop_law ctx r v vs Hl Hw) as (r1 & E1 & Hw1 & Hs1).
  unfold OldWorker.round, bind, attempt, Tasks.on_queue, Tasks.on_storage.
  cbn [OldWorker.w_Queue OldWorker.w_Processor OldWorker.redis_queue OldWorker.q_Pop OldWorker.q_Complete].
  unfold OldWorker.Pop, bind. cbn [fst snd OldWorker.Client]. rewrite E1. cbn [fst snd].
  cbn [old_process_all] in Hp. destruct (Unmarshal v) as [t [e|]].
  - injection Hp as <-. exists r1. rewrite Hs1. done.
  - cbn [fst snd] in *. unfold ret. cbn [fst snd]. destruct (OldWorker.p_Process pr ctx t s) as [[res s1]|]; [|done].
    cbn [mbind option_bind] in Hp. apply (inj Some) in Hp as <-. cbn [fst snd].
    destruct (set_law ctx ("task:" +:+ ID t) (OldWorker.status_text error_text res) r1 Hl) as (r2 & E2 & Hw2 & Hs2).
    unfold OldWorker.Complete. cbn [OldWorker.Client]. rewrite E2. exists r2. rewrite Hs2, Hw2, Hs1. done.
Qed.

(** C36: The older worker in rounds. As many rounds as there are payloads in front of the
    queue carry them out in order, on the storage and in the recorded statuses, as the list of
    payloads says: malformed ones are dropped without a trace, failed tasks get the text of
    their error. But the loop cannot be stopped: with a context that is done, any number of
    rounds changes nothing, and [Start] never returns. *)
Theorem older_worker_rounds ctx done vs rest r s ms' n fuel :
  ctx_done ctx = false → ctx_done done = true →
  waiting r = vs ++ rest → old_process_all ctx vs (statuses r, s) = Some ms' →
  (∃ r', rounds (length vs) ctx (r, s) = Some (Ok tt, (r', ms'.2)) ∧ waiting r' = rest ∧ statuses r' = ms'.1) ∧
  rounds n done (r, s) = Some (Ok tt, (r, s)) ∧ OldWorker.Start fuel error_text older done (r, s) = None.
Proof using RedisUp0.
  intros Hl Hdone Hw Hp. split.
  - clear Hdone. revert r s Hw Hp. induction vs as [|v vs IH]; intros r s Hw Hp; cbn [rounds length].
    { injection Hp as <-. by exists r. }
    assert (∃ ms1, old_process_all ctx [v] (statuses r, s) = Some ms1 ∧ old_process_all ctx vs ms1 = Some ms') as (ms1 & E1 & E2).
    { cbn [old_process_all] in *. destruct (Unmarshal v) as [t [e|]]; [by eexists|].
      cbn [fst snd] in *. destruct (OldWorker.p_Process pr ctx t s) as [[res s1]|]; [|done]. by eexists. }
    destruct (old_round_run ctx r s v (vs ++ rest) ms1 Hl Hw E1) as (r1 & Er & Hw1 & Hs1).
    rewrite (bind_ok _ _ _ _ _ Er). apply IH; [done|]. rewrite Hs1. by destruct ms1.
  - assert (OldWorker.round error_text older done (r, s) = Some (Ok tt, (r, s))) as Hround.
    { unfold OldWorker.round, bind, attempt, Tasks.on_queue, ret.
      cbn [OldWorker.w_Queue OldWorker.redis_queue OldWorker.q_Pop]. unfold OldWorker.Pop, bind. cbn [fst snd OldWorker.Client].
      destruct (blpop_done_law done r Hdone) as [e ->]. done. }
    split; [induction n as [|n IH]|induction fuel as [|fuel IH]]; [done| |done|];
      cbn [rounds OldWorker.Start]; by rewrite (bind_ok _ _ _ _ _ Hround).
Qed.
End Older.

(** ** Concrete instances *)

(** A Redis server in memory. *)
Definition mem_redis : redis_client (list string * gmap string string) := mkRedis
  (fun ctx k w =>
     if ctx_done ctx then Some (Err ErrCanceled, w)
     else match w.1 with [] => None | v :: vs => Some (Ok (k, v), (vs, w.2)) end)
  (fun ctx _ v w => if ctx_done ctx then Some (Err ErrCanceled, w) else Some (Ok tt, (w.1 ++ [v], w.2)))
  (fun ctx k v w => if ctx_done ctx then Some (Err ErrCanceled, w) else Some (Ok tt, (w.1, <[k := v]> w.2))).

#[export] Instance mem_redis_up : RedisUp mem_redis fst snd.
Proof.
  split; simpl.
  - intros ctx [l m] v vs ->. simpl. intros ->. by eexists.
  - intros ctx v w ->. by eexists.
  - intros ctx k v w ->. by eexists.
  - intros ctx w ->. by eexists.
Qed.

Definition mem_queue : Redisq.RedisQueue (list string * gmap string string) := Redisq.NewRedisQueue mem_redis.

(** A storage backend that only remembers the folders created. *)
Definition folders : Storage (list string) := mkStorage
  (fun _ p w => Some (Ok tt, w ++ [p])) (fun _ _ _ => throw ErrCanceled) (fun _ _ _ => throw ErrCanceled)
  (fun _ _ => throw ErrCanceled) (fun _ _ => ret false) (fun _ _ => ret []) (fun _ _ => throw ErrCanceled).

Definition folder_processor : Tasks.Processor (list string) := Tasks.NewProcessorWithStorage folders.
Definition demo_task : TaskPayload := mkTask "1" "create_folder" (Some {[ "parent" := "/a/"; "name" := "b" ]}).
Definition bad_task : TaskPayload := mkTask "2" "resize" None.
Definition live : context := mkCtx None None false.
Definition stop_after (n : nat) (i : nat) : context := mkCtx None None (bool_decide (n ≤ i)).

Lemma demo_task_valid : valid_task demo_task.
Proof.
  split_and!; try by apply valid_ascii. simpl.
  repeat (apply map_Forall_insert_2; [by split; apply valid_ascii|]). apply map_Forall_empty.
Qed.

Lemma bad_task_valid : valid_task bad_task.
Proof. split_and!; [by apply valid_ascii..|done]. Qed.

Lemma Unmarshal_Marshal_witness : Unmarshal (Marshal demo_task) = (demo_task, None).
Proof. apply (Unmarshal_Marshal demo_task). apply demo_task_valid. Defined.

Lemma Start_fifo_witness :
  ∃ r', Tasks.Start (Tasks.NewWorker mem_queue folder_processor) 3 (stop_after 2)
      ([Marshal demo_task; Marshal bad_task; "junk"], ∅, []) = Some (Ok tt, (r', ["/a/b"])) ∧
    r'.1 = ["junk"] ∧ r'.2 = <["task:2" := "failed"]> (<["task:1" := "success"]> ∅).
Proof.
  apply (Start_fifo mem_queue folder_processor fst snd live (stop_after 2) [demo_task; bad_task] ["junk"]
    ([Marshal demo_task; Marshal bad_task; "junk"], ∅) [] [Ok tt; Err (ErrNew "unknown task type resize")] ["/a/b"]).
  - intros j Hj. unfold stop_after, live. simpl in Hj. by rewrite bool_decide_eq_false_2 by lia.
  - reflexivity.
  - reflexivity.
  - reflexivity.
  - apply Forall_cons; split; [apply demo_task_valid|]. apply Forall_cons; split; [apply bad_task_valid|constructor].
  - vm_compute. reflexivity.
Defined.

Lemma round_malformed_witness :
  ∃ r', Tasks.round (Tasks.NewWorker mem_queue folder_processor) live (["{"], ∅, []) = Some (Ok tt, (r', [])) ∧
    r'.1 = [] ∧ r'.2 = <["task:" := "failed"]> ∅.
Proof.
  apply (round_malformed mem_queue folder_processor fst snd live (["{"], ∅) [] "{" []).
  - reflexivity.
  - reflexivity.
  - vm_compute. reflexivity.
Defined.

Lemma CreateFolder_end_to_end_witness :
  let now := mkUtc 2025 3 4 5 6 7 89 in
  ExtractPath (CreateFolderRequest "/docs" "new" "ana") = Ok (normalize "/docs/new") ∧
  ∃ id r1 r2, Redisq.EnqueueCreateFolder mem_queue live now "/docs" "new" "ana" ([], ∅) = Some (Ok id, r1) ∧
    Tasks.round (Tasks.NewWorker mem_queue folder_processor) live (r1, []) = Some (Ok tt, (r2, ["/docs/new"])) ∧
    r2.1 = [] ∧ r2.2 = <["task:" +:+ id := "success"]> ∅.
Proof.
  apply (CreateFolder_end_to_end mem_queue folder_processor fst snd live live (mkUtc 2025 3 4 5 6 7 89) "/docs" "new" "ana"
    ([], ∅) [] (Ok tt) ["/docs/new"]); try reflexivity; try discriminate; by apply valid_ascii.
Defined.

Definition path_processor : OldWorker.Processor (list string) :=
  OldWorker.mkProcessorI (fun _ t w => if bool_decide (param t "path" = "") then Some (Err (ErrNew "missing params"), w)
                                       else Some (Ok tt, w ++ [param t "path"])).

Definition path_task : TaskPayload := mkTask "1" "create_folder" (Some {[ "path" := "/a" ]}).
Definition done_ctx : context := mkCtx None None true.

Definition old_statuses : gmap string string := <["task:2" := "error: missing params"]> (<["task:1" := "success"]> ∅).

Lemma older_worker_rounds_witness :
  let w := OldWorker.mkWorker (OldWorker.redis_queue (OldWorker.mkQueue mem_redis)) path_processor in
  let text := fun e => match e with ErrNew m => m | _ => "" end in
  let queue := ([Marshal path_task; "{"; Marshal bad_task; "rest"], ∅ : gmap string string) in
  (∃ r', rounds mem_redis path_processor text 3 live (queue, []) = Some (Ok tt, (r', ["/a"])) ∧
     r'.1 = ["rest"] ∧ r'.2 = old_statuses) ∧
  rounds mem_redis path_processor text 7 done_ctx (queue, []) = Some (Ok tt, (queue, [])) ∧
  OldWorker.Start 100 text w done_ctx (queue, []) = None.
Proof.
  intros w text queue.
  apply (older_worker_rounds mem_redis path_processor text fst snd live done_ctx
    [Marshal path_task; "{"; Marshal bad_task] ["rest"] queue []
    (old_statuses, ["/a"]) 7 100).
  - reflexivity.
  - reflexivity.
  - reflexivity.
  - vm_compute. reflexivity.
Defined.
