(* ===== verification/Server.v ===== *)
(** * Object service, gRPC handlers and the HTTP download

    [internal/services/object_service.go], [internal/handlers/grpc_handler.go],
    [internal/server/download_http.go], and the interceptor chains that
    [internal/server/server.go] puts in front of the handlers. *)
From S2P Require Import Prelude GoStrings Acl Jwt Authz PosixFs Storage Queue LocalFs.

#[local] Open Scope string_scope.
#[local] Open Scope nat_scope.
#[local] Open Scope list_scope.
#[local] Open Scope go_scope.

(** ** Object service *)

Record ObjectService (S : Type) := mkObjectService { svc_st : Storage S }.
Arguments mkObjectService {S}.
Arguments svc_st {S}.

Definition NewObjectService {S} (st : Storage S) : ObjectService S := mkObjectService st.

Definition svc_List {S} (s : ObjectService S) (ctx : context) (prefix : string) : prog S (list ObjectInfo) :=
  st_List (svc_st s) ctx prefix.

(** [bytes.NewReader(content)]: one block, none when empty. *)
Definition bytes_reader (content : string) : reader :=
  mkReader (if bool_decide (content = "") then [] else [content]) None.

Definition svc_Upload {S} (s : ObjectService S) (ctx : context) (path content : string) : prog S unit :=
  st_AtomicWrite (svc_st s) ctx path (bytes_reader content).

Definition svc_Open {S} (s : ObjectService S) (ctx : context) (path : string) : prog S (ReadCloser S) :=
  st_Open (svc_st s) ctx path.

(** ** The state of a server process *)

(** The ACL store, the storage backend and Redis. *)
Record sys (St S R : Type) := mkSys { sys_acl : St; sys_store : S; sys_queue : R }.
Arguments mkSys {St S R}.
Arguments sys_acl {St S R}.
Arguments sys_store {St S R}.
Arguments sys_queue {St S R}.

Section Server.
Context `{ACLStore St} {S R : Type}.
Local Abbreviation W := (sys St S R).

Definition in_store {A} (m : prog S A) : prog W A := fun w =>
  match m (sys_store w) with
  | None => None
  | Some (r, s) => Some (r, mkSys (sys_acl w) s (sys_queue w))
  end.

Definition in_queue {A} (m : prog R A) : prog W A := fun w =>
  match m (sys_queue w) with
  | None => None
  | Some (r, q) => Some (r, mkSys (sys_acl w) (sys_store w) q)
  end.

(** [auth.CanAccess] against the store of the process. *)
Definition can_access (fuel : nat) (a : AuthContext) (path : string) (perm : Permission) : prog W bool :=
  let! store := gets sys_acl in
  total (CanAccess fuel a path perm store).

(** ** gRPC handlers *)

(** The ACL store of the handler is the one in the state of the process. *)
Record GRPCHandler := mkGRPCHandler { queue : Redisq.RedisQueue R; objects : ObjectService S }.

Definition NewGRPCHandler (q : Redisq.RedisQueue R) (obj : ObjectService S) : GRPCHandler :=
  mkGRPCHandler q obj.

Record CreateFolderResponse := mkCreateFolderResponse { TaskId : string; Status : string; Message : string }.

Definition handler_CreateFolder (h : GRPCHandler) (now : utc) (ctx : context)
    (parentPath folderName requestedBy : string) : prog W CreateFolderResponse :=
  let! taskID := in_queue (Redisq.EnqueueCreateFolder (queue h) ctx now parentPath folderName requestedBy) in
  ret (mkCreateFolderResponse taskID "queued" "Folder creation scheduled").

(** The response items have the fields of the storage's items. *)
Definition handler_ListObjects (h : GRPCHandler) (ctx : context) (prefix : string) : prog W (list ObjectInfo) :=
  let! items := in_store (svc_List (objects h) ctx prefix) in
  ret ((fun it => mkObjectInfo (Storage.Path it) (Size it) (IsDir it)) <$> items).

(** The response is [Success: true]. *)
Definition handler_UploadObject (h : GRPCHandler) (ctx : context) (path content : string) : prog W bool :=
  do! in_store (svc_Upload (objects h) ctx path content) in
  ret true.

(** What a streaming call delivered to the client, and the status it ended with. *)
Record stream_result := mkStreamResult { chunks : list string; stream_status : option error }.

Definition stream_fail {A} (e : error) : prog A stream_result := ret (mkStreamResult [] (Some e)).

(** Sends each non-empty block; [send i] is the transport's error for the [i]-th message. *)
Fixpoint send_blocks (send : nat → option error) (i : nat) (bs : list string) (stop : option error)
    : stream_result :=
  match bs with
  | [] => mkStreamResult [] stop
  | b :: bs' =>
      if bool_decide (b = "") then send_blocks send i bs' stop
      else match send i with
           | Some e => mkStreamResult [] (Some e)
           | None =>
               let r := send_blocks send (Datatypes.S i) bs' stop in
               mkStreamResult (b :: chunks r) (stream_status r)
           end
  end.

(** The buffer of the download loop. *)
Definition download_buffer : nat := N.to_nat 65536.

Definition handler_DownloadObject (h : GRPCHandler) (fuel : nat) (ctx : context) (path : string)
    (send : nat → option error) : prog W stream_result :=
  match FromContext ctx with
  | None => stream_fail (ErrStatus Unauthenticated "missing auth context")
  | Some a =>
      match ExtractPath (DownloadObjectRequest path) with
      | Err _ => stream_fail (ErrStatus InvalidArgument "cannot extract path")
      | Ok p =>
          let! ok := can_access fuel a p PermRead in
          if negb ok then stream_fail (ErrStatus PermissionDenied "access denied")
          else
            let! r := attempt (in_store (svc_Open (objects h) ctx path)) in
            match r with
            | Err e => stream_fail e
            | Ok rc =>
                with_defer (in_store (rc_close rc)) (
                  let! rd := attempt (in_store (rc_read rc download_buffer)) in
                  match rd with
                  | Err e => stream_fail e
                  | Ok rd => ret (send_blocks send 0 (blocks rd) (read_end rd))
                  end)
            end
      end
  end.

(** ** The raw HTTP download *)

(** From the [Open] on. The error of [io.Copy] is ignored: the response is what was read
    until then. *)
Definition serve_download (st : Storage S) (ctx : context) (path : string) : prog W http_response :=
  let! o := attempt (in_store (st_Open st ctx path)) in
  match o with
  | Err _ => ret (http_error StatusNotFound "not found")
  | Ok rc =>
      with_defer (in_store (rc_close rc)) (
        let! rd := attempt (in_store (rc_read rc copy_buffer)) in
        let body := match rd with Ok rd => reader_data rd | Err _ => "" end in
        ret (mkHttpResp StatusOK "application/octet-stream" body))
  end.

Definition handleDownload `{JwtLib} (verifier : JWTVerifier) (st : Storage S) (fuel : nat)
    (r : http_request) : prog W http_response :=
  match ParseAuthContext verifier (req_authorization r) with
  | Err _ => ret (http_error StatusUnauthorized "unauthorized")
  | Ok a =>
      let path := req_query_path r in
      if bool_decide (path = "") then ret (http_error StatusBadRequest "missing path")
      else
        let! ok := can_access fuel a path PermRead in
        if negb ok then ret (http_error StatusForbidden "forbidden")
        else serve_download st (req_ctx r) path
  end.

(** ** The interceptor chains *)

Definition unary_chain `{JwtLib} {Resp} (verifier : JWTVerifier) (fuel : nat) (ctx : context) (req : request)
    (fullMethod : string) (handler : context → request → prog W Resp) : prog W Resp :=
  GRPCAuthInterceptor verifier ctx req fullMethod (fun ctx' req' =>
    GRPCAuthZInterceptor sys_acl fuel ctx' req' fullMethod handler).

Definition stream_chain `{JwtLib} {Resp} (verifier : JWTVerifier) (ctx : context) (stream : server_stream)
    (fullMethod : string) (handler : context → server_stream → prog W Resp) : prog W Resp :=
  GRPCStreamAuthInterceptor verifier ctx fullMethod (fun ctx' =>
    GRPCAuthZStreamInterceptor ctx' stream fullMethod handler).
End Server.
