(* ===== verification/ServerProps.v ===== *)
(** * Properties of the handlers and of the HTTP download

    What a client of the servers can rely on, for every ACL store and every storage backend
    that keeps the promises of their interfaces. *)
From S2P Require Import Prelude GoStrings GoPath Acl Jwt Authz PosixFs LocalFs CrashLogic FsRuns Storage LocalStorage LocalStorageProps ObjectStore Gcs GcsProps Queue QueueProps Server.

#[local] Open Scope string_scope.
#[local] Open Scope nat_scope.
#[local] Open Scope list_scope.
#[local] Open Scope go_scope.

(** ** The access check inside a handler *)

Section Props.
Context `{ACLStore St} {S R : Type} (st : Storage S) (obj : S → string → option string).
Context `{spec : !StorageSpec st obj}.
Local Abbreviation W := (sys St S R).
Implicit Type w : W.

(** A decision is reached, and is the one the rules of the resolver define. *)
Lemma can_access_run fuel a path perm w :
  rooted path = true → path_fuel path ≤ fuel →
  ∃ b, can_access fuel a path perm w = Some (Ok b, w) ∧ (b = true ↔ Allowed (sys_acl w) a path perm).
Proof using spec.
  intros Hr Hf. unfold can_access, bind, gets, total. rewrite CanAccess_rooted by done.
  eexists. split; [done|]. apply Allowed_spec.
Qed.

(** ** Reading an object *)

Definition store_ok w : Prop := st_inv (sys_store w).
Definition same_acl w w' : Prop := sys_acl w' = sys_acl w.

(** Opening, reading and closing always return and leave the objects alone. *)
Lemma in_store_open ctx path w :
  store_ok w → st_path path →
  ∃ r w', in_store (st_Open st ctx path) w = Some (r, w') ∧ store_ok w' ∧
    match r with
    | Ok rc =>
        (∀ size, 0 < size → ∃ rr w2, in_store (rc_read rc size) w' = Some (rr, w2) ∧ store_ok w2 ∧
           match rr with
           | Ok rd => read_end rd = None → obj (sys_store w) path = Some (reader_data rd)
           | Err _ => True
           end) ∧
        (∀ w2, store_ok w2 → ∃ rr w3, in_store (rc_close rc) w2 = Some (rr, w3) ∧ store_ok w3)
    | Err _ => True
    end.
Proof.
  intros Hw Hp. destruct (Open_law ctx path (sys_store w) Hw Hp) as (r & s' & E & Hs & _ & Hr).
  exists r, (mkSys (sys_acl w) s' (sys_queue w)). split; [by unfold in_store; rewrite E|]. split; [done|].
  destruct r as [rc|e]; [|done]. destruct Hr as [Hread Hclose]. split.
  - intros size Hsize. destruct (Hread size Hsize) as (rr & s2 & E2 & Hs2 & _ & Hrr).
    exists rr, (mkSys (sys_acl w) s2 (sys_queue w)). split; [|done]. unfold in_store. simpl. by rewrite E2.
  - intros w2 Hw2. destruct (Hclose (sys_store w2) Hw2) as (rr & s3 & E3 & Hs3 & _).
    exists rr, (mkSys (sys_acl w2) s3 (sys_queue w2)). split; [|done]. unfold in_store. by rewrite E3.
Qed.

Lemma concat_send_blocks send i bs stop :
  stream_status (send_blocks send i bs stop) = None →
  stop = None ∧ foldr String.append "" (chunks (send_blocks send i bs stop)) = foldr String.append "" bs.
Proof.
  revert i. induction bs as [|b bs IH]; intros i; cbn [send_blocks foldr]; [done|].
  case_bool_decide as E; [subst; apply IH|]. destruct (send i) as [e|]; [done|]. cbn [stream_status chunks foldr].
  intros Hs. destruct (IH _ Hs) as [? ->]. done.
Qed.

Lemma download_buffer_pos : 0 < download_buffer.
Proof. unfold download_buffer. lia. Qed.

Lemma copy_buffer_pos : 0 < copy_buffer.
Proof. unfold copy_buffer. lia. Qed.

Lemma DownloadObject_run q fuel ctx path send w a :
  let h := NewGRPCHandler (R := R) q (NewObjectService st) in
  FromContext ctx = Some a → path_fuel (normalize path) ≤ fuel → store_ok w → st_path path →
  Allowed (sys_acl w) a (normalize path) PermRead →
  ∃ r w', handler_DownloadObject h fuel ctx path send w = Some (Ok r, w') ∧ store_ok w' ∧
    (stream_status r = None → obj (sys_store w) path = Some (foldr String.append "" (chunks r))).
Proof using spec.
  intros h Ha Hf Hw Hp Hal. unfold handler_DownloadObject. rewrite Ha. cbn [ExtractPath].
  destruct (can_access_run fuel a (normalize path) PermRead w) as (b & Eb & Hb);
    [apply normalize_props|done|]. unfold bind at 1. rewrite Eb. rewrite (proj2 Hb Hal). cbn [negb].
  destruct (in_store_open ctx path w Hw Hp) as (r & w1 & E1 & Hw1 & Hr).
  unfold bind at 1, attempt at 1. change (svc_Open (objects h) ctx path) with (st_Open st ctx path). rewrite E1.
  destruct r as [rc|e]; [|by eexists _, w1]. destruct Hr as [Hread Hclose].
  destruct (Hread download_buffer download_buffer_pos) as (rr & w2 & E2 & Hw2 & Hrr).
  destruct (Hclose w2 Hw2) as (rc2 & w3 & E3 & Hw3).
  unfold with_defer, bind, attempt. rewrite E2. destruct rr as [rd|e]; unfold stream_fail, ret; rewrite E3;
    eexists _, w3; (split; [done|]); (split; [done|]); [|done].
  intros Hs. apply concat_send_blocks in Hs as [Hend ->]. by apply Hrr.
Qed.

Lemma reader_data_bytes content : reader_data (bytes_reader content) = content.
Proof. unfold bytes_reader, reader_data. case_bool_decide; simpl; [done|]. apply append_nil_r. Qed.

Lemma UploadObject_run q ctx path content w :
  let h := NewGRPCHandler (R := R) q (NewObjectService st) in
  store_ok w → st_path path →
  ∃ r w', handler_UploadObject h ctx path content w = Some (r, w') ∧ store_ok w' ∧ sys_acl w' = sys_acl w ∧
    match r with
    | Ok ok => ok = true ∧ obj (sys_store w') path = Some content
    | Err _ => obj (sys_store w') path = obj (sys_store w) path ∨ obj (sys_store w') path = Some content
    end.
Proof.
  intros h Hw Hp. destruct (AtomicWrite_law ctx path (bytes_reader content) (sys_store w) Hw Hp)
    as (r & s' & E & Hs & Hr). rewrite reader_data_bytes in Hr.
  unfold handler_UploadObject, bind, in_store.
  change (svc_Upload (objects h) ctx path content (sys_store w)) with
    (st_AtomicWrite st ctx path (bytes_reader content) (sys_store w)). rewrite E.
  destruct r as [u|e]; eexists _, (mkSys (sys_acl w) s' (sys_queue w)); (split; [done|]);
    (split; [done|]); (split; [done|]); [|done]. by destruct Hr.
Qed.

(** C13: What was uploaded is what is downloaded, on every storage backend that keeps the
    promise of the storage interface. The upload always returns; after a successful one, a
    caller who may read the path gets a stream, and when the stream ends without an error the
    chunks it delivered are exactly the uploaded content. After a failed upload the object is
    still the old one or already the whole new one. *)
Theorem Upload_Download q ctx path content w fuel ctx' send a :
  let h := NewGRPCHandler (R := R) q (NewObjectService st) in
  store_ok w → st_path path →
  FromContext ctx' = Some a → path_fuel (normalize path) ≤ fuel →
  Allowed (sys_acl w) a (normalize path) PermRead →
  ∃ r w1, handler_UploadObject h ctx path content w = Some (r, w1) ∧
    ∃ str w2, handler_DownloadObject h fuel ctx' path send w1 = Some (Ok str, w2) ∧
      let delivered := foldr String.append "" (chunks str) in
      (stream_status str = None →
       match r with
       | Ok _ => delivered = content
       | Err _ => obj (sys_store w) path = Some delivered ∨ delivered = content
       end).
Proof using spec.
  intros h Hw Hp Ha Hf Hal. destruct (UploadObject_run q ctx path content w Hw Hp)
    as (r & w1 & E1 & Hw1 & Hacl & Hr). exists r, w1. split; [done|]. rewrite <- Hacl in Hal.
  destruct (DownloadObject_run q fuel ctx' path send w1 a Ha Hf Hw1 Hp Hal) as (str & w2 & E2 & _ & Hd).
  exists str, w2. split; [done|]. cbv zeta. intros Hs. specialize (Hd Hs). destruct r as [ok|e].
  - destruct Hr as [_ Hr]. congruence.
  - destruct Hr as [Hr|Hr]; rewrite Hr in Hd; [by left|right]. by injection Hd.
Qed.

(** C28: The raw HTTP download on every branch: 401 without a valid token, 400 without a path;
    a path that does not start with a slash makes the request run forever; 403 exactly when the
    caller has no read access to the path; all of these without touching the storage. Otherwise
    the object is opened: 404 when that fails, else 200 with the bytes that could be read, which
    are the whole object unless reading failed; the failure is not reported. *)
Theorem handleDownload_decides `{JwtLib} v fuel (r : http_request) w :
  let path := req_query_path r in
  let run := handleDownload v st fuel r w in
  path_fuel path ≤ fuel → store_ok w → st_path path →
  match ParseAuthContext v (req_authorization r) with
  | Err _ => run = Some (Ok (http_error StatusUnauthorized "unauthorized"), w)
  | Ok a =>
      (path = "" ∧ run = Some (Ok (http_error StatusBadRequest "missing path"), w)) ∨
      (path ≠ "" ∧ rooted path = false ∧ run = None) ∨
      (rooted path = true ∧ ¬ Allowed (sys_acl w) a path PermRead ∧
       run = Some (Ok (http_error StatusForbidden "forbidden"), w)) ∨
      (rooted path = true ∧ Allowed (sys_acl w) a path PermRead ∧
       ∃ o w1, in_store (st_Open st (req_ctx r) path) w = Some (o, w1) ∧
         match o with
         | Err _ => run = Some (Ok (http_error StatusNotFound "not found"), w1)
         | Ok rc =>
             ∃ rr w2 w3, in_store (rc_read rc copy_buffer) w1 = Some (rr, w2) ∧ store_ok w3 ∧
               let body := match rr with Ok rd => reader_data rd | Err _ => "" end in
               run = Some (Ok (mkHttpResp StatusOK "application/octet-stream" body), w3) ∧
               (∀ rd, rr = Ok rd → read_end rd = None → obj (sys_store w) path = Some body)
         end)
  end.
Proof using spec.
  intros path run Hf Hw Hp. assert (run = handleDownload v st fuel r w) as Erun by done. clearbody run.
  unfold handleDownload in Erun. destruct (ParseAuthContext v (req_authorization r)) as [a|e]; [|done].
  cbv zeta in Erun. fold path in Erun.
  case_bool_decide as Hpath; [by left|right]. destruct (rooted path) eqn:Hr.
  2:{ left. split_and!; [done..|]. rewrite Erun. unfold can_access, bind, gets, total. by rewrite CanAccess_unrooted. }
  right. destruct (can_access_run fuel a path PermRead w) as (b & Eb & Hb); [done..|].
  rewrite (bind_ok _ _ _ _ _ Eb) in Erun. destruct b; [right|left; split; [done|]; split; [|done]].
  2:{ intros Hal. by apply Hb in Hal. }
  split; [done|]. split; [by apply Hb|]. cbn [negb] in Erun. unfold serve_download in Erun.
  destruct (in_store_open (req_ctx r) path w Hw Hp) as (o & w1 & E1 & Hw1 & Ho).
  exists o, w1. split; [done|]. rewrite (bind_attempt _ _ _ _ _ E1) in Erun. destruct o as [rc|e]; [|exact Erun].
  destruct Ho as [Hread Hclose].
  destruct (Hread copy_buffer copy_buffer_pos) as (rr & w2 & E2 & Hw2 & Hrr).
  destruct (Hclose w2 Hw2) as (rc2 & w3 & E3 & Hw3). exists rr, w2, w3. split; [done|]. split; [done|]. split.
  - rewrite Erun. unfold with_defer, bind, attempt. rewrite E2. unfold ret. by rewrite E3.
  - intros rd -> Hend. by apply Hrr.
Qed.
End Props.

(** ** Mediation by the interceptor chain *)

(** Authentication only adds an identity to the context. *)
Lemma authenticate_identity `{JwtLib} v ctx ctx' :
  authenticate v ctx = Ok ctx' → ∃ a, ctx' = WithAuthContext ctx a.
Proof.
  unfold authenticate. intros Ea. repeat (case_match; try done); injection Ea as <-; by eexists.
Qed.

(** Complete mediation of the unary calls: behind the chain that the server installs, a
    call of a mapped method that succeeds, or that changes anything in the process, was made
    by an authenticated caller who is allowed the method's permission on the path of the
    request, and is exactly the run of the handler with that identity in its context. *)
Theorem unary_chain_mediates `{ACLStore St} `{JwtLib} {S R Resp : Type} v fuel ctx req m perm
    (handler : context → request → prog (sys St S R) Resp) w res w' :
  MethodPermission !! m = Some perm →
  (∀ path, ExtractPath req = Ok path → path_fuel path ≤ fuel) →
  unary_chain v fuel ctx req m handler w = Some (res, w') →
  is_ok res = true ∨ w' ≠ w →
  ∃ a path, authenticate v ctx = Ok (WithAuthContext ctx a) ∧ ExtractPath req = Ok path ∧
    Allowed (sys_acl w) a path perm ∧ handler (WithAuthContext ctx a) req w = Some (res, w').
Proof.
  intros Hm Hf Hrun Heff. unfold unary_chain, GRPCAuthInterceptor, GRPCAuthZInterceptor in Hrun.
  rewrite Hm in Hrun. clear Hm.
  assert (∀ e, throw (W := sys St S R) (A := Resp) e w = Some (res, w') → False) as Hthrow.
  { intros e [= <- <-]. destruct Heff as [Heff|Heff]; [discriminate Heff|by apply Heff]. }
  destruct (authenticate v ctx) as [ctx'|e] eqn:Ea; [|by apply Hthrow in Hrun].
  destruct (authenticate_identity v ctx ctx' Ea) as [a ->].
  cbn [FromContext WithAuthContext ctx_auth] in Hrun.
  destruct (ExtractPath req) as [path|e] eqn:Ep; [|by apply Hthrow in Hrun].
  exists a, path. split; [done|]. split; [done|]. unfold bind, gets, total in Hrun.
  rewrite CanAccess_rooted in Hrun by eauto with gopath. cbn [fmap option_fmap option_map] in Hrun.
  destruct (scan (answers (sys_acl w) (lineage path)) a perm (lineage path)) eqn:E; [|by apply Hthrow in Hrun].
  split; [by apply Allowed_spec|done].
Qed.

(** ** Authorized path and written path *)

(** C27: The path that is authorized and the path that is served, on local disks. The backend
    serves the location of the request path below its base, whatever the path. When there is no
    white space around the path, this is the location of the path that the interceptor checks;
    and unless that path ends in "..", the entries that can decide about it are those of the
    served location and its ancestors only, and all of them are asked when the path is clean.
    (Paths with white space around them, and paths that end in "..", are exceptions in the code:
    [authorized_location_blank], [CanAccess_dotdot_uses_child].) *)
Theorem authorized_location l p :
  rooted (LocalStorage.base l) = true →
  clean_comps (LocalStorage.full l p) = clean_comps (LocalStorage.base l) ++ location p ∧
  (TrimSpace p = p →
   clean_comps (normalize p) = location p ∧
   (last (split_slash (normalize p)) ≠ Some ".." →
    ∀ q, consulted (normalize p) q → clean_comps q `prefix_of` location p) ∧
   (Clean (normalize p) = normalize p →
    ∀ ks, ks `prefix_of` location p → consulted (normalize p) (render true ks))).
Proof.
  intros Hb. split; [by apply full_comps|]. intros Ht.
  destruct (normalize_props p) as (Hr & _ & Hc). rewrite Ht in Hc. split; [done|].
  assert (Forall normal (location p)) as Hn by (rewrite <- Hc; auto with gopath). split.
  - intros Hl q [->|(_ & ks & Hk & ->)]; [by rewrite Hc|].
    assert (ks `prefix_of` location p) as Hks
      by (rewrite <- Hc; etrans; [exact Hk|by apply clean_comps_Dir_prefix]).
    rewrite clean_comps_render; [done|]. apply canonical_rooted. destruct Hks as [? E].
    rewrite E in Hn. by apply Forall_app in Hn as [? _].
  - intros Hcl ks Hk. rewrite <- Hcl. unfold Clean. rewrite Hr, Hc. apply consulted_clean; [done|]. by exists ks.
Qed.

(** The two differ for a path with surrounding white space: " /a" is authorized as "/a" and
    written below a directory called " ". *)
Lemma authorized_location_blank :
  ExtractPath (UploadObjectRequest " /a" "") = Ok "/a" ∧
  LocalStorage.full (LocalStorage.New "/srv") " /a" = "/srv/ /a".
Proof. split; vm_compute; reflexivity. Qed.

(** The HTTP download reports success for an object it could not read: the disk fails after
    the open, and the client gets status 200 with an empty body. *)
Lemma serve_download_read_error :
  (fun x => x.1) <$> serve_download (LocalStorage.storage 0 (LocalStorage.New "/srv")) LocalFsProps.demo_ctx "/a"
    (mkSys InMemory.NewInMemoryACLStore (LocalFsProps.demo_world [None; Some EIO]) ()) =
    Some (Ok (mkHttpResp StatusOK "application/octet-stream" "")).
Proof. vm_compute. reflexivity. Qed.

(** ** Concrete instances *)

#[local] Existing Instance toy_lib.
#[local] Existing Instance toy_laws.

Definition demo_sys : sys InMemory.InMemoryACLStore ObjectStore.objects (list string * gmap string string) :=
  mkSys sample_store mem_gcs_state ([], ∅).

(** A caller whose role may read everything. *)
Definition reader_ctx : context := WithAuthContext LocalFsProps.demo_ctx (mkAuthContext "user-1" ["viewer"]).

Lemma viewer_reads path : Allowed sample_store (mkAuthContext "user-1" ["viewer"]) path PermRead.
Proof. right. exists "viewer". split; [by left|reflexivity]. Qed.

Lemma Upload_Download_witness :
  let h := NewGRPCHandler mem_queue (NewObjectService (Gcs.storage mem_gcs_bucket)) in
  ∃ r w1, handler_UploadObject h reader_ctx "/a" "new content" demo_sys = Some (r, w1) ∧
    ∃ str w2, handler_DownloadObject h 40 reader_ctx "/a" (fun _ => None) w1 = Some (Ok str, w2) ∧
      (stream_status str = None →
       match r with
       | Ok _ => foldr String.append "" (chunks str) = "new content"
       | Err _ => Some "old" = Some (foldr String.append "" (chunks str)) ∨
                  foldr String.append "" (chunks str) = "new content"
       end).
Proof.
  apply (Upload_Download (Gcs.storage mem_gcs_bucket) (gcs_obj mem_gcs_bucket id)
    (spec := gcs_storage_spec mem_gcs_bucket id) mem_queue reader_ctx "/a" "new content" demo_sys 40 reader_ctx
    (fun _ => None) (mkAuthContext "user-1" ["viewer"])).
  - exact I.
  - exact I.
  - reflexivity.
  - solve_fuel.
  - apply viewer_reads.
Defined.

Definition download_request : http_request := mkHttpReq "Bearer H:s3cr3t" "/a" LocalFsProps.demo_ctx.
Definition download_run := handleDownload toy_verifier (Gcs.storage mem_gcs_bucket) 40 download_request demo_sys.

Lemma handleDownload_decides_witness :
  let path := req_query_path download_request in
  match ParseAuthContext toy_verifier (req_authorization download_request) with
  | Err _ => download_run = Some (Ok (http_error StatusUnauthorized "unauthorized"), demo_sys)
  | Ok a =>
      (path = "" ∧ download_run = Some (Ok (http_error StatusBadRequest "missing path"), demo_sys)) ∨
      (path ≠ "" ∧ rooted path = false ∧ download_run = None) ∨
      (rooted path = true ∧ ¬ Allowed (sys_acl demo_sys) a path PermRead ∧
       download_run = Some (Ok (http_error StatusForbidden "forbidden"), demo_sys)) ∨
      (rooted path = true ∧ Allowed (sys_acl demo_sys) a path PermRead ∧
       ∃ o w1, in_store (st_Open (Gcs.storage mem_gcs_bucket) (req_ctx download_request) path) demo_sys = Some (o, w1) ∧
         match o with
         | Err _ => download_run = Some (Ok (http_error StatusNotFound "not found"), w1)
         | Ok rc =>
             ∃ rr w2 w3, in_store (rc_read rc copy_buffer) w1 = Some (rr, w2) ∧
               store_ok (Gcs.storage mem_gcs_bucket) (gcs_obj mem_gcs_bucket id)
                 (spec := gcs_storage_spec mem_gcs_bucket id) w3 ∧
               let body := match rr with Ok rd => reader_data rd | Err _ => "" end in
               download_run = Some (Ok (mkHttpResp StatusOK "application/octet-stream" body), w3) ∧
               (∀ rd, rr = Ok rd → read_end rd = None → gcs_obj mem_gcs_bucket id (sys_store demo_sys) path = Some body)
         end)
  end.
Proof.
  exact (handleDownload_decides (Gcs.storage mem_gcs_bucket) (gcs_obj mem_gcs_bucket id)
    (spec := gcs_storage_spec mem_gcs_bucket id) toy_verifier 40 download_request demo_sys
    ltac:(solve_fuel) I I).
Defined.

(** The context of a call that carries a token. *)
Definition token_ctx : context :=
  mkCtx None (Some {[ "authorization" := ["Bearer H:s3cr3t"] ]}) false.

Lemma unary_chain_mediates_witness :
  ∃ a path, authenticate toy_verifier token_ctx = Ok (WithAuthContext token_ctx a) ∧
    ExtractPath (ListObjectsRequest "/a") = Ok path ∧ Allowed sample_store a path PermList ∧
    ret (A := nat) 7 demo_sys = Some (Ok 7, demo_sys).
Proof.
  apply (unary_chain_mediates toy_verifier 40 token_ctx (ListObjectsRequest "/a")
    "/fileengine.FileEngine/ListObjects" PermList (fun _ _ => ret 7) demo_sys (Ok 7) demo_sys).
  - reflexivity.
  - intros path [= <-]. solve_fuel.
  - vm_compute. reflexivity.
  - left. reflexivity.
Defined.

Lemma authorized_location_witness :
  clean_comps "/srv/b" = ["srv"] ++ location "a//../b/" ∧
  ∀ q, consulted (normalize "a//../b/") q → clean_comps q `prefix_of` location "a//../b/".
Proof.
  destruct (authorized_location (LocalStorage.New "/srv") "a//../b/" eq_refl) as [H1 H2].
  split; [exact H1|]. apply H2; [reflexivity|]. vm_compute. discriminate.
Defined.
