(* ===== verification/Rpc.v ===== *)
(** * The gRPC and HTTP servers

    [internal/server/server.go]: the two servers and what they put in front of the handlers.
    The code that protoc generates, the gRPC runtime and the gateway are parameters; routing by
    [http.ServeMux] is modelled. *)
From S2P Require Import Prelude GoStrings GoPath Acl Jwt Authz PosixFs LocalFs Storage Queue Server.

#[local] Open Scope string_scope.
#[local] Open Scope nat_scope.
#[local] Open Scope list_scope.
#[local] Open Scope go_scope.

Section Servers.
Context `{ACLStore St} `{JwtLib} {S R : Type}.
Local Abbreviation W := (sys St S R).

(** ** The gRPC server *)

(** The ACL store of both servers is the one in the state of the process. *)
Record GRPCServer := mkGRPCServer {
  gs_Addr : string; gs_Verifier : JWTVerifier; gs_Handler : GRPCHandler (S := S) (R := R)
}.

Definition NewGRPCServer (addr : string) (verifier : JWTVerifier) (handler : GRPCHandler) : GRPCServer :=
  mkGRPCServer addr verifier handler.

Inductive response :=
  | RespCreateFolder (r : CreateFolderResponse)
  | RespListObjects (items : list ObjectInfo)
  | RespUploadObject (success : bool).

(** A unary call as it reaches the server: the incoming context with its metadata, the full
    method name, the message and the time. *)
Record rpc := mkRpc { rpc_ctx : context; rpc_method : string; rpc_req : request; rpc_now : utc }.

(** What protoc generates from [api/proto/fileengine.proto]: how a call that reaches the
    service is passed to the registered handler. A unary method gets messages of its own type;
    the handler of a server stream gets the first message that [RecvMsg] delivers. Anything
    else is an error of the runtime and touches nothing. *)
Inductive unary_binding (h : GRPCHandler (S := S) (R := R)) (now : utc) (ctx : context) :
    string → request → prog W response → Prop :=
  | bind_CreateFolder parent name by_ :
      unary_binding h now ctx "/fileengine.FileEngine/CreateFolder" (CreateFolderRequest parent name by_)
        (let! r := handler_CreateFolder h now ctx parent name by_ in ret (RespCreateFolder r))
  | bind_ListObjects prefix :
      unary_binding h now ctx "/fileengine.FileEngine/ListObjects" (ListObjectsRequest prefix)
        (let! r := handler_ListObjects h ctx prefix in ret (RespListObjects r))
  | bind_UploadObject path content :
      unary_binding h now ctx "/fileengine.FileEngine/UploadObject" (UploadObjectRequest path content)
        (let! r := handler_UploadObject h ctx path content in ret (RespUploadObject r)).

Class FileEngineService := {
  invoke_unary : GRPCHandler (S := S) (R := R) → utc → context → string → request → prog W response;
  invoke_unary_law h now ctx method req :
    unary_binding h now ctx method req (invoke_unary h now ctx method req) ∨
    ∃ e, invoke_unary h now ctx method req = throw e;
  invoke_unary_bound h now ctx method req m :
    unary_binding h now ctx method req m → invoke_unary h now ctx method req = m;
  invoke_stream : GRPCHandler (S := S) (R := R) → nat → context → string → server_stream →
    (nat → option error) → prog W stream_result;
  invoke_stream_download h fuel ctx stream send w :
    invoke_stream h fuel ctx "/fileengine.FileEngine/DownloadObject" stream send w =
    match RecvMsg fuel (sys_acl w) stream with
    | None => None
    | Some (Ok (DownloadObjectRequest path), _) => handler_DownloadObject h fuel ctx path send w
    | Some (Ok _, _) => stream_fail (ErrExt "failed to unmarshal the received message") w
    | Some (Err e, _) => stream_fail e w
    end
}.

Context `{FileEngineService}.

(** One unary call to the server that [Start] runs. *)
Definition serve_unary (g : GRPCServer) (fuel : nat) (c : rpc) : prog W response :=
  unary_chain (gs_Verifier g) fuel (rpc_ctx c) (rpc_req c) (rpc_method c)
    (fun ctx req => invoke_unary (gs_Handler g) (rpc_now c) ctx (rpc_method c) req).

(** One call of a server-streaming method; [msgs] is what the transport delivers to
    [RecvMsg]. *)
Definition serve_stream (g : GRPCServer) (fuel : nat) (ctx : context) (method : string)
    (msgs : list (result request)) (send : nat → option error) : prog W stream_result :=
  stream_chain (gs_Verifier g) ctx (mkStream msgs None false) method
    (fun ctx stream => invoke_stream (gs_Handler g) fuel ctx method stream send).

(** [GRPCServer.Start]: listen, then serve with the interceptors installed. The listener and
    the loop of the gRPC runtime are parameters. *)
Definition grpc_Start {L : Type} (Listen : string → result L)
    (Serve : L → (nat → rpc → prog W response) →
       (nat → context → string → list (result request) → (nat → option error) → prog W stream_result) → result unit)
    (g : GRPCServer) : result unit :=
  match Listen (gs_Addr g) with
  | Err e => Err (ErrWrap "listen" e)
  | Ok lis => Serve lis (serve_unary g) (serve_stream g)
  end.

(** A sequence of calls; what the clients got. *)
Fixpoint serve_calls (g : GRPCServer) (fuel : nat) (cs : list rpc) : prog W (list (result response)) :=
  match cs with
  | [] => ret []
  | c :: cs' =>
      let! r := attempt (serve_unary g fuel c) in
      let! rs := serve_calls g fuel cs' in
      ret (r :: rs)
  end.

(** ** The HTTP server *)

Record HTTPServer := mkHTTPServer {
  hs_Addr : string; hs_GRPCAddr : string; hs_Verifier : JWTVerifier; hs_Storage : Storage S
}.

Definition NewHTTPServer (addr grpcAddr : string) (verifier : JWTVerifier) (st : Storage S) : HTTPServer :=
  mkHTTPServer addr grpcAddr verifier st.

Record web_request := mkWebRequest { web_method : string; url_path : string; web_req : http_request }.

Inductive web_response :=
  | Respond (r : http_response)
  (** 301 to the cleaned path. *)
  | Redirect (location : string).

(** The path [http.ServeMux] matches: rooted and cleaned, a trailing slash kept. *)
Definition mux_clean (p : string) : string :=
  if bool_decide (p = "") then "/"
  else
    let p := if HasPrefix p "/" then p else "/" +:+ p in
    let np := Clean p in
    if HasSuffix p "/" && negb (bool_decide (np = "/")) then np +:+ "/" else np.

(** The handler of the process's root mux: the raw download at its exact path, everything else
    to the gateway behind the token check. The mux redirects to a cleaned path, except for
    CONNECT requests, whose path is matched as it is. *)
Definition serve_http (h : HTTPServer) (fuel : nat) (gateway : http_request → prog W http_response)
    (r : web_request) : prog W web_response :=
  if negb (bool_decide (web_method r = "CONNECT")) && negb (bool_decide (mux_clean (url_path r) = url_path r)) then ret (Redirect (mux_clean (url_path r)))
  else
    let! resp := (if bool_decide (url_path r = "/v1/objects:download")
                  then handleDownload (hs_Verifier h) (hs_Storage h) fuel (web_req r)
                  else HTTPAuthMiddleware (hs_Verifier h) gateway (web_req r)) in
    ret (Respond resp).

(** [HTTPServer.Start]: connect to the gRPC server, register the gateway on the connection,
    and serve. *)
Definition http_Start {C : Type} (Dial : string → result C)
    (RegisterHandler : C → result (http_request → prog W http_response))
    (ListenAndServe : string → (nat → web_request → prog W web_response) → result unit)
    (h : HTTPServer) : result unit :=
  match Dial (hs_GRPCAddr h) with
  | Err e => Err (ErrWrap "dial grpc" e)
  | Ok conn =>
      match RegisterHandler conn with
      | Err e => Err (ErrWrap "register gateway" e)
      | Ok gateway => ListenAndServe (hs_Addr h) (fun fuel r => serve_http h fuel gateway r)
      end
  end.
End Servers.
Arguments FileEngineService St {_} S R.
Arguments GRPCServer : clear implicits.
Arguments HTTPServer : clear implicits.
Arguments mkGRPCServer {S R}.
Arguments mkHTTPServer {S}.
Arguments gs_Addr {S R}.
Arguments gs_Verifier {S R}.
Arguments gs_Handler {S R}.
Arguments hs_Verifier {S}.
Arguments hs_Storage {S}.
