(* ===== verification/RpcProps.v ===== *)
(** * Properties of the servers

    Refused calls are as if they had never been made; the download stream on every branch; and
    the messages of a download are bounded. *)
From S2P Require Import Prelude GoStrings GoPath Acl Jwt Authz PosixFs LocalFs CrashLogic FsTriples FsRuns FsInvariant RemoveSpec Storage LocalStorage LocalStorageProps ObjectStore Gcs GcsProps Queue QueueProps Server ServerProps Rpc.

#[local] Open Scope string_scope.
#[local] Open Scope nat_scope.
#[local] Open Scope list_scope.
#[local] Open Scope go_scope.

(** ** Which calls are permitted *)

Section Calls.
Context `{ACLStore St} `{JwtLib} {S R : Type} `{!FileEngineService St S R}.
Local Abbreviation W := (sys St S R).

(** The caller is known, the message has a path, and the caller is allowed the permission of
    the method there. *)
Definition permitted (v : JWTVerifier) (acl : St) (c : rpc) : Prop :=
  ∃ a path perm, authenticate v (rpc_ctx c) = Ok (WithAuthContext (rpc_ctx c) a) ∧
    MethodPermission !! rpc_method c = Some perm ∧ ExtractPath (rpc_req c) = Ok path ∧ Allowed acl a path perm.

(** The context a handler gets. *)
Definition identified (v : JWTVerifier) (c : rpc) : context :=
  match authenticate v (rpc_ctx c) with Ok ctx => ctx | Err _ => rpc_ctx c end.

(** The reference: the handlers of the permitted calls, one after the other, and nothing else. *)
Fixpoint permitted_calls (g : GRPCServer S R) (cs : list (rpc * bool)) : prog W (list (option (result response))) :=
  match cs with
  | [] => ret []
  | (c, true) :: cs' =>
      let! r := attempt (invoke_unary (gs_Handler g) (rpc_now c) (identified (gs_Verifier g) c) (rpc_method c) (rpc_req c)) in
      let! rs := permitted_calls g cs' in
      ret (Some r :: rs)
  | (c, false) :: cs' =>
      let! rs := permitted_calls g cs' in
      ret (None :: rs)
  end.

Definition mapped (c : rpc) : Prop := is_Some (MethodPermission !! rpc_method c).
Definition fuel_ok (fuel : nat) (c : rpc) : Prop := ∀ path, ExtractPath (rpc_req c) = Ok path → path_fuel path ≤ fuel.

Lemma serve_unary_cases (g : GRPCServer S R) fuel c w :
  mapped c → fuel_ok fuel c →
  (permitted (gs_Verifier g) (sys_acl w) c ∧
   serve_unary g fuel c w = invoke_unary (gs_Handler g) (rpc_now c) (identified (gs_Verifier g) c) (rpc_method c) (rpc_req c) w) ∨
  (¬ permitted (gs_Verifier g) (sys_acl w) c ∧ ∃ code msg, serve_unary g fuel c w = Some (Err (ErrStatus code msg), w)).
Proof.
  intros [perm Hm] Hf. unfold serve_unary, unary_chain, GRPCAuthInterceptor, GRPCAuthZInterceptor, identified.
  unfold permitted. rewrite Hm. clear Hm. destruct (authenticate (gs_Verifier g) (rpc_ctx c)) as [ctx'|e] eqn:Ea.
  2: { right. split; [by intros (? & ? & ? & ? & _)|].
       unfold authenticate in Ea. repeat (case_match; try done); injection Ea as <-; by eexists _, _. }
  destruct (authenticate_identity _ _ _ Ea) as [a ->]. cbn [FromContext WithAuthContext ctx_auth].
  destruct (ExtractPath (rpc_req c)) as [path|e] eqn:Ep.
  2: { right. split; [by intros (? & ? & ? & _ & _ & ? & _)|]. by eexists _, _. }
  unfold bind, gets, total. rewrite CanAccess_rooted by eauto with gopath. cbn [fmap option_fmap option_map].
  destruct (scan (Acl.answers (sys_acl w) (lineage path)) a perm (lineage path)) eqn:E; [left|right]; (split; [|try done; by eexists _, _]).
  - exists a, path, perm. split_and!; [done..|]. by apply Allowed_spec.
  - intros (a' & path' & perm' & [= ?] & [= ?] & [= ?] & Hal). subst. apply Allowed_spec in Hal. congruence.
Qed.

(** No handler changes the ACL store. *)
Lemma in_store_acl {A : Type} (m : prog S A) (w : W) r w' : in_store m w = Some (r, w') → sys_acl w' = sys_acl w.
Proof. unfold in_store. destruct (m (sys_store w)) as [[]|]; [|done]. by intros [= _ <-]. Qed.

Lemma in_queue_acl {A : Type} (m : prog R A) (w : W) r w' : in_queue m w = Some (r, w') → sys_acl w' = sys_acl w.
Proof. unfold in_queue. destruct (m (sys_queue w)) as [[]|]; [|done]. by intros [= _ <-]. Qed.

Lemma bind_ret_acl {A B : Type} (m : prog W A) (f : A → B) w r w' :
  (∀ r w', m w = Some (r, w') → sys_acl w' = sys_acl w) →
  (let! x := m in ret (f x)) w = Some (r, w') → sys_acl w' = sys_acl w.
Proof.
  intros Hm. unfold bind, ret. destruct (m w) as [[[a|e] w1]|] eqn:E; [..|done]; intros [= _ <-]; by eapply Hm.
Qed.

Lemma invoke_acl h now ctx method req (w : W) r w' :
  invoke_unary h now ctx method req w = Some (r, w') → sys_acl w' = sys_acl w.
Proof.
  destruct (invoke_unary_law h now ctx method req) as [Hb|[e ->]]; [|by intros [= _ <-]].
  destruct Hb; apply bind_ret_acl; intros r1 w1; apply bind_ret_acl; intros r2 w2;
    first [apply in_store_acl|apply in_queue_acl].
Qed.

(** A reply of [serve_calls] to a call of which the reference gives the outcome. *)
Definition answers (o : option (result response)) (r : result response) : Prop :=
  match o with Some r' => r = r' | None => ∃ code msg, r = Err (ErrStatus code msg) end.

(** C3: Refused calls are as if they had never been made. For any sequence of calls of mapped
    methods, let the permitted ones be those whose caller is authenticated and allowed the
    permission of the method on the path of the message, by the ACLs as they are at the start.
    Then the server changes the process exactly as the handlers of the permitted calls alone
    would, replies what they reply, and answers every other call with an error status. The ACLs
    stay as they are throughout. *)
Theorem serve_calls_only_permitted (g : GRPCServer S R) fuel cs (w : W) :
  Forall mapped cs → Forall (fuel_ok fuel) cs →
  ∃ mask, Forall2 (fun c b => b = true ↔ permitted (gs_Verifier g) (sys_acl w) c) cs mask ∧
    match permitted_calls g (zip cs mask) w with
    | Some (Ok os, w') =>
        sys_acl w' = sys_acl w ∧ ∃ rs, serve_calls g fuel cs w = Some (Ok rs, w') ∧ Forall2 answers os rs
    | Some (Err _, _) => False
    | None => serve_calls g fuel cs w = None
    end.
Proof.
  intros Hm Hf. revert w. induction cs as [|c cs IH]; intros w.
  { exists []. split; [constructor|]. split; [done|]. by exists []. }
  apply Forall_cons in Hm as [Hm1 Hm], Hf as [Hf1 Hf]. specialize (IH Hm Hf). cbn [serve_calls].
  destruct (serve_unary_cases g fuel c w Hm1 Hf1) as [[Hp E]|[Hp (code & msg & E)]].
  - destruct (invoke_unary (gs_Handler g) _ _ _ _ w) as [[r w1]|] eqn:Ed.
    + pose proof (invoke_acl _ _ _ _ _ _ _ _ Ed) as Hacl. destruct (IH w1) as (mask & Hmask & Hrest).
      rewrite Hacl in *. exists (true :: mask). split; [by constructor|]. cbn [zip zip_with permitted_calls].
      rewrite (bind_attempt _ _ _ _ _ E), (bind_attempt _ _ _ _ _ Ed).
      destruct (permitted_calls g (zip cs mask) w1) as [[[os|e] w2]|] eqn:Ep; [|done|by rewrite !bind_none].
      destruct Hrest as (Hacl2 & rs & Ers & Hans). rewrite (bind_ok _ _ _ _ _ Ep), (bind_ok _ _ _ _ _ Ers).
      split; [done|]. exists (r :: rs). split; [done|by constructor].
    + destruct (IH w) as (mask & Hmask & _). exists (true :: mask). split; [by constructor|].
      cbn [zip zip_with permitted_calls]. by rewrite !bind_attempt_none.
  - destruct (IH w) as (mask & Hmask & Hrest). exists (false :: mask). split; [by constructor|].
    cbn [zip zip_with permitted_calls]. rewrite (bind_attempt _ _ _ _ _ E).
    destruct (permitted_calls g (zip cs mask) w) as [[[os|e] w2]|] eqn:Ep; [|done|by rewrite !bind_none].
    destruct Hrest as (Hacl2 & rs & Ers & Hans). rewrite (bind_ok _ _ _ _ _ Ep), (bind_ok _ _ _ _ _ Ers).
    split; [done|]. exists (Err (ErrStatus code msg) :: rs).
    split; [done|]. constructor; [by eexists _, _|done].
Qed.
End Calls.

(** ** Routing *)

Lemma Clean_trailing_slash p : rooted p = true → Clean (p +:+ "/") = Clean p.
Proof.
  intros Hp. unfold Clean. rewrite rooted_append, Hp by done. f_equal.
  rewrite (clean_comps_append p "") by done. simpl. by rewrite rev_involutive.
Qed.

(** A redirect leads to a path that is served as it is. *)
Lemma mux_clean_idemp p : mux_clean (mux_clean p) = mux_clean p.
Proof.
  assert (∀ q, rooted q = true → q ≠ "" → mux_clean q =
    (if HasSuffix q "/" && negb (bool_decide (Clean q = "/")) then Clean q +:+ "/" else Clean q)) as Hmux.
  { intros q Hq Hne. unfold mux_clean. rewrite bool_decide_eq_false_2 by done. unfold rooted in Hq. by rewrite Hq. }
  assert (∀ q, rooted q = true → mux_clean (mux_clean q) = mux_clean q) as Hrooted.
  { intros q Hq. rewrite (Hmux q Hq) by by apply rooted_ne.
    assert (rooted (Clean q) = true) as Hc by by rewrite rooted_Clean.
    destruct (HasSuffix q "/" && negb (bool_decide (Clean q = "/"))) eqn:E.
    - go_bool. rewrite Hmux; [|by apply rooted_append|by apply rooted_ne, rooted_append].
      rewrite Clean_trailing_slash, Clean_idemp by done.
      assert (HasSuffix (Clean q +:+ "/") "/" = true) as -> by (apply HasSuffix_spec; by eexists).
      by rewrite bool_decide_eq_false_2.
    - rewrite Hmux; [|done|by apply rooted_ne]. rewrite Clean_idemp.
      destruct (decide (Clean q = "/")) as [->|Hne]; [done|].
      replace (HasSuffix (Clean q) "/") with false; [done|]. symmetry.
      unfold Clean in *. rewrite Hq in *. pose proof (clean_comps_rooted_normal q Hq) as Hn.
      destruct (clean_comps q) as [|c cs _] eqn:Ec using rev_ind; [done|].
      apply Forall_app in Hn as [Hcs Hc']. inversion Hc'. by apply FsTriples.HasSuffix_render_slash. }
  destruct (decide (p = "")) as [->|Hp]; [by vm_compute|].
  destruct (HasPrefix p "/") eqn:E; [by apply Hrooted|].
  assert (mux_clean p = mux_clean ("/" +:+ p)) as ->; [|by apply Hrooted].
  unfold mux_clean. rewrite bool_decide_eq_false_2 by done. by rewrite E.
Qed.

(** ** Sizes of download messages *)

Lemma split_blocks_bounds fuel size s :
  0 < size → Forall (fun b => 0 < String.length b ≤ size) (split_blocks fuel size s).
Proof.
  intros Hs. revert s. induction fuel as [|fuel IH]; intros [|a s]; cbn [split_blocks]; [constructor..|].
  constructor; [|apply IH]. rewrite length_stake. simpl. lia.
Qed.

(** An [io.Reader] never reports more bytes than its buffer holds; it may report fewer, or
    none. A storage whose calls return and whose readers keep this: *)
Class StreamStorage {S : Type} (st : Storage S) := {
  stream_law : ∀ ctx path s, ∃ o s1, st_Open st ctx path s = Some (o, s1) ∧
    match o with
    | Ok rc =>
        (∀ size s2, 0 < size → ∃ rr s3, rc_read rc size s2 = Some (rr, s3) ∧
           match rr with Ok rd => Forall (fun b => String.length b ≤ size) (blocks rd) | Err _ => True end) ∧
        (∀ s2, ∃ rr s3, rc_close rc s2 = Some (rr, s3))
    | Err _ => True
    end
}.

(** The messages of a stream: none is empty or larger than the buffer. *)
Definition chunks_bounded (r : stream_result) : Prop :=
  Forall (fun b => 1 ≤ String.length b ≤ download_buffer) (chunks r) ∧
  String.length (foldr String.append "" (chunks r)) ≤ download_buffer * length (chunks r).

Lemma chunks_bounded_intro r :
  Forall (fun b => 1 ≤ String.length b ≤ download_buffer) (chunks r) → chunks_bounded r.
Proof.
  unfold chunks_bounded. generalize download_buffer. intros n Hr. split; [exact Hr|].
  induction Hr as [|b bs Hb _ IH]; cbn [foldr length]; [simpl; lia|]. rewrite length_append. lia.
Qed.

Lemma chunks_bounded_fail e : chunks_bounded (mkStreamResult [] (Some e)).
Proof. apply chunks_bounded_intro. constructor. Qed.

Lemma chunks_bounded_blocks send i bs stop :
  Forall (fun b => String.length b ≤ download_buffer) bs → chunks_bounded (send_blocks send i bs stop).
Proof.
  intros Hbs. apply chunks_bounded_intro. revert i. induction Hbs as [|b bs Hb _ IH]; intros i; cbn [send_blocks]; [constructor|].
  case_bool_decide as E; [apply IH|]. destruct (send i); [constructor|]. constructor; [|apply IH].
  split; [|exact Hb]. destruct b; [by destruct E|]. simpl. lia.
Qed.

Section Stream.
Context `{ACLStore St} {S R : Type} (st : Storage S) `{!StreamStorage st}.
Local Abbreviation W := (sys St S R).

(** C22: The messages of a download are bounded, for every storage whose readers keep the rules
    of [io.Reader] (short and empty reads allowed). Whoever calls, and whatever happens to the
    storage and the transport, the download returns; every message it sent has between 1 and
    65536 bytes; so there are at least as many messages as the bytes delivered need. *)
Theorem DownloadObject_chunk_bounds q fuel ctx path send (w : W) :
  let h := NewGRPCHandler q (NewObjectService st) in
  path_fuel (normalize path) ≤ fuel →
  ∃ r w', handler_DownloadObject h fuel ctx path send w = Some (Ok r, w') ∧ chunks_bounded r.
Proof.
  intros h Hf. unfold handler_DownloadObject.
  destruct (FromContext ctx) as [a|]; [|eexists _, w; split; [done|apply chunks_bounded_fail]]. cbn [ExtractPath].
  unfold can_access, bind, gets, total. rewrite CanAccess_rooted by (done || apply normalize_props).
  cbn [fmap option_fmap option_map]. destruct (scan _ _ _ _); cbn [negb];
    [|eexists _, w; split; [done|apply chunks_bounded_fail]].
  unfold attempt, in_store. cbn [objects h NewGRPCHandler]. change (svc_Open (NewObjectService st) ctx path) with (st_Open st ctx path).
  destruct (stream_law ctx path (sys_store w)) as (o & s1 & Eo & Ho). rewrite Eo.
  destruct o as [rc|e]; [|eexists _, _; split; [done|apply chunks_bounded_fail]].
  destruct Ho as [Hread Hclose]. unfold with_defer, bind, attempt. cbn [sys_store].
  destruct (Hread download_buffer s1 download_buffer_pos) as (rr & s2 & Er & Hrr). rewrite Er.
  destruct (Hclose s2) as (rc2 & s3 & Ec).
  destruct rr as [rd|e]; unfold stream_fail, ret, lift; cbn [sys_store]; rewrite Ec;
    eexists _, _; (split; [done|]); [exact (chunks_bounded_blocks send 0 (blocks rd) (read_end rd) Hrr)|apply chunks_bounded_fail].
Qed.
End Stream.

(** Local disks are such a storage, in every state. *)
Lemma syscall_total {A : Type} op (f : world → errno + (A * option fs)) w : ∃ r w', syscall op f w = Some (r, w').
Proof.
  unfold syscall. destruct (head (w_faults w)) as [[e|]|]; [by eexists _, _|..];
    (destruct (f (set_faults w (tail (w_faults w)))) as [e|[a [s|]]]; by eexists _, _).
Qed.

#[export] Instance local_stream dir_size l : StreamStorage (LocalStorage.storage dir_size l).
Proof.
  constructor. intros ctx path s. cbn [LocalStorage.storage st_Open]. unfold LocalStorage.Open, bind, PosixFs.Open.
  destruct (syscall_total "open" (fun w => match lookup_node w true (LocalStorage.full l path) with
     | inl e => inl e | inr (l0, _) => inr (l0, None) end) s) as (o & w1 & ->).
  destruct o as [hd|e]; eexists _, w1; (split; [done|]); [|done]. cbn [rc_read rc_close]. split.
  - intros size s2 Hsize. destruct (w_fs s2 !! hd) as [n|] eqn:E.
    + destruct (file_reader_triple (fun _ => True) (fun w => w_fs w = w_fs s2) size hd n) with (w := s2)
        as (r & w' & Er & [_ Hr] & _); [done|by intros w ->|done|].
      exists r, w'. split; [done|]. destruct r as [rd|e]; [|done]. destruct Hr as (m & c & _ & [Hp _]).
      pose proof (split_blocks_bounds (String.length c) size c Hsize) as Hb. destruct Hp as [k Hk]. rewrite Hk in Hb.
      apply Forall_app in Hb as [Hb _]. eapply Forall_impl; [exact Hb|]. simpl. lia.
    + unfold file_reader. rewrite E. destruct (syscall_total (A := reader) "read" (fun _ => inl EIO) s2) as (r & w' & Er).
      exists r, w'. split; [exact Er|]. destruct r as [rd|e]; [|done]. exfalso. revert Er. unfold syscall.
      by destruct (head (w_faults s2)) as [[e|]|].
  - intros s2. apply syscall_total.
Qed.

(** ** The download stream behind the interceptors *)

Section Download.
Context `{ACLStore St} `{JwtLib} {S R : Type} (st : Storage S) (obj : S → string → option string).
Context `{spec : !StorageSpec st obj} `{!FileEngineService St S R}.
Local Abbreviation W := (sys St S R).

Lemma serve_stream_run q addr v fuel ctx path msgs send (w : W) :
  let g := NewGRPCServer addr v (NewGRPCHandler q (NewObjectService st)) in
  let run := serve_stream g fuel ctx "/fileengine.FileEngine/DownloadObject"
               (Ok (DownloadObjectRequest path) :: msgs) send w in
  store_ok (R := R) st obj w → st_path path → path_fuel (normalize path) ≤ fuel →
  (∃ e, authenticate v ctx = Err e ∧ run = Some (Err e, w)) ∨
  ∃ a, authenticate v ctx = Ok (WithAuthContext ctx a) ∧
    ((¬ Allowed (sys_acl w) a (normalize path) PermRead ∧
      run = Some (Ok (mkStreamResult [] (Some (ErrStatus PermissionDenied "access denied"))), w)) ∨
     (Allowed (sys_acl w) a (normalize path) PermRead ∧
      ∃ r w', run = Some (Ok r, w') ∧ store_ok st obj w' ∧
        (stream_status r = None → obj (sys_store w) path = Some (foldr String.append "" (chunks r))))).
Proof using spec.
  intros g run Hw Hp Hf. subst run. subst g.
  unfold serve_stream, stream_chain, GRPCStreamAuthInterceptor, NewGRPCServer. cbn [gs_Verifier gs_Handler].
  destruct (authenticate v ctx) as [ctx'|e] eqn:Ea; [right|left; by exists e].
  destruct (authenticate_identity _ _ _ Ea) as [a ->]. exists a. split; [done|].
  unfold GRPCAuthZStreamInterceptor. change (MethodPermission !! _) with (Some PermRead).
  cbn [FromContext WithAuthContext ctx_auth transport]. rewrite invoke_stream_download.
  unfold RecvMsg. cbn [guard transport_recv transport checked ExtractPath].
  rewrite CanAccess_rooted by (done || apply normalize_props). cbn [mbind option_bind].
  destruct (scan (Acl.answers (sys_acl w) (lineage (normalize path))) a PermRead (lineage (normalize path))) eqn:E; cbn [negb].
  - right. apply Allowed_spec in E. split; [done|].
    by apply (DownloadObject_run st obj q fuel (WithAuthContext ctx a) path send w a).
  - left. split; [|done]. rewrite <- Allowed_spec. congruence.
Qed.

(** C14: The streaming download behind the interceptors of the server, on every branch and for
    every backend that keeps the promise of the storage interface. Without a valid token the
    call fails; without read access to the path of its message it ends with PermissionDenied;
    in both cases nothing was sent and the process is unchanged. Otherwise the handler, which
    checks again, always returns and agrees with the first check, and a stream that ends
    without an error has delivered exactly the object. Further messages are not looked at. *)
Theorem serve_stream_download q addr v fuel ctx path msgs send (w : W) :
  let g := NewGRPCServer addr v (NewGRPCHandler q (NewObjectService st)) in
  let run := serve_stream g fuel ctx "/fileengine.FileEngine/DownloadObject"
               (Ok (DownloadObjectRequest path) :: msgs) send w in
  store_ok (R := R) st obj w → st_path path → path_fuel (normalize path) ≤ fuel →
  (∃ e, authenticate v ctx = Err e ∧ run = Some (Err e, w)) ∨
  ∃ a, authenticate v ctx = Ok (WithAuthContext ctx a) ∧
    ((¬ Allowed (sys_acl w) a (normalize path) PermRead ∧
      run = Some (Ok (mkStreamResult [] (Some (ErrStatus PermissionDenied "access denied"))), w)) ∨
     (Allowed (sys_acl w) a (normalize path) PermRead ∧
      ∃ r w', run = Some (Ok r, w') ∧ store_ok st obj w' ∧
        (stream_status r = None → obj (sys_store w) path = Some (foldr String.append "" (chunks r))))).
Proof using spec. apply serve_stream_run. Qed.
End Download.

(** ** Concrete instances *)

(** A service that keeps the laws. *)
Section Instance.
Context `{ACLStore St} {S R : Type}.
Local Abbreviation W := (sys St S R).

Definition dispatch (h : GRPCHandler (S := S) (R := R)) (now : utc) (ctx : context) (method : string) (req : request)
    : prog W response :=
  match req with
  | CreateFolderRequest parent name by_ =>
      if bool_decide (method = "/fileengine.FileEngine/CreateFolder")
      then let! r := handler_CreateFolder h now ctx parent name by_ in ret (RespCreateFolder r)
      else throw (ErrExt "unimplemented")
  | ListObjectsRequest prefix =>
      if bool_decide (method = "/fileengine.FileEngine/ListObjects")
      then let! r := handler_ListObjects h ctx prefix in ret (RespListObjects r)
      else throw (ErrExt "unimplemented")
  | UploadObjectRequest path content =>
      if bool_decide (method = "/fileengine.FileEngine/UploadObject")
      then let! r := handler_UploadObject h ctx path content in ret (RespUploadObject r)
      else throw (ErrExt "unimplemented")
  | _ => throw (ErrExt "unimplemented")
  end.

Definition dispatch_stream (h : GRPCHandler (S := S) (R := R)) (fuel : nat) (ctx : context) (method : string)
    (stream : server_stream) (send : nat → option error) : prog W stream_result := fun w =>
  match RecvMsg fuel (sys_acl w) stream with
  | None => None
  | Some (Ok (DownloadObjectRequest path), _) => handler_DownloadObject h fuel ctx path send w
  | Some (Ok _, _) => stream_fail (ErrExt "failed to unmarshal the received message") w
  | Some (Err e, _) => stream_fail e w
  end.

#[refine] Definition dispatch_service : FileEngineService St S R :=
  {| invoke_unary := dispatch; invoke_stream := dispatch_stream |}.
Proof.
  - intros h now ctx method req. destruct req; simpl; try (right; by eexists);
      (case_bool_decide as Hm; [subst; left; constructor|right; by eexists]).
  - intros h now ctx method req m Hb. by destruct Hb.
  - done.
Defined.
End Instance.

#[local] Existing Instance toy_lib.
#[local] Existing Instance toy_laws.
#[local] Existing Instance dispatch_service.

Definition demo_server : GRPCServer ObjectStore.objects (list string * gmap string string) :=
  NewGRPCServer ":50051" toy_verifier
    (NewGRPCHandler mem_queue (NewObjectService (Gcs.storage mem_gcs_bucket))).

Definition demo_now : utc := mkUtc 2024 5 6 7 8 9 0.

(** A listing with a token, an upload without one, an upload the viewer may not do. *)
Definition demo_calls : list rpc :=
  [mkRpc token_ctx "/fileengine.FileEngine/ListObjects" (ListObjectsRequest "/a") demo_now;
   mkRpc LocalFsProps.demo_ctx "/fileengine.FileEngine/UploadObject" (UploadObjectRequest "/a" "x") demo_now;
   mkRpc token_ctx "/fileengine.FileEngine/UploadObject" (UploadObjectRequest "/a" "x") demo_now].

Lemma serve_calls_only_permitted_witness :
  ∃ mask, Forall2 (fun c b => b = true ↔ permitted (gs_Verifier demo_server) (sys_acl demo_sys) c) demo_calls mask ∧
    match permitted_calls demo_server (zip demo_calls mask) demo_sys with
    | Some (Ok os, w') =>
        sys_acl w' = sys_acl demo_sys ∧
        ∃ rs, serve_calls demo_server 40 demo_calls demo_sys = Some (Ok rs, w') ∧ Forall2 answers os rs
    | Some (Err _, _) => False
    | None => serve_calls demo_server 40 demo_calls demo_sys = None
    end.
Proof.
  apply (serve_calls_only_permitted demo_server 40 demo_calls demo_sys).
  - repeat (constructor; [eexists; vm_compute; reflexivity|]). constructor.
  - do 3 (apply Forall_cons; split; [intros path Hp; vm_compute in Hp; injection Hp as <-; solve_fuel|]). constructor.
Defined.

Lemma DownloadObject_chunk_bounds_witness :
  let h := NewGRPCHandler mem_queue (NewObjectService (LocalStorage.storage 0 (LocalStorage.New "/srv"))) in
  let w := mkSys sample_store (LocalFsProps.demo_world []) ([], ∅) in
  ∃ r w', handler_DownloadObject h 40 reader_ctx "/a" (fun _ => None) w = Some (Ok r, w') ∧ chunks_bounded r.
Proof. apply (DownloadObject_chunk_bounds (LocalStorage.storage 0 (LocalStorage.New "/srv"))). solve_fuel. Defined.

Lemma serve_stream_download_witness :
  let run := serve_stream demo_server 40 token_ctx "/fileengine.FileEngine/DownloadObject"
               [Ok (DownloadObjectRequest "/a")] (fun _ => None) demo_sys in
  let ok := store_ok (Gcs.storage mem_gcs_bucket) (gcs_obj mem_gcs_bucket id)
              (spec := gcs_storage_spec mem_gcs_bucket id) in
  (∃ e, authenticate toy_verifier token_ctx = Err e ∧ run = Some (Err e, demo_sys)) ∨
  ∃ a, authenticate toy_verifier token_ctx = Ok (WithAuthContext token_ctx a) ∧
    ((¬ Allowed sample_store a "/a" PermRead ∧
      run = Some (Ok (mkStreamResult [] (Some (ErrStatus PermissionDenied "access denied"))), demo_sys)) ∨
     (Allowed sample_store a "/a" PermRead ∧
      ∃ r w', run = Some (Ok r, w') ∧ ok w' ∧
        (stream_status r = None → gcs_obj mem_gcs_bucket id mem_gcs_state "/a" = Some (foldr String.append "" (chunks r))))).
Proof.
  apply (serve_stream_download (Gcs.storage mem_gcs_bucket) (gcs_obj mem_gcs_bucket id)
    (spec := gcs_storage_spec mem_gcs_bucket id) mem_queue ":50051" toy_verifier 40 token_ctx "/a" [] (fun _ => None) demo_sys).
  - exact I.
  - exact I.
  - solve_fuel.
Defined.
