(* ===== verification/Sftp.v ===== *)
(** * The SFTP file system

    [internal/filesystem/sftp_client.go]. The SSH and SFTP libraries are parameters. *)
From stdpp Require Import pretty.
From S2P Require Import Prelude GoStrings GoPath Jwt PosixFs LocalFs.

#[local] Open Scope string_scope.
#[local] Open Scope nat_scope.
#[local] Open Scope list_scope.
#[local] Open Scope go_scope.

(** ** The libraries *)

(** The operations of [*sftp.Client] and [*sftp.File] the code calls; [file] is an open
    remote file. *)
Record sftp_client (W file : Type) := mkSftpClient {
  sftp_MkdirAll : string → prog W unit;
  sftp_OpenTrunc : string → prog W file;
  sftp_Open : string → prog W file;
  sftp_Rename : string → string → prog W unit;
  sftp_Remove : string → prog W unit;
  sftp_Write : file → reader → prog W unit;
  sftp_Read : file → prog W reader;
  sftp_Chmod : file → N → prog W unit;
  sftp_CloseFile : file → prog W unit;
  sftp_Close : prog W unit
}.
Arguments sftp_MkdirAll {W file}.
Arguments sftp_OpenTrunc {W file}.
Arguments sftp_Open {W file}.
Arguments sftp_Rename {W file}.
Arguments sftp_Remove {W file}.
Arguments sftp_Write {W file}.
Arguments sftp_Read {W file}.
Arguments sftp_Chmod {W file}.
Arguments sftp_CloseFile {W file}.
Arguments sftp_Close {W file}.

Section Sftp.
Context {W file : Type}.

(** [golang.org/x/crypto/ssh] and [sftp.NewClient]: keys, connections and host-key checks. *)
Context {signer host_key_callback ssh_conn : Type}.
Inductive auth_method := PublicKeys (s : signer) | PasswordAuth (p : string).
Record ssh_config := mkSshConfig {
  cfg_user : string; cfg_auth : list auth_method; cfg_host_key : host_key_callback; cfg_timeout : Z
}.
Variable ParsePrivateKey : string → result signer.
Variable Dial : string → ssh_config → prog W ssh_conn.
Variable CloseConn : ssh_conn → prog W unit.
Variable NewClient : ssh_conn → prog W (sftp_client W file).

(** [Timeout] is in nanoseconds, as [time.Duration]. *)
Record SftpFs := mkSftpFs {
  Addr : string; User : string; Password : string; PrivateKey : string; Timeout : Z; BaseRoot : string;
  client : option (sftp_client W file); sshClient : option ssh_conn
}.

(** Fails closed. *)
Definition hostKeyCallback : result host_key_callback := Err (ErrNew "host key verification is not configured").

Definition connect (s : SftpFs) : prog W SftpFs :=
  let! auth := lift (
    if negb (bool_decide (PrivateKey s = "")) then
      match ParsePrivateKey (PrivateKey s) with
      | Err e => Err (ErrWrap "parse private key" e)
      | Ok k => Ok [PublicKeys k]
      end
    else if negb (bool_decide (Password s = "")) then Ok [PasswordAuth (Password s)]
    else Err (ErrNew "no auth method provided")) in
  let! hk := wrap_err "host key callback" (lift hostKeyCallback) in
  let! conn := wrap_err "ssh dial" (Dial (Addr s) (mkSshConfig (User s) auth hk (Timeout s))) in
  let! c := attempt (NewClient conn) in
  match c with
  | Err e => let! _ := attempt (CloseConn conn) in throw (ErrWrap "sftp new client" e)
  | Ok c => ret (mkSftpFs (Addr s) (User s) (Password s) (PrivateKey s) (Timeout s) (BaseRoot s) (Some c) (Some conn))
  end.

Definition NewSftpFs (addr user password privateKey baseRoot : string) : prog W SftpFs :=
  connect (mkSftpFs addr user password privateKey (10 * 1000000000) (Clean baseRoot) None None).

(** Errors of both calls are ignored. *)
Definition Close (s : SftpFs) : prog W unit :=
  let! _ := attempt (match client s with Some c => sftp_Close c | None => ret tt end) in
  let! _ := attempt (match sshClient s with Some c => CloseConn c | None => ret tt end) in
  ret tt.

Definition remoteJoin (s : SftpFs) (parts : list string) : string :=
  let joined := Join parts in
  let clean := Clean joined in
  let clean := if IsAbs clean then sdrop 1 (Clean clean) else clean in
  Join [BaseRoot s; clean].

(** A connected client; calling a method of a nil client panics, which has no result. *)
Definition with_client {A} (s : SftpFs) (m : sftp_client W file → prog W A) : prog W A :=
  match client s with Some c => m c | None => diverge end.

Definition CreateFolder (s : SftpFs) (ctx : context) (parts : list string) : prog W unit :=
  let full := remoteJoin s parts in
  with_client s (fun c => wrap_err "sftp mkdirall failed" (sftp_MkdirAll c full)).

(** [nanos] is [time.Now().UnixNano()]; the error of [Chmod] is ignored. *)
Definition AtomicWriteFile (s : SftpFs) (ctx : context) (nanos : N) (perm : N) (data : reader)
    (parts : list string) : prog W unit :=
  let full := remoteJoin s parts in
  let dir := Dir full in
  let tmp := full +:+ ".tmp-" +:+ pretty nanos in
  with_client s (fun c =>
    do! wrap_err "sftp ensure dir" (sftp_MkdirAll c dir) in
    let! f := wrap_err "sftp open tmp" (sftp_OpenTrunc c tmp) in
    with_defer (sftp_CloseFile c f) (
      do! wrap_err "sftp write tmp" (sftp_Write c f data) in
      let! _ := attempt (sftp_Chmod c f perm) in
      wrap_err "sftp rename" (sftp_Rename c tmp full))).

Definition MoveUploadedFile (s : SftpFs) (ctx : context) (srcParts dstParts : list string) : prog W unit :=
  let src := remoteJoin s srcParts in
  let dst := remoteJoin s dstParts in
  with_client s (fun c =>
    let! r := attempt (sftp_Rename c src dst) in
    match r with
    | Ok _ => ret tt
    | Err _ =>
        let! srcF := wrap_err "sftp open src" (sftp_Open c src) in
        with_defer (sftp_CloseFile c srcF) (
          let! dstF := wrap_err "sftp open dst" (sftp_OpenTrunc c dst) in
          with_defer (sftp_CloseFile c dstF) (
            do! wrap_err "sftp copy" (let! rd := sftp_Read c srcF in sftp_Write c dstF rd) in
            wrap_err "sftp remove src" (sftp_Remove c src)))
    end).

(** ** Properties *)

(** A connection is never made: the host-key check that every connection needs is not
    configured, whatever the credentials, and the server is not even dialled. *)
Lemma NewSftpFs_fails addr user password privateKey baseRoot w :
  ∃ e, NewSftpFs addr user password privateKey baseRoot w = Some (Err e, w).
Proof.
  unfold NewSftpFs, connect. cbn [PrivateKey Password]. unfold bind at 1, lift at 1.
  destruct (bool_decide (privateKey = "")); simpl.
  - destruct (bool_decide (password = "")); simpl; by eexists.
  - destruct (ParsePrivateKey privateKey); simpl; by eexists.
Qed.

(** Where a request lands on the server. The parts are joined into a cleaned path of
    [n] leading ".." and the names [ns]; the remote location is the base with its last [n]
    elements removed, then [ns]. So the location is below the base when the joined path is
    absolute or has no leading "..", and each leading ".." climbs one directory above it:
    the base does not confine the requests. *)
Theorem remoteJoin_location (s : SftpFs) parts n ns :
  rooted (BaseRoot s) = true → clean_comps (Join parts) = repeat ".." n ++ ns → Forall normal ns →
  let bs := clean_comps (BaseRoot s) in
  clean_comps (remoteJoin s parts) = take (length bs - n) bs ++ ns.
Proof.
  intros Hb Hj Hns bs. unfold remoteJoin, IsAbs. rewrite rooted_Clean, Clean_idemp.
  assert (canonical (rooted (Join parts)) (repeat ".." n ++ ns)) as Hcan
    by (rewrite <- Hj; apply clean_comps_canonical).
  destruct (decide (n + length ns = 0)) as [Hz|Hnz].
  - assert (n = 0 ∧ ns = []) as [-> ->] by (destruct ns; simpl in Hz; [split; [lia|done]|lia]).
    simpl in Hj. rewrite Nat.sub_0_r, app_nil_r, take_ge by done. fold bs. unfold Clean. rewrite Hj.
    destruct (rooted (Join parts)); rewrite Join_rooted, clean_comps_Clean, clean_comps_append by done;
      [change (sdrop 1 (render true [])) with ""|change (render false []) with "."];
      simpl; by rewrite rev_involutive.
  - unfold bs. rewrite <- clean_comps_join by done. unfold Clean. rewrite Hj.
    destruct (rooted (Join parts)) eqn:Hr.
    + done.
    + do 3 f_equal. unfold render. destruct n; [destruct ns; [simpl in Hnz; lia|done]|done].
Qed.
End Sftp.

(** A base of two elements and a request that climbs out of it. *)
Lemma remoteJoin_location_witness :
  let s := mkSftpFs (W := unit) (file := unit) (ssh_conn := unit) "host:22" "u" "p" "" 0 "/srv/files" None None in
  clean_comps (remoteJoin s ["up"; "../../etc"; "passwd"]) = take (2 - 1) ["srv"; "files"] ++ ["etc"; "passwd"].
Proof.
  apply (remoteJoin_location (mkSftpFs (W := unit) (file := unit) (ssh_conn := unit) "host:22" "u" "p" "" 0 "/srv/files" None None)
    ["up"; "../../etc"; "passwd"] 1 ["etc"; "passwd"]).
  - reflexivity.
  - vm_compute. reflexivity.
  - repeat constructor; solve_normal.
Defined.
