(* ===== verification/SftpProps.v ===== *)
(** * Properties of the SFTP file system

    Writes and moves of [internal/filesystem/sftp_client.go], for every client that behaves as
    the SFTP protocol (version 3, draft-ietf-secsh-filexfer-02) says. In this version a rename
    is an error when the new name exists, which decides what both operations do to an existing
    target. *)
From stdpp Require Import pretty.
From S2P Require Import Prelude GoStrings GoPath Jwt PosixFs LocalFs FsTriples Sftp.

#[local] Open Scope string_scope.
#[local] Open Scope nat_scope.
#[local] Open Scope list_scope.
#[local] Open Scope go_scope.

(** ** Runs that return *)

(** The run of [m] from [w] returns, with an outcome and a state that satisfy [Q]. *)
Definition runs {W A} (m : prog W A) (w : W) (Q : result A → W → Prop) : Prop :=
  ∃ r w', m w = Some (r, w') ∧ Q r w'.

Section Runs.
Context {W : Type}.

Lemma runs_mono {A} (m : prog W A) w (Q Q' : result A → W → Prop) :
  runs m w Q → (∀ r w', Q r w' → Q' r w') → runs m w Q'.
Proof. intros (r & w' & E & H) HQ. exists r, w'. auto. Qed.

Lemma runs_ret {A} (a : A) w (Q : result A → W → Prop) : Q (Ok a) w → runs (ret a) w Q.
Proof. intros. by exists (Ok a), w. Qed.

Lemma runs_throw {A} e w (Q : result A → W → Prop) : Q (Err e) w → runs (throw e) w Q.
Proof. intros. by exists (Err e), w. Qed.

Lemma runs_bind {A B} (m : prog W A) (k : A → prog W B) w Q :
  runs m w (fun r w1 => match r with Ok a => runs (k a) w1 Q | Err e => Q (Err e) w1 end) →
  runs (bind m k) w Q.
Proof. intros ([a|e] & w1 & E & H); unfold runs, bind; rewrite E; [done|]. by exists (Err e), w1. Qed.

Lemma runs_attempt {A} (m : prog W A) w (Q : result (result A) → W → Prop) :
  runs m w (fun r => Q (Ok r)) → runs (attempt m) w Q.
Proof. intros (r & w1 & E & H). exists (Ok r), w1. unfold attempt. by rewrite E. Qed.

Lemma runs_wrap {A} msg (m : prog W A) w (Q : result A → W → Prop) :
  runs m w (fun r => Q (result_wrap msg r)) → runs (wrap_err msg m) w Q.
Proof. intros (r & w1 & E & H). exists (result_wrap msg r), w1. unfold wrap_err, bind, attempt. rewrite E. by destruct r. Qed.

(** The clean-up runs after the body, and its outcome is ignored. *)
Lemma runs_defer {A} cleanup (m : prog W A) w (Q : result A → W → Prop) :
  runs m w (fun r w1 => runs cleanup w1 (fun _ w2 => Q r w2)) → runs (with_defer cleanup m) w Q.
Proof.
  intros (r & w1 & E & rc & w2 & Ec & H). exists r, w2. unfold with_defer, bind, attempt, lift.
  by rewrite E, Ec.
Qed.
End Runs.

(** Steps through the code up to the next call of the client. *)
Ltac runs_step :=
  match goal with
  | |- runs (bind _ _) _ _ => apply runs_bind
  | |- runs (attempt _) _ _ => apply runs_attempt
  | |- runs (wrap_err _ _) _ _ => apply runs_wrap
  | |- runs (with_defer _ _) _ _ => apply runs_defer
  | |- runs (ret _) _ _ => apply runs_ret
  | |- runs (throw _) _ _ => apply runs_throw
  end.

(** ** What the protocol promises *)

(** The regular files of a server are named by the elements of their rooted paths; the server
    has no links, and no one else writes to it. [dir_at] tells its directories, and [pos] is the
    file and the offset of an open handle. An error reply (or a lost connection) may follow a call that has acted. *)
Abbreviation files_at := (gmap (list string) string).

Class SftpLaws {W file : Type} (c : sftp_client W file) (files : W → files_at)
    (dir_at : W → list string → Prop) (pos : W → file → option (list string * nat)) := {
  file_not_dir : ∀ w k, is_Some (files w !! k) → ¬ dir_at w k;
  mkdir_law : ∀ p w, runs (sftp_MkdirAll c p) w (fun _ w' => files w' = files w);
  (** SSH_FXP_OPEN with SSH_FXF_WRITE, SSH_FXF_CREAT and SSH_FXF_TRUNC *)
  trunc_law : ∀ p w, rooted p = true → runs (sftp_OpenTrunc c p) w (fun r w' =>
    match r with
    | Ok f => files w' = <[clean_comps p := ""]> (files w) ∧ pos w f = None ∧
              pos w' f = Some (clean_comps p, 0) ∧ (∀ g, g ≠ f → pos w' g = pos w g)
    | Err _ => files w' = files w ∨ files w' = <[clean_comps p := ""]> (files w)
    end);
  open_law : ∀ p w, rooted p = true → runs (sftp_Open c p) w (fun r w' =>
    files w' = files w ∧
    match r with
    | Ok f => dir_at w (clean_comps p) ∨
              is_Some (files w !! clean_comps p) ∧ pos w' f = Some (clean_comps p, 0)
    | Err _ => True
    end);
  (** [io.Copy] into a new handle of an empty file *)
  write_law : ∀ f k r w, pos w f = Some (k, 0) → files w !! k = Some "" →
    runs (sftp_Write c f r) w (fun res w' =>
      ∃ v, files w' = <[k := v]> (files w) ∧ (is_ok res → read_end r = None ∧ v = reader_data r));
  (** Reading a handle from its start *)
  read_law : ∀ f k v w, pos w f = Some (k, 0) → files w !! k = Some v →
    runs (sftp_Read c f) w (fun res w' =>
      files w' = files w ∧ (∀ g, g ≠ f → pos w' g = pos w g) ∧
      match res with Ok rd => read_end rd = None → reader_data rd = v | Err _ => True end);
  chmod_law : ∀ f m w, runs (sftp_Chmod c f m) w (fun _ w' => files w' = files w);
  closefile_law : ∀ f w, runs (sftp_CloseFile c f) w (fun _ w' => files w' = files w);
  (** "It is an error if there already exists a file with the name specified by newpath." *)
  rename_law : ∀ a b v w, rooted a = true → rooted b = true → files w !! clean_comps a = Some v →
    runs (sftp_Rename c a b) w (fun r w' =>
      (files w !! clean_comps b = None ∧ ¬ dir_at w' (clean_comps a) ∧
       files w' = <[clean_comps b := v]> (delete (clean_comps a) (files w))) ∨
      (is_ok r = false ∧ files w' = files w));
  remove_law : ∀ p w, rooted p = true → runs (sftp_Remove c p) w (fun r w' =>
    files w' = delete (clean_comps p) (files w) ∨ (is_ok r = false ∧ files w' = files w))
}.

(** ** The temporary name *)

Lemma join_slash_suffix cs c t : join_slash (cs ++ [c]) +:+ t = join_slash (cs ++ [c +:+ t]).
Proof.
  destruct (decide (cs = [])) as [->|Hne]; [done|]. by rewrite !join_slash_snoc, append_assoc.
Qed.

Lemma normal_suffix c t : noslash c → noslash t → 2 < String.length t → normal (c +:+ t).
Proof.
  intros Hc Ht Hl. split; [by apply noslash_append|].
  split_and!; intros E%(f_equal String.length); rewrite length_append in E; simpl in E; lia.
Qed.

(** A suffix on a clean rooted path changes only its last element. *)
Lemma clean_comps_suffix p t :
  rooted p = true → Clean p = p → noslash t → 2 < String.length t → clean_comps (p +:+ t) ≠ clean_comps p.
Proof.
  intros Hr Hc Ht Hl. pose proof (clean_comps_rooted_normal p Hr) as Hn.
  pose proof (Clean_rooted_render p Hr) as Hp. rewrite Hc in Hp. revert Hp.
  destruct (clean_comps p) as [|c cs _] eqn:E using rev_ind.
  - intros ->. change (("/" +:+ join_slash []) +:+ t) with (render true ["" +:+ t]).
    rewrite clean_comps_render; [done|]. apply canonical_rooted. constructor; [by apply normal_suffix|constructor].
  - intros ->. rewrite append_assoc, join_slash_suffix.
    change ("/" +:+ join_slash (cs ++ [c +:+ t])) with (render true (cs ++ [c +:+ t])).
    apply Forall_app in Hn as [Hcs [Hcn _]%Forall_cons].
    rewrite clean_comps_render.
    + intros [_ [= Ec%(f_equal String.length)]]%app_inj_2; [|done]. rewrite length_append in Ec. lia.
    + apply canonical_rooted, Forall_app. split; [done|]. constructor; [|constructor].
      apply normal_suffix; [apply Hcn|done..].
Qed.

Section Laws.
Context {W file ssh_conn : Type} (s : SftpFs (W := W) (file := file) (ssh_conn := ssh_conn)).
Context (c : sftp_client W file) (files : W → files_at) (dir_at : W → list string → Prop).
Context (pos : W → file → option (list string * nat)) `{!SftpLaws c files dir_at pos} (connected : client s = Some c) (base : rooted (BaseRoot s) = true).

(** Where a request lands. *)
#[local] Abbreviation target parts := (clean_comps (remoteJoin s parts)).

Definition tmp_name (parts : list string) (nanos : N) : string := remoteJoin s parts +:+ ".tmp-" +:+ pretty nanos.

Lemma rooted_remoteJoin parts : rooted (remoteJoin s parts) = true.
Proof using base. unfold remoteJoin. by rewrite Join_rooted, rooted_Clean, rooted_append. Qed.

Lemma Clean_remoteJoin parts : Clean (remoteJoin s parts) = remoteJoin s parts.
Proof using base. unfold remoteJoin. by rewrite Join_rooted, Clean_idemp. Qed.

Lemma rooted_tmp parts nanos : rooted (tmp_name parts nanos) = true.
Proof using base. apply rooted_append, rooted_remoteJoin. Qed.

Lemma tmp_ne_target parts nanos : clean_comps (tmp_name parts nanos) ≠ target parts.
Proof using base.
  apply clean_comps_suffix; [apply rooted_remoteJoin|apply Clean_remoteJoin| |simpl; lia].
  by apply (noslash_append ".tmp-"), noslash_pretty.
Qed.

(** A deferred close of a handle changes no file. *)
Lemma runs_close {A} f (m : prog W A) w (Q : result A → W → Prop) :
  runs m w (fun r w1 => ∀ w2, files w2 = files w1 → Q r w2) →
  runs (with_defer (sftp_CloseFile c f) m) w Q.
Proof using SftpLaws0.
  intros H. apply runs_defer. eapply runs_mono; [exact H|]. intros r w1 H1.
  eapply runs_mono; [apply closefile_law|]. auto.
Qed.

(** What an atomic write leaves behind: at the target nothing or a complete new file. *)
Definition written (parts : list string) (nanos : N) (data : reader) (w : W) (r : result unit) (w' : W) : Prop :=
  (∀ q, q ≠ target parts → q ≠ clean_comps (tmp_name parts nanos) → files w' !! q = files w !! q) ∧
  (files w' !! target parts = files w !! target parts ∨
   files w !! target parts = None ∧ read_end data = None ∧ files w' !! target parts = Some (reader_data data)) ∧
  (is_ok r → files w !! target parts = None ∧ read_end data = None ∧
     files w' !! target parts = Some (reader_data data) ∧ files w' !! clean_comps (tmp_name parts nanos) = None).

(** Until the rename, only the temporary file has changed. *)
Lemma written_early parts nanos data w e w' :
  (files w' = files w ∨ ∃ v, files w' = <[clean_comps (tmp_name parts nanos) := v]> (files w)) →
  written parts nanos data w (Err e) w'.
Proof using base.
  pose proof (tmp_ne_target parts nanos). intros [Hw|[v Hw]]; unfold written; rewrite Hw.
  - split_and!; [done|by left|done].
  - split_and!; [|left|done]; intros; by rewrite lookup_insert_ne.
Qed.

Lemma written_renamed parts nanos data w r w' :
  files w !! target parts = None → read_end data = None →
  files w' = <[target parts := reader_data data]> (delete (clean_comps (tmp_name parts nanos)) (files w)) →
  written parts nanos data w r w'.
Proof using base.
  pose proof (tmp_ne_target parts nanos). intros Hn Hr Hw. unfold written. rewrite Hw, lookup_insert_eq.
  split_and!; [|by right|by rewrite lookup_insert_ne, lookup_delete_eq].
  intros q Hq Hq'. by rewrite lookup_insert_ne, lookup_delete_ne.
Qed.

Lemma AtomicWriteFile_runs ctx nanos perm data parts w :
  runs (AtomicWriteFile s ctx nanos perm data parts) w (written parts nanos data w).
Proof using SftpLaws0 connected base.
  unfold AtomicWriteFile, with_client. rewrite connected.
  change (_ +:+ ".tmp-" +:+ _) with (tmp_name parts nanos).
  set (t := clean_comps (tmp_name parts nanos)). pose proof (tmp_ne_target parts nanos) as Hne.
  do 2 runs_step. eapply runs_mono; [apply mkdir_law|]. intros [?|e] w1 H1; simpl; [|apply written_early; auto].
  do 2 runs_step. eapply runs_mono; [apply trunc_law, rooted_tmp|].
  intros [f|e] w2 H2; simpl; [|apply written_early; rewrite <- H1; destruct H2; eauto].
  destruct H2 as (H2 & _ & Hf & _). fold t in H2, Hf. rewrite H1 in H2.
  apply runs_close.
  do 2 runs_step.
  eapply runs_mono; [eapply write_law; [done|by rewrite H2, lookup_insert_eq]|].
  intros [?|e] w3 (v & H3 & Hv); rewrite H2, insert_insert_eq in H3; simpl.
  2:{ intros w4 H4. apply written_early. right. exists v. by rewrite H4. }
  destruct (Hv ltac:(done)) as [Hend ->].
  do 2 runs_step. eapply runs_mono; [apply chmod_law|]. intros r4 w4 H4. rewrite H3 in H4.
  runs_step. eapply runs_mono;
    [eapply rename_law; [apply rooted_tmp|apply rooted_remoteJoin|by rewrite H4, lookup_insert_eq]|].
  intros r w5 H5 w6 H6. rewrite H4 in H5. fold t in H5.
  rewrite lookup_insert_ne, delete_insert_eq in H5 by done. destruct H5 as [(Hn & _ & H5)|[Hr H5]].
  - apply written_renamed; [done|done|]. by rewrite H6.
  - destruct r as [|e]; [done|]. apply written_early. right. exists (reader_data data). by rewrite H6.
Qed.

(** C40: For every server that keeps the protocol and whatever calls fail, a write returns; it
    changes no file but the target and its temporary file; the target is left as it was or, if
    it did not exist, is the complete new file, never a part of it; a reported success means the
    latter, with the temporary file gone. So a file that exists is never replaced: writing to it
    reports an error. *)
Theorem sftp_AtomicWriteFile_creates ctx nanos perm data parts w :
  ∃ r w', AtomicWriteFile s ctx nanos perm data parts w = Some (r, w') ∧
    (∀ q, q ≠ target parts → q ≠ clean_comps (remoteJoin s parts +:+ ".tmp-" +:+ pretty nanos) →
       files w' !! q = files w !! q) ∧
    match files w !! target parts with
    | Some old => is_ok r = false ∧ files w' !! target parts = Some old
    | None => files w' !! target parts = None ∨
              read_end data = None ∧ files w' !! target parts = Some (reader_data data)
    end ∧
    (is_ok r → files w' !! target parts = Some (reader_data data) ∧
       files w' !! clean_comps (remoteJoin s parts +:+ ".tmp-" +:+ pretty nanos) = None).
Proof using SftpLaws0 connected base.
  destruct (AtomicWriteFile_runs ctx nanos perm data parts w) as (r & w' & E & Hq & Hw & Hok).
  exists r, w'. split_and!; [done|exact Hq| |].
  - destruct (files w !! target parts) as [old|] eqn:Ho.
    + destruct r as [?|]; [by destruct (Hok ltac:(done))|]. split; [done|]. by destruct Hw as [|[??]].
    + by destruct Hw as [|(? & ? & ?)]; auto.
  - intros Hr. by destruct (Hok Hr) as (? & ? & ? & ?).
Qed.

(** The fallback of a move: both files, once the rename has failed. *)
Definition moved (k k' : list string) (v : string) (w : W) (r : result unit) (w' : W) : Prop :=
  (∀ q, q ≠ k → q ≠ k' → files w' !! q = files w !! q) ∧
  (is_ok r → files w' !! k = None) ∧
  (k ≠ k' → (files w' !! k = Some v ∨ files w' !! k' = Some v) ∧ (is_ok r → files w' !! k' = Some v)).

Lemma moved_same k k' v w e w' : files w !! k = Some v → files w' = files w → moved k k' v w (Err e) w'.
Proof using. intros Hv Hw. unfold moved. rewrite Hw. naive_solver. Qed.

Lemma moved_partial k k' v x w e w' :
  files w !! k = Some v → files w' = <[k' := x]> (files w) → moved k k' v w (Err e) w'.
Proof using.
  intros Hv Hw. unfold moved. rewrite Hw. split_and!; [|done|].
  - intros. by rewrite lookup_insert_ne.
  - intros. rewrite lookup_insert_ne by done. naive_solver.
Qed.

(** The source is removed once the copy is complete; a source that is the target has been
    truncated before it was read. *)
Lemma moved_removed k k' v u w r w' :
  files w !! k = Some v → (k ≠ k' → u = v) →
  files w' = delete k (<[k' := u]> (files w)) ∨ is_ok r = false ∧ files w' = <[k' := u]> (files w) →
  moved k k' v w r w'.
Proof using.
  intros Hv Hu [Hw|[Hr Hw]].
  - unfold moved. rewrite Hw, lookup_delete_eq. split_and!; [|done|].
    + intros. by rewrite lookup_delete_ne, lookup_insert_ne.
    + intros. rewrite lookup_delete_ne, lookup_insert_eq, Hu by done. auto.
  - destruct r; [done|]. by eapply moved_partial.
Qed.

(** The copy from the open source. *)
Lemma copy_runs h src dst v w w2 :
  files w !! target src = Some v → pos w2 h = Some (target src, 0) → files w2 = files w →
  runs (with_defer (sftp_CloseFile c h) (
    let! dstF := wrap_err "sftp open dst" (sftp_OpenTrunc c (remoteJoin s dst)) in
    with_defer (sftp_CloseFile c dstF) (
      do! wrap_err "sftp copy" (let! rd := sftp_Read c h in sftp_Write c dstF rd) in
      wrap_err "sftp remove src" (sftp_Remove c (remoteJoin s src))))) w2
    (moved (target src) (target dst) v w).
Proof using SftpLaws0 base.
  intros Hv Hh Hw. set (k := target src) in *. set (k' := target dst).
  apply runs_close. do 2 runs_step. eapply runs_mono; [apply trunc_law, rooted_remoteJoin|].
  fold k'. rewrite Hw.
  intros [f|e] w3 H3; simpl.
  2:{ intros w4 H4. destruct H3 as [H3|H3]; [apply moved_same|eapply moved_partial]; try done; by rewrite H4. }
  destruct H3 as (H3 & Hf0 & Hf & Hpos). assert (h ≠ f) as Hne by congruence.
  assert (∃ u, files w3 !! k = Some u ∧ (k ≠ k' → u = v)) as (u & Hu & Huv).
  { destruct (decide (k = k')) as [->|]; rewrite H3;
      [rewrite lookup_insert_eq|rewrite lookup_insert_ne by done]; eauto. by eexists. }
  apply runs_close. do 3 runs_step.
  eapply runs_mono; [eapply read_law; [by rewrite Hpos|done]|].
  intros [rd|e] w4 (H4 & Hpos4 & Hrd); simpl.
  2:{ intros w5 H5 w6 H6. eapply moved_partial; [done|]. by rewrite H6, H5, H4. }
  eapply runs_mono; [eapply (write_law f k'); [by rewrite Hpos4 by congruence|by rewrite H4, H3, lookup_insert_eq]|].
  intros [?|e] w5 (x & H5 & Hx); rewrite H4, H3, insert_insert_eq in H5; simpl.
  2:{ intros w6 H6 w7 H7. eapply moved_partial; [done|]. by rewrite H7, H6. }
  destruct (Hx ltac:(done)) as [Hend ->]. specialize (Hrd Hend). rewrite Hrd in H5.
  runs_step. eapply runs_mono; [apply remove_law, rooted_remoteJoin|]. fold k.
  intros r w6 H6 w7 H7 w8 H8. rewrite H5 in H6. eapply moved_removed; [done|exact Huv|].
  rewrite H8, H7. by destruct r.
Qed.

Lemma MoveUploadedFile_runs ctx src dst v w :
  files w !! target src = Some v →
  runs (MoveUploadedFile s ctx src dst) w (moved (target src) (target dst) v w).
Proof using SftpLaws0 connected base.
  intros Hv. unfold MoveUploadedFile, with_client. rewrite connected.
  set (k := target src) in *. set (k' := target dst).
  do 2 runs_step. eapply runs_mono; [eapply rename_law; [apply rooted_remoteJoin..|exact Hv]|].
  fold k k'. intros r1 w1 [(Hn & Hd & H1)|[Hr H1]].
  { assert (k ≠ k') as Hne by congruence. assert (files w1 !! k = None) as Hk by (by rewrite H1, lookup_insert_ne, lookup_delete_eq).
    assert (∀ r w', files w' = files w1 → moved k k' v w r w') as Hdone.
    { intros r w' Hw. unfold moved. rewrite Hw, Hk, H1, lookup_insert_eq. split_and!; [|done|auto].
      intros. by rewrite lookup_insert_ne, lookup_delete_ne. }
    destruct r1 as [?|e1]; [runs_step; by apply Hdone|].
    do 2 runs_step. eapply runs_mono; [apply open_law, rooted_remoteJoin|].
    intros [h|e] w2 [H2 Hh]; simpl; [|by apply Hdone]. fold k in Hh. rewrite Hk in Hh.
    by destruct Hh as [|[[? ?] _]]. }
  destruct r1 as [|e1]; [done|].
  do 2 runs_step. eapply runs_mono; [apply open_law, rooted_remoteJoin|].
  intros [h|e] w2 [H2 Hh]; simpl; [|apply moved_same; [done|by rewrite H2]].
  fold k in Hh. destruct Hh as [[]%file_not_dir|[_ Hh]]; [by rewrite H1|].
  apply copy_runs; [done|done|by rewrite H2].
Qed.

(** A move, of one file to another or onto itself. To another: only the two files change, the
    content is at the source or complete at the target in the end, and a reported success means
    that it is at the target alone. Onto itself: a reported success means that the file is
    gone, since the fallback of the refused rename truncates it, copies nothing and removes
    it. *)
Theorem sftp_MoveUploadedFile_moves ctx src dst v w :
  files w !! target src = Some v →
  ∃ r w', MoveUploadedFile s ctx src dst w = Some (r, w') ∧
    (∀ q, q ≠ target src → q ≠ target dst → files w' !! q = files w !! q) ∧
    (is_ok r → files w' !! target src = None) ∧
    (target src ≠ target dst →
       (files w' !! target src = Some v ∨ files w' !! target dst = Some v) ∧
       (is_ok r → files w' !! target dst = Some v)).
Proof using SftpLaws0 connected base. apply MoveUploadedFile_runs. Qed.
End Laws.

(** ** A server in memory *)

(** The files, and the handles that have been opened. *)
Record mem_server := mkMem { mem_files : files_at; mem_handles : list (list string * nat) }.

Definition mem_pos (w : mem_server) (f : nat) : option (list string * nat) := mem_handles w !! f.

Definition mem_open (p : string) (w : mem_server) : mem_server :=
  mkMem (mem_files w) (mem_handles w ++ [(clean_comps p, 0)]).

Definition mem_set (k : list string) (v : string) (w : mem_server) : mem_server :=
  mkMem (<[k := v]> (mem_files w)) (mem_handles w).

Definition mem_sftp : sftp_client mem_server nat := {|
  sftp_MkdirAll := fun _ => ret tt;
  sftp_OpenTrunc := fun p w => Some (Ok (length (mem_handles w)), mem_set (clean_comps p) "" (mem_open p w));
  sftp_Open := fun p w =>
    match mem_files w !! clean_comps p with
    | Some _ => Some (Ok (length (mem_handles w)), mem_open p w)
    | None => Some (Err (ErrExt "no such file"), w)
    end;
  sftp_Rename := fun a b w =>
    match mem_files w !! clean_comps a, mem_files w !! clean_comps b with
    | Some v, None => Some (Ok tt, mkMem (<[clean_comps b := v]> (delete (clean_comps a) (mem_files w))) (mem_handles w))
    | _, _ => Some (Err (ErrExt "failure"), w)
    end;
  sftp_Remove := fun p w => Some (Ok tt, mkMem (delete (clean_comps p) (mem_files w)) (mem_handles w));
  sftp_Write := fun f r w =>
    match mem_pos w f with
    | Some (k, _) =>
        Some (match read_end r with None => Ok tt | Some e => Err e end, mem_set k (reader_data r) w)
    | None => Some (Err (ErrExt "handle"), w)
    end;
  sftp_Read := fun f w =>
    match mem_pos w f with
    | Some (k, _) => Some (Ok (mkReader [default "" (mem_files w !! k)] None), w)
    | None => Some (Err (ErrExt "handle"), w)
    end;
  sftp_Chmod := fun _ _ => ret tt;
  sftp_CloseFile := fun _ => ret tt;
  sftp_Close := ret tt
|}.

#[export] Instance mem_sftp_laws : SftpLaws mem_sftp mem_files (fun _ _ => False) mem_pos.
Proof.
  split; unfold runs; simpl.
  - auto.
  - intros. eexists _, _. by split.
  - intros p w _. eexists _, _. split; [done|]. unfold mem_pos. simpl. split_and!.
    + done.
    + by apply lookup_ge_None.
    + by apply list_lookup_middle.
    + intros g Hg. destruct (decide (g < length (mem_handles w))) as [Hl|Hl]; [by rewrite lookup_app_l|].
      rewrite !lookup_ge_None_2; [done|lia|]. rewrite length_app. simpl. lia.
  - intros p w _. destruct (mem_files w !! clean_comps p) eqn:E; eexists _, _; (split; [done|]); [|done].
    split; [done|]. right. split; [by eexists|]. unfold mem_pos. simpl. by apply list_lookup_middle.
  - intros f k r w -> Hk. eexists _, _. split; [done|]. exists (reader_data r). split; [done|].
    by destruct (read_end r).
  - intros f k v w -> Hk. eexists _, _. split; [done|]. rewrite Hk. split_and!; [done|done|].
    intros _. unfold reader_data. simpl. by rewrite append_nil_r.
  - intros. eexists _, _. by split.
  - intros. eexists _, _. by split.
  - intros a b v w _ _ Ha. rewrite Ha. destruct (mem_files w !! clean_comps b); eexists _, _; (split; [done|]); auto.
  - intros. eexists _, _. split; [done|]. auto.
Qed.

(** A connection to it. *)
Definition mem_fs : SftpFs (W := mem_server) (file := nat) (ssh_conn := unit) :=
  mkSftpFs "host:22" "u" "p" "" 0 "/srv" (Some mem_sftp) (Some tt).

Definition old_server : mem_server := mkMem {[ ["srv"; "f"] := "old" ]} [].

(** A new file is written, and an existing one is not replaced: the temporary file stays. *)
Example mem_writes :
  match AtomicWriteFile mem_fs (mkCtx None None false) 7 420 (mkReader ["new"] None) ["d"; "g"] old_server with
  | Some (Ok _, w) => bool_decide (mem_files w = <[["srv"; "d"; "g"] := "new"]> (mem_files old_server)) = true
  | _ => False
  end ∧
  match AtomicWriteFile mem_fs (mkCtx None None false) 7 420 (mkReader ["new"] None) ["f"] old_server with
  | Some (Err _, w) => bool_decide (mem_files w = <[["srv"; "f.tmp-7"] := "new"]> (mem_files old_server)) = true
  | _ => False
  end.
Proof. by vm_compute. Qed.

(** Moving a file onto itself succeeds and loses it. *)
Example mem_self_move :
  match MoveUploadedFile mem_fs (mkCtx None None false) ["f"] ["f"] old_server with
  | Some (Ok _, w) => mem_files w = ∅
  | _ => False
  end.
Proof. by vm_compute. Qed.

Lemma sftp_AtomicWriteFile_creates_witness :
  ∃ r w', AtomicWriteFile mem_fs (mkCtx None None false) 7 420 (mkReader ["new"] None) ["f"] old_server = Some (r, w') ∧
    is_ok r = false ∧ mem_files w' !! ["srv"; "f"] = Some "old".
Proof.
  destruct (sftp_AtomicWriteFile_creates mem_fs mem_sftp mem_files (fun _ _ => False) mem_pos eq_refl eq_refl
    (mkCtx None None false) 7 420 (mkReader ["new"] None) ["f"] old_server) as (r & w' & E & _ & H & _).
  exists r, w'. split; [exact E|]. exact H.
Defined.
