(* ===== verification/StorageLens.v ===== *)
(** * Storage over a part of the state

    A process keeps more than the state of its storage backend. A lens names the part; the
    operations of a backend, zoomed to it, are a backend over the whole, and keep the promises
    the backend made. *)
From S2P Require Import Prelude GoStrings Jwt PosixFs Storage.

#[local] Open Scope string_scope.
#[local] Open Scope nat_scope.
#[local] Open Scope list_scope.
#[local] Open Scope go_scope.

Record lens (S A : Type) := mkLens {
  view : S → A;
  put : A → S → S;
  view_put a s : view (put a s) = a;
  put_view s : put (view s) s = s;
  put_put a b s : put a (put b s) = put a s
}.
Arguments view {S A}.
Arguments put {S A}.
Arguments view_put {S A}.
Arguments put_view {S A}.
Arguments put_put {S A}.

Section Zoom.
Context {S A : Type} (L : lens S A).

Definition zoom {X : Type} (m : prog A X) : prog S X := fun s =>
  match m (view L s) with
  | None => None
  | Some (r, a) => Some (r, put L a s)
  end.

Definition zoom_reader (rc : ReadCloser A) : ReadCloser S :=
  mkReadCloser (fun size => zoom (rc_read rc size)) (zoom (rc_close rc)).

Definition zoom_storage (st : Storage A) : Storage S := mkStorage
  (fun ctx p => zoom (st_CreateFolder st ctx p))
  (fun ctx p r => zoom (st_AtomicWrite st ctx p r))
  (fun ctx p q => zoom (st_Move st ctx p q))
  (fun ctx p => zoom (st_Delete st ctx p))
  (fun ctx p => zoom (st_Exists st ctx p))
  (fun ctx p => zoom (st_List st ctx p))
  (fun ctx p => let! rc := zoom (st_Open st ctx p) in ret (zoom_reader rc)).

Lemma zoom_run {X : Type} (m : prog A X) s r a : m (view L s) = Some (r, a) → zoom m s = Some (r, put L a s).
Proof. unfold zoom. by intros ->. Qed.

(** The rest of the state is left alone: what another lens sees, if it does not see the part. *)
Lemma zoom_frame {X B : Type} (V : S → B) (m : prog A X) s r s' :
  (∀ a s, V (put L a s) = V s) → zoom m s = Some (r, s') → V s' = V s.
Proof. intros HV. unfold zoom. destruct (m (view L s)) as [[]|]; [|done]. by intros [= _ <-]. Qed.

Section Spec.
Context (st : Storage A) (obj : A → string → option string) `{!StorageSpec st obj}.

#[export] Instance zoom_spec : StorageSpec (zoom_storage st) (fun s => obj (view L s)).
Proof using StorageSpec0.
  refine {| st_inv := fun s => st_inv (view L s); st_path := st_path |}.
  - intros ctx p r s Hs Hp. destruct (AtomicWrite_law ctx p r (view L s) Hs Hp) as (res & a & E & Ha & Hr).
    exists res, (put L a s). split; [by apply zoom_run|]. by rewrite view_put.
  - intros ctx p s Hs Hp. destruct (Open_law ctx p (view L s) Hs Hp) as (res & a & E & Ha & Hq & Hr).
    eexists (match res with Ok rc => Ok (zoom_reader rc) | Err e => Err e end), (put L a s).
    split; [|split; [by rewrite view_put|split; [by rewrite view_put|]]].
    { simpl. unfold bind. rewrite (zoom_run _ _ _ _ E). by destruct res. }
    destruct res as [rc|e]; [|done]. destruct Hr as [Hread Hclose]. split.
    + intros size Hsize. destruct (Hread size Hsize) as (rr & a2 & E2 & Ha2 & Hq2 & Hrr).
      exists rr, (put L a2 (put L a s)). split; [apply zoom_run; by rewrite view_put|]. by rewrite view_put.
    + intros s2 Hs2. destruct (Hclose (view L s2) Hs2) as (rr & a3 & E3 & Ha3 & Hq3).
      exists rr, (put L a3 s2). split; [by apply zoom_run|]. by rewrite view_put.
Defined.
End Spec.
End Zoom.
