(* ===== verification/Generated.v ===== *)
(** * The stand-in for the generated code

    [pkg/generated/stub.go]: the messages and the service interface that local builds compile
    against, and registration functions that register nothing. *)
From S2P Require Import Prelude Jwt.

#[local] Open Scope string_scope.

Module Pb.
Record CreateFolderRequest := mkCreateFolderRequest {
  cfr_Path : string; cfr_ParentPath : string; cfr_Name : string; cfr_Metadata : gmap string string
}.
Record CreateFolderResponse := mkCreateFolderResponse {
  cfs_Ok : bool; cfs_TaskId : string; cfs_Status : string; cfs_Message : string
}.
Record InitiateUploadRequest := mkInitiateUploadRequest { iur_TargetPath : string; iur_Filename : string; iur_Size : Z }.
Record InitiateUploadResponse := mkInitiateUploadResponse { ius_UploadId : string; ius_UploadUrl : string }.
Record CompleteUploadRequest := mkCompleteUploadRequest { cur_UploadId : string; cur_TargetPath : string }.
Record CompleteUploadResponse := mkCompleteUploadResponse { cus_Ok : bool; cus_TaskId : string; cus_Status : string }.
Record GetTaskRequest := mkGetTaskRequest { gtr_TaskId : string }.
Record GetTaskResponse := mkGetTaskResponse {
  gts_TaskId : string; gts_Status : string; gts_Progress : Z; gts_Message : string; gts_Details : string
}.

(** The interface, over the state [W] of an implementation. *)
Record FileEngineServer (W : Type) := mkFileEngineServer {
  CreateFolder : context → CreateFolderRequest → prog W CreateFolderResponse;
  InitiateUpload : context → InitiateUploadRequest → prog W InitiateUploadResponse;
  CompleteUpload : context → CompleteUploadRequest → prog W CompleteUploadResponse;
  GetTask : context → GetTaskRequest → prog W GetTaskResponse
}.
Arguments mkFileEngineServer {W}.
Arguments CreateFolder {W}.
Arguments InitiateUpload {W}.
Arguments CompleteUpload {W}.
Arguments GetTask {W}.

(** The gRPC server, of the library's type [G], is handed back as it was; so is the mux of the
    gateway, of type [M]. *)
Definition RegisterFileEngineServer {G W : Type} (s : G) (impl : FileEngineServer W) : G := s.

Definition RegisterFileEngineHandlerFromEndpoint {M : Type} (mux : M) (endpoint : string) : result M := Ok mux.
End Pb.
