(* ===== verification/Cmd.v ===== *)
(** * Commands

    [cmd/main.go]: the HTTP task API with its in-memory task table; [cmd/server/main.go]: the
    stub gRPC server. *)
From stdpp Require Import pretty sorting.
From Stdlib Require Import Ascii.
From S2P Require Import Prelude GoStrings GoPath Json JsonText Jwt PosixFs LocalFs FsTriples Generated.

#[local] Open Scope string_scope.
#[local] Open Scope nat_scope.
#[local] Open Scope list_scope.
#[local] Open Scope go_scope.

(** ** The task API *)

Module TaskApi.
(** [Created] is the JSON text of the creation time. *)
Record Task := mkTask { ID : string; Status : string; Message : string; Created : string }.

Abbreviation task_table := (gmap string Task).

(** The members of the first JSON value of a request body that [Decoder.Decode] stores into a
    struct; null stores nothing. *)
Definition Decode (body : string) : option (list (string * json)) :=
  match parse_value (2 + 2 * String.length body) 0 body with
  | Some (JObj fs, _) => Some fs
  | Some (JNull, _) => Some []
  | _ => None
  end.

(** Field names match up to case folding. *)
Definition same_field (name k : string) : bool :=
  bool_decide (ToLower (ReplaceAll (ReplaceAll k (GoStrings.bytes [197; 191]) "s") (GoStrings.bytes [226; 132; 170]) "k") = name).

(** A string field after all members have been stored; [None] is a type error. *)
Fixpoint string_field (name : string) (fs : list (string * json)) (acc : string) : option string :=
  match fs with
  | [] => Some acc
  | (k, j) :: fs' =>
      if same_field name k then
        match j with
        | JStr s => string_field name fs' s
        | JNull => string_field name fs' acc
        | _ => None
        end
      else string_field name fs' acc
  end.

(** A decimal integer literal that fits into an int64. *)
Fixpoint digits_value (s : string) (acc : Z) : option Z :=
  match s with
  | "" => Some acc
  | String a s' => if in_range 48 57 a then digits_value s' (acc * 10 + (Z.of_N (Ascii.N_of_ascii a) - 48)) else None
  end.

Definition int64_literal (s : string) : option Z :=
  let '(neg, d) := if HasPrefix s "-" then (true, sdrop 1 s) else (false, s) in
  if bool_decide (d = "") then None
  else z ← digits_value d 0;
       let z := if neg then (- z)%Z else z in
       if (- 2 ^ 63 <=? z)%Z && (z <? 2 ^ 63)%Z then Some z else None.

(** A number literal as [m * 10 ^ e]. *)
Definition decimal_literal (s : string) : Z * Z :=
  let '(i, s2) := digits (if HasPrefix s "-" then sdrop 1 s else s) in
  let '(f, s3) := match s2 with String "." s' => digits s' | _ => ("", s2) end in
  let e := match s3 with
           | String _ (String "-" d) => (- default 0 (digits_value d 0))%Z
           | String _ (String "+" d) => default 0%Z (digits_value d 0)
           | String _ d => default 0%Z (digits_value d 0)
           | "" => 0%Z
           end in
  (default 0%Z (digits_value (i +:+ f) 0), (e - Z.of_nat (String.length f))%Z).

(** [strconv.ParseFloat] reports a range error from the number half way between the largest
    float64 and 2^1024 on. *)
Definition in_float64 (s : string) : bool :=
  let '(m, e) := decimal_literal s in
  let limit := (2 ^ 1024 - 2 ^ 970)%Z in
  if (m =? 0)%Z then true
  else if (0 <=? e)%Z then (m * 10 ^ e <? limit)%Z else (m <? limit * 10 ^ (- e))%Z.

(** A value stored into an [interface{}]: every number becomes a float64. *)
Fixpoint numbers_ok (j : json) : bool :=
  match j with
  | JNum lit => in_float64 lit
  | JArr l => forallb numbers_ok l
  | JObj fs => forallb (fun '(_, v) => numbers_ok v) fs
  | _ => true
  end.

Definition is_object_or_null (j : json) : bool := match j with JObj _ | JNull => true | _ => false end.

(** A field of type [map[string]interface{}] takes any object whose numbers are in range. *)
Definition object_field_ok (name : string) (fs : list (string * json)) : bool :=
  forallb (fun '(k, j) => negb (same_field name k) || is_object_or_null j && numbers_ok j) fs.

(** An int64 field after all members have been stored. *)
Fixpoint int_field (name : string) (fs : list (string * json)) (acc : Z) : option Z :=
  match fs with
  | [] => Some acc
  | (k, j) :: fs' =>
      if same_field name k then
        match j with
        | JNum lit => z ← int64_literal lit; int_field name fs' z
        | JNull => int_field name fs' acc
        | _ => None
        end
      else int_field name fs' acc
  end.

(** The metadata of a request is decoded and not used. *)
Record CreateFolderReq := mkCreateFolderReq { ParentPath : string; Name : string }.
Record CreateFolderResp := mkCreateFolderResp { cf_Status : string; cf_TaskID : string; cf_Message : string }.
Record UploadInitiateReq := mkUploadInitiateReq { TargetPath : string; Filename : string; Size : Z }.
Record UploadInitiateResp := mkUploadInitiateResp { UploadURL : string; ui_UploadID : string }.
Record UploadCompleteReq := mkUploadCompleteReq { UploadID : string }.
Record UploadCompleteResp := mkUploadCompleteResp { uc_Status : string; uc_Message : string }.

Definition decode_CreateFolderReq (body : string) : option CreateFolderReq :=
  fs ← Decode body;
  parent ← string_field "parent_path" fs "";
  name ← string_field "name" fs "";
  if object_field_ok "metadata" fs then Some (mkCreateFolderReq parent name) else None.

Definition decode_UploadInitiateReq (body : string) : option UploadInitiateReq :=
  fs ← Decode body;
  target ← string_field "target_path" fs "";
  filename ← string_field "filename" fs "";
  size ← int_field "size" fs 0;
  Some (mkUploadInitiateReq target filename size).

Definition decode_UploadCompleteReq (body : string) : option UploadCompleteReq :=
  fs ← Decode body;
  id ← string_field "upload_id" fs "";
  Some (mkUploadCompleteReq id).

Definition CreateFolderResp_json (r : CreateFolderResp) : json :=
  JObj [("status", JStr (cf_Status r)); ("task_id", JStr (cf_TaskID r)); ("message", JStr (cf_Message r))].

Definition UploadInitiateResp_json (r : UploadInitiateResp) : json :=
  JObj [("upload_url", JStr (UploadURL r)); ("upload_id", JStr (ui_UploadID r))].

Definition UploadCompleteResp_json (r : UploadCompleteResp) : json :=
  JObj [("status", JStr (uc_Status r)); ("message", JStr (uc_Message r))].

(** [json.NewEncoder(w).Encode]: the value and a newline. *)
Definition Encode (j : json) : string := print_json j +:+ String "010"%char "".

Definition json_response (status : nat) (j : json) : http_response :=
  mkHttpResp status "application/json" (Encode j).

Definition StatusAccepted := 202.

(** The clock: [time.Now().UnixNano()] and the JSON text of [time.Now()]. *)
Record clock := mkClock { nanos : Z; created : string }.

Definition decimal (z : Z) : string :=
  if (z <? 0)%Z then "-" +:+ pretty (Z.to_N (- z)) else pretty (Z.to_N z).

Definition healthHandler (ts : task_table) : http_response * task_table :=
  (mkHttpResp StatusOK "" (print_json (JObj [("status", JStr "ok")])), ts).

Definition createFolderHandler (c : clock) (body : string) (ts : task_table) : http_response * task_table :=
  match decode_CreateFolderReq body with
  | None => (http_error StatusBadRequest "invalid json", ts)
  | Some req =>
      if bool_decide (ParentPath req = "" ∨ Name req = "")
      then (http_error StatusBadRequest "parent_path and name are required", ts)
      else
        let taskID := "task-" +:+ decimal (nanos c) in
        let ts' := <[taskID := mkTask taskID "queued" "Task queued for folder creation" (created c)]> ts in
        let resp := mkCreateFolderResp "queued" taskID ("Pasta em criação. Verifique o status via /tasks/" +:+ taskID) in
        (json_response StatusAccepted (CreateFolderResp_json resp), ts')
  end.

Definition uploadsInitiateHandler (c : clock) (body : string) (ts : task_table) : http_response * task_table :=
  match decode_UploadInitiateReq body with
  | None => (http_error StatusBadRequest "invalid json", ts)
  | Some _ =>
      let uploadID := "upload-" +:+ decimal (nanos c) in
      let uploadURL := "https://temp-storage.example.com/upload/" +:+ uploadID in
      (json_response StatusOK (UploadInitiateResp_json (mkUploadInitiateResp uploadURL uploadID)), ts)
  end.

Definition uploadsCompleteHandler (c : clock) (body : string) (ts : task_table) : http_response * task_table :=
  match decode_UploadCompleteReq body with
  | None => (http_error StatusBadRequest "invalid json", ts)
  | Some req =>
      if bool_decide (UploadID req = "") then (http_error StatusBadRequest "upload_id is required", ts)
      else
        let taskID := "task-" +:+ decimal (nanos c) in
        let ts' := <[taskID := mkTask taskID "queued" "Arquivo recebido e enviado para scan" (created c)]> ts in
        let resp := mkUploadCompleteResp "queued_scan"
          "Arquivo recebido e enviado para scan. Após aprovação, será movido para o File Server." in
        (json_response StatusOK (UploadCompleteResp_json resp), ts')
  end.

(** The creation time is printed as the text it already is. *)
Definition task_json (t : Task) : json :=
  JObj [("id", JStr (ID t)); ("status", JStr (Status t)); ("message", JStr (Message t)); ("created", JNum (Created t))].

Definition taskStatusHandler (id : string) (ts : task_table) : http_response * task_table :=
  match ts !! id with
  | None => (http_error StatusNotFound "task not found", ts)
  | Some t => (json_response StatusOK (task_json t), ts)
  end.

(** The requests of the router, and a server that handles them one critical section after the
    other, as the lock of the table orders them. *)
Inductive api_request :=
  | Health
  | CreateFolder (body : string)
  | UploadInitiate (body : string)
  | UploadComplete (body : string)
  | TaskStatus (id : string).

Definition serve (c : clock) (r : api_request) (ts : task_table) : http_response * task_table :=
  match r with
  | Health => healthHandler ts
  | CreateFolder body => createFolderHandler c body ts
  | UploadInitiate body => uploadsInitiateHandler c body ts
  | UploadComplete body => uploadsCompleteHandler c body ts
  | TaskStatus id => taskStatusHandler id ts
  end.

(** A route of the gorilla router: a path template, a method, and the handler's request, made
    from the path variables and the body. *)
Record route := mkRoute { template : string; method : string; handler : gmap string string → string → api_request }.

Definition router : list route := [
  mkRoute "/health" "GET" (fun _ _ => Health);
  mkRoute "/create-folder" "POST" (fun _ body => CreateFolder body);
  mkRoute "/uploads/initiate" "POST" (fun _ body => UploadInitiate body);
  mkRoute "/uploads/complete" "POST" (fun _ body => UploadComplete body);
  mkRoute "/tasks/{id}" "GET" (fun vars _ => TaskStatus (default "" (vars !! "id")))
].

Section Routing.
(** [mux.Route.Match] on a path template: the path variables, if it matches. *)
Context (match_path : string → string → option (gmap string string)).

Definition StatusMethodNotAllowed := 405.

(** The first route whose template and method match; a template that matches with another
    method makes the answer 405 instead of 404. *)
Fixpoint dispatch_route (rs : list route) (mismatch : bool) (meth path body : string) : nat + api_request :=
  match rs with
  | [] => inl (if mismatch then StatusMethodNotAllowed else StatusNotFound)
  | r :: rs' =>
      match match_path (template r) path with
      | None => dispatch_route rs' mismatch meth path body
      | Some vars =>
          if bool_decide (method r = meth) then inr (handler r vars body)
          else dispatch_route rs' true meth path body
      end
  end.

(** What the router itself answers. *)
Definition route_error (code : nat) : http_response :=
  if bool_decide (code = StatusNotFound) then http_error StatusNotFound "404 page not found"
  else mkHttpResp code "" "".

Definition serve_request (c : clock) (meth path body : string) (ts : task_table) : http_response * task_table :=
  match dispatch_route router false meth path body with
  | inl code => (route_error code, ts)
  | inr r => serve c r ts
  end.

(** Requests with the times at which they are handled. *)
Fixpoint serve_all (rs : list (clock * (string * string * string))) (ts : task_table) : task_table :=
  match rs with
  | [] => ts
  | (c, (meth, path, body)) :: rs' => serve_all rs' (serve_request c meth path body ts).2
  end.

(** What the documentation of the router says of the templates in use: one without variables
    matches itself only, and a variable matches a non-empty path element. *)
Class RouterLaws := {
  match_literal t p : Contains t "{" = false → match_path t p = if bool_decide (p = t) then Some ∅ else None;
  match_task_id id : noslash id → id ≠ "" → match_path "/tasks/{id}" ("/tasks/" +:+ id) = Some {["id" := id]}
}.

End Routing.

(** ** Properties *)

(** The table only grows, and an entry changes only when its id is given out again. *)
Lemma serve_keeps c r ts id t :
  ts !! id = Some t → id ≠ "task-" +:+ decimal (nanos c) → (serve c r ts).2 !! id = Some t.
Proof.
  intros Ht Hid. destruct r; simpl; try done.
  - unfold createFolderHandler. repeat case_match; simpl; try done. by rewrite lookup_insert_ne.
  - unfold uploadsInitiateHandler. by case_match.
  - unfold uploadsCompleteHandler. repeat case_match; simpl; try done. by rewrite lookup_insert_ne.
  - unfold taskStatusHandler. by case_match.
Qed.

Section Follow.
Context (match_path : string → string → option (gmap string string)) `{!RouterLaws match_path}.
Local Abbreviation serve_request := (serve_request match_path).
Local Abbreviation serve_all := (serve_all match_path).
Local Abbreviation dispatch_route := (dispatch_route match_path).

Lemma serve_all_keeps rs ts id t :
  ts !! id = Some t → Forall (fun cr => id ≠ "task-" +:+ decimal (nanos cr.1)) rs →
  serve_all rs ts !! id = Some t.
Proof using.
  intros Ht Hrs. revert ts Ht. induction Hrs as [|[c [[meth path] body]] rs Hid _ IH]; intros ts Ht; [done|].
  cbn [serve_all]. apply IH. unfold serve_request. destruct (dispatch_route _ _ _ _ _); [done|]. by apply serve_keeps.
Qed.

Lemma noslash_decimal z : noslash (decimal z).
Proof using. unfold decimal. case_match; [apply noslash_append; [done|]|]; apply noslash_pretty. Qed.

(** The routes a client uses to follow up. *)
Lemma route_create body : dispatch_route router false "POST" "/create-folder" body = inr (CreateFolder body).
Proof using RouterLaws0. cbn [router dispatch_route template]. by rewrite !match_literal by done. Qed.

Lemma route_task id body :
  noslash id → id ≠ "" → dispatch_route router false "GET" ("/tasks/" +:+ id) body = inr (TaskStatus id).
Proof using RouterLaws0.
  intros Hs Hne. cbn [router dispatch_route template]. rewrite !match_literal by done.
  do 4 (rewrite bool_decide_eq_false_2 by done). rewrite match_task_id by done. cbn [method handler].
  rewrite bool_decide_eq_true_2 by done. by rewrite lookup_singleton_eq.
Qed.

(** C35: An accepted folder request can be followed up: the id in the answer to POST
    /create-folder names a task that every later GET /tasks/id finds, queued, whatever other
    requests are handled in between, as long as the clock does not repeat its instant. *)
Theorem createFolder_trackable c c' body ts rs resp ts' :
  serve_request c "POST" "/create-folder" body ts = (resp, ts') → resp_status resp = StatusAccepted →
  let id := "task-" +:+ decimal (nanos c) in
  Forall (fun cr => id ≠ "task-" +:+ decimal (nanos cr.1)) rs →
  (∃ msg, resp = json_response StatusAccepted (CreateFolderResp_json (mkCreateFolderResp "queued" id msg))) ∧
  serve_request c' "GET" ("/tasks/" +:+ id) "" (serve_all rs ts') =
    (json_response StatusOK (task_json (mkTask id "queued" "Task queued for folder creation" (created c))),
     serve_all rs ts').
Proof using RouterLaws0.
  intros Hc Hs id Hrs. unfold serve_request in *. rewrite route_create in Hc. cbn [serve] in Hc.
  unfold createFolderHandler in Hc.
  destruct (decode_CreateFolderReq body) as [req|]; [|by simplify_eq].
  case_bool_decide; [by simplify_eq|]. injection Hc as <- <-. split; [by eexists|].
  rewrite route_task; [|by apply (noslash_append "task-"), noslash_decimal|done]. cbn [serve].
  unfold taskStatusHandler. fold id.
  rewrite (serve_all_keeps rs _ id (mkTask id "queued" "Task queued for folder creation" (created c)));
    [done|apply lookup_insert_eq|done].
Qed.
End Follow.

(** *** Sizes *)

Definition is_int64 (z : Z) : Prop := (- 2 ^ 63 <= z < 2 ^ 63)%Z.

Lemma digits_value_pretty_go (n : N) s : digits_value (pretty_N_go n s) 0 = digits_value s (Z.of_N n).
Proof.
  revert s. induction (N.lt_wf_0 n) as [n _ IH]; intros s.
  assert (n = 0 ∨ 0 < n)%N as [->|Hn] by lia; [by rewrite pretty_N_go_0|].
  rewrite pretty_N_go_step, IH by (done || by apply N.div_lt).
  assert (∀ x acc, (x < 10)%N → digits_value (String (pretty_N_char x) s) acc = digits_value s (acc * 10 + Z.of_N x)) as ->.
  { intros x acc Hx. rewrite <- (N2Nat.id x) in *. revert Hx. generalize (N.to_nat x). intros k Hk.
    do 10 (destruct k as [|k]; [done|]). lia. }
  - f_equal. rewrite N2Z.inj_div, N2Z.inj_mod. pose proof (Z.div_mod (Z.of_N n) 10). lia.
  - by apply N.mod_lt.
Qed.

Lemma digits_value_pretty (n : N) : digits_value (pretty n) 0 = Some (Z.of_N n).
Proof.
  unfold pretty, pretty_N. case_decide; [by subst|]. by rewrite digits_value_pretty_go.
Qed.

Lemma pretty_no_sign (n : N) : HasPrefix (pretty n) "-" = false ∧ pretty n ≠ "".
Proof.
  pose proof (digits_value_pretty n) as Hd. destruct (pretty n) as [|a s] eqn:E; [|split; [|done]].
  - exfalso. assert (pretty 0%N = "0") as H0 by done. destruct n as [|p]; [by rewrite E in H0|].
    simpl in Hd. injection Hd. lia.
  - destruct (decide (a = "-"%char)) as [->|Ha]; [done|].
    apply not_true_iff_false. rewrite HasPrefix_spec. by intros [? [= ??]].
Qed.

(** The literal of an integer is read as that integer when it is an int64, and refused when it
    is not. *)
Lemma int64_literal_decimal z : int64_literal (decimal z) = if decide (is_int64 z) then Some z else None.
Proof.
  assert ((- 2 ^ 63 <=? z)%Z && (z <? 2 ^ 63)%Z = bool_decide (is_int64 z)) as Hb.
  { apply eq_true_iff_eq. rewrite bool_decide_eq_true, andb_true_iff, Z.leb_le, Z.ltb_lt. done. }
  unfold int64_literal, decimal. destruct (Z.ltb_spec z 0).
  - cbn [HasPrefix]. simpl. destruct (pretty_no_sign (Z.to_N (- z))) as [_ Hne].
    rewrite bool_decide_eq_false_2 by done. rewrite digits_value_pretty. cbn [mbind option_bind].
    rewrite Z2N.id, Z.opp_involutive by lia. rewrite Hb. by repeat case_decide; case_bool_decide.
  - destruct (pretty_no_sign (Z.to_N z)) as [-> Hne].
    rewrite bool_decide_eq_false_2 by done. rewrite digits_value_pretty. cbn [mbind option_bind].
    rewrite Z2N.id by lia. rewrite Hb. by repeat case_decide; case_bool_decide.
Qed.

Lemma int64_literal_bounds s z : int64_literal s = Some z → is_int64 z.
Proof.
  unfold int64_literal. destruct (if HasPrefix s "-" then _ else _) as [neg d]. case_bool_decide; [done|].
  destruct (digits_value d 0) as [n|]; [|done]. cbn [mbind option_bind]. case_match eqn:E; [|done].
  intros [= <-]. unfold is_int64. go_bool. lia.
Qed.

Lemma int_field_bounds name fs acc z : is_int64 acc → int_field name fs acc = Some z → is_int64 z.
Proof.
  revert acc. induction fs as [|[k j] fs IH]; intros acc Hacc; cbn [int_field]; [by intros [= <-]|].
  destruct (same_field name k); [|by apply IH]. destruct j; try done; [by apply IH|].
  destruct (int64_literal lit) as [n|] eqn:E; [|done]. cbn [mbind option_bind].
  apply IH. by eapply int64_literal_bounds.
Qed.

(** A member with an integer that is no int64 fails the whole request. *)
Lemma int_field_overflow name fs acc k z :
  (k, JNum (decimal z)) ∈ fs → same_field name k = true → ¬ is_int64 z → int_field name fs acc = None.
Proof.
  intros Hin Hk Hz. revert acc. induction fs as [|[k' j] fs IH]; intros acc; [by apply elem_of_nil in Hin|].
  cbn [int_field]. apply elem_of_cons in Hin as [[= <- <-]|Hin].
  - rewrite Hk, int64_literal_decimal. by rewrite decide_False.
  - specialize (IH Hin). destruct (same_field name k'); [|done]. destruct j; try done.
    destruct (int64_literal lit); [|done]. apply IH.
Qed.

(** C31: The size of an upload is an int64, exactly. Every request that POST /uploads/initiate
    accepts has a size between -2^63 and 2^63 - 1; a request with an integer size that is no
    int64 is refused with 400 and changes nothing, it is never wrapped; and an integer size
    that is an int64 arrives unchanged. *)
Theorem UploadInitiate_size c body ts fs :
  Decode body = Some fs →
  (∀ req, decode_UploadInitiateReq body = Some req → is_int64 (Size req)) ∧
  (∀ k z, (k, JNum (decimal z)) ∈ fs → same_field "size" k = true → ¬ is_int64 z →
     uploadsInitiateHandler c body ts = (http_error StatusBadRequest "invalid json", ts)) ∧
  (∀ t f z, fs = [("target_path", JStr t); ("filename", JStr f); ("size", JNum (decimal z))] → is_int64 z →
     decode_UploadInitiateReq body = Some (mkUploadInitiateReq t f z)).
Proof.
  intros Hd. unfold uploadsInitiateHandler, decode_UploadInitiateReq. rewrite Hd. cbn [mbind option_bind]. split_and!.
  - intros req. destruct (string_field "target_path" fs "") as [t|]; [|done].
    destruct (string_field "filename" fs "") as [f|]; [|done]. cbn [mbind option_bind].
    destruct (int_field "size" fs 0) as [z|] eqn:E; [|done]. intros [= <-]. cbn [Size].
    eapply int_field_bounds; [|done]. by unfold is_int64.
  - intros k z Hin Hk Hz. rewrite (int_field_overflow "size" fs 0 k z) by done.
    by destruct (string_field "target_path" fs ""), (string_field "filename" fs "").
  - intros t f z -> Hz. cbn [string_field int_field].
    change (same_field "target_path" "target_path") with true. change (same_field "target_path" "filename") with false.
    change (same_field "target_path" "size") with false. change (same_field "filename" "target_path") with false.
    change (same_field "filename" "filename") with true. change (same_field "filename" "size") with false.
    change (same_field "size" "target_path") with false. change (same_field "size" "filename") with false.
    change (same_field "size" "size") with true. cbv iota. rewrite int64_literal_decimal, decide_True by done. done.
Qed.

Definition big_body (z : Z) : string :=
  print_json (JObj [("target_path", JStr "/in"); ("filename", JStr "f"); ("size", JNum (decimal z))]).

Lemma UploadInitiate_size_witness :
  uploadsInitiateHandler (mkClock 1 "now") (big_body (2 ^ 63)) ∅ = (http_error StatusBadRequest "invalid json", ∅) ∧
  decode_UploadInitiateReq (big_body (2 ^ 63 - 1)) = Some (mkUploadInitiateReq "/in" "f" (2 ^ 63 - 1)).
Proof.
  split.
  - apply (UploadInitiate_size (mkClock 1 "now") (big_body (2 ^ 63)) ∅
      [("target_path", JStr "/in"); ("filename", JStr "f"); ("size", JNum (decimal (2 ^ 63)))]) with (k := "size") (z := (2 ^ 63)%Z).
    + vm_compute. reflexivity.
    + right. right. left.
    + reflexivity.
    + unfold is_int64. lia.
  - apply (UploadInitiate_size (mkClock 1 "now") (big_body (2 ^ 63 - 1)) ∅
      [("target_path", JStr "/in"); ("filename", JStr "f"); ("size", JNum (decimal (2 ^ 63 - 1)))]).
    + vm_compute. reflexivity.
    + reflexivity.
    + unfold is_int64. lia.
Defined.

(** A router for the templates in use. *)
Definition toy_match (t p : string) : option (gmap string string) :=
  if Contains t "{" then
    if HasPrefix p "/tasks/" then
      let id := sdrop 7 p in
      if bool_decide (noslash id ∧ id ≠ "") then Some {["id" := id]} else None
    else None
  else if bool_decide (p = t) then Some ∅ else None.

#[local] Instance toy_router : RouterLaws toy_match.
Proof.
  split.
  - intros t p Ht. unfold toy_match. by rewrite Ht.
  - intros id Hs Hne. unfold toy_match. simpl. by rewrite bool_decide_eq_true_2.
Qed.

Definition sample_body : string := print_json (JObj [("parent_path", JStr "/projects"); ("name", JStr "new")]).

Lemma createFolder_trackable_witness :
  let c := mkClock 17 "now" in
  let rs := [(mkClock 18 "later", ("POST", "/uploads/complete", sample_body));
             (mkClock 19 "last", ("POST", "/create-folder", sample_body))] in
  let st := serve_request toy_match c "POST" "/create-folder" sample_body ∅ in
  resp_status st.1 = StatusAccepted ∧
  serve_request toy_match (mkClock 20 "end") "GET" ("/tasks/" +:+ "task-" +:+ decimal 17) "" (serve_all toy_match rs st.2) =
    (json_response StatusOK (task_json (mkTask ("task-" +:+ decimal 17) "queued" "Task queued for folder creation" "now")),
     serve_all toy_match rs st.2).
Proof.
  split; [by vm_compute|].
  apply (createFolder_trackable toy_match (mkClock 17 "now") (mkClock 20 "end") sample_body ∅ _
    (serve_request toy_match (mkClock 17 "now") "POST" "/create-folder" sample_body ∅).1).
  - apply surjective_pairing.
  - by vm_compute.
  - repeat constructor; vm_compute; congruence.
Defined.
End TaskApi.

(** ** The stub gRPC server *)

Module StubServer.
Section Server.
Context {W : Type}.

(** The fields that the code does not set have their zero values. *)
Definition CreateFolder (ctx : context) (req : Pb.CreateFolderRequest) : prog W Pb.CreateFolderResponse :=
  ret (Pb.mkCreateFolderResponse false "tsk_stub_1" "queued" "queued").
Definition InitiateUpload (ctx : context) (req : Pb.InitiateUploadRequest) : prog W Pb.InitiateUploadResponse :=
  ret (Pb.mkInitiateUploadResponse "upl_stub_1" "https://storage.example/upload/upl_stub_1").
Definition CompleteUpload (ctx : context) (req : Pb.CompleteUploadRequest) : prog W Pb.CompleteUploadResponse :=
  ret (Pb.mkCompleteUploadResponse false "tsk_upload_1" "queued").
Definition GetTask (ctx : context) (req : Pb.GetTaskRequest) : prog W Pb.GetTaskResponse :=
  ret (Pb.mkGetTaskResponse (Pb.gtr_TaskId req) "completed" 100 "done" "").

Definition server : Pb.FileEngineServer W := Pb.mkFileEngineServer CreateFolder InitiateUpload CompleteUpload GetTask.
End Server.
End StubServer.
