(* ===== verification/Main.v ===== *)
(** * Processes

    [internal/logger/logger.go] and the [main] functions of [cmd/]: what a process does from
    its start to its exit, as a function of the events it meets. Goroutines that serve, signals
    and timers appear as events in the order in which they happen; the servers behind them are
    modelled in their own files. *)
From S2P Require Import Prelude GoStrings Acl Jwt Authz PosixFs Storage S3 Gcs Queue Server Rpc Config Generated Cmd.

#[local] Open Scope string_scope.
#[local] Open Scope nat_scope.
#[local] Open Scope list_scope.

(** ** Output and exit *)

(** The lines a process has logged (without their time stamps) and, once it has ended, its
    exit status. *)
Record run_state := mkRun { lines : list string; exited : option nat }.

Definition start : run_state := mkRun [] None.

(** A step of the process; nothing happens after the exit. *)
Definition live (f : run_state → run_state) (p : run_state) : run_state :=
  match exited p with Some _ => p | None => f p end.

Definition println (s : string) : run_state → run_state := live (fun p => mkRun (lines p ++ [s]) None).
Definition exit (code : nat) : run_state → run_state := live (fun p => mkRun (lines p) (Some code)).

(** [log.Fatal] and its variants. *)
Definition fatal (s : string) (p : run_state) : run_state := exit 1 (println s p).

(** ** Logger *)

Module Logger.
Record Logger := mkLogger { level : string }.

Definition New (level : string) : Logger := mkLogger (ToLower level).

(** The arguments as they are printed. *)
Definition Info (l : Logger) (v : string) : run_state → run_state := println v.
Definition Infof (l : Logger) (v : string) : run_state → run_state := println v.
Definition Fatal (l : Logger) (v : string) : run_state → run_state := fatal v.
Definition Fatalf (l : Logger) (v : string) : run_state → run_state := fatal v.
Definition Debug (l : Logger) (v : string) (p : run_state) : run_state :=
  if bool_decide (level l = "debug") then println v p else p.
Definition Debugf (l : Logger) (v : string) (p : run_state) : run_state :=
  if bool_decide (level l = "debug") then println v p else p.
End Logger.

(** ** Events *)

Inductive event :=
  (** The goroutine of a server returns. *)
  | HTTPDone (r : result unit)
  | GRPCDone (r : result unit)
  (** A signal the process asked for arrives. *)
  | Signal
  (** The sleep or the graceful stop that follows the first signal is over. *)
  | Elapsed (r : result unit).

(** What a process does once its servers run: on the end of each server, on the first signal,
    and when it has stopped. *)
Record waiting := mkWaiting {
  on_http : result unit → run_state → run_state;
  on_grpc : result unit → run_state → run_state;
  on_signal : run_state → run_state;
  on_stopped : result unit → run_state → run_state
}.

(** The servers go on while the process waits and while it stops. Later signals stay in the
    channel. *)
Fixpoint await (h : waiting) (stopping : bool) (evs : list event) (p : run_state) : run_state :=
  match evs with
  | [] => p
  | HTTPDone r :: evs' => await h stopping evs' (on_http h r p)
  | GRPCDone r :: evs' => await h stopping evs' (on_grpc h r p)
  | Signal :: evs' => if stopping then await h true evs' p else await h true evs' (on_signal h p)
  | Elapsed r :: evs' => if stopping then exit 0 (on_stopped h r p) else await h false evs' p
  end.

Section Mains.
(** The text of an error. *)
Context (error_text : error → string).

(** A server goroutine that ends the process with its error. *)
Definition fatal_on_error (msg : string) (r : result unit) (p : run_state) : run_state :=
  match r with Ok _ => p | Err e => fatal (msg +:+ error_text e) p end.

(** ** [cmd/file-engine] *)

Section FileEngine.
Context {W3 Wg R aws : Type}.
Context (LoadDefaultConfig : list S3.load_option → result aws) (NewFromConfigS3 : aws → option (string * bool) → s3_client W3).
Context (NewGcsClient : result (gcs_client Wg)) (NewRedisClient : string → redis_client R) (dir_size : Z).
Context (NewPool : string → result string).

Definition file_engine_waiting (logg : Logger.Logger) : waiting := mkWaiting
  (fatal_on_error "http server: ")
  (fatal_on_error "grpc server: ")
  (Logger.Info logg "shutdown signal received")
  (fun _ => Logger.Info logg "exiting").

Definition file_engine_main `{JwtLib} (env : environment) (evs : list event) : run_state :=
  let cfg := LoadFromEnv env in
  let logg := Logger.New (LogLevel cfg) in
  let container := BuildContainer env cfg in
  match container_Servers LoadDefaultConfig NewFromConfigS3 NewGcsClient NewRedisClient dir_size NewPool container with
  | Err e => Logger.Fatalf logg (error_text e) start
  | Ok _ => await (file_engine_waiting logg) false evs start
  end.

(** ** [cmd/worker] *)

Definition worker_waiting (logg : Logger.Logger) : waiting := mkWaiting
  (fun _ p => p) (fun _ p => p) (Logger.Info logg "worker stopping") (fun _ p => p).

Definition worker_main (env : environment) (evs : list event) : run_state :=
  let logg := Logger.New (LogLevel (LoadFromEnv env)) in
  match worker_setup LoadDefaultConfig NewFromConfigS3 NewGcsClient NewRedisClient dir_size env with
  | Err e => Logger.Fatalf logg (error_text e) start
  | Ok _ => await (worker_waiting logg) false evs start
  end.

(** What the worker of the process does to Redis and to the storage when the signal arrives
    in its round [n], counted from 0: the context of that round and of later ones is done. *)
Definition worker_run (env : environment) (n : nat) : prog (R * stores) unit :=
  match worker_setup LoadDefaultConfig NewFromConfigS3 NewGcsClient NewRedisClient dir_size env with
  | Err e => throw e
  | Ok wk => Tasks.Start wk (S n) (fun i => mkCtx None None (bool_decide (n ≤ i)))
  end.
End FileEngine.

(** ** [cmd/gateway] *)

(** [mux] is the empty gateway mux; [ListenAndServe] serves until it fails. *)
Definition gateway_run {M : Type} (ListenAndServe : string → M → result unit) (mux : M) (p : run_state)
    : result unit * run_state :=
  match Pb.RegisterFileEngineHandlerFromEndpoint mux "localhost:50051" with
  | Err e => (Err e, p)
  | Ok mux => (ListenAndServe ":8080" mux, println "gRPC-Gateway listening on :8080" p)
  end.

Definition gateway_main {M : Type} (ListenAndServe : string → M → result unit) (mux : M) : run_state :=
  let '(r, p) := gateway_run ListenAndServe mux start in
  match r with Ok _ => exit 0 p | Err e => fatal (error_text e) p end.

(** ** [cmd/server] *)

Definition stub_waiting : waiting := mkWaiting
  (fun _ p => p) (fatal_on_error "gRPC serve error: ") (println "shutting down") (fun _ p => p).

(** The gRPC server of the process, with the stub registered. *)
Definition stub_server {G : Type} (srv : G) : G := Pb.RegisterFileEngineServer srv (StubServer.server (W := unit)).

(** [grpcAddr] is the value of the flag, ":50051" if it is not given. *)
Definition stub_main {L : Type} (Listen : string → result L) (grpcAddr : string) (evs : list event) : run_state :=
  match Listen grpcAddr with
  | Err e => fatal ("failed to listen: " +:+ error_text e) start
  | Ok _ => await stub_waiting false evs (println ("gRPC server listening on " +:+ grpcAddr) start)
  end.

(** ** [cmd/main.go] *)

(** The error of [ListenAndServe] after a shutdown. *)
Definition ErrServerClosed : error := ErrNew "http: Server closed".

Definition task_api_waiting : waiting := mkWaiting
  (fun r p => if bool_decide (r = Err ErrServerClosed) then p else fatal_on_error "listen: " r p)
  (fatal_on_error "gRPC serve error: ")
  (println "Shutting down servers...")
  (fun r p => match r with
              | Err e => fatal ("Server Shutdown Failed:" +:+ error_text e) p
              | Ok _ => println "Server exited properly" p
              end).

(** The gRPC goroutine listens first. *)
Definition task_api_main {L : Type} (Listen : string → result L) (evs : list event) : run_state :=
  let p := match Listen ":50051" with
           | Err e => fatal ("failed to listen: " +:+ error_text e) start
           | Ok _ => println "gRPC server listening on :50051 (note: proto stubs must be generated for gRPC to work)" start
           end in
  await task_api_waiting false evs (println "HTTP server listening on :8080" p).
End Mains.

(** ** Properties *)

(** A server gave up. *)
Definition failing (ev : event) : bool :=
  match ev with HTTPDone (Err _) | GRPCDone (Err _) => true | _ => false end.
Definition is_signal (ev : event) : bool := match ev with Signal => true | _ => false end.
Definition is_elapsed (ev : event) : bool := match ev with Elapsed _ => true | _ => false end.

(** Events after which a server process still runs, before a signal and after one. *)
Definition serving (evs : list event) : Prop := Forall (fun ev => failing ev = false ∧ is_signal ev = false) evs.
Definition stopping (evs : list event) : Prop := Forall (fun ev => failing ev = false ∧ is_elapsed ev = false) evs.

(** The fate of a process: it runs; it was stopped by a signal; or a server gave up first. *)
Definition fate (evs : list event) (code : option nat) : Prop :=
  match code with
  | None => serving evs ∨ ∃ pre mid, evs = pre ++ Signal :: mid ∧ serving pre ∧ stopping mid
  | Some 0 => ∃ pre mid r post, evs = pre ++ Signal :: mid ++ Elapsed r :: post ∧ serving pre ∧ stopping mid
  | Some 1 => ∃ pre ev post, evs = pre ++ ev :: post ∧ failing ev = true ∧
                (serving pre ∨ ∃ pre1 mid, pre = pre1 ++ Signal :: mid ∧ serving pre1 ∧ stopping mid)
  | _ => False
  end.

Section Fate.
Context (error_text : error → string) (logg : Logger.Logger).
#[local] Abbreviation h := (file_engine_waiting error_text logg).

Lemma await_exited h' b evs p : (∀ r p, is_Some (exited p) → on_http h' r p = p ∧ on_grpc h' r p = p ∧ on_signal h' p = p ∧ on_stopped h' r p = p) →
  is_Some (exited p) → await h' b evs p = p.
Proof.
  intros Hh. revert b. induction evs as [|ev evs IH]; intros b Hp; [done|].
  destruct ev as [r|r| |r]; cbn [await].
  - rewrite (proj1 (Hh r p Hp)). by apply IH.
  - rewrite (proj1 (proj2 (Hh r p Hp))). by apply IH.
  - destruct b; [by apply IH|]. rewrite (proj1 (proj2 (proj2 (Hh (Ok tt) p Hp)))). by apply IH.
  - destruct b; [|by apply IH]. rewrite (proj2 (proj2 (proj2 (Hh r p Hp)))). unfold exit, live. by destruct Hp as [? ->].
Qed.

Lemma file_engine_exited r p : is_Some (exited p) → on_http h r p = p ∧ on_grpc h r p = p ∧ on_signal h p = p ∧ on_stopped h r p = p.
Proof.
  intros [c Hc]. cbn. unfold fatal_on_error, Logger.Info, fatal, println, exit, live. rewrite !Hc. by destruct r; rewrite ?Hc.
Qed.

Lemma await_file_engine_exited b evs p : is_Some (exited p) → exited (await h b evs p) = exited p.
Proof. intros Hp. by rewrite (await_exited h b evs p file_engine_exited Hp). Qed.

(** The fate after the signal. *)
Lemma await_stopping evs p :
  exited p = None →
  match exited (await h true evs p) with
  | None => stopping evs
  | Some 0 => ∃ mid r post, evs = mid ++ Elapsed r :: post ∧ stopping mid
  | Some 1 => ∃ mid ev post, evs = mid ++ ev :: post ∧ failing ev = true ∧ stopping mid
  | _ => False
  end.
Proof.
  revert p. induction evs as [|ev evs IH]; intros p Hp; cbn [await]; [rewrite Hp; constructor|].
  assert (∀ p', failing ev = false → is_elapsed ev = false → exited p' = None →
    match exited (await h true evs p') with
    | None => stopping (ev :: evs)
    | Some 0 => ∃ mid r post, ev :: evs = mid ++ Elapsed r :: post ∧ stopping mid
    | Some 1 => ∃ mid ev' post, ev :: evs = mid ++ ev' :: post ∧ failing ev' = true ∧ stopping mid
    | _ => False
    end) as Hstep.
  { intros p' Hf He Hp'. specialize (IH p' Hp'). destruct (exited (await h true evs p')) as [[|[|]]|]; [..|done|].
    - destruct IH as (mid & r & post & -> & Hm). exists (ev :: mid), r, post. split; [done|]. by constructor.
    - destruct IH as (mid & ev' & post & -> & Hf' & Hm). exists (ev :: mid), ev', post. split_and!; [done..|]. by constructor.
    - by constructor. }
  assert (∀ msg e, exited (await h true evs (fatal msg p)) = Some 1 ∧ failing (HTTPDone (Err e)) = true) as Hfatal.
  { intros msg e. assert (exited (fatal msg p) = Some 1) as E by (unfold fatal, println, exit, live; by rewrite Hp).
    split; [|done]. rewrite await_file_engine_exited by by rewrite E. done. }
  destruct ev as [[[]|e]|[[]|e]| |r]; try by apply Hstep.
  - change (on_http h (Err e) p) with (fatal ("http server: " +:+ error_text e)%string p).
    destruct (Hfatal ("http server: " +:+ error_text e)%string e) as [-> _].
    exists [], (HTTPDone (Err e)), evs. split_and!; [done..|constructor].
  - change (on_grpc h (Err e) p) with (fatal ("grpc server: " +:+ error_text e)%string p).
    destruct (Hfatal ("grpc server: " +:+ error_text e)%string e) as [-> _].
    exists [], (GRPCDone (Err e)), evs. split_and!; [done..|constructor].
  - unfold exit, live. cbn. unfold Logger.Info, println, live. rewrite Hp. cbn. exists [], r, evs. split; [done|constructor].
Qed.

Lemma await_fate evs p : exited p = None → fate evs (exited (await h false evs p)).
Proof.
  revert p. induction evs as [|ev evs IH]; intros p Hp; cbn [await]; [rewrite Hp; left; constructor|].
  assert (∀ c, failing ev = false → is_signal ev = false → fate evs c → fate (ev :: evs) c) as Hstep.
  { intros [[|[|]]|] Hf Hs; simpl; [..|done|].
    - intros (pre & mid & r & post & -> & Hpre & Hmid). exists (ev :: pre), mid, r, post. split_and!; [done|by constructor|done].
    - intros (pre & ev' & post & -> & Hf' & Hpre). exists (ev :: pre), ev', post. split_and!; [done..|].
      destruct Hpre as [Hpre|(pre1 & mid & -> & Hpre & Hmid)]; [left; by constructor|].
      right. exists (ev :: pre1), mid. split_and!; [done|by constructor|done].
    - intros [Hpre|(pre & mid & -> & Hpre & Hmid)]; [left; by constructor|].
      right. exists (ev :: pre), mid. split_and!; [done|by constructor|done]. }
  assert (∀ msg, failing ev = true → fate (ev :: evs) (exited (await h false evs (fatal msg p)))) as Hfatal.
  { intros msg Hf. assert (exited (fatal msg p) = Some 1) as E by (unfold fatal, println, exit, live; by rewrite Hp).
    rewrite await_file_engine_exited, E by by rewrite E. exists [], ev, evs. split_and!; [done..|]. left. constructor. }
  destruct ev as [[[]|e]|[[]|e]| |r]; try (by apply Hstep, IH); try by apply Hfatal.
  assert (exited (on_signal h p) = None) as Hp' by (cbn; unfold Logger.Info, println, live; by rewrite Hp).
  pose proof (await_stopping evs (on_signal h p) Hp') as Hst.
  destruct (exited (await h true evs (on_signal h p))) as [[|[|]]|]; [..|done|].
  - destruct Hst as (mid & r & post & -> & Hmid). exists [], mid, r, post. split_and!; [done|constructor|done].
  - destruct Hst as (mid & ev & post & -> & Hf & Hmid). exists (Signal :: mid), ev, post. split_and!; [done..|].
    right. exists [], mid. split_and!; [done|constructor|done].
  - right. exists [], evs. split_and!; [done|constructor|done].
Qed.
End Fate.

(** C37: How the server process ends. If its servers cannot be built it logs why, once, and
    exits with status 1. Otherwise its fate is decided by the events, whatever their order: it
    runs until a server gives up (status 1, even while it is stopping) or a signal arrives; it
    exits with status 0 exactly when it was stopped by a signal, and the stop was over, before
    any server gave up; servers that return without an error and further signals change
    nothing. *)
Theorem file_engine_main_fate `{JwtLib} {W3 Wg R aws : Type} error_text
    (LoadDefaultConfig : list S3.load_option → result aws) (NewFromConfigS3 : aws → option (string * bool) → s3_client W3)
    (NewGcsClient : result (gcs_client Wg)) (NewRedisClient : string → redis_client R) dir_size NewPool env evs :
  let p := file_engine_main error_text LoadDefaultConfig NewFromConfigS3 NewGcsClient NewRedisClient dir_size NewPool env evs in
  match container_Servers LoadDefaultConfig NewFromConfigS3 NewGcsClient NewRedisClient dir_size NewPool
          (BuildContainer env (LoadFromEnv env)) with
  | Err e => p = mkRun [error_text e] (Some 1)
  | Ok _ => fate evs (exited p)
  end.
Proof.
  intros p. unfold file_engine_main in p. cbv zeta in p.
  destruct (container_Servers _ _ _ _ _ _ _) as [s|e]; [|done]. by apply await_fate.
Qed.

(** Stopped by a signal, while the HTTP server returns and a second signal arrives. *)
Lemma fate_example :
  fate [Signal; HTTPDone (Ok tt); Signal; Elapsed (Ok tt); GRPCDone (Err ErrCanceled)] (Some 0).
Proof. exists [], [HTTPDone (Ok tt); Signal], (Ok tt), [GRPCDone (Err ErrCanceled)]. by repeat constructor. Qed.

(** With the stand-in for the generated code the stub server serves no method, and the gateway
    no route. *)
Lemma stub_server_empty {G : Type} (srv : G) : stub_server srv = srv.
Proof. done. Qed.

Lemma gateway_run_empty {M : Type} (ListenAndServe : string → M → result unit) mux p :
  (gateway_run ListenAndServe mux p).1 = ListenAndServe ":8080" mux.
Proof. done. Qed.

(** The debug lines are printed exactly at the level "debug", in any case. *)
Lemma Debug_level level v p :
  Logger.Debug (Logger.New level) v p = if decide (ToLower level = "debug") then println v p else p.
Proof. unfold Logger.Debug. cbn. by case_decide; case_bool_decide. Qed.
