(* ===== verification/System.v ===== *)
(** * The configured process

    The parts put together: the servers that a process builds from its environment, over a
    local disk, from the call of a client to the bytes on the disk and back. *)
From S2P Require Import Prelude GoStrings GoPath Acl Json JsonText Jwt Authz PosixFs LocalFs CrashLogic FsTriples FsRuns LocalFsProps Storage StorageLens LocalStorage LocalStorageProps Queue QueueProps S3 Gcs Server ServerProps Rpc RpcProps Config.

#[local] Open Scope string_scope.
#[local] Open Scope nat_scope.
#[local] Open Scope list_scope.
#[local] Open Scope go_scope.

(** ** From one client to another, on any backend *)

Section Clients.
Context `{ACLStore St} `{JwtLib} {S R : Type} (st : Storage S) (obj : S → string → option string).
Context `{spec : !StorageSpec st obj} `{!FileEngineService St S R}.
Local Abbreviation W := (sys St S R).

(** The caller of [ctx] is known and has the permission on the path. *)
Definition may (v : JWTVerifier) (acl : St) (ctx : context) (path : string) (perm : Permission) : Prop :=
  ∃ a, authenticate v ctx = Ok (WithAuthContext ctx a) ∧ Allowed acl a (normalize path) perm.

Definition upload_call (now : utc) (ctx : context) (path content : string) : rpc :=
  mkRpc ctx "/fileengine.FileEngine/UploadObject" (UploadObjectRequest path content) now.

Lemma may_permitted v (acl : St) c path perm :
  MethodPermission !! rpc_method c = Some perm → ExtractPath (rpc_req c) = Ok (normalize path) →
  may v acl (rpc_ctx c) path perm → permitted v acl c.
Proof using. intros Hm Hx (a & Ha & Hal). exists a, (normalize path), perm. exact (conj Ha (conj Hm (conj Hx Hal))). Qed.

(** A call of a caller with the permission is the run of the handler. *)
Lemma serve_unary_may (g : GRPCServer S R) fuel c path perm (w : W) :
  MethodPermission !! rpc_method c = Some perm → ExtractPath (rpc_req c) = Ok (normalize path) →
  path_fuel (normalize path) ≤ fuel → may (gs_Verifier g) (sys_acl w) (rpc_ctx c) path perm →
  serve_unary g fuel c w =
    invoke_unary (gs_Handler g) (rpc_now c) (identified (gs_Verifier g) c) (rpc_method c) (rpc_req c) w.
Proof using.
  intros Hm Hx Hf Hmay. pose proof (may_permitted _ _ _ _ _ Hm Hx Hmay) as Hp.
  assert (mapped c) as Hc by (exists perm; exact Hm). clear Hm.
  destruct (serve_unary_cases g fuel c w Hc) as [[_ E]|[Hno _]]; [|exact E|by destruct Hno].
  intros p. rewrite Hx. by intros [= <-].
Qed.

Lemma serve_upload q addr v fuel now ctx path content (w : W) :
  let g := NewGRPCServer addr v (NewGRPCHandler q (NewObjectService st)) in
  store_ok (R := R) st obj w → st_path path → path_fuel (normalize path) ≤ fuel → may v (sys_acl w) ctx path PermWrite →
  ∃ r w', serve_unary g fuel (upload_call now ctx path content) w = Some (r, w') ∧ store_ok st obj w' ∧
    sys_acl w' = sys_acl w ∧
    match r with
    | Ok resp => resp = RespUploadObject true ∧ obj (sys_store w') path = Some content
    | Err _ => obj (sys_store w') path = obj (sys_store w) path ∨ obj (sys_store w') path = Some content
    end.
Proof using spec.
  intros g Hw Hp Hf Hmay.
  rewrite (serve_unary_may g fuel (upload_call now ctx path content) path PermWrite) by done.
  set (ctx' := identified _ _). cbn [upload_call rpc_now rpc_method rpc_req].
  change (gs_Handler g) with (NewGRPCHandler q (NewObjectService st)).
  rewrite (invoke_unary_bound _ _ _ _ _ _ (bind_UploadObject _ _ _ _ _)).
  destruct (UploadObject_run st obj q ctx' path content w Hw Hp) as (r & w' & E & Hw' & Hacl & Hr).
  unfold bind. rewrite E. destruct r as [ok|e]; eexists _, w'; (split; [done|]); (split; [done|]);
    (split; [done|]); [|done]. destruct Hr as [-> ?]. done.
Qed.
End Clients.

(** ** The process of an environment *)

Section Process.
Context `{ACLStore St} `{JwtLib} {W3 Wg R aws : Type}.
Context (LoadDefaultConfig : list S3.load_option → result aws) (NewFromConfigS3 : aws → option (string * bool) → s3_client W3).
Context (NewGcsClient : result (gcs_client Wg)) (NewRedisClient : string → redis_client R) (dir_size : Z).
Context (NewPool : string → result string).
Context `{!FileEngineService St (stores (W3 := W3) (Wg := Wg)) R}.
Local Abbreviation W := (sys St (stores (W3 := W3) (Wg := Wg)) R).
Local Abbreviation servers_of env :=
  (container_Servers LoadDefaultConfig NewFromConfigS3 NewGcsClient NewRedisClient dir_size NewPool
     (BuildContainer env (LoadFromEnv env))).

(** The environment asks for local storage below an absolute directory. *)
Definition local_env (env : environment) (l : LocalStorage.LocalStorage) : Prop :=
  ToLower (TrimSpace (StorageBackend (LoadFromEnv env))) ∈ ["local"; ""] ∧
  l = LocalStorage.New (FileBaseRoot (LoadFromEnv env)) ∧ rooted (LocalStorage.base l) = true.

Definition local_storage l : Storage (stores (W3 := W3) (Wg := Wg)) :=
  zoom_storage disk_lens (LocalStorage.storage dir_size l).

Definition queue_of (env : environment) : Redisq.RedisQueue R :=
  Redisq.NewRedisQueue (NewRedisClient (RedisAddr (LoadFromEnv env))).

Lemma servers_of_local env l s :
  local_env env l → servers_of env = Ok s →
  ∃ v addr, GRPC s = NewGRPCServer addr v (NewGRPCHandler (queue_of env) (NewObjectService (local_storage l))).
Proof using.
  intros (Hb & -> & _) (b & v & acl & Eb & _ & _ & ->)%container_Servers_inv.
  rewrite NewFromConfig_local in Eb by done. injection Eb as <-. by eexists v, _.
Qed.

Lemma worker_of_local env l wk :
  local_env env l → worker_setup LoadDefaultConfig NewFromConfigS3 NewGcsClient NewRedisClient dir_size env = Ok wk →
  wk = Tasks.NewWorker (queue_of env) (Tasks.NewProcessorWithStorage (local_storage l)).
Proof using.
  intros (Hb & -> & _) (b & Eb%result_wrap_ok & [= <-])%result_bind_ok.
  unfold worker_storage in Eb. cbv zeta in Eb. rewrite NewFromConfig_local in Eb by done. by injection Eb as <-.
Qed.

(** C5: From a client to the disk and back. Take any environment that asks for local storage
    and in which the servers start, any disk without links, and any faults of the disk. A
    client who may write the path uploads an object, then a client who may read it downloads
    the path: both calls return, and when the download ends without an error it has delivered
    the uploaded content, if the upload was answered with success; if it was not, the old or
    the whole new content. The file at the place of the path below the configured base is the
    one that was written. *)
Theorem upload_reaches_disk env l s fuel now ctx ctx' path content send (w : W) :
  local_env env l → servers_of env = Ok s →
  let file (w : W) := local_obj l (disk (sys_store w)) path in
  nolinks (w_fs (disk (sys_store w))) → local_path l (w_rand (disk (sys_store w))) path →
  path_fuel (normalize path) ≤ fuel →
  may (gs_Verifier (GRPC s)) (sys_acl w) ctx path PermWrite →
  may (gs_Verifier (GRPC s)) (sys_acl w) ctx' path PermRead →
  ∃ r w1, serve_unary (GRPC s) fuel (upload_call now ctx path content) w = Some (r, w1) ∧
    match r with
    | Ok resp => resp = RespUploadObject true ∧ file w1 = Some content
    | Err _ => file w1 = file w ∨ file w1 = Some content
    end ∧
    ∃ str w2, serve_stream (GRPC s) fuel ctx' "/fileengine.FileEngine/DownloadObject"
                [Ok (DownloadObjectRequest path)] send w1 = Some (Ok str, w2) ∧
      (stream_status str = None → file w1 = Some (foldr String.append "" (chunks str))).
Proof.
  intros Henv Hs file Hn Hp Hf Hmw Hmr. destruct (servers_of_local env l s Henv Hs) as (v & addr & Eg).
  rewrite Eg in *. cbn [gs_Verifier NewGRPCServer] in Hmw, Hmr. destruct Henv as (_ & _ & Hroot).
  pose (spec := zoom_spec (disk_lens (W3 := W3) (Wg := Wg)) _ _ (StorageSpec0 := local_storage_spec dir_size l (w_rand (disk (sys_store w))) Hroot)).
  destruct (serve_upload (R := R) _ _ (spec := spec) (queue_of env) addr v fuel now ctx path content w) as (r & w1 & E & Hw1 & Hacl & Hr);
    [by split|done..|].
  exists r, w1. split; [done|]. split; [done|]. rewrite <- Hacl in Hmr.
  destruct Hmr as (a & Ha & Hal).
  destruct (serve_stream_run _ _ (spec := spec) (queue_of env) addr v fuel ctx' path [] send w1) as [(e & Ee & _)|(a' & Ea & Hcase)];
    [done..|by rewrite Ee in Ha|].
  rewrite Ha in Ea. assert (a' = a) as -> by by injection Ea.
  destruct Hcase as [[Hno _]|[_ (str & w2 & E2 & _ & Hstr)]]; [done|]. by exists str, w2.
Qed.
(** *** A folder, from the request to the disk *)

Section Folder.
Context (waiting : R → list string) (statuses : R → gmap string string).

Definition folder_call (now : utc) (ctx : context) (parent name by_ : string) : rpc :=
  mkRpc ctx "/fileengine.FileEngine/CreateFolder" (CreateFolderRequest parent name by_) now.

Lemma CreateFolder_on_disk l ctx path (st : stores (W3 := W3) (Wg := Wg)) :
  rooted (LocalStorage.base l) = true → quiet (disk st) → nolinks (w_fs (disk st)) → tree_ok (w_fs (disk st)) →
  only_dirs (w_fs (disk st)) (clean_comps (LocalStorage.full l path)) →
  ∃ st', st_CreateFolder (local_storage l) ctx path st = Some (Ok tt, st') ∧
    dirs_to (w_fs (disk st')) (clean_comps (LocalStorage.full l path)) ∧
    created_dirs (clean_comps (LocalStorage.full l path)) (w_fs (disk st)) (w_fs (disk st')).
Proof using.
  intros Hb Hq Hn Ht Ho. destruct (full_render l path Hb) as [Er Hnorm].
  destruct (MkdirAll_run (clean_comps (LocalStorage.full l path)) 493%N (disk st)) as (w' & E & _ & _ & _ & Hd & Hc & _);
    [done..|].
  exists (put disk_lens w' st). split; [|done]. apply zoom_run. simpl. unfold LocalStorage.CreateFolder. by rewrite Er.
Qed.

(** C6: A folder request becomes a folder. In an environment that asks for local storage, with
    Redis up and the disk in order, a caller who may write the path sends a folder request; it
    is answered with a task id; and the worker of the same environment, in its next round,
    creates the directory, with its missing parents, exactly at the place below the base that
    the request names, changes nothing else on the disk, and records success under the task id.
    A request without a parent or without a name is answered in the same way, but the worker
    does nothing for it and records a failure. The place is the one of the path that was
    authorized, provided that no white space surrounds the path of the request (otherwise see
    [authorized_location_blank]; for the entries that decide about it see
    [authorized_location]). *)
Theorem folder_reaches_disk env l s wk fuel now ctx ctx' parent name by_ (w : W) :
  let path := TrimSuffix parent "/" +:+ "/" +:+ name in
  let store := disk (sys_store w) in
  let target := clean_comps (LocalStorage.base l) ++ location path in
  local_env env l → servers_of env = Ok s →
  worker_setup LoadDefaultConfig NewFromConfigS3 NewGcsClient NewRedisClient dir_size env = Ok wk →
  RedisUp (NewRedisClient (RedisAddr (LoadFromEnv env))) waiting statuses →
  valid_utf8 parent → valid_utf8 name → valid_utf8 by_ →
  path_fuel (normalize path) ≤ fuel → may (gs_Verifier (GRPC s)) (sys_acl w) ctx path PermWrite →
  ctx_done ctx = false → ctx_done ctx' = false → waiting (sys_queue w) = [] → quiet store → nolinks (w_fs store) → tree_ok (w_fs store) → only_dirs (w_fs store) target →
  (TrimSpace path = path → target = clean_comps (LocalStorage.base l) ++ clean_comps (normalize path)) ∧
  ∃ resp w1, serve_unary (GRPC s) fuel (folder_call now ctx parent name by_) w = Some (Ok (RespCreateFolder resp), w1) ∧
    Status resp = "queued" ∧ sys_store w1 = sys_store w ∧
    ∃ r2 st2, Tasks.round wk ctx' (sys_queue w1, sys_store w1) = Some (Ok tt, (r2, st2)) ∧ waiting r2 = [] ∧
      if bool_decide (parent = "" ∨ name = "") then
        st2 = sys_store w ∧ statuses r2 = <["task:" +:+ TaskId resp := "failed"]> (statuses (sys_queue w))
      else
        dirs_to (w_fs (disk st2)) target ∧ created_dirs target (w_fs store) (w_fs (disk st2)) ∧
        statuses r2 = <["task:" +:+ TaskId resp := "success"]> (statuses (sys_queue w)).
Proof.
  intros path store target Henv Hs Hwk Hup Hvp Hvn Hvb Hf Hmay Hl Hl' Hw Hq Hn Ht Ho.
  split. { intros Htrim. destruct (normalize_props path) as (_ & _ & Hc). by rewrite Hc, Htrim. }
  assert (target = clean_comps (LocalStorage.full l path)) as Htarget by (symmetry; apply full_comps, Henv).
  rewrite Htarget in *. clear target Htarget. destruct (servers_of_local env l s Henv Hs) as (v & addr & Eg).
  rewrite (worker_of_local env l wk Henv Hwk), Eg in *. clear Eg Hwk.
  destruct (CreateFolder_on_disk l ctx' path (sys_store w)) as (st2 & Est & Hd & Hc); [apply Henv|done..|].
  set (g := NewGRPCServer addr v _) in *. set (c := folder_call now ctx parent name by_).
  set (missing := bool_decide (parent = "" ∨ name = "")).
  set (res := if missing then Err (ErrNew "missing params") else Ok tt). set (st' := if missing then sys_store w else st2).
  destruct (CreateFolder_end_to_end (queue_of env) (Tasks.NewProcessorWithStorage (local_storage l)) waiting statuses
    (identified v c) ctx' now parent name by_ (sys_queue w) (sys_store w) res st')
    as (Hx & id & r1 & r2 & E1 & E2 & Hw2 & Hs2); [|done..| |].
  { subst c g. destruct Hmay as (a & Ha & _). unfold identified. cbn [folder_call rpc_ctx gs_Verifier NewGRPCServer] in *. by rewrite Ha. }
  { fold missing. subst res st'. by destruct missing. }
  rewrite (serve_unary_may g fuel c path PermWrite) by done. subst c.
  cbn [folder_call rpc_now rpc_method rpc_req]. rewrite (invoke_unary_bound _ _ _ _ _ _ (bind_CreateFolder _ _ _ _ _ _)).
  unfold handler_CreateFolder, bind, in_queue.
  change (queue (gs_Handler g)) with (queue_of env). change (gs_Verifier g) with v. fold (folder_call now ctx parent name by_).
  rewrite E1. eexists _, (mkSys (sys_acl w) (sys_store w) r1). split; [done|]. split; [done|]. split; [done|].
  exists r2, st'. split; [done|]. split; [done|]. rewrite Hs2. subst res st'. by destruct missing.
Qed.
End Folder.
End Process.

(** ** Concrete instances *)

#[local] Existing Instance toy_lib.
#[local] Existing Instance toy_laws.
#[local] Existing Instance dispatch_service.

(** The disk of the examples, and a user who was given write access to "/docs". *)
Definition demo_process (faults : list (option errno)) : sys InMemory.InMemoryACLStore stores unit :=
  mkSys (SetACLs InMemory.NewInMemoryACLStore [mkACL "/docs" "user:user-1" {[PermWrite := true]}])
    (mkStores (W3 := unit) (Wg := unit) (demo_world faults) tt tt) tt.

Lemma secret_local : local_env secret_env (LocalStorage.New "/mnt/files").
Proof. split_and!; [vm_compute; left|reflexivity..]. Qed.

Lemma demo_may faults perm :
  perm = PermRead ∨ perm = PermWrite →
  may (gs_Verifier (GRPC secret_servers)) (sys_acl (demo_process faults)) token_ctx "/docs/a" perm.
Proof.
  intros Hp. exists (mkAuthContext "user-1" ["viewer"]). split; [vm_compute; reflexivity|].
  apply Allowed_spec. destruct Hp as [-> | ->]; vm_compute; reflexivity.
Qed.

Lemma upload_reaches_disk_witness :
  let w := demo_process [None; None; Some ENOSPC] in
  let file (w : sys InMemory.InMemoryACLStore stores unit) :=
    local_obj (LocalStorage.New "/mnt/files") (disk (sys_store w)) "/docs/a" in
  ∃ r w1, serve_unary (GRPC secret_servers) 40 (upload_call demo_now token_ctx "/docs/a" "new") w = Some (r, w1) ∧
    match r with
    | Ok resp => resp = RespUploadObject true ∧ file w1 = Some "new"
    | Err _ => file w1 = file w ∨ file w1 = Some "new"
    end ∧
    ∃ str w2, serve_stream (GRPC secret_servers) 40 token_ctx "/fileengine.FileEngine/DownloadObject"
                [Ok (DownloadObjectRequest "/docs/a")] (fun _ => None) w1 = Some (Ok str, w2) ∧
      (stream_status str = None → file w1 = Some (foldr String.append "" (chunks str))).
Proof.
  apply (upload_reaches_disk no_aws no_s3 no_gcs any_redis 4096 any_pool secret_env
    (LocalStorage.New "/mnt/files") secret_servers 40 demo_now token_ctx token_ctx "/docs/a" "new" (fun _ => None)
    (demo_process [None; None; Some ENOSPC])).
  - apply secret_local.
  - reflexivity.
  - apply demo_nolinks.
  - exists ["mnt"; "files"; "docs"], "a". split; [vm_compute; reflexivity|]. intros n. discriminate.
  - solve_fuel.
  - apply demo_may. by right.
  - apply demo_may. by left.
Defined.

(** The same process over the Redis of the examples. *)
Definition mem_client (addr : string) : redis_client (list string * gmap string string) := Redisq.client mem_queue.

Definition mem_process : sys InMemory.InMemoryACLStore stores (list string * gmap string string) :=
  mkSys (sys_acl (demo_process [])) (sys_store (demo_process [])) ([], ∅).

Definition mem_servers : Servers (W3 := unit) (Wg := unit) (R := list string * gmap string string) :=
  let b := backend_storage 4096 (BLocal (LocalStorage.New "/mnt/files")) in
  let v := mkVerifier "s3cr3t" None "" "" in
  mkServers (NewGRPCServer ":50051" v (NewGRPCHandler mem_queue (NewObjectService b)))
    (NewHTTPServer ":8080" ":50051" v b) (PostgresAcl "pool").

Definition mem_worker : Tasks.Worker (list string * gmap string string) (stores (W3 := unit) (Wg := unit)) :=
  Tasks.NewWorker mem_queue (Tasks.NewProcessorWithStorage
    (backend_storage 4096 (BLocal (LocalStorage.New "/mnt/files")))).

Lemma folder_reaches_disk_witness :
  let target := ["mnt"; "files"; "docs"; "new"] in
  ∃ resp w1, serve_unary (GRPC mem_servers) 40 (folder_call demo_now token_ctx "/docs" "new" "ana") mem_process =
      Some (Ok (RespCreateFolder resp), w1) ∧
    Status resp = "queued" ∧ sys_store w1 = sys_store mem_process ∧
    ∃ r2 st2, Tasks.round mem_worker live (sys_queue w1, sys_store w1) = Some (Ok tt, (r2, st2)) ∧ r2.1 = [] ∧
      dirs_to (w_fs (disk st2)) target ∧ created_dirs target demo_fs (w_fs (disk st2)) ∧
      r2.2 = <["task:" +:+ TaskId resp := "success"]> ∅.
Proof.
  eapply proj2. apply (folder_reaches_disk no_aws no_s3 no_gcs mem_client 4096 any_pool fst snd secret_env
    (LocalStorage.New "/mnt/files") mem_servers mem_worker 40 demo_now token_ctx live "/docs" "new" "ana" mem_process).
  - apply secret_local.
  - reflexivity.
  - reflexivity.
  - apply mem_redis_up.
  - by apply valid_ascii.
  - by apply valid_ascii.
  - by apply valid_ascii.
  - solve_fuel.
  - exists (mkAuthContext "user-1" ["viewer"]). split; [vm_compute; reflexivity|].
    apply Allowed_spec. vm_compute. reflexivity.
  - reflexivity.
  - reflexivity.
  - reflexivity.
  - reflexivity.
  - apply (demo_nolinks []).
  - apply (demo_tree_ok []).
  - intros k n [r E] Hk. destruct k as [|x k].
    + revert Hk. by intros [= <-].
    + injection E as <- E. change (demo_fs !! ("mnt" :: k) = Some n) in Hk.
      unfold demo_fs in Hk. by rewrite !lookup_insert_ne in Hk by done.
Defined.
